(* ===== verification/_CoqProject ===== *)
-Q . S2P
Prelude.v
Float64.v
Redis.v
RedisMem.v
ScriptsSingle.v
ScriptsSem.v
ScriptsRW.v
ScriptsRate.v
Errors.v
Requests.v
RWLock.v
RWEffect.v
RWMachine.v
GoRuntime.v
RWFair.v
RWLine.v
Scenario.v
RWStranded.v
Lease.v
SingleOwner.v
SingleSafety.v
PermitSet.v
PermitSafety.v
Keys.v
Backoff.v
Config.v
Renewer.v
Guard.v
GuardSafety.v
RWWriter.v
RWReader.v
Retry.v
Handout.v
Guarantee.v
Prompt.v
Mutex.v
RWMutex.v
Semaphore.v
Leader.v
Takeover.v
Admission.v
RWTurn.v
RateLog.v
RateLimiter.v
RateWindow.v
RateBucket.v
RateEquiv.v
RatePeriod.v
Prometheus.v
Telemetry.v
Application.v
Demo.v
