(* ===== verification/Prelude.v ===== *)
(** * distsync: distributed synchronization over Redis

    A model in Rocq of the Go library [distsync] and of its Lua scripts, with
    the theorems that make it correct.

    ** The program and its parts

    A client asks a Redis server to run a script or a command, atomically.
    Leases ([internal/lease]) are built on these requests: an owner token on
    the server and a deadline on the client's clock.  The primitives [Mutex],
    [RWMutex], [Semaphore] and [Leader] acquire a lease in a retry loop, hold
    it in a handle ([guard.go]) with a heartbeat or watchdog loop and a
    deadline timer, and release it once.  [RateLimiter] uses scripts of its
    own and no lease.  All report to a metrics sink and a tracer.

    ** Files, from the server up

    - [Prelude]: automation, Go's durations and integers, Lua's integers,
      decimal strings, strings as keys.
    - [Float64]: IEEE doubles as multiples of 2^-1074, with a check against
      the floating-point numbers of the Standard Library.
    - [Redis]: the server as a parameter ([RedisOps], [RedisLaws]), one law per
      command; scripts as trees of commands, run on a server or on a keyspace,
      and the lemma that the two agree.  [RedisMem]: a server that obeys the
      laws, for the examples.
    - [ScriptsSingle], [ScriptsSem], [ScriptsRW], [ScriptsRate]: the files of
      [internal/lua/], command by command.  [Requests]: what a client sends,
      [internal/lua/scripts.go].
    - [Errors]: [errors.go], the sentinels, wrapping and joining, panics.
    - [RWLock], [RWEffect], [RWMachine], [RWFair], [RWLine], [RWStranded]: the
      state of a read-write lock on the server, the machine that the two
      scripts and the requests of its users refine, its invariant, its queue,
      who stands in the queue while others come and go, and the entry that
      nobody can remove.
    - [GoRuntime]: the world of a Go program (server, clock, schedule, log of
      reports), calls, clocks, contexts, [select], and a program logic for
      interference.  [Scenario]: concrete schedules.
    - [Lease] ([lease.go]), [SingleOwner] and [SingleSafety] ([single.go]),
      [PermitSet] and [PermitSafety] ([permit.go]), [RWWriter] and [RWReader]
      ([rw.go]), [Renewer] ([renewer.go]).
    - [Keys] ([redis/key.go]), [Backoff] and [Config] ([options.go],
      [dist.go]).
    - [Guard] and [GuardSafety] ([guard.go]), over the class [LeaseLaws], of
      which the leases are instances.
    - [Retry] and [Handout]: what the primitives share; [Guarantee]: what all
      the requests of a handle keep of the server; [Mutex] ([mutex.go],
      [once.go]), [RWMutex] ([rwmutex.go]), [Semaphore] ([semaphore.go]),
      [Leader] ([leader.go]).  [Prompt]: schedules on which the server answers;
      [Takeover], [Admission] and [RWTurn]: a client that waits gets the lock
      that was left, the permits that fit, its turn in the queue of writers.
    - [RateLimiter] ([ratelimiter.go]); [RateLog]: the history of a limiter's
      key; [RateWindow], [RateBucket], [RateEquiv], [RatePeriod]: what the
      four algorithms admit.
    - [Prometheus] ([metrics/prometheus.go]), [Telemetry]
      ([telemetry/telemetry.go]): over the two third-party libraries as
      parameters.  [Application]: programs that use all of it.  [Demo]
      ([examples/basic], [examples/cluster]): two such programs, which print
      and exit.

    Definitions keep the names of the code; where two files of the code use
    one name, the file qualifies it.  A method that changes its receiver
    returns the new one; a guard remembered by reference is an index into the
    list of the guards handed out.

    ** What is proved

    - Exclusion: [mutex_excludes], [rw_excludes], [semaphore_capacity] (the
      clients keep the set within the capacity, so their permits are),
      [one_leader], for whole histories of several clients under every
      schedule; fencing tokens grow ([fencing_monotone]); a stale client
      cannot harm the holder ([stale_client_harmless]).
    - Leases: a deadline is backed by the server ([renew_backed]), loss is
      final, late grants are given back, a free lock is granted; the loops
      keep or lose the lease ([loops_keep_lease]) and end.
    - Progress: an abandoned lock is taken over, and a role has a new leader,
      once the old lease has run out, within one pause and the time of the
      calls ([lock_takes_over], [failover]); a semaphore admits a waiting
      client once there is room ([semaphore_admits]); a writer that waits is
      not starved by those who come after it ([writer_not_starved]).
    - Permits: the set never outgrows the capacity ([capacity_invariant]), a
      request is granted exactly when it fits ([permits_granted_iff_room]),
      and acquiring and releasing is a round trip ([permits_returned]).
    - The read-write lock: the server, over whole histories of requests and
      passing time, refines a machine ([rw_refines]) that excludes
      ([rw_inv_kept]) and serves its queue in order
      ([no_overtaking], [write_granted_iff], [read_granted_iff]).
    - Termination: [lock_returns], [rw_lock_returns], [rl_acquire_returns],
      [loop_terminates].
    - Rate limiters: the windows admit exactly what fits
      ([fixed_window_exact], [sliding_window_exact]; a sliding window as far
      as stamps arrive in order, and otherwise less the time by which they do
      not), and are as long as they should be up to rounding
      ([window_accuracy]); the buckets at most
      capacity plus rate times time, in the arithmetic of the doubles
      ([token_bucket_rate], [leaky_bucket_rate]); the two buckets are one
      algorithm ([buckets_equivalent]); [Allow] never panics
      ([allow_results]).
    - Names: the keys of a name with a hash tag share a slot
      ([derived_keys_share_slot]); those of any other name are hashed by
      different texts ([hashed_text_exact]).
    - Leaders: what a run leaves behind and returns, alone or next to other
      runs on the same value ([leadership_ends]).
    - Reports: what an application reports is from a finite vocabulary, its
      spans nest, end, and carry exactly the errors of their operations, and a
      sink has a bounded number of series ([application_reports],
      [application_traced], [application_series]); so for the demonstration programs ([demos_tame]).
    - Defects: [half_left_blocks], and by examples
      [untagged_names_cross_slots], [minute_too_short],
      [loss_not_tolerated].

    ** How to read the theorems

    A schedule ([turn]s) decides everything that is not the program's: other
    clients' requests before, between and after its own, the passing of time
    on both clocks, requests that are lost, repeated or answered late, the
    choice of a [select], random numbers.  Theorems hold for every schedule
    within a stated rely condition on the others' requests.  Clocks of a
    client and the server may drift by 1% against each other, the margin that
    [requestExpiry] allows for; the semaphore, the readers and the rate
    limiters, which stamp with the clients' clocks, state bounds on the skew
    between them.

    The theorems on progress ask for more: the server serves and answers
    every call once, within a stated time, and its clock does not fall behind
    by more than 1% either.  [writer_not_starved] also asks that the clocks of
    those who come later are not ahead by more than the timeout of the queue
    (an entry is dated by the client that makes it), and that those who held
    the lock or stood in the queue before do not try again.

    Fuel.  The purge loop takes [rw_fuel], which is proved to suffice for
    every queue.  [retry_loop], [rl_Acquire] and [loop] take fuel for the
    attempts; the termination theorems give a fuel from the context's
    deadline (for a loop, the time of the stop) at which they never run out.

    ** Assumptions and limits

    - The server is a parameter with documented behaviour; its numbers are
      printed so that a double survives ([law_numbers]).  Integers of a script
      are exact up to 2^53, which the theorems require of clocks and counters.
    - Operations on one handle interleave as a whole, except that its timer
      and the expiry of a call's context can come inside a call; a request is
      not delivered after its call has returned; setting a timer is atomic
      with computing its delay.
    - Several runs on one [Leader] value: the theorems take the view of one of
      them; the others are what they do to the two shared fields, and their
      requests are other clients'.
    - Contexts are never nil (the code panics), and a context is the time at
      which it is done and the error it then has.
    - The texts of errors are approximate where they quote or print numbers.
    - A Go or Lua compiler may not fuse a multiplication and an addition of
      doubles (on architectures where Go does, results differ by a rounding).

    ** Not modelled

    The tests; dialing and [PING] in the demonstration programs, and what a
    callback prints.  The one-line accessors ([Name], [Redis], [Capacity],
    [Context], [Lost], ...) return fields of the records.  Connections,
    encodings and the transport retries of go-redis are part of the
    schedule. *)
From Stdlib Require Export ZArith Lia ZifyBool.
From Stdlib Require Import DecimalString DecimalZ.
From stdpp Require Export sorting base tactics gmap strings option numbers list.

#[global] Open Scope Z_scope.

(** ** Automation of the development *)

Create HintDb distsync.

(** Case analysis on the scrutinee of the first [match] or [if] found. *)
Ltac case_on :=
  match goal with
  | |- context [match ?x with _ => _ end] => destruct x eqn:?
  | H : context [match ?x with _ => _ end] |- _ => destruct x eqn:?
  end.

(** Splits every conjunction and existential of the context and clears the
    equations between constructors. *)
Ltac inv_all :=
  repeat match goal with
  | H : _ ∧ _ |- _ => destruct H
  | H : ∃ _, _ |- _ => destruct H
  | H : False |- _ => destruct H
  | H : ?a = ?a |- _ => clear H
  | H : (_, _) = (_, _) |- _ => injection H; clear H; intros
  | H : Some _ = Some _ |- _ => injection H; clear H; intros
  | H : true = false |- _ => discriminate H
  | H : false = true |- _ => discriminate H
  end; simplify_eq.

(** Turns boolean comparisons of the code into propositions for [lia]. *)
Ltac to_prop :=
  repeat match goal with
  | H : bool_decide _ = true |- _ => apply bool_decide_eq_true in H
  | H : bool_decide _ = false |- _ => apply bool_decide_eq_false in H
  | H : (_ && _)%bool = true |- _ => apply andb_true_iff in H as [??]
  | H : (_ || _)%bool = false |- _ => apply orb_false_iff in H as [??]
  | H : negb _ = true |- _ => apply negb_true_iff in H
  | H : negb _ = false |- _ => apply negb_false_iff in H
  end.

(** ** Machine integers and durations *)

(** Go's [time.Duration] constants, in nanoseconds. *)
Definition Nanosecond : Z := 1.
Definition Millisecond : Z := 1000000.
Definition Second : Z := 1000 * Millisecond.

Definition int64_min : Z := - 2 ^ 63.
Definition int64_max : Z := 2 ^ 63 - 1.

(** Two's complement wrap-around of a Go [int64]. *)
Definition wrap64 (z : Z) : Z := (z + 2 ^ 63) mod 2 ^ 64 - 2 ^ 63.

(** Go's [uint64(x)] conversion of an [int64]. *)
Definition to_uint64 (z : Z) : Z := z mod 2 ^ 64.

Definition in_int64 (z : Z) : bool := (int64_min <=? z) && (z <=? int64_max).

(** [Duration.Milliseconds]: integer division truncates towards zero. *)
Definition Milliseconds (d : Z) : Z := d ÷ Millisecond.

(** [Time.UnixMilli] of a clock reading in nanoseconds after the epoch; it
    rounds down. *)
Definition UnixMilli (t : Z) : Z := t / Millisecond.

Lemma wrap64_id z : int64_min ≤ z ≤ int64_max → wrap64 z = z.
Proof. unfold wrap64, int64_min, int64_max; intros; rewrite Z.mod_small; lia. Qed.

Lemma to_uint64_id z : 0 ≤ z ≤ int64_max → to_uint64 z = z.
Proof. unfold to_uint64, int64_max; intros; rewrite Z.mod_small; lia. Qed.

Lemma in_int64_spec z : in_int64 z = true ↔ int64_min ≤ z ≤ int64_max.
Proof. unfold in_int64; rewrite andb_true_iff, !Z.leb_le; lia. Qed.

Lemma Milliseconds_mono a b : 0 ≤ a ≤ b → Milliseconds a ≤ Milliseconds b.
Proof. unfold Milliseconds, Millisecond; intros; apply Z.quot_le_mono; lia. Qed.

Lemma Milliseconds_bounds d :
  0 ≤ d → Millisecond * Milliseconds d ≤ d < Millisecond * Milliseconds d + Millisecond.
Proof.
  unfold Milliseconds, Millisecond; intros.
  pose proof (Z.quot_rem' d 1000000); pose proof (Z.rem_bound_pos d 1000000); lia.
Qed.

Lemma UnixMilli_bounds t :
  Millisecond * UnixMilli t ≤ t < Millisecond * UnixMilli t + Millisecond.
Proof.
  unfold UnixMilli, Millisecond.
  pose proof (Z.div_mod t 1000000); pose proof (Z.mod_pos_bound t 1000000); lia.
Qed.

Lemma UnixMilli_mono a b : a ≤ b → UnixMilli a ≤ UnixMilli b.
Proof. unfold UnixMilli, Millisecond; intros; apply Z.div_le_mono; lia. Qed.

#[export] Hint Resolve wrap64_id to_uint64_id UnixMilli_mono : distsync.

(** ** Lua numbers *)

(** A Lua number is an IEEE double.  An integer that a script receives from
    Redis is converted to the nearest double, ties to even; the conversion is
    exact up to 2^53. *)
Definition double_of_Z (z : Z) : Z :=
  if Z.abs z <=? 2 ^ 53 then z
  else
    let u := 2 ^ (Z.log2 (Z.abs z) - 52) in
    let q := Z.abs z / u in
    let r := Z.abs z mod u in
    let up := if 2 * r =? u then Z.odd q else u <? 2 * r in
    Z.sgn z * ((if up then q + 1 else q) * u).

Lemma double_of_Z_exact z : Z.abs z ≤ 2 ^ 53 → double_of_Z z = z.
Proof. unfold double_of_Z; intros ->%Z.leb_le; done. Qed.

(** Beyond 2^53 two successive integers can become the same double. *)
Example double_of_Z_collides : double_of_Z (2 ^ 53 + 1) = double_of_Z (2 ^ 53).
Proof. vm_compute; reflexivity. Qed.

#[export] Hint Resolve double_of_Z_exact : distsync.

(** ** Decimal strings ([strconv.Itoa], [strconv.FormatInt], Lua's [tonumber]) *)

Definition itoa (z : Z) : string := NilZero.string_of_int (Z.to_int z).
Definition atoi (s : string) : option Z := Z.of_int <$> NilZero.int_of_string s.

Lemma Z_to_int_nonnil z : Z.to_int z ≠ Decimal.Pos Decimal.Nil ∧ Z.to_int z ≠ Decimal.Neg Decimal.Nil.
Proof.
  destruct z as [|p|p]; simpl; [done| |];
    (split; [|]); try done; intros [= H];
    exact (DecimalPos.Unsigned.to_uint_nonnil p H).
Qed.

Lemma atoi_itoa z : atoi (itoa z) = Some z.
Proof.
  unfold atoi, itoa; destruct (Z_to_int_nonnil z).
  rewrite NilZero.isi by done; simpl; by rewrite DecimalZ.of_to.
Qed.

#[export] Instance itoa_inj : Inj (=) (=) itoa.
Proof. intros a b H%(f_equal atoi); rewrite !atoi_itoa in H; congruence. Qed.

(** ** Strings *)

Lemma append_inj_l (a b b' : string) : a +:+ b = a +:+ b' → b = b'.
Proof. induction a as [|ch a IH]; [done|]. intros [= H]; by apply IH. Qed.
