(* ===== verification/Float64.v ===== *)
(** * The double-precision numbers of Go and Lua

    Go's [float64] and Lua's only number type are IEEE 754 doubles.  Every
    finite double is a whole multiple of [2^-1074], the smallest subnormal,
    and is kept as that multiple; an operation is the exact one followed by
    [round_mag], the rounding to nearest with ties to even, which at this
    scale is right for subnormal numbers too.  There is one zero: the sign of
    zero is not observed by the code. *)
From S2P Require Import Prelude.
From Stdlib Require Import SpecFloat.
Open Scope Z_scope.

Inductive float64 :=
  | NaN
  | Inf (neg : bool)
  | Fin (z : Z).   (** [z * 2^-1074] *)

#[export] Instance float64_eq_dec : EqDecision float64.
Proof. solve_decision. Defined.

(** The number one, in units of [2^-1074]. *)
Definition unit64 : Z := 2 ^ 1074.

(** The first magnitude that overflows, [2^1024]. *)
Definition max64 : Z := 2 ^ 2098.

(** [n / d], after dividing both by the power of two in [d]. *)
Fixpoint quotient_pos (n : Z) (d : positive) : Z :=
  match d with
  | xO d => quotient_pos (Z.div2 n) d
  | _ => n / Z.pos d
  end.
Definition quotient (n d : Z) : Z := match d with Z.pos p => quotient_pos n p | _ => n / d end.

(** The quotient [n / d] of a nonnegative and a positive integer rounded to a
    whole number of at most 53 significant bits.  Its definition is
    [round_mag_near] below, arranged so that it evaluates with one division. *)
Definition round_mag (n d : Z) : Z :=
  let t := quotient n d in
  let k := Z.max 0 (Z.log2 t - 52) in
  let u := Z.shiftl d k in
  let q := Z.shiftr t k in
  let r := n - q * u in
  Z.shiftl (if (2 * r <? u) || ((2 * r =? u) && Z.even q) then q else q + 1) k.

Definition fround (n d : Z) : float64 :=
  let m := round_mag (Z.abs n) d in
  if m <? max64 then Fin (Z.sgn n * m) else Inf (n <? 0).

Definition of_Z (z : Z) : float64 := fround (z * unit64) 1.

Definition fneg (x : float64) : float64 :=
  match x with NaN => NaN | Inf s => Inf (negb s) | Fin z => Fin (- z) end.

Definition fadd (x y : float64) : float64 :=
  match x, y with
  | NaN, _ | _, NaN => NaN
  | Inf s, Inf t => if eqb s t then Inf s else NaN
  | Inf s, _ | _, Inf s => Inf s
  | Fin a, Fin b => fround (a + b) 1
  end.

Definition fsub (x y : float64) : float64 := fadd x (fneg y).

Definition is_neg (x : float64) : bool :=
  match x with NaN => false | Inf s => s | Fin z => z <? 0 end.
Definition is_zero (x : float64) : bool := match x with Fin z => z =? 0 | _ => false end.

Definition fmul (x y : float64) : float64 :=
  match x, y with
  | NaN, _ | _, NaN => NaN
  | Fin a, Fin b => fround (a * b) unit64
  | _, _ => if is_zero x || is_zero y then NaN else Inf (xorb (is_neg x) (is_neg y))
  end.

Definition fdiv (x y : float64) : float64 :=
  match x, y with
  | NaN, _ | _, NaN => NaN
  | Inf _, Inf _ => NaN
  | Inf s, Fin b => Inf (xorb s (b <? 0))
  | Fin _, Inf _ => Fin 0
  | Fin a, Fin b =>
      if b =? 0 then (if a =? 0 then NaN else Inf (a <? 0))
      else fround (Z.sgn b * a * unit64) (Z.abs b)
  end.

(** [x < y] and [x <= y]; a comparison with [NaN] is false. *)
Definition fltb (x y : float64) : bool :=
  match x, y with
  | NaN, _ | _, NaN => false
  | Fin a, Fin b => a <? b
  | Inf s, Inf t => s && negb t
  | Inf s, Fin _ => s
  | Fin _, Inf t => negb t
  end.
Definition fleb (x y : float64) : bool :=
  match x, y with
  | NaN, _ | _, NaN => false
  | Fin a, Fin b => a <=? b
  | Inf s, Inf t => s || negb t
  | Inf s, Fin _ => s
  | Fin _, Inf t => negb t
  end.

Definition is_nan (x : float64) : bool := match x with NaN => true | _ => false end.
Definition is_inf (x : float64) : bool := match x with Inf _ => true | _ => false end.

(** [math.Ceil] and [math.floor]. *)
Definition fceil (x : float64) : float64 :=
  match x with Fin z => Fin (- (- z / unit64) * unit64) | _ => x end.
Definition ffloor (x : float64) : float64 :=
  match x with Fin z => Fin (z / unit64 * unit64) | _ => x end.

(** The conversion to an integer drops the fraction.  What is out of range
    becomes the smallest [int64], as on the usual machines. *)
Definition ftrunc (x : float64) : Z :=
  match x with
  | Fin z => let t := z ÷ unit64 in if in_int64 t then t else int64_min
  | _ => int64_min
  end.

(** The values a double can have. *)
Definition double (v : Z) : Prop := round_mag (Z.abs v) 1 = Z.abs v ∧ Z.abs v < max64.

(** ** Checks against the floating-point numbers of the Standard Library *)

Definition to_spec (x : float64) : spec_float :=
  match x with
  | NaN => S754_nan
  | Inf s => S754_infinity s
  | Fin z => binary_normalize 53 1024 z (-1074) false
  end.
#[local] Instance spec_float_eq_dec : EqDecision spec_float.
Proof. solve_decision. Defined.
Definition agree (x y : float64) : bool :=
  bool_decide (to_spec (fadd x y) = SFadd 53 1024 (to_spec x) (to_spec y)) &&
  bool_decide (to_spec (fsub x y) = SFsub 53 1024 (to_spec x) (to_spec y)) &&
  bool_decide (to_spec (fmul x y) = SFmul 53 1024 (to_spec x) (to_spec y)) &&
  bool_decide (to_spec (fdiv x y) = SFdiv 53 1024 (to_spec x) (to_spec y)) &&
  bool_decide (fltb x y = SFltb (to_spec x) (to_spec y)) &&
  bool_decide (fleb x y = SFleb (to_spec x) (to_spec y)).

Definition samples : list (float64 * float64) :=
  [(of_Z 3, of_Z (-7)); (fdiv (of_Z 1) (of_Z 3), fdiv (of_Z (-2)) (of_Z 10));
   (of_Z (2 ^ 62 + 12345), fdiv (of_Z 1) (of_Z 1000)); (of_Z (2 ^ 53 - 1), of_Z 1);
   (Fin (2 ^ 52 + 1), of_Z 2); (Fin ((2 ^ 53 - 1) * 2 ^ 2045), of_Z 2); (Inf true, of_Z 5)].

(** Sums, differences, products, quotients and comparisons of the samples are
    those of IEEE 754. *)
Example agrees_with_ieee : forallb (λ p, agree p.1 p.2) samples = true.
Proof. vm_cast_no_check (eq_refl true). Qed.

(** ** Rounding *)

Lemma unit64_pos : 0 < unit64.
Proof. apply Z.pow_pos_nonneg; lia. Qed.
Lemma max64_eq : max64 = 2 ^ 1024 * unit64.
Proof. unfold max64, unit64. rewrite <- Z.pow_add_r by lia. reflexivity. Qed.
#[global] Opaque unit64 max64.
#[export] Hint Resolve unit64_pos : distsync.

Definition scale (n d : Z) : Z := Z.max 0 (Z.log2 (n / d) - 52).

(** Half-even rounding of [n / u]. *)
Definition near (n u : Z) : Z :=
  let q := n / u in
  let r := n mod u in
  if (2 * r <? u) || ((2 * r =? u) && Z.even q) then q else q + 1.

Lemma quotient_div n d : quotient n d = n / d.
Proof.
  destruct d as [|p|p]; [done| |done]. simpl. revert n. induction p as [p _|p IH|]; intros n; simpl; [done| |done].
  rewrite IH, Z.div2_div, Z.div_div by lia. done.
Qed.

Lemma round_mag_near n d : round_mag n d = near n (d * 2 ^ scale n d) * 2 ^ scale n d.
Proof.
  unfold round_mag, near, scale; cbn zeta. rewrite quotient_div. set (k := Z.max 0 (Z.log2 (n / d) - 52)).
  assert (0 ≤ k) as Hk by lia. assert (0 < 2 ^ k) by (apply Z.pow_pos_nonneg; lia).
  rewrite !Z.shiftl_mul_pow2, Z.shiftr_div_pow2 by done.
  assert (n / d / 2 ^ k = n / (d * 2 ^ k)) as ->.
  { destruct (Z.eq_dec d 0) as [->|Hd]; [|by apply Z.div_div]. by rewrite Z.mul_0_l, !Z.div_0_r. }
  assert (n - n / (d * 2 ^ k) * (d * 2 ^ k) = n mod (d * 2 ^ k)) as ->; [|done].
  pose proof (Z_div_mod_eq_full n (d * 2 ^ k)). lia.
Qed.

Lemma near_spec n u :
  0 < u → n / u ≤ near n u ≤ n / u + 1 ∧ 2 * Z.abs (near n u * u - n) ≤ u.
Proof.
  intros Hu; unfold near; cbn zeta. pose proof (Z.div_mod n u ltac:(lia)).
  pose proof (Z.mod_pos_bound n u Hu). set (q := n / u) in *; set (r := n mod u) in *.
  destruct (Z.ltb_spec (2 * r) u), (Z.eqb_spec (2 * r) u); simpl; try (destruct (Z.even q)); lia.
Qed.

Lemma near_mono n u n' u' : 0 < u → 0 < u' → n * u' ≤ n' * u → near n u ≤ near n' u'.
Proof.
  intros Hu Hu' H. unfold near; cbn zeta.
  pose proof (Z.div_mod n u ltac:(lia)). pose proof (Z.mod_pos_bound n u Hu).
  pose proof (Z.div_mod n' u' ltac:(lia)). pose proof (Z.mod_pos_bound n' u' Hu').
  set (q := n / u) in *; set (r := n mod u) in *; set (q' := n' / u') in *; set (r' := n' mod u') in *.
  assert (q ≤ q') as Hq.
  { apply Z.nlt_ge; intros Hlt. assert (n' * u < n * u'); [|lia].
    assert (n' * u < (q' + 1) * u' * u) by (apply Z.mul_lt_mono_pos_r; lia).
    assert (q * u * u' ≤ n * u') by (apply Z.mul_le_mono_nonneg_r; lia).
    assert ((q' + 1) * (u' * u) ≤ q * (u' * u)) by (apply Z.mul_le_mono_nonneg_r; nia). lia. }
  destruct (Z.eq_dec q q') as [<-|]; [|case_match; case_match; lia].
  assert (r * u' ≤ r' * u) as Hr by nia.
  destruct (Z.ltb_spec (2 * r) u), (Z.eqb_spec (2 * r) u), (Z.ltb_spec (2 * r') u'),
    (Z.eqb_spec (2 * r') u'); simpl; try (destruct (Z.even q)); try lia; nia.
Qed.

Lemma scale_nonneg n d : 0 ≤ scale n d.
Proof. unfold scale; lia. Qed.

(** The quotient fits in 53 bits at its scale, and fills them unless the
    scale is the smallest. *)
Lemma scale_bounds n d :
  0 ≤ n → 0 < d → n < 2 ^ 53 * (d * 2 ^ scale n d) ∧
  (0 < scale n d → 2 ^ 52 * (d * 2 ^ scale n d) ≤ n).
Proof.
  intros Hn Hd; unfold scale.
  pose proof (Z.div_mod n d ltac:(lia)). pose proof (Z.mod_pos_bound n d Hd).
  set (q := n / d) in *. assert (0 ≤ q) by (apply Z.div_pos; lia).
  assert (q < 2 ^ Z.succ (Z.log2 q)) as Hlt.
  { destruct (Z.eq_dec q 0) as [->|]; [done|]. apply Z.log2_spec; lia. }
  split.
  - assert (2 ^ Z.succ (Z.log2 q) ≤ 2 ^ 53 * 2 ^ Z.max 0 (Z.log2 q - 52)); [|nia].
    rewrite <- Z.pow_add_r by lia. apply Z.pow_le_mono_r; lia.
  - intros Hk. assert (2 ^ 52 * 2 ^ Z.max 0 (Z.log2 q - 52) ≤ q); [|nia].
    rewrite <- Z.pow_add_r by lia. replace (52 + _) with (Z.log2 q) by lia.
    apply Z.log2_spec. destruct (Z.eq_dec q 0) as [->|]; [simpl in Hk; lia|lia].
Qed.

Lemma round_mag_nonneg n d : 0 ≤ n → 0 < d → 0 ≤ round_mag n d.
Proof.
  intros Hn Hd; rewrite round_mag_near. pose proof (scale_nonneg n d).
  assert (0 < 2 ^ scale n d) by (apply Z.pow_pos_nonneg; lia).
  destruct (near_spec n (d * 2 ^ scale n d)) as [[H1 _] _]; [nia|].
  assert (0 ≤ n / (d * 2 ^ scale n d)) by (apply Z.div_pos; nia). nia.
Qed.

(** Half an ulp: relative to the number, or half the smallest subnormal. *)
Lemma round_mag_error n d :
  0 ≤ n → 0 < d →
  2 ^ 53 * Z.abs (round_mag n d * d - n) ≤ Z.max n (2 ^ 52 * d) ∧
  (n mod d = 0 → 2 ^ 53 * Z.abs (round_mag n d * d - n) ≤ n).
Proof.
  intros Hn Hd; rewrite round_mag_near. set (k := scale n d). pose proof (scale_nonneg n d); fold k in H.
  assert (0 < 2 ^ k) by (apply Z.pow_pos_nonneg; lia).
  destruct (near_spec n (d * 2 ^ k)) as [_ He]; [nia|].
  replace (near n (d * 2 ^ k) * 2 ^ k * d) with (near n (d * 2 ^ k) * (d * 2 ^ k)) by lia.
  destruct (scale_bounds n d Hn Hd) as [_ Hlo]; fold k in Hlo.
  destruct (Z.eq_dec k 0) as [Hk|Hk].
  - rewrite Hk, Z.pow_0_r, Z.mul_1_r in *. split; [lia|]. intros Hm.
    assert (near n d = n / d) as ->.
    { unfold near; cbn zeta. rewrite Hm. by rewrite (proj2 (Z.ltb_lt _ _)) by lia. }
    pose proof (Z.div_mod n d ltac:(lia)). replace (n / d * d - n) with 0 by lia. lia.
  - specialize (Hlo ltac:(lia)). split; [|intros _]; lia.
Qed.

Lemma round_mag_mono n d n' d' :
  0 ≤ n → 0 < d → 0 ≤ n' → 0 < d' → n * d' ≤ n' * d → round_mag n d ≤ round_mag n' d'.
Proof.
  intros Hn Hd Hn' Hd' H. rewrite !round_mag_near.
  set (k := scale n d); set (k' := scale n' d').
  pose proof (scale_nonneg n d); pose proof (scale_nonneg n' d'); fold k in H0; fold k' in H1.
  assert (n / d ≤ n' / d') as Hq.
  { apply Z.div_le_lower_bound; [done|]. pose proof (Z.mul_div_le n d Hd). nia. }
  assert (k ≤ k') as Hk.
  { unfold k, k', scale. pose proof (Z.log2_le_mono _ _ Hq). lia. }
  assert (0 < 2 ^ k) by (apply Z.pow_pos_nonneg; lia).
  assert (0 < 2 ^ k') by (apply Z.pow_pos_nonneg; lia).
  destruct (Z.eq_dec k k') as [Ek|Ek].
  - rewrite <- Ek. apply Z.mul_le_mono_nonneg_r; [lia|]. apply near_mono; nia.
  - destruct (scale_bounds n d Hn Hd) as [Hhi _]; fold k in Hhi.
    destruct (scale_bounds n' d' Hn' Hd') as [_ Hlo]; fold k' in Hlo. specialize (Hlo ltac:(lia)).
    assert (2 * 2 ^ k ≤ 2 ^ k') as Hpow by (rewrite <- Z.pow_succ_r by lia; apply Z.pow_le_mono_r; lia).
    assert (near n (d * 2 ^ k) ≤ 2 ^ 53).
    { destruct (near_spec n (d * 2 ^ k)) as [[_ Hn1] _]; [nia|].
      assert (n / (d * 2 ^ k) < 2 ^ 53); [|lia]. apply Z.div_lt_upper_bound; nia. }
    assert (2 ^ 52 ≤ near n' (d' * 2 ^ k')).
    { destruct (near_spec n' (d' * 2 ^ k')) as [[Hn1 _] _]; [nia|].
      assert (2 ^ 52 ≤ n' / (d' * 2 ^ k')); [|lia]. apply Z.div_le_lower_bound; nia. }
    nia.
Qed.

(** Rounding leaves a double alone, and never crosses one. *)
Lemma round_mag_scaled v c : 0 ≤ v → 0 < c → round_mag (v * c) c = round_mag v 1.
Proof.
  intros Hv Hc. apply Z.le_antisymm; apply round_mag_mono; lia.
Qed.

Lemma round_mag_le_double n d v :
  0 ≤ n → 0 < d → 0 ≤ v → round_mag v 1 = v → n ≤ v * d → round_mag n d ≤ v.
Proof. intros Hn Hd Hv Hr H. rewrite <- Hr. apply round_mag_mono; lia. Qed.

Lemma double_le_round_mag n d v :
  0 ≤ n → 0 < d → 0 ≤ v → round_mag v 1 = v → v * d ≤ n → v ≤ round_mag n d.
Proof. intros Hn Hd Hv Hr H. rewrite <- Hr. apply round_mag_mono; lia. Qed.

(** A number of at most 53 bits is a double at any scale. *)
Lemma round_mag_53 a e : 0 ≤ a ≤ 2 ^ 53 → 0 ≤ e → round_mag (a * 2 ^ e) 1 = a * 2 ^ e.
Proof.
  intros Ha He. assert (0 < 2 ^ e) by (apply Z.pow_pos_nonneg; lia).
  rewrite round_mag_near. set (n := a * 2 ^ e). set (k := scale n 1).
  destruct (scale_bounds n 1) as [_ Hlo]; [unfold n; lia|lia|]. fold k in Hlo.
  pose proof (scale_nonneg n 1) as Hk; fold k in Hk.
  assert (∃ b, n = b * 2 ^ k) as [b Hb].
  { destruct (Z.le_gt_cases k e) as [Hle|Hgt].
    - exists (a * 2 ^ (e - k)). unfold n. rewrite <- Z.mul_assoc, <- Z.pow_add_r by lia. do 2 f_equal; lia.
    - specialize (Hlo ltac:(lia)).
      assert (2 * 2 ^ e ≤ 2 ^ k) as H2 by (rewrite <- Z.pow_succ_r by lia; apply Z.pow_le_mono_r; lia).
      assert (a = 2 ^ 53 ∧ 2 ^ k = 2 * 2 ^ e) as [Ha' Hk'] by (unfold n in Hlo; nia).
      exists (2 ^ 52). unfold n; lia. }
  assert (0 < 2 ^ k) by (apply Z.pow_pos_nonneg; lia).
  rewrite Z.mul_1_l, Hb at 1. unfold near; cbn zeta.
  rewrite Z.mod_mul, Z.div_mul by lia. rewrite (proj2 (Z.ltb_lt _ _)) by lia. simpl. lia.
Qed.

(** What comes out of a rounding is a double. *)
Lemma round_mag_idem n d : 0 ≤ n → 0 < d → round_mag (round_mag n d) 1 = round_mag n d.
Proof.
  intros Hn Hd. rewrite (round_mag_near n d). pose proof (scale_nonneg n d).
  assert (0 < 2 ^ scale n d) by (apply Z.pow_pos_nonneg; lia).
  apply round_mag_53; [|done].
  destruct (scale_bounds n d Hn Hd) as [Hhi _].
  destruct (near_spec n (d * 2 ^ scale n d)) as [Hb _]; [nia|].
  assert (0 ≤ n / (d * 2 ^ scale n d)) by (apply Z.div_pos; nia).
  assert (n / (d * 2 ^ scale n d) < 2 ^ 53) by (apply Z.div_lt_upper_bound; nia). lia.
Qed.

Lemma round_mag_0 d : 0 < d → round_mag 0 d = 0.
Proof.
  intros Hd. pose proof (round_mag_nonneg 0 d ltac:(lia) Hd).
  pose proof (round_mag_le_double 0 d 0 ltac:(lia) Hd ltac:(lia) eq_refl). lia.
Qed.

Lemma fround_nonneg n d :
  0 ≤ n → 0 < d → fround n d = if round_mag n d <? max64 then Fin (round_mag n d) else Inf false.
Proof.
  intros Hn Hd; unfold fround. rewrite Z.abs_eq by lia. rewrite (proj2 (Z.ltb_ge n 0)) by lia.
  case_match; [|done]. f_equal. destruct (Z.eq_dec n 0) as [->|]; [by rewrite round_mag_0|].
  rewrite Z.sgn_pos by lia; lia.
Qed.

Lemma max64_53 z e : 0 ≤ z ≤ 2 ^ 53 → 0 ≤ e ≤ 2044 → z * 2 ^ e < max64.
Proof.
  intros Hz He. assert (2 ^ e ≤ 2 ^ 2044) by (apply Z.pow_le_mono_r; lia).
  assert (0 < 2 ^ e) by (apply Z.pow_pos_nonneg; lia).
  change max64 with (2 ^ 2098). assert (2 ^ 53 * 2 ^ 2044 < 2 ^ 2098); [|nia].
  rewrite <- Z.pow_add_r by lia. apply Z.pow_lt_mono_r; lia.
Qed.

Lemma unit64_units : unit64 = 2 ^ 1074.
Proof. reflexivity. Qed.

(** Integers up to 2^53 are exact. *)
Lemma of_Z_exact z : Z.abs z ≤ 2 ^ 53 → of_Z z = Fin (z * unit64).
Proof.
  intros Hz; unfold of_Z, fround. pose proof unit64_pos.
  rewrite Z.abs_mul, (Z.abs_eq unit64) by lia.
  assert (round_mag (Z.abs z * unit64) 1 = Z.abs z * unit64) as Hr
    by (rewrite unit64_units; apply round_mag_53; lia).
  rewrite Hr, (proj2 (Z.ltb_lt _ _)) by (rewrite unit64_units; apply max64_53; lia).
  f_equal. rewrite Z.sgn_mul, (Z.sgn_pos unit64) by lia.
  pose proof (Z.sgn_abs z). lia.
Qed.

(** ** The operations on nonnegative finite numbers

    [num v x]: the double [x] is the nonnegative number [v]. *)
Definition num (v : Z) (x : float64) : Prop := x = Fin v ∧ 0 ≤ v ∧ double v.

Lemma double_round v : 0 ≤ v → double v → round_mag v 1 = v.
Proof. intros Hv [H _]. by rewrite Z.abs_eq in H. Qed.
Lemma round_double n d : 0 ≤ n → 0 < d → round_mag n d < max64 → double (round_mag n d).
Proof.
  intros Hn Hd Hm. pose proof (round_mag_nonneg n d Hn Hd). unfold double. rewrite Z.abs_eq by done.
  split; [by apply round_mag_idem|done].
Qed.

Lemma fround_num n d :
  0 ≤ n → 0 < d → round_mag n d < max64 → num (round_mag n d) (fround n d).
Proof.
  intros Hn Hd Hm. rewrite fround_nonneg, (proj2 (Z.ltb_lt _ _)) by done.
  split; [done|split; [by apply round_mag_nonneg|by apply round_double]].
Qed.

Lemma num_of_Z z : 0 ≤ z ≤ 2 ^ 53 → num (z * unit64) (of_Z z).
Proof.
  intros Hz. pose proof unit64_pos. rewrite of_Z_exact by lia. split; [done|split; [lia|]].
  unfold double. rewrite Z.abs_eq by lia. rewrite unit64_units. split; [by apply round_mag_53|].
  apply max64_53; lia.
Qed.

(** [Fin v] up to overflow. *)
Definition capped (v : Z) : float64 := if v <? max64 then Fin v else Inf false.

Lemma capped_num v : double v → 0 ≤ v → num v (capped v).
Proof.
  intros Hd Hv. pose proof (proj2 Hd) as Hm. rewrite Z.abs_eq in Hm by done. unfold capped.
  by rewrite (proj2 (Z.ltb_lt _ _)) by done.
Qed.

Lemma fmul_fin a b : 0 ≤ a → 0 ≤ b → fmul (Fin a) (Fin b) = capped (round_mag (a * b) unit64).
Proof. intros Ha Hb. apply fround_nonneg; [lia|apply unit64_pos]. Qed.

Lemma fdiv_fin a b : 0 ≤ a → 0 < b → fdiv (Fin a) (Fin b) = capped (round_mag (a * unit64) b).
Proof.
  intros Ha Hb. pose proof unit64_pos. cbn [fdiv].
  rewrite (proj2 (Z.eqb_neq b 0)) by lia. rewrite Z.sgn_pos, Z.mul_1_l, Z.abs_eq by lia.
  apply fround_nonneg; [nia|done].
Qed.

(** A product with an integer. *)
Lemma fmul_Z a z : 0 ≤ a → 0 ≤ z ≤ 2 ^ 53 → fmul (Fin a) (of_Z z) = capped (round_mag (a * z) 1).
Proof.
  intros Ha Hz. pose proof unit64_pos. rewrite of_Z_exact, fmul_fin by lia.
  rewrite Z.mul_assoc, round_mag_scaled by lia. done.
Qed.

Lemma fadd_num a b x y : num a x → num b y → fadd x y = capped (round_mag (a + b) 1).
Proof. intros (-> & Ha & _) (-> & Hb & _). simpl. by rewrite fround_nonneg by lia. Qed.

Lemma fsub_num a b x y : num a x → num b y → b ≤ a → num (round_mag (a - b) 1) (fsub x y).
Proof.
  intros (-> & Ha & Da) (-> & Hb & _) Hle. cbn [fsub fneg fadd].
  apply fround_num; [lia|lia|]. destruct Da as [Hr Hm]. rewrite Z.abs_eq in * by done.
  apply (Z.le_lt_trans _ a); [|done]. apply round_mag_le_double; lia || done.
Qed.

Lemma fmul_num a b x y : num a x → num b y → fmul x y = capped (round_mag (a * b) unit64).
Proof. intros (-> & Ha & _) (-> & Hb & _). by apply fmul_fin. Qed.

Lemma fdiv_num a b x y : num a x → num b y → 0 < b → fdiv x y = capped (round_mag (a * unit64) b).
Proof. intros (-> & Ha & _) (-> & _ & _) Hb. by apply fdiv_fin. Qed.

Lemma fltb_capped a v : fltb (Fin a) (capped v) = false → v ≤ a.
Proof. unfold capped. case_match; [apply Z.ltb_ge|done]. Qed.
Lemma capped_fltb a v : fltb (capped v) (Fin a) = false → a < max64 → a ≤ v.
Proof.
  unfold capped. destruct (Z.ltb_spec v max64); [intros E%Z.ltb_ge _; exact E|]. intros _ ?; lia.
Qed.

Lemma unit64_big : 2 ^ 53 < unit64.
Proof. rewrite unit64_units. apply Z.pow_lt_mono_r; lia. Qed.

Lemma ftrunc_Z k : in_int64 k = true → ftrunc (Fin (k * unit64)) = k.
Proof.
  intros Hk. cbn [ftrunc]. pose proof unit64_pos. rewrite Z.quot_mul by lia. by rewrite Hk.
Qed.

(** The quotient of two integers rounds down to the integer quotient. *)
Lemma floor_quotient a b :
  0 ≤ a ≤ 2 ^ 52 → 1 ≤ b ≤ 2 ^ 52 → ftrunc (ffloor (fdiv (of_Z a) (of_Z b))) = a / b.
Proof.
  intros Ha Hb. pose proof unit64_big as Hbig. rewrite !of_Z_exact, fdiv_fin by lia.
  set (u := unit64) in *. assert (0 < u) as Hu by lia.
  assert (round_mag (a * u * u) (b * u) = round_mag (a * u) b) as ->.
  { apply Z.le_antisymm; apply round_mag_mono; nia. }
  pose proof (Z.div_mod a b ltac:(lia)). pose proof (Z.mod_pos_bound a b ltac:(lia)).
  set (k := a / b) in *. assert (0 ≤ k) by (apply Z.div_pos; lia). assert (k ≤ a) by nia.
  set (m := round_mag (a * u) b).
  assert (k * u ≤ m) as Hlo.
  { destruct (num_of_Z k) as (_ & ? & [Hk _]); [lia|]. rewrite Z.abs_eq in Hk by done.
    apply double_le_round_mag; try done; fold u; nia. }
  assert (m < (k + 1) * u) as Hhi.
  { destruct (round_mag_error (a * u) b) as [He _]; [nia|lia|]. fold m in He.
    assert (2 ^ 53 * (m * b - a * u) ≤ Z.max (a * u) (2 ^ 52 * b)) as He' by lia.
    assert (a * u ≤ ((k + 1) * b - 1) * u) as Hau by (apply Z.mul_le_mono_nonneg_r; lia).
    assert (m * b < (k + 1) * u * b); [|nia].
    assert (Z.max (a * u) (2 ^ 52 * b) < 2 ^ 53 * u); [|lia]. apply Z.max_lub_lt; nia. }
  assert (m < max64) as Hm.
  { etrans; [exact Hhi|]. unfold u; rewrite unit64_units. apply max64_53; lia. }
  unfold capped. rewrite (proj2 (Z.ltb_lt _ _) Hm). cbn [ffloor].
  assert (m / unit64 = k) as -> by (symmetry; apply (Z.div_unique m u k (m - k * u)); lia).
  apply ftrunc_Z, in_int64_spec. unfold int64_min, int64_max; lia.
Qed.

(** A count is compared with a limit below 2^53 as integers are. *)
Lemma fltb_of_Z c z : 0 ≤ z → c < 2 ^ 53 * unit64 → fltb (Fin c) (of_Z z) = (c <? z * unit64).
Proof.
  intros Hz Hc. pose proof unit64_pos.
  destruct (Z.le_gt_cases z (2 ^ 53)) as [Hle|Hgt]; [by rewrite of_Z_exact by lia|].
  rewrite (proj2 (Z.ltb_lt c _)) by nia. unfold of_Z. rewrite fround_nonneg by lia.
  assert (2 ^ 53 * unit64 ≤ round_mag (z * unit64) 1) as Hr.
  { pose proof (round_mag_53 (2 ^ 53) 1074 ltac:(lia) ltac:(lia)) as Hk. rewrite <- unit64_units in Hk.
    rewrite <- Hk at 1. apply round_mag_mono; nia. }
  case_match; [|done]. apply Z.ltb_lt; lia.
Qed.

(** A negative number stays negative. *)
Lemma fround_neg z : z < 0 → (∃ y, fround z 1 = Fin y ∧ y < 0) ∨ fround z 1 = Inf true.
Proof.
  intros Hz. unfold fround. rewrite Z.sgn_neg by done. rewrite (proj2 (Z.ltb_lt z 0)) by done.
  assert (1 ≤ round_mag (Z.abs z) 1).
  { assert (round_mag 1 1 = 1) as H by (apply (round_mag_53 1 0); lia).
    rewrite <- H at 1. apply round_mag_mono; lia. }
  case_match; [left; eexists; split; [done|lia]|by right].
Qed.

(** A double has at most 53 bits, so that its double is one too. *)
Lemma double_twice c : 0 ≤ c → round_mag c 1 = c → round_mag (2 * c) 1 = 2 * c.
Proof.
  intros Hc Hr. rewrite round_mag_near in Hr. pose proof (scale_nonneg c 1) as Hk. set (k := scale c 1) in *.
  rewrite Z.mul_1_l in Hr. assert (0 < 2 ^ k) by (apply Z.pow_pos_nonneg; lia).
  destruct (scale_bounds c 1 Hc ltac:(lia)) as [Hhi _]. fold k in Hhi. rewrite Z.mul_1_l in Hhi.
  destruct (near_spec c (2 ^ k)) as [Hb _]; [done|].
  assert (0 ≤ c / 2 ^ k) by (apply Z.div_pos; lia).
  assert (c / 2 ^ k < 2 ^ 53) by (apply Z.div_lt_upper_bound; lia).
  set (b := near c (2 ^ k)) in *. rewrite <- Hr.
  replace (2 * (b * 2 ^ k)) with (b * 2 ^ (k + 1)) by (rewrite Z.pow_add_r by lia; lia).
  apply round_mag_53; lia.
Qed.

(** Proofs compute with the lemmas above, not with the binary digits. *)
#[global] Opaque of_Z round_mag fround.
