(* ===== verification/Redis.v ===== *)
(** * The Redis server as the library sees it

    Redis (or Valkey) is not part of the repository: it is a parameter of the
    development.  [RedisOps] is what the server offers (the commands the
    scripts and the Go code issue, and the passing of time), [RedisLaws] the
    documented behaviour of each command that the code relies on, one named
    law per command.  The laws speak about [r_view], the keyspace that
    commands can see, and are stated with the functions [ref_get],
    [ref_set], ... that say what the documentation says of one command.
    [ref_exec] collects them; everything proved of a script for [ref_exec]
    holds of every server that obeys the laws ([run_refines]).

    A script is a tree of commands ([script]): the server runs it atomically,
    and a command that replies with an error aborts it, what was written
    before staying written. *)
From S2P Require Import Prelude Float64.

(** ** Data *)

Inductive value :=
  | VStr (s : string)
  | VZset (z : gmap string Z)
  | VHash (h : gmap string string).

(** A key's value and, when it has a time to live, the server time in
    milliseconds at which it expires. *)
Record entry := Entry { e_val : value; e_exp : option Z }.

Abbreviation keyspace := (gmap string entry).

Inductive reply :=
  | RNil
  | ROk
  | RInt (z : Z)
  | RBulk (s : string)
  | RArr (l : list string)
  | RInts (l : list Z)
  | RErr (msg : string).

Inductive command :=
  | GET (k : string)
  | SET (k v : string) (nx : bool) (px : Z)
  | DEL (k : string)
  | EXISTS (k : string)
  | INCRBY (k : string) (n : Z)
  | PEXPIRE (k : string) (ms : Z)
  | ZADD (k : string) (score : Z) (m : string)
  | ZREM (k m : string)
  | ZSCORE (k m : string)
  | ZCARD (k : string)
  | ZRANGE_HEAD (k : string)
  | ZRANGE_HEAD_WITHSCORES (k : string)
  | ZRANGEBYSCORE_BELOW (k : string) (max : Z)
  | ZREMRANGEBYSCORE_UPTO (k : string) (max : Z)
  | HGET (k f : string)
  | HSET (k : string) (fvs : list (string * string))
  | HDEL (k f : string).

(** The one key a command touches. *)
Definition cmd_key (c : command) : string :=
  match c with
  | GET k | SET k _ _ _ | DEL k | EXISTS k | INCRBY k _ | PEXPIRE k _
  | ZADD k _ _ | ZREM k _ | ZSCORE k _ | ZCARD k | ZRANGE_HEAD k | ZRANGE_HEAD_WITHSCORES k
  | ZRANGEBYSCORE_BELOW k _ | ZREMRANGEBYSCORE_UPTO k _
  | HGET k _ | HSET k _ | HDEL k _ => k
  end.

#[export] Instance value_eq_dec : EqDecision value.
Proof. solve_decision. Defined.
#[export] Instance entry_eq_dec : EqDecision entry.
Proof. solve_decision. Defined.
#[export] Instance reply_eq_dec : EqDecision reply.
Proof. solve_decision. Defined.

Definition WRONGTYPE : reply :=
  RErr "WRONGTYPE Operation against a key holding the wrong kind of value".
Definition BADEXPIRE : reply := RErr "ERR invalid expire time in 'set' command".
Definition NOTINT : reply := RErr "ERR value is not an integer or out of range".
Definition OVERFLOW : reply := RErr "ERR increment or decrement would overflow".

(** ** Sorted sets

    A sorted set is ordered by score, and members of equal score by their
    bytes. *)
Definition zle (a b : Z * string) : Prop :=
  a.1 < b.1 ∨ (a.1 = b.1 ∧ String.le a.2 b.2).

#[export] Instance zle_dec : RelDecision zle.
Proof. intros [s m] [s' m']; unfold zle; apply _. Defined.
#[export] Instance zle_total : Total zle.
Proof.
  intros [s m] [s' m']; unfold zle; simpl.
  destruct (total String.le m m'), (Z.lt_trichotomy s s') as [?|[?|?]]; auto.
Qed.
#[export] Instance zle_trans : Transitive zle.
Proof.
  intros [s m] [s' m'] [s'' m'']; unfold zle; simpl.
  intros [?|[-> ?]] [?|[-> ?]]; [left; lia|left; lia|left; lia|right].
  split; [done|by etrans].
Qed.

Definition zentries (z : gmap string Z) : list (Z * string) :=
  (λ p : string * Z, (p.2, p.1)) <$> map_to_list z.
Definition zsorted (z : gmap string Z) : list (Z * string) := merge_sort zle (zentries z).

(** Members with a score below [max], in order. *)
Definition zbelow (z : gmap string Z) (max : Z) : list string :=
  (filter (λ p : Z * string, p.1 < max) (zsorted z)).*2.

Lemma elem_of_zsorted z s m : (s, m) ∈ zsorted z ↔ z !! m = Some s.
Proof.
  unfold zsorted, zentries. rewrite merge_sort_Permutation.
  rewrite list_elem_of_fmap. split.
  - intros ([m' s'] & [= -> ->] & H); by apply elem_of_map_to_list in H.
  - intros H; exists (m, s); split; [done|by apply elem_of_map_to_list].
Qed.

Lemma zsorted_sorted z : StronglySorted zle (zsorted z).
Proof. apply Sorted_StronglySorted; [apply _|]; apply Sorted_merge_sort, _. Qed.

Lemma zsorted_nil z : zsorted z = [] ↔ z = ∅.
Proof.
  split; [|by intros ->]. intros H; apply map_eq; intros m; rewrite lookup_empty.
  destruct (z !! m) as [s|] eqn:E; [|done].
  apply elem_of_zsorted in E; rewrite H in E; by apply not_elem_of_nil in E.
Qed.

Lemma length_zsorted z : length (zsorted z) = size z.
Proof. unfold zsorted, zentries; by rewrite merge_sort_Permutation, length_fmap, length_map_to_list. Qed.

(** The head of a sorted set is its least element. *)
Lemma zsorted_head z s m l :
  zsorted z = (s, m) :: l →
  z !! m = Some s ∧ ∀ s' m', z !! m' = Some s' → m' = m ∨ zle (s, m) (s', m').
Proof.
  intros H; split.
  - apply elem_of_zsorted; rewrite H; by left.
  - intros s' m' E; apply elem_of_zsorted in E; rewrite H in E.
    apply elem_of_cons in E as [E|E].
    + injection E as -> ->; by left.
    + right. pose proof (zsorted_sorted z) as Hs; rewrite H in Hs.
      apply StronglySorted_inv in Hs as [_ Hall].
      rewrite Forall_forall in Hall; by apply Hall.
Qed.

Lemma elem_of_zbelow z max m :
  m ∈ zbelow z max ↔ ∃ s, z !! m = Some s ∧ s < max.
Proof.
  unfold zbelow; rewrite list_elem_of_fmap; split.
  - intros ([s m'] & -> & H); apply list_elem_of_filter in H as [? H].
    apply elem_of_zsorted in H; eauto.
  - intros (s & H & ?); exists (s, m); split; [done|].
    apply list_elem_of_filter; split; [done|by apply elem_of_zsorted].
Qed.

#[export] Instance zle_antisymm : AntiSymm (=) zle.
Proof.
  intros [s m] [s' m']; unfold zle; simpl. intros [?|[-> ?]] [?|[? ?]]; try lia.
  f_equal. by apply (anti_symm String.le).
Qed.

(** Removing the head leaves the rest in order. *)
Lemma zsorted_delete_head z s m l : zsorted z = (s, m) :: l → zsorted (delete m z) = l.
Proof.
  intros H. apply (StronglySorted_unique zle).
  - apply zsorted_sorted.
  - pose proof (zsorted_sorted z) as Hs; rewrite H in Hs. by apply StronglySorted_inv in Hs as [? _].
  - destruct (zsorted_head _ _ _ _ H) as [Hm _].
    apply (Permutation.Permutation_cons_inv (a := (s, m))). rewrite <- H.
    unfold zsorted, zentries. rewrite !merge_sort_Permutation.
    rewrite <- (insert_delete_id z m s Hm) at 2.
    rewrite map_to_list_insert by apply lookup_delete_eq. done.
Qed.

#[export] Hint Resolve zsorted_sorted : distsync.

(** ** What the documentation says of each command

    [now] is the server's clock in milliseconds.  Each function maps the
    visible keyspace to the reply and the new keyspace. *)
Definition ref_get (k : string) (m : keyspace) : reply * keyspace :=
  match m !! k with
  | None => (RNil, m)
  | Some (Entry (VStr v) _) => (RBulk v, m)
  | Some _ => (WRONGTYPE, m)
  end.

Definition ref_set (now : Z) (k v : string) (nx : bool) (px : Z) (m : keyspace) : reply * keyspace :=
  if (px <=? 0) || negb (in_int64 (now + px)) then (BADEXPIRE, m)
  else if nx && bool_decide (is_Some (m !! k)) then (RNil, m)
  else (ROk, <[k := Entry (VStr v) (Some (now + px))]> m).

Definition ref_del (k : string) (m : keyspace) : reply * keyspace :=
  match m !! k with None => (RInt 0, m) | Some _ => (RInt 1, delete k m) end.

Definition ref_exists (k : string) (m : keyspace) : reply * keyspace :=
  match m !! k with None => (RInt 0, m) | Some _ => (RInt 1, m) end.

Definition ref_incrby (k : string) (n : Z) (m : keyspace) : reply * keyspace :=
  match m !! k with
  | None => (RInt n, <[k := Entry (VStr (itoa n)) None]> m)
  | Some (Entry (VStr v) e) =>
      match atoi v with
      | None => (NOTINT, m)
      | Some z =>
          if in_int64 z then
            if in_int64 (z + n) then (RInt (z + n), <[k := Entry (VStr (itoa (z + n))) e]> m)
            else (OVERFLOW, m)
          else (NOTINT, m)
      end
  | Some _ => (WRONGTYPE, m)
  end.

Definition ref_pexpire (now : Z) (k : string) (ms : Z) (m : keyspace) : reply * keyspace :=
  match m !! k with
  | None => (RInt 0, m)
  | Some (Entry v _) =>
      if ms <=? 0 then (RInt 1, delete k m)
      else (RInt 1, <[k := Entry v (Some (now + ms))]> m)
  end.

(** A command on the sorted set at [k]: a missing key is the empty set, a set
    that becomes empty is removed, and the time to live is kept. *)
Definition on_zset (k : string) (m : keyspace)
    (f : gmap string Z → reply * gmap string Z) : reply * keyspace :=
  match m !! k with
  | None => let '(r, z) := f ∅ in (r, if decide (z = ∅) then m else <[k := Entry (VZset z) None]> m)
  | Some (Entry (VZset z0) e) =>
      let '(r, z) := f z0 in (r, if decide (z = ∅) then delete k m else <[k := Entry (VZset z) e]> m)
  | Some _ => (WRONGTYPE, m)
  end.

Definition on_hash (k : string) (m : keyspace)
    (f : gmap string string → reply * gmap string string) : reply * keyspace :=
  match m !! k with
  | None => let '(r, h) := f ∅ in (r, if decide (h = ∅) then m else <[k := Entry (VHash h) None]> m)
  | Some (Entry (VHash h0) e) =>
      let '(r, h) := f h0 in (r, if decide (h = ∅) then delete k m else <[k := Entry (VHash h) e]> m)
  | Some _ => (WRONGTYPE, m)
  end.

Definition ref_zadd (k : string) (score : Z) (x : string) (m : keyspace) : reply * keyspace :=
  on_zset k m (λ z, (RInt (if bool_decide (is_Some (z !! x)) then 0 else 1), <[x := score]> z)).
Definition ref_zrem (k x : string) (m : keyspace) : reply * keyspace :=
  on_zset k m (λ z, (RInt (if bool_decide (is_Some (z !! x)) then 1 else 0), delete x z)).
Definition ref_zscore (k x : string) (m : keyspace) : reply * keyspace :=
  on_zset k m (λ z, (match z !! x with Some s => RBulk (itoa s) | None => RNil end, z)).
Definition ref_zcard (k : string) (m : keyspace) : reply * keyspace :=
  on_zset k m (λ z, (RInt (Z.of_nat (size z)), z)).
Definition ref_zrange_head (k : string) (m : keyspace) : reply * keyspace :=
  on_zset k m (λ z, (RArr (take 1 (zsorted z).*2), z)).
Definition ref_zrange_withscores (k : string) (m : keyspace) : reply * keyspace :=
  on_zset k m (λ z, (RArr (match zsorted z with (s, x) :: _ => [x; itoa s] | [] => [] end), z)).
Definition ref_zrangebyscore (k : string) (max : Z) (m : keyspace) : reply * keyspace :=
  on_zset k m (λ z, (RArr (zbelow z max), z)).
Definition ref_zremrangebyscore (k : string) (max : Z) (m : keyspace) : reply * keyspace :=
  on_zset k m (λ z,
    let z' := filter (λ p : string * Z, max < p.2) z in (RInt (Z.of_nat (size z) - Z.of_nat (size z')), z')).
Definition ref_hget (k f : string) (m : keyspace) : reply * keyspace :=
  on_hash k m (λ h, (match h !! f with Some v => RBulk v | None => RNil end, h)).
Definition ref_hset (k : string) (fvs : list (string * string)) (m : keyspace) : reply * keyspace :=
  on_hash k m (λ h,
    let h' := foldl (λ h p, <[p.1 := p.2]> h) h fvs in (RInt (Z.of_nat (size h') - Z.of_nat (size h)), h')).
Definition ref_hdel (k f : string) (m : keyspace) : reply * keyspace :=
  on_hash k m (λ h, (RInt (if bool_decide (is_Some (h !! f)) then 1 else 0), delete f h)).

Definition ref_exec (now : Z) (c : command) (m : keyspace) : reply * keyspace :=
  match c with
  | GET k => ref_get k m
  | SET k v nx px => ref_set now k v nx px m
  | DEL k => ref_del k m
  | EXISTS k => ref_exists k m
  | INCRBY k n => ref_incrby k n m
  | PEXPIRE k ms => ref_pexpire now k ms m
  | ZADD k s x => ref_zadd k s x m
  | ZREM k x => ref_zrem k x m
  | ZSCORE k x => ref_zscore k x m
  | ZCARD k => ref_zcard k m
  | ZRANGE_HEAD k => ref_zrange_head k m
  | ZRANGE_HEAD_WITHSCORES k => ref_zrange_withscores k m
  | ZRANGEBYSCORE_BELOW k s => ref_zrangebyscore k s m
  | ZREMRANGEBYSCORE_UPTO k s => ref_zremrangebyscore k s m
  | HGET k f => ref_hget k f m
  | HSET k fvs => ref_hset k fvs m
  | HDEL k f => ref_hdel k f m
  end.

(** A command changes nothing but the key it names. *)
Lemma on_zset_frame k m f k' : k' ≠ k → (on_zset k m f).2 !! k' = m !! k'.
Proof.
  intros ?; unfold on_zset; repeat case_match; simplify_eq/=; try done;
    rewrite ?lookup_insert_ne, ?lookup_delete_ne; done.
Qed.
Lemma on_hash_frame k m f k' : k' ≠ k → (on_hash k m f).2 !! k' = m !! k'.
Proof.
  intros ?; unfold on_hash; repeat case_match; simplify_eq/=; try done;
    rewrite ?lookup_insert_ne, ?lookup_delete_ne; done.
Qed.

Lemma ref_exec_frame now c m k :
  k ≠ cmd_key c → (ref_exec now c m).2 !! k = m !! k.
Proof.
  intros Hk; destruct c; cbn [ref_exec cmd_key] in *;
    try (apply on_zset_frame; done); try (apply on_hash_frame; done);
    unfold ref_get, ref_set, ref_del, ref_exists, ref_incrby, ref_pexpire;
    repeat case_match; simplify_eq/=; rewrite ?lookup_insert_ne, ?lookup_delete_ne; done.
Qed.

(** ** The server: operations and laws *)

(** How the server turns a number of a script into the string a command gets,
    and the number [tonumber] reads from a string. *)
Class LuaNumbers := {
  num_str : float64 → string;
  str_num : string → option float64;
}.

Class RedisOps (S : Type) := {
  r_exec : command → S → reply * S;
  (** [r_tick d]: [d] nanoseconds pass on the server. *)
  r_tick : Z → S → S;
  r_time : S → Z;
  r_view : S → keyspace;
  (** [r_expired at clock]: whether a key that expires at [at] is gone at
      [clock] (both in server milliseconds).  The documentation leaves the
      millisecond of the expiry itself open. *)
  r_expired : Z → Z → bool;
  r_numbers :: LuaNumbers;
}.

Definition r_clock {S} `{!RedisOps S} (s : S) : Z := UnixMilli (r_time s).

Definition entry_live (expired : Z → Z → bool) (clock : Z) (e : entry) : Prop :=
  match e_exp e with None => True | Some x => expired x clock = false end.

#[export] Instance entry_live_dec ex c e : Decision (entry_live ex c e).
Proof. unfold entry_live; destruct (e_exp e); apply _. Defined.

(** The keys of [m] that are still there at [clock]. *)
Definition live_keys (expired : Z → Z → bool) (clock : Z) (m : keyspace) : keyspace :=
  filter (λ p : string * entry, entry_live expired clock p.2) m.

Definition obs {S} `{!RedisOps S} (x : reply * S) : reply * keyspace * Z :=
  (x.1, r_view x.2, r_time x.2).

Class RedisLaws (S : Type) `{!RedisOps S} : Prop := {
  law_get k s : obs (r_exec (GET k) s) = (ref_get k (r_view s), r_time s);
  law_set k v nx px s :
    obs (r_exec (SET k v nx px) s) = (ref_set (r_clock s) k v nx px (r_view s), r_time s);
  law_del k s : obs (r_exec (DEL k) s) = (ref_del k (r_view s), r_time s);
  law_exists k s : obs (r_exec (EXISTS k) s) = (ref_exists k (r_view s), r_time s);
  law_incrby k n s : obs (r_exec (INCRBY k n) s) = (ref_incrby k n (r_view s), r_time s);
  law_pexpire k ms s :
    obs (r_exec (PEXPIRE k ms) s) = (ref_pexpire (r_clock s) k ms (r_view s), r_time s);
  law_zadd k x m s : obs (r_exec (ZADD k x m) s) = (ref_zadd k x m (r_view s), r_time s);
  law_zrem k m s : obs (r_exec (ZREM k m) s) = (ref_zrem k m (r_view s), r_time s);
  law_zscore k m s : obs (r_exec (ZSCORE k m) s) = (ref_zscore k m (r_view s), r_time s);
  law_zcard k s : obs (r_exec (ZCARD k) s) = (ref_zcard k (r_view s), r_time s);
  law_zrange_head k s :
    obs (r_exec (ZRANGE_HEAD k) s) = (ref_zrange_head k (r_view s), r_time s);
  law_zrange_withscores k s :
    obs (r_exec (ZRANGE_HEAD_WITHSCORES k) s) = (ref_zrange_withscores k (r_view s), r_time s);
  law_zrangebyscore k x s :
    obs (r_exec (ZRANGEBYSCORE_BELOW k x) s) = (ref_zrangebyscore k x (r_view s), r_time s);
  law_zremrangebyscore k x s :
    obs (r_exec (ZREMRANGEBYSCORE_UPTO k x) s) = (ref_zremrangebyscore k x (r_view s), r_time s);
  law_hget k f s : obs (r_exec (HGET k f) s) = (ref_hget k f (r_view s), r_time s);
  law_hset k fvs s : obs (r_exec (HSET k fvs) s) = (ref_hset k fvs (r_view s), r_time s);
  law_hdel k f s : obs (r_exec (HDEL k f) s) = (ref_hdel k f (r_view s), r_time s);
  (** Keys disappear by expiry only. *)
  law_tick_time d s : r_time (r_tick d s) = r_time s + d;
  law_tick_view d s :
    r_view (r_tick d s) = live_keys r_expired (UnixMilli (r_time s + d)) (r_view s);
  law_not_expired at_ clock : clock < at_ → r_expired at_ clock = false;
  law_expired at_ clock : at_ < clock → r_expired at_ clock = true;
  (** A number keeps its 17 significant digits on the way to a string. *)
  law_numbers z : double z → str_num (num_str (Fin z)) = Some (Fin z);
}.

Section server.
Context {S : Type} `{!RedisOps S, !RedisLaws S}.

Lemma exec_obs c s :
  obs (r_exec c s) = (ref_exec (r_clock s) c (r_view s), r_time s).
Proof.
  destruct c; simpl; eauto using law_get, law_set, law_del, law_exists, law_incrby,
    law_pexpire, law_zadd, law_zrem, law_zscore, law_zcard, law_zrange_head, law_zrange_withscores,
    law_zrangebyscore, law_zremrangebyscore, law_hget, law_hset, law_hdel.
Qed.

Lemma exec_reply c s : (r_exec c s).1 = (ref_exec (r_clock s) c (r_view s)).1.
Proof. pose proof (exec_obs c s) as H; unfold obs in H; destruct (ref_exec _ _ _); by simplify_eq/=. Qed.
Lemma exec_view c s : r_view (r_exec c s).2 = (ref_exec (r_clock s) c (r_view s)).2.
Proof. pose proof (exec_obs c s) as H; unfold obs in H; destruct (ref_exec _ _ _); by simplify_eq/=. Qed.
Lemma exec_time c s : r_time (r_exec c s).2 = r_time s.
Proof. pose proof (exec_obs c s) as H; unfold obs in H; destruct (ref_exec _ _ _); by simplify_eq/=. Qed.

Lemma tick_lookup d s k :
  r_view (r_tick d s) !! k =
  match r_view s !! k with
  | Some e => if decide (entry_live r_expired (UnixMilli (r_time s + d)) e) then Some e else None
  | None => None
  end.
Proof.
  rewrite law_tick_view; unfold live_keys.
  destruct (r_view s !! k) as [e|] eqn:E; [case_decide as Hl|].
  - by apply map_lookup_filter_Some.
  - apply map_lookup_filter_None; right; intros e' ?; simplify_eq; done.
  - apply map_lookup_filter_None; by left.
Qed.

(** A key whose expiry lies ahead survives; one without expiry always does. *)
Lemma tick_keeps d s k v x :
  r_view s !! k = Some (Entry v x) →
  match x with Some at_ => UnixMilli (r_time s + d) < at_ | None => True end →
  r_view (r_tick d s) !! k = Some (Entry v x).
Proof.
  intros H Hx; rewrite tick_lookup, H, decide_True; [done|].
  unfold entry_live; simpl; destruct x; [|done]. by apply law_not_expired.
Qed.

Lemma tick_only_drops d s k e :
  r_view (r_tick d s) !! k = Some e → r_view s !! k = Some e.
Proof. rewrite tick_lookup; repeat case_match; congruence. Qed.

End server.

(** ** Scripts *)

Inductive script (A : Type) :=
  | SRet (a : A)
  | SRaise (msg : string)
  | SCall (c : command) (k : reply → script A).
Arguments SRet {A} a.
Arguments SRaise {A} msg.
Arguments SCall {A} c k.

Fixpoint sbind {A B} (f : A → script B) (p : script A) : script B :=
  match p with
  | SRet a => f a
  | SRaise e => SRaise e
  | SCall c k => SCall c (λ r, sbind f (k r))
  end.

#[export] Instance script_ret : MRet script := @SRet.
#[export] Instance script_bind : MBind script := @sbind.

(** A script runs on the server; an error reply of [redis.call] aborts it. *)
Fixpoint run {S} `{!RedisOps S} {A} (p : script A) (s : S) : (string + A) * S :=
  match p with
  | SRet a => (inr a, s)
  | SRaise e => (inl e, s)
  | SCall c k =>
      match r_exec c s with
      | (RErr e, s') => (inl e, s')
      | (r, s') => run (k r) s'
      end
  end.

(** The same on a keyspace, by the documented behaviour. *)
Fixpoint run_ref {A} (now : Z) (p : script A) (m : keyspace) : (string + A) * keyspace :=
  match p with
  | SRet a => (inr a, m)
  | SRaise e => (inl e, m)
  | SCall c k =>
      match ref_exec now c m with
      | (RErr e, m') => (inl e, m')
      | (r, m') => run_ref now (k r) m'
      end
  end.

(** Every command of the script is on a key that satisfies [P]. *)
Fixpoint script_on {A} (P : string → Prop) (p : script A) : Prop :=
  match p with
  | SRet _ | SRaise _ => True
  | SCall c k => P (cmd_key c) ∧ ∀ r, script_on P (k r)
  end.

(** Typed forms of [redis.call]. *)
Definition call_get (k : string) : script (option string) :=
  SCall (GET k) (λ r, SRet (match r with RBulk v => Some v | _ => None end)).
Definition call_set (k v : string) (nx : bool) (px : Z) : script bool :=
  SCall (SET k v nx px) (λ r, SRet (match r with ROk => true | _ => false end)).
Definition call_int (c : command) : script Z :=
  SCall c (λ r, SRet (match r with RInt z => z | _ => 0 end)).
Definition call_strs (c : command) : script (list string) :=
  SCall c (λ r, SRet (match r with RArr l => l | _ => [] end)).
Definition call_bulk (c : command) : script (option string) :=
  SCall c (λ r, SRet (match r with RBulk v => Some v | _ => None end)).

(** [tonumber] of what [redis.call] returned: [nil] for a missing value or a
    string that is not a number.  The values the scripts convert are written
    by the library in decimal. *)
Definition tonumber (v : option string) : option Z := v ≫= atoi.

Section run.
Context {S : Type} `{!RedisOps S, !RedisLaws S}.

Lemma run_refines {A} (p : script A) (s : S) :
  let x := run p s in
  (x.1, r_view x.2, r_time x.2) =
  ((run_ref (r_clock s) p (r_view s)).1, (run_ref (r_clock s) p (r_view s)).2, r_time s).
Proof.
  revert s; induction p as [a|e|c k IH]; intros s; simpl; [done|done|].
  pose proof (exec_reply c s) as Hr; pose proof (exec_view c s) as Hv;
    pose proof (exec_time c s) as Ht.
  destruct (r_exec c s) as [r s'], (ref_exec (r_clock s) c (r_view s)) as [r' m']; simplify_eq/=.
  assert (r_clock s' = r_clock s) as Hc by (unfold r_clock; by rewrite Ht).
  destruct r'; try (rewrite (IH _ s'), Hc, Ht; done); simpl; by rewrite Ht.
Qed.

Lemma run_result {A} (p : script A) (s : S) :
  (run p s).1 = (run_ref (r_clock s) p (r_view s)).1.
Proof. pose proof (run_refines p s); by simplify_eq/=. Qed.
Lemma run_view {A} (p : script A) (s : S) :
  r_view (run p s).2 = (run_ref (r_clock s) p (r_view s)).2.
Proof. pose proof (run_refines p s); by simplify_eq/=. Qed.
Lemma run_time {A} (p : script A) (s : S) : r_time (run p s).2 = r_time s.
Proof. pose proof (run_refines p s); by simplify_eq/=. Qed.
End run.

Lemma run_ref_bind {A B} now (f : A → script B) (p : script A) m :
  run_ref now (p ≫= f) m =
  match run_ref now p m with
  | (inr a, m') => run_ref now (f a) m'
  | (inl e, m') => (inl e, m')
  end.
Proof.
  revert m; induction p as [a|e|c k IH]; intros m; simpl; [done|done|].
  destruct (ref_exec now c m) as [[] m']; try apply IH; done.
Qed.

Lemma run_ref_frame {A} P now (p : script A) m k :
  script_on P p → ¬ P k → (run_ref now p m).2 !! k = m !! k.
Proof.
  revert m; induction p as [a|e|c f IH]; intros m Hon Hk; simpl in *; [done|done|].
  destruct Hon as [Hc Hf].
  pose proof (ref_exec_frame now c m k) as Hfr.
  destruct (ref_exec now c m) as [r m']; simpl in Hfr.
  rewrite <- Hfr by (intros ->; done).
  destruct r; try (apply IH; auto); done.
Qed.

Lemma script_on_bind {A B} P (f : A → script B) (p : script A) :
  script_on P p → (∀ a, script_on P (f a)) → script_on P (p ≫= f).
Proof. induction p as [| |c k IH]; simpl; [auto|auto|]. intros [? ?] ?; split; auto. Qed.

Lemma script_on_weaken {A} (P Q : string → Prop) (p : script A) :
  (∀ k, P k → Q k) → script_on P p → script_on Q p.
Proof. induction p as [| |c k IH]; simpl; [auto|auto|]. intros ? [? ?]; split; auto. Qed.

(** ** Sorted sets and hashes in the keyspace *)

(** The sorted set at a key; [None] when the key holds another type. *)
Definition zset_of (m : keyspace) (k : string) : option (gmap string Z) :=
  match m !! k with
  | None => Some ∅
  | Some (Entry (VZset z) _) => Some z
  | Some _ => None
  end.

Definition hash_of (m : keyspace) (k : string) : option (gmap string string) :=
  match m !! k with
  | None => Some ∅
  | Some (Entry (VHash h) _) => Some h
  | Some _ => None
  end.

Definition exp_of (m : keyspace) (k : string) : option Z := m !! k ≫= e_exp.

Definition is_err (r : reply) : bool := match r with RErr _ => true | _ => false end.

Lemma zset_of_lookup m k k' m' : m' !! k = m !! k → k' = k → zset_of m' k' = zset_of m k.
Proof. intros H ->; unfold zset_of; by rewrite H. Qed.
Lemma hash_of_lookup m k k' m' : m' !! k = m !! k → k' = k → hash_of m' k' = hash_of m k.
Proof. intros H ->; unfold hash_of; by rewrite H. Qed.

Lemma on_zset_spec k m f z :
  zset_of m k = Some z →
  (on_zset k m f).1 = (f z).1 ∧ zset_of (on_zset k m f).2 k = Some (f z).2 ∧
  exp_of (on_zset k m f).2 k = (if decide ((f z).2 = ∅) then None else exp_of m k).
Proof.
  unfold zset_of, on_zset, exp_of; intros H.
  destruct (m !! k) as [[[| |] x]|] eqn:E; simplify_eq/=;
    destruct (f z) as [r z'] eqn:Ef || destruct (f ∅) as [r z'] eqn:Ef; simpl;
    destruct (decide (z' = ∅)) as [->|]; simpl;
    rewrite ?lookup_insert_eq, ?lookup_delete_eq, ?E; done.
Qed.

Lemma on_hash_spec k m f h :
  hash_of m k = Some h →
  (on_hash k m f).1 = (f h).1 ∧ hash_of (on_hash k m f).2 k = Some (f h).2 ∧
  exp_of (on_hash k m f).2 k = (if decide ((f h).2 = ∅) then None else exp_of m k).
Proof.
  unfold hash_of, on_hash, exp_of; intros H.
  destruct (m !! k) as [[[| |] x]|] eqn:E; simplify_eq/=;
    destruct (f h) as [r h'] eqn:Ef || destruct (f ∅) as [r h'] eqn:Ef; simpl;
    destruct (decide (h' = ∅)) as [->|]; simpl;
    rewrite ?lookup_insert_eq, ?lookup_delete_eq, ?E; done.
Qed.

(** A command on a sorted set that is one and answers without an error: the
    script goes on from the updated set. *)
Lemma run_zcmd {A} now k c f (kont : reply → script A) m z :
  ref_exec now c m = on_zset k m f → zset_of m k = Some z → is_err (f z).1 = false →
  ∃ m', run_ref now (SCall c kont) m = run_ref now (kont (f z).1) m' ∧
    zset_of m' k = Some (f z).2 ∧
    exp_of m' k = (if decide ((f z).2 = ∅) then None else exp_of m k) ∧
    (∀ k', k' ≠ k → m' !! k' = m !! k').
Proof.
  intros Hc Hz He. exists (on_zset k m f).2.
  pose proof (on_zset_spec k m f z Hz) as (Hr & Hz' & Hx).
  repeat split; [|done|done|by intros; apply on_zset_frame].
  simpl; rewrite Hc; destruct (on_zset k m f) as [r m'']; simpl in *; subst r.
  destruct (f z).1; done.
Qed.

Lemma run_hcmd {A} now k c f (kont : reply → script A) m h :
  ref_exec now c m = on_hash k m f → hash_of m k = Some h → is_err (f h).1 = false →
  ∃ m', run_ref now (SCall c kont) m = run_ref now (kont (f h).1) m' ∧
    hash_of m' k = Some (f h).2 ∧
    exp_of m' k = (if decide ((f h).2 = ∅) then None else exp_of m k) ∧
    (∀ k', k' ≠ k → m' !! k' = m !! k').
Proof.
  intros Hc Hz He. exists (on_hash k m f).2.
  pose proof (on_hash_spec k m f h Hz) as (Hr & Hz' & Hx).
  repeat split; [|done|done|by intros; apply on_hash_frame].
  simpl; rewrite Hc; destruct (on_hash k m f) as [r m'']; simpl in *; subst r.
  destruct (f h).1; done.
Qed.

(** The set without the entries up to [max]. *)
Definition zalive (max : Z) (z : gmap string Z) : gmap string Z :=
  filter (λ p : string * Z, max < p.2) z.

Lemma lookup_zalive max z m s :
  zalive max z !! m = Some s ↔ z !! m = Some s ∧ max < s.
Proof. unfold zalive; apply map_lookup_filter_Some. Qed.

(** [ZADD] of several members with one score. *)
Definition zadd_all (score : Z) (ms : list string) (z : gmap string Z) : gmap string Z :=
  foldl (λ z x, <[x := score]> z) z ms.

Lemma lookup_zadd_all score ms z x :
  zadd_all score ms z !! x = if decide (x ∈ ms) then Some score else z !! x.
Proof.
  unfold zadd_all; revert z; induction ms as [|y ms IH]; intros z; simpl; [done|].
  rewrite IH. destruct (decide (x ∈ ms)), (decide (x ∈ y :: ms)); try set_solver.
  - assert (x = y) as -> by set_solver. by rewrite lookup_insert_eq.
  - rewrite lookup_insert_ne; set_solver.
Qed.
