(* ===== verification/RedisMem.v ===== *)
(** * A server that obeys the laws

    An in-memory keyspace with a clock, on which the parameter of the
    development is instantiated when a theorem is applied to a concrete
    input.  A key is gone from the millisecond after its expiry on. *)
From S2P Require Import Prelude Float64 Redis.

Record mem := Mem { mem_time : Z; mem_keys : keyspace }.

Definition mem_expired (at_ clock : Z) : bool := at_ <? clock.

Definition mem_exec (c : command) (s : mem) : reply * mem :=
  let '(r, m) := ref_exec (UnixMilli (mem_time s)) c (mem_keys s) in
  (r, Mem (mem_time s) m).

Definition mem_tick (d : Z) (s : mem) : mem :=
  Mem (mem_time s + d) (live_keys mem_expired (UnixMilli (mem_time s + d)) (mem_keys s)).

(** Numbers are written as the multiple of 2^-1074 that they are. *)
Definition mem_numbers : LuaNumbers := {|
  num_str := λ x, match x with Fin z => itoa z | Inf false => "inf" | Inf true => "-inf" | NaN => "nan" end;
  str_num := λ s, Fin <$> atoi s;
|}.

#[export] Instance mem_ops : RedisOps mem := {|
  r_exec := mem_exec;
  r_tick := mem_tick;
  r_time := mem_time;
  r_view := mem_keys;
  r_expired := mem_expired;
  r_numbers := mem_numbers;
|}.

Lemma mem_exec_obs c s :
  obs (r_exec c s) = (ref_exec (r_clock s) c (r_view s), r_time s).
Proof.
  unfold obs, r_clock; simpl; unfold mem_exec.
  destruct (ref_exec _ _ _); done.
Qed.

#[export] Instance mem_laws : RedisLaws mem.
Proof.
  split; intros; try (match goal with
    |- obs (r_exec ?c ?s) = _ => exact (mem_exec_obs c s) end); simpl; try done;
    unfold mem_expired; [apply Z.ltb_ge; lia|apply Z.ltb_lt; lia|by rewrite atoi_itoa].
Qed.

(** An empty server at the given time in nanoseconds. *)
Definition mem_empty (t : Z) : mem := Mem t ∅.
