(* ===== verification/ScriptsSingle.v ===== *)
(** * The scripts of the exclusive lease

    [internal/lua/single_acquire.lua], [single_renew.lua] and
    [single_release.lua], command by command, and what they do to the
    keyspace on every branch. *)
From S2P Require Import Prelude Redis.

(** A Lua number returned by a script becomes a Redis integer; the number
    itself is the double nearest to the integer the script received. *)
Definition lua_int (z : Z) : reply := RInt (double_of_Z z).

Definition single_acquire (lockKey fencingKey token : string) (ttl : Z) (flag : string) :
    script reply :=
  cur ← call_get lockKey;
  if bool_decide (cur = Some token) then
    if bool_decide (flag = "1") then
      c ← call_get fencingKey;
      mret (match tonumber c with Some n => lua_int n | None => RNil end)
    else mret (RInt 0)
  else
    ok ← call_set lockKey token true ttl;
    if (ok : bool) then
      if bool_decide (flag = "1") then
        n ← call_int (INCRBY fencingKey 1);
        mret (lua_int n)
      else mret (RInt 0)
    else mret RNil.

Definition single_renew (lockKey token : string) (ttl : Z) : script reply :=
  cur ← call_get lockKey;
  if bool_decide (cur = Some token) then
    _ ← call_int (PEXPIRE lockKey ttl);
    mret (RInt 1)
  else mret (RInt 0).

Definition single_release (lockKey token : string) : script reply :=
  cur ← call_get lockKey;
  if bool_decide (cur = Some token) then
    n ← call_int (DEL lockKey);
    mret (RInt n)
  else mret (RInt 0).

(** [owned m k id x]: on the keyspace [m], the lock [k] is held with the
    owner token [id], until [x] if it expires. *)
Definition owned (m : keyspace) (k id : string) (x : option Z) : Prop :=
  m !! k = Some (Entry (VStr id) x).

Section lemmas.
Context (now : Z) (K F tok : string) (ttl : Z) (flag : string).
Implicit Types (m : keyspace) (x : option Z).

(** ** Acquire *)

(** A retry by the owner changes nothing: the time to live is not extended
    and no fencing token is minted. *)
Lemma single_acquire_owned m x :
  owned m K tok x → (run_ref now (single_acquire K F tok ttl flag) m).2 = m.
Proof.
  unfold owned; intros H; simpl; unfold ref_get; rewrite H; simpl.
  rewrite bool_decide_eq_true_2 by done; case_bool_decide; simpl; [|done].
  unfold ref_get; repeat case_match; by simplify_eq/=.
Qed.

(** Held by somebody else: refused, nothing changes. *)
Lemma single_acquire_busy m id x :
  owned m K id x → id ≠ tok → 0 < ttl → in_int64 (now + ttl) = true →
  run_ref now (single_acquire K F tok ttl flag) m = (inr RNil, m).
Proof.
  unfold owned; intros H ? ? Hr; simpl; unfold ref_get; rewrite H; simpl.
  rewrite bool_decide_eq_false_2 by congruence; simpl; unfold ref_set; rewrite Hr.
  rewrite (proj2 (Z.leb_gt ttl 0)) by lia; simpl.
  rewrite bool_decide_eq_true_2 by (rewrite H; eauto); done.
Qed.

(** Free: the lock is taken until [now + ttl], then the token is minted. *)
Lemma single_acquire_free m :
  m !! K = None → 0 < ttl → in_int64 (now + ttl) = true →
  run_ref now (single_acquire K F tok ttl flag) m =
  let m' := <[K := Entry (VStr tok) (Some (now + ttl))]> m in
  if bool_decide (flag = "1") then
    run_ref now (n ← call_int (INCRBY F 1); mret (lua_int n)) m'
  else (inr (RInt 0), m').
Proof.
  intros H ? Hr; simpl; unfold ref_get; rewrite H; simpl.
  unfold ref_set; rewrite Hr.
  rewrite (proj2 (Z.leb_gt ttl 0)) by lia; simpl.
  rewrite (bool_decide_eq_false_2 (is_Some _)) by (rewrite H; intros []; done).
  simpl; case_bool_decide; done.
Qed.

(** A time to live below one millisecond is an error of the server, and an
    entry of another type one too; neither changes anything. *)
Lemma single_acquire_bad_ttl m :
  ttl ≤ 0 → (∀ x, ¬ owned m K tok x) →
  ∃ e, run_ref now (single_acquire K F tok ttl flag) m = (inl e, m).
Proof.
  intros ? Hno; simpl; unfold ref_get.
  destruct (m !! K) as [[[v| |] x]|] eqn:E; simpl; try (eexists; reflexivity).
  - rewrite bool_decide_eq_false_2 by (intros [= ->]; by destruct (Hno x)).
    simpl; unfold ref_set; rewrite (proj2 (Z.leb_le ttl 0)) by done; eexists; reflexivity.
  -
    simpl; unfold ref_set; rewrite (proj2 (Z.leb_le ttl 0)) by done; eexists; reflexivity.
Qed.

(** ** Renew and release *)

Lemma single_renew_owned m x :
  owned m K tok x → 0 < ttl →
  run_ref now (single_renew K tok ttl) m =
  (inr (RInt 1), <[K := Entry (VStr tok) (Some (now + ttl))]> m).
Proof.
  unfold owned; intros H ?; simpl; unfold ref_get; rewrite H; simpl.
  rewrite bool_decide_eq_true_2 by done; simpl; unfold ref_pexpire; rewrite H.
  by rewrite (proj2 (Z.leb_gt ttl 0)) by lia.
Qed.

Lemma single_release_owned m x :
  owned m K tok x →
  run_ref now (single_release K tok) m = (inr (RInt 1), delete K m).
Proof.
  unfold owned; intros H; simpl; unfold ref_get; rewrite H; simpl.
  rewrite bool_decide_eq_true_2 by done; simpl; unfold ref_del; by rewrite H.
Qed.

(** Compare-and-set: without ownership, renew and release answer 0 (or an
    error on a foreign type) and change nothing. *)
Lemma single_renew_other m :
  (∀ x, ¬ owned m K tok x) → (run_ref now (single_renew K tok ttl) m).2 = m.
Proof.
  intros Hno; simpl; unfold ref_get.
  destruct (m !! K) as [[[v| |] x]|] eqn:E; simpl; try done.
  rewrite bool_decide_eq_false_2; [done|]. intros [= ->]; by destruct (Hno x).
Qed.

Lemma single_release_other m :
  (∀ x, ¬ owned m K tok x) → (run_ref now (single_release K tok) m).2 = m.
Proof.
  intros Hno; simpl; unfold ref_get.
  destruct (m !! K) as [[[v| |] x]|] eqn:E; simpl; try done.
  rewrite bool_decide_eq_false_2; [done|]. intros [= ->]; by destruct (Hno x).
Qed.

(** ** Footprints *)

Lemma single_acquire_on : script_on (λ k, k = K ∨ k = F) (single_acquire K F tok ttl flag).
Proof.
  repeat (simpl; intros; try case_bool_decide; try case_match; repeat split; auto).
Qed.
Lemma single_renew_on : script_on (λ k, k = K) (single_renew K tok ttl).
Proof. repeat (simpl; intros; try case_bool_decide; repeat split; auto). Qed.
Lemma single_release_on : script_on (λ k, k = K) (single_release K tok).
Proof. repeat (simpl; intros; try case_bool_decide; repeat split; auto). Qed.

End lemmas.
