(* ===== verification/ScriptsSem.v ===== *)
(** * The scripts of the counting semaphore

    [internal/lua/sem_acquire.lua], [sem_renew.lua] and [sem_release.lua].
    They work on one sorted set of permits (member = permit token, score =
    expiry in milliseconds of the client's clock).  Renew and release are
    shared with the readers of the read-write lock. *)
From S2P Require Import Prelude Redis.

(** The counting loop over [ARGV[4..]]. *)
Fixpoint sem_count_owned (zset : string) (tokens : list string) (owned : Z) : script Z :=
  match tokens with
  | [] => mret owned
  | t :: ts =>
      s ← call_bulk (ZSCORE zset t);
      sem_count_owned zset ts (match s with Some _ => owned + 1 | None => owned end)
  end.

(** The [ZADD] loop. *)
Fixpoint sem_add (zset : string) (score : Z) (tokens : list string) : script unit :=
  match tokens with
  | [] => mret tt
  | t :: ts => _ ← call_int (ZADD zset score t); sem_add zset score ts
  end.

Definition sem_acquire (zset : string) (now ttl capacity : Z) (tokens : list string) : script reply :=
  _ ← call_int (ZREMRANGEBYSCORE_UPTO zset now);
  used ← call_int (ZCARD zset);
  let requested := Z.of_nat (length tokens) in
  owned ← sem_count_owned zset tokens 0;
  if owned =? requested then mret (RInt used)
  else if capacity <? used + requested then mret RNil
  else
    _ ← sem_add zset (now + ttl) tokens;
    mret (RInt (used + requested)).

(** The ownership loop of [sem_renew.lua]: true when every permit is there
    and has not expired. *)
Fixpoint sem_all_owned (zset : string) (now : Z) (tokens : list string) : script bool :=
  match tokens with
  | [] => mret true
  | t :: ts =>
      previous ← call_bulk (ZSCORE zset t);
      match tonumber previous with
      | None => mret false
      | Some p => if p <=? now then mret false else sem_all_owned zset now ts
      end
  end.

Definition sem_renew (zset : string) (now ttl : Z) (tokens : list string) : script reply :=
  let score := now + ttl in
  ok ← sem_all_owned zset now tokens;
  if (ok : bool) then
    _ ← sem_add zset score tokens;
    mret (RInt 1)
  else mret (RInt 0).

Fixpoint sem_release_loop (zset : string) (tokens : list string) (removed : Z) : script reply :=
  match tokens with
  | [] => mret (RInt removed)
  | t :: ts => n ← call_int (ZREM zset t); sem_release_loop zset ts (removed + n)
  end.

Definition sem_release (zset : string) (tokens : list string) : script reply :=
  sem_release_loop zset tokens 0.

(** ** What they do to the set of permits *)

Definition in_set (z : gmap string Z) (t : string) : bool := bool_decide (is_Some (z !! t)).
Definition count_in (z : gmap string Z) (ts : list string) : Z :=
  Z.of_nat (length (List.filter (in_set z) ts)).
Definition all_live (z : gmap string Z) (now : Z) (ts : list string) : bool :=
  forallb (λ t, match z !! t with Some s => now <? s | None => false end) ts.

(** [only_zset k m m' z]: going from [m] to [m'] only the sorted set at [k]
    changed, it became [z], and it did not get a time to live. *)
Definition only_zset (k : string) (m m' : keyspace) (z : gmap string Z) : Prop :=
  zset_of m' k = Some z ∧ (exp_of m k = None → exp_of m' k = None) ∧
  (∀ k', k' ≠ k → m' !! k' = m !! k').

Lemma only_zset_refl k m z : zset_of m k = Some z → only_zset k m m z.
Proof. by repeat split. Qed.

Lemma only_zset_trans k m1 m2 m3 z2 z3 :
  only_zset k m1 m2 z2 → only_zset k m2 m3 z3 → only_zset k m1 m3 z3.
Proof.
  intros (_ & Hx & Hf) (? & Hx' & Hf'); repeat split; auto.
  intros k' Hk; by rewrite Hf', Hf.
Qed.

#[export] Hint Resolve only_zset_refl : distsync.

(** One command on the set, as a step of [only_zset]. *)
Lemma run_zstep {A} now k c f (kont : reply → script A) m z :
  ref_exec now c m = on_zset k m f → zset_of m k = Some z → is_err (f z).1 = false →
  ∃ m', run_ref now (SCall c kont) m = run_ref now (kont (f z).1) m' ∧ only_zset k m m' (f z).2.
Proof.
  intros Hc Hz He.
  destruct (run_zcmd now k c f kont m z Hc Hz He) as (m' & Hrun & Hz' & Hx & Hf).
  exists m'; split; [done|]; repeat split; [done| |done].
  rewrite Hx; by case_decide.
Qed.

(** Advances the goal's script by one command on the sorted set described by
    [Hz]; [m'] is the keyspace after it and [H'] what changed. *)
Ltac zstep Hz m' H' :=
  cbn [mbind script_bind sbind call_bulk call_int call_strs];
  match goal with
  | |- context [run_ref ?now (SCall ?c ?kont) ?m] =>
      let H := fresh in
      pose proof (run_zstep now (cmd_key c) c _ kont m _ eq_refl Hz) as H;
      destruct H as (m' & -> & H'); [first [done | simpl; by case_match] |];
      cbn [fst snd] in *
  end.

Lemma sem_count_owned_run now k ts n m z :
  zset_of m k = Some z →
  ∃ m', run_ref now (sem_count_owned k ts n) m = (inr (n + count_in z ts), m') ∧ only_zset k m m' z.
Proof.
  revert n m; induction ts as [|t ts IH]; intros n m Hz.
  { exists m; split; [simpl; unfold count_in; simpl; by rewrite Z.add_0_r|by apply only_zset_refl]. }
  cbn [sem_count_owned]. zstep Hz m1 H1.
  destruct (IH (match z !! t with Some _ => n + 1 | None => n end) m1) as (m2 & Hrun & H2).
  { by destruct H1. }
  exists m2; split; [|by eapply only_zset_trans].
  unfold count_in, in_set in *; simpl.
  destruct (z !! t) eqn:E; simpl; rewrite Hrun; do 2 f_equal; simpl; lia.
Qed.

Lemma sem_add_run now k score ts m z :
  zset_of m k = Some z →
  ∃ m', run_ref now (sem_add k score ts) m = (inr tt, m') ∧ only_zset k m m' (zadd_all score ts z).
Proof.
  revert m z; induction ts as [|t ts IH]; intros m z Hz.
  { exists m; split; [done|by apply only_zset_refl]. }
  cbn [sem_add]. zstep Hz m1 H1.
  destruct (IH m1 (<[t := score]> z)) as (m2 & Hrun & H2); [by destruct H1|].
  exists m2; split; [exact Hrun|by eapply only_zset_trans].
Qed.

Lemma sem_all_owned_run now k t0 ts m z :
  zset_of m k = Some z →
  ∃ m', run_ref t0 (sem_all_owned k now ts) m = (inr (all_live z now ts), m') ∧ only_zset k m m' z.
Proof.
  revert m; induction ts as [|t ts IH]; intros m Hz.
  { exists m; split; [done|by apply only_zset_refl]. }
  cbn [sem_all_owned]. zstep Hz m1 H1. unfold all_live; simpl.
  destruct (z !! t) as [s|] eqn:E; simpl; [|by eauto].
  rewrite atoi_itoa; simpl.
  destruct (Z.leb_spec s now); simpl.
  { rewrite (proj2 (Z.ltb_ge now s)) by lia; eauto. }
  rewrite (proj2 (Z.ltb_lt now s)) by lia; simpl.
  destruct (IH m1) as (m2 & Hrun & H2); [by destruct H1|].
  exists m2; split; [exact Hrun|by eapply only_zset_trans].
Qed.

(** The set after an acquisition attempt at [now]. *)
Definition acquired_set (now ttl capacity : Z) (ts : list string) (z : gmap string Z) :
    reply * gmap string Z :=
  let z1 := zalive now z in
  let used := Z.of_nat (size z1) in
  let n := Z.of_nat (length ts) in
  if count_in z1 ts =? n then (RInt used, z1)
  else if capacity <? used + n then (RNil, z1)
  else (RInt (used + n), zadd_all (now + ttl) ts z1).

Lemma sem_acquire_run t0 k now ttl capacity ts m z :
  zset_of m k = Some z →
  ∃ m', run_ref t0 (sem_acquire k now ttl capacity ts) m =
          (inr (acquired_set now ttl capacity ts z).1, m') ∧
        only_zset k m m' (acquired_set now ttl capacity ts z).2.
Proof.
  intros Hz; unfold sem_acquire. zstep Hz m1 H1. fold (zalive now z) in *.
  destruct H1 as (Hz1 & H1). zstep Hz1 m2 H2. destruct H2 as (Hz2 & H2).
  assert (only_zset k m m2 (zalive now z)) as H12
    by (eapply (only_zset_trans _ _ m1); by split).
  change (sbind ?f ?p) with (mbind (M := script) f p); rewrite run_ref_bind.
  destruct (sem_count_owned_run t0 k ts 0 m2 _ Hz2) as (m3 & -> & H3).
  rewrite Z.add_0_l; unfold acquired_set.
  repeat (case_match; [eexists; split; [done|by eapply only_zset_trans]|]).
  change (sbind ?f ?p) with (mbind (M := script) f p); rewrite run_ref_bind.
  destruct (sem_add_run t0 k (now + ttl) ts m3 _ (proj1 H3)) as (m4 & -> & H4).
  exists m4; split; [done|]. eauto using only_zset_trans.
Qed.

Lemma sem_renew_run t0 k now ttl ts m z :
  zset_of m k = Some z →
  ∃ m', run_ref t0 (sem_renew k now ttl ts) m =
          (inr (RInt (if all_live z now ts then 1 else 0)), m') ∧
        only_zset k m m' (if all_live z now ts then zadd_all (now + ttl) ts z else z).
Proof.
  intros Hz; unfold sem_renew; rewrite run_ref_bind.
  destruct (sem_all_owned_run now k t0 ts m z Hz) as (m1 & -> & H1).
  destruct (all_live z now ts); [|by eauto].
  rewrite run_ref_bind.
  destruct (sem_add_run t0 k (now + ttl) ts m1 z (proj1 H1)) as (m2 & -> & H2).
  exists m2; split; [done|by eapply only_zset_trans].
Qed.

(** [ZREM] of several members: what is left and how many were removed. *)
Fixpoint zrem_all (ts : list string) (z : gmap string Z) : Z * gmap string Z :=
  match ts with
  | [] => (0, z)
  | t :: ts =>
      let '(n, z') := zrem_all ts (delete t z) in
      ((if in_set z t then 1 else 0) + n, z')
  end.

Lemma sem_release_run t0 k ts m z :
  zset_of m k = Some z →
  ∃ m', run_ref t0 (sem_release k ts) m = (inr (RInt (zrem_all ts z).1), m') ∧
        only_zset k m m' (zrem_all ts z).2.
Proof.
  unfold sem_release.
  enough (∀ n, zset_of m k = Some z →
    ∃ m', run_ref t0 (sem_release_loop k ts n) m = (inr (RInt (n + (zrem_all ts z).1)), m') ∧
          only_zset k m m' (zrem_all ts z).2) as H by exact (H 0).
  revert m z; induction ts as [|t ts IH]; intros m z n Hz.
  { exists m; split; [simpl; by rewrite Z.add_0_r|by apply only_zset_refl]. }
  cbn [sem_release_loop]. zstep Hz m1 H1.
  destruct (IH m1 (delete t z) (n + (if in_set z t then 1 else 0)) (proj1 H1)) as (m2 & Hrun & H2).
  exists m2; simpl; unfold in_set in *.
  destruct (zrem_all ts (delete t z)) as [c z'] eqn:E; simpl in *.
  split; [rewrite Hrun; do 3 f_equal; lia|by eapply only_zset_trans].
Qed.

Lemma zrem_all_lookup ts z x :
  (zrem_all ts z).2 !! x = if decide (x ∈ ts) then None else z !! x.
Proof.
  revert z; induction ts as [|t ts IH]; intros z; simpl; [done|].
  specialize (IH (delete t z)); destruct (zrem_all ts (delete t z)) as [c z']; simpl in *.
  rewrite IH; destruct (decide (x ∈ ts)), (decide (x ∈ t :: ts)); try set_solver.
  - assert (x = t) as -> by set_solver; by rewrite lookup_delete_eq.
  - rewrite lookup_delete_ne; set_solver.
Qed.

(** Distinct members: as many are removed as were there. *)
Lemma zrem_all_count ts z : NoDup ts → (zrem_all ts z).1 = count_in z ts.
Proof.
  intros Hnd; revert z; induction Hnd as [|t ts Hni _ IH]; intros z; [done|]. simpl.
  specialize (IH (delete t z)); destruct (zrem_all ts (delete t z)) as [c z']; simpl in *. rewrite IH.
  unfold count_in; simpl. enough (List.filter (in_set (delete t z)) ts = List.filter (in_set z) ts) as ->.
  { destruct (in_set z t); simpl; lia. }
  apply List.filter_ext_in. intros x Hx%list_elem_of_In. unfold in_set.
  by rewrite lookup_delete_ne by (intros ->; done).
Qed.
