(* ===== verification/ScriptsRW.v ===== *)
(** * The scripts of the fair read-write lock

    [internal/lua/rw_write_lock.lua] and [rw_read_lock.lua], command by
    command.  Six keys hold one lock: the writer, the set of readers, the
    fencing counter and the arrival queue (a sorted set, the time of each
    contender's last attempt, and the arrival counter).

    The [while] loop that purges silent contenders from the head of the queue
    takes a fuel; [rw_fuel] is the fuel the server needs for the queue it
    has, and running out of it is the error [out_of_fuel], which
    [RWLock] proves never to happen. *)
From S2P Require Import Prelude Redis ScriptsSingle.

(** [lease.RWKeys] *)
Record RWKeys := {
  Writer : string;
  Readers : string;
  Fencing : string;
  Waiters : string;
  WaiterTS : string;
  Seq : string;
}.

Definition rw_keys (K : RWKeys) : list string :=
  [Writer K; Readers K; Fencing K; Waiters K; WaiterTS K; Seq K].

Definition out_of_fuel : string := "out of fuel".

(** [string.sub(m, 1, 2) == 'W:'] *)
Definition is_writer_member (m : string) : bool := String.eqb (String.substring 0 2 m) "W:".

(** "Join or refresh our place in the arrival queue": the same lines in both
    scripts.  Returns the arrival number. *)
Definition rw_join (waiters waiterTs seqKey member : string) (now waiterTimeout : Z) : script Z :=
  s ← call_bulk (ZSCORE waiters member);
  seq ← match s with
        | None =>
            seq ← call_int (INCRBY seqKey 1);
            _ ← call_int (ZADD waiters seq member);
            _ ← call_int (HSET waiterTs [(member, itoa now)]);
            mret seq
        | Some s =>
            _ ← call_int (HSET waiterTs [(member, itoa now)]);
            mret (default 0 (atoi s))
        end;
  _ ← call_int (PEXPIRE waiters waiterTimeout);
  _ ← call_int (PEXPIRE waiterTs waiterTimeout);
  _ ← call_int (PEXPIRE seqKey waiterTimeout);
  mret seq.

(** "Purge crashed waiters from the head". *)
Fixpoint rw_purge (fuel : nat) (waiters waiterTs : string) (now waiterTimeout : Z) : script unit :=
  match fuel with
  | O => SRaise out_of_fuel
  | S fuel =>
      head ← call_strs (ZRANGE_HEAD waiters);
      match head with
      | [] => mret tt
      | h :: _ =>
          t ← call_bulk (HGET waiterTs h);
          match tonumber t with
          | Some ts =>
              if ts <? now - waiterTimeout then
                _ ← call_int (ZREM waiters h);
                _ ← call_int (HDEL waiterTs h);
                rw_purge fuel waiters waiterTs now waiterTimeout
              else mret tt
          | None => mret tt
          end
      end
  end.

Definition rw_write_lock (fuel : nat) (K : RWKeys) (token : string) (ttl now waiterTimeout : Z) :
    script reply :=
  let member := "W:" +:+ token in
  cur ← call_get (Writer K);
  if bool_decide (cur = Some token) then
    c ← call_get (Fencing K);
    mret (match tonumber c with Some n => lua_int n | None => RNil end)
  else
    _ ← rw_join (Waiters K) (WaiterTS K) (Seq K) member now waiterTimeout;
    _ ← rw_purge fuel (Waiters K) (WaiterTS K) now waiterTimeout;
    head ← call_strs (ZRANGE_HEAD (Waiters K));
    if match head with [] => false | h :: _ => negb (String.eqb h member) end then mret RNil
    else
      e ← call_int (EXISTS (Writer K));
      if e =? 1 then mret RNil
      else
        _ ← call_int (ZREMRANGEBYSCORE_UPTO (Readers K) now);
        active ← call_int (ZCARD (Readers K));
        if 0 <? active then mret RNil
        else
          _ ← call_set (Writer K) token false ttl;
          _ ← call_int (ZREM (Waiters K) member);
          _ ← call_int (HDEL (WaiterTS K) member);
          n ← call_int (INCRBY (Fencing K) 1);
          mret (lua_int n).

Definition rw_read_lock (fuel : nat) (K : RWKeys) (token : string) (ttl now waiterTimeout : Z) :
    script reply :=
  let member := "R:" +:+ token in
  own ← call_bulk (ZSCORE (Readers K) token);
  if match tonumber own with Some s => now <? s | None => false end then mret (RInt 1)
  else
    seq ← rw_join (Waiters K) (WaiterTS K) (Seq K) member now waiterTimeout;
    _ ← rw_purge fuel (Waiters K) (WaiterTS K) now waiterTimeout;
    e ← call_int (EXISTS (Writer K));
    if e =? 1 then mret RNil
    else
      ahead ← call_strs (ZRANGEBYSCORE_BELOW (Waiters K) seq);
      if existsb is_writer_member ahead then mret RNil
      else
        _ ← call_int (ZADD (Readers K) (now + ttl) token);
        _ ← call_int (ZREM (Waiters K) member);
        _ ← call_int (HDEL (WaiterTS K) member);
        mret (RInt 1).

(** Enough fuel for the queue of a keyspace: one turn per waiting contender,
    one for the contender that joins and one to see the loop's end. *)
Definition rw_fuel (m : keyspace) (K : RWKeys) : nat :=
  match zset_of m (Waiters K) with Some z => S (S (size z)) | None => 1 end.

(** ** Footprints *)

Definition rw_key (K : RWKeys) (k : string) : Prop := k ∈ rw_keys K.

Ltac solve_on :=
  repeat first
    [ progress intros
    | apply script_on_bind
    | case_bool_decide
    | case_match
    | match goal with |- script_on _ (mret _) => exact I end
    | match goal with |- script_on _ (SRaise _) => exact I end
    | match goal with |- script_on _ (call_get _) => split; [|done] end
    | match goal with |- script_on _ (call_set _ _ _ _) => split; [|done] end
    | match goal with |- script_on _ (call_int _) => split; [|done] end
    | match goal with |- script_on _ (call_strs _) => split; [|done] end
    | match goal with |- script_on _ (call_bulk _) => split; [|done] end ].

Lemma rw_join_on P w t s member now wt :
  P w → P t → P s → script_on P (rw_join w t s member now wt).
Proof. intros ???; unfold rw_join; solve_on; done. Qed.

Lemma rw_purge_on P fuel w t now wt : P w → P t → script_on P (rw_purge fuel w t now wt).
Proof.
  intros ??; induction fuel as [|n IH]; [done|]; cbn [rw_purge]; solve_on; done.
Qed.

Lemma rw_write_lock_on fuel K token ttl now wt :
  script_on (rw_key K) (rw_write_lock fuel K token ttl now wt).
Proof.
  assert (∀ k, k ∈ rw_keys K → rw_key K k) by done; unfold rw_keys in *.
  unfold rw_write_lock; solve_on; try (apply rw_join_on || apply rw_purge_on); set_solver.
Qed.

Lemma rw_read_lock_on fuel K token ttl now wt :
  script_on (rw_key K) (rw_read_lock fuel K token ttl now wt).
Proof.
  assert (∀ k, k ∈ rw_keys K → rw_key K k) by done; unfold rw_keys in *.
  unfold rw_read_lock; solve_on; try (apply rw_join_on || apply rw_purge_on); set_solver.
Qed.
