(* ===== verification/ScriptsRate.v ===== *)
(** * The rate limiter scripts

    [ratelimit.lua] (token bucket), [ratelimit_leaky.lua],
    [ratelimit_fixed.lua] and [ratelimit_sliding.lua].  Amounts and rates are
    doubles.  The counts, clock readings and window lengths are integers that
    Lua computes with exactly (they stay below 2^53) and are kept as [Z],
    except in the quotient of the fixed window.

    go-redis writes a [float64] argument with the digits that identify it, so
    a script reads the number the Go code passed. *)
From S2P Require Import Prelude Float64 Redis.
Open Scope Z_scope.

(** ** Windows *)

Definition ratelimit_fixed (windowKey : string) (limit : float64) (windowMs now requested : Z) :
    script reply :=
  let w := ftrunc (ffloor (fdiv (of_Z now) (of_Z windowMs))) in
  count ← call_int (INCRBY windowKey requested);
  _ ← call_int (PEXPIRE windowKey (windowMs * 2));
  let retryMs := (w + 1) * windowMs - now in
  if fltb limit (of_Z count) then
    _ ← call_int (INCRBY windowKey (- requested));
    mret (RInts [0; 0; retryMs])
  else mret (RInts [1; ftrunc (fsub limit (of_Z count)); retryMs]).

(** The [ZADD] loop, from [i]; [n] iterations. *)
Fixpoint sliding_add (key prefix : string) (now i : Z) (n : nat) : script unit :=
  match n with
  | O => mret tt
  | S n =>
      _ ← call_int (ZADD key now (prefix +:+ ":" +:+ itoa i));
      sliding_add key prefix now (i + 1) n
  end.

Definition ratelimit_sliding (key : string) (limit : float64) (windowMs now requested : Z)
    (prefix : string) : script reply :=
  _ ← call_int (ZREMRANGEBYSCORE_UPTO key (now - windowMs));
  used ← call_int (ZCARD key);
  if fltb limit (of_Z (used + requested)) then
    oldest ← call_strs (ZRANGE_HEAD_WITHSCORES key);
    retryMs ← match oldest with
              | _ :: s :: _ =>
                  match atoi s with
                  | Some t => mret (windowMs - (now - t))
                  | None => SRaise "attempt to perform arithmetic on a nil value"
                  end
              | _ => mret windowMs
              end;
    _ ← call_int (PEXPIRE key (windowMs * 2));
    mret (RInts [0; 0; retryMs])
  else
    _ ← sliding_add key prefix now 0 (Z.to_nat requested);
    _ ← call_int (PEXPIRE key (windowMs * 2));
    mret (RInts [1; ftrunc (fsub (fsub limit (of_Z used)) (of_Z requested)); 0]).

(** ** Buckets *)
Section buckets.
Context `{!LuaNumbers}.

(** [tonumber(redis.call('HGET', ...))] *)
Definition call_hget_num (key field : string) : script (option float64) :=
  v ← call_bulk (HGET key field);
  mret (v ≫= str_num).

(** How long the key of a bucket lives after a request, in milliseconds. *)
Definition bucket_ttl (capacity rate : float64) : Z :=
  ftrunc (fadd (fceil (fmul (fdiv capacity rate) (of_Z 1000))) (of_Z 1000)).

(** [ratelimit.lua] from the refill on. *)
Definition token_decide (key : string) (capacity rate : float64) (now : Z) (requested tokens ts : float64) :
    script reply :=
  let refilled := fadd tokens (fmul (fdiv (fsub (of_Z now) ts) (of_Z 1000)) rate) in
  let refilled := if fltb capacity refilled then capacity else refilled in
  let allowed := fleb requested refilled in
  let remaining := if allowed then fsub refilled requested else refilled in
  let retryAfterMs :=
    if allowed then Fin 0 else fceil (fmul (fdiv (fsub requested refilled) rate) (of_Z 1000)) in
  _ ← call_int (HSET key [("tokens", num_str remaining); ("ts", num_str (of_Z now))]);
  _ ← call_int (PEXPIRE key (bucket_ttl capacity rate));
  mret (RInts [if allowed then 1 else 0; ftrunc remaining; ftrunc retryAfterMs]).

Definition ratelimit (key : string) (capacity rate : float64) (now : Z) (requested : float64) :
    script reply :=
  tokens ← call_hget_num key "tokens";
  ts ← call_hget_num key "ts";
  token_decide key capacity rate now requested (default capacity tokens) (default (of_Z now) ts).

(** [ratelimit_leaky.lua] from the drain on. *)
Definition leaky_decide (key : string) (capacity rate : float64) (now : Z) (requested level ts : float64) :
    script reply :=
  let drained := fsub level (fmul (fdiv (fsub (of_Z now) ts) (of_Z 1000)) rate) in
  let drained := if fltb drained (Fin 0) then Fin 0 else drained in
  let newLevel := fadd drained requested in
  let allowed := fleb newLevel capacity in
  let level := if allowed then newLevel else drained in
  let retryMs :=
    if allowed then Fin 0 else fceil (fmul (fdiv (fsub newLevel capacity) rate) (of_Z 1000)) in
  _ ← call_int (HSET key [("level", num_str level); ("ts", num_str (of_Z now))]);
  _ ← call_int (PEXPIRE key (bucket_ttl capacity rate));
  mret (RInts [if allowed then 1 else 0; 0; ftrunc retryMs]).

Definition ratelimit_leaky (key : string) (capacity rate : float64) (now : Z) (requested : float64) :
    script reply :=
  level ← call_hget_num key "level";
  ts ← call_hget_num key "ts";
  leaky_decide key capacity rate now requested (default (Fin 0) level) (default (of_Z now) ts).
End buckets.

(** ** The keys they touch *)
Lemma sliding_add_on (P : string → Prop) key prefix now i n :
  P key → script_on P (sliding_add key prefix now i n).
Proof. intros Hk; revert i; induction n as [|n IH]; intros i; [done|]. split; [done|]. intros r; apply IH. Qed.

(** ** What they return *)

(** Every result of the script satisfies [Q]. *)
Fixpoint script_post {A} (Q : A → Prop) (p : script A) : Prop :=
  match p with
  | SRet a => Q a
  | SRaise _ => True
  | SCall _ k => ∀ r, script_post Q (k r)
  end.

Lemma script_post_bind {A B} (Q : B → Prop) (f : A → script B) (p : script A) :
  (∀ a, script_post Q (f a)) → script_post Q (p ≫= f).
Proof. intros Hf; induction p as [a|e|c k IH]; simpl; auto. Qed.

Lemma run_post {S} `{!RedisOps S} {A} (Q : A → Prop) (p : script A) (s : S) a :
  script_post Q p → (run p s).1 = inr a → Q a.
Proof.
  revert s; induction p as [b|e|c k IH]; intros s Hp; simpl in *; [by intros [= <-]|done|].
  destruct (r_exec c s) as [[] s']; try (apply IH, Hp); done.
Qed.

(** A decision: whether it is allowed, what remains, and when to retry. *)
Definition decision (r : reply) : Prop := ∃ a b c, r = RInts [a; b; c].

Ltac solve_post :=
  repeat first
    [ apply script_post_bind; intros ?
    | match goal with |- script_post _ (SRaise _) => exact I end
    | match goal with |- script_post _ (mret (RInts _)) => by do 3 eexists end
    | case_match ].

Lemma ratelimit_decision `{LN : !LuaNumbers} key cap rate now n :
  script_post decision (ratelimit key cap rate now n).
Proof. unfold ratelimit, token_decide; solve_post. Qed.
Lemma ratelimit_leaky_decision `{LN : !LuaNumbers} key cap rate now n :
  script_post decision (ratelimit_leaky key cap rate now n).
Proof. unfold ratelimit_leaky, leaky_decide; solve_post. Qed.
Lemma ratelimit_fixed_decision key limit w now n : script_post decision (ratelimit_fixed key limit w now n).
Proof. unfold ratelimit_fixed; solve_post. Qed.
Lemma ratelimit_sliding_decision key limit w now n p :
  script_post decision (ratelimit_sliding key limit w now n p).
Proof. unfold ratelimit_sliding; solve_post. Qed.
