(* ===== verification/Errors.v ===== *)
(** * Error values

    The sentinels of [errors.go] and [internal/lease/lease.go], and what the
    code uses of Go's [errors] and [fmt] packages: wrapping with [%w],
    [errors.Join] and [errors.Is].  A Go [error] that may be nil is an
    [option error]. *)
From S2P Require Import Prelude Redis.

#[warnings="-register-all"]
Inductive error :=
  | ErrBusy
  | ErrLost
  | ErrNotAcquired
  | ErrLeadershipLost
  | ErrCanceled                         (** [context.Canceled] *)
  | ErrDeadlineExceeded                 (** [context.DeadlineExceeded] *)
  | ErrRedis (msg : string)             (** an error reply or a transport error *)
  | ErrText (msg : string)              (** [fmt.Errorf] without [%w] *)
  | ErrWrap (msg : string) (e : error)  (** [fmt.Errorf] with one [%w] *)
  | ErrJoin (es : list error).          (** [errors.Join], nils dropped *)

(** Whether [e] is the very value [t]; only sentinels are compared. *)
Definition same_sentinel (e t : error) : bool :=
  match e, t with
  | ErrBusy, ErrBusy | ErrLost, ErrLost | ErrNotAcquired, ErrNotAcquired
  | ErrLeadershipLost, ErrLeadershipLost | ErrCanceled, ErrCanceled
  | ErrDeadlineExceeded, ErrDeadlineExceeded => true
  | _, _ => false
  end.

(** [errors.Is(e, t)] for a sentinel [t]: the tree of wrapped errors is
    searched. *)
Fixpoint errors_Is (e t : error) : bool :=
  same_sentinel e t ||
  match e with
  | ErrWrap _ e => errors_Is e t
  | ErrJoin es => existsb (λ e, errors_Is e t) es
  | _ => false
  end.

(** [errors.Is] of an error that may be nil. *)
Definition is_error (e : option error) (t : error) : bool :=
  match e with Some e => errors_Is e t | None => false end.

(** [errors.Join] drops nils and is nil when nothing is left. *)
Definition errors_Join (es : list (option error)) : option error :=
  match omap id es with
  | [] => None
  | es => Some (ErrJoin es)
  end.

(** [fmt.Errorf("...: %w", e)] *)
Definition Errorf_w (msg : string) (e : option error) : option error := ErrWrap msg <$> e.

(** A Go computation that may panic. *)
Inductive ran (A : Type) := Ran (a : A) | Panic (msg : string).
Arguments Ran {A} a.
Arguments Panic {A} msg.

#[export] Instance ran_eq_dec `{EqDecision A} : EqDecision (ran A).
Proof. solve_decision. Defined.
#[export] Instance ran_ret : MRet ran := @Ran.
#[export] Instance ran_bind : MBind ran := λ A B f x, match x with Ran a => f a | Panic msg => Panic msg end.

(** What go-redis hands back for a command: a value, [redis.Nil], or an
    error. *)
Inductive cmd_result (A : Type) :=
  | COk (a : A)
  | CNil
  | CErr (e : error).
Arguments COk {A} a.
Arguments CNil {A}.
Arguments CErr {A} e.

(** [Cmd.Int64()] *)
Definition Int64 (r : reply) : cmd_result Z :=
  match r with
  | RInt z => COk z
  | RNil => CNil
  | RErr m => CErr (ErrRedis m)
  | RBulk s => match atoi s with Some z => COk z | None => CErr (ErrRedis "strconv.ParseInt") end
  | _ => CErr (ErrRedis "redis: unexpected type for Int64")
  end.

(** [StringCmd.Result()] *)
Definition Text (r : reply) : cmd_result string :=
  match r with
  | RBulk s => COk s
  | RNil => CNil
  | RErr m => CErr (ErrRedis m)
  | _ => CErr (ErrRedis "redis: unexpected type for String")
  end.

(** [FloatCmd.Result()] of [ZSCORE]; the scores the library writes are whole
    milliseconds. *)
Definition Score (r : reply) : cmd_result Z :=
  match r with
  | RBulk s => match atoi s with Some z => COk z | None => CErr (ErrRedis "strconv.ParseFloat") end
  | RNil => CNil
  | RErr m => CErr (ErrRedis m)
  | _ => CErr (ErrRedis "redis: unexpected type for Float64")
  end.

Lemma join_is es t :
  is_error (errors_Join es) t = existsb (λ x, is_error x t) es.
Proof.
  unfold errors_Join.
  assert (∀ l, existsb (λ e, errors_Is e t) (omap id l) = existsb (λ x, is_error x t) l) as H.
  { induction l as [|[x|] l IH]; [done|simpl; f_equal; exact IH|exact IH]. }
  rewrite <- H; destruct (omap id es) as [|x l] eqn:E; [done|].
  unfold is_error; simpl errors_Is; destruct t; done.
Qed.

Lemma wrap_is msg e t :
  is_error (Errorf_w msg e) t = is_error e t.
Proof. destruct e; [|done]; simpl; destruct t; done. Qed.
