(* ===== verification/Requests.v ===== *)
(** * Requests to the server

    What one client asks of the server in one round trip: a script or a
    single command.  The server serves a request atomically. *)
From S2P Require Import Prelude Float64 Redis ScriptsSingle ScriptsSem ScriptsRW ScriptsRate.

Inductive request :=
  | SingleAcquire (lockKey fencingKey token : string) (ttl : Z) (flag : string)
  | SingleRenew (lockKey token : string) (ttl : Z)
  | SingleRelease (lockKey token : string)
  | SemAcquire (zset : string) (now ttl capacity : Z) (tokens : list string)
  | SemRenew (zset : string) (now ttl : Z) (tokens : list string)
  | SemRelease (zset : string) (tokens : list string)
  | RWWriteLock (K : RWKeys) (token : string) (ttl now waiterTimeout : Z)
  | RWReadLock (K : RWKeys) (token : string) (ttl now waiterTimeout : Z)
  | Command (c : command)
  | RateLimit (key : string) (capacity rate : float64) (now : Z) (requested : float64)
  | RateLimitFixed (windowKey : string) (limit : float64) (windowMs now requested : Z)
  | RateLimitSliding (key : string) (limit : float64) (windowMs now requested : Z) (prefix : string)
  | RateLimitLeaky (key : string) (capacity rate : float64) (now : Z) (requested : float64).

(** The script a request runs; the fuel is for the purge loop. *)
Definition request_script `{LN : !LuaNumbers} (fuel : nat) (r : request) : script reply :=
  match r with
  | SingleAcquire k f t ttl fl => single_acquire k f t ttl fl
  | SingleRenew k t ttl => single_renew k t ttl
  | SingleRelease k t => single_release k t
  | SemAcquire z now ttl cap ts => sem_acquire z now ttl cap ts
  | SemRenew z now ttl ts => sem_renew z now ttl ts
  | SemRelease z ts => sem_release z ts
  | RWWriteLock K t ttl now wt => rw_write_lock fuel K t ttl now wt
  | RWReadLock K t ttl now wt => rw_read_lock fuel K t ttl now wt
  | Command c => SCall c SRet
  | RateLimit k cap rate now n => ratelimit k cap rate now n
  | RateLimitFixed k limit w now n => ratelimit_fixed k limit w now n
  | RateLimitSliding k limit w now n p => ratelimit_sliding k limit w now n p
  | RateLimitLeaky k cap rate now n => ratelimit_leaky k cap rate now n
  end.

Definition request_fuel (m : keyspace) (r : request) : nat :=
  match r with
  | RWWriteLock K _ _ _ _ | RWReadLock K _ _ _ _ => rw_fuel m K
  | _ => 0
  end.

(** The keys a request may touch. *)
Definition request_keys (r : request) : list string :=
  match r with
  | SingleAcquire k f _ _ _ => [k; f]
  | SingleRenew k _ _ | SingleRelease k _ => [k]
  | SemAcquire z _ _ _ _ | SemRenew z _ _ _ | SemRelease z _ => [z]
  | RWWriteLock K _ _ _ _ | RWReadLock K _ _ _ _ => rw_keys K
  | Command c => [cmd_key c]
  | RateLimit k _ _ _ _ | RateLimitFixed k _ _ _ _ | RateLimitSliding k _ _ _ _ _
  | RateLimitLeaky k _ _ _ _ => [k]
  end.

Definition answer (x : string + reply) : reply :=
  match x with inl e => RErr e | inr r => r end.

Definition serve {S} `{!RedisOps S} (r : request) (s : S) : reply * S :=
  let '(x, s') := run (request_script (request_fuel (r_view s) r) r) s in (answer x, s').

Definition serve_ref `{LN : !LuaNumbers} (now : Z) (r : request) (m : keyspace) : reply * keyspace :=
  let '(x, m') := run_ref now (request_script (request_fuel m r) r) m in (answer x, m').

Lemma sem_loop_on P z :
  P z → (∀ ts n, script_on P (sem_count_owned z ts n)) ∧ (∀ s ts, script_on P (sem_add z s ts)) ∧
  (∀ now ts, script_on P (sem_all_owned z now ts)) ∧ (∀ ts n, script_on P (sem_release_loop z ts n)).
Proof.
  intros Hz; split; [|split; [|split]].
  - induction ts as [|t ts IH]; intros n; [done|]; cbn [sem_count_owned]; solve_on; done.
  - intros s ts; induction ts as [|t ts IH]; [done|]; cbn [sem_add]; solve_on; done.
  - intros now ts; induction ts as [|t ts IH]; [done|]; cbn [sem_all_owned]; solve_on; done.
  - induction ts as [|t ts IH]; intros n; [done|]; cbn [sem_release_loop]; solve_on; done.
Qed.

Lemma request_on `{LN : !LuaNumbers} fuel r : script_on (λ k, k ∈ request_keys r) (request_script fuel r).
Proof.
  destruct r as [k f t ttl fl|k t ttl|k t|z now ttl cap ts|z now ttl ts|z ts|K t ttl now wt|K t ttl now wt|c|k cap rate now n|k limit w now n|k limit w now n p|k cap rate now n];
    cbn [request_script request_keys].
  - eapply script_on_weaken; [|apply single_acquire_on]. set_solver.
  - eapply script_on_weaken; [|apply single_renew_on]. set_solver.
  - eapply script_on_weaken; [|apply single_release_on]. set_solver.
  - destruct (sem_loop_on (.∈ [z]) z) as (? & ? & ? & ?); [set_solver|].
    unfold sem_acquire; solve_on; try set_solver; auto.
  - destruct (sem_loop_on (.∈ [z]) z) as (? & ? & ? & ?); [set_solver|].
    unfold sem_renew; solve_on; auto.
  - destruct (sem_loop_on (.∈ [z]) z) as (? & ? & ? & ?); [set_solver|]. unfold sem_release; auto.
  - apply rw_write_lock_on.
  - apply rw_read_lock_on.
  - split; [set_solver|done].
  - repeat split; by apply list_elem_of_singleton.
  - assert (k ∈ [k]) as Hk by set_solver. unfold ratelimit_fixed; solve_on; done.
  - assert (k ∈ [k]) as Hk by set_solver. unfold ratelimit_sliding; solve_on; auto using sliding_add_on.
  - repeat split; by apply list_elem_of_singleton.
Qed.

Lemma serve_ref_frame `{LN : !LuaNumbers} now r m k :
  k ∉ request_keys r → (serve_ref now r m).2 !! k = m !! k.
Proof.
  intros Hk; unfold serve_ref.
  pose proof (run_ref_frame _ now _ m k (request_on (request_fuel m r) r) Hk) as H.
  destruct (run_ref now _ m); done.
Qed.

Section serve.
Context {S : Type} `{!RedisOps S, !RedisLaws S}.

(** The server serves a request as the documentation of its commands says. *)
Lemma serve_view r (s : S) : r_view (serve r s).2 = (serve_ref (r_clock s) r (r_view s)).2.
Proof.
  unfold serve, serve_ref; pose proof (run_view (request_script (request_fuel (r_view s) r) r) s) as H.
  destruct (run _ s), (run_ref _ _ (r_view s)); done.
Qed.
Lemma serve_reply r (s : S) : (serve r s).1 = (serve_ref (r_clock s) r (r_view s)).1.
Proof.
  unfold serve, serve_ref; pose proof (run_result (request_script (request_fuel (r_view s) r) r) s) as H.
  destruct (run _ s), (run_ref _ _ (r_view s)); simpl in *; by subst.
Qed.
Lemma serve_time r (s : S) : r_time (serve r s).2 = r_time s.
Proof.
  unfold serve; pose proof (run_time (request_script (request_fuel (r_view s) r) r) s) as H.
  destruct (run _ s); done.
Qed.

Lemma serve_clock r (s : S) : r_clock (serve r s).2 = r_clock s.
Proof. unfold r_clock; by rewrite serve_time. Qed.
Lemma serve_frame r (s : S) k : k ∉ request_keys r → r_view (serve r s).2 !! k = r_view s !! k.
Proof. intros; rewrite serve_view; by apply serve_ref_frame. Qed.
End serve.
