(* ===== verification/RWLock.v ===== *)
(** * The read-write lock on the server

    What one lock stores under its six keys, as one state, and what the two
    scripts do to it: [write_step] and [read_step], to which the command by
    command scripts of [ScriptsRW] are proved equal.  The queue, its fairness
    and the exclusion of readers and writers are stated on this state. *)
From S2P Require Import Prelude Redis ScriptsSingle ScriptsSem ScriptsRW Requests.
Open Scope Z_scope.

(** ** The state of one lock *)

Record rwstate := RWState {
  rw_writer : option (string * option Z);   (** owner token and expiry *)
  rw_readers : gmap string Z;               (** reader token, expiry stamp *)
  rw_queue : gmap string Z;                 (** contender, arrival number *)
  rw_stamps : gmap string string;           (** contender, last attempt *)
  rw_seq : Z;                               (** the last arrival number *)
  rw_fence : option Z;                      (** the last fencing token *)
}.

Definition set_writer w st :=
  RWState w (rw_readers st) (rw_queue st) (rw_stamps st) (rw_seq st) (rw_fence st).
Definition set_readers r st :=
  RWState (rw_writer st) r (rw_queue st) (rw_stamps st) (rw_seq st) (rw_fence st).
Definition set_queue q st :=
  RWState (rw_writer st) (rw_readers st) q (rw_stamps st) (rw_seq st) (rw_fence st).
Definition set_stamps t st :=
  RWState (rw_writer st) (rw_readers st) (rw_queue st) t (rw_seq st) (rw_fence st).
Definition set_seq n st :=
  RWState (rw_writer st) (rw_readers st) (rw_queue st) (rw_stamps st) n (rw_fence st).
Definition set_fence n st :=
  RWState (rw_writer st) (rw_readers st) (rw_queue st) (rw_stamps st) (rw_seq st) n.

(** The contender leaves the queue. *)
Definition leave (member : string) (st : rwstate) : rwstate :=
  set_stamps (delete member (rw_stamps st)) (set_queue (delete member (rw_queue st)) st).

Definition msg_of (r : reply) : string := match r with RErr e => e | _ => "" end.

(** The queue's keys get a new time to live; one that is not positive removes
    them. *)
Definition expire (wt : Z) (st : rwstate) : rwstate :=
  if wt <=? 0 then set_queue ∅ (set_stamps ∅ (set_seq 0 st)) else st.

(** Joining or refreshing. *)
Definition join (member : string) (now wt : Z) (st : rwstate) : (string + Z) * rwstate :=
  let stamp := set_stamps (<[member := itoa now]> (rw_stamps st)) in
  match rw_queue st !! member with
  | Some n => (inr n, expire wt (stamp st))
  | None =>
      let n := rw_seq st + 1 in
      if n <=? int64_max then
        (inr n, expire wt (stamp (set_queue (<[member := n]> (rw_queue st)) (set_seq n st))))
      else (inl (msg_of OVERFLOW), st)
  end.

(** The contenders at the head that have been silent since before [limit]. *)
Definition silent (limit : Z) (stamps : gmap string string) (member : string) : bool :=
  match stamps !! member ≫= atoi with Some t => t <? limit | None => false end.

Fixpoint crashed (limit : Z) (stamps : gmap string string) (order : list string) : list string :=
  match order with
  | [] => []
  | h :: order => if silent limit stamps h then h :: crashed limit stamps order else []
  end.

Definition arrivals (st : rwstate) : list string := (zsorted (rw_queue st)).*2.

Definition purge (limit : Z) (st : rwstate) : rwstate :=
  foldl (λ st h, leave h st) st (crashed limit (rw_stamps st) (arrivals st)).

Definition is_writer (st : rwstate) (token : string) : bool :=
  match rw_writer st with Some (t, _) => String.eqb t token | None => false end.

(** [t0] is the server's clock, [now] the client's. *)
Definition write_step (t0 : Z) (token : string) (ttl now wt : Z) (st : rwstate) : reply * rwstate :=
  let member := "W:" +:+ token in
  if is_writer st token then (match rw_fence st with Some n => lua_int n | None => RNil end, st)
  else
    match join member now wt st with
    | (inl e, st) => (RErr e, st)
    | (inr _, st) =>
        let st := purge (now - wt) st in
        if match arrivals st with [] => false | h :: _ => negb (String.eqb h member) end then (RNil, st)
        else if bool_decide (is_Some (rw_writer st)) then (RNil, st)
        else
          let st := set_readers (zalive now (rw_readers st)) st in
          if 0 <? Z.of_nat (size (rw_readers st)) then (RNil, st)
          else if (ttl <=? 0) || negb (in_int64 (t0 + ttl)) then (BADEXPIRE, st)
          else
            let st := leave member (set_writer (Some (token, Some (t0 + ttl))) st) in
            let n := default 0 (rw_fence st) + 1 in
            if n <=? int64_max then (lua_int n, set_fence (Some n) st) else (OVERFLOW, st)
    end.

Definition read_step (token : string) (ttl now wt : Z) (st : rwstate) : reply * rwstate :=
  let member := "R:" +:+ token in
  if match rw_readers st !! token with Some s => now <? s | None => false end then (RInt 1, st)
  else
    match join member now wt st with
    | (inl e, st) => (RErr e, st)
    | (inr n, st) =>
        let st := purge (now - wt) st in
        if bool_decide (is_Some (rw_writer st)) then (RNil, st)
        else if existsb is_writer_member (zbelow (rw_queue st) n) then (RNil, st)
        else (RInt 1, leave member (set_readers (<[token := now + ttl]> (rw_readers st)) st))
    end.

(** ** The state of a keyspace *)

Definition number_at (m : keyspace) (k : string) (n : Z) : Prop :=
  0 ≤ n ≤ int64_max ∧
  ((∃ x, m !! k = Some (Entry (VStr (itoa n)) x)) ∨ (m !! k = None ∧ n = 0)).

Record rw_rep (K : RWKeys) (m : keyspace) (st : rwstate) : Prop := {
  rep_keys : NoDup (rw_keys K);
  rep_writer : m !! Writer K = (λ w : string * option Z, Entry (VStr w.1) w.2) <$> rw_writer st;
  rep_readers : zset_of m (Readers K) = Some (rw_readers st);
  rep_noexp : exp_of m (Readers K) = None;
  rep_queue : zset_of m (Waiters K) = Some (rw_queue st);
  rep_stamps : hash_of m (WaiterTS K) = Some (rw_stamps st);
  rep_seq : number_at m (Seq K) (rw_seq st);
  rep_fence : m !! Fencing K = (λ n, Entry (VStr (itoa n)) None) <$> rw_fence st;
  rep_fence_range : 0 ≤ default 0 (rw_fence st) ≤ int64_max;
}.

(** The arrival counter expires with the queue, so that a queue never
    outlives the numbers it was built with. *)
Definition rw_aligned (K : RWKeys) (m : keyspace) (st : rwstate) : Prop :=
  rw_queue st ≠ ∅ → is_Some (m !! Seq K) ∧ exp_of m (Waiters K) = exp_of m (Seq K).

Definition rw_on (K : RWKeys) (m : keyspace) (st : rwstate) : Prop :=
  rw_rep K m st ∧ rw_aligned K m st.

(** The empty server holds a free lock. *)
Definition rw_init : rwstate := RWState None ∅ ∅ ∅ 0 None.

Lemma rw_on_empty K : NoDup (rw_keys K) → rw_on K ∅ rw_init.
Proof.
  intros HK; split; [|done]. split; try done; try (unfold int64_max; simpl; lia).
  split; [unfold int64_max; simpl; lia|by right].
Qed.

Lemma rw_keys_ne K : NoDup (rw_keys K) →
  (Writer K ≠ Readers K ∧ Writer K ≠ Fencing K ∧ Writer K ≠ Waiters K ∧ Writer K ≠ WaiterTS K ∧
   Writer K ≠ Seq K) ∧
  (Readers K ≠ Fencing K ∧ Readers K ≠ Waiters K ∧ Readers K ≠ WaiterTS K ∧ Readers K ≠ Seq K) ∧
  (Fencing K ≠ Waiters K ∧ Fencing K ≠ WaiterTS K ∧ Fencing K ≠ Seq K) ∧
  (Waiters K ≠ WaiterTS K ∧ Waiters K ≠ Seq K) ∧ WaiterTS K ≠ Seq K.
Proof.
  unfold rw_keys. rewrite !NoDup_cons. intros (H1 & H2 & H3 & H4 & H5 & _).
  repeat split; set_solver.
Qed.

(** ** The commands on the state *)

(** [m'] differs from [m] at the key [k] only. *)
Definition only_at (k : string) (m m' : keyspace) : Prop := ∀ k', k' ≠ k → m' !! k' = m !! k'.

Ltac rep_frame Hrep Hf :=
  let H := fresh in
  pose proof (rw_keys_ne _ (rep_keys _ _ _ Hrep)) as H; inv_all;
  destruct Hrep as [? Hw Hr Hx Hq Ht Hs Hn ?];
  unfold zset_of, hash_of, exp_of, number_at in Hr, Hx, Hq, Ht, Hs |- *;
  split; unfold zset_of, hash_of, exp_of, number_at; simpl; try done;
  try (rewrite Hf by (first [done | apply not_eq_sym; done]); done).

Section updates.
Context (K : RWKeys).
Implicit Types (m : keyspace) (st : rwstate).

Lemma rep_set_writer m m' st w :
  rw_rep K m st → only_at (Writer K) m m' →
  m' !! Writer K = (λ w : string * option Z, Entry (VStr w.1) w.2) <$> w →
  rw_rep K m' (set_writer w st).
Proof. intros Hrep Hf E. rep_frame Hrep Hf. Qed.

Lemma rep_set_readers m m' st z :
  rw_rep K m st → only_at (Readers K) m m' → zset_of m' (Readers K) = Some z →
  exp_of m' (Readers K) = None → rw_rep K m' (set_readers z st).
Proof. intros Hrep Hf E Ex. rep_frame Hrep Hf. Qed.

Lemma rep_set_queue m m' st z :
  rw_rep K m st → only_at (Waiters K) m m' → zset_of m' (Waiters K) = Some z →
  rw_rep K m' (set_queue z st).
Proof. intros Hrep Hf E. rep_frame Hrep Hf. Qed.

Lemma rep_set_stamps m m' st h :
  rw_rep K m st → only_at (WaiterTS K) m m' → hash_of m' (WaiterTS K) = Some h →
  rw_rep K m' (set_stamps h st).
Proof. intros Hrep Hf E. rep_frame Hrep Hf. Qed.

Lemma rep_set_seq m m' st n :
  rw_rep K m st → only_at (Seq K) m m' → number_at m' (Seq K) n → rw_rep K m' (set_seq n st).
Proof. intros Hrep Hf E. rep_frame Hrep Hf. Qed.

Lemma rep_set_fence m m' st n :
  rw_rep K m st → only_at (Fencing K) m m' → 0 ≤ n ≤ int64_max →
  m' !! Fencing K = Some (Entry (VStr (itoa n)) None) → rw_rep K m' (set_fence (Some n) st).
Proof. intros Hrep Hf Hn E. rep_frame Hrep Hf. Qed.

(** ** Commands, one by one

    [moves now p m p' m']: the script [p] on [m] goes on as [p'] on [m']. *)
Definition moves {A} (now : Z) (p : script A) (m : keyspace) (p' : script A) (m' : keyspace) : Prop :=
  run_ref now p m = run_ref now p' m'.

Lemma queue_cmd {A} now c f (kont : reply → script A) m st :
  rw_rep K m st → ref_exec now c m = on_zset (Waiters K) m f → is_err (f (rw_queue st)).1 = false →
  ∃ m', moves now (SCall c kont) m (kont (f (rw_queue st)).1) m' ∧
    rw_rep K m' (set_queue (f (rw_queue st)).2 st) ∧ only_at (Waiters K) m m' ∧
    exp_of m' (Waiters K) = if decide ((f (rw_queue st)).2 = ∅) then None else exp_of m (Waiters K).
Proof.
  intros Hrep Hc He. destruct (run_zcmd now _ c f kont m _ Hc (rep_queue _ _ _ Hrep) He) as (m' & Hr & Hz & Hx & Hf).
  exists m'; split; [exact Hr|split; [|by split]]. by eapply rep_set_queue.
Qed.

Lemma readers_cmd {A} now c f (kont : reply → script A) m st :
  rw_on K m st → ref_exec now c m = on_zset (Readers K) m f → is_err (f (rw_readers st)).1 = false →
  ∃ m', moves now (SCall c kont) m (kont (f (rw_readers st)).1) m' ∧
    rw_on K m' (set_readers (f (rw_readers st)).2 st) ∧ only_at (Readers K) m m'.
Proof.
  intros [Hrep Hal] Hc He.
  destruct (run_zcmd now _ c f kont m _ Hc (rep_readers _ _ _ Hrep) He) as (m' & Hr & Hz & Hx & Hf).
  exists m'; split; [exact Hr|split; [|done]]. split.
  - eapply rep_set_readers; [done..|]. rewrite Hx, (rep_noexp _ _ _ Hrep). by case_decide.
  - pose proof (rw_keys_ne _ (rep_keys _ _ _ Hrep)); inv_all.
    intros Hq; destruct (Hal Hq) as [? ?]. unfold exp_of in *. by rewrite !Hf by (by apply not_eq_sym).
Qed.

Lemma stamps_cmd {A} now c f (kont : reply → script A) m st :
  rw_rep K m st → ref_exec now c m = on_hash (WaiterTS K) m f → is_err (f (rw_stamps st)).1 = false →
  ∃ m', moves now (SCall c kont) m (kont (f (rw_stamps st)).1) m' ∧
    rw_rep K m' (set_stamps (f (rw_stamps st)).2 st) ∧ only_at (WaiterTS K) m m'.
Proof.
  intros Hrep Hc He. destruct (run_hcmd now _ c f kont m _ Hc (rep_stamps _ _ _ Hrep) He) as (m' & Hr & Hz & Hx & Hf).
  exists m'; split; [exact Hr|split; [|done]]. by eapply rep_set_stamps.
Qed.

(** A change of the stamps leaves the queue aligned with its counter. *)
Lemma aligned_stamps m m' st h :
  rw_on K m st → only_at (WaiterTS K) m m' → rw_rep K m' (set_stamps h st) → rw_on K m' (set_stamps h st).
Proof.
  intros [Hrep Hal] Hf Hrep'; split; [done|].
  pose proof (rw_keys_ne _ (rep_keys _ _ _ Hrep)); inv_all.
  intros Hq; destruct (Hal Hq). unfold exp_of in *. by rewrite !Hf by done.
Qed.

(** So does a queue that does not grow. *)
Lemma aligned_queue m m' st q :
  rw_on K m st → only_at (Waiters K) m m' → rw_rep K m' (set_queue q st) →
  (q ≠ ∅ → rw_queue st ≠ ∅) →
  exp_of m' (Waiters K) = (if decide (q = ∅) then None else exp_of m (Waiters K)) →
  rw_on K m' (set_queue q st).
Proof.
  intros [Hrep Hal] Hf Hrep' Hq Hx; split; [done|]. simpl.
  pose proof (rw_keys_ne _ (rep_keys _ _ _ Hrep)); inv_all.
  intros H'; simpl in H'. destruct (Hal (Hq H')) as [? Ea]. rewrite Hx, decide_False by done. unfold exp_of in *.
  by rewrite !Hf by (by apply not_eq_sym).
Qed.
End updates.

(** Advance the goal's script by one command, on the state that [H] gives. *)
Tactic Notation "queue_step" constr(H) "as" ident(m') ident(P) ident(F) ident(X) :=
  match goal with
  | |- context [run_ref ?now (SCall ?c ?kont) ?m] =>
      let R := fresh in
      pose proof (queue_cmd _ now c _ kont m _ H eq_refl) as R;
      destruct R as (m' & R & P & F & X); [first [done | cbn; match goal with |- context [match ?x with _ => _ end] => by destruct x end]|];
      unfold moves in R; rewrite R; clear R; cbn [fst snd sbind] in *
  end.
Tactic Notation "stamps_step" constr(H) "as" ident(m') ident(P) ident(F) :=
  match goal with
  | |- context [run_ref ?now (SCall ?c ?kont) ?m] =>
      let R := fresh in
      pose proof (stamps_cmd _ now c _ kont m _ H eq_refl) as R;
      destruct R as (m' & R & P & F); [first [done | cbn; match goal with |- context [match ?x with _ => _ end] => by destruct x end]|];
      unfold moves in R; rewrite R; clear R; cbn [fst snd sbind] in *
  end.
Tactic Notation "readers_step" constr(H) "as" ident(m') ident(P) ident(F) :=
  match goal with
  | |- context [run_ref ?now (SCall ?c ?kont) ?m] =>
      let R := fresh in
      pose proof (readers_cmd _ now c _ kont m _ H eq_refl) as R;
      destruct R as (m' & R & P & F); [first [done | cbn; match goal with |- context [match ?x with _ => _ end] => by destruct x end]|];
      unfold moves in R; rewrite R; clear R; cbn [fst snd sbind] in *
  end.

Section runs.
Context (K : RWKeys) (t0 : Z).
Implicit Types (m : keyspace) (st : rwstate).

Lemma pexpire_cmd {A} k ms (p : script A) m :
  ∃ m', moves t0 (SCall (PEXPIRE k ms) (λ _, p)) m p m' ∧ only_at k m m' ∧
    (ms ≤ 0 → m' !! k = None) ∧
    (0 < ms → m' !! k = (λ e, Entry (e_val e) (Some (t0 + ms))) <$> m !! k).
Proof.
  unfold moves, only_at; simpl; unfold ref_pexpire. destruct (m !! k) as [[v x]|] eqn:E; simpl.
  - destruct (Z.leb_spec ms 0); eexists; (split; [reflexivity|]); (split; [|split]); intros;
      rewrite ?lookup_delete_ne, ?lookup_insert_ne by done; rewrite ?lookup_delete_eq, ?lookup_insert_eq; done || lia.
  - exists m; repeat split; intros; rewrite ?E; done.
Qed.

(** The three new times to live. *)
Lemma expire_run m st n wt :
  rw_rep K m st → (rw_queue st ≠ ∅ → is_Some (m !! Seq K)) →
  ∃ m', run_ref t0 (_ ← call_int (PEXPIRE (Waiters K) wt);
                    _ ← call_int (PEXPIRE (WaiterTS K) wt);
                    _ ← call_int (PEXPIRE (Seq K) wt); mret n) m = (inr (n : Z), m') ∧
    rw_on K m' (expire wt st).
Proof.
  intros Hrep Hseq. pose proof (rw_keys_ne _ (rep_keys _ _ _ Hrep)); inv_all.
  cbn [mbind script_bind sbind call_int].
  destruct (pexpire_cmd (Waiters K) wt (SCall (PEXPIRE (WaiterTS K) wt) (λ _, SCall (PEXPIRE (Seq K) wt) (λ _, SRet n))) m)
    as (m1 & R1 & F1 & D1 & U1).
  destruct (pexpire_cmd (WaiterTS K) wt (SCall (PEXPIRE (Seq K) wt) (λ _, SRet n)) m1) as (m2 & R2 & F2 & D2 & U2).
  destruct (pexpire_cmd (Seq K) wt (SRet n) m2) as (m3 & R3 & F3 & D3 & U3).
  exists m3; split; [exact (eq_trans R1 (eq_trans R2 R3))|].
  assert (rw_rep K m1 (set_queue (if wt <=? 0 then ∅ else rw_queue st) st)) as P1.
  { eapply rep_set_queue; [done..|]. pose proof (rep_queue _ _ _ Hrep) as Hq; unfold zset_of in *.
    destruct (Z.leb_spec wt 0); [by rewrite D1 by done|rewrite U1 by lia].
    destruct (m !! Waiters K) as [[[] ?]|]; simpl in *; congruence. }
  assert (rw_rep K m2 (set_stamps (if wt <=? 0 then ∅ else rw_stamps st) (set_queue (if wt <=? 0 then ∅ else rw_queue st) st))) as P2.
  { eapply rep_set_stamps; [done..|]. pose proof (rep_stamps _ _ _ P1) as Hq; unfold hash_of in *.
    destruct (Z.leb_spec wt 0); [by rewrite D2|rewrite U2 by lia].
    destruct (m1 !! WaiterTS K) as [[[] ?]|]; simpl in *; congruence. }
  assert (rw_rep K m3 (expire wt st)) as P3.
  { pose proof (rep_set_seq K m2 m3 _ (if wt <=? 0 then 0 else rw_seq st) P2 F3) as P3. unfold expire.
    destruct (Z.leb_spec wt 0); [apply P3|destruct st; apply P3]; clear P3.
    - split; [unfold int64_max; lia|]. right; split; [by apply D3|done].
    - destruct (rep_seq _ _ _ P2) as [? Hn]; split; [done|]. rewrite U3 by lia.
      destruct Hn as [[x ->]|[-> ?]]; simpl; [by left; eexists|by right]. }
  split; [exact P3|]. unfold rw_aligned, expire, exp_of.
  destruct (Z.leb_spec wt 0); simpl; [done|]. intros Hq. destruct (Hseq Hq) as [e He].
  assert (m2 !! Seq K = Some e) as He2 by (rewrite F2, F1 by (by apply not_eq_sym); done).
  assert (m3 !! Waiters K = m1 !! Waiters K) as -> by (rewrite F3, F2 by done; done).
  rewrite U3, He2 by lia; simpl. split; [eauto|]. rewrite U1 by lia.
  pose proof (rep_queue _ _ _ Hrep) as Hz; unfold zset_of in Hz.
  destruct (m !! Waiters K) as [e'|]; [done|]. by simplify_eq.
Qed.

Lemma incr_cmd {A} k n (kont : reply → script A) m :
  number_at m k n →
  if n + 1 <=? int64_max then
    ∃ m', moves t0 (SCall (INCRBY k 1) kont) m (kont (RInt (n + 1))) m' ∧ only_at k m m' ∧
      number_at m' k (n + 1) ∧ is_Some (m' !! k) ∧
      (exp_of m k = None → m' !! k = Some (Entry (VStr (itoa (n + 1))) None))
  else run_ref t0 (SCall (INCRBY k 1) kont) m = (inl (msg_of OVERFLOW), m).
Proof.
  intros [Hn H]. unfold moves; simpl; unfold ref_incrby.
  assert (in_int64 n = true) as E1 by (apply in_int64_spec; unfold int64_min; lia).
  assert (in_int64 (n + 1) = (n + 1 <=? int64_max)) as E2.
  { unfold in_int64, int64_min; destruct (n + 1 <=? int64_max); lia. }
  destruct H as [[x Hx]|[Hx ->]]; rewrite Hx; [rewrite atoi_itoa, E1, E2|].
  - destruct (Z.leb_spec (n + 1) int64_max) as [Hle|]; [|done].
    eexists; split; [reflexivity|]. rewrite lookup_insert_eq.
    split; [|split; [unfold number_at; rewrite lookup_insert_eq; split; [lia|eauto]|split; [eauto|]]].
    + intros k' ?; by rewrite lookup_insert_ne.
    + unfold exp_of; rewrite Hx; simpl; by intros ->.
  - change (0 + 1) with 1. simpl. eexists; split; [reflexivity|]. rewrite lookup_insert_eq.
    split; [|split; [unfold number_at; rewrite lookup_insert_eq; split; [unfold int64_max; lia|eauto]|split; [eauto|done]]].
    intros k' ?; by rewrite lookup_insert_ne.
Qed.

(** Joining the queue, or coming back to it. *)
Lemma join_run m st member now wt :
  rw_on K m st →
  ∃ m', run_ref t0 (rw_join (Waiters K) (WaiterTS K) (Seq K) member now wt) m =
          ((join member now wt st).1, m') ∧ rw_on K m' (join member now wt st).2.
Proof.
  intros [Hrep Hal]. pose proof (rw_keys_ne _ (rep_keys _ _ _ Hrep)); inv_all.
  unfold rw_join, call_bulk, mbind, script_bind; cbn [sbind].
  queue_step Hrep as m1 P1 F1 X1.
  assert (set_queue (rw_queue st) st = st) as Est by (by destruct st). rewrite Est in *.
  assert (rw_on K m1 st) as [_ Hal1].
  { rewrite <- Est in P1 |- *. by eapply (aligned_queue K m m1 st). }
  unfold join. destruct (rw_queue st !! member) as [n|] eqn:En.
  - cbn [sbind call_int]. stamps_step P1 as m2 P2 F2.
    edestruct (expire_run m2 _ n wt P2) as (m3 & R3 & P3).
    { intros Hq. destruct (Hal1 Hq) as [? _]. by rewrite F2 by (by apply not_eq_sym). }
    exists m3; split; [|exact P3]. simpl. rewrite atoi_itoa; exact R3.
  - cbn [sbind call_int]. match goal with |- context [run_ref t0 (SCall (INCRBY _ _) ?f) m1] =>
      pose proof (incr_cmd (Seq K) (rw_seq st) f m1 (rep_seq _ _ _ P1)) as Hi end.
    destruct (Z.leb_spec (rw_seq st + 1) int64_max); [|eexists; split; [exact Hi|by split]].
    destruct Hi as (m2 & R2 & F2 & N2 & S2 & _). unfold moves in R2; rewrite R2; clear R2. cbn [sbind].
    pose proof (rep_set_seq K m1 m2 st _ P1 F2 N2) as P2.
    queue_step P2 as m3 P3 F3 X3.
    stamps_step P3 as m4 P4 F4.
    edestruct (expire_run m4 _ (rw_seq st + 1) wt P4) as (m5 & R5 & P5).
    { intros _. by rewrite F4, F3 by (by apply not_eq_sym). }
    exists m5; split; [exact R5|exact P5].
Qed.

Lemma crashed_delete limit stamps h order :
  h ∉ order → crashed limit (delete h stamps) order = crashed limit stamps order.
Proof.
  induction order as [|x xs IH]; intros Hh; [done|]. apply not_elem_of_cons in Hh as [? ?]; cbn [crashed].
  assert (silent limit (delete h stamps) x = silent limit stamps x) as ->
    by (unfold silent; by rewrite lookup_delete_ne).
  by rewrite IH.
Qed.

Lemma purge_cons st s h l limit :
  zsorted (rw_queue st) = (s, h) :: l → silent limit (rw_stamps st) h = true →
  purge limit (leave h st) = purge limit st.
Proof.
  intros Hz Hs. unfold purge, arrivals; simpl. rewrite (zsorted_delete_head _ _ _ _ Hz), Hz; simpl.
  rewrite Hs, crashed_delete; [done|]. intros ([s' h'] & -> & Hin)%list_elem_of_fmap.
  rewrite <- (zsorted_delete_head _ _ _ _ Hz) in Hin.
  apply elem_of_zsorted in Hin. simpl in Hin. by rewrite lookup_delete_eq in Hin.
Qed.

Lemma purge_stop st limit :
  match arrivals st with [] => True | h :: _ => silent limit (rw_stamps st) h = false end →
  purge limit st = st.
Proof. unfold purge. by destruct (arrivals st) as [|h l]; simpl; [|intros ->]. Qed.

(** The loop removes exactly the silent contenders at the head, and with
    fuel for the whole queue it always ends. *)
Lemma purge_run fuel m st now wt :
  rw_on K m st → (size (rw_queue st) < fuel)%nat →
  ∃ m', run_ref t0 (rw_purge fuel (Waiters K) (WaiterTS K) now wt) m = (inr tt, m') ∧
        rw_on K m' (purge (now - wt) st).
Proof.
  revert m st; induction fuel as [|fuel IH]; intros m st [Hrep Hal] Hfuel; [lia|].
  pose proof (rw_keys_ne _ (rep_keys _ _ _ Hrep)); inv_all.
  cbn [rw_purge]. unfold call_strs, mbind, script_bind; cbn [sbind].
  queue_step Hrep as m1 P1 F1 X1.
  assert (set_queue (rw_queue st) st = st) as Est by (by destruct st). rewrite Est in *.
  assert (rw_on K m1 st) as O1.
  { rewrite <- Est in P1 |- *. by eapply (aligned_queue K m m1 st). }
  destruct (zsorted (rw_queue st)) as [|[s h] l] eqn:Ez; cbn -[run_ref].
  { exists m1; split; [done|]. by rewrite purge_stop by (unfold arrivals; by rewrite Ez). }
  unfold call_bulk; cbn [sbind].
  stamps_step P1 as m2 P2 F2.
  assert (set_stamps (rw_stamps st) st = st) as Est' by (by destruct st).
  assert (rw_on K m2 st) as O2.
  { rewrite <- Est' in P2 |- *. eapply aligned_stamps; done. }
  destruct (silent (now - wt) (rw_stamps st) h) eqn:Es.
  - assert (∃ v ts, rw_stamps st !! h = Some v ∧ atoi v = Some ts ∧ (ts <? now - wt) = true) as (v & ts & -> & Ev & Et).
    { unfold silent in Es. destruct (rw_stamps st !! h) as [v|]; simpl in Es; [|done].
      destruct (atoi v) as [ts|] eqn:?; [|done]. by exists v, ts. }
    cbn -[run_ref]. rewrite Ev, Et. unfold call_int; cbn [sbind].
    queue_step (proj1 O2) as m3 P3 F3 X3.
    stamps_step P3 as m4 P4 F4.
    assert (rw_on K m4 (leave h st)) as O4.
    { eapply aligned_stamps; [|exact F4|exact P4]. eapply (aligned_queue K m2 m3 st); try done.
      intros Hd Hq; apply Hd. by rewrite Hq, delete_empty. }
    destruct (IH m4 (leave h st) O4) as (m5 & R5 & P5).
    { simpl. assert (rw_queue st !! h = Some s) as Hs by (by destruct (zsorted_head _ _ _ _ Ez)).
      rewrite map_size_delete, Hs. assert (size (rw_queue st) ≠ 0%nat); [|lia].
      intros E0%map_size_empty_inv; by rewrite E0, lookup_empty in Hs. }
    exists m5; split; [exact R5|]. by rewrite (purge_cons st s h l) in P5.
  - exists m2. rewrite purge_stop by (unfold arrivals; rewrite Ez; exact Es). split; [|exact O2].
    unfold silent in Es. destruct (rw_stamps st !! h) as [v|]; simpl in *; [|done].
    destruct (atoi v) as [ts|]; [|done]. by rewrite Es.
Qed.

(** ** The scripts are the steps *)

Lemma call_int_bind {A} c (f : Z → script A) m :
  run_ref t0 (call_int c ≫= f) m = run_ref t0 (SCall c (λ r, f match r with RInt z => z | _ => 0 end)) m.
Proof. done. Qed.
Lemma call_strs_bind {A} c (f : list string → script A) m :
  run_ref t0 (call_strs c ≫= f) m = run_ref t0 (SCall c (λ r, f match r with RArr l => l | _ => [] end)) m.
Proof. done. Qed.
Lemma call_bulk_bind {A} c (f : option string → script A) m :
  run_ref t0 (call_bulk c ≫= f) m =
  run_ref t0 (SCall c (λ r, f match r with RBulk v => Some v | _ => None end)) m.
Proof. done. Qed.
Lemma call_set_bind {A} k v nx px (f : bool → script A) m :
  run_ref t0 (call_set k v nx px ≫= f) m =
  run_ref t0 (SCall (SET k v nx px) (λ r, f match r with ROk => true | _ => false end)) m.
Proof. done. Qed.

Lemma get_writer {A} (kont : reply → script A) m st :
  rw_on K m st →
  run_ref t0 (SCall (GET (Writer K)) kont) m =
  run_ref t0 (kont (match rw_writer st with Some w => RBulk w.1 | None => RNil end)) m.
Proof.
  intros [Hrep _]; cbn; unfold ref_get. rewrite (rep_writer _ _ _ Hrep). by destruct (rw_writer st) as [[t x]|].
Qed.

Lemma exists_writer {A} (kont : reply → script A) m st :
  rw_on K m st →
  run_ref t0 (SCall (EXISTS (Writer K)) kont) m =
  run_ref t0 (kont (RInt (if bool_decide (is_Some (rw_writer st)) then 1 else 0))) m.
Proof.
  intros [Hrep _]; cbn; unfold ref_exists. rewrite (rep_writer _ _ _ Hrep). by destruct (rw_writer st) as [[t x]|].
Qed.

Lemma get_fence {A} (kont : reply → script A) m st :
  rw_on K m st →
  run_ref t0 (SCall (GET (Fencing K)) kont) m =
  run_ref t0 (kont (match rw_fence st with Some n => RBulk (itoa n) | None => RNil end)) m.
Proof.
  intros [Hrep _]; cbn; unfold ref_get. rewrite (rep_fence _ _ _ Hrep). by destruct (rw_fence st).
Qed.

(** A read of a sorted set or of the head leaves the state as it is. *)
Lemma read_queue {A} c r (kont : reply → script A) m st :
  rw_on K m st → ref_exec t0 c m = on_zset (Waiters K) m (λ z, (r z, z)) → is_err (r (rw_queue st)) = false →
  ∃ m', run_ref t0 (SCall c kont) m = run_ref t0 (kont (r (rw_queue st))) m' ∧ rw_on K m' st.
Proof.
  intros [Hrep Hal] Hc He. destruct (queue_cmd K t0 c _ kont m st Hrep Hc He) as (m' & R & P & F & X).
  exists m'; split; [exact R|]. cbn [fst snd] in *.
  assert (set_queue (rw_queue st) st = st) as Est by (by destruct st). rewrite <- Est in P |- *.
  eapply (aligned_queue K m m' st); done.
Qed.

Tactic Notation "queue_read" constr(H) constr(r) "as" ident(m') ident(O) :=
  match goal with
  | |- context [run_ref t0 (SCall ?c ?kont) ?m] =>
      let R := fresh in
      destruct (read_queue c r kont m _ H eq_refl eq_refl) as (m' & R & O); rewrite R; clear R; cbn [sbind]
  end.

(** The contender's entries are removed. *)
Lemma leave_run {A} (p : script A) m st member :
  rw_on K m st →
  ∃ m', run_ref t0 (_ ← call_int (ZREM (Waiters K) member);
                    _ ← call_int (HDEL (WaiterTS K) member); p) m = run_ref t0 p m' ∧
        rw_on K m' (leave member st).
Proof.
  intros [Hrep Hal]. unfold call_int, mbind, script_bind; cbn [sbind].
  queue_step Hrep as m1 P1 F1 X1. stamps_step P1 as m2 P2 F2.
  exists m2; split; [done|]. eapply aligned_stamps; [|exact F2|exact P2].
  eapply (aligned_queue K m m1 st); try done. intros Hd Hq; apply Hd; by rewrite Hq, delete_empty.
Qed.

Lemma set_writer_run m st token ttl :
  rw_on K m st →
  if (ttl <=? 0) || negb (in_int64 (t0 + ttl)) then
    ∀ A (kont : reply → script A), run_ref t0 (SCall (SET (Writer K) token false ttl) kont) m = (inl (msg_of BADEXPIRE), m)
  else
    ∃ m', (∀ A (kont : reply → script A),
             run_ref t0 (SCall (SET (Writer K) token false ttl) kont) m = run_ref t0 (kont ROk) m') ∧
          rw_on K m' (set_writer (Some (token, Some (t0 + ttl))) st).
Proof.
  intros [Hrep Hal]. destruct ((ttl <=? 0) || negb (in_int64 (t0 + ttl))) eqn:E.
  { intros A kont; cbn; unfold ref_set; by rewrite E. }
  eexists; split; [intros A kont; cbn; unfold ref_set; rewrite E; reflexivity|].
  pose proof (rw_keys_ne _ (rep_keys _ _ _ Hrep)); inv_all. split.
  - eapply rep_set_writer; [exact Hrep| |by rewrite lookup_insert_eq]. intros k ?; by rewrite lookup_insert_ne.
  - intros Hq; destruct (Hal Hq) as [? ?]. unfold exp_of in *. by rewrite !lookup_insert_ne by done.
Qed.

Lemma incr_fence_run m st :
  rw_on K m st →
  let n := default 0 (rw_fence st) + 1 in
  if n <=? int64_max then
    ∃ m', run_ref t0 (n ← call_int (INCRBY (Fencing K) 1); mret (lua_int n)) m = (inr (lua_int n), m') ∧
          rw_on K m' (set_fence (Some n) st)
  else run_ref t0 (n ← call_int (INCRBY (Fencing K) 1); mret (lua_int n)) m = (inl (msg_of OVERFLOW), m).
Proof.
  intros [Hrep Hal]. pose proof (rw_keys_ne _ (rep_keys _ _ _ Hrep)); inv_all.
  assert (number_at m (Fencing K) (default 0 (rw_fence st)) ∧ exp_of m (Fencing K) = None) as [Hn Hx].
  { unfold number_at, exp_of. rewrite (rep_fence _ _ _ Hrep). pose proof (rep_fence_range _ _ _ Hrep).
    destruct (rw_fence st); simpl in *; (split; [split; [done|]|done]); [left|right]; eauto. }
  pose proof (incr_cmd (Fencing K) _ (λ r, SRet (lua_int match r with RInt z => z | _ => 0 end)) m Hn) as Hi.
  cbn zeta. destruct (Z.leb_spec (default 0 (rw_fence st) + 1) int64_max); [|exact Hi].
  destruct Hi as (m' & R & F & _ & _ & E). exists m'; split; [exact R|]. split.
  - pose proof (rep_fence_range _ _ _ Hrep). eapply rep_set_fence; [exact Hrep|exact F|lia|]. by apply E.
  - intros Hq; destruct (Hal Hq) as [? ?]. unfold exp_of in *. by rewrite !F by (by apply not_eq_sym).
Qed.

Lemma purge_queue limit st : rw_queue (purge limit st) ⊆ rw_queue st ∧ rw_readers (purge limit st) = rw_readers st ∧
  rw_writer (purge limit st) = rw_writer st ∧ rw_fence (purge limit st) = rw_fence st ∧
  rw_seq (purge limit st) = rw_seq st.
Proof.
  unfold purge. generalize (crashed limit (rw_stamps st) (arrivals st)); intros l.
  revert st; induction l as [|h l IH]; intros st; simpl; [by repeat split|].
  destruct (IH (leave h st)) as (H & E1 & E2 & E3 & E4). split_and!; [|done..].
  etrans; [exact H|]. apply delete_subseteq.
Qed.

Lemma join_size member now wt st :
  (size (rw_queue (join member now wt st).2) ≤ S (size (rw_queue st)))%nat.
Proof.
  unfold join, expire. destruct (rw_queue st !! member) eqn:E; repeat case_match; simpl;
    rewrite ?map_size_empty, ?map_size_insert, ?E; unfold id; lia.
Qed.

Lemma write_run `{LN : !LuaNumbers} m st token ttl now wt :
  rw_on K m st →
  ∃ m', serve_ref t0 (RWWriteLock K token ttl now wt) m = ((write_step t0 token ttl now wt st).1, m') ∧
        rw_on K m' (write_step t0 token ttl now wt st).2.
Proof.
  intros Ho. unfold serve_ref; cbn [request_script request_fuel].
  unfold rw_fuel. rewrite (rep_queue _ _ _ (proj1 Ho)). set (fuel := S (S _)).
  unfold rw_write_lock, write_step, is_writer. cbv zeta. set (member := "W:" +:+ token).
  rewrite run_ref_bind. unfold call_get. rewrite (get_writer _ m st Ho); cbn [run_ref].
  assert (bool_decide (match match rw_writer st with Some w => RBulk w.1 | None => RNil end with
                       | RBulk v => Some v | _ => None end = Some token) =
          match rw_writer st with Some (t, _) => String.eqb t token | None => false end) as ->.
  { destruct (rw_writer st) as [[t x]|]; simpl; [|done].
    destruct (String.eqb_spec t token) as [->|]; [by apply bool_decide_eq_true|apply bool_decide_eq_false; congruence]. }
  destruct (match rw_writer st with Some (t, _) => _ | None => false end).
  { unfold mbind, script_bind; cbn [sbind]. rewrite (get_fence _ m st Ho). exists m; split; [|done].
    destruct (rw_fence st); simpl; [by rewrite atoi_itoa|done]. }
  rewrite run_ref_bind. destruct (join_run m st member now wt Ho) as (m1 & -> & O1).
  pose proof (join_size member now wt st) as Hsz.
  destruct (join member now wt st) as [[e|n] st1]; cbn [fst snd] in *; [by exists m1|].
  rewrite run_ref_bind. destruct (purge_run fuel m1 st1 now wt O1) as (m2 & -> & O2); [unfold fuel; lia|].
  set (st2 := purge (now - wt) st1) in *.
  rewrite call_strs_bind.
  queue_read O2 (λ z, RArr (take 1 (zsorted z).*2)) as m3 O3.
  assert (match take 1 (zsorted (rw_queue st2)).*2 with [] => false | h :: _ => negb (String.eqb h member) end =
          match arrivals st2 with [] => false | h :: _ => negb (String.eqb h member) end) as ->.
  { unfold arrivals; by destruct (zsorted (rw_queue st2)) as [|[]]. }
  destruct (match arrivals st2 with [] => false | h :: _ => _ end); [by exists m3|].
  rewrite call_int_bind. rewrite (exists_writer _ m3 st2 O3).
  destruct (bool_decide (is_Some (rw_writer st2))); cbn [sbind]; [by exists m3|]. change (0 =? 1) with false; cbv iota.
  rewrite call_int_bind. readers_step O3 as m4 O4 F4. fold (zalive now (rw_readers st2)) in *.
  rewrite call_int_bind. readers_step O4 as m5 O5 F5.
  set (st5 := set_readers (zalive now (rw_readers st2)) st2) in *.
  change (set_readers (rw_readers st5) st5) with st5 in O5.
  destruct (0 <? Z.of_nat (size _)); [by exists m5|].
  rewrite call_set_bind.
  pose proof (set_writer_run m5 st5 token ttl O5) as Hs.
  destruct ((ttl <=? 0) || negb (in_int64 (t0 + ttl))); [rewrite Hs; by exists m5|].
  destruct Hs as (m6 & Hs & O6). rewrite Hs; clear Hs; cbn [sbind].
  destruct (leave_run (n ← call_int (INCRBY (Fencing K) 1); mret (lua_int n)) m6 _ member O6) as (m7 & R7 & O7).
  rewrite R7; clear R7.
  pose proof (incr_fence_run m7 _ O7) as Hi. cbn zeta in Hi.
  destruct (default 0 (rw_fence (leave _ _)) + 1 <=? int64_max).
  - destruct Hi as (m8 & -> & O8). exists m8; split; [done|exact O8].
  - rewrite Hi. exists m7; split; [done|exact O7].
Qed.

Lemma read_run `{LN : !LuaNumbers} m st token ttl now wt :
  rw_on K m st →
  ∃ m', serve_ref t0 (RWReadLock K token ttl now wt) m = ((read_step token ttl now wt st).1, m') ∧
        rw_on K m' (read_step token ttl now wt st).2.
Proof.
  intros Ho. unfold serve_ref; cbn [request_script request_fuel].
  unfold rw_fuel. rewrite (rep_queue _ _ _ (proj1 Ho)). set (fuel := S (S _)).
  unfold rw_read_lock, read_step. cbv zeta. set (member := "R:" +:+ token).
  rewrite call_bulk_bind.
  readers_step Ho as m0 O0 F0.
  assert (set_readers (rw_readers st) st = st) as Est by (by destruct st). rewrite Est in O0; clear Est.
  assert (match tonumber match match rw_readers st !! token with Some s => RBulk (itoa s) | None => RNil end with
            | RBulk v => Some v | _ => None end with Some s => now <? s | None => false end =
          match rw_readers st !! token with Some s => now <? s | None => false end) as ->.
  { destruct (rw_readers st !! token); simpl; [by rewrite atoi_itoa|done]. }
  destruct (match rw_readers st !! token with Some s => _ | None => false end); [by exists m0|].
  rewrite run_ref_bind. destruct (join_run m0 st member now wt O0) as (m1 & -> & O1).
  pose proof (join_size member now wt st) as Hsz.
  destruct (join member now wt st) as [[e|n] st1]; cbn [fst snd] in *; [by exists m1|].
  rewrite run_ref_bind. destruct (purge_run fuel m1 st1 now wt O1) as (m2 & -> & O2); [unfold fuel; lia|].
  set (st2 := purge (now - wt) st1) in *.
  rewrite call_int_bind. rewrite (exists_writer _ m2 st2 O2).
  destruct (bool_decide (is_Some (rw_writer st2))); cbn [sbind]; [by exists m2|]. change (0 =? 1) with false; cbv iota.
  rewrite call_strs_bind.
  queue_read O2 (λ z, RArr (zbelow z n)) as m3 O3.
  destruct (existsb is_writer_member (zbelow (rw_queue st2) n)); [by exists m3|].
  rewrite call_int_bind.
  readers_step O3 as m4 O4 F4.
  destruct (leave_run (mret (RInt 1)) m4 _ member O4) as (m5 & R5 & O5).
  rewrite R5; clear R5. exists m5; split; [done|exact O5].
Qed.
End runs.
