(* ===== verification/RWEffect.v ===== *)
(** * What the read-write scripts leave alone

    On any keyspace, whatever it holds, the two scripts change the writer key,
    the fencing counter and the set of readers only in the ways stated here.
    The leases under those keys rely on nothing more. *)
From S2P Require Import Prelude Redis ScriptsSingle ScriptsSem ScriptsRW Requests RWLock.
Open Scope Z_scope.

Section effect.
Context (K : RWKeys) (t0 : Z) (HK : NoDup (rw_keys K)).
Implicit Types (m : keyspace).

(** A part of a script on keys that satisfy [P] leaves the others alone. *)
Lemma skip {A B} (P : string → Prop) (p : script A) (f : A → script B) m (Q : keyspace → Prop) :
  script_on P p →
  (∀ m', (∀ k, ¬ P k → m' !! k = m !! k) → Q m' ∧ ∀ a, Q (run_ref t0 (f a) m').2) →
  Q (run_ref t0 (p ≫= f) m).2.
Proof.
  intros Hon H. rewrite run_ref_bind. pose proof (λ k, run_ref_frame P t0 p m k Hon) as Hf.
  destruct (run_ref t0 p m) as [[e|a] m']; cbn [snd] in *; by apply (H m' Hf).
Qed.

Lemma skip_end {A} (P : string → Prop) (p : script A) m (Q : keyspace → Prop) :
  script_on P p → (∀ m', (∀ k, ¬ P k → m' !! k = m !! k) → Q m') → Q (run_ref t0 p m).2.
Proof. intros Hon H. apply H. intros k Hk. by apply (run_ref_frame P). Qed.

(** ** The writer key and the fencing counter *)

(** The keys of the queue and the readers. *)
Definition side (k : string) : Prop := k ≠ Writer K ∧ k ≠ Fencing K.

Lemma side_keys : side (Readers K) ∧ side (Waiters K) ∧ side (WaiterTS K) ∧ side (Seq K) ∧ Writer K ≠ Fencing K.
Proof. pose proof (rw_keys_ne K HK); inv_all; unfold side; repeat split; by try apply not_eq_sym. Qed.

(** The lock and its counter as before. *)
Definition lock_same m m' : Prop := m' !! Writer K = m !! Writer K ∧ m' !! Fencing K = m !! Fencing K.

Lemma side_same m m' : (∀ k, ¬ side k → m' !! k = m !! k) → lock_same m m'.
Proof. intros H; split; apply H; by intros [? ?]. Qed.

Lemma lock_same_trans m1 m2 m3 : lock_same m1 m2 → lock_same m2 m3 → lock_same m1 m3.
Proof. intros [? ?] [? ?]; split; congruence. Qed.

(** A new writer: the key was free, the counter advances if it can. *)
Definition lock_taken (token : string) (ttl : Z) m m' : Prop :=
  m !! Writer K = None ∧ owned m' (Writer K) token (Some (t0 + ttl)) ∧
  (m' !! Fencing K = m !! Fencing K ∨ m' !! Fencing K = (ref_incrby (Fencing K) 1 m).2 !! Fencing K).

Lemma incr_fence_effect token ttl m m1 :
  m !! Writer K = None → owned m1 (Writer K) token (Some (t0 + ttl)) → m1 !! Fencing K = m !! Fencing K →
  lock_taken token ttl m (run_ref t0 (n ← call_int (INCRBY (Fencing K) 1); mret (lua_int n)) m1).2.
Proof.
  intros Hn Ho Hf. pose proof side_keys as (_ & _ & _ & _ & Hne).
  set (p := n ← call_int (INCRBY (Fencing K) 1); mret (lua_int n)).
  assert ((run_ref t0 p m1).2 = (ref_incrby (Fencing K) 1 m1).2) as ->.
  { unfold p; cbn. by destruct (ref_incrby (Fencing K) 1 m1) as [[] ?]. }
  split; [done|]. pose proof (ref_exec_frame t0 (INCRBY (Fencing K) 1) m1 (Writer K) Hne) as Hw.
  cbn [ref_exec] in Hw. split; [unfold owned in *; by rewrite Hw|right].
  unfold ref_incrby; rewrite Hf. repeat case_match; cbn; rewrite ?lookup_insert_eq; congruence.
Qed.

Lemma write_lock_effect fuel token ttl now wt m :
  let m' := (run_ref t0 (rw_write_lock fuel K token ttl now wt) m).2 in
  lock_same m m' ∨ lock_taken token ttl m m' ∧ 0 < ttl.
Proof.
  cbv zeta. pose proof side_keys as (Hr & Hq & Ht & Hs & Hne).
  unfold rw_write_lock. set (member := "W:" +:+ token).
  set (Q := λ m', lock_same m m' ∨ lock_taken token ttl m m' ∧ 0 < ttl).
  match goal with |- context [run_ref t0 ?p m] => change (Q (run_ref t0 p m).2) end.
  assert (∀ m', lock_same m m' → Q m') as HQ by (by left).
  assert (∀ f : option string → script reply, (∀ o, Q (run_ref t0 (f o) m).2) → Q (run_ref t0 (call_get (Writer K) ≫= f) m).2) as Hget.
  { intros f Hf. cbn. unfold ref_get. destruct (m !! Writer K) as [[[v| |] x]|]; cbn; try apply Hf; by apply HQ. }
  apply Hget; intros cur; clear Hget. case_bool_decide.
  { cbn. unfold ref_get. destruct (m !! Fencing K) as [[[v| |] x]|]; cbn; by apply HQ. }
  apply (skip side _ _ _ Q); [by apply rw_join_on|]. intros m1 H1%side_same; split; [by apply HQ|]. intros _.
  apply (skip side _ _ _ Q); [by apply rw_purge_on|]. intros m2 H2%side_same; split; [apply HQ; by eapply lock_same_trans|]. intros _.
  apply (skip side _ _ _ Q); [by split|]. intros m3 H3%side_same.
  assert (lock_same m m3) as H03 by (eapply lock_same_trans, H3; by eapply lock_same_trans). clear H1 H2 H3 m1 m2.
  split; [by apply HQ|]. intros head. destruct (match head with [] => false | _ => _ end); [by apply HQ|].
  rewrite call_int_bind; cbn [run_ref ref_exec]; unfold ref_exists.
  destruct (m3 !! Writer K) as [e|] eqn:Ew; [by apply HQ|]. change (0 =? 1) with false; cbv iota.
  apply (skip side _ _ _ Q); [by split|]. intros m4 H4%side_same.
  split; [apply HQ; by eapply lock_same_trans|]. intros _.
  apply (skip side _ _ _ Q); [by split|]. intros m5 H5%side_same.
  assert (lock_same m m5) as H05 by (eapply lock_same_trans, H5; by eapply lock_same_trans).
  split; [by apply HQ|]. intros active. destruct (0 <? active); [by apply HQ|].
  rewrite call_set_bind; cbn [run_ref ref_exec]; unfold ref_set.
  destruct ((ttl <=? 0) || negb (in_int64 (t0 + ttl))) eqn:Et; [by apply HQ|]. cbn [andb].
  set (m6 := <[Writer K := _]> m5).
  assert (m !! Writer K = None) as Hnone by (destruct H03 as [E _]; congruence).
  assert (owned m6 (Writer K) token (Some (t0 + ttl)) ∧ m6 !! Fencing K = m !! Fencing K) as [Ho Hf].
  { unfold m6, owned; split; [by rewrite lookup_insert_eq|]. rewrite lookup_insert_ne by done. apply H05. }
  assert (0 < ttl) as Httl by (to_prop; lia).
  assert (∀ m', lock_same m6 m' → owned m' (Writer K) token (Some (t0 + ttl)) ∧ m' !! Fencing K = m !! Fencing K) as Hsame.
  { intros m' [E1 E2]. unfold owned in *. by rewrite E1, E2. }
  apply (skip side _ _ _ Q); [by split|]. intros m7 H7%side_same. split.
  { right. destruct (Hsame m7 H7). split; [split; [done|split; [done|by left]]|done]. }
  intros _. apply (skip side _ _ _ Q); [by split|]. intros m8 H8%side_same.
  assert (lock_same m6 m8) as H68 by (by eapply lock_same_trans). destruct (Hsame m8 H68). split.
  { right. split; [split; [done|split; [done|by left]]|done]. }
  intros _. right; split; [|done]. by apply incr_fence_effect.
Qed.

(** A reader changes neither. *)
Lemma read_lock_effect fuel token ttl now wt m :
  lock_same m (run_ref t0 (rw_read_lock fuel K token ttl now wt) m).2.
Proof.
  pose proof side_keys as (Hr & Hq & Ht & Hs & Hne). unfold rw_read_lock. set (member := "R:" +:+ token).
  set (Q := lock_same m).
  apply (skip side _ _ _ Q); [by split|]. intros m1 H1%side_same; split; [done|]. intros own.
  destruct (match tonumber own with Some s => now <? s | None => false end); [done|].
  apply (skip side _ _ _ Q); [by apply rw_join_on|]. intros m2 H2%side_same; split; [by eapply lock_same_trans|].
  intros seq. apply (skip side _ _ _ Q); [by apply rw_purge_on|]. intros m3 H3%side_same.
  assert (lock_same m m3) as H03 by (eapply lock_same_trans, H3; by eapply lock_same_trans). split; [done|].
  intros _. rewrite call_int_bind; cbn [run_ref ref_exec]; unfold ref_exists.
  destruct (m3 !! Writer K) as [e|]; [done|]. change (0 =? 1) with false; cbv iota.
  apply (skip_end side); [|intros m4 H4%side_same; by eapply lock_same_trans].
  solve_on; done.
Qed.

(** ** The set of readers *)

Definition other (k : string) : Prop := k ≠ Readers K.

Lemma other_keys : other (Writer K) ∧ other (Fencing K) ∧ other (Waiters K) ∧ other (WaiterTS K) ∧ other (Seq K).
Proof. pose proof (rw_keys_ne K HK); inv_all; unfold other; repeat split; by try apply not_eq_sym. Qed.

Lemma other_same m m' z :
  (∀ k, ¬ other k → m' !! k = m !! k) → zset_of m (Readers K) = Some z →
  zset_of m' (Readers K) = Some z ∧ exp_of m' (Readers K) = exp_of m (Readers K).
Proof.
  intros H Hz. assert (m' !! Readers K = m !! Readers K) as E by (apply H; unfold other; tauto).
  unfold zset_of, exp_of in *; by rewrite E.
Qed.

(** The set of readers became [z], and did not get a time to live. *)
Definition readers_are z m m' : Prop :=
  zset_of m' (Readers K) = Some z ∧ (exp_of m (Readers K) = None → exp_of m' (Readers K) = None).

Lemma readers_skip z m m1 m2 :
  readers_are z m m1 → (∀ k, ¬ other k → m2 !! k = m1 !! k) → readers_are z m m2.
Proof. intros [Hz Hx] H. destruct (other_same m1 m2 z H Hz) as [? E]. split; [done|]. by rewrite E. Qed.

Lemma readers_self z m : zset_of m (Readers K) = Some z → readers_are z m m.
Proof. by split. Qed.

Lemma readers_zcmd c f z m m1 :
  readers_are z m m1 → ref_exec t0 c m1 = on_zset (Readers K) m1 f → is_err (f z).1 = false →
  ∃ m2, (∀ A (kont : reply → script A), run_ref t0 (SCall c kont) m1 = run_ref t0 (kont (f z).1) m2) ∧
        readers_are (f z).2 m m2.
Proof.
  intros [Hz Hx] Hc He. exists (on_zset (Readers K) m1 f).2.
  destruct (on_zset_spec (Readers K) m1 f z Hz) as (Hr & Hz' & Hx'). split.
  - intros A kont. cbn. rewrite Hc. destruct (on_zset (Readers K) m1 f) as [r m2]; cbn in *; subst r.
    by destruct (f z).1.
  - split; [done|]. intros E. rewrite Hx'. case_decide; auto.
Qed.

Lemma write_lock_readers fuel token ttl now wt m z :
  zset_of m (Readers K) = Some z →
  let m' := (run_ref t0 (rw_write_lock fuel K token ttl now wt) m).2 in
  readers_are z m m' ∨ readers_are (zalive now z) m m'.
Proof.
  intros Hz. cbv zeta. pose proof other_keys as (Hw & Hf & Hq & Ht & Hs).
  unfold rw_write_lock. set (member := "W:" +:+ token).
  set (Q := λ m', readers_are z m m' ∨ readers_are (zalive now z) m m').
  match goal with |- context [run_ref t0 ?p m] => change (Q (run_ref t0 p m).2) end.
  apply (skip other _ _ _ Q); [by split|]. intros m1 H1.
  pose proof (readers_skip z m m m1 (readers_self z m Hz) H1) as R1. split; [by left|]. intros cur. case_bool_decide.
  { apply (skip_end other); [solve_on; done|]. intros m2 H2; left; by eapply readers_skip. }
  apply (skip other _ _ _ Q); [by apply rw_join_on|]. intros m2 H2.
  pose proof (readers_skip z m m1 m2 R1 H2) as R2. split; [by left|]. intros _.
  apply (skip other _ _ _ Q); [by apply rw_purge_on|]. intros m3 H3.
  pose proof (readers_skip z m m2 m3 R2 H3) as R3. split; [by left|]. intros _.
  apply (skip other _ _ _ Q); [by split|]. intros m4 H4.
  pose proof (readers_skip z m m3 m4 R3 H4) as R4. split; [by left|]. intros head.
  destruct (match head with [] => false | _ => _ end); [by left|].
  apply (skip other _ _ _ Q); [by split|]. intros m5 H5.
  pose proof (readers_skip z m m4 m5 R4 H5) as R5. split; [by left|]. intros e. destruct (e =? 1); [by left|].
  rewrite call_int_bind.
  destruct (readers_zcmd (ZREMRANGEBYSCORE_UPTO (Readers K) now) _ z m m5 R5 eq_refl eq_refl) as (m6 & -> & R6).
  cbn [snd] in R6. fold (zalive now z) in R6. cbn beta. rewrite call_int_bind.
  destruct (readers_zcmd (ZCARD (Readers K)) _ (zalive now z) m m6 R6 eq_refl eq_refl) as (m7 & -> & R7).
  cbn [snd] in R7. cbn beta. destruct (0 <? _); [by right|].
  apply (skip_end other); [solve_on; done|]. intros m8 H8; right; by eapply readers_skip.
Qed.

Lemma read_lock_readers fuel token ttl now wt m z :
  zset_of m (Readers K) = Some z →
  let m' := (run_ref t0 (rw_read_lock fuel K token ttl now wt) m).2 in
  readers_are z m m' ∨ readers_are (<[token := now + ttl]> z) m m'.
Proof.
  intros Hz. cbv zeta. pose proof other_keys as (Hw & Hf & Hq & Ht & Hs).
  unfold rw_read_lock. set (member := "R:" +:+ token).
  set (Q := λ m', readers_are z m m' ∨ readers_are (<[token := now + ttl]> z) m m').
  match goal with |- context [run_ref t0 ?p m] => change (Q (run_ref t0 p m).2) end.
  rewrite call_bulk_bind.
  destruct (readers_zcmd (ZSCORE (Readers K) token) (λ z, (match z !! token with Some s => RBulk (itoa s) | None => RNil end, z))
    z m m (readers_self z m Hz) eq_refl) as (m1 & -> & R1); [cbn; by destruct (z !! token)|]. cbn [snd fst] in *.
  match goal with |- Q (run_ref t0 (if ?b then _ else _) m1).2 => destruct b end; [by left|].
  apply (skip other _ _ _ Q); [by apply rw_join_on|]. intros m2 H2.
  pose proof (readers_skip z m m1 m2 R1 H2) as R2. split; [by left|]. intros seq.
  apply (skip other _ _ _ Q); [by apply rw_purge_on|]. intros m3 H3.
  pose proof (readers_skip z m m2 m3 R2 H3) as R3. split; [by left|]. intros _.
  apply (skip other _ _ _ Q); [by split|]. intros m4 H4.
  pose proof (readers_skip z m m3 m4 R3 H4) as R4. split; [by left|]. intros e. destruct (e =? 1); [by left|].
  apply (skip other _ _ _ Q); [by split|]. intros m5 H5.
  pose proof (readers_skip z m m4 m5 R4 H5) as R5. split; [by left|]. intros ahead.
  destruct (existsb is_writer_member ahead); [by left|]. rewrite call_int_bind.
  destruct (readers_zcmd (ZADD (Readers K) (now + ttl) token) _ z m m5 R5 eq_refl eq_refl) as (m6 & -> & R6).
  cbn [snd] in R6. apply (skip_end other); [solve_on; done|]. intros m7 H7; right; by eapply readers_skip.
Qed.
End effect.
