(* ===== verification/RWMachine.v ===== *)
(** * The read-write lock as a machine

    Every request that the users of a read-write lock make is a step of one
    machine over [rwstate] ([rw_op], [rw_apply]); the server refines it
    ([rw_refines]).  The machine keeps an invariant, in which readers and a
    writer exclude each other, and serves its queue in the order of arrival. *)
From S2P Require Import Prelude Redis RedisMem ScriptsSingle ScriptsSem ScriptsRW Requests RWLock.
Open Scope Z_scope.

(** ** The requests of the lock's users *)

Inductive rw_op :=
  | WLock (token : string) (ttl now wt : Z)     (** [RWWriter.TryAcquire] *)
  | RLock (token : string) (ttl now wt : Z)     (** [RWReader.Acquire] *)
  | WRenew (token : string) (ttl : Z)           (** [RWWriter.Renew] *)
  | WRelease (token : string)                   (** [RWWriter.Release] *)
  | RRenew (now ttl : Z) (tokens : list string) (** [RWReader.Renew] *)
  | RRelease (tokens : list string)             (** [RWReader.Release] *)
  | QLeave (member : string)                    (** [Dequeue], first half *)
  | QForget (member : string)                   (** [Dequeue], second half *)
  | WQuery                                      (** [RWWriter.Held] *)
  | RQuery (token : string).                    (** [RWReader.Held] *)

Definition to_request (K : RWKeys) (o : rw_op) : request :=
  match o with
  | WLock t ttl now wt => RWWriteLock K t ttl now wt
  | RLock t ttl now wt => RWReadLock K t ttl now wt
  | WRenew t ttl => SingleRenew (Writer K) t ttl
  | WRelease t => SingleRelease (Writer K) t
  | RRenew now ttl ts => SemRenew (Readers K) now ttl ts
  | RRelease ts => SemRelease (Readers K) ts
  | QLeave x => Command (ZREM (Waiters K) x)
  | QForget x => Command (HDEL (WaiterTS K) x)
  | WQuery => Command (GET (Writer K))
  | RQuery t => Command (ZSCORE (Readers K) t)
  end.

Definition rw_apply (t0 : Z) (o : rw_op) (st : rwstate) : reply * rwstate :=
  match o with
  | WLock t ttl now wt => write_step t0 t ttl now wt st
  | RLock t ttl now wt => read_step t ttl now wt st
  | WRenew t ttl =>
      if is_writer st t
      then (RInt 1, set_writer (if ttl <=? 0 then None else Some (t, Some (t0 + ttl))) st)
      else (RInt 0, st)
  | WRelease t => if is_writer st t then (RInt 1, set_writer None st) else (RInt 0, st)
  | RRenew now ttl ts =>
      if all_live (rw_readers st) now ts
      then (RInt 1, set_readers (zadd_all (now + ttl) ts (rw_readers st)) st) else (RInt 0, st)
  | RRelease ts =>
      let '(n, z) := zrem_all ts (rw_readers st) in (RInt n, set_readers z st)
  | QLeave x =>
      (RInt (if bool_decide (is_Some (rw_queue st !! x)) then 1 else 0),
       set_queue (delete x (rw_queue st)) st)
  | QForget x =>
      (RInt (if bool_decide (is_Some (rw_stamps st !! x)) then 1 else 0),
       set_stamps (delete x (rw_stamps st)) st)
  | WQuery => (match rw_writer st with Some w => RBulk w.1 | None => RNil end, st)
  | RQuery t => (match rw_readers st !! t with Some s => RBulk (itoa s) | None => RNil end, st)
  end.

Section refinement.
Context (K : RWKeys) (t0 : Z).
Implicit Types (m : keyspace) (st : rwstate).

Lemma on_readers m m' st z :
  rw_on K m st → only_zset (Readers K) m m' z → rw_on K m' (set_readers z st).
Proof.
  intros [Hrep Hal] (Hz & Hx & Hf). split.
  - eapply rep_set_readers; [done..|]. apply Hx, (rep_noexp _ _ _ Hrep).
  - pose proof (rw_keys_ne _ (rep_keys _ _ _ Hrep)); inv_all.
    intros Hq; destruct (Hal Hq) as [? ?]. unfold exp_of in *. by rewrite !Hf by (by apply not_eq_sym).
Qed.

Lemma on_writer m st w :
  rw_on K m st →
  rw_on K (partial_alter (λ _, (λ w : string * option Z, Entry (VStr w.1) w.2) <$> w) (Writer K) m) (set_writer w st).
Proof.
  intros [Hrep Hal]. pose proof (rw_keys_ne _ (rep_keys _ _ _ Hrep)); inv_all. split.
  - eapply rep_set_writer; [exact Hrep| |by rewrite lookup_partial_alter_eq].
    intros k ?; by rewrite lookup_partial_alter_ne.
  - intros Hq; destruct (Hal Hq) as [? ?]. unfold exp_of in *. by rewrite !lookup_partial_alter_ne by done.
Qed.

(** The owner's renewal and release, on the writer key. *)
Lemma renew_run `{LN : !LuaNumbers} m st t ttl :
  rw_on K m st →
  ∃ m', serve_ref t0 (SingleRenew (Writer K) t ttl) m = ((rw_apply t0 (WRenew t ttl) st).1, m') ∧
        rw_on K m' (rw_apply t0 (WRenew t ttl) st).2.
Proof.
  intros Ho. unfold serve_ref; cbn; unfold ref_get, is_writer. rewrite (rep_writer _ _ _ (proj1 Ho)).
  destruct (rw_writer st) as [[v x]|] eqn:Ew; simpl; [|by exists m].
  destruct (String.eqb_spec v t) as [->|]; [rewrite bool_decide_eq_true_2 by done
    |rewrite bool_decide_eq_false_2 by congruence; by exists m].
  cbn. unfold ref_pexpire. rewrite (rep_writer _ _ _ (proj1 Ho)), Ew; cbn.
  destruct (ttl <=? 0); (eexists; split; [reflexivity|]).
  - exact (on_writer m st None Ho).
  - exact (on_writer m st (Some (t, Some (t0 + ttl))) Ho).
Qed.

Lemma release_run `{LN : !LuaNumbers} m st t :
  rw_on K m st →
  ∃ m', serve_ref t0 (SingleRelease (Writer K) t) m = ((rw_apply t0 (WRelease t) st).1, m') ∧
        rw_on K m' (rw_apply t0 (WRelease t) st).2.
Proof.
  intros Ho. unfold serve_ref; cbn; unfold ref_get, is_writer. rewrite (rep_writer _ _ _ (proj1 Ho)).
  destruct (rw_writer st) as [[v x]|] eqn:Ew; simpl; [|by exists m].
  destruct (String.eqb_spec v t) as [->|]; [rewrite bool_decide_eq_true_2 by done
    |rewrite bool_decide_eq_false_2 by congruence; by exists m].
  cbn. unfold ref_del. rewrite (rep_writer _ _ _ (proj1 Ho)), Ew; cbn.
  eexists; split; [reflexivity|]. exact (on_writer m st None Ho).
Qed.

(** One request on the server is one step of the machine. *)
Lemma apply_run `{LN : !LuaNumbers} m st o :
  rw_on K m st →
  ∃ m', serve_ref t0 (to_request K o) m = ((rw_apply t0 o st).1, m') ∧ rw_on K m' (rw_apply t0 o st).2.
Proof.
  intros Ho. destruct o as [t ttl now wt|t ttl now wt|t ttl|t|now ttl ts|ts|x|x| |t]; cbn [to_request].
  - by apply write_run.
  - by apply read_run.
  - by apply renew_run.
  - by apply release_run.
  - destruct (sem_renew_run t0 (Readers K) now ttl ts m _ (rep_readers _ _ _ (proj1 Ho))) as (m' & R & H).
    exists m'. unfold serve_ref; cbn [request_script request_fuel rw_apply]; rewrite R.
    assert (set_readers (rw_readers st) st = st) as Est by (by destruct st).
    pose proof (on_readers m m' st _ Ho H) as Hon.
    destruct (all_live _ _ _); (split; [done|]); [exact Hon|by rewrite Est in Hon].
  - destruct (sem_release_run t0 (Readers K) ts m _ (rep_readers _ _ _ (proj1 Ho))) as (m' & R & H).
    exists m'. unfold serve_ref; cbn [request_script request_fuel rw_apply]; rewrite R.
    pose proof (on_readers m m' st _ Ho H) as Hon.
    destruct (zrem_all ts (rw_readers st)); by split.
  - unfold serve_ref; cbn [request_script request_fuel rw_apply]. pose proof (proj1 Ho) as Hrep.
    queue_step Hrep as m1 P1 F1 X1. exists m1; split; [done|].
    eapply (aligned_queue K m m1 st); try done. intros Hd Hq; apply Hd; by rewrite Hq, delete_empty.
  - unfold serve_ref; cbn [request_script request_fuel rw_apply]. pose proof (proj1 Ho) as Hrep.
    stamps_step Hrep as m1 P1 F1. exists m1; split; [done|]. by eapply aligned_stamps.
  - exists m; split; [|done]. unfold serve_ref; cbn [request_script request_fuel].
    rewrite (get_writer K t0 _ m st Ho); simpl. by destruct (rw_writer st).
  - unfold serve_ref; cbn [request_script request_fuel rw_apply].
    readers_step Ho as m1 O1 F1. assert (set_readers (rw_readers st) st = st) as Est by (by destruct st).
    rewrite Est in O1. exists m1; split; [by destruct (rw_readers st !! t)|done].
Qed.
End refinement.

(** ** The invariant *)

Record rw_inv (st : rwstate) : Prop := {
  inv_excl : is_Some (rw_writer st) → rw_readers st = ∅;
  inv_arrived x n : rw_queue st !! x = Some n → 1 ≤ n ≤ rw_seq st;
  inv_distinct x y n : rw_queue st !! x = Some n → rw_queue st !! y = Some n → x = y;
  inv_minted : is_Some (rw_writer st) → is_Some (rw_fence st);
  inv_seq : 0 ≤ rw_seq st;
}.

Lemma rw_inv_init : rw_inv rw_init.
Proof. split; simpl; try done; try (by intros [? ?]). Qed.

(** A queue that lost entries, under the same counter. *)
Lemma inv_shrink st q :
  rw_inv st → q ⊆ rw_queue st → rw_inv (set_queue q st).
Proof.
  intros [I1 I2 I3 I4 I5] Hq; split; simpl; auto.
  - intros x n Hx. eapply I2, lookup_weaken; [exact Hx|exact Hq].
  - intros x y n Hx Hy. eapply I3; eapply lookup_weaken; eauto.
Qed.

Lemma inv_stamps st t : rw_inv st → rw_inv (set_stamps t st).
Proof. by intros []; split. Qed.

Lemma inv_leave st x : rw_inv st → rw_inv (leave x st).
Proof. intros; apply inv_stamps, inv_shrink; [done|]. apply delete_subseteq. Qed.

Lemma inv_purge limit st : rw_inv st → rw_inv (purge limit st).
Proof.
  unfold purge. generalize (crashed limit (rw_stamps st) (arrivals st)); intros l.
  revert st; induction l as [|h l IH]; intros st H; simpl; [done|]. by apply IH, inv_leave.
Qed.

Lemma inv_expire wt st : rw_inv st → rw_inv (expire wt st).
Proof. unfold expire; destruct (wt <=? 0); [|done]. intros []; split; simpl; auto; try lia; intros *; by rewrite lookup_empty. Qed.

Lemma inv_join x now wt st : rw_inv st → rw_inv (join x now wt st).2.
Proof.
  intros H; unfold join. destruct (rw_queue st !! x) as [n|] eqn:E.
  { simpl. by apply inv_expire, inv_stamps. }
  destruct (rw_seq st + 1 <=? int64_max); simpl; [|done]. apply inv_expire, inv_stamps.
  destruct H as [I1 I2 I3 I4 I5]; split; simpl; auto; [| |lia].
  - intros y n; rewrite lookup_insert_Some; intros [[<- <-]|[_ Hy]]; [lia|]. specialize (I2 _ _ Hy); lia.
  - intros y z n; rewrite !lookup_insert_Some. intros [[<- <-]|[? Hy]] [[<- E2]|[? Hz]]; eauto.
    + specialize (I2 _ _ Hz); lia. + specialize (I2 _ _ Hy); lia.
Qed.

Lemma zadd_all_empty score ts now : all_live ∅ now ts = true → zadd_all score ts ∅ = ∅.
Proof. destruct ts as [|t ts]; [done|]. unfold all_live; simpl. by rewrite lookup_empty. Qed.

Lemma zrem_all_empty ts : (zrem_all ts ∅).2 = ∅.
Proof.
  apply map_eq; intros x. rewrite zrem_all_lookup, lookup_empty. by destruct (decide (x ∈ ts)).
Qed.

(** A grant of the write side. *)
Definition becomes_writer (t0 : Z) (token : string) (ttl now wt : Z) (st : rwstate) : Prop :=
  is_writer st token = false ∧ is_writer (write_step t0 token ttl now wt st).2 token = true.

Lemma purge_fields limit st :
  rw_readers (purge limit st) = rw_readers st ∧ rw_writer (purge limit st) = rw_writer st ∧
  rw_fence (purge limit st) = rw_fence st ∧ rw_seq (purge limit st) = rw_seq st.
Proof. by destruct (purge_queue limit st) as (_ & ? & ? & ? & ?). Qed.

Lemma join_fields x now wt st :
  rw_readers (join x now wt st).2 = rw_readers st ∧ rw_writer (join x now wt st).2 = rw_writer st ∧
  rw_fence (join x now wt st).2 = rw_fence st.
Proof. unfold join, expire. destruct (rw_queue st !! x); repeat case_match; done. Qed.

(** What the write script does besides queueing. *)
Lemma write_step_cases t0 token ttl now wt st :
  let x := write_step t0 token ttl now wt st in
  (is_writer st token = true ∧ x = (match rw_fence st with Some n => lua_int n | None => RNil end, st)) ∨
  is_writer st token = false ∧
  let st1 := purge (now - wt) (join ("W:" +:+ token) now wt st).2 in
  ((x.1 = RNil ∨ ∃ e, x.1 = RErr e) ∧
     (x.2 = (join ("W:" +:+ token) now wt st).2 ∨ x.2 = st1 ∨ x.2 = set_readers (zalive now (rw_readers st)) st1) ∨
   rw_writer st = None ∧ zalive now (rw_readers st) = ∅ ∧ 0 < ttl ∧
   (∃ n, (join ("W:" +:+ token) now wt st).1 = inr n ∧
      match arrivals st1 with [] => True | h :: _ => h = "W:" +:+ token end) ∧
   ∃ st2, st2 = leave ("W:" +:+ token) (set_writer (Some (token, Some (t0 + ttl)))
                  (set_readers ∅ st1)) ∧
     (x = (lua_int (default 0 (rw_fence st) + 1), set_fence (Some (default 0 (rw_fence st) + 1)) st2) ∧
        default 0 (rw_fence st) < int64_max ∨
      x = (OVERFLOW, st2) ∧ int64_max ≤ default 0 (rw_fence st))).
Proof.
  cbv zeta. unfold write_step. set (member := "W:" +:+ token).
  destruct (is_writer st token) eqn:Eo; [by left|]. right; split; [done|].
  destruct (join_fields member now wt st) as (Jr & Jw & Jf).
  destruct (join member now wt st) as [[e|n] st0]; cbn [fst snd] in *; [left; by eauto|].
  destruct (purge_fields (now - wt) st0) as (Pr & Pw & Pf & _). set (st1 := purge (now - wt) st0) in *.
  destruct (arrivals st1) as [|h l] eqn:Ea; [|destruct (String.eqb_spec h member) as [->|]; cbn [negb]; [|left; by eauto]];
    (destruct (bool_decide (is_Some (rw_writer st1))) eqn:Ew; [left; by eauto|]);
    cbn [rw_readers set_readers]; rewrite Pr, Jr;
    (destruct (Z.ltb_spec 0 (Z.of_nat (size (zalive now (rw_readers st))))) as [|Hz]; [left; by eauto|]);
    (destruct ((ttl <=? 0) || negb (in_int64 (t0 + ttl))) eqn:Et; [left; split; [right; by eexists|by eauto]|]);
    right; to_prop;
    (assert (zalive now (rw_readers st) = ∅) as Hr by (apply map_size_empty_inv; lia)); rewrite Hr;
    (split; [rewrite Pw, Jw in Ew; by destruct (rw_writer st); [destruct Ew; eauto|]|]);
    (split; [done|split; [lia|split; [by (try rewrite Ea); eauto|]]]);
    (eexists; split; [reflexivity|]); cbn [rw_fence leave set_stamps set_queue set_writer set_readers];
    rewrite Pf, Jf; destruct (Z.leb_spec (default 0 (rw_fence st) + 1) int64_max); [left|right|left|right];
    (split; [done|lia]).
Qed.

Lemma read_step_cases token ttl now wt st :
  let x := read_step token ttl now wt st in
  let st1 := purge (now - wt) (join ("R:" +:+ token) now wt st).2 in
  ((∃ s, rw_readers st !! token = Some s ∧ now < s) ∧ x = (RInt 1, st)) ∨
  (¬ (∃ s, rw_readers st !! token = Some s ∧ now < s)) ∧
  ((x.1 = RNil ∨ ∃ e, x.1 = RErr e) ∧ (x.2 = (join ("R:" +:+ token) now wt st).2 ∨ x.2 = st1) ∨
   rw_writer st = None ∧
   (∃ n, (join ("R:" +:+ token) now wt st).1 = inr n ∧ existsb is_writer_member (zbelow (rw_queue st1) n) = false) ∧
   x = (RInt 1, leave ("R:" +:+ token) (set_readers (<[token := now + ttl]> (rw_readers st)) st1))).
Proof.
  cbv zeta. unfold read_step. set (member := "R:" +:+ token).
  destruct (rw_readers st !! token) as [s|] eqn:Es; [destruct (Z.ltb_spec now s); [left; by eauto|]|];
    (right; split; [intros (s' & ? & ?); simplify_eq; lia|]);
    destruct (join_fields member now wt st) as (Jr & Jw & Jf);
    (destruct (join member now wt st) as [[e|n] st0]; cbn [fst snd] in *; [left; by eauto|]);
    destruct (purge_fields (now - wt) st0) as (Pr & Pw & Pf & _); set (st1 := purge (now - wt) st0) in *;
    (destruct (bool_decide (is_Some (rw_writer st1))) eqn:Ew; [left; by eauto|]);
    (destruct (existsb is_writer_member (zbelow (rw_queue st1) n)) eqn:Ex; [left; by eauto|]);
    right; to_prop; rewrite Pr, Jr;
    (split; [rewrite Pw, Jw in Ew; by destruct (rw_writer st); [destruct Ew; eauto|]|]); eauto.
Qed.

Lemma inv_readers st z :
  rw_inv st → (is_Some (rw_writer st) → z = ∅) → rw_inv (set_readers z st).
Proof. by intros [] ?; split. Qed.

Lemma inv_write t0 t ttl now wt st : rw_inv st → rw_inv (write_step t0 t ttl now wt st).2.
Proof.
  intros H. pose proof (write_step_cases t0 t ttl now wt st) as Hc. cbv zeta in Hc.
  pose proof (inv_purge (now - wt) _ (inv_join ("W:" +:+ t) now wt st H)) as Hpj.
  destruct (purge_fields (now - wt) (join ("W:" +:+ t) now wt st).2) as (Pr & Pw & Pf & _).
  destruct (join_fields ("W:" +:+ t) now wt st) as (Jr & Jw & Jf).
  destruct Hc as [[_ ->]|[_ [[_ [->|[->| ->]]]|(Hw & Hz & _ & _ & st2 & -> & Hx)]]];
    [done|by apply inv_join|done|..].
  { apply inv_readers; [done|]. rewrite Pw, Jw; intros Hw. by rewrite (inv_excl _ H Hw). }
  apply (inv_leave _ ("W:" +:+ t)) in Hpj as [I1 I2 I3 I4 I5].
  destruct Hx as [[-> _]|[-> Hmax]]; split; simpl; eauto.
  intros _; rewrite Pf, Jf. destruct (rw_fence st); [eauto|unfold int64_max in Hmax; simpl in Hmax; lia].
Qed.

Lemma inv_read t ttl now wt st : rw_inv st → rw_inv (read_step t ttl now wt st).2.
Proof.
  intros H. pose proof (read_step_cases t ttl now wt st) as Hc. cbv zeta in Hc.
  pose proof (inv_purge (now - wt) _ (inv_join ("R:" +:+ t) now wt st H)) as Hpj.
  destruct (purge_fields (now - wt) (join ("R:" +:+ t) now wt st).2) as (Pr & Pw & Pf & _).
  destruct (join_fields ("R:" +:+ t) now wt st) as (Jr & Jw & Jf).
  destruct Hc as [[_ ->]|[_ [[_ [->| ->]]|(Hw & _ & ->)]]]; [done|by apply inv_join|done|].
  apply inv_leave, inv_readers; [done|]. rewrite Pw, Jw, Hw. by intros [? ?].
Qed.

(** Every request keeps the invariant. *)
Lemma inv_apply t0 o st : rw_inv st → rw_inv (rw_apply t0 o st).2.
Proof.
  intros H. assert (∀ x now wt, rw_inv (purge (now - wt) (join x now wt st).2)) as Hpj
    by (intros; by apply inv_purge, inv_join).
  destruct o as [t ttl now wt|t ttl now wt|t ttl|t|now ttl ts|ts|x|x| |t]; cbn [rw_apply]; try done.
  - by apply inv_write.
  - by apply inv_read.
  - unfold is_writer. destruct (rw_writer st) as [[v y]|] eqn:Ew; [|done].
    destruct (v =? t)%string; [|done]. destruct H as [I1 I2 I3 I4 I5]; rewrite Ew in I1, I4; split; simpl; eauto.
  - destruct (is_writer st t); [|done]. destruct H as [I1 I2 I3 I4 I5]; split; simpl; eauto; by intros [? ?].
  - destruct (all_live (rw_readers st) now ts) eqn:El; [|done]. apply inv_readers; [done|].
    intros Hw. rewrite (inv_excl _ H Hw) in *. by eapply zadd_all_empty.
  - pose proof (zrem_all_empty ts) as He. destruct (zrem_all ts (rw_readers st)) as [n z] eqn:Ez.
    apply inv_readers; [done|]. intros Hw. rewrite (inv_excl _ H Hw) in Ez. by rewrite Ez in He.
  - by apply inv_shrink, delete_subseteq.
  - by apply inv_stamps.
Qed.

(** ** Time *)

Lemma live_lookup ex clock (m : keyspace) k :
  live_keys ex clock m !! k =
  match m !! k with Some e => if decide (entry_live ex clock e) then Some e else None | None => None end.
Proof.
  unfold live_keys. destruct (m !! k) as [e|] eqn:E; [case_decide|].
  - by apply map_lookup_filter_Some.
  - apply map_lookup_filter_None; right; intros e' ?; simplify_eq; done.
  - apply map_lookup_filter_None; by left.
Qed.

(** Time passing lets the writer, or the queue with its counter, expire. *)
Definition aged (st st' : rwstate) : Prop :=
  rw_readers st' = rw_readers st ∧ rw_fence st' = rw_fence st ∧
  (rw_writer st' = rw_writer st ∨ rw_writer st' = None) ∧
  (rw_queue st' = rw_queue st ∧ rw_seq st' = rw_seq st ∨ rw_queue st' = ∅ ∧ 0 ≤ rw_seq st' ≤ rw_seq st).

(** The queue and its counter expire together. *)
Lemma queue_tick K ex clock m st :
  rw_on K m st →
  ∃ q n, zset_of (live_keys ex clock m) (Waiters K) = Some q ∧ number_at (live_keys ex clock m) (Seq K) n ∧
    (q = rw_queue st ∧ n = rw_seq st ∨ q = ∅ ∧ 0 ≤ n ≤ rw_seq st) ∧
    (q ≠ ∅ → is_Some (live_keys ex clock m !! Seq K) ∧
       exp_of (live_keys ex clock m) (Waiters K) = exp_of (live_keys ex clock m) (Seq K)).
Proof.
  intros [Hrep Hal]. pose proof (rep_queue _ _ _ Hrep) as Hz; pose proof (rep_seq _ _ _ Hrep) as [Hrange Hs].
  unfold rw_aligned, zset_of, number_at, exp_of in *. rewrite !live_lookup.
  destruct (m !! Seq K) as [es|] eqn:Es.
  - destruct (decide (entry_live ex clock es)) as [Hls|Hls].
    + destruct (m !! Waiters K) as [ew|]; [destruct (decide (entry_live ex clock ew))|].
      * exists (rw_queue st), (rw_seq st). split; [done|split; [done|split; [by left|exact Hal]]].
      * exists ∅, (rw_seq st). split; [done|split; [done|split; [right; split; [done|lia]|done]]].
      * exists ∅, (rw_seq st). split; [done|split; [done|split; [right; split; [done|lia]|done]]].
    + exists ∅, 0. split; [|split; [split; [unfold int64_max; lia|by right]|split; [right; split; [done|lia]|done]]].
      destruct (m !! Waiters K) as [ew|]; [|done]. destruct (decide (entry_live ex clock ew)) as [Hlw|]; [|done].
      destruct (decide (rw_queue st = ∅)) as [E|Hne]; [by rewrite E in Hz|]. exfalso; apply Hls.
      destruct (Hal Hne) as [_ E]. unfold entry_live in *; simpl in E. by rewrite <- E.
  - assert (rw_seq st = 0) as E0 by (by destruct Hs as [[? ?]|[_ ?]]).
    destruct (decide (rw_queue st = ∅)) as [E|Hne]; [|by destruct (Hal Hne) as [[? ?] _]].
    exists ∅, 0. split; [|split; [split; [unfold int64_max; lia|by right]|split; [right; split; [done|lia]|done]]].
    rewrite E in Hz. destruct (m !! Waiters K) as [ew|]; [|done]. by destruct (decide _).
Qed.

Lemma rw_tick K ex clock m st :
  rw_on K m st → ∃ st', rw_on K (live_keys ex clock m) st' ∧ aged st st'.
Proof.
  intros [Hrep Hal]. pose proof (rw_keys_ne _ (rep_keys _ _ _ Hrep)); inv_all.
  assert (∃ w, live_keys ex clock m !! Writer K = (λ w : string * option Z, Entry (VStr w.1) w.2) <$> w ∧
               (w = rw_writer st ∨ w = None)) as (w & Hw & Ew).
  { rewrite live_lookup, (rep_writer _ _ _ Hrep). destruct (rw_writer st) as [w|]; simpl; [|by exists None; auto].
    case_decide; [exists (Some w)|exists None]; auto. }
  assert (∃ h, hash_of (live_keys ex clock m) (WaiterTS K) = Some h) as [h Hh].
  { pose proof (rep_stamps _ _ _ Hrep) as Hh. unfold hash_of in *. rewrite live_lookup.
    destruct (m !! WaiterTS K) as [[v x]|]; [case_decide|]; eauto. }
  assert (live_keys ex clock m !! Fencing K = m !! Fencing K) as Hf.
  { rewrite live_lookup, (rep_fence _ _ _ Hrep). by destruct (rw_fence st); simpl; rewrite ?decide_True. }
  assert (zset_of (live_keys ex clock m) (Readers K) = Some (rw_readers st) ∧
          exp_of (live_keys ex clock m) (Readers K) = None) as [Hr Hx].
  { pose proof (rep_readers _ _ _ Hrep) as Hz; pose proof (rep_noexp _ _ _ Hrep) as Hx.
    unfold zset_of, exp_of in *. rewrite live_lookup. destruct (m !! Readers K) as [[v x]|]; [|done].
    simpl in Hx; subst x. simpl. by rewrite ?decide_True. }
  destruct (queue_tick K ex clock m st (conj Hrep Hal)) as (q & n & Hq & Hn & Eq & Ha).
  exists (RWState w (rw_readers st) q h n (rw_fence st)). split; [split|].
  - split; simpl; try done; [apply Hrep|by rewrite Hf; apply Hrep|by apply Hrep].
  - exact Ha.
  - split_and!; try done.
Qed.

Lemma inv_aged st st' : rw_inv st → aged st st' → rw_inv st'.
Proof.
  intros [I1 I2 I3 I4 I5] (Er & Ef & Ew & Eq). split.
  - rewrite Er. destruct Ew as [->| ->]; [done|by intros [? ?]].
  - destruct Eq as [[-> ->]|[-> ?]]; [done|]. intros x n; by rewrite lookup_empty.
  - destruct Eq as [[-> _]|[-> ?]]; [done|]. intros x y n; by rewrite lookup_empty.
  - rewrite Ef. destruct Ew as [->| ->]; [done|by intros [? ?]].
  - by destruct Eq as [[_ ->]|[_ [? _]]].
Qed.

(** ** The server *)

(** What the users of the lock [K] may ask of the server. *)
Definition rw_protocol (K : RWKeys) (r : request) : Prop :=
  (∀ k, k ∈ rw_keys K → k ∉ request_keys r) ∨ ∃ o, r = to_request K o.

(** The keys of [K] hold a lock in a good state. *)
Definition rw_lock (K : RWKeys) (P : rwstate → Prop) (m : keyspace) : Prop :=
  ∃ st, rw_on K m st ∧ rw_inv st ∧ P st.

Definition rw_good (K : RWKeys) (m : keyspace) : Prop := rw_lock K (λ _, True) m.

Lemma rw_on_frame K m m' st :
  (∀ k, k ∈ rw_keys K → m' !! k = m !! k) → rw_on K m st → rw_on K m' st.
Proof.
  unfold rw_keys. intros Hf [[H1 H2 H3 H4 H5 H6 H7 H8 H9] Hal].
  split; [split|]; unfold rw_aligned, zset_of, hash_of, exp_of, number_at in *;
    rewrite ?Hf by (repeat constructor); done.
Qed.

Lemma good_serve `{LN : !LuaNumbers} K t0 r m : rw_protocol K r → rw_good K m → rw_good K (serve_ref t0 r m).2.
Proof.
  intros [Hk|[o ->]] (st & Ho & Hi & _).
  - exists st; split; [|done]. eapply rw_on_frame; [|done]. intros k Hin. by apply serve_ref_frame, Hk.
  - destruct (apply_run K t0 m st o Ho) as (m' & -> & Ho'). eexists; split; [exact Ho'|].
    split; [by apply inv_apply|done].
Qed.

Lemma good_tick K ex clock m : rw_good K m → rw_good K (live_keys ex clock m).
Proof.
  intros (st & Ho & Hi & _). destruct (rw_tick K ex clock m st Ho) as (st' & Ho' & Ha).
  exists st'; split; [done|split; [by eapply inv_aged|done]].
Qed.

(** ** Histories

    A run of the machine: the requests that were made, with the server's clock
    and the replies, and time passing in between. *)
Inductive rw_trace : rwstate → list (Z * rw_op * reply) → rwstate → Prop :=
  | trace_nil st : rw_trace st [] st
  | trace_op st t0 o l st' :
      rw_trace (rw_apply t0 o st).2 l st' → rw_trace st ((t0, o, (rw_apply t0 o st).1) :: l) st'
  | trace_age st st1 l st' : aged st st1 → rw_trace st1 l st' → rw_trace st l st'.

(** C37: readers and a writer exclude each other, and arrival numbers are
    distinct and at most the counter, in every state that a run of the machine
    reaches from one in which they do, whatever the lock's users request and
    whatever expires on the way. *)
Theorem rw_inv_kept st l st' : rw_inv st → rw_trace st l st' → rw_inv st'.
Proof.
  intros Hi Ht; revert Hi; induction Ht as [st|st t0 o l st' _ IH|st st1 l st' Ha _ IH]; intros Hi; [done|..].
  - by apply IH, inv_apply.
  - by eapply IH, inv_aged.
Qed.

(** What happens at the server: a request, time, or a request on other keys. *)
Inductive rw_event := Ask (o : rw_op) | Pass (d : Z) | Elsewhere (r : request).

Definition elsewhere (K : RWKeys) (e : rw_event) : Prop :=
  match e with Elsewhere r => ∀ k, k ∈ rw_keys K → k ∉ request_keys r | _ => True end.

Section histories.
Context {S : Type} `{!RedisOps S, !RedisLaws S} (K : RWKeys).
Implicit Types (s : S).

(** The history of the lock at the server. *)
Fixpoint answers (l : list rw_event) (s : S) : list (Z * rw_op * reply) * S :=
  match l with
  | [] => ([], s)
  | Ask o :: l =>
      let '(r, s1) := serve (to_request K o) s in
      let '(log, s2) := answers l s1 in ((r_clock s, o, r) :: log, s2)
  | Pass d :: l => answers l (r_tick d s)
  | Elsewhere r :: l => answers l (serve r s).2
  end.

Lemma on_elsewhere r s st :
  (∀ k, k ∈ rw_keys K → k ∉ request_keys r) → rw_on K (r_view s) st → rw_on K (r_view (serve r s).2) st.
Proof.
  intros Hk. apply rw_on_frame. intros k Hin. rewrite serve_view. by apply serve_ref_frame, Hk.
Qed.

(** C10: the server refines the machine.  Whatever the users of the lock
    request, interleaved with any requests on other keys and any passing of
    time, the replies that the server gives, running the scripts command by
    command, are those of a run of the machine, which ends in the state that
    the lock's keys then represent. *)
Theorem rw_refines l s st :
  rw_on K (r_view s) st → Forall (elsewhere K) l →
  ∃ st', rw_trace st (answers l s).1 st' ∧ rw_on K (r_view (answers l s).2) st'.
Proof.
  revert s st; induction l as [|e l IH]; intros s st Ho Hl; [exists st; split; [constructor|done]|].
  apply Forall_cons in Hl as [He Hl]. destruct e as [o|d|r]; cbn [answers elsewhere] in *.
  - destruct (apply_run K (r_clock s) _ st o Ho) as (m' & Em & Ho').
    pose proof (serve_reply (to_request K o) s) as Hr. pose proof (serve_view (to_request K o) s) as Hv.
    rewrite Em in Hr, Hv. destruct (serve _ s) as [r s1]; cbn [fst snd] in Hr, Hv; subst r. rewrite <- Hv in Ho'.
    destruct (IH s1 _ Ho' Hl) as (st' & Ht & H). destruct (answers l s1) as [log s2]; cbn [fst snd] in *.
    exists st'; split; [by constructor|done].
  - destruct (rw_tick K r_expired (UnixMilli (r_time s + d)) _ st Ho) as (st1 & Ho1 & Ha).
    rewrite <- law_tick_view in Ho1. destruct (IH _ st1 Ho1 Hl) as (st' & Ht & H).
    exists st'; split; [by eapply trace_age|done].
  - apply IH; [by apply on_elsewhere|done].
Qed.
End histories.

(** ** Examples *)
Module Ex.

Definition K : RWKeys :=
  {| Writer := "{m}:writer"; Readers := "{m}:readers"; Fencing := "{m}:fencing";
     Waiters := "{m}:waiters"; WaiterTS := "{m}:waiter-ts"; Seq := "{m}:seq" |}.

Lemma K_distinct : NoDup (rw_keys K).
Proof. refine (bool_decide_unpack _ _). vm_compute; exact I. Qed.

(** [a] takes the write side of a free lock, and [b] queues up behind it. *)
Definition a_locks : rw_op := WLock "a" 10000 5 20000.
Definition b_locks : rw_op := WLock "b" 10000 6 20000.
Definition a_in : rwstate := (rw_apply 7 a_locks rw_init).2.

(** [a] renews after a second, [b] asks again, and [a] releases. *)
Definition a_and_b : list rw_event :=
  [Ask a_locks; Ask b_locks; Pass (1000 * Millisecond); Ask (WRenew "a" 10000); Ask b_locks; Ask (WRelease "a");
   Ask b_locks].

Lemma rw_refines_witness :
  ((answers K a_and_b (mem_empty 0)).1.*2 = [RInt 1; RNil; RInt 1; RNil; RInt 1; RInt 2]) ∧
  ∃ st', rw_trace rw_init (answers K a_and_b (mem_empty 0)).1 st' ∧
         rw_on K (r_view (answers K a_and_b (mem_empty 0)).2) st'.
Proof.
  split; [vm_compute; reflexivity|].
  apply (rw_refines K a_and_b (mem_empty 0) rw_init); [|by repeat constructor].
  change (r_view (mem_empty 0)) with (∅ : keyspace). apply rw_on_empty, K_distinct.
Defined.

(** When [a]'s lease has expired, [b] gets the lock. *)
Definition expired : rwstate := set_writer None (rw_apply 8 b_locks a_in).2.
Definition b_in : rwstate := (rw_apply 20000 b_locks expired).2.

Lemma rw_inv_kept_witness : is_writer b_in "b" = true ∧ rw_inv b_in.
Proof.
  split; [vm_compute; reflexivity|].
  apply (rw_inv_kept rw_init [(7, a_locks, RInt 1); (8, b_locks, RNil); (20000, b_locks, RInt 2)] b_in rw_inv_init).
  apply (trace_op rw_init 7 a_locks), (trace_op a_in 8 b_locks), (trace_age _ expired).
  - split; [reflexivity|split; [reflexivity|split; [right; reflexivity|left; split; reflexivity]]].
  - apply (trace_op expired 20000 b_locks), trace_nil.
Defined.
End Ex.
