(* ===== verification/GoRuntime.v ===== *)
(** * The Go program's world

    Go code is modelled as state passing over a [world]: the server, the
    client's clock, and a schedule of [turn]s that says what everybody else
    does around each effect of the program.  Theorems quantify over all
    schedules, so they hold for every interleaving with other clients, every
    delay, every lost request or reply, and every transport retry.

    - [Other r]: another client's request is served;
    - [Elapse dc ds]: the client's clock advances by [dc] nanoseconds while
      the server's advances by [ds].

    A call to go-redis ([redis]) may reach the server zero, one or several
    times (the client library retries transports) and ends with the reply of
    the last execution or with an error. *)
From S2P Require Import Prelude Redis Errors Requests.

Inductive env_step :=
  | Other (r : request)
  | Elapse (dc ds : Z).

(** The errors go-redis itself reports: the context's, or one of the
    network's. *)
Inductive net_error :=
  | NetCanceled
  | NetDeadline
  | NetFailure (msg : string).

Definition net_err (n : net_error) : error :=
  match n with
  | NetCanceled => ErrCanceled
  | NetDeadline => ErrDeadlineExceeded
  | NetFailure m => ErrRedis m
  end.

Record turn := Turn {
  t_before : list env_step;          (** until the effect takes place *)
  t_execs : list (list env_step);    (** each: some steps, then the request is served *)
  t_after : list env_step;           (** until the program goes on *)
  t_fail : option net_error;             (** what go-redis reports instead of the reply *)
  t_pick : bool;                     (** the scheduler's choice in a [select] *)
  t_rand : Z;                        (** [rand.Float64()] is [t_rand / 2^53] *)
}.

(** What the program reports to its metrics sink and tracer. *)
Inductive event :=
  | MAcquire (primitive resource : string) (ok : bool) (wait : Z)
  | MRelease (primitive resource : string)
  | MRenew (primitive resource : string) (ok : bool)
  | MRenewalStopped (primitive resource reason : string)
  | SpanStart (name : string)
  | SpanFinish (e : option error).

Record world (S : Type) := World {
  w_srv : S;
  w_now : Z;
  w_turns : list turn;
  w_tokens : list string;    (** what [crypto/rand] will produce, in hex *)
  w_log : list event;        (** latest first *)
}.
Arguments World {S} _ _ _ _ _.
Arguments w_srv {S} _.
Arguments w_now {S} _.
Arguments w_turns {S} _.
Arguments w_tokens {S} _.
Arguments w_log {S} _.

Definition go (S A : Type) : Type := world S → A * world S.

#[export] Instance go_ret S : MRet (go S) := λ A a w, (a, w).
#[export] Instance go_bind S : MBind (go S) := λ A B f p w, let '(a, w') := p w in f a w'.

(** With the schedule exhausted, every call fails and no time passes. *)
Definition idle_turn : turn := Turn [] [] [] None false 0.

Section runtime.
Context {S : Type} `{!RedisOps S}.

Definition env_apply (l : list env_step) (x : S * Z) : S * Z :=
  foldl (λ x e, match e with
                | Other r => ((serve r x.1).2, x.2)
                | Elapse dc ds => (r_tick ds x.1, x.2 + dc)
                end) x l.

Definition set_env (x : S * Z) (w : world S) : world S :=
  World x.1 x.2 (w_turns w) (w_tokens w) (w_log w).

Definition next_turn : go S turn := λ w,
  match w_turns w with
  | [] => (idle_turn, w)
  | t :: ts => (t, World (w_srv w) (w_now w) ts (w_tokens w) (w_log w))
  end.

Definition pass (l : list env_step) : go S unit := λ w,
  (tt, set_env (env_apply l (w_srv w, w_now w)) w).

Definition read_clock : go S Z := λ w, (w_now w, w).

(** [time.Now()], in nanoseconds after the epoch. *)
Definition time_now : go S Z :=
  t ← next_turn;
  _ ← pass (t_before t);
  read_clock.

(** Serves [req] once per element of the list, after that element's steps;
    the last reply, if any. *)
Fixpoint exec_all (req : request) (l : list (list env_step)) (last : option reply) (x : S * Z) :
    option reply * (S * Z) :=
  match l with
  | [] => (last, x)
  | steps :: l =>
      let x1 := env_apply steps x in
      let '(r, s2) := serve req x1.1 in
      exec_all req l (Some r) (s2, x1.2)
  end.

(** One call through go-redis. *)
Definition redis (req : request) : go S (error + reply) := λ w,
  let '(t, w) := next_turn w in
  let x0 := env_apply (t_before t) (w_srv w, w_now w) in
  let '(r, x1) := exec_all req (t_execs t) None x0 in
  let w := set_env (env_apply (t_after t) x1) w in
  (match t_fail t, r with
   | Some n, _ => inl (net_err n)
   | None, Some r => inr r
   | None, None => inl (net_err (NetFailure "connection failed"))
   end, w).

(** [crypto/rand] for [lease.Token]. *)
Definition rand_token : go S string := λ w,
  match w_tokens w with
  | [] => ("", w)
  | t :: ts => (t, World (w_srv w) (w_now w) (w_turns w) ts (w_log w))
  end.

(** [rand.Float64()], in units of [2^-53]. *)
Definition rand_float : go S Z :=
  t ← next_turn;
  mret (t_rand t mod 2 ^ 53).

Definition emit (e : event) : go S unit := λ w,
  (tt, World (w_srv w) (w_now w) (w_turns w) (w_tokens w) (e :: w_log w)).

(** ** Contexts *)

(** A context, by the client's clock at which it is done (never for a
    background context) and the error it then reports. *)
Record context := Ctx { ctx_done_at : option Z; ctx_cause : error }.

Definition Background : context := Ctx None ErrCanceled.

Definition ctx_err (ctx : context) (now : Z) : option error :=
  match ctx_done_at ctx with
  | Some t => if t <=? now then Some (ctx_cause ctx) else None
  | None => None
  end.

(** [ctx.Err()] *)
Definition ctx_Err (ctx : context) : go S (option error) := λ w, (ctx_err ctx (w_now w), w).

(** [select { case <-ctx.Done(): ...; case <-time.After(d): ... }]: the
    program sleeps at least until one of them is ready; when both are, the
    scheduler picks.  True for the first branch. *)
Definition select_ctx_timer (ctx : context) (d : Z) : go S bool := λ w,
  let '(t, w) := next_turn w in
  let fires := w_now w + d in
  let wake := match ctx_done_at ctx with Some t => Z.min t fires | None => fires end in
  let x := env_apply (t_before t) (w_srv w, w_now w) in
  let rest := Z.max 0 (wake - x.2) in
  let w := set_env (env_apply [Elapse rest rest] x) w in
  (match ctx_err ctx (w_now w) with
   | None => false
   | Some _ => if fires <=? w_now w then t_pick t else true
   end, w).

End runtime.

(** ** Reasoning under interference

    [R] bounds what the other clients ask of the server (the rely condition),
    and clocks may drift: while the client's clock advances by [dc], the
    server's advances by at most 1% more. *)
Section reasoning.
Context {S : Type} `{!RedisOps S}.
Context (R : request → Prop).

Definition drift_ok (dc ds : Z) : Prop := 0 ≤ dc ∧ 0 ≤ ds ∧ 99 * ds ≤ 100 * dc.

Definition step_ok (e : env_step) : Prop :=
  match e with Other r => R r | Elapse dc ds => drift_ok dc ds end.

Definition turn_ok (t : turn) : Prop :=
  Forall step_ok (t_before t) ∧ Forall (Forall step_ok) (t_execs t) ∧ Forall step_ok (t_after t).

Definition world_ok (w : world S) : Prop := Forall turn_ok (w_turns w).

(** Assertions on the server and the client's clock. *)
Abbreviation assertion := (S → Z → Prop).
Definition holds (I : assertion) (w : world S) : Prop := I (w_srv w) (w_now w).

(** What the others' steps cannot falsify. *)
Definition stable (I : assertion) : Prop :=
  (∀ s c r, R r → I s c → I (serve r s).2 c) ∧
  (∀ s c dc ds, drift_ok dc ds → I s c → I (r_tick ds s) (c + dc)).

(** [triple P p Q]: started where [P] holds, with any schedule within the
    rely condition, [p] ends where [Q] holds of its result. *)
Definition triple {A} (P : assertion) (p : go S A) (Q : A → assertion) : Prop :=
  ∀ w, world_ok w → holds P w → world_ok (p w).2 ∧ holds (Q (p w).1) (p w).2.

Lemma stable_and I J : stable I → stable J → stable (λ s c, I s c ∧ J s c).
Proof. intros [? ?] [? ?]; split; [intros s c r ? [? ?]|intros s c dc ds ? [? ?]]; eauto. Qed.
Lemma stable_or I J : stable I → stable J → stable (λ s c, I s c ∨ J s c).
Proof. intros [? ?] [? ?]; split; [intros s c r ? [?|?]|intros s c dc ds ? [?|?]]; eauto. Qed.
Lemma stable_pure (P : Prop) : stable (λ _ _, P).
Proof. done. Qed.
Lemma stable_since t : stable (λ _ c, t ≤ c).
Proof. split; [done|]. intros s c dc ds (? & ? & ?) ?; lia. Qed.
Lemma stable_exists {A} (I : A → assertion) : (∀ a, stable (I a)) → stable (λ s c, ∃ a, I a s c).
Proof. intros H; split; [intros s c r ? [a ?]|intros s c dc ds ? [a ?]]; exists a; by apply (H a). Qed.

Lemma env_apply_stable I l x :
  stable I → Forall step_ok l → I x.1 x.2 → I (env_apply l x).1 (env_apply l x).2.
Proof.
  intros [Hr Ht]; revert x; induction l as [|e l IH]; intros x Hl HI; [done|].
  apply Forall_cons in Hl as [He Hl]; cbn [env_apply foldl]; apply IH; [done|].
  destruct e; simpl in *; auto.
Qed.

Lemma exec_all_stable I J req l last x :
  stable I → (∀ r, stable (J r)) → Forall (Forall step_ok) l →
  (∀ s c, I s c ∨ (∃ r, J r s c) → J (serve req s).1 (serve req s).2 c) →
  match last with Some r => J r x.1 x.2 | None => I x.1 x.2 end →
  let y := exec_all req l last x in
  match y.1 with Some r => J r y.2.1 y.2.2 | None => I y.2.1 y.2.2 end.
Proof.
  intros HI HJ Hl Hex; revert last x; induction l as [|steps l IH]; intros last x Hx; [done|].
  apply Forall_cons in Hl as [Hs Hl]; cbn [exec_all].
  assert (I (env_apply steps x).1 (env_apply steps x).2 ∨
          ∃ r, J r (env_apply steps x).1 (env_apply steps x).2) as Hx1.
  { destruct last as [r|]; [right; exists r|left]; by apply env_apply_stable. }
  apply Hex in Hx1. destruct (serve req (env_apply steps x).1) as [r s2] eqn:E.
  by apply IH.
Qed.

Lemma triple_ret {A} (a : A) (Q : A → assertion) : triple (Q a) (mret a) Q.
Proof. by intros w ? ?. Qed.

Lemma triple_keep {A} (a : A) (I : assertion) : triple I (mret a) (λ _, I).
Proof. by intros w ? ?. Qed.

Lemma triple_bind {A B} P (p : go S A) (f : A → go S B) Q T :
  triple P p Q → (∀ a, triple (Q a) (f a) T) → triple P (p ≫= f) T.
Proof.
  intros Hp Hf w Hw HP; unfold mbind, go_bind.
  destruct (Hp w Hw HP) as [Hw' HQ]; destruct (p w) as [a w']; by apply Hf.
Qed.

Lemma triple_conseq {A} (P P' : assertion) (p : go S A) (Q Q' : A → assertion) :
  triple P' p Q' → (∀ s c, P s c → P' s c) → (∀ a s c, Q' a s c → Q a s c) → triple P p Q.
Proof.
  intros H HP HQ w Hw HPw; destruct (H w Hw) as [? HQ']; [by apply HP|].
  split; [done|]. by apply HQ.
Qed.

Lemma triple_pure {A} (φ : Prop) P (p : go S A) Q :
  (φ → triple P p Q) → triple (λ s c, φ ∧ P s c) p Q.
Proof. intros H w Hw [Hφ HP]; by apply H. Qed.

Lemma triple_assume {A} (φ : Prop) (P : assertion) (p : go S A) Q :
  (∀ s c, P s c → φ) → (φ → triple P p Q) → triple P p Q.
Proof. intros Hφ H w Hw HP; apply H; [by eapply Hφ|done|done]. Qed.

Lemma triple_pre {A} (P P' : assertion) (p : go S A) Q :
  triple P' p Q → (∀ s c, P s c → P' s c) → triple P p Q.
Proof. intros H HP; eapply triple_conseq; [exact H|done|done]. Qed.

Lemma triple_post {A} (P : assertion) (p : go S A) (Q Q' : A → assertion) :
  triple P p Q' → (∀ a s c, Q' a s c → Q a s c) → triple P p Q.
Proof. intros H HQ; eapply triple_conseq; [exact H|done|done]. Qed.

Lemma next_turn_ok w : world_ok w → turn_ok (next_turn w).1 ∧ world_ok (next_turn w).2.
Proof.
  unfold world_ok, next_turn; destruct (w_turns w) as [|t ts] eqn:E; simpl.
  - intros; rewrite E; split; [repeat split; constructor|done].
  - by intros [? ?]%Forall_cons.
Qed.

Lemma next_turn_env (w : world S) : w_srv (next_turn w).2 = w_srv w ∧ w_now (next_turn w).2 = w_now w.
Proof. unfold next_turn; by destruct (w_turns w). Qed.

Lemma triple_next_turn (I : assertion) : triple I next_turn (λ _, I).
Proof.
  intros w Hw HI; destruct (next_turn_ok w Hw) as [_ Hw']; split; [done|].
  unfold holds in *; destruct (next_turn_env w) as [-> ->]; done.
Qed.
Lemma triple_read_clock (I : assertion) : triple I read_clock (λ t s c, I s c ∧ t = c).
Proof. by intros w Hw HI. Qed.
Lemma triple_rand_float (I : assertion) : triple I rand_float (λ u s c, I s c ∧ 0 ≤ u < 2 ^ 53).
Proof.
  unfold rand_float. eapply triple_bind; [apply triple_next_turn|]. intros t; cbn beta.
  eapply triple_pre; [apply triple_ret|]. intros s c ?; split; [done|]. by apply Z.mod_pos_bound.
Qed.

Lemma triple_time_now (I : assertion) : stable I → triple I time_now (λ (t : Z) s c, I s c ∧ t = c).
Proof.
  intros HI w Hw HIw; unfold time_now, mbind, go_bind, pass, read_clock.
  pose proof (next_turn_ok w Hw) as [(Hb & _) Hw']; pose proof (next_turn_env w) as [Es En].
  destruct (next_turn w) as [t w1]; simpl in *.
  split; [done|]. split; [|done]. unfold holds in *; simpl.
  apply (env_apply_stable I); [done|done|]. simpl; by rewrite Es, En.
Qed.

Lemma triple_redis (I : assertion) (J : reply → assertion) req :
  stable I → (∀ r, stable (J r)) →
  (∀ s c, I s c ∨ (∃ r, J r s c) → J (serve req s).1 (serve req s).2 c) →
  triple I (redis req)
    (λ x s c, match x with
                | inr r => J r s c
                | inl e => (∃ n, e = net_err n) ∧ (I s c ∨ ∃ r, J r s c)
                end).
Proof.
  intros HI HJ Hex w Hw HIw; unfold redis.
  pose proof (next_turn_ok w Hw) as [(Hb & He & Ha) Hw']; pose proof (next_turn_env w) as [Es En].
  destruct (next_turn w) as [t w1]; simpl in *.
  pose proof (exec_all_stable I J req (t_execs t) None
    (env_apply (t_before t) (w_srv w1, w_now w1)) HI HJ He Hex) as H; simpl in H.
  destruct (exec_all req (t_execs t) None _) as [r x1]; simpl in *.
  assert (match r with Some r => J r x1.1 x1.2 | None => I x1.1 x1.2 end) as H1.
  { apply H, (env_apply_stable I); [done|done|]. unfold holds in HIw; simpl; by rewrite Es, En. }
  split; [done|]. unfold holds; cbn [fst snd w_srv w_now set_env].
  destruct (t_fail t), r as [r|];
    first [ split; [first [by eexists | by exists (NetFailure "connection failed")]|]; first [ left; by apply (env_apply_stable I)
                                   | right; exists r; by apply (env_apply_stable (J r)) ]
          | by apply (env_apply_stable (J r)) ].
Qed.

Lemma triple_redis_keep (I : assertion) req :
  (∀ s c, I s c → I (serve req s).2 c) → stable I → triple I (redis req) (λ _, I).
Proof.
  intros Hs HI; eapply triple_post; [apply (triple_redis I (λ _, I)); auto|].
  - intros s c H; apply Hs. destruct H as [?|[_ ?]]; done.
  - intros [e|r] s c; [intros [_ [?|[_ ?]]]|]; done.
Qed.

(** A request within the rely condition keeps what is stable: what a client
    guarantees to the others. *)
Lemma triple_redis_stable (I : assertion) req :
  R req → stable I → triple I (redis req) (λ _, I).
Proof. intros Hr HI; apply triple_redis_keep; [|done]. intros s c; by apply HI. Qed.

Lemma triple_now_keep (I : assertion) : stable I → triple I time_now (λ _, I).
Proof. intros HI; eapply triple_post; [by apply triple_time_now|]. by intros t s c [? _]. Qed.

Lemma triple_redis_any req : triple (λ _ _, True) (redis req) (λ _ _ _, True).
Proof.
  eapply triple_post; [by apply (triple_redis (λ _ _, True) (λ _ _ _, True))|]. by intros [].
Qed.

Lemma triple_select (I : assertion) ctx d : stable I → triple I (select_ctx_timer ctx d) (λ _, I).
Proof.
  intros HI w Hw HIw; unfold select_ctx_timer.
  pose proof (next_turn_ok w Hw) as [(Hb & _) Hw']; pose proof (next_turn_env w) as [Es En].
  destruct (next_turn w) as [t w1]; simpl in *.
  split; [done|]. unfold holds in *; simpl.
  apply HI; [unfold drift_ok; lia|].
  apply (env_apply_stable I); [done|done|]. simpl; by rewrite Es, En.
Qed.

Lemma triple_ctx_Err (I : assertion) ctx : triple I (ctx_Err ctx) (λ _, I).
Proof. by intros w ? ?. Qed.
Lemma triple_emit (I : assertion) e : triple I (emit e) (λ _, I).
Proof. by intros w ? ?. Qed.
Lemma triple_rand_token (I : assertion) : triple I rand_token (λ _, I).
Proof. intros w ? ?; unfold rand_token; by destruct (w_tokens w). Qed.

End reasoning.

(** ** Stronger rely conditions, and several at once *)
Section combine.
Context {S : Type} `{!RedisOps S}.
Implicit Types (R : request → Prop) (I J : S → Z → Prop).

Lemma world_ok_weaken R R' (w : world S) : (∀ r, R' r → R r) → world_ok R' w → world_ok R w.
Proof.
  intros HR. assert (∀ l, Forall (step_ok R') l → Forall (step_ok R) l) as Hs.
  { intros l H; eapply Forall_impl; [exact H|]. intros []; simpl; auto. }
  intros H; eapply Forall_impl; [exact H|]. intros t (? & ? & ?); split; [by apply Hs|split; [|by apply Hs]].
  eapply Forall_impl; [done|]. auto.
Qed.

Lemma stable_weaken R R' I : (∀ r, R' r → R r) → stable R I → stable R' I.
Proof. intros HR [? ?]; split; eauto. Qed.

Lemma world_ok_and R1 R2 (w : world S) :
  world_ok R1 w → world_ok R2 w → world_ok (λ r, R1 r ∧ R2 r) w.
Proof.
  assert (∀ l, Forall (step_ok R1) l → Forall (step_ok R2) l → Forall (step_ok (λ r, R1 r ∧ R2 r)) l) as Hs.
  { intros l H1 H2. eapply Forall_impl; [apply Forall_and; split; [exact H1|exact H2]|].
    by intros [] [? ?]; simpl in *. }
  intros H1 H2. eapply Forall_impl; [apply Forall_and; split; [exact H1|exact H2]|].
  intros t [(? & E1 & ?) (? & E2 & ?)]. split; [by apply Hs|split; [|by apply Hs]].
  eapply Forall_impl; [apply Forall_and; split; [exact E1|exact E2]|]. intros l [? ?]; by apply Hs.
Qed.

(** Two triples about one program, side by side. *)
Lemma triple_combine {A} R1 R2 I J (p : go S A) Q T :
  triple R1 I p Q → triple R2 J p T →
  triple (λ r, R1 r ∧ R2 r) (λ s c, I s c ∧ J s c) p (λ a s c, Q a s c ∧ T a s c).
Proof.
  intros H1 H2 w Hw [HI HJ].
  destruct (H1 w) as [? ?]; [eapply world_ok_weaken; [|exact Hw]; by intros r [? ?]|done|].
  destruct (H2 w) as [? ?]; [eapply world_ok_weaken; [|exact Hw]; by intros r [? ?]|done|].
  split; [by apply world_ok_and|by split].
Qed.
End combine.

#[export] Hint Resolve stable_and stable_or stable_pure stable_since stable_exists : distsync.

(** Proves that a straight-line program keeps an assertion that is stable and
    that its requests keep. *)
Ltac solve_keep tac :=
  repeat first
    [ apply triple_keep
    | apply triple_now_keep; solve [tac]
    | apply triple_redis_keep; solve [tac]
    | apply triple_emit
    | eapply triple_bind; [|let a := fresh "a" in intros a; cbn beta zeta]
    | case_match ].
