(* ===== verification/RWFair.v ===== *)
(** * Fairness of the read-write lock

    Who is granted, and in which order: the write side goes to the head of
    the queue only, the read side never overtakes a writer that is waiting,
    and whoever is granted next to nobody is not kept waiting. *)
From S2P Require Import Prelude Redis RedisMem ScriptsSingle ScriptsSem ScriptsRW Requests RWLock.
From S2P Require Import RWMachine GoRuntime.
Open Scope Z_scope.

(** ** Who is purged *)

Lemma elem_of_crashed limit stamps (l : list (Z * string)) s h :
  StronglySorted zle l → NoDup l.*2 → (s, h) ∈ l →
  h ∈ crashed limit stamps l.*2 ↔
  ∀ s' h', (s', h') ∈ l → zle (s', h') (s, h) → silent limit stamps h' = true.
Proof.
  induction l as [|[s0 h0] l IH]; intros Hs Hn Hin; [by apply not_elem_of_nil in Hin|].
  apply StronglySorted_inv in Hs as [Hs Hall]. cbn [fmap list_fmap snd] in *.
  apply NoDup_cons in Hn as [Hn0 Hn]. rewrite Forall_forall in Hall. cbn [crashed].
  assert (∀ s h, (s, h) ∈ l → zle (s0, h0) (s, h)) as Hle by (intros; by apply Hall).
  destruct (silent limit stamps h0) eqn:E0.
  - rewrite elem_of_cons. apply elem_of_cons in Hin as [[= -> ->]|Hin].
    + split; [|by left]. intros _ s' h' [[= -> ->]|Hin']%elem_of_cons Hz; [done|].
      assert (h0 = h') as <- by (pose proof (anti_symm zle _ _ (Hle _ _ Hin') Hz); congruence). done.
    + rewrite (IH Hs Hn Hin). assert (h ≠ h0) as Hne.
      { intros ->; apply Hn0. apply list_elem_of_fmap; by exists (s, h0). }
      split; [intros [?|H]; [done|]|right; intros; eapply H; [by right|done]].
      intros s' h' [[= -> ->]|?]%elem_of_cons ?; [done|]. by eapply H.
  - split; [by intros ?%not_elem_of_nil|]. intros H. exfalso.
    enough (silent limit stamps h0 = true) by congruence.
    eapply H; [by left|]. apply elem_of_cons in Hin as [[= -> ->]|Hin]; [by right|by apply Hle].
Qed.

Lemma arrivals_NoDup st : NoDup (arrivals st).
Proof.
  unfold arrivals, zsorted, zentries. rewrite merge_sort_Permutation, <- list_fmap_compose.
  apply NoDup_fst_map_to_list.
Qed.

(** Nobody at or before [h]'s place has been heard from since [limit]. *)
Definition deserted (limit : Z) (st : rwstate) (s : Z) : Prop :=
  ∀ s' h', rw_queue st !! h' = Some s' → s' ≤ s → silent limit (rw_stamps st) h' = true.

Lemma leaves_lookup l st x :
  rw_queue (foldl (λ st h, leave h st) st l) !! x = (if decide (x ∈ l) then None else rw_queue st !! x) ∧
  rw_stamps (foldl (λ st h, leave h st) st l) !! x = (if decide (x ∈ l) then None else rw_stamps st !! x).
Proof.
  revert st; induction l as [|h l IH]; intros st; simpl; [done|].
  destruct (IH (leave h st)) as [E1 E2]. split; [rewrite E1|rewrite E2]; simpl; clear;
    (destruct (decide (x = h)) as [->|Hne];
     [rewrite (decide_True _ _ (list_elem_of_here h l)), !lookup_delete_eq; by case_decide
     |rewrite lookup_delete_ne by done; apply decide_ext; rewrite elem_of_cons; naive_solver]).
Qed.

(** The purge removes exactly the contenders all of whose predecessors, and
    themselves, are silent. *)
Lemma purge_lookup limit st x s :
  rw_inv st → rw_queue st !! x = Some s →
  (deserted limit st s → rw_queue (purge limit st) !! x = None) ∧
  (¬ deserted limit st s → rw_queue (purge limit st) !! x = Some s).
Proof.
  intros Hi Hx. unfold purge. destruct (leaves_lookup (crashed limit (rw_stamps st) (arrivals st)) st x) as [-> _].
  assert (x ∈ crashed limit (rw_stamps st) (arrivals st) ↔ deserted limit st s) as Heq.
  { unfold arrivals. rewrite (elem_of_crashed limit (rw_stamps st) (zsorted (rw_queue st)) s x);
      [|apply zsorted_sorted|apply arrivals_NoDup|by apply elem_of_zsorted].
    unfold deserted; split; intros H s' h'.
    - intros Hh Hle. apply (H s' h'); [by apply elem_of_zsorted|].
      destruct (Z.eq_dec s' s) as [->|]; [right; split; [done|]|left; simpl; lia].
      by rewrite (inv_distinct _ Hi _ _ _ Hh Hx).
    - intros Hh%elem_of_zsorted Hz. apply (H s' h'); [done|]. destruct Hz as [?|[? _]]; simpl in *; lia. }
  split; intros H; [rewrite decide_True by (by apply Heq); done|rewrite decide_False by (by rewrite Heq); done].
Qed.

Lemma arrivals_head st x l :
  rw_inv st → arrivals st = x :: l → ∃ s, rw_queue st !! x = Some s ∧
  ∀ y s', rw_queue st !! y = Some s' → s ≤ s'.
Proof.
  unfold arrivals. destruct (zsorted (rw_queue st)) as [|[s h] l'] eqn:E; [done|]. intros Hi [= -> _].
  destruct (zsorted_head _ _ _ _ E) as [Hx Hmin]. exists s; split; [done|].
  intros y s' Hy. destruct (Hmin s' y Hy) as [->|[?|[? _]]]; simpl in *; [|lia..].
  assert (s' = s) by congruence. lia.
Qed.

(** ** Who comes next *)

(** The arrival number a contender has, or gets when it joins. *)
Definition place (st : rwstate) (x : string) : Z :=
  match rw_queue st !! x with Some n => n | None => rw_seq st + 1 end.

Lemma joined x now wt st :
  0 < wt → rw_seq st < int64_max ∨ is_Some (rw_queue st !! x) →
  (join x now wt st).1 = inr (place st x) ∧
  rw_queue (join x now wt st).2 = <[x := place st x]> (rw_queue st) ∧
  rw_stamps (join x now wt st).2 = <[x := itoa now]> (rw_stamps st).
Proof.
  intros Hwt Hseq; unfold join, expire, place. rewrite (proj2 (Z.leb_gt wt 0)) by lia.
  destruct (rw_queue st !! x) as [n|] eqn:E; simpl.
  - by rewrite (insert_id (rw_queue st)).
  - destruct Hseq as [?|[? ?]]; [|done]. by rewrite (proj2 (Z.leb_le (rw_seq st + 1) int64_max)) by lia.
Qed.

(** A contender that has just been heard from is not silent. *)
Lemma fresh_not_silent x now wt stamps : 0 < wt → silent (now - wt) (<[x := itoa now]> stamps) x = false.
Proof. intros; unfold silent; rewrite lookup_insert_eq; simpl. rewrite atoi_itoa. lia. Qed.

Section next.
Context (limit : Z) (st : rwstate) (Hi : rw_inv st) (x : string) (p : Z).
Context (Hx : rw_queue st !! x = Some p) (Hfresh : silent limit (rw_stamps st) x = false).

Lemma fresh_stays : rw_queue (purge limit st) !! x = Some p.
Proof.
  apply (purge_lookup limit st x p Hi Hx). intros H. rewrite (H p x Hx) in Hfresh; [done|lia].
Qed.

(** Who is purged was there. *)
Lemma purge_was h s : rw_queue (purge limit st) !! h = Some s → rw_queue st !! h = Some s ∧ ¬ deserted limit st s.
Proof.
  intros H. assert (rw_queue st !! h = Some s) as H0.
  { eapply lookup_weaken; [exact H|]. by destruct (purge_queue limit st). }
  split; [done|]. intros Hd. by rewrite (proj1 (purge_lookup limit st h s Hi H0) Hd) in H.
Qed.

(** The contender is at the head exactly when everybody before it is silent. *)
Lemma head_iff :
  match arrivals (purge limit st) with [] => True | h :: _ => h = x end ↔
  ∀ h s, rw_queue st !! h = Some s → s < p → silent limit (rw_stamps st) h = true.
Proof.
  pose proof fresh_stays as Hst. pose proof (inv_purge limit st Hi) as Hip.
  destruct (arrivals (purge limit st)) as [|y l] eqn:Ea.
  { unfold arrivals in Ea. apply fmap_nil_inv, zsorted_nil in Ea. by rewrite Ea, lookup_empty in Hst. }
  destruct (arrivals_head _ _ _ Hip Ea) as (q & Hq & Hmin). split.
  - intros -> h s Hh Hlt. assert (q = p) as -> by congruence.
    destruct (decide (silent limit (rw_stamps st) h = true)) as [|Hn]; [done|]. exfalso.
    assert (¬ deserted limit st s) as Hd by (intros Hd; apply Hn, (Hd s h Hh); lia).
    specialize (Hmin h s (proj2 (purge_lookup limit st h s Hi Hh) Hd)). lia.
  - intros H. destruct (purge_was y q Hq) as [Hy Hd]. specialize (Hmin x p Hst).
    destruct (Z.eq_dec q p) as [->|]; [by eapply (inv_distinct _ Hi)|]. exfalso.
    apply Hd. intros s' h' Hh' Hle. apply (H h' s' Hh'). lia.
Qed.

(** No writer is before the contender exactly when every writer there is
    silent, with everybody before it. *)
Lemma ahead_iff :
  existsb is_writer_member (zbelow (rw_queue (purge limit st)) p) = false ↔
  ∀ h s, rw_queue st !! h = Some s → s < p → is_writer_member h = true → deserted limit st s.
Proof.
  rewrite <- not_true_iff_false, existsb_exists. split.
  - intros H h s Hh Hlt Hw. destruct (decide (rw_queue (purge limit st) !! h = Some s)) as [E|E].
    + exfalso; apply H. exists h; split; [|done]. apply list_elem_of_In, elem_of_zbelow; eauto.
    + intros s' h' Hh' Hle. destruct (decide (silent limit (rw_stamps st) h' = true)) as [|Hn]; [done|].
      exfalso; apply E. apply (purge_lookup limit st h s Hi Hh). intros Hd. by apply Hn, (Hd s' h').
  - intros H (h & Hin & Hw). apply list_elem_of_In, elem_of_zbelow in Hin as (s & Hs & Hlt).
    destruct (purge_was h s Hs) as [Hh Hd]. by apply Hd, (H h s).
Qed.
End next.

Lemma zalive_empty now z : zalive now z = ∅ ↔ ∀ t s, z !! t = Some s → s ≤ now.
Proof.
  split.
  - intros E t s Ht. destruct (Z.le_gt_cases s now); [done|].
    assert (zalive now z !! t = Some s) as H' by (by apply lookup_zalive). by rewrite E in H'.
  - intros H. apply map_eq; intros t; rewrite lookup_empty. destruct (zalive now z !! t) as [s|] eqn:E; [|done].
    apply lookup_zalive in E as [E ?]. specialize (H t s E). lia.
Qed.

(** The queue as an attempt of [member] finds it: joined and purged. *)
Section attempt.
Context (st : rwstate) (member : string) (now wt : Z).
Context (Hi : rw_inv st) (Hwt : 0 < wt) (Hseq : rw_seq st < int64_max ∨ is_Some (rw_queue st !! member)).

Definition queued : rwstate := purge (now - wt) (join member now wt st).2.

Lemma queued_fields :
  rw_readers queued = rw_readers st ∧ rw_writer queued = rw_writer st ∧ rw_fence queued = rw_fence st.
Proof.
  unfold queued. destruct (purge_fields (now - wt) (join member now wt st).2) as (-> & -> & -> & _). apply join_fields.
Qed.

(** The others who are before the contender are those of [st]. *)
Lemma others_before h s :
  rw_queue (join member now wt st).2 !! h = Some s ∧ s < place st member ↔
  rw_queue st !! h = Some s ∧ s < place st member.
Proof.
  destruct (joined member now wt st Hwt Hseq) as (_ & -> & _).
  destruct (decide (h = member)) as [->|]; [|by rewrite lookup_insert_ne].
  rewrite lookup_insert_eq. split; intros [H ?]; [injection H; lia|]. unfold place in *; rewrite H in *; lia.
Qed.

Lemma others_silent h s :
  rw_queue st !! h = Some s → s < place st member →
  silent (now - wt) (rw_stamps (join member now wt st).2) h = silent (now - wt) (rw_stamps st) h.
Proof.
  intros Hh Hlt. destruct (joined member now wt st Hwt Hseq) as (_ & _ & ->). unfold silent.
  rewrite lookup_insert_ne; [done|]. intros <-. unfold place in Hlt. rewrite Hh in Hlt; lia.
Qed.

Lemma own_place :
  rw_queue (join member now wt st).2 !! member = Some (place st member) ∧
  silent (now - wt) (rw_stamps (join member now wt st).2) member = false.
Proof.
  destruct (joined member now wt st Hwt Hseq) as (_ & -> & ->).
  split; [by rewrite lookup_insert_eq|by apply fresh_not_silent].
Qed.

Lemma queued_head :
  match arrivals queued with [] => True | h :: _ => h = member end ↔
  ∀ h s, rw_queue st !! h = Some s → s < place st member → silent (now - wt) (rw_stamps st) h = true.
Proof.
  destruct own_place as [Hm Hf]. unfold queued.
  rewrite (head_iff (now - wt) _ (inv_join member now wt st Hi) member _ Hm Hf).
  split; intros H h s Hh Hlt; pose proof (others_before h s) as Ho.
  - rewrite <- (others_silent h s Hh Hlt). by apply (H h s); [apply Ho|].
  - rewrite (others_silent h s) by (done || by apply Ho). by apply (H h s); [apply Ho|].
Qed.

Lemma queued_ahead :
  existsb is_writer_member (zbelow (rw_queue queued) (place st member)) = false ↔
  ∀ h s, rw_queue st !! h = Some s → s < place st member → is_writer_member h = true → deserted (now - wt) st s.
Proof.
  unfold queued. rewrite (ahead_iff (now - wt) _ (inv_join member now wt st Hi)).
  split; intros H h s Hh Hlt Hw; pose proof (others_before h s) as Ho; intros s' h' Hh' Hle;
    pose proof (others_before h' s') as Ho'.
  - rewrite <- (others_silent h' s') by (done || lia). apply (H h s) with s'; [by apply Ho|done|done| |done].
    apply Ho'; split; [done|lia].
  - assert (rw_queue st !! h' = Some s') by (apply Ho'; split; [done|lia]).
    rewrite (others_silent h' s') by (done || lia). apply (H h s) with s'; [by apply Ho|done..].
Qed.
End attempt.

(** It is a contender's turn to write. *)
Definition writes_next (token : string) (now wt : Z) (st : rwstate) : Prop :=
  rw_writer st = None ∧ (∀ r s, rw_readers st !! r = Some s → s ≤ now) ∧
  (∀ h s, rw_queue st !! h = Some s → s < place st ("W:" +:+ token) →
          silent (now - wt) (rw_stamps st) h = true).

Lemma write_next t0 token ttl now wt st :
  rw_inv st → 0 < wt → 0 < ttl → in_int64 (t0 + ttl) = true → rw_seq st < int64_max ∨ is_Some (rw_queue st !! ("W:" +:+ token)) →
  default 0 (rw_fence st) < int64_max → is_writer st token = false →
  let x := write_step t0 token ttl now wt st in
  (writes_next token now wt st →
     x.1 = lua_int (default 0 (rw_fence st) + 1) ∧ rw_writer x.2 = Some (token, Some (t0 + ttl))) ∧
  (¬ writes_next token now wt st → x.1 = RNil ∧ rw_writer x.2 = rw_writer st).
Proof.
  intros Hi Hwt Httl Hin Hseq Hf Ho. cbv zeta. unfold write_step, writes_next; rewrite Ho.
  set (member := "W:" +:+ token). destruct (joined member now wt st Hwt Hseq) as (J1 & _ & _).
  pose proof (queued_head st member now wt Hi Hwt Hseq) as Hhead.
  destruct (queued_fields st member now wt) as (Qr & Qw & Qf). unfold queued in *.
  destruct (join member now wt st) as [r st0]; cbn [fst snd] in *; subst r. set (st1 := purge (now - wt) st0) in *.
  cbn [rw_readers set_readers rw_fence leave set_stamps set_queue set_writer].
  rewrite Qr, Qf, Hin, (proj2 (Z.leb_gt ttl 0)) by done. cbn [negb orb].
  rewrite (proj2 (Z.leb_le (default 0 (rw_fence st) + 1) int64_max)) by lia.
  rewrite <- zalive_empty, <- Hhead, <- Qw. clear Hhead.
  assert (match arrivals st1 with [] => false | h :: _ => negb (String.eqb h member) end = false ↔
          match arrivals st1 with [] => True | h :: _ => h = member end) as <-.
  { destruct (arrivals st1); [done|]. rewrite negb_false_iff. apply String.eqb_eq. }
  destruct (match arrivals st1 with [] => false | h :: _ => _ end); [by split; [intros (_ & _ & ?)|]|].
  destruct (rw_writer st1) as [w|] eqn:Ew; cbn; [split; [by intros [? _]|by intros _; rewrite Ew]|].
  destruct (Z.ltb_spec 0 (Z.of_nat (size (zalive now (rw_readers st))))) as [Hz|Hz].
  - split; [intros (_ & Hz' & _); rewrite Hz', map_size_empty in Hz; lia|]. intros _; cbn. by rewrite Ew.
  - split; [done|]. intros Hn; exfalso; apply Hn. split; [done|split; [|done]]. apply map_size_empty_inv; lia.
Qed.

(** C39: the read side never overtakes a waiting writer.  An attempt of a
    reader whose grant is not live is granted if and only if there is no writer
    and every writer that arrived before it is, with everybody before that
    writer, silent for longer than the timeout.  Other readers do not matter:
    neither the active ones nor those in the queue. *)
Theorem read_granted_iff token ttl now wt st :
  rw_inv st → 0 < wt → rw_seq st < int64_max →
  (∀ s, rw_readers st !! token = Some s → s ≤ now) →
  let x := read_step token ttl now wt st in
  let next := rw_writer st = None ∧
    (∀ h s, rw_queue st !! h = Some s → s < place st ("R:" +:+ token) → is_writer_member h = true →
            deserted (now - wt) st s) in
  (next → x.1 = RInt 1 ∧ rw_readers x.2 = <[token := now + ttl]> (rw_readers st)) ∧
  (¬ next → x.1 = RNil ∧ rw_readers x.2 = rw_readers st).
Proof.
  intros Hi Hwt Hseq Hr. cbv zeta. unfold read_step.
  assert (match rw_readers st !! token with Some s => now <? s | None => false end = false) as ->.
  { destruct (rw_readers st !! token) as [s|] eqn:E; [|done]. specialize (Hr s eq_refl). lia. }
  set (member := "R:" +:+ token). destruct (joined member now wt st Hwt (or_introl Hseq)) as (J1 & _ & _).
  pose proof (queued_ahead st member now wt Hi Hwt (or_introl Hseq)) as Hahead.
  destruct (queued_fields st member now wt) as (Qr & Qw & Qf). unfold queued in *.
  destruct (join member now wt st) as [r st0]; cbn [fst snd] in *; subst r. set (st1 := purge (now - wt) st0) in *.
  rewrite Qr, <- Hahead, <- Qw. clear Hahead.
  destruct (rw_writer st1) as [w|] eqn:Ew; cbn; [by split; [intros [? _]|]|].
  destruct (existsb is_writer_member _); cbn; [by split; [intros [_ ?]|]|]. split; [done|].
  intros Hn; exfalso; by apply Hn.
Qed.

(** ** The order of arrival *)

Lemma join_queue x now wt st y n :
  rw_queue (join x now wt st).2 !! y = Some n →
  rw_queue st !! y = Some n ∨ y = x ∧ rw_queue st !! y = None ∧ n = rw_seq st + 1.
Proof.
  unfold join, expire. destruct (rw_queue st !! x) as [k|] eqn:E.
  { destruct (wt <=? 0); cbn; [by rewrite lookup_empty|by left]. }
  destruct (rw_seq st + 1 <=? int64_max); cbn; [|by left].
  destruct (wt <=? 0); cbn; [by rewrite lookup_empty|].
  rewrite lookup_insert_Some; intros [[<- <-]|[_ ?]]; auto.
Qed.

Lemma attempt_queue x now wt st y n :
  rw_queue (purge (now - wt) (join x now wt st).2) !! y = Some n →
  rw_queue st !! y = Some n ∨ y = x ∧ rw_queue st !! y = None ∧ n = rw_seq st + 1.
Proof.
  intros H. eapply join_queue. eapply lookup_weaken; [exact H|]. by destruct (purge_queue (now - wt) (join x now wt st).2).
Qed.

(** A number in the queue is the contender's for good: no request changes it,
    and whoever joins gets a larger one than all before. *)
Lemma arrival_sticky t0 o st y n :
  rw_queue (rw_apply t0 o st).2 !! y = Some n →
  rw_queue st !! y = Some n ∨ rw_queue st !! y = None ∧ n = rw_seq st + 1.
Proof.
  assert (∀ x now wt, rw_queue (purge (now - wt) (join x now wt st).2) !! y = Some n →
    rw_queue st !! y = Some n ∨ rw_queue st !! y = None ∧ n = rw_seq st + 1) as Ha.
  { intros x now wt H. destruct (attempt_queue _ _ _ _ _ _ H) as [?|(_ & ? & ?)]; auto. }
  assert (∀ x now wt, rw_queue (join x now wt st).2 !! y = Some n →
    rw_queue st !! y = Some n ∨ rw_queue st !! y = None ∧ n = rw_seq st + 1) as Hj.
  { intros x now wt H. destruct (join_queue _ _ _ _ _ _ H) as [?|(_ & ? & ?)]; auto. }
  destruct o as [t ttl now wt|t ttl now wt|t ttl|t|now ttl ts|ts|x|x| |t]; cbn [rw_apply]; try (by left).
  - pose proof (write_step_cases t0 t ttl now wt st) as Hc. cbv zeta in Hc.
    destruct Hc as [[_ ->]|[_ [[_ [->|[->| ->]]]|(_ & _ & _ & _ & st2 & -> & Hx)]]]; [by left|apply Hj|apply Ha|apply Ha|].
    destruct Hx as [[-> _]|[-> _]]; cbn; intros [_ H]%lookup_delete_Some; by eapply Ha.
  - pose proof (read_step_cases t ttl now wt st) as Hc. cbv zeta in Hc.
    destruct Hc as [[_ ->]|[_ [[_ [->| ->]]|(_ & _ & ->)]]]; [by left|apply Hj|apply Ha|].
    cbn; intros [_ H]%lookup_delete_Some; by eapply Ha.
  - destruct (is_writer st t); by left.
  - destruct (is_writer st t); by left.
  - destruct (all_live _ _ _); by left.
  - destruct (zrem_all ts (rw_readers st)); by left.
  - cbn. rewrite lookup_delete_Some. intros [_ ?]; by left.
Qed.

Lemma is_writer_W a : is_writer_member ("W:" +:+ a) = true.
Proof. by destruct a. Qed.

(** The contender [x] is not in the queue, or behind the waiting writer [a]. *)
Definition behind (a x : string) (st : rwstate) : Prop :=
  ∃ n, rw_queue st !! ("W:" +:+ a) = Some n ∧ ∀ k, rw_queue st !! x = Some k → n < k.

Lemma behind_order t0 o a x st :
  rw_inv st → behind a x st → is_Some (rw_queue (rw_apply t0 o st).2 !! ("W:" +:+ a)) →
  ∃ n, rw_queue st !! ("W:" +:+ a) = Some n ∧ rw_queue (rw_apply t0 o st).2 !! ("W:" +:+ a) = Some n ∧
     ∀ k, rw_queue (rw_apply t0 o st).2 !! x = Some k → n < k.
Proof.
  intros Hi (n & Hn & Hb) [n' Hn']. exists n; split; [done|].
  destruct (arrival_sticky _ _ _ _ _ Hn') as [E|[E _]]; [|congruence]. split; [congruence|].
  intros k Hk. destruct (arrival_sticky _ _ _ _ _ Hk) as [?|[_ ->]]; [by eapply Hb|].
  pose proof (inv_arrived _ Hi _ _ Hn). lia.
Qed.

(** The write side goes to nobody behind, *)
Lemma behind_write t0 a b ttl now wt st :
  rw_inv st → behind a ("W:" +:+ b) st →
  is_Some (rw_queue (write_step t0 b ttl now wt st).2 !! ("W:" +:+ a)) →
  rw_writer (write_step t0 b ttl now wt st).2 = rw_writer st.
Proof.
  intros Hi Hl Hq. destruct (behind_order t0 (WLock b ttl now wt) a _ st Hi Hl Hq) as (n & Hn & Hn' & _).
  pose proof Hl as (n0 & Hn0 & Hb). assert (n0 = n) as -> by congruence. cbn [rw_apply] in Hn'.
  pose proof (write_step_cases t0 b ttl now wt st) as Hc. cbv zeta in Hc.
  pose proof (inv_purge (now - wt) _ (inv_join ("W:" +:+ b) now wt st Hi)) as Hi1.
  destruct (queued_fields st ("W:" +:+ b) now wt) as (_ & Qw & _). unfold queued in Qw.
  destruct (join_fields ("W:" +:+ b) now wt st) as (_ & Jw & _).
  destruct Hc as [[_ ->]|[_ [[_ [->|[->| ->]]]|(_ & _ & _ & (p & _ & Hhead) & st2 & -> & Hx)]]];
    [done|exact Jw|exact Qw|exact Qw|]. exfalso.
  set (st1 := purge (now - wt) (join ("W:" +:+ b) now wt st).2) in *.
  assert (rw_queue st1 !! ("W:" +:+ a) = Some n) as H1.
  { destruct Hx as [[Ex _]|[Ex _]]; rewrite Ex in Hn'; cbn in Hn'; by apply lookup_delete_Some in Hn' as [_ ?]. }
  destruct (arrivals st1) as [|h l] eqn:Ea.
  { unfold arrivals in Ea. apply fmap_nil_inv, zsorted_nil in Ea. by rewrite Ea, lookup_empty in H1. }
  subst h. destruct (arrivals_head _ _ _ Hi1 Ea) as (q & Hq1 & Hmin). specialize (Hmin _ _ H1).
  assert (n < q); [|lia]. destruct (attempt_queue _ _ _ _ _ _ Hq1) as [E|(_ & _ & ->)].
  - by eapply Hb. - pose proof (inv_arrived _ Hi _ _ Hn). lia.
Qed.

(** nor does the read side. *)
Lemma behind_read a b ttl now wt st :
  rw_inv st → behind a ("R:" +:+ b) st → is_Some (rw_queue (read_step b ttl now wt st).2 !! ("W:" +:+ a)) →
  rw_readers (read_step b ttl now wt st).2 = rw_readers st.
Proof.
  intros Hi Hl Hq. destruct (behind_order 0 (RLock b ttl now wt) a _ st Hi Hl Hq) as (n & Hn & Hn' & _).
  pose proof Hl as (n0 & Hn0 & Hb). assert (n0 = n) as -> by congruence. cbn [rw_apply] in Hn'.
  pose proof (read_step_cases b ttl now wt st) as Hc. cbv zeta in Hc.
  destruct (queued_fields st ("R:" +:+ b) now wt) as (Qr & _ & _). unfold queued in Qr.
  destruct (join_fields ("R:" +:+ b) now wt st) as (Jr & _ & _).
  destruct Hc as [[_ ->]|[_ [[_ [->| ->]]|(_ & (p & Hp & Hex) & Ex)]]]; [done|exact Jr|exact Qr|]. exfalso.
  rewrite Ex in Hn'; cbn in Hn'. apply lookup_delete_Some in Hn' as [_ H1].
  rewrite <- not_true_iff_false, existsb_exists in Hex. apply Hex. exists ("W:" +:+ a); split; [|apply is_writer_W].
  apply list_elem_of_In, elem_of_zbelow. exists n; split; [done|].
  unfold join in Hp. destruct (rw_queue st !! ("R:" +:+ b)) as [k|] eqn:E; cbn in Hp.
  - injection Hp as <-. by eapply Hb.
  - destruct (rw_seq st + 1 <=? int64_max); cbn in Hp; [|done]. injection Hp as <-. pose proof (inv_arrived _ Hi _ _ Hn). lia.
Qed.

(** [b] came after the waiting writer [a], and holds nothing. *)
Definition later (a b : string) (st : rwstate) : Prop :=
  behind a ("W:" +:+ b) st ∧ behind a ("R:" +:+ b) st ∧ is_writer st b = false ∧ rw_readers st !! b = None.

(** Who else is affected by an attempt of [t]: nobody gains anything. *)
Lemma write_step_fields t0 t ttl now wt st :
  rw_readers (write_step t0 t ttl now wt st).2 ⊆ rw_readers st ∧
  (rw_writer (write_step t0 t ttl now wt st).2 = rw_writer st ∨
   ∃ x, rw_writer (write_step t0 t ttl now wt st).2 = Some (t, x)).
Proof.
  destruct (queued_fields st ("W:" +:+ t) now wt) as (Qr & Qw & _). unfold queued in Qr, Qw.
  destruct (join_fields ("W:" +:+ t) now wt st) as (Jr & Jw & _).
  pose proof (write_step_cases t0 t ttl now wt st) as Hc. cbv zeta in Hc.
  destruct Hc as [[_ ->]|[_ [[_ [->|[->| ->]]]|(_ & Hz & _ & _ & st2 & -> & Hx)]]];
    cbn; rewrite ?Qr, ?Qw, ?Jr, ?Jw; [by auto|by auto|by auto| |].
  - split; [apply map_filter_subseteq|by left].
  - destruct Hx as [[-> _]|[-> _]]; cbn; (split; [apply map_empty_subseteq|eauto]).
Qed.

Lemma read_step_fields t ttl now wt st :
  rw_writer (read_step t ttl now wt st).2 = rw_writer st ∧
  (∀ b, b ≠ t → rw_readers (read_step t ttl now wt st).2 !! b = rw_readers st !! b).
Proof.
  destruct (queued_fields st ("R:" +:+ t) now wt) as (Qr & Qw & _). unfold queued in Qr, Qw.
  destruct (join_fields ("R:" +:+ t) now wt st) as (Jr & Jw & _).
  pose proof (read_step_cases t ttl now wt st) as Hc. cbv zeta in Hc.
  destruct Hc as [[_ ->]|[_ [[_ [->| ->]]|(_ & _ & ->)]]]; cbn; rewrite ?Qr, ?Qw, ?Jr, ?Jw; try done.
  split; [done|]. intros b Hb. by rewrite lookup_insert_ne.
Qed.

Lemma readers_shrink (z z' : gmap string Z) b : z' ⊆ z → z !! b = None → z' !! b = None.
Proof. intros H Hb. destruct (z' !! b) eqn:E; [|done]. by rewrite (lookup_weaken _ _ _ _ E H) in Hb. Qed.

(** Nobody but the contender becomes a holder. *)
Lemma later_others t0 o b st :
  (∀ ttl now wt, o ≠ WLock b ttl now wt ∧ o ≠ RLock b ttl now wt) →
  is_writer st b = false → rw_readers st !! b = None →
  is_writer (rw_apply t0 o st).2 b = false ∧ rw_readers (rw_apply t0 o st).2 !! b = None.
Proof.
  intros Hne Hw Hr. destruct o as [t ttl now wt|t ttl now wt|t ttl|t|now ttl ts|ts|x|x| |t]; cbn [rw_apply]; try done.
  - assert (t ≠ b) as Htb by (intros ->; by destruct (Hne ttl now wt)).
    destruct (write_step_fields t0 t ttl now wt st) as [Er Ew].
    split; [|by eapply readers_shrink]. unfold is_writer in *.
    destruct Ew as [->|[x ->]]; [done|by apply String.eqb_neq].
  - assert (t ≠ b) as Htb by (intros ->; by destruct (Hne ttl now wt)).
    destruct (read_step_fields t ttl now wt st) as [Ew Er]. unfold is_writer in *.
    by rewrite Ew, Er.
  - destruct (is_writer st t) eqn:E; [|done]. split; [|done]. unfold is_writer; cbn.
    destruct (ttl <=? 0); [done|]. apply String.eqb_neq; intros ->; congruence.
  - by destruct (is_writer st t).
  - destruct (all_live (rw_readers st) now ts) eqn:E; [|done]. split; [done|]; cbn.
    rewrite lookup_zadd_all, decide_False; [done|]. intros Hin.
    unfold all_live in E. rewrite forallb_forall in E. specialize (E b (proj1 (list_elem_of_In _ _) Hin)).
    by rewrite Hr in E.
  - pose proof (zrem_all_lookup ts (rw_readers st) b) as E. destruct (zrem_all ts (rw_readers st)) as [n z].
    split; [done|]; cbn in *. rewrite E. by case_decide.
Qed.

Lemma later_kept t0 o a b st :
  rw_inv st → later a b st → is_Some (rw_queue (rw_apply t0 o st).2 !! ("W:" +:+ a)) →
  later a b (rw_apply t0 o st).2.
Proof.
  intros Hi (Bw & Br & Hw & Hr) Hq.
  destruct (behind_order t0 o a _ st Hi Bw Hq) as (n & _ & Hn & Hw'), (behind_order t0 o a _ st Hi Br Hq) as (n' & _ & Hn' & Hr').
  split; [by exists n|split; [by exists n'|]].
  destruct o as [t ttl now wt|t ttl now wt| | | | | | | |]; try (by apply later_others);
    (destruct (decide (t = b)) as [->|Hne]; [|apply later_others; try done; intros; split; congruence]).
  - unfold is_writer in *; cbn [rw_apply]. rewrite (behind_write t0 a b ttl now wt st) by done.
    split; [done|]. eapply readers_shrink; [apply write_step_fields|done].
  - unfold is_writer in *; cbn [rw_apply]. rewrite (behind_read a b ttl now wt st) by done.
    by destruct (read_step_fields b ttl now wt st) as [-> _].
Qed.

(** ** On the server *)
Section server.
Context {S : Type} `{!RedisOps S, !RedisLaws S}.
Implicit Types (s : S).

Definition env_step_srv (e : env_step) (s : S) : S :=
  match e with Other r => (serve r s).2 | Elapse _ ds => r_tick ds s end.

(** The states of a history, the first included. *)
Fixpoint history (l : list env_step) (s : S) : list S :=
  s :: match l with [] => [] | e :: l => history l (env_step_srv e s) end.

Definition on_protocol (K : RWKeys) (e : env_step) : Prop :=
  match e with Other r => rw_protocol K r | Elapse _ _ => True end.

(** The contender [x] is in the queue. *)
Definition waits (K : RWKeys) (x : string) (s : S) : Prop :=
  ∃ z, zset_of (r_view s) (Waiters K) = Some z ∧ is_Some (z !! x).

(** The token is the writer's or in the set of readers. *)
Definition holds_lock (K : RWKeys) (b : string) (s : S) : Prop :=
  (∃ x, owned (r_view s) (Writer K) b x) ∨
  ∃ z, zset_of (r_view s) (Readers K) = Some z ∧ is_Some (z !! b).

Lemma holds_lock_iff K b s st :
  rw_on K (r_view s) st → holds_lock K b s ↔ is_writer st b = true ∨ is_Some (rw_readers st !! b).
Proof.
  intros [Hrep _]. unfold holds_lock, owned, is_writer.
  rewrite (rep_writer _ _ _ Hrep), (rep_readers _ _ _ Hrep). split.
  - intros [[x Hx]|(z & [= <-] & Hs)]; [left|by right].
    destruct (rw_writer st) as [[t y]|]; simplify_eq/=. apply String.eqb_refl.
  - intros [Hw|Hs]; [left|by right; eauto]. destruct (rw_writer st) as [[t y]|]; [|done].
    apply String.eqb_eq in Hw as ->. by exists y.
Qed.

Lemma holds_lock_rep K b s st :
  rw_on K (r_view s) st → is_writer st b = false → rw_readers st !! b = None → ¬ holds_lock K b s.
Proof. intros Ho Hw Hr. rewrite (holds_lock_iff K b s st Ho), Hw, Hr. by intros [?|[? ?]]. Qed.

Lemma later_step K a b e s :
  on_protocol K e → rw_lock K (later a b) (r_view s) →
  waits K ("W:" +:+ a) (env_step_srv e s) → rw_lock K (later a b) (r_view (env_step_srv e s)).
Proof.
  intros He (st & Ho & Hi & Hl) (z & Hz & Hq). destruct e as [r|dc ds]; cbn [env_step_srv on_protocol] in *.
  - rewrite serve_view in *. destruct He as [Hk|[o ->]].
    + exists st; split; [|done]. eapply rw_on_frame; [|done]. intros k Hin. by apply serve_ref_frame, Hk.
    + destruct (apply_run K (r_clock s) _ st o Ho) as (m' & Em & Ho'). rewrite Em in *; cbn [snd] in *.
      rewrite (rep_queue _ _ _ (proj1 Ho')) in Hz. simplify_eq.
      eexists; split; [exact Ho'|split; [by apply inv_apply|by apply later_kept]].
  - rewrite law_tick_view in *.
    destruct (rw_tick K r_expired (UnixMilli (r_time s + ds)) _ st Ho) as (st' & Ho' & Ha).
    exists st'; split; [done|split; [by eapply inv_aged|]].
    rewrite (rep_queue _ _ _ (proj1 Ho')) in Hz. simplify_eq.
    destruct Ha as (Er & _ & Ew & Eq). destruct Hl as (Bw & Br & Hw & Hr). unfold later, behind, is_writer in *. rewrite Er.
    destruct Eq as [[-> _]|[E _]]; [|rewrite E, lookup_empty in Hq; by destruct Hq].
    split; [done|split; [done|split; [|done]]]. by destruct Ew as [->| ->].
Qed.

(** C38: the write side is granted exactly to the head of the queue.  On the
    server, an attempt of a contender that does not hold the lock is granted if
    and only if there is no writer, the stamp of every reader has passed, and
    everybody who arrived before it (or, when it has just come, everybody
    there) has been silent for longer than the timeout.  Then it gets the next
    fencing token and a lease of [ttl]; otherwise the reply is nil and the
    writer stays. *)
Theorem write_granted_iff K token ttl now wt s st :
  rw_on K (r_view s) st → rw_inv st → 0 < wt → 0 < ttl → in_int64 (r_clock s + ttl) = true →
  rw_seq st < int64_max → default 0 (rw_fence st) < int64_max → is_writer st token = false →
  let x := serve (RWWriteLock K token ttl now wt) s in
  (writes_next token now wt st →
     x.1 = lua_int (default 0 (rw_fence st) + 1) ∧ owned (r_view x.2) (Writer K) token (Some (r_clock s + ttl))) ∧
  (¬ writes_next token now wt st → x.1 = RNil ∧ r_view x.2 !! Writer K = r_view s !! Writer K).
Proof.
  intros Ho Hi Hwt Httl Hin Hseq Hf Hw; cbv zeta. rewrite serve_reply, serve_view.
  destruct (apply_run K (r_clock s) _ st (WLock token ttl now wt) Ho) as (m' & Em & Ho').
  cbn [to_request rw_apply] in Em, Ho'. rewrite Em; cbn [fst snd].
  destruct (write_next (r_clock s) token ttl now wt st Hi Hwt Httl Hin (or_introl Hseq) Hf Hw) as [Hy Hn].
  unfold owned. rewrite (rep_writer _ _ _ (proj1 Ho)), (rep_writer _ _ _ (proj1 Ho')).
  split; [intros (-> & ->)%Hy|intros (-> & ->)%Hn]; done.
Qed.

(** C9: first come, first served.  While a writer [a] waits in the queue,
    nobody who comes after it gets the lock.  Whatever requests the users of
    the lock make and however much time passes, as long as [a] is in the queue
    at every moment, a token [b] that holds nothing at the start, and is not in
    the queue or has a larger arrival number than [a], holds nothing
    throughout, neither as a writer nor as a reader. *)
Theorem no_overtaking K a b l s :
  rw_lock K (later a b) (r_view s) → Forall (on_protocol K) l →
  Forall (waits K ("W:" +:+ a)) (history l s) →
  Forall (λ s', ¬ holds_lock K b s') (history l s).
Proof.
  revert s; induction l as [|e l IH]; intros s Hs Hl Hw; cbn [history] in *;
    pose proof Hs as (st & Ho & _ & _ & _ & Hwr & Hr);
    (apply Forall_cons; split; [by eapply holds_lock_rep|]); [constructor|].
  apply Forall_cons in Hl as [He Hl]. apply Forall_cons in Hw as [_ Hw].
  apply IH; [|done..]. apply later_step; [done..|]. destruct l; by apply Forall_cons in Hw as [? _].
Qed.
End server.

(** ** Examples *)
Module Ex.
Import RWMachine.Ex.

(** Requests in immediate succession, each with the server's clock. *)
Definition rw_run (l : list (Z * rw_op)) (st : rwstate) : rwstate :=
  foldl (λ st x, (rw_apply x.1 x.2 st).2) st l.

Lemma run_good l st : rw_inv st → rw_inv (rw_run l st).
Proof. revert st; induction l as [|[t0 o] l IH]; intros st Hi; [done|]. by apply IH, inv_apply. Qed.

Lemma a_in_good : rw_inv a_in.
Proof. apply inv_write, rw_inv_init. Qed.

Definition srv_a : mem := (serve (to_request K a_locks) (mem_empty 0)).2.

Lemma srv_a_on : rw_on K (r_view srv_a) (rw_apply 0 a_locks rw_init).2.
Proof.
  unfold srv_a. rewrite serve_view. destruct (apply_run K 0 ∅ rw_init a_locks (rw_on_empty K K_distinct)) as (m' & E & H).
  change (r_clock (mem_empty 0)) with 0. change (r_view (mem_empty 0)) with (∅ : keyspace). by rewrite E.
Qed.

Lemma write_granted_iff_witness :
  (serve (to_request K a_locks) (mem_empty 0)).1 = lua_int 1 ∧ (serve (to_request K b_locks) srv_a).1 = RNil.
Proof.
  split.
  - assert (rw_on K (r_view (mem_empty 0)) rw_init) as Ho.
    { change (r_view (mem_empty 0)) with (∅ : keyspace). apply rw_on_empty, K_distinct. }
    destruct (write_granted_iff K "a" 10000 5 20000 (mem_empty 0) rw_init Ho rw_inv_init ltac:(lia) ltac:(lia)
      ltac:(vm_compute; reflexivity) ltac:(vm_compute; reflexivity) ltac:(vm_compute; reflexivity)
      ltac:(vm_compute; reflexivity)) as [Hy _].
    destruct Hy as [E _]; [|exact E]. split_and!; [reflexivity|intros ? ? [=]|intros ? ? [=]].
  - destruct (write_granted_iff K "b" 10000 6 20000 srv_a _ srv_a_on (inv_apply 0 a_locks _ rw_inv_init)
      ltac:(lia) ltac:(lia) ltac:(vm_compute; reflexivity) ltac:(vm_compute; reflexivity) ltac:(vm_compute; reflexivity)
      ltac:(vm_compute; reflexivity)) as [_ Hn].
    destruct Hn as [E _]; [|exact E]. intros (E & _). vm_compute in E. discriminate E.
Defined.

(** A reader comes while [a] writes; then [b] queues up, [a] leaves, and a
    second reader comes. *)
Definition b_waits : rwstate := rw_run [(8, b_locks); (9, WRelease "a")] a_in.

Lemma b_waits_good : rw_inv b_waits.
Proof. exact (run_good _ _ a_in_good). Qed.

Lemma read_granted_iff_witness :
  (read_step "c" 10000 5 20000 rw_init).1 = RInt 1 ∧ (read_step "c" 10000 9 20000 b_waits).1 = RNil.
Proof.
  assert (∀ (P Q R T : Prop), (P → Q ∧ R) ∧ T → P → Q) as Hyes by tauto.
  assert (∀ (P Q R T : Prop), T ∧ (¬ P → Q ∧ R) → ¬ P → Q) as Hno by tauto.
  split.
  - eapply Hyes; [refine (read_granted_iff "c" 10000 5 20000 rw_init rw_inv_init ltac:(lia) ltac:(vm_compute; reflexivity) _)|].
    + intros ? [=]. + split; [reflexivity|intros ? ? [=]].
  - eapply Hno; [refine (read_granted_iff "c" 10000 9 20000 b_waits b_waits_good ltac:(lia) ltac:(vm_compute; reflexivity) _)|].
    + intros s E. vm_compute in E. discriminate E.
    + intros [_ Hd]. specialize (Hd "W:b" 2 ltac:(vm_compute; reflexivity) ltac:(vm_compute; reflexivity)
        ltac:(vm_compute; reflexivity) 2 "W:b" ltac:(vm_compute; reflexivity) ltac:(lia)).
      vm_compute in Hd. discriminate Hd.
Defined.

(** While [b] waits for the reader [c], the reader [d] comes, again and again. *)
Definition srv0 : mem :=
  (serve (to_request K b_locks) (serve (to_request K (RLock "c" 10000 5 20000)) (mem_empty 0)).2).2.
Definition d_insists : list env_step :=
  [Other (to_request K (RLock "d" 10000 7 20000)); Elapse 1000000 1000000; Other (to_request K b_locks);
   Other (to_request K (RLock "d" 10000 8 20000)); Other (to_request K (RRelease ["c"]))].

Definition waits_b (K : RWKeys) (x : string) (s : mem) : bool :=
  match zset_of (r_view s) (Waiters K) with Some z => bool_decide (is_Some (z !! x)) | None => false end.

Lemma waits_all K x l : forallb (waits_b K x) l = true → Forall (waits K x) l.
Proof.
  rewrite forallb_forall, Forall_forall. intros H s Hs. specialize (H s (proj1 (list_elem_of_In _ _) Hs)).
  unfold waits_b in H; unfold waits. destruct (zset_of _ _) as [z|]; [|done]. to_prop; eauto.
Qed.

Lemma no_overtaking_witness : Forall (λ s', ¬ holds_lock K "d" s') (history d_insists srv0).
Proof.
  assert (rw_lock K (later "b" "d") (r_view srv0)) as Hs.
  { destruct (apply_run K 0 ∅ rw_init (RLock "c" 10000 5 20000) (rw_on_empty K K_distinct)) as (m1 & E1 & H1).
    destruct (apply_run K 0 m1 _ b_locks H1) as (m2 & E2 & H2).
    exists (rw_run [(0, RLock "c" 10000 5 20000); (0, b_locks)] rw_init). split; [|split].
    - unfold srv0. rewrite serve_view, serve_view. change (r_view (mem_empty 0)) with (∅ : keyspace).
      unfold r_clock. rewrite !serve_time. change (UnixMilli (r_time (mem_empty 0))) with 0.
      rewrite E1; cbn [snd]. rewrite E2. exact H2.
    - exact (run_good _ _ rw_inv_init).
    - split; [|split; [|split; vm_compute; reflexivity]];
        (exists 2; split; [vm_compute; reflexivity|]); intros k; vm_compute; discriminate. }
  apply (no_overtaking K "b" "d" d_insists srv0 Hs).
  - do 5 (apply Forall_cons; split; [first [exact I|right; eexists; reflexivity]|]). by apply Forall_nil.
  - apply waits_all. vm_compute; reflexivity.
Defined.
End Ex.
