(* ===== verification/RWLine.v ===== *)
(** * The line for the read-write lock

    What a waiting writer keeps while others come and go: its place in the
    arrival queue.  First the life of the queue's keys, which every attempt
    renews, command by command; then the machine: whoever comes later gets in
    line behind the writer, and its attempts neither purge it nor get the
    lock. *)
From S2P Require Import Prelude Redis RedisMem ScriptsSingle ScriptsSem ScriptsRW Requests RWLock.
From S2P Require Import RWMachine GoRuntime RWFair.
Open Scope Z_scope.

(** ** The life of a key *)

(** The key [k], when it is there, does not expire before [E]. *)
Definition lasts (k : string) (E : Z) (m : keyspace) : Prop :=
  match exp_of m k with Some x => E ≤ x | None => True end.

(** A command that does not shorten it. *)
Definition keeps_life (t0 : Z) (k : string) (E : Z) (c : command) : Prop :=
  match c with SET k' _ _ ms | PEXPIRE k' ms => k' = k → E ≤ t0 + ms | _ => True end.

Lemma lasts_lookup k E m m' : m' !! k = m !! k → lasts k E m → lasts k E m'.
Proof. unfold lasts, exp_of; by intros ->. Qed.

Lemma lasts_delete k E m : lasts k E (delete k m).
Proof. unfold lasts, exp_of; by rewrite lookup_delete_eq. Qed.

Lemma lasts_insert k E m v x :
  match x with Some x => E ≤ x | None => True end → lasts k E (<[k := Entry v x]> m).
Proof. unfold lasts, exp_of; by rewrite lookup_insert_eq. Qed.

Lemma on_zset_lasts k E m f : lasts k E m → lasts k E (on_zset k m f).2.
Proof.
  intros Hm; unfold on_zset. pose proof Hm as H; unfold lasts, exp_of in H.
  destruct (m !! k) as [[[v|z0|h] x]|]; simpl in H; try done;
    destruct (f _) as [r z]; simpl; case_decide; auto using lasts_delete, lasts_insert.
Qed.

Lemma on_hash_lasts k E m f : lasts k E m → lasts k E (on_hash k m f).2.
Proof.
  intros Hm; unfold on_hash. pose proof Hm as H; unfold lasts, exp_of in H.
  destruct (m !! k) as [[[v|z0|h0] x]|]; simpl in H; try done;
    destruct (f _) as [r h]; simpl; case_decide; auto using lasts_delete, lasts_insert.
Qed.

Lemma exec_lasts t0 k E c m : keeps_life t0 k E c → lasts k E m → lasts k E (ref_exec t0 c m).2.
Proof.
  intros Hc Hm. destruct (decide (k = cmd_key c)) as [->|Hne];
    [|by eapply lasts_lookup; [apply ref_exec_frame|]].
  pose proof Hm as H; unfold lasts, exp_of in H.
  destruct c; cbn [ref_exec cmd_key keeps_life] in *; try (by apply on_zset_lasts); try (by apply on_hash_lasts);
    unfold ref_get, ref_set, ref_del, ref_exists, ref_incrby, ref_pexpire;
    destruct (m !! k) as [[v' x]|]; repeat case_match; simpl in *; auto using lasts_delete, lasts_insert;
    subst; by apply lasts_insert.
Qed.

(** Every command of the script is one that satisfies [P]. *)
Fixpoint script_all {A} (P : command → Prop) (p : script A) : Prop :=
  match p with
  | SRet _ | SRaise _ => True
  | SCall c k => P c ∧ ∀ r, script_all P (k r)
  end.

Lemma script_all_bind {A B} P (f : A → script B) (p : script A) :
  script_all P p → (∀ a, script_all P (f a)) → script_all P (p ≫= f).
Proof. induction p as [| |c k IH]; simpl; [auto|auto|]. intros [? ?] ?; split; auto. Qed.

Lemma run_lasts {A} t0 k E (p : script A) m :
  script_all (keeps_life t0 k E) p → lasts k E m → lasts k E (run_ref t0 p m).2.
Proof.
  revert m; induction p as [a|e|c f IH]; intros m; simpl; [done|done|]. intros [Hc Hf] Hm.
  pose proof (exec_lasts t0 k E c m Hc Hm) as H. destruct (ref_exec t0 c m) as [r m']; cbn [snd] in H.
  destruct r; try (apply IH; [apply Hf|exact H]); exact H.
Qed.

(** The script makes the key last: when it ends with a result other than
    those of [skip], it has set its time to live to [E] or later. *)
Fixpoint script_renews {A} (skip : A → Prop) (t0 : Z) (k : string) (E : Z) (p : script A) : Prop :=
  match p with
  | SRet a => skip a
  | SRaise _ => True
  | SCall c f =>
      (∃ ms, c = PEXPIRE k ms ∧ E ≤ t0 + ms) ∧ (∀ r, script_all (keeps_life t0 k E) (f r)) ∨
      ∀ r, script_renews skip t0 k E (f r)
  end.

Definition never {A} (a : A) : Prop := False.

Lemma renews_bind {A B} skip t0 k E (f : A → script B) (p : script A) :
  (∀ a, script_renews skip t0 k E (f a)) → script_renews skip t0 k E (p ≫= f).
Proof. induction p as [| |c g IH]; simpl; [auto|auto|]. intros H; right; auto. Qed.

Lemma renews_then {A B} skip t0 k E (f : A → script B) (p : script A) :
  script_renews never t0 k E p → (∀ a, script_all (keeps_life t0 k E) (f a)) → script_renews skip t0 k E (p ≫= f).
Proof.
  intros Hp Hf; induction p as [a|e|c g IH]; simpl in *; [done|done|].
  destruct Hp as [[Hc Hg]|Hg]; [left; split; [done|]|right; auto]. intros r. by apply script_all_bind.
Qed.

Lemma renews_pexpire {B} skip t0 k E ms (f : Z → script B) :
  E ≤ t0 + ms → (∀ a, script_all (keeps_life t0 k E) (f a)) → script_renews skip t0 k E (call_int (PEXPIRE k ms) ≫= f).
Proof. intros ? H; left; split; [eauto|]. intros r; apply H. Qed.

Lemma run_renews {A} skip t0 k E (p : script A) m a m' :
  script_renews skip t0 k E p → run_ref t0 p m = (inr a, m') → ¬ skip a → lasts k E m'.
Proof.
  intros Hp Hr Hsk; revert m Hp Hr; induction p as [b|e|c f IH]; intros m; simpl; [by intros ? [= -> _]|done|].
  intros [[(ms & -> & HE) Hf]|Hf] Hr.
  - assert (lasts k E (ref_exec t0 (PEXPIRE k ms) m).2) as H.
    { cbn [ref_exec]; unfold ref_pexpire. destruct (m !! k) as [[v x]|] eqn:Ek; [destruct (ms <=? 0)|]; simpl;
        [apply lasts_delete|by apply lasts_insert|]. unfold lasts, exp_of; by rewrite Ek. }
    destruct (ref_exec t0 (PEXPIRE k ms) m) as [r m1]; cbn [snd] in H.
    assert (run_ref t0 (f r) m1 = (inr a, m')) as Hr' by (by destruct r).
    pose proof (run_lasts t0 k E (f r) m1 (Hf r) H) as H'. by rewrite Hr' in H'.
  - destruct (ref_exec t0 c m) as [r m1]. assert (run_ref t0 (f r) m1 = (inr a, m')) as Hr' by (by destruct r).
    by eapply IH.
Qed.

(** ** The keys of the queue *)

Ltac solve_all :=
  repeat first
    [ progress intros
    | apply script_all_bind
    | case_bool_decide
    | case_match
    | match goal with |- script_all _ (mret _) => exact I end
    | match goal with |- script_all _ (SRaise _) => exact I end
    | match goal with |- script_all _ (call_get _) => split; [exact I|by intros] end
    | match goal with |- script_all _ (call_set _ _ _ _) => split; [|by intros] end
    | match goal with |- script_all _ (call_int _) => split; [try exact I|by intros] end
    | match goal with |- script_all _ (call_strs _) => split; [exact I|by intros] end
    | match goal with |- script_all _ (call_bulk _) => split; [exact I|by intros] end ].

Section queue.
Context (K : RWKeys) (t0 : Z) (HK : NoDup (rw_keys K)).

(** The queue and the times of its contenders. *)
Definition queue_lasts (E : Z) (m : keyspace) : Prop := lasts (Waiters K) E m ∧ lasts (WaiterTS K) E m.

Lemma join_all k E member now wt :
  E ≤ t0 + wt → script_all (keeps_life t0 k E) (rw_join (Waiters K) (WaiterTS K) (Seq K) member now wt).
Proof. intros HE; unfold rw_join; solve_all; by intros ?. Qed.

Lemma purge_all k E fuel now wt :
  script_all (keeps_life t0 k E) (rw_purge fuel (Waiters K) (WaiterTS K) now wt).
Proof. induction fuel as [|n IH]; [done|]; cbn [rw_purge]; solve_all; done. Qed.

(** What the write script does once its contender is in the queue. *)
Lemma write_all k E fuel token ttl now wt :
  k ≠ Writer K → E ≤ t0 + wt → script_all (keeps_life t0 k E) (rw_write_lock fuel K token ttl now wt).
Proof.
  intros Hk HE; unfold rw_write_lock; solve_all; try (by apply join_all || apply purge_all);
    cbn; intros <-; done.
Qed.

Lemma read_all k E fuel token ttl now wt :
  E ≤ t0 + wt → script_all (keeps_life t0 k E) (rw_read_lock fuel K token ttl now wt).
Proof.
  intros HE; unfold rw_read_lock; solve_all; try (by apply join_all || apply purge_all);
    cbn; intros <-; done.
Qed.

(** A request of the lock's users keeps the queue's life, when its own
    timeout is no shorter. *)
Lemma apply_lasts `{LN : !LuaNumbers} k E o m :
  k = Waiters K ∨ k = WaiterTS K →
  match o with WLock _ _ _ wt | RLock _ _ _ wt => E ≤ t0 + wt | _ => True end →
  lasts k E m → lasts k E (serve_ref t0 (to_request K o) m).2.
Proof.
  intros Hk Ho Hm. pose proof (rw_keys_ne K HK). inv_all.
  assert (k ≠ Writer K ∧ k ≠ Readers K) as [Hw Hr] by (destruct Hk as [-> | ->]; by split; apply not_eq_sym).
  assert (k ∉ request_keys (to_request K o) → lasts k E (serve_ref t0 (to_request K o) m).2) as Hframe.
  { intros Hf. eapply lasts_lookup; [|exact Hm]. by apply serve_ref_frame. }
  destruct o as [t ttl now wt|t ttl now wt|t ttl|t|now ttl ts|ts|x|x| |t]; cbn [to_request request_keys] in *;
    try (apply Hframe; by rewrite list_elem_of_singleton); clear Hframe; unfold serve_ref; cbn [request_script request_fuel].
  - pose proof (run_lasts t0 k E _ m (write_all k E (rw_fuel m K) t ttl now wt Hw Ho) Hm). by destruct (run_ref _ _ _).
  - pose proof (run_lasts t0 k E _ m (read_all k E (rw_fuel m K) t ttl now wt Ho) Hm). by destruct (run_ref _ _ _).
  - pose proof (run_lasts t0 k E (SCall (ZREM (Waiters K) x) SRet) m ltac:(by split) Hm). by destruct (run_ref _ _ _).
  - pose proof (run_lasts t0 k E (SCall (HDEL (WaiterTS K) x) SRet) m ltac:(by split) Hm). by destruct (run_ref _ _ _).
Qed.

Lemma join_renews k member now wt :
  k = Waiters K ∨ k = WaiterTS K →
  script_renews never t0 k (t0 + wt) (rw_join (Waiters K) (WaiterTS K) (Seq K) member now wt).
Proof.
  pose proof (rw_keys_ne K HK). inv_all. intros Hk; unfold rw_join. apply renews_bind; intros s. apply renews_bind; intros n.
  destruct Hk as [-> | ->]; [|apply renews_bind; intros _];
    (apply renews_pexpire; [lia|]; intros _; solve_all; cbn; intros; congruence || lia).
Qed.

Lemma call_get_bind {A} k (f : option string → script A) m :
  run_ref t0 (call_get k ≫= f) m = run_ref t0 (SCall (GET k) (λ r, f match r with RBulk v => Some v | _ => None end)) m.
Proof. done. Qed.

(** An attempt to write that ends without an error renews it. *)
Lemma write_renews `{LN : !LuaNumbers} k m st token ttl now wt :
  k = Waiters K ∨ k = WaiterTS K → rw_on K m st → is_writer st token = false →
  (serve_ref t0 (RWWriteLock K token ttl now wt) m).1 = RNil →
  lasts k (t0 + wt) (serve_ref t0 (RWWriteLock K token ttl now wt) m).2.
Proof.
  intros Hk Ho Hw. pose proof (rw_keys_ne K HK); inv_all.
  assert (k ≠ Writer K) as Hne by (destruct Hk as [-> | ->]; by apply not_eq_sym).
  unfold serve_ref; cbn [request_script]. set (fuel := request_fuel _ _). unfold rw_write_lock.
  set (member := "W:" +:+ token). rewrite call_get_bind, (get_writer K t0 _ m st Ho).
  rewrite bool_decide_eq_false_2.
  2:{ unfold is_writer in Hw. destruct (rw_writer st) as [[v x]|]; [|done]. apply String.eqb_neq in Hw. simpl. congruence. }
  match goal with |- context [run_ref t0 ?p m] => assert (script_renews never t0 k (t0 + wt) p) as Hp end.
  { apply renews_then; [by apply join_renews|]. intros _. solve_all; try apply purge_all.
    all: cbn; intros <-; done. }
  destruct (run_ref t0 _ m) as [[e|r] m'] eqn:Er; [done|]. intros _. eapply run_renews; [exact Hp|exact Er|by intros []].
Qed.

(** So does an attempt to read that is refused. *)
Lemma read_renews k m token ttl now wt :
  k = Waiters K ∨ k = WaiterTS K →
  (serve_ref t0 (RWReadLock K token ttl now wt) m).1 = RNil →
  lasts k (t0 + wt) (serve_ref t0 (RWReadLock K token ttl now wt) m).2.
Proof.
  intros Hk. pose proof (rw_keys_ne K HK); inv_all.
  assert (k ≠ Readers K) as Hne by (destruct Hk as [-> | ->]; by apply not_eq_sym).
  unfold serve_ref; cbn [request_script]. set (fuel := request_fuel _ _).
  assert (script_renews (λ r, r ≠ RNil) t0 k (t0 + wt) (rw_read_lock fuel K token ttl now wt)) as Hp.
  { unfold rw_read_lock. apply renews_bind; intros own. destruct (match tonumber own with Some _ => _ | None => _ end); [done|].
    apply renews_then; [by apply join_renews|]. intros seq. solve_all; try apply purge_all. all: cbn; intros <-; done. }
  destruct (run_ref t0 _ m) as [[e|r] m'] eqn:Er; [done|]. intros E. simpl in E. subst r.
  eapply run_renews; [exact Hp|exact Er|]. intros Hs; by apply Hs.
Qed.
End queue.

(** Time passes: as long as the queue's keys live, it stays as it is. *)
Lemma line_tick K ex clock m st E :
  (∀ x, clock < x → ex x clock = false) → clock < E → queue_lasts K E m → rw_on K m st →
  ∃ st', rw_on K (live_keys ex clock m) st' ∧ aged st st' ∧
    rw_queue st' = rw_queue st ∧ rw_stamps st' = rw_stamps st ∧ queue_lasts K E (live_keys ex clock m) ∧
    ∀ t x, rw_writer st' = Some (t, Some x) → ex x clock = false.
Proof.
  intros Hex Hlt [Hq Ht] Ho. destruct (rw_tick K ex clock m st Ho) as (st' & Ho' & Ha).
  assert (∀ k, lasts k E m → live_keys ex clock m !! k = m !! k) as Hk.
  { intros k Hk; rewrite live_lookup. unfold lasts, exp_of in Hk. destruct (m !! k) as [[v x]|]; [|done]; simpl in Hk.
    rewrite decide_True; [done|]. unfold entry_live; simpl. destruct x; [apply Hex; lia|done]. }
  exists st'. split; [done|split; [done|]]. split; [|split; [|split]].
  - pose proof (rep_queue _ _ _ (proj1 Ho)) as E1; pose proof (rep_queue _ _ _ (proj1 Ho')) as E2.
    unfold zset_of in *. rewrite Hk in E2 by done. congruence.
  - pose proof (rep_stamps _ _ _ (proj1 Ho)) as E1; pose proof (rep_stamps _ _ _ (proj1 Ho')) as E2.
    unfold hash_of in *. rewrite Hk in E2 by done. congruence.
  - split; (eapply lasts_lookup; [by apply Hk|done]).
  - intros t x Hw. pose proof (rep_writer _ _ _ (proj1 Ho')) as Ew. rewrite Hw, live_lookup in Ew; simpl in Ew.
    destruct (m !! Writer K) as [e|]; [|done]. case_decide as Hl; [|done]. injection Ew as ->. exact Hl.
Qed.

(** ** The place in the line *)
Section line.
Context (id : string) (Old : gset string) (X Y V : Z).

Definition me : string := "W:" +:+ id.
Context (Hme : me ∉ Old).

(** A contender that was there before, last heard from at [V]. *)
Definition old_entry (h : string) (st : rwstate) : Prop :=
  h ∈ Old ∧ ∃ t, rw_stamps st !! h = Some (itoa t) ∧ t ≤ V.

(** Before the writer has come, the line is the old contenders'. *)
Definition only_old (st : rwstate) : Prop :=
  rw_seq st < int64_max ∧ ∀ h n, rw_queue st !! h = Some n → old_entry h st.

(** Then it is in the queue, was heard from at [L] or later, and has nobody
    before it but old contenders. *)
Definition in_line (L : Z) (st : rwstate) : Prop :=
  ∃ p t, rw_queue st !! me = Some p ∧ rw_stamps st !! me = Some (itoa t) ∧ L ≤ t ∧
    ∀ h n, rw_queue st !! h = Some n → n < p → old_entry h st.

(** The holders are others, and their leases run out: the writer's by [X], the
    readers' by [Y].  [f] fencing tokens have been minted. *)
Definition holders (t0 f : Z) (st : rwstate) : Prop :=
  (∀ t x, rw_writer st = Some (t, x) → t ≠ id ∧ ∃ x', x = Some x' ∧ t0 ≤ x' ≤ X) ∧
  (∀ r s, rw_readers st !! r = Some s → s ≤ Y) ∧ default 0 (rw_fence st) = f.

Lemma in_line_le L L' st : L' ≤ L → in_line L st → in_line L' st.
Proof. intros ? (p & t & ? & ? & ? & ?). exists p, t; split_and!; [done..|lia|done]. Qed.

(** Only the queue and its stamps matter. *)
Lemma in_line_same L st st' :
  rw_queue st' = rw_queue st → rw_stamps st' = rw_stamps st → in_line L st → in_line L st'.
Proof. unfold in_line, old_entry. by intros -> ->. Qed.

Lemma only_old_same st st' :
  rw_queue st' = rw_queue st → rw_stamps st' = rw_stamps st → rw_seq st' = rw_seq st → only_old st → only_old st'.
Proof. unfold only_old, old_entry. by intros -> -> ->. Qed.

(** Others leave. *)
Lemma in_line_drop L st q s :
  q ⊆ rw_queue st → q !! me = rw_queue st !! me → s !! me = rw_stamps st !! me →
  (∀ h, is_Some (q !! h) → s !! h = rw_stamps st !! h) → in_line L st → in_line L (set_stamps s (set_queue q st)).
Proof.
  intros Hq Hm Hs Hst (p & t & Hp & Ht & HL & Ho). exists p, t; cbn. split_and!; [by rewrite Hm|by rewrite Hs|done|].
  intros h n Hh Hlt. destruct (Ho h n (lookup_weaken _ _ _ _ Hh Hq) Hlt) as (? & t' & ? & ?).
  split; [done|]. exists t'; split; [|done]. cbn. by rewrite Hst by eauto.
Qed.

Lemma in_line_leave L x st : x ≠ me → in_line L st → in_line L (leave x st).
Proof.
  intros Hx. apply in_line_drop; [apply delete_subseteq|by rewrite lookup_delete_ne..|].
  intros h [n Hn]. apply lookup_delete_Some in Hn as [? _]. by rewrite lookup_delete_ne.
Qed.

Lemma only_old_drop st q s :
  q ⊆ rw_queue st → (∀ h, is_Some (q !! h) → s !! h = rw_stamps st !! h) →
  only_old st → only_old (set_stamps s (set_queue q st)).
Proof.
  intros Hq Hst [Hs Ho]. split; [done|]. intros h n Hh; cbn in Hh.
  destruct (Ho h n (lookup_weaken _ _ _ _ Hh Hq)) as (? & t & ? & ?).
  split; [done|]. exists t; split; [|done]. cbn. by rewrite Hst by eauto.
Qed.

(** The purge of an attempt whose clock is not ahead leaves the writer. *)
Lemma in_line_purge L limit st : rw_inv st → limit ≤ L → in_line L st → in_line L (purge limit st).
Proof.
  intros Hi Hle Hl. pose proof Hl as (p & t & Hp & Ht & HL & _).
  assert (silent limit (rw_stamps st) me = false) as Hf.
  { unfold silent. rewrite Ht; simpl. rewrite atoi_itoa. lia. }
  pose proof (fresh_stays limit st Hi me p Hp Hf) as Hs. unfold purge in *.
  set (l := crashed limit (rw_stamps st) (arrivals st)) in *. set (st' := foldl _ st l) in *.
  pose proof (leaves_lookup l st) as Hlk. fold st' in Hlk.
  assert (me ∉ l) as Hml. { intros Hin. destruct (Hlk me) as [E _]. rewrite decide_True in E by done. congruence. }
  apply (in_line_same L (set_stamps (rw_stamps st') (set_queue (rw_queue st') st))); [done..|].
  apply in_line_drop; [..|exact Hl].
  - apply map_subseteq_spec; intros h n. destruct (Hlk h) as [-> _]. by case_decide.
  - destruct (Hlk me) as [-> _]. by rewrite decide_False.
  - destruct (Hlk me) as [_ ->]. by rewrite decide_False.
  - intros h [n Hn]. destruct (Hlk h) as [E ->]. rewrite E in Hn. by case_decide.
Qed.

(** Another contender joins, or comes again: it is behind. *)
Lemma in_line_join L x now wt st :
  rw_inv st → x ≠ me → x ∉ Old → 0 < wt → in_line L st → in_line L (join x now wt st).2.
Proof.
  intros Hi Hx Hold Hwt (p & t & Hp & Ht & HL & Ho). pose proof (inv_arrived _ Hi _ _ Hp) as Hpn.
  unfold join, expire. rewrite (proj2 (Z.leb_gt wt 0)) by lia.
  assert (∀ h st', h ∈ Old → rw_stamps st' = <[x := itoa now]> (rw_stamps st) → old_entry h st → old_entry h st') as Hold'.
  { intros h st' Hin E [? (t' & ? & ?)]. split; [done|]. exists t'. rewrite E, lookup_insert_ne by congruence. done. }
  destruct (rw_queue st !! x) as [n|] eqn:E; [|destruct (rw_seq st + 1 <=? int64_max)]; cbn; [..|by exists p, t];
    exists p, t; cbn; rewrite ?lookup_insert_ne by done; split_and!; try done; intros h k Hh Hlt.
  - apply Hold'; [by apply (Ho h k)|done|by apply (Ho h k)].
  - apply lookup_insert_Some in Hh as [[_ <-]|[_ Hh]]; [lia|].
    apply Hold'; [by apply (Ho h k)|done|by apply (Ho h k)].
Qed.

(** Everybody else is behind. *)
Lemma in_line_behind L x st : rw_inv st → x ≠ me → x ∉ Old → in_line L st → behind id x st.
Proof.
  intros Hi Hx Hold (p & t & Hp & _ & _ & Ho). exists p; split; [done|]. intros k Hk.
  destruct (Z.lt_trichotomy p k) as [?|[<-|Hlt]]; [done| |].
  - by destruct Hx, (inv_distinct _ Hi x me p).
  - by destruct Hold, (Ho x k Hk Hlt).
Qed.
(** ** What the others request *)

(** They give up what they have. *)
Definition yields (o : rw_op) : Prop :=
  match o with
  | WLock _ _ _ _ | RLock _ _ _ _ | WRenew _ _ | RRenew _ _ _ => False
  | QLeave x => x ≠ me
  | QForget x => x ≠ me ∧ x ∉ Old
  | _ => True
  end.

(** They come later: new contenders with a timeout of [wt] at least, and
    clocks that are not ahead by more than that. *)
Definition newcomer (L wt : Z) (o : rw_op) : Prop :=
  match o with
  | WLock t _ now wt' => t ≠ id ∧ ("W:" +:+ t) ∉ Old ∧ 0 < wt ≤ wt' ∧ now - wt' ≤ L
  | RLock t _ now wt' => ("R:" +:+ t) ∉ Old ∧ 0 < wt ≤ wt' ∧ now - wt' ≤ L
  | _ => False
  end.

Lemma yields_holders t0 f o st : yields o → holders t0 f st → holders t0 f (rw_apply t0 o st).2.
Proof.
  intros Ho (Hw & Hr & Hf). destruct o as [| | |t| |ts|x|x| |t]; cbn [rw_apply yields] in *; try done.
  - destruct (is_writer st t); done.
  - pose proof (zrem_all_lookup ts (rw_readers st)) as E. destruct (zrem_all ts (rw_readers st)) as [n z]; cbn in *.
    split; [done|split; [|done]]; cbn. intros r s; rewrite E. case_decide; [done|by apply Hr].
Qed.

Lemma yields_line t0 L o st :
  yields o → (in_line L st → in_line L (rw_apply t0 o st).2) ∧ (only_old st → only_old (rw_apply t0 o st).2).
Proof.
  intros Ho. destruct o as [| | |t| |ts|x|x| |t]; cbn [rw_apply yields] in *; try done.
  - by destruct (is_writer st t).
  - by destruct (zrem_all ts (rw_readers st)).
  - assert (set_stamps (rw_stamps st) (set_queue (delete x (rw_queue st)) st) = set_queue (delete x (rw_queue st)) st)
      as <- by done.
    split; [apply in_line_drop|apply only_old_drop]; try done; try apply delete_subseteq. by rewrite lookup_delete_ne.
  - destruct Ho as [Hx Hold]. split.
    + intros (p & t & Hp & Ht & HL & Ho). exists p, t; cbn. split_and!; [done|by rewrite lookup_delete_ne|done|].
      intros h n Hh Hlt. destruct (Ho h n Hh Hlt) as (? & t' & ? & ?). split; [done|]. exists t'; cbn.
      by rewrite lookup_delete_ne by congruence.
    + intros [Hs Ho]. split; [done|]. intros h n Hh. destruct (Ho h n Hh) as (? & t' & ? & ?). split; [done|]. exists t'; cbn.
      by rewrite lookup_delete_ne by congruence.
Qed.

Lemma newcomer_line t0 f L wt o st :
  rw_inv st → newcomer L wt o → in_line L st → holders t0 f st →
  in_line L (rw_apply t0 o st).2 ∧ holders t0 f (rw_apply t0 o st).2.
Proof.
  intros Hi Ho Hl (Hw & Hr & Hf). destruct o as [t ttl now wt'|t ttl now wt'| | | | | | | |]; try done; cbn [rw_apply newcomer] in *.
  - destruct Ho as (Ht & Hold & Hwt & HL). assert ("W:" +:+ t ≠ me) as Hm by (unfold me; by intros [= ?]).
    pose proof (in_line_join L _ now wt' st Hi Hm Hold ltac:(lia) Hl) as Hj.
    pose proof (in_line_purge L (now - wt') _ (inv_join _ now wt' st Hi) HL Hj) as Hp.
    destruct (queued_fields st ("W:" +:+ t) now wt') as (_ & _ & Qf). unfold queued in Qf.
    destruct (join_fields ("W:" +:+ t) now wt' st) as (_ & _ & Jf).
    pose proof (write_step_cases t0 t ttl now wt' st) as Hc. cbv zeta in Hc.
    assert (in_line L (write_step t0 t ttl now wt' st).2 ∧
            (rw_writer (write_step t0 t ttl now wt' st).2 = rw_writer st → rw_fence (write_step t0 t ttl now wt' st).2 = rw_fence st))
      as [Hin Hfe].
    { destruct Hc as [[_ ->]|[_ [[_ [->|[->| ->]]]|(Hn & _ & _ & _ & st2 & -> & Hx)]]]; [done..| |].
      - split; [|done]. by apply (in_line_same L _ _ eq_refl eq_refl).
      - assert (∀ n, in_line L (set_fence n (leave ("W:" +:+ t) (set_writer (Some (t, Some (t0 + ttl)))
          (set_readers ∅ (purge (now - wt') (join ("W:" +:+ t) now wt' st).2)))))) as Hin.
        { intros n. apply (in_line_same L (leave ("W:" +:+ t) _) _ eq_refl eq_refl), (in_line_leave L _ _ Hm).
          by apply (in_line_same L _ _ eq_refl eq_refl). }
        destruct Hx as [[-> _]|[-> _]]; (split; [|cbn; rewrite Hn; done]); [apply Hin|].
        apply (in_line_same L _ _ eq_refl eq_refl (Hin None)). }
    split; [exact Hin|]. destruct Hin as (p & _ & Hp' & _).
    pose proof (behind_write t0 id t ttl now wt' st Hi (in_line_behind L _ st Hi Hm Hold Hl) ltac:(eauto)) as Ew.
    destruct (write_step_fields t0 t ttl now wt' st) as [Er _].
    split; [by rewrite Ew|split; [|by rewrite (Hfe Ew)]].
    intros r s Hs. eapply Hr, lookup_weaken; eauto.
  - destruct Ho as (Hold & Hwt & HL). assert ("R:" +:+ t ≠ me) as Hm by done.
    pose proof (in_line_join L _ now wt' st Hi Hm Hold ltac:(lia) Hl) as Hj.
    pose proof (in_line_purge L (now - wt') _ (inv_join _ now wt' st Hi) HL Hj) as Hp.
    destruct (queued_fields st ("R:" +:+ t) now wt') as (_ & _ & Qf). unfold queued in Qf.
    destruct (join_fields ("R:" +:+ t) now wt' st) as (_ & _ & Jf).
    pose proof (read_step_cases t ttl now wt' st) as Hc. cbv zeta in Hc.
    assert (in_line L (read_step t ttl now wt' st).2 ∧ rw_fence (read_step t ttl now wt' st).2 = rw_fence st) as [Hin Hfe].
    { destruct Hc as [[_ ->]|[_ [[_ [->| ->]]|(_ & _ & ->)]]]; [done..|]. split; [|done].
      apply (in_line_leave L _ _ Hm). by apply (in_line_same L _ _ eq_refl eq_refl). }
    split; [exact Hin|]. destruct Hin as (p & _ & Hp' & _).
    pose proof (behind_read id t ttl now wt' st Hi (in_line_behind L _ st Hi Hm Hold Hl) ltac:(eauto)) as Er.
    destruct (read_step_fields t ttl now wt' st) as [Ew _].
    split; [by rewrite Ew|split; [by rewrite Er|by rewrite Hfe]].
Qed.
(** ** The writer's own attempt *)

#[local] Instance writes_next_dec token now wt st : Decision (writes_next token now wt st).
Proof.
  apply and_dec; [apply _|apply and_dec].
  - refine (map_Forall_dec (λ _ s, s ≤ now) (rw_readers st)); intros; simpl; apply _.
  - refine (map_Forall_dec (λ h s, s < place st ("W:" +:+ token) → silent (now - wt) (rw_stamps st) h = true) (rw_queue st));
      intros; simpl; apply _.
Defined.

(** Who is before the writer when it comes. *)
Lemma before_me L h n st :
  only_old st ∨ in_line L st → rw_queue st !! h = Some n → n < place st me → old_entry h st.
Proof.
  intros [[_ Ho]|(p & t & Hp & _ & _ & Ho)] Hh; [by intros _; eapply Ho|].
  unfold place; rewrite Hp. by apply Ho.
Qed.

Lemma own_join L now wt st :
  0 < wt → only_old st ∨ in_line L st → in_line now (join me now wt st).2.
Proof.
  intros Hwt Hl. destruct (joined me now wt st Hwt) as (_ & Eq & Es).
  { destruct Hl as [[? _]|(p & _ & ? & _)]; eauto. }
  exists (place st me), now. rewrite Eq, Es, !lookup_insert_eq. split_and!; [done..|lia|].
  intros h n [[<- <-]|[Hne Hh]]%lookup_insert_Some Hlt; [lia|].
  destruct (before_me L h n st Hl Hh Hlt) as (? & t & ? & ?). split; [done|]. exists t.
  by rewrite Es, lookup_insert_ne.
Qed.

(** It is granted, or busy and in line; and it is busy only while a lease of
    the holders runs, or an old contender may still be there. *)
Lemma own_attempt L t0 f ttl now wt st :
  rw_inv st → only_old st ∨ in_line L st → holders t0 f st →
  0 < wt → 0 < ttl → in_int64 (t0 + ttl) = true → f < int64_max →
  let x := write_step t0 id ttl now wt st in
  x.1 = lua_int (f + 1) ∨
  x.1 = RNil ∧ (t0 ≤ X ∨ now < Y ∨ now ≤ V + wt) ∧ in_line now x.2 ∧ holders t0 f x.2.
Proof.
  intros Hi Hl (Hw & Hr & Hf) Hwt Httl Hin Hmax. cbv zeta.
  assert (is_writer st id = false) as Ho.
  { unfold is_writer. destruct (rw_writer st) as [[t x]|]; [|done]. apply String.eqb_neq. by apply (Hw t x). }
  destruct (write_next t0 id ttl now wt st Hi Hwt Httl Hin) as [Hy Hn]; [|lia|done|].
  { destruct Hl as [[? _]|(p & _ & ? & _)]; [by left|right; eauto]. }
  destruct (decide (writes_next id now wt st)) as [Hnext|Hnext]; [left; rewrite <- Hf; by apply Hy|right].
  destruct (Hn Hnext) as [Hnil Ew]. split; [done|]. split.
  { destruct (decide (t0 ≤ X)); [by left|]. destruct (decide (now < Y)); [right; by left|].
    destruct (decide (now ≤ V + wt)); [right; by right|]. exfalso. apply Hnext. split_and!.
    - destruct (rw_writer st) as [[t x]|]; [|done]. destruct (Hw t x eq_refl) as (_ & x' & _ & ?). lia.
    - intros r s Hs. specialize (Hr r s Hs). lia.
    - intros h k Hh Hlt. destruct (before_me L h k st Hl Hh Hlt) as (_ & t & Ht & ?).
      unfold silent. rewrite Ht; simpl. rewrite atoi_itoa. lia. }
  pose proof (own_join L now wt st Hwt Hl) as Hj.
  pose proof (in_line_purge now (now - wt) _ (inv_join me now wt st Hi) ltac:(lia) Hj) as Hp.
  destruct (queued_fields st me now wt) as (_ & _ & Qf). unfold queued in Qf. destruct (join_fields me now wt st) as (_ & _ & Jf).
  destruct (write_step_fields t0 id ttl now wt st) as [Er _].
  assert (in_line now (write_step t0 id ttl now wt st).2 ∧ rw_fence (write_step t0 id ttl now wt st).2 = rw_fence st) as [Hin' Hfe].
  { pose proof (write_step_cases t0 id ttl now wt st) as Hc. cbv zeta in Hc.
    destruct Hc as [[? _]|[_ [[_ [->|[->| ->]]]|(_ & _ & _ & _ & st2 & _ & Hx)]]]; [congruence|done..| |].
    - split; [|exact Qf]. by apply (in_line_same now _ _ eq_refl eq_refl).
    - exfalso. destruct Hx as [[Hx _]|[Hx _]]; by rewrite Hx in Hnil. }
  split; [exact Hin'|]. split; [by rewrite Ew|split; [|by rewrite Hfe]].
  intros r s Hs. eapply Hr, lookup_weaken; eauto.
Qed.
End line.
