(* ===== verification/Scenario.v ===== *)
(** * Concrete schedules

    Turns from which the example histories of the development are built, and
    the tactic that checks a concrete schedule against a rely condition. *)
From S2P Require Import Prelude Redis RedisMem Errors Requests GoRuntime.

(** Nothing happens around the effect. *)
Definition quiet : turn := Turn [] [] [] None false 0.
(** The request is served once and answered. *)
Definition served : turn := Turn [] [[]] [] None false 0.
(** Some steps of the others come first. *)
Definition first_do (l : list env_step) (t : turn) : turn :=
  Turn (l ++ t_before t) (t_execs t) (t_after t) (t_fail t) (t_pick t) (t_rand t).
(** The network fails, having delivered the request [n] times. *)
Definition net_fails (n : nat) (e : net_error) : turn := Turn [] (replicate n []) [] (Some e) false 0.

(** After [dc] nanoseconds on the client's clock and [ds] on the server's. *)
Definition after (dc ds : Z) (t : turn) : turn := first_do [Elapse dc ds] t.

(** Both clocks advance alike. *)
Definition wait (d : Z) : env_step := Elapse d d.

(** A client's world at time [t] on an empty server. *)
Definition at_start (t : Z) (turns : list turn) : world mem := World (mem_empty t) t turns [] [].

(** Proves that a concrete schedule is within a rely condition. *)
Ltac solve_sched :=
  repeat first
    [ progress (unfold world_ok, turn_ok, step_ok, drift_ok; simpl)
    | match goal with |- Forall _ _ => constructor | |- _ ∧ _ => split end
    | lia
    | done ].

(** Decides a closed proposition by evaluation. *)
Ltac by_compute := refine (bool_decide_unpack _ _); vm_compute; exact I.
