(* ===== verification/RWStranded.v ===== *)
(** * A contender that left the read-write lock halfway

    [Dequeue] is two requests, and ignores their errors.  When the first one
    fails and the second succeeds, the contender is still in the queue, but
    nothing says when it was last heard from: no attempt ever purges it.  At
    the server the entry stays as long as the queue does, and every attempt of
    the others, which it turns away, makes the queue live on. *)
From S2P Require Import Prelude Redis RedisMem ScriptsSingle ScriptsSem ScriptsRW Requests RWLock.
From S2P Require Import RWMachine GoRuntime RWFair RWLine Scenario.
Open Scope Z_scope.

(** ** The machine *)

(** The writer's entry [x] is at the head, without a time. *)
Definition stranded (x : string) (st : rwstate) : Prop :=
  is_writer_member x = true ∧ rw_stamps st !! x = None ∧
  ∃ n, rw_queue st !! x = Some n ∧ ∀ y k, rw_queue st !! y = Some k → n ≤ k.

(** Any request but those of [x] itself. *)
Definition not_of (x : string) (o : rw_op) : Prop :=
  match o with
  | WLock t _ _ wt => "W:" +:+ t ≠ x ∧ 0 < wt
  | RLock t _ _ wt => "R:" +:+ t ≠ x ∧ 0 < wt
  | QLeave y => y ≠ x
  | _ => True
  end.

Lemma stranded_join x m now wt st :
  rw_inv st → stranded x st → m ≠ x → 0 < wt → stranded x (join m now wt st).2.
Proof.
  intros Hi (Hx & Hs & n & Hn & Hmin) Hm Hwt. split; [done|].
  unfold join, expire. rewrite (proj2 (Z.leb_gt wt 0)) by lia.
  destruct (rw_queue st !! m) as [k|] eqn:E; cbn; [rewrite lookup_insert_ne by done; eauto|].
  destruct (rw_seq st + 1 <=? int64_max); cbn; [|eauto]. rewrite lookup_insert_ne by done. split; [done|].
  exists n; split; [by rewrite lookup_insert_ne by done|]. intros y k'; rewrite lookup_insert_Some.
  intros [[_ <-]|[_ Hy]]; [|by eapply Hmin]. pose proof (inv_arrived _ Hi _ _ Hn). lia.
Qed.

Lemma stranded_purge x limit st : rw_inv st → stranded x st → stranded x (purge limit st).
Proof.
  intros Hi (Hx & Hs & n & Hn & Hmin). split; [done|]. split.
  - unfold purge. destruct (leaves_lookup (crashed limit (rw_stamps st) (arrivals st)) st x) as [_ ->].
    by case_decide.
  - exists n; split; [apply (fresh_stays limit st Hi x n Hn); unfold silent; by rewrite Hs|].
    intros y k Hy. eapply Hmin, lookup_weaken; [exact Hy|]. by destruct (purge_queue limit st).
Qed.

(** Whoever attempts, it is not its turn. *)
Lemma stranded_head x st :
  rw_inv st → stranded x st → match arrivals st with [] => False | h :: _ => h = x end.
Proof.
  intros Hi (_ & _ & n & Hn & Hmin). destruct (arrivals st) as [|h l] eqn:Ea.
  { unfold arrivals in Ea. apply fmap_nil_inv, zsorted_nil in Ea. by rewrite Ea, lookup_empty in Hn. }
  destruct (arrivals_head _ _ _ Hi Ea) as (q & Hq & Hle). specialize (Hle _ _ Hn); specialize (Hmin _ _ Hq).
  apply (inv_distinct _ Hi h x n); [|done]. by assert (q = n) as <- by lia.
Qed.

Lemma stranded_ahead x st p :
  stranded x st → (∃ y, rw_queue st !! y = Some p ∧ y ≠ x) → rw_inv st →
  existsb is_writer_member (zbelow (rw_queue st) p) = true.
Proof.
  intros (Hx & _ & n & Hn & Hmin) (y & Hy & Hne) Hi. apply existsb_exists. exists x; split; [|done].
  apply list_elem_of_In, elem_of_zbelow. exists n; split; [done|].
  specialize (Hmin _ _ Hy). destruct (Z.eq_dec n p) as [->|]; [|lia]. by destruct Hne, (inv_distinct _ Hi y x p).
Qed.

(** No new holder. *)
Definition no_gain (st st' : rwstate) : Prop :=
  (∀ t, is_writer st' t = true → is_writer st t = true) ∧
  (∀ b, is_Some (rw_readers st' !! b) → is_Some (rw_readers st !! b)).

Lemma no_gain_same st st' : rw_writer st' = rw_writer st → rw_readers st' ⊆ rw_readers st → no_gain st st'.
Proof.
  intros Ew Er; split; [intros t; unfold is_writer; by rewrite Ew|].
  intros b [s Hs]. rewrite (lookup_weaken _ _ _ _ Hs Er). eauto.
Qed.

Lemma no_gain_refl st : no_gain st st.
Proof. by apply no_gain_same. Qed.

Lemma join_entry m now wt st p :
  0 < wt → (join m now wt st).1 = inr p →
  rw_queue (join m now wt st).2 !! m = Some p ∧ rw_stamps (join m now wt st).2 !! m = Some (itoa now).
Proof.
  intros Hwt; unfold join, expire. rewrite (proj2 (Z.leb_gt wt 0)) by lia.
  destruct (rw_queue st !! m) as [k|] eqn:E; cbn; [intros [= <-]; by rewrite lookup_insert_eq|].
  destruct (rw_seq st + 1 <=? int64_max); cbn; [intros [= <-]; by rewrite !lookup_insert_eq|done].
Qed.

Lemma stranded_write x t0 t ttl now wt st :
  rw_inv st → stranded x st → "W:" +:+ t ≠ x → 0 < wt →
  stranded x (write_step t0 t ttl now wt st).2 ∧ no_gain st (write_step t0 t ttl now wt st).2.
Proof.
  intros Hi Hs Hne Hwt. set (m := "W:" +:+ t) in *.
  pose proof (stranded_join x m now wt st Hi Hs Hne Hwt) as Hj. pose proof (inv_join m now wt st Hi) as Hij.
  pose proof (stranded_purge x (now - wt) _ Hij Hj) as Hp. pose proof (inv_purge (now - wt) _ Hij) as Hip.
  destruct (queued_fields st m now wt) as (Qr & Qw & _). unfold queued in Qr, Qw.
  destruct (join_fields m now wt st) as (Jr & Jw & _).
  pose proof (write_step_cases t0 t ttl now wt st) as Hc. cbv zeta in Hc. fold m in Hc.
  destruct Hc as [[_ ->]|[_ [[_ [->|[->| ->]]]|(_ & _ & _ & (_ & _ & Hhead) & _)]]].
  - split; [exact Hs|apply no_gain_refl].
  - split; [exact Hj|]. apply no_gain_same; [done|by rewrite Jr].
  - split; [exact Hp|]. apply no_gain_same; [done|by rewrite Qr].
  - split; [exact Hp|]. apply no_gain_same; [done|apply map_filter_subseteq].
  - exfalso. pose proof (stranded_head x _ Hip Hp) as Hh.
    destruct (arrivals _); [done|]. by apply Hne; rewrite <- Hhead, <- Hh.
Qed.

Lemma stranded_read x t ttl now wt st :
  rw_inv st → stranded x st → "R:" +:+ t ≠ x → 0 < wt →
  stranded x (read_step t ttl now wt st).2 ∧ no_gain st (read_step t ttl now wt st).2.
Proof.
  intros Hi Hs Hne Hwt. set (m := "R:" +:+ t) in *.
  pose proof (stranded_join x m now wt st Hi Hs Hne Hwt) as Hj. pose proof (inv_join m now wt st Hi) as Hij.
  pose proof (stranded_purge x (now - wt) _ Hij Hj) as Hp. pose proof (inv_purge (now - wt) _ Hij) as Hip.
  destruct (queued_fields st m now wt) as (Qr & Qw & _). unfold queued in Qr, Qw.
  destruct (join_fields m now wt st) as (Jr & Jw & _).
  pose proof (read_step_cases t ttl now wt st) as Hc. cbv zeta in Hc. fold m in Hc.
  destruct Hc as [[_ ->]|[_ [[_ [->| ->]]|(_ & (p & Hp1 & Hp2) & _)]]].
  - split; [exact Hs|apply no_gain_refl].
  - split; [exact Hj|]. apply no_gain_same; [done|by rewrite Jr].
  - split; [exact Hp|]. apply no_gain_same; [done|by rewrite Qr].
  - exfalso. destruct (join_entry m now wt st p Hwt Hp1) as [Eq Es].
    rewrite (stranded_ahead x _ p Hp) in Hp2; [done| |done]. exists m; split; [|done].
    apply (fresh_stays _ _ Hij m p Eq). unfold silent; rewrite Es; simpl. rewrite atoi_itoa. lia.
Qed.

Lemma stranded_step x t0 o st :
  rw_inv st → stranded x st → not_of x o → stranded x (rw_apply t0 o st).2 ∧ no_gain st (rw_apply t0 o st).2.
Proof.
  intros Hi Hs Ho. pose proof Hs as (Hx & Hst & n & Hn & Hmin).
  destruct o as [t ttl now wt|t ttl now wt|t ttl|t|now ttl ts|ts|y|y| |t]; cbn [rw_apply not_of] in *;
    try (split; [exact Hs|apply no_gain_refl]).
  - destruct Ho; by apply stranded_write.
  - destruct Ho; by apply stranded_read.
  - destruct (is_writer st t) eqn:E; (split; [exact Hs|]); [|apply no_gain_refl]. split; [|done]. cbn.
    intros t'; unfold is_writer at 1; cbn. destruct (ttl <=? 0); [done|]. by intros ->%String.eqb_eq.
  - destruct (is_writer st t) eqn:E; (split; [exact Hs|]); [by split|apply no_gain_refl].
  - destruct (all_live (rw_readers st) now ts) eqn:E; (split; [exact Hs|]); [|apply no_gain_refl].
    split; [done|]. cbn. intros b. rewrite lookup_zadd_all. case_decide as Hin; [|done]. intros _.
    unfold all_live in E. rewrite forallb_forall in E. specialize (E b (proj1 (list_elem_of_In _ _) Hin)).
    destruct (rw_readers st !! b); [eauto|done].
  - pose proof (zrem_all_lookup ts (rw_readers st)) as E. destruct (zrem_all ts (rw_readers st)) as [k z].
    split; [exact Hs|]. split; [done|]. cbn in *. intros b; rewrite E. case_decide; [by intros [? ?]|done].
  - split; [|by apply no_gain_same]. split; [done|split; [done|]]. exists n; cbn.
    split; [by rewrite lookup_delete_ne|]. intros z k [_ Hz]%lookup_delete_Some. by eapply Hmin.
  - split; [|by apply no_gain_same]. split; [done|split; [|eauto]]. cbn.
    destruct (decide (x = y)) as [->|]; [by rewrite lookup_delete_eq|by rewrite lookup_delete_ne].
Qed.

(** ** The server *)
Section server.
Context {S : Type} `{!RedisOps S, !RedisLaws S} (K : RWKeys) (x : string).
Implicit Types (s : S) (e : env_step).

(** The others use other keys, or the lock's, but not the entry's. *)
Definition not_its (e : env_step) : Prop :=
  match e with
  | Other r => (∀ k, k ∈ rw_keys K → k ∉ request_keys r) ∨ ∃ o, r = to_request K o ∧ not_of x o
  | Elapse _ _ => True
  end.

(** The timeout that an attempt gives the queue. *)
Definition patience (r : request) : option Z :=
  match r with RWWriteLock _ _ _ _ wt | RWReadLock _ _ _ _ wt => Some wt | _ => None end.

(** Until when the queue lives after a step, if it lived until [E] before: an
    attempt that is turned away starts its timeout anew. *)
Definition lives (E : Z) (e : env_step) s : Z :=
  match e with
  | Elapse _ _ => E
  | Other r =>
      match patience r, (serve r s).1 with
      | Some wt, RNil => if bool_decide (Waiters K ∈ request_keys r) then r_clock s + wt else E
      | Some wt, _ => Z.min E (r_clock s + wt)
      | None, _ => E
      end
  end.

(** The attempts follow each other closely: at no time has the queue's timeout
    passed since the last of them. *)
Fixpoint pressed (E : Z) (l : list env_step) s : Prop :=
  match l with
  | [] => True
  | e :: l => r_clock (env_step_srv e s) < lives E e s ∧ pressed (lives E e s) l (env_step_srv e s)
  end.

Definition stuck (E : Z) s : Prop := queue_lasts K E (r_view s) ∧ rw_lock K (stranded x) (r_view s).

Definition no_new_holder s s' : Prop := ∀ b, holds_lock K b s' → holds_lock K b s.

Lemma queue_lasts_le E E' m : E' ≤ E → queue_lasts K E m → queue_lasts K E' m.
Proof.
  intros H. assert (∀ k, lasts k E m → lasts k E' m) as Hk by (intros k; unfold lasts; case_match; lia).
  intros [? ?]; split; auto.
Qed.

Lemma no_gain_holders s s' st st' :
  rw_on K (r_view s) st → rw_on K (r_view s') st' → no_gain st st' → no_new_holder s s'.
Proof.
  intros Ho Ho' [Hw Hr] b. rewrite (holds_lock_iff K b s st Ho), (holds_lock_iff K b s' st' Ho').
  intros [?|?]; [left|right]; auto.
Qed.

Lemma queue_lasts_apply E o s st :
  rw_on K (r_view s) st → rw_inv st →
  queue_lasts K E (r_view s) →
  queue_lasts K (lives E (Other (to_request K o)) s) (r_view (serve (to_request K o) s).2).
Proof.
  intros Ho Hi Hq. pose proof (rep_keys _ _ _ (proj1 Ho)) as HK.
  pose proof (serve_view (to_request K o) s) as Ev. pose proof (serve_reply (to_request K o) s) as Er.
  assert (∀ E', E' ≤ E → match patience (to_request K o) with Some wt => E' ≤ r_clock s + wt | None => True end →
    queue_lasts K E' (r_view (serve (to_request K o) s).2)) as Hkeep.
  { intros E' HE' Hp. rewrite Ev. apply (queue_lasts_le E E') in Hq as [Hq1 Hq2]; [|done].
    split; (apply (apply_lasts K (r_clock s) HK); [auto|by destruct o|done]). }
  unfold lives. destruct (patience (to_request K o)) as [wt|] eqn:Ep; [|by apply Hkeep].
  destruct (serve (to_request K o) s).1 eqn:Erep; try (apply Hkeep; lia).
  assert (Waiters K ∈ request_keys (to_request K o)) as Hin.
  { destruct o; try done; cbn; unfold rw_keys; set_solver. }
  rewrite bool_decide_eq_true_2 by done. rewrite Ev.
  clear Erep; rename Er into Erep; symmetry in Erep.
  destruct o as [t ttl now wt'|t ttl now wt'| | | | | | | |]; try done; injection Ep as ->.
  - assert (is_writer st t = false) as Hw.
    { destruct (is_writer st t) eqn:E'; [|done]. exfalso.
      destruct (apply_run K (r_clock s) _ st (WLock t ttl now wt) Ho) as (m' & Em & _). rewrite Em in Erep.
      cbn in Erep. unfold write_step in Erep. rewrite E' in Erep. unfold is_writer in E'.
      destruct (inv_minted _ Hi) as [f Hf]; [destruct (rw_writer st); [by eexists|done]|]. by rewrite Hf in Erep. }
    split; by apply (write_renews K _ HK _ _ st); auto.
  - split; apply (read_renews K _ HK); auto.
Qed.

Lemma stuck_step E e s :
  not_its e → stuck E s → r_clock (env_step_srv e s) < lives E e s →
  stuck (lives E e s) (env_step_srv e s) ∧ no_new_holder s (env_step_srv e s).
Proof.
  intros He (Hq & st & Ho & Hi & Hs) Hc. destruct e as [r|dc ds]; cbn [env_step_srv not_its] in *.
  - destruct He as [Hk|(o & -> & Hno)].
    + assert (rw_on K (r_view (serve r s).2) st) as Ho'.
      { rewrite serve_view. eapply rw_on_frame; [|exact Ho]. intros k Hin. by apply serve_ref_frame, Hk. }
      split; [|eapply no_gain_holders; [exact Ho|exact Ho'|apply no_gain_refl]]. split; [|by exists st].
      apply (queue_lasts_le E); [|rewrite serve_view; destruct Hq as [Hq1 Hq2]; split;
        (eapply lasts_lookup; [apply serve_ref_frame, Hk|done]); unfold rw_keys; set_solver].
      unfold lives. rewrite bool_decide_eq_false_2 by (apply Hk; unfold rw_keys; set_solver).
      repeat case_match; lia.
    + pose proof (queue_lasts_apply E o s st Ho Hi Hq) as Hq'.
      destruct (apply_run K (r_clock s) _ st o Ho) as (m' & Em & Ho').
      pose proof (serve_view (to_request K o) s) as Ev. rewrite Em in Ev; cbn [snd] in Ev. rewrite <- Ev in Ho'.
      destruct (stranded_step x (r_clock s) o st Hi Hs Hno) as [Hs' Hg].
      split; [|by eapply no_gain_holders]. split; [exact Hq'|]. eexists; split; [exact Ho'|].
      split; [by apply inv_apply|exact Hs'].
  - assert (UnixMilli (r_time s + ds) < E) as Hlt by (unfold r_clock in Hc; by rewrite law_tick_time in Hc).
    destruct (line_tick K r_expired (UnixMilli (r_time s + ds)) (r_view s) st E) as (st' & Ho' & Ha & Eq & Es & Hq' & _);
      [by intros; apply law_not_expired|done..|]. rewrite <- law_tick_view in Ho', Hq'.
    destruct Hs as (Hx & Hst & Hhead). split; [split; [exact Hq'|]|].
    + exists st'; split; [exact Ho'|split; [by eapply inv_aged|]]. split; [done|]. by rewrite Es, Eq.
    + eapply no_gain_holders; [exact Ho|exact Ho'|]. destruct Ha as (Er & _ & Ew & _).
      split; [|by rewrite Er]. intros b; unfold is_writer. by destruct Ew as [->| ->].
Qed.

Lemma stuck_waits E s : stuck E s → waits K x s.
Proof.
  intros (_ & st & Ho & _ & _ & _ & n & Hn & _). exists (rw_queue st).
  split; [apply (rep_queue _ _ _ (proj1 Ho))|by exists n].
Qed.

(** C40: a writer that left halfway blocks the lock for as long as others
    want it.  Once an entry without a time is at the head of the queue on the
    server, then whatever the others request, and however time passes, as long
    as their attempts follow each other within the timeout of the queue, the
    entry stays, and nobody becomes a holder of the lock any more: whoever
    holds it held it before, even when its owner is long gone.  (Only when
    nobody attempts for a whole timeout does the queue expire.) *)
Theorem half_left_blocks E l s :
  rw_lock K (stranded x) (r_view s) → queue_lasts K E (r_view s) →
  Forall not_its l → pressed E l s →
  Forall (λ s', waits K x s' ∧ no_new_holder s s') (history l s).
Proof.
  intros Hs Hq. assert (stuck E s) as Hst by done. clear Hs Hq.
  revert E s Hst; induction l as [|e l IH]; intros E s Hst Hl Hp; cbn [history pressed] in *;
    (apply Forall_cons; split; [split; [by eapply stuck_waits|by intros b]|]); [constructor|].
  apply Forall_cons in Hl as [He Hl]. destruct Hp as [Hc Hp].
  destruct (stuck_step E e s He Hst Hc) as [Hst' Hn].
  eapply Forall_impl; [by apply (IH _ _ Hst' Hl Hp)|]. intros s' [Hw Hn']. split; [exact Hw|].
  intros b Hb. by apply Hn, Hn'.
Qed.
End server.

(** ** Example *)
Module Ex.
Import RWMachine.Ex.

(** [b] waits for the reader [c] and gives up, but the first request of its
    [Dequeue] fails. *)
Definition left_by (o : rw_op) (s : mem) : mem := (serve (to_request K o) s).2.
Definition half_left : mem :=
  left_by (QForget "W:b") (left_by b_locks (left_by (RLock "c" 10000 5 20000) (mem_empty 0))).

(** Then [c] leaves, and [d] tries for a minute, for writing and for reading,
    every ten seconds. *)
Definition d_tries : list env_step :=
  [Other (to_request K (RRelease ["c"])); wait (10 * Second);
   Other (to_request K (WLock "d" 10000 10000 20000)); wait (10 * Second);
   Other (to_request K (WLock "d" 10000 20000 20000)); wait (19 * Second);
   Other (to_request K (RLock "d" 10000 39000 20000)); wait (19 * Second);
   Other (to_request K (WLock "d" 10000 58000 20000))].

Lemma half_left_lock : rw_lock K (stranded "W:b") (r_view half_left).
Proof.
  assert (∀ o s st, rw_on K (r_view s) st → rw_on K (r_view (left_by o s)) (rw_apply (r_clock s) o st).2) as Hstep.
  { intros o s st Ho. destruct (apply_run K (r_clock s) _ st o Ho) as (m' & Em & Ho'). unfold left_by.
    rewrite serve_view, Em. exact Ho'. }
  eexists. split; [|split]; [apply Hstep, Hstep, Hstep; change (r_view (mem_empty 0)) with (∅ : keyspace);
    apply rw_on_empty, K_distinct|by do 3 apply inv_apply; apply rw_inv_init|].
  unfold left_by, r_clock. rewrite !serve_time. change (UnixMilli (r_time (mem_empty 0))) with 0.
  set (st := (rw_apply 0 (QForget "W:b") _).2).
  split; [reflexivity|split; [vm_compute; reflexivity|]]. exists 2; split; [vm_compute; reflexivity|].
  intros y k Hy. assert (rw_queue st = {["W:b" := 2]}) as E by (vm_compute; reflexivity).
  rewrite E in Hy. apply lookup_singleton_Some in Hy as [_ <-]. lia.
Qed.

Lemma half_left_blocks_witness :
  Forall (λ s', waits K "W:b" s' ∧ no_new_holder K half_left s') (history d_tries half_left) ∧
  ¬ holds_lock K "d" half_left.
Proof.
  split.
  - apply (half_left_blocks K "W:b" 20000 d_tries half_left half_left_lock).
    + split; vm_compute; first [exact I | discriminate].
    + repeat (apply Forall_cons; split;
        [first [exact I | right; eexists; split; [reflexivity|simpl; try split; first [exact I|discriminate|lia]]]|]).
      by apply Forall_nil.
    + repeat (split; [vm_compute; reflexivity|]). exact I.
  - intros [[y Hy]|(z & Hz & [n Hn])].
    + vm_compute in Hy. discriminate Hy.
    + vm_compute in Hz. injection Hz as <-. vm_compute in Hn. discriminate Hn.
Defined.
End Ex.
