(* ===== verification/Lease.v ===== *)
(** * The lease abstraction

    [internal/lease/lease.go]: the interface every primitive holds its
    ownership through, the owner token, the local deadline, and the cleanup
    of a grant that came too late.  The second half is the meaning of a
    deadline that is shared by the lease types stored under one key: as long
    as the client's clock is before it, the server still has the key with
    the client's token. *)
From S2P Require Import Prelude Redis Errors Requests ScriptsSingle GoRuntime.

(** The zero [time.Time] (year 1), in nanoseconds after the epoch. *)
Definition time_zero : Z := -62135596800 * Second.

(** [t.After(u)] *)
Definition After (t u : Z) : bool := u <? t.

(** [requestExpiry(start, ttl)]: [Time.Add] of the TTL less 1% and 1 ms. *)
Definition requestExpiry (start ttl : Z) : Z := start + (ttl - ttl ÷ 100 - Millisecond).

(** The interface [Lease]. *)
Class Lease (S : Type) (L : Type) := {
  lease_ID : L → string;
  lease_Acquire : L → go S (L * option error);
  lease_Renew : L → go S (L * option error);
  lease_Release : L → go S (L * option error);
  lease_Held : L → go S (bool * option error);
  lease_ExpiresAt : L → Z;
}.

(** [n] renewals in a row, whatever they return. *)
Fixpoint renewals {S L} `{!Lease S L} (n : nat) (l : L) : go S L :=
  match n with
  | O => mret l
  | Datatypes.S n => '(l, _) ← lease_Renew l; renewals n l
  end.

(** [Token()] *)
Definition Token {S} : go S string := rand_token.

(** [discardLateGrant(l)], given [l.Release]. *)
Definition discardLateGrant {S L} (release : go S (L * option error)) : go S (L * option error) :=
  '(l, e) ← release;
  mret (l, errors_Join [Some ErrLost; e]).

(** Results of a call, as the Go code reads them. *)
Definition call_Int64 (x : error + reply) : cmd_result Z :=
  match x with inl e => CErr e | inr r => Int64 r end.
Definition call_Text (x : error + reply) : cmd_result string :=
  match x with inl e => CErr e | inr r => Text r end.
Definition call_Score (x : error + reply) : cmd_result Z :=
  match x with inl e => CErr e | inr r => Score r end.

(** A lease duration the server stores exactly: a positive whole number of
    milliseconds. *)
Definition whole_ms (ttl : Z) : Prop := 0 < ttl ∧ Millisecond * Milliseconds ttl = ttl.

Lemma whole_ms_pos ttl : whole_ms ttl → 0 < Milliseconds ttl.
Proof. unfold whole_ms, Millisecond; lia. Qed.

(** ** What a deadline is worth

    [until_covers d c x s]: with the client's clock at [c] and the server's
    at [r_time s], the client's deadline [d] comes before the server's
    expiry [x] however the clocks drift within 1%. *)
Section coverage.
Context {S : Type} `{!RedisOps S, !RedisLaws S}.
Implicit Types (s : S).

Definition until_covers (d c x : Z) (s : S) : Prop :=
  100 * (d - c) ≤ 99 * (Millisecond * x - r_time s).

Definition covered (k id : string) (d : Z) (s : S) (c : Z) : Prop :=
  c < d → ∃ x, owned (r_view s) k id (Some x) ∧ until_covers d c x s.

Definition not_owned (k id : string) (s : S) : Prop := ∀ x, ¬ owned (r_view s) k id x.

(** The arithmetic of [requestExpiry]: a key set to live for [ttl] when the
    clock is past [start] outlives the local deadline. *)
Lemma request_covers start ttl c s :
  whole_ms ttl → start ≤ c →
  until_covers (requestExpiry start ttl) c (r_clock s + Milliseconds ttl) s.
Proof.
  intros [Hpos Hms] Hc; unfold until_covers, requestExpiry, r_clock, whole_ms in *.
  pose proof (UnixMilli_bounds (r_time s)) as Hu.
  assert (ttl - 99 ≤ 100 * (ttl ÷ 100)) as Hq.
  { pose proof (Z.quot_rem' ttl 100); pose proof (Z.rem_bound_pos ttl 100); lia. }
  unfold Millisecond in *. lia.
Qed.

Lemma until_covers_live d c x s : c < d → until_covers d c x s → r_clock s < x.
Proof.
  unfold until_covers, r_clock; intros; pose proof (UnixMilli_bounds (r_time s)).
  unfold Millisecond in *; lia.
Qed.

Lemma until_covers_tick d c x s dc ds :
  drift_ok dc ds → until_covers d c x s → until_covers d (c + dc) x (r_tick ds s).
Proof. unfold drift_ok, until_covers; rewrite law_tick_time; lia. Qed.

Lemma covered_tick k id d s c dc ds :
  drift_ok dc ds → covered k id d s c → covered k id d (r_tick ds s) (c + dc).
Proof.
  intros Hd Hcov Hlt. destruct Hcov as (x & Hown & Hu); [unfold drift_ok in Hd; lia|].
  pose proof (until_covers_tick _ _ _ _ _ _ Hd Hu) as Hu'.
  exists x; split; [|done]. apply tick_keeps; [done|].
  pose proof (until_covers_live _ _ _ _ Hlt Hu') as Hl.
  unfold r_clock in Hl; by rewrite law_tick_time in Hl.
Qed.

Lemma not_owned_tick k id s d : not_owned k id s → not_owned k id (r_tick d s).
Proof. intros H x Hx; apply (H x); by apply tick_only_drops in Hx. Qed.

(** Stability, from what the rely condition keeps. *)
Section stability.
Context (R : request → Prop) (k id : string).
Context (Hkeep : ∀ s r x, R r → owned (r_view s) k id x → owned (r_view (serve r s).2) k id x).
Context (Hnot : ∀ s r, R r → not_owned k id s → not_owned k id (serve r s).2).

Lemma stable_covered d : stable R (covered k id d).
Proof.
  split; [|intros; by apply covered_tick].
  intros s c r Hr Hcov Hlt; destruct (Hcov Hlt) as (x & ? & ?); exists x; split; [eauto|].
  unfold until_covers in *; by rewrite serve_time.
Qed.

Lemma stable_not_owned : stable R (λ s _, not_owned k id s).
Proof. split; [intros; by apply Hnot|intros; by apply not_owned_tick]. Qed.
End stability.

(** Before their deadlines, two leases on one key cannot both be covered. *)
Lemma covered_exclusive k id1 id2 d1 d2 s c1 c2 :
  covered k id1 d1 s c1 → covered k id2 d2 s c2 → c1 < d1 → c2 < d2 → id1 = id2.
Proof.
  unfold covered, owned; intros H1 H2 ? ?.
  destruct H1 as (? & H1 & _), H2 as (? & H2 & _); [done..|]. rewrite H1 in H2; congruence.
Qed.

End coverage.

(** ** Errors that are not sentinels *)

Lemma net_not_sentinel n t : t = ErrBusy ∨ t = ErrLost → errors_Is (net_err n) t = false.
Proof. by destruct n; intros [-> | ->]. Qed.

(** [Int64] of a reply reports no sentinel of the library. *)
Lemma Int64_err r e t : t = ErrBusy ∨ t = ErrLost → Int64 r = CErr e → errors_Is e t = false.
Proof. intros [-> | ->]; destruct r; simpl; intros; try case_match; by simplify_eq. Qed.
