(* ===== verification/SingleOwner.v ===== *)
(** * The exclusive lease

    [internal/lease/single.go]: the lease behind [Mutex] and [Leader].  The
    local state is the deadline [expiresAt]; ownership itself is on the
    server. *)
From S2P Require Import Prelude Redis Errors Requests ScriptsSingle ScriptsRW RWEffect GoRuntime Lease.

Record SingleOwner := {
  so_id : string;
  so_key : string;
  so_fkey : string;
  so_ttl : Z;
  so_fencing : bool;
  so_expiresAt : Z;
}.

Definition set_expiresAt (t : Z) (l : SingleOwner) : SingleOwner :=
  {| so_id := so_id l; so_key := so_key l; so_fkey := so_fkey l; so_ttl := so_ttl l;
     so_fencing := so_fencing l; so_expiresAt := t |}.

Definition fencing_flag (b : bool) : string := if b then "1" else "0".

Definition acquire_request (l : SingleOwner) : request :=
  SingleAcquire (so_key l) (so_fkey l) (so_id l) (Milliseconds (so_ttl l))
    (fencing_flag (so_fencing l)).
Definition renew_request (l : SingleOwner) : request :=
  SingleRenew (so_key l) (so_id l) (Milliseconds (so_ttl l)).
Definition release_request (l : SingleOwner) : request :=
  SingleRelease (so_key l) (so_id l).

Section ops.
Context {S : Type} `{!RedisOps S}.

Definition NewSingleOwner (key fencingKey : string) (ttl : Z) (fencing : bool) : go S SingleOwner :=
  id ← Token;
  mret {| so_id := id; so_key := key; so_fkey := fencingKey; so_ttl := ttl;
          so_fencing := fencing; so_expiresAt := time_zero |}.

Definition Release (l : SingleOwner) : go S (SingleOwner * option error) :=
  r ← redis (release_request l);
  mret match call_Int64 r with
  | CErr e => (l, Some e)
  | CNil => (l, Some (ErrRedis "redis: nil"))
  | COk ok =>
      if negb (ok =? 1) then (l, Some ErrLost)
      else (set_expiresAt time_zero l, None)
  end.

Definition TryAcquire (l : SingleOwner) : go S (SingleOwner * (Z * option error)) :=
  started ← time_now;
  let deadline := requestExpiry started (so_ttl l) in
  r ← redis (acquire_request l);
  match call_Int64 r with
  | CNil => mret (l, (0, Some ErrBusy))
  | CErr e => mret (l, (0, Some e))
  | COk res =>
      now ← time_now;
      if negb (After deadline now) then
        '(l, e) ← discardLateGrant (Release l);
        mret (l, (0, e))
      else mret (set_expiresAt deadline l, (to_uint64 res, None))
  end.

Definition Acquire (l : SingleOwner) : go S (SingleOwner * option error) :=
  '(l, (_, e)) ← TryAcquire l;
  mret (l, e).

Definition Renew (l : SingleOwner) : go S (SingleOwner * option error) :=
  started ← time_now;
  let deadline := requestExpiry started (so_ttl l) in
  r ← redis (renew_request l);
  match call_Int64 r with
  | CErr e => mret (l, Some e)
  | CNil => mret (l, Some (ErrRedis "redis: nil"))
  | COk ok =>
      if negb (ok =? 1) then mret (l, Some ErrLost)
      else
        now1 ← time_now;
        if negb (After (so_expiresAt l) now1) then mret (l, Some ErrLost)
        else
          now2 ← time_now;
          if negb (After deadline now2) then mret (l, Some ErrLost)
          else if After deadline (so_expiresAt l) then mret (set_expiresAt deadline l, None)
          else mret (l, None)
  end.

Definition Held (l : SingleOwner) : go S (bool * option error) :=
  r ← redis (Command (GET (so_key l)));
  mret match call_Text r with
  | CNil => (false, None)
  | CErr e => (false, Some e)
  | COk val => (bool_decide (val = so_id l), None)
  end.

#[export] Instance single_lease : Lease S SingleOwner := {|
  lease_ID := so_id;
  lease_Acquire := Acquire;
  lease_Renew := Renew;
  lease_Release := Release;
  lease_Held := Held;
  lease_ExpiresAt := so_expiresAt;
|}.

End ops.

(** ** The other users of the key

    [rival K F id r]: a request that another holder or contender of the same
    lock makes, that is, with another owner token.  The key may be the writer
    key of a read-write lock, whose holders renew and release it with the
    same scripts.  [rely]: every request on
    the two keys of the lock is a rival's. *)
Definition rival (K F id : string) (r : request) : Prop :=
  match r with
  | SingleAcquire k f t _ _ => k = K ∧ f = F ∧ t ≠ id
  | SingleRenew k t _ | SingleRelease k t => k = K ∧ t ≠ id
  | RWWriteLock KK t _ _ _ => NoDup (rw_keys KK) ∧ Writer KK = K ∧ Fencing KK = F ∧ t ≠ id
  | RWReadLock KK _ _ _ _ => NoDup (rw_keys KK) ∧ Writer KK = K ∧ Fencing KK = F
  | Command (GET k) => k = K
  | _ => False
  end.

Definition rely (K F id : string) (r : request) : Prop :=
  ((K ∉ request_keys r) ∧ (F ∉ request_keys r)) ∨ rival K F id r.

(** The fencing counter: absent, or a number without expiry. *)
Definition counter (m : keyspace) (F : string) (n : Z) : Prop :=
  0 ≤ n ∧ n ≤ int64_max ∧
  (m !! F = Some (Entry (VStr (itoa n)) None) ∨ (m !! F = None ∧ n = 0)).

(** A counter that is there. *)
Definition minted (m : keyspace) (F : string) : Prop := ∃ n, m !! F = Some (Entry (VStr (itoa n)) None).

Section serving.
Context (now : Z) (K F id : string) (HKF : K ≠ F).
Implicit Types (m : keyspace).

(** Minting a token. *)
Lemma mint_run m n :
  counter m F n → n < int64_max →
  run_ref now (n ← call_int (INCRBY F 1); mret (lua_int n)) m =
  (inr (lua_int (n + 1)), <[F := Entry (VStr (itoa (n + 1))) None]> m).
Proof.
  intros (? & ? & [HF|[HF ->]]) ?; simpl; unfold ref_incrby; rewrite HF; [|done].
  rewrite atoi_itoa, !(proj2 (in_int64_spec _)) by (unfold int64_min, int64_max in *; lia). done.
Qed.

Lemma mint_overflow m n :
  counter m F n → n = int64_max →
  ∃ e, run_ref now (n ← call_int (INCRBY F 1); mret (lua_int n)) m = (inl e, m).
Proof.
  intros (? & ? & [HF|[HF ?]]) ->; simpl; unfold ref_incrby; rewrite HF; [|done].
  rewrite atoi_itoa; eexists; vm_compute; reflexivity.
Qed.

(** An attempt to acquire: the owner's retry, a refusal or an error that
    changes nothing, or a new grant with the next token. *)
Lemma serve_acquire `{LN : !LuaNumbers} m n t ttl flag :
  counter m F n →
  let x := serve_ref now (SingleAcquire K F t ttl flag) m in
  (∃ e, owned m K t e ∧ x.2 = m ∧
        (flag = "1" → minted m F → x.1 = lua_int n) ∧ (flag ≠ "1" → x.1 = RInt 0)) ∨
  ((∀ e, ¬ owned m K t e) ∧ x.2 = m ∧ (x.1 = RNil ∨ ∃ e, x.1 = RErr e)) ∨
  (m !! K = None ∧ 0 < ttl ∧ owned x.2 K t (Some (now + ttl)) ∧
   (flag = "1" → n < int64_max → x.1 = lua_int (n + 1) ∧ counter x.2 F (n + 1) ∧ minted x.2 F) ∧
   (flag = "1" → n = int64_max → is_err x.1 = true ∧ counter x.2 F n ∧ minted x.2 F) ∧
   (flag ≠ "1" → x.1 = RInt 0 ∧ x.2 !! F = m !! F)).
Proof.
  intros Hc; unfold serve_ref; cbn [request_script request_fuel].
  destruct (m !! K) as [[v e]|] eqn:EK.
  - destruct (decide (v = VStr t)) as [->|Hv].
    + left; exists e; split; [done|].
      pose proof (single_acquire_owned now K F t ttl flag m e EK) as Hm.
      destruct (run_ref _ _ m) as [y m'] eqn:Er; simpl in *; subst m'; split; [done|].
      simpl in Er; unfold ref_get in Er; rewrite EK in Er; simpl in Er.
      rewrite bool_decide_eq_true_2 in Er by done.
      split; intros Hfl; case_bool_decide; try done; simpl in Er; [|by simplify_eq/=].
      intros [n' HF]; unfold ref_get in Er; rewrite HF in Er; simpl in Er.
      destruct Hc as (_ & _ & [HF'|[HF' _]]); [|congruence].
      assert (n' = n) as -> by (rewrite HF' in HF; by simplify_eq).
      simpl in Er; rewrite atoi_itoa in Er; by simplify_eq/=.
    + right; left. split; [intros e' He'; unfold owned in He'; congruence|].
      simpl; unfold ref_get; rewrite EK; destruct v as [v| |]; simpl; [|eauto..].
      rewrite bool_decide_eq_false_2 by congruence; simpl; unfold ref_set.
      destruct (_ || _); simpl; [eauto|].
      rewrite bool_decide_eq_true_2 by (rewrite EK; eauto); simpl; auto.
  - destruct ((ttl <=? 0) || negb (in_int64 (now + ttl))) eqn:Eok.
    + right; left. split; [intros e' He'; unfold owned in He'; congruence|].
      simpl; unfold ref_get; rewrite EK; simpl; unfold ref_set; rewrite Eok; simpl; eauto.
    + right; right. to_prop. split; [done|split; [lia|]].
      rewrite single_acquire_free by (done || lia); cbn zeta.
      set (m1 := <[K := _]> m).
      assert (counter m1 F n) as Hc1
        by (unfold counter, m1; rewrite lookup_insert_ne by done; exact Hc).
      assert (owned m1 K t (Some (now + ttl))) as Ho by (unfold owned, m1; by rewrite lookup_insert_eq).
      case_bool_decide as Hfl; [|simpl; unfold m1; by rewrite lookup_insert_ne].
      destruct (decide (n = int64_max)) as [->|Hn].
      * destruct (mint_overflow m1 _ Hc1 eq_refl) as [err ->]; simpl.
        split; [done|split; [lia|split; [|done]]].
        intros _ _; split; [done|split; [done|]].
        destruct Hc1 as (_ & _ & [?|[_ ?]]); [by eexists|done].
      * rewrite (mint_run m1 n) by (done || (destruct Hc1; lia)); simpl.
        split; [unfold owned; by rewrite lookup_insert_ne|].
        split; [|done]. intros _ ?; split; [done|].
        unfold counter, minted; rewrite lookup_insert_eq.
        destruct Hc1 as (? & ? & _); split; [split; [lia|split; [lia|by left]]|by eexists].
Qed.

(** Whatever the counter, an attempt leaves the lock as it is or takes a
    free one. *)
Lemma acquire_lock `{LN : !LuaNumbers} m t ttl flag :
  let m' := (serve_ref now (SingleAcquire K F t ttl flag) m).2 in
  m' !! K = m !! K ∨ (m !! K = None ∧ owned m' K t (Some (now + ttl))).
Proof.
  unfold serve_ref; cbn [request_script request_fuel].
  destruct (m !! K) as [[v e]|] eqn:EK.
  - left. simpl; unfold ref_get; rewrite EK; destruct v as [v| |]; simpl; [|done..].
    case_bool_decide as Hv; [simplify_eq; case_bool_decide; simpl; [|done]|].
    + unfold ref_get; repeat case_match; by simplify_eq/=.
    + simpl; unfold ref_set; destruct ((ttl <=? 0) || _); simpl; [done|].
      by rewrite bool_decide_eq_true_2 by (rewrite EK; eauto).
  - destruct ((ttl <=? 0) || negb (in_int64 (now + ttl))) eqn:Eok.
    + left. simpl; unfold ref_get; rewrite EK; simpl; unfold ref_set; by rewrite Eok.
    + right; split; [done|]. to_prop. rewrite single_acquire_free by (done || lia); cbn zeta.
      case_bool_decide; [|simpl; unfold owned; by rewrite lookup_insert_eq].
      pose proof (run_ref_frame (λ k, k = F) now (n ← call_int (INCRBY F 1); mret (lua_int n))
        (<[K := Entry (VStr t) (Some (now + ttl))]> m) K) as Hfr.
      destruct (run_ref _ _ _) as [y m']; simpl in *; unfold owned.
      rewrite Hfr by (repeat split; done). by rewrite lookup_insert_eq.
Qed.

(** The attempts of a read-write lock's users. *)
Lemma rw_lock_step `{LN : !LuaNumbers} m KK t ttl now' wt :
  NoDup (rw_keys KK) →
  let m' := (serve_ref now (RWWriteLock KK t ttl now' wt) m).2 in
  lock_same KK m m' ∨ lock_taken KK now t ttl m m' ∧ 0 < ttl.
Proof.
  intros HK. unfold serve_ref; cbn [request_script].
  pose proof (write_lock_effect KK now HK (request_fuel m (RWWriteLock KK t ttl now' wt)) t ttl now' wt m) as H.
  by destruct (run_ref now _ m).
Qed.

Lemma rw_read_lock_step `{LN : !LuaNumbers} m KK t ttl now' wt :
  NoDup (rw_keys KK) → lock_same KK m (serve_ref now (RWReadLock KK t ttl now' wt) m).2.
Proof.
  intros HK. unfold serve_ref; cbn [request_script].
  pose proof (read_lock_effect KK now HK (request_fuel m (RWReadLock KK t ttl now' wt)) t ttl now' wt m) as H.
  by destruct (run_ref now _ m).
Qed.

(** What a request within the rely condition cannot do. *)
Lemma rely_owner `{LN : !LuaNumbers} m r x :
  rely K F id r → owned m K id x → (serve_ref now r m).2 !! K = m !! K.
Proof.
  intros [[HK _]|Hriv] Ho; [by apply serve_ref_frame|].
  destruct r as [k f t ttl fl|k t ttl|k t| | | |KK t ttl now' wt|KK t ttl now' wt|c| | | |]; simpl in Hriv; try done.
  - destruct Hriv as (-> & -> & ?). destruct (acquire_lock m t ttl fl) as [?|[? _]]; [done|].
    unfold owned in Ho; congruence.
  - destruct Hriv as (-> & ?). unfold serve_ref; cbn [request_script request_fuel].
    pose proof (single_renew_other now K t ttl m) as Hm.
    destruct (run_ref _ _ m); simpl in *; rewrite Hm; [done|].
    unfold owned in *; congruence.
  - destruct Hriv as (-> & ?). unfold serve_ref; cbn [request_script request_fuel].
    pose proof (single_release_other now K t m) as Hm.
    destruct (run_ref _ _ m); simpl in *; rewrite Hm; [done|].
    unfold owned in *; congruence.
  - destruct Hriv as (HK & <- & _ & ?). destruct (rw_lock_step m KK t ttl now' wt HK) as [[-> _]|[[Hn _] _]]; [done|].
    unfold owned in Ho; congruence.
  - destruct Hriv as (HK & <- & _). by destruct (rw_read_lock_step m KK t ttl now' wt HK) as [-> _].
  - destruct c; try done; subst. unfold serve_ref; simpl; unfold ref_get; repeat case_match; by simplify_eq/=.
Qed.

(** A renewal or a release touches the lock only for its owner, and the
    counter never. *)
Lemma renew_lock `{LN : !LuaNumbers} m t ttl :
  let m' := (serve_ref now (SingleRenew K t ttl) m).2 in
  m' = m ∨ ∃ x, owned m K t x ∧ (0 < ttl → m' = <[K := Entry (VStr t) (Some (now + ttl))]> m) ∧
                (ttl ≤ 0 → m' = delete K m).
Proof.
  unfold serve_ref; simpl; unfold ref_get.
  destruct (m !! K) as [[[v| |] e]|] eqn:EK; simpl; auto.
  case_bool_decide; simplify_eq; simpl; [|auto].
  right; exists e; split; [done|]. unfold ref_pexpire; rewrite EK.
  destruct (Z.leb_spec ttl 0); simpl; split; intros; done || lia.
Qed.

Lemma release_lock `{LN : !LuaNumbers} m t :
  let m' := (serve_ref now (SingleRelease K t) m).2 in
  m' = m ∨ ∃ x, owned m K t x ∧ m' = delete K m.
Proof.
  unfold serve_ref; simpl; unfold ref_get.
  destruct (m !! K) as [[[v| |] e]|] eqn:EK; simpl; auto.
  case_bool_decide; simplify_eq; simpl; [|auto].
  right; exists e; split; [done|]. unfold ref_del; by rewrite EK.
Qed.

Lemma rely_not_owner `{LN : !LuaNumbers} m r :
  rely K F id r → (∀ x, ¬ owned m K id x) → ∀ x, ¬ owned (serve_ref now r m).2 K id x.
Proof.
  intros [[HK _]|Hriv] Ho x; [unfold owned; rewrite serve_ref_frame by done; apply Ho|].
  destruct r as [k f t ttl fl|k t ttl|k t| | | |KK t ttl now' wt|KK t ttl now' wt|c| | | |]; simpl in Hriv; try done.
  - destruct Hriv as (-> & -> & ?). unfold owned in *.
    destruct (acquire_lock m t ttl fl) as [->|[_ Ht]]; [apply Ho|].
    unfold owned in Ht; rewrite Ht; congruence.
  - destruct Hriv as (-> & ?). destruct (renew_lock m t ttl) as [->|(y & _ & H1 & H2)]; [apply Ho|].
    unfold owned in *; destruct (decide (0 < ttl));
      [rewrite H1 by done; rewrite lookup_insert_eq; congruence
      |rewrite H2 by lia; by rewrite lookup_delete_eq].
  - destruct Hriv as (-> & ?). destruct (release_lock m t) as [->|(y & _ & ->)]; [apply Ho|].
    unfold owned; by rewrite lookup_delete_eq.
  - destruct Hriv as (HK & <- & _ & ?). unfold owned in *.
    destruct (rw_lock_step m KK t ttl now' wt HK) as [[-> _]|[(_ & Ht & _) _]]; [apply Ho|].
    unfold owned in Ht; rewrite Ht; congruence.
  - destruct Hriv as (HK & <- & _). unfold owned.
    destruct (rw_read_lock_step m KK t ttl now' wt HK) as [-> _]. apply Ho.
  - destruct c; try done; subst. unfold serve_ref; simpl; unfold ref_get.
    repeat case_match; simplify_eq/=; apply Ho.
Qed.

(** The counter after an increment that may fail. *)
Lemma incr_counter m m' n k :
  m !! k = None → m' !! F = (ref_incrby F 1 m).2 !! F → counter m F n →
  ∃ n', n ≤ n' ∧ counter m' F n' ∧ (minted m F → minted m' F) ∧ (∀ x, owned m k id x → n' = n).
Proof.
  intros Hk E (? & ? & Hn). assert (∀ n' x, owned m k id x → n' = n) as Hno by (unfold owned; congruence).
  unfold counter, minted. rewrite E; unfold ref_incrby. destruct Hn as [HF|[HF ->]]; rewrite HF.
  - rewrite atoi_itoa, (proj2 (in_int64_spec n)) by (unfold int64_min; lia).
    destruct (in_int64 (n + 1)) eqn:Ein; cbn.
    + rewrite lookup_insert_eq. apply in_int64_spec in Ein. exists (n + 1).
      split; [lia|split; [split; [lia|split; [lia|by left]]|split; [by eexists|apply Hno]]].
    + rewrite HF. exists n. split; [lia|split; [split; [done|split; [done|by left]]|split; [by eexists|apply Hno]]].
  - cbn. rewrite lookup_insert_eq. exists 1.
    split; [lia|split; [split; [lia|split; [unfold int64_max; lia|by left]]|split; [by exists 1|apply Hno]]].
Qed.

Lemma rely_counter `{LN : !LuaNumbers} m n r :
  rely K F id r → counter m F n →
  ∃ n', n ≤ n' ∧ counter (serve_ref now r m).2 F n' ∧ (minted m F → minted (serve_ref now r m).2 F) ∧
        (∀ x, owned m K id x → n' = n).
Proof.
  intros [[_ HF]|Hriv] Hc.
  { exists n; unfold counter, minted; rewrite serve_ref_frame by done; auto with lia. }
  assert (∀ m', m' !! F = m !! F → ∃ n', n ≤ n' ∧ counter m' F n' ∧
    (minted m F → minted m' F) ∧ (∀ x, owned m K id x → n' = n)) as Hsame.
  { intros m' E; exists n; unfold counter, minted; rewrite E; auto with lia. }
  destruct r as [k f t ttl fl|k t ttl|k t| | | |KK t ttl now' wt|KK t ttl now' wt|c| | | |]; simpl in Hriv; try done.
  - destruct Hriv as (-> & -> & ?).
    destruct (serve_acquire m n t ttl fl Hc) as [(e & _ & E & _)|[(_ & E & _)|(HK & _ & _ & H1 & H2 & H3)]];
      [apply Hsame; by rewrite E..|].
    assert (∀ n' x, owned m K id x → n' = n) by (unfold owned; congruence).
    destruct (decide (fl = "1")) as [->|]; [destruct (decide (n < int64_max))|].
    + destruct H1 as (_ & ? & ?); [done..|]. exists (n + 1); eauto with lia.
    + destruct Hc as (? & ? & _). destruct H2 as (_ & ? & ?); [done|lia|]. exists n; eauto with lia.
    + destruct H3 as (_ & E); [done|]. by apply Hsame.
  - destruct Hriv as (-> & ?). apply Hsame.
    destruct (renew_lock m t ttl) as [->|(y & _ & H1 & H2)]; [done|].
    destruct (decide (0 < ttl)); [rewrite H1 by done|rewrite H2 by lia].
    + by rewrite lookup_insert_ne. + by rewrite lookup_delete_ne.
  - destruct Hriv as (-> & ?). apply Hsame.
    destruct (release_lock m t) as [->|(y & _ & ->)]; [done|]. by rewrite lookup_delete_ne.
  - destruct Hriv as (HK & EK & EF & ?).
    destruct (rw_lock_step m KK t ttl now' wt HK) as [[_ E]|[(HK0 & _ & E) _]]; rewrite EF in E; [by apply Hsame|].
    destruct E as [E|E]; [by apply Hsame|]. rewrite EK in HK0. exact (incr_counter m _ n _ HK0 E Hc).
  - destruct Hriv as (HK & _ & EF). apply Hsame. rewrite <- EF. apply (rw_read_lock_step m KK t ttl now' wt HK).
  - destruct c; try done; subst. apply Hsame. unfold serve_ref; simpl; unfold ref_get.
    repeat case_match; by simplify_eq/=.
Qed.
End serving.

(** ** The lease under interference *)
Section spec.
Context {S : Type} `{!RedisOps S, !RedisLaws S}.
Implicit Types (s : S) (l : SingleOwner).

Definition so_rely (l : SingleOwner) : request → Prop := rely (so_key l) (so_fkey l) (so_id l).

(** The keys of a lease and its duration are as [Client.Mutex] builds them. *)
Definition so_wf (l : SingleOwner) : Prop := so_key l ≠ so_fkey l ∧ whole_ms (so_ttl l).

Definition counter_ge (F : string) (n0 : Z) (s : S) : Prop :=
  ∃ n, n0 ≤ n ∧ counter (r_view s) F n.

(** Not held, and at least [n0] tokens minted so far. *)
Definition so_free (l : SingleOwner) (n0 : Z) (s : S) : Prop :=
  not_owned (so_key l) (so_id l) s ∧ counter_ge (so_fkey l) n0 s.

(** The invariant of a held lease: the server backs the local deadline. *)
Definition so_held (l : SingleOwner) (s : S) (c : Z) : Prop :=
  covered (so_key l) (so_id l) (so_expiresAt l) s c ∧
  so_expiresAt l ≤ requestExpiry c (so_ttl l).

(** While the lease is the owner, the counter stays at its token. *)
Definition fence_is (l : SingleOwner) (f : Z) (s : S) : Prop :=
  ∀ x, owned (r_view s) (so_key l) (so_id l) x →
       minted (r_view s) (so_fkey l) ∧ counter (r_view s) (so_fkey l) f.

Lemma counter_tick m ex clock F n : counter m F n → counter (live_keys ex clock m) F n.
Proof.
  intros (? & ? & H); repeat split; [done..|]. unfold live_keys.
  destruct H as [H|[H ->]]; [left|right; split; [|done]].
  - by apply map_lookup_filter_Some.
  - apply map_lookup_filter_None; by left.
Qed.
Lemma minted_tick m ex clock F : minted m F → minted (live_keys ex clock m) F.
Proof. intros [n H]; exists n; unfold live_keys; by apply map_lookup_filter_Some. Qed.

Lemma counter_unique m F n n' : counter m F n → counter m F n' → n = n'.
Proof.
  intros (_ & _ & [H|[H ->]]) (_ & _ & [H'|[H' ->]]); try congruence.
  rewrite H in H'; by simplify_eq.
Qed.

Lemma stable_counter l n0 : so_key l ≠ so_fkey l → stable (so_rely l) (λ s _, counter_ge (so_fkey l) n0 s).
Proof.
  intros HKF; split.
  - intros s c r Hr (n & Hn & Hc). unfold counter_ge; rewrite serve_view.
    destruct (rely_counter (r_clock s) _ _ _ HKF _ n r Hr Hc) as (n' & ? & ? & _).
    exists n'; split; [lia|done].
  - intros s c dc ds _ (n & Hn & Hc). exists n; split; [done|].
    rewrite law_tick_view; by apply counter_tick.
Qed.

Lemma so_keep l s r x :
  so_key l ≠ so_fkey l → so_rely l r → owned (r_view s) (so_key l) (so_id l) x →
  owned (r_view (serve r s).2) (so_key l) (so_id l) x.
Proof. intros ? Hr Ho; unfold owned; rewrite serve_view; by erewrite rely_owner. Qed.

Lemma so_not l s r :
  so_key l ≠ so_fkey l → so_rely l r → not_owned (so_key l) (so_id l) s →
  not_owned (so_key l) (so_id l) (serve r s).2.
Proof. intros ? Hr Ho x; rewrite serve_view; by eapply rely_not_owner. Qed.

Lemma stable_fence l f : so_key l ≠ so_fkey l → stable (so_rely l) (λ s _, fence_is l f s).
Proof.
  intros HKF; split.
  - intros s c r Hr Hf x Ho.
    assert (∃ y, owned (r_view s) (so_key l) (so_id l) y) as [y Hy].
    { destruct (r_view s !! so_key l) as [[[v| |] y]|] eqn:E;
        [destruct (decide (v = so_id l)) as [->|]; [by exists y|]|..];
        exfalso; apply (so_not l s r HKF Hr) in Ho; try done;
        intros x'; unfold owned; rewrite E; congruence. }
    destruct (Hf y Hy) as [Hm Hc]; rewrite serve_view.
    destruct (rely_counter (r_clock s) _ _ _ HKF _ f r Hr Hc) as (n' & _ & ? & ? & Hn').
    rewrite (Hn' y Hy) in *; auto.
  - intros s c dc ds _ Hf x Ho. apply tick_only_drops in Ho.
    destruct (Hf x Ho); rewrite law_tick_view; split; [by apply minted_tick|by apply counter_tick].
Qed.

Lemma stable_so_not_owned l :
  so_key l ≠ so_fkey l → stable (so_rely l) (λ s _, not_owned (so_key l) (so_id l) s).
Proof. intros; apply stable_not_owned; eauto using so_not. Qed.

Lemma stable_so_covered l d :
  so_key l ≠ so_fkey l → stable (so_rely l) (covered (so_key l) (so_id l) d).
Proof. intros; apply stable_covered; eauto using so_keep. Qed.

Lemma requestExpiry_mono a b ttl : a ≤ b → requestExpiry a ttl ≤ requestExpiry b ttl.
Proof. unfold requestExpiry; lia. Qed.

Lemma stable_so_held l : so_key l ≠ so_fkey l → stable (so_rely l) (so_held l).
Proof.
  intros; apply stable_and; [by apply stable_so_covered|].
  split; [done|]. unfold requestExpiry; intros s c dc ds (? & ? & ?) ?; lia.
Qed.

Lemma stable_so_free l n0 : so_key l ≠ so_fkey l → stable (so_rely l) (λ s _, so_free l n0 s).
Proof. intros; apply stable_and; [by apply stable_so_not_owned|by apply stable_counter]. Qed.
End spec.

#[export] Hint Resolve stable_counter stable_fence stable_so_not_owned stable_so_covered
  stable_so_held stable_so_free : distsync.

Section triples.
Context {S : Type} `{!RedisOps S, !RedisLaws S}.
Context (l : SingleOwner) (Hwf : so_wf l).
Implicit Types (s : S) (c : Z).

Let HKF : so_key l ≠ so_fkey l := proj1 Hwf.
Let Httl : whole_ms (so_ttl l) := proj2 Hwf.

(** What a grant of the attempt started at [start] is worth: the reply [z]
    carries the token [f], newer than the first [n0] ones. *)
Definition so_grant (start n0 z : Z) (s : S) (c : Z) : Prop :=
  covered (so_key l) (so_id l) (requestExpiry start (so_ttl l)) s c ∧
  (so_fencing l = true →
     ∃ f, z = double_of_Z f ∧ (f ≤ 2 ^ 53 → n0 < f) ∧ counter_ge (so_fkey l) f s ∧ fence_is l f s) ∧
  (so_fencing l = false → z = 0).

Definition attempt (start n0 : Z) (r : reply) (s : S) (c : Z) : Prop :=
  (start ≤ c ∧ counter_ge (so_fkey l) n0 s) ∧
  match r with
  | RInt z => so_grant start n0 z s c
  | RNil => not_owned (so_key l) (so_id l) s
  | RErr _ => not_owned (so_key l) (so_id l) s ∨ ∃ z, so_grant start n0 z s c
  | _ => False
  end.

Lemma stable_grant start n0 z : stable (so_rely l) (so_grant start n0 z).
Proof.
  apply stable_and; [by apply stable_so_covered|]. apply stable_and.
  - split.
    + intros s c r Hr Hf E. destruct (Hf E) as (f & ? & ? & Hc & Hi). exists f.
      split; [done|split; [done|]]. split.
      * by eapply (proj1 (stable_counter l f HKF)).
      * by eapply (proj1 (stable_fence l f HKF)).
    + intros s c dc ds Hd Hf E. destruct (Hf E) as (f & ? & ? & Hc & Hi). exists f.
      split; [done|split; [done|]]. split.
      * by eapply (proj2 (stable_counter l f HKF)).
      * by eapply (proj2 (stable_fence l f HKF)).
  - apply stable_pure.
Qed.

Lemma stable_attempt start n0 r : stable (so_rely l) (attempt start n0 r).
Proof.
  apply stable_and; [apply stable_and; [apply stable_since|by apply stable_counter]|].
  destruct r; eauto using stable_grant, stable_or, stable_exists, stable_so_not_owned, stable_pure.
Qed.

(** Serving the attempt's request, for the first time or again. *)
Lemma serve_attempt start n0 s c :
  start ≤ c → counter_ge (so_fkey l) n0 s →
  not_owned (so_key l) (so_id l) s ∨ (∃ z, so_grant start n0 z s c) →
  attempt start n0 (serve (acquire_request l) s).1 (serve (acquire_request l) s).2 c.
Proof.
  intros Hc (n & Hn & Hcnt) Hst.
  pose proof (serve_acquire (r_clock s) _ _ HKF _ n (so_id l) (Milliseconds (so_ttl l))
    (fencing_flag (so_fencing l)) Hcnt) as H.
  fold (acquire_request l) in H; cbn zeta in H.
  rewrite <- serve_view, <- serve_reply in H.
  pose proof (serve_time (acquire_request l) s) as Ht.
  destruct (serve (acquire_request l) s) as [r s']; cbn [fst snd] in *.
  destruct H as [(e & Ho & Hv & Hf1 & Hf0)|[(Hno & Hv & Hr)|(HK & Hms & Ho & H1 & H2 & H3)]].
  - (* the owner's retry *)
    destruct Hst as [Hno|[z Hg]]; [by destruct (Hno e)|].
    assert (r = RInt z) as ->.
    { destruct Hg as (_ & Hft & Hff); destruct (so_fencing l); simpl in *.
      - destruct Hft as (f & -> & _ & _ & Hi); [done|]. destruct (Hi e Ho) as [Hm Hcf].
        rewrite Hf1 by done. by rewrite (counter_unique _ _ _ _ Hcnt Hcf).
      - rewrite (Hff eq_refl); by apply Hf0. }
    split; [split; [done|]; exists n; by rewrite Hv|].
    revert Hg; unfold so_grant, covered, counter_ge, fence_is, until_covers; by rewrite Hv, Ht.
  - assert (not_owned (so_key l) (so_id l) s') by (unfold not_owned; by rewrite Hv).
    split; [split; [done|]; exists n; by rewrite Hv|]. destruct Hr as [->|[e ->]]; auto.
  - (* a new grant *)
    assert (covered (so_key l) (so_id l) (requestExpiry start (so_ttl l)) s' c) as Hcov.
    { intros _; exists (r_clock s + Milliseconds (so_ttl l)); split; [done|].
      unfold until_covers; rewrite Ht; by apply request_covers. }
    destruct (so_fencing l) eqn:Ef; simpl in *.
    + destruct (decide (n < int64_max)) as [Hlt|Hge].
      * destruct H1 as (-> & Hc1 & Hm1); [done..|].
        split; [split; [done|]; exists (n + 1); split; [lia|done]|].
        split; [done|split; [intros _|congruence]].
        exists (n + 1); split; [done|split; [lia|split; [by exists (n + 1)|]]]. by intros x _.
      * destruct Hcnt as (Hn0 & Hmax & _). destruct H2 as (He & Hc1 & Hm1); [done|lia|].
        split; [split; [done|]; by exists n|].
        destruct r; try done. right; exists (double_of_Z n).
        split; [done|split; [intros _|congruence]].
        exists n; split; [done|split; [unfold int64_max in *; lia|split; [by exists n|]]]. by intros x _.
    + destruct H3 as (-> & HF); [done|].
      split; [split; [done|]; exists n; unfold counter; by rewrite HF|].
      split; [done|split; [congruence|done]].
Qed.

(** What the caller of [TryAcquire] gets. *)
Definition acquired (n0 : Z) (x : SingleOwner * (Z * option error)) (s : S) (c : Z) : Prop :=
  let '(l', (z, e)) := x in
  match e with
  | None =>
      l' = set_expiresAt (so_expiresAt l') l ∧ so_held l' s c ∧ counter_ge (so_fkey l) n0 s ∧
      (so_fencing l = true →
         ∃ f, z = to_uint64 (double_of_Z f) ∧ (f ≤ 2 ^ 53 → n0 < f) ∧ counter_ge (so_fkey l) f s) ∧
      (so_fencing l = false → z = 0)
  | Some ErrBusy => l' = l ∧ so_free l n0 s
  | Some e => errors_Is e ErrBusy = false
  end.

(** [Release] gives the key up when the server answered: afterwards the
    token is not on it any more. *)
Definition released (x : SingleOwner * option error) (s : S) (c : Z) : Prop :=
  is_error x.2 ErrBusy = false ∧
  (x.2 = None ∨ x.2 = Some ErrLost → not_owned (so_key l) (so_id l) s).

Lemma serve_release s : not_owned (so_key l) (so_id l) (serve (release_request l) s).2.
Proof.
  intros x; rewrite serve_view. unfold release_request, serve_ref; simpl; unfold ref_get.
  destruct (r_view s !! so_key l) as [[[v| |] y]|] eqn:E; simpl;
    try (unfold owned; rewrite E; congruence).
  case_bool_decide; simpl; [|unfold owned; rewrite E; congruence].
  unfold ref_del; rewrite E; unfold owned; simpl; by rewrite lookup_delete_eq.
Qed.

Lemma Release_triple : triple (so_rely l) (λ _ _, True) (Release l) released.
Proof.
  unfold Release. eapply triple_bind.
  { apply (triple_redis _ _ (λ _ s _, not_owned (so_key l) (so_id l) s));
      [apply stable_pure|intros; by apply stable_so_not_owned|].
    intros; apply serve_release. }
  intros [e|r]; simpl.
  - eapply triple_pre; [apply triple_ret|]. intros s c [[n ->] _]; simpl.
    split; [by destruct n|]. by destruct n; intros [?|?].
  - eapply triple_pre; [apply triple_ret|]. intros s c Hno; simpl.
    split; [|by intros]. destruct (Int64 r) eqn:E; try case_match; try done.
    simpl; by eapply Int64_err; [left|].
Qed.

Lemma discard_triple :
  triple (so_rely l) (λ _ _, True) (discardLateGrant (Release l))
    (λ x _ _, is_error x.2 ErrLost = true ∧ is_error x.2 ErrBusy = false).
Proof.
  unfold discardLateGrant. eapply triple_bind; [apply Release_triple|].
  intros [l' e]. eapply triple_pre; [apply triple_ret|].
  intros s c [Hb _]; simpl in *. destruct e; simpl in *; by rewrite ?Hb.
Qed.

Lemma discard_any R : triple R (λ (_ : S) _, True) (discardLateGrant (Release l)) (λ _ _ _, True).
Proof.
  unfold discardLateGrant, Release.
  eapply (triple_bind _ _ _ _ (λ _ _ _, True)); [|intros [l' e]; apply triple_keep].
  eapply triple_bind; [apply triple_redis_any|]. intros; apply triple_keep.
Qed.

(** The shape of an acquisition: a request stamped with the time, and a grant
    that is given back if it came too late. *)
Definition acquire_with (mk : Z → request) : go S (SingleOwner * (Z * option error)) :=
  started ← time_now;
  let deadline := requestExpiry started (so_ttl l) in
  r ← redis (mk started);
  match call_Int64 r with
  | CNil => mret (l, (0, Some ErrBusy))
  | CErr e => mret (l, (0, Some e))
  | COk res =>
      now ← time_now;
      if negb (After deadline now) then
        '(l, e) ← discardLateGrant (Release l);
        mret (l, (0, e))
      else mret (set_expiresAt deadline l, (to_uint64 res, None))
  end.

(** Such an acquisition, under any interference of the other users of the key
    that keeps the invariant [J] of the server the request relies on. *)
Lemma acquire_with_triple n0 (mk : Z → request) (R' : request → Prop) (J : S → Prop) :
  stable R' (λ s _, J s) →
  (∀ start s c, start ≤ c → J s → counter_ge (so_fkey l) n0 s →
     not_owned (so_key l) (so_id l) s ∨ (∃ z, so_grant start n0 z s c) →
     attempt start n0 (serve (mk start) s).1 (serve (mk start) s).2 c ∧ J (serve (mk start) s).2) →
  triple (λ r, so_rely l r ∧ R' r) (λ s _, so_free l n0 s ∧ J s) (acquire_with mk) (acquired n0).
Proof.
  intros HJ Hserve. set (R := λ r, so_rely l r ∧ R' r).
  assert (∀ I : S → Z → Prop, stable (so_rely l) I → stable R I) as HR.
  { intros I; apply stable_weaken; by intros r [? _]. }
  assert (stable R (λ s _, J s)) as HJR by (eapply stable_weaken; [|exact HJ]; by intros r [_ ?]).
  assert (∀ start r, stable R (λ s c, attempt start n0 r s c ∧ J s)) as Hatt.
  { intros; apply stable_and; [apply HR, stable_attempt|exact HJR]. }
  unfold acquire_with. eapply triple_bind.
  { apply triple_time_now, stable_and; [by apply HR, stable_so_free|exact HJR]. }
  intros start; cbn beta. eapply triple_bind.
  { eapply triple_pre; [apply (triple_redis _ (λ s c, start ≤ c ∧ so_free l n0 s ∧ J s)
      (λ r s c, attempt start n0 r s c ∧ J s))|].
    - apply stable_and; [apply stable_since|apply stable_and; [by apply HR, stable_so_free|exact HJR]].
    - apply Hatt.
    - intros s c [(? & [Hno ?] & ?)|[r [[[? ?] Hr] ?]]]; [by apply Hserve; auto|].
      apply Hserve; [done..|]. destruct r; naive_solver.
    - intros s c [[? ?] ->]; split; [lia|done]. }
  intros [e|r]; cbn beta iota.
  { eapply triple_pre; [apply triple_ret|]. intros s c [[n ->] _]; by destruct n. }
  simpl call_Int64. destruct (Int64 r) as [z| |e] eqn:E.
  - (* granted by the server *)
    eapply triple_bind; [apply triple_time_now, Hatt|].
    intros now; cbn beta. destruct (negb (After _ now)) eqn:Elate.
    + eapply triple_bind.
      { eapply triple_pre; [apply (triple_combine (so_rely l) R' (λ _ _, True) (λ _ _, True)); [apply discard_triple|]|done].
        apply discard_any. }
      intros [l' e]. eapply triple_pre; [apply triple_ret|]. intros s c [[Hl Hb] _]; simpl in *.
      destruct e as [e|]; [by destruct e|done].
    + eapply triple_pre; [apply triple_ret|]. intros s c [[[[Hc Hcnt] Hr] _] ->]; simpl.
      destruct r; try done; simplify_eq/=.
      destruct Hr as (Hcov & Hf1 & Hf0). split; [done|].
      split; [split; [done|by apply requestExpiry_mono]|].
      split; [done|split; [|by intros ->%Hf0]].
      intros (f & -> & ? & ? & _)%Hf1; exists f; auto.
  - eapply triple_pre; [apply triple_ret|]. intros s c [[[? ?] Hr] _]; destruct r; try done.
  - eapply triple_pre; [apply triple_ret|]. intros s c _; simpl.
    pose proof (Int64_err r e ErrBusy (or_introl eq_refl) E); by destruct e.
Qed.

(** [TryAcquire] under any interference of the other users of the key. *)
Lemma TryAcquire_triple n0 :
  triple (so_rely l) (λ s _, so_free l n0 s) (TryAcquire l) (acquired n0).
Proof.
  intros w Hw Hf.
  destruct (acquire_with_triple n0 (λ _, acquire_request l) (λ _, True) (λ _, True)) with w as [Hw' H].
  - done.
  - intros; split; [by apply serve_attempt|done].
  - apply world_ok_and; [done|]. eapply world_ok_weaken; [|exact Hw]. done.
  - done.
  - split; [|exact H]. eapply world_ok_weaken; [|exact Hw']. by intros r [? _].
Qed.

(** ** Renewal *)

Definition renewing (start : Z) (r : reply) (s : S) (c : Z) : Prop :=
  (start ≤ c ∧ so_held l s c) ∧
  match r with
  | RInt z => z = 1 → covered (so_key l) (so_id l) (requestExpiry start (so_ttl l)) s c
  | RErr _ => True
  | _ => False
  end.

Lemma stable_renewing start r : stable (so_rely l) (renewing start r).
Proof.
  apply stable_and; [apply stable_and; [apply stable_since|by apply stable_so_held]|].
  destruct r; try apply stable_pure.
  pose proof (stable_so_covered l (requestExpiry start (so_ttl l)) HKF) as [H1 H2]; split; naive_solver.
Qed.

Lemma serve_renewing start s c :
  start ≤ c → so_expiresAt l ≤ requestExpiry start (so_ttl l) → so_held l s c →
  renewing start (serve (renew_request l) s).1 (serve (renew_request l) s).2 c.
Proof.
  intros Hc Hexp [Hcov Hle].
  pose proof (whole_ms_pos _ Httl) as Hms.
  pose proof (serve_time (renew_request l) s) as Ht.
  pose proof (serve_view (renew_request l) s) as Hv.
  pose proof (serve_reply (renew_request l) s) as Hr.
  destruct (serve (renew_request l) s) as [r s']; cbn [fst snd] in *.
  assert (∀ s'', r_view s'' = r_view s → r_time s'' = r_time s → so_held l s'' c) as Hsame.
  { intros s'' E1 E2; revert Hcov; unfold so_held, covered, until_covers; by rewrite E1, E2. }
  unfold renew_request, serve_ref in Hv, Hr; cbn [request_script request_fuel] in Hv, Hr.
  destruct (r_view s !! so_key l) as [[v e]|] eqn:E.
  - destruct (decide (v = VStr (so_id l))) as [->|Hne].
    + rewrite (single_renew_owned _ _ _ _ _ e) in Hv, Hr by done; simpl in Hv, Hr.
      assert (∀ d, d ≤ requestExpiry start (so_ttl l) → covered (so_key l) (so_id l) d s' c) as Hd.
      { intros d Hd _; exists (r_clock s + Milliseconds (so_ttl l)).
        split; [unfold owned; rewrite Hv; by rewrite lookup_insert_eq|].
        pose proof (request_covers start (so_ttl l) c s Httl Hc).
        unfold until_covers in *; rewrite Ht; lia. }
      subst r; split; [split; [done|split; [by apply Hd|done]]|]. intros _; by apply Hd.
    + simpl in Hv, Hr; unfold ref_get in Hv, Hr; rewrite E in Hv, Hr.
      destruct v as [v| |]; simpl in Hv, Hr; [|subst r; split; [by auto|done]..].
      rewrite bool_decide_eq_false_2 in Hv, Hr by congruence; simpl in Hv, Hr.
      subst r; split; [by auto|done].
  - simpl in Hv, Hr; unfold ref_get in Hv, Hr; rewrite E in Hv, Hr; simpl in Hv, Hr.
    subst r; split; [by auto|done].
Qed.

(** After [Renew] the lease is as safe as before: its deadline, moved or not,
    is backed by the server; it moves forward only, and only on success. *)
Definition renewed (x : SingleOwner * option error) (s : S) (c : Z) : Prop :=
  so_held x.1 s c ∧ x.1 = set_expiresAt (so_expiresAt x.1) l ∧
  so_expiresAt l ≤ so_expiresAt x.1 ∧ (x.2 ≠ None → x.1 = l).

Lemma set_expiresAt_same : l = set_expiresAt (so_expiresAt l) l.
Proof. by destruct l. Qed.

Lemma renewed_same e s c : so_held l s c → renewed (l, e) s c.
Proof. intros; split; [done|split; [apply set_expiresAt_same|split; [simpl; lia|done]]]. Qed.

Lemma Renew_triple : triple (so_rely l) (so_held l) (Renew l) renewed.
Proof.
  unfold Renew. eapply triple_bind; [by apply triple_time_now, stable_so_held|].
  intros start; cbn beta. eapply triple_bind.
  { eapply triple_pre; [apply (triple_redis _
      (λ s c, so_expiresAt l ≤ requestExpiry start (so_ttl l) ∧ start ≤ c ∧ so_held l s c)
      (λ r s c, so_expiresAt l ≤ requestExpiry start (so_ttl l) ∧ renewing start r s c))|].
    - apply stable_and; [apply stable_pure|].
      apply stable_and; [apply stable_since|by apply stable_so_held].
    - intros; apply stable_and; [apply stable_pure|apply stable_renewing].
    - intros s c [(? & ? & ?)|[r (? & [? ?] & _)]]; split; try done; by apply serve_renewing.
    - intros s c [[? ?] ->]; split; [done|split; [lia|done]]. }
  intros [e|r]; cbn beta iota.
  { eapply triple_pre; [apply triple_ret|]. intros s c [_ [(_ & _ & ?)|[r (_ & [_ ?] & _)]]];
      by apply renewed_same. }
  simpl call_Int64. destruct (Int64 r) as [z| |e] eqn:E;
    try (eapply triple_pre; [apply triple_ret|]; intros s c (_ & [_ ?] & _); by apply renewed_same).
  destruct (negb (z =? 1)) eqn:Ez.
  { eapply triple_pre; [apply triple_ret|]; intros s c (_ & [_ ?] & _); by apply renewed_same. }
  eapply triple_bind.
  { apply triple_time_now, stable_and; [apply stable_pure|apply stable_renewing]. }
  intros now1; cbn beta. destruct (negb (After (so_expiresAt l) now1)).
  { eapply triple_pre; [apply triple_ret|]; intros s c [(_ & [_ ?] & _) _]; by apply renewed_same. }
  eapply triple_bind.
  { eapply triple_pre; [apply triple_time_now|].
    - apply stable_and; [apply (stable_pure _ (so_expiresAt l ≤ requestExpiry start (so_ttl l)))
                        |apply (stable_renewing start r)].
    - by intros s c [? _]. }
  intros now2; cbn beta. destruct (negb (After _ now2)).
  { eapply triple_pre; [apply triple_ret|]; intros s c [(_ & [_ ?] & _) _]; by apply renewed_same. }
  destruct (After (requestExpiry start (so_ttl l)) (so_expiresAt l));
    (eapply triple_pre; [apply triple_ret|]); intros s c [(? & [? ?] & Hr) _];
    [|by apply renewed_same].
  destruct r; try done; simplify_eq/=. apply negb_false_iff, Z.eqb_eq in Ez; subst.
  split; [split; [by apply Hr|by apply requestExpiry_mono]|].
  split; [done|split; [done|]]. by intros [].
Qed.
End triples.
