(* ===== verification/SingleSafety.v ===== *)
(** * The exclusive lease: what its users may rely on

    Theorems about whole histories of [SingleOwner] leases on one key: mutual
    exclusion, fencing, isolation from stale holders, idempotent retries and
    reclaiming after expiry.  Each is stated for every schedule within the
    rely condition of [SingleOwner]. *)
From S2P Require Import Prelude Redis RedisMem Errors Requests ScriptsSingle GoRuntime Scenario.
From S2P Require Import Lease SingleOwner.

Section histories.
Context {S : Type} `{!RedisOps S, !RedisLaws S}.
Implicit Types (l : SingleOwner) (w : world S).

(** The life of a lease in the hands of one goroutine: an attempt and, when
    it succeeds, [n] renewals whatever they return. *)
Definition session (l : SingleOwner) (n : nat) : go S (SingleOwner * (Z * option error)) :=
  '(l, (f, e)) ← TryAcquire l;
  match e with
  | Some e => mret (l, (f, Some e))
  | None => l ← renewals n l; mret (l, (f, None))
  end.

Lemma set_expiresAt_wf t l : so_wf l → so_wf (set_expiresAt t l).
Proof. done. Qed.

Lemma renewals_triple n l :
  so_wf l →
  triple (so_rely l) (so_held l) (renewals n l)
    (λ l' s c, so_held l' s c ∧ l' = set_expiresAt (so_expiresAt l') l).
Proof.
  intros Hwf. enough (∀ t, let l' := set_expiresAt t l in
    triple (so_rely l) (so_held l') (renewals n l')
      (λ l'' s c, so_held l'' s c ∧ l'' = set_expiresAt (so_expiresAt l'') l)) as H.
  { specialize (H (so_expiresAt l)). cbn zeta in H. by rewrite <- set_expiresAt_same in H. }
  induction n as [|n IH]; intros t l'; cbn [renewals].
  { eapply triple_pre; [apply triple_ret|]; done. }
  eapply triple_bind; [exact (Renew_triple l' Hwf)|].
  intros [l1 e]. apply (triple_assume _ (l1 = set_expiresAt (so_expiresAt l1) l)); [by intros s c (_ & ? & _)|].
  intros E; rewrite E. eapply triple_pre; [apply (IH (so_expiresAt l1))|].
  intros s c (Hh & _); simpl in Hh. by rewrite E in Hh.
Qed.

Lemma session_triple l n n0 :
  so_wf l →
  triple (so_rely l) (λ s _, so_free l n0 s) (session l n)
    (λ x s c, x.2.2 = None → so_held x.1 s c ∧ x.1 = set_expiresAt (so_expiresAt x.1) l).
Proof.
  intros Hwf; unfold session. eapply triple_bind; [by apply TryAcquire_triple|].
  intros [l1 [f [e|]]].
  { eapply triple_pre; [apply triple_ret|]; done. }
  apply (triple_assume _ (l1 = set_expiresAt (so_expiresAt l1) l)); [by intros s c (? & _)|]. intros E.
  eapply triple_bind.
  { assert (so_rely l = so_rely l1) as -> by (by rewrite E).
    eapply triple_pre; [apply (renewals_triple n l1); by rewrite E|].
    intros s c (_ & Hh & _). done. }
  intros l2; eapply triple_pre; [apply triple_ret|]. intros s c [Hh Heq] _; simpl.
  split; [done|]. by rewrite E in Heq.
Qed.
End histories.

(** ** Mutual exclusion *)
Section exclusion.
Context {S : Type} `{!RedisOps S, !RedisLaws S}.
Implicit Types (l : SingleOwner) (w : world S).

(** Two clients that use the lock under different tokens are never both
    before their deadlines.  Each client's history is arbitrary: other
    clients' requests, clock drift up to 1%, lost requests and replies and
    transport retries around every effect; it acquires and renews any number
    of times.  When the two histories end in the same server state, one of
    the two local deadlines has passed. *)
Theorem mutual_exclusion l1 l2 n1 n2 w1 w2 l1' l2' f1 f2 w1' w2' :
  so_wf l1 → so_wf l2 → so_key l1 = so_key l2 → so_id l1 ≠ so_id l2 →
  world_ok (so_rely l1) w1 → world_ok (so_rely l2) w2 →
  so_free l1 0 (w_srv w1) → so_free l2 0 (w_srv w2) →
  session l1 n1 w1 = ((l1', (f1, None)), w1') →
  session l2 n2 w2 = ((l2', (f2, None)), w2') →
  w_srv w1' = w_srv w2' →
  so_expiresAt l1' ≤ w_now w1' ∨ so_expiresAt l2' ≤ w_now w2'.
Proof.
  intros Hwf1 Hwf2 Hk Hid Hw1 Hw2 Hf1 Hf2 E1 E2 Hs.
  destruct (session_triple l1 n1 0 Hwf1 w1 Hw1 Hf1) as [_ H1].
  destruct (session_triple l2 n2 0 Hwf2 w2 Hw2 Hf2) as [_ H2].
  rewrite E1 in H1; rewrite E2 in H2; simpl in H1, H2.
  destruct H1 as [[H1 _] Q1]; [done|]. destruct H2 as [[H2 _] Q2]; [done|].
  destruct (Z.le_gt_cases (so_expiresAt l1') (w_now w1')); [by left|].
  destruct (Z.le_gt_cases (so_expiresAt l2') (w_now w2')); [by right|].
  exfalso; apply Hid. rewrite Q1 in H1; rewrite Q2 in H2; simpl in H1, H2.
  rewrite <- Hs, <- Hk in H2. eapply covered_exclusive; eauto.
Qed.

(** ** Fencing *)

(** C4: fencing tokens grow.  After one lease was granted with token [f1],
    whatever happens next, a later grant on the same lock carries a larger
    token, as long as the counter is below 2^53 (where Lua numbers stop being
    exact). *)
Theorem fencing_monotone l1 l2 w1 w2 steps l1' l2' f1 f2 w1' w2' :
  so_wf l1 → so_wf l2 → so_fkey l1 = so_fkey l2 →
  so_fencing l1 = true → so_fencing l2 = true →
  world_ok (so_rely l1) w1 → world_ok (so_rely l2) w2 →
  so_free l1 0 (w_srv w1) →
  TryAcquire l1 w1 = ((l1', (f1, None)), w1') →
  Forall (step_ok (so_rely l2)) steps →
  w_srv w2 = (env_apply steps (w_srv w1', w_now w1')).1 →
  not_owned (so_key l2) (so_id l2) (w_srv w2) →
  TryAcquire l2 w2 = ((l2', (f2, None)), w2') →
  ¬ counter_ge (so_fkey l2) (2 ^ 53) (w_srv w2') →
  f1 < f2.
Proof.
  intros Hwf1 Hwf2 Hfk Hf1 Hf2 Hw1 Hw2 Hfr E1 Hst Hs Hno E2 Hmax.
  destruct (TryAcquire_triple l1 Hwf1 0 w1 Hw1 Hfr) as [_ H1].
  rewrite E1 in H1; destruct H1 as (_ & _ & _ & H1 & _).
  destruct (H1 Hf1) as (g1 & -> & Hg1 & Hc1).
  assert (counter_ge (so_fkey l2) g1 (w_srv w2)) as Hc2.
  { rewrite Hs. apply (env_apply_stable (so_rely l2) (λ s _, counter_ge (so_fkey l2) g1 s));
      [apply stable_counter, Hwf2|done|]. simpl; by rewrite <- Hfk. }
  destruct (TryAcquire_triple l2 Hwf2 g1 w2 Hw2 (conj Hno Hc2)) as [_ H2].
  rewrite E2 in H2; destruct H2 as (_ & _ & _ & H2 & _).
  destruct (H2 Hf2) as (g2 & -> & Hg2 & Hc3).
  assert (g2 < 2 ^ 53) as Hlt.
  { destruct (Z.le_gt_cases (2 ^ 53) g2); [|done]. exfalso; apply Hmax.
    destruct Hc3 as (n & ? & ?); exists n; split; [lia|done]. }
  specialize (Hg2 ltac:(lia)).
  assert (0 < g1) by (apply Hg1; lia).
  rewrite !double_of_Z_exact, !to_uint64_id by (unfold int64_max; lia). lia.
Qed.
End exclusion.

(** ** Isolation *)
Section isolation.
Context {S : Type} `{!RedisOps S, !RedisLaws S}.
Context (R : request → Prop) (I : S → Z → Prop) (HI : stable R I).
Implicit Types (l : SingleOwner).

(** What [I] says survives an operation whose requests are within [R]. *)
Lemma Release_keeps l : R (release_request l) → triple R I (Release l) (λ _, I).
Proof.
  intros Hr; unfold Release. eapply triple_bind; [by apply triple_redis_stable|].
  intros x; apply triple_keep.
Qed.

Lemma TryAcquire_keeps l :
  R (acquire_request l) → R (release_request l) → triple R I (TryAcquire l) (λ _, I).
Proof.
  intros Ha Hr; unfold TryAcquire. eapply triple_bind; [by apply triple_time_now|].
  intros t; eapply triple_pre; [|by intros s c [? _]; eassumption].
  eapply triple_bind; [by apply triple_redis_stable|]. intros x.
  destruct (call_Int64 x); [|apply triple_keep..].
  eapply triple_bind; [by apply triple_time_now|]. intros t'.
  eapply triple_pre; [|by intros s c [? _]; eassumption].
  destruct (negb _); [|apply triple_keep].
  eapply triple_bind; [unfold discardLateGrant; eapply triple_bind; [by apply Release_keeps|]|];
    intros [l' e]; apply triple_keep.
Qed.

Lemma Renew_keeps l : R (renew_request l) → triple R I (Renew l) (λ _, I).
Proof.
  intros Hr; unfold Renew. eapply triple_bind; [by apply triple_time_now|].
  intros t; eapply triple_pre; [|by intros s c [? _]; eassumption].
  eapply triple_bind; [by apply triple_redis_stable|]. intros x.
  destruct (call_Int64 x); [|apply triple_keep..]. destruct (negb _); [apply triple_keep|].
  eapply triple_bind; [by apply triple_time_now|]. intros t1.
  eapply triple_pre; [|by intros s c [? _]; eassumption]. destruct (negb _); [apply triple_keep|].
  eapply triple_bind; [by apply triple_time_now|]. intros t2.
  eapply triple_pre; [|by intros s c [? _]; eassumption]. destruct (negb _); [apply triple_keep|].
  destruct (After _ _); apply triple_keep.
Qed.

Lemma Held_keeps l : R (Command (GET (so_key l))) → triple R I (Held l) (λ _, I).
Proof.
  intros Hr; unfold Held. eapply triple_bind; [by apply triple_redis_stable|].
  intros x; apply triple_keep.
Qed.
End isolation.

Section stale.
Context {S : Type} `{!RedisOps S, !RedisLaws S}.
Implicit Types (l : SingleOwner).

(** C14: whatever another client of the lock does with its own token (acquire,
    renew, release, ask who holds it), and whenever its requests arrive, it
    cannot shorten the current holder's lease: a holder whose deadline is
    backed by the server before stays so.  In particular a stale holder cannot
    release or prolong somebody else's lock. *)
Theorem stale_client_harmless l l' d :
  so_key l ≠ so_fkey l → so_key l' = so_key l → so_fkey l' = so_fkey l → so_id l' ≠ so_id l →
  let I := covered (S := S) (so_key l) (so_id l) d in
  triple (so_rely l) I (TryAcquire l') (λ _, I) ∧
  triple (so_rely l) I (Renew l') (λ _, I) ∧
  triple (so_rely l) I (Release l') (λ _, I) ∧
  triple (so_rely l) I (Held l') (λ _, I).
Proof.
  intros HKF Hk Hf Hid I. pose proof (stable_so_covered l d HKF) as HI.
  assert (so_rely l (acquire_request l') ∧ so_rely l (renew_request l') ∧
          so_rely l (release_request l') ∧ so_rely l (Command (GET (so_key l')))) as (? & ? & ? & ?).
  { unfold so_rely; repeat split; right; simpl; rewrite ?Hk, ?Hf; auto. }
  split; [by apply TryAcquire_keeps|split; [by apply Renew_keeps|split; [by apply Release_keeps|by apply Held_keeps]]].
Qed.

(** An attempt on a free lock. *)
Lemma acquire_free l (s : S) n :
  so_wf l → counter (r_view s) (so_fkey l) n → n < int64_max →
  r_view s !! so_key l = None → in_int64 (r_clock s + Milliseconds (so_ttl l)) = true →
  let x := serve (acquire_request l) s in
  x.1 = RInt (if so_fencing l then double_of_Z (n + 1) else 0) ∧
  owned (r_view x.2) (so_key l) (so_id l) (Some (r_clock s + Milliseconds (so_ttl l))) ∧
  counter (r_view x.2) (so_fkey l) (if so_fencing l then n + 1 else n) ∧
  (so_fencing l = true → minted (r_view x.2) (so_fkey l)).
Proof.
  intros [HKF Hms] Hc Hn Hfree Hin x; unfold x.
  rewrite serve_reply, serve_view; unfold serve_ref, acquire_request; cbn [request_script request_fuel].
  pose proof (whole_ms_pos _ Hms). rewrite single_acquire_free by (done || lia); cbn zeta.
  set (m1 := <[so_key l := _]> (r_view s)).
  assert (counter m1 (so_fkey l) n) as Hc1 by (unfold counter, m1; by rewrite lookup_insert_ne).
  assert (owned m1 (so_key l) (so_id l) (Some (r_clock s + Milliseconds (so_ttl l))))
    by (unfold owned, m1; by rewrite lookup_insert_eq).
  destruct (so_fencing l); simpl fencing_flag; [rewrite bool_decide_eq_true_2 by done
                                               |by rewrite bool_decide_eq_false_2].
  rewrite (mint_run _ _ m1 n Hc1 Hn); simpl. split; [done|].
  split; [unfold owned; by rewrite lookup_insert_ne|].
  unfold counter, minted; rewrite lookup_insert_eq. destruct Hc as (? & _).
  split; [split; [lia|split; [lia|by left]]|by eexists].
Qed.

(** The owner's retry. *)
Lemma acquire_retry l (s : S) n x :
  so_wf l → counter (r_view s) (so_fkey l) n → (so_fencing l = true → minted (r_view s) (so_fkey l)) →
  owned (r_view s) (so_key l) (so_id l) x →
  (serve (acquire_request l) s).1 = RInt (if so_fencing l then double_of_Z n else 0) ∧
  r_view (serve (acquire_request l) s).2 = r_view s.
Proof.
  intros [HKF _] Hc Hm Ho.
  pose proof (serve_acquire (r_clock s) _ _ HKF (r_view s) n (so_id l) (Milliseconds (so_ttl l))
    (fencing_flag (so_fencing l)) Hc) as H; cbn zeta in H; fold (acquire_request l) in H.
  rewrite <- serve_reply, <- serve_view in H.
  destruct H as [(e & _ & Hv & Hf1 & Hf0)|[(Hno & _)|(Hnone & _)]];
    [|by destruct (Hno x)|unfold owned in Ho; congruence].
  split; [|done]. destruct (so_fencing l); simpl in *; [by rewrite Hf1 by auto|by apply Hf0].
Qed.

(** An acquisition is idempotent.  While its token owns the key, serving
    the same request again (a transport retry) answers as the first time and
    changes nothing on the server: in particular it neither mints a second
    fencing token nor prolongs the lease. *)
Theorem acquire_idempotent l (s s' : S) n x steps c :
  so_wf l → so_fencing l = true → counter (r_view s) (so_fkey l) n → n < int64_max →
  r_view s !! so_key l = None → in_int64 (r_clock s + Milliseconds (so_ttl l)) = true →
  Forall (step_ok (so_rely l)) steps →
  s' = (env_apply steps ((serve (acquire_request l) s).2, c)).1 →
  owned (r_view s') (so_key l) (so_id l) x →
  (serve (acquire_request l) s').1 = (serve (acquire_request l) s).1 ∧
  r_view (serve (acquire_request l) s').2 = r_view s'.
Proof.
  intros Hwf Ef Hc Hn Hfree Hin Hst Hs' Ho.
  destruct (acquire_free l s n Hwf Hc Hn Hfree Hin) as (Hr & Ho1 & Hc1 & Hm1). rewrite Ef in Hr, Hc1.
  assert (fence_is l (n + 1) s') as Hfence.
  { rewrite Hs'. apply (env_apply_stable (so_rely l) (λ s _, fence_is l (n + 1) s));
      [apply stable_fence, Hwf|done|]. intros y _; auto. }
  destruct (Hfence x Ho) as [Hm' Hc'].
  destruct (acquire_retry l s' (n + 1) x Hwf Hc' (λ _, Hm') Ho) as [Hr' Hv'].
  rewrite Hr, Hr', Ef; auto.
Qed.
End stale.

(** ** A responsive server

    The outcome of one operation when its request is served and answered,
    after [dc] nanoseconds on the client's clock and [ds] on the server's. *)
Section responsive.
Context {S : Type} `{!RedisOps S, !RedisLaws S}.
Implicit Types (l : SingleOwner) (w : world S).

(** The attempt's clock is read, the request served and answered, and the
    clock read again. *)
Lemma TryAcquire_served l w c1 s1 c2 s2 c3 s3 ts :
  w_turns w = after c1 s1 quiet :: after c2 s2 served :: after c3 s3 quiet :: ts →
  let start := w_now w + c1 in
  let deadline := requestExpiry start (so_ttl l) in
  let x := serve (acquire_request l) (r_tick s2 (r_tick s1 (w_srv w))) in
  let w' := World (r_tick s3 x.2) (start + c2 + c3) ts (w_tokens w) (w_log w) in
  (∀ z, x.1 = RInt z → start + c2 + c3 < deadline →
     TryAcquire l w = ((set_expiresAt deadline l, (to_uint64 z, None)), w')) ∧
  (∀ z, x.1 = RInt z → deadline ≤ start + c2 + c3 →
     TryAcquire l w = (let '((l', e), w'') := discardLateGrant (Release l) w' in ((l', (0, e)), w''))) ∧
  (x.1 = RNil → (TryAcquire l w).1 = (l, (0, Some ErrBusy))).
Proof.
  destruct w as [s now turns toks log]; simpl; intros ->.
  unfold TryAcquire, time_now, redis, mbind, go_bind, pass, read_clock, next_turn, set_env; simpl.
  destruct (serve (acquire_request l) _) as [r s'']; simpl.
  split; [|split]; [intros z -> Ht|intros z -> Ht|intros ->; done]; simpl; unfold After.
  - rewrite (proj2 (Z.ltb_lt _ _)) by lia; done.
  - rewrite (proj2 (Z.ltb_ge _ _)) by lia; simpl.
    by destruct (discardLateGrant (Release l) _) as [[l' e] w''].
Qed.

(** The key is absent, or expires while the attempt's clock is read. *)
Definition available l w (d : Z) : Prop :=
  r_view (w_srv w) !! so_key l = None ∨
  ∃ v x, r_view (w_srv w) !! so_key l = Some (Entry v (Some x)) ∧ x < UnixMilli (r_time (w_srv w) + d).

Lemma available_tick l w d s2 :
  available l w d → 0 ≤ d → 0 ≤ s2 →
  r_view (r_tick s2 (r_tick d (w_srv w))) !! so_key l = None.
Proof.
  intros H Hd Hs. rewrite tick_lookup.
  enough (r_view (r_tick d (w_srv w)) !! so_key l = None) as -> by done.
  rewrite tick_lookup. destruct H as [->|(v & x & -> & Hx)]; [done|].
  rewrite decide_False; [done|]. unfold entry_live; simpl. by rewrite law_expired by lia.
Qed.

Lemma counter_ticks (s : S) F n d1 d2 :
  counter (r_view s) F n → counter (r_view (r_tick d2 (r_tick d1 s))) F n.
Proof. intros; rewrite !law_tick_view; by apply counter_tick, counter_tick. Qed.

(** A lock that is free, or whose holder's lease has run out, is granted
    to the next attempt that is answered in time: [TryAcquire] returns nil
    with the next fencing token, the deadline is computed from the clock
    before the request, and the server holds the key for the full duration. *)
Theorem free_lock_granted l w n c1 s1 c2 s2 c3 s3 ts :
  so_wf l → so_fencing l = true →
  w_turns w = after c1 s1 quiet :: after c2 s2 served :: after c3 s3 quiet :: ts →
  0 ≤ s1 → 0 ≤ s2 → available l w s1 →
  counter (r_view (w_srv w)) (so_fkey l) n → n < 2 ^ 53 →
  in_int64 (UnixMilli (r_time (w_srv w) + s1 + s2) + Milliseconds (so_ttl l)) = true →
  c2 + c3 < so_ttl l - so_ttl l ÷ 100 - Millisecond →
  let '((l', (f, e)), w') := TryAcquire l w in
  e = None ∧ f = n + 1 ∧ l' = set_expiresAt (requestExpiry (w_now w + c1) (so_ttl l)) l ∧
  ∃ s', w_srv w' = r_tick s3 s' ∧
        owned (r_view s') (so_key l) (so_id l)
          (Some (UnixMilli (r_time (w_srv w) + s1 + s2) + Milliseconds (so_ttl l))).
Proof.
  intros Hwf Ef Ht Hs1 Hs2 Hav Hc Hn Hin Hin_time.
  destruct (TryAcquire_served l w c1 s1 c2 s2 c3 s3 ts Ht) as [Hrun _].
  set (s' := r_tick s2 (r_tick s1 (w_srv w))) in *.
  assert (r_clock s' = UnixMilli (r_time (w_srv w) + s1 + s2)) as Eck
    by (unfold r_clock, s'; by rewrite !law_tick_time).
  destruct (acquire_free l s' n) as (Hr & Ho & _); [done|by apply counter_ticks|unfold int64_max; lia
    |by apply available_tick|by rewrite Eck|].
  rewrite Ef in Hr. destruct Hc as (? & _).
  rewrite (Hrun _ Hr) by (unfold requestExpiry; lia); simpl.
  rewrite double_of_Z_exact, to_uint64_id by (unfold int64_max; lia).
  repeat split; [done..|]. eexists; split; [done|]. by rewrite <- Eck.
Qed.

(** C19: a grant whose reply comes after the local deadline is not used.
    [TryAcquire] gives the key back and returns an error that matches
    [ErrLost], never [ErrBusy]; when the release is answered, the key is free
    again. *)
Theorem late_grant_discarded l w n c1 s1 c2 s2 c3 s3 c4 s4 ts :
  so_wf l → so_fencing l = true →
  w_turns w = after c1 s1 quiet :: after c2 s2 served :: after c3 s3 quiet :: after c4 s4 served :: ts →
  0 ≤ s1 → 0 ≤ s2 → available l w s1 →
  counter (r_view (w_srv w)) (so_fkey l) n → n < 2 ^ 53 →
  in_int64 (UnixMilli (r_time (w_srv w) + s1 + s2) + Milliseconds (so_ttl l)) = true →
  so_ttl l - so_ttl l ÷ 100 - Millisecond ≤ c2 + c3 →
  let '((l', (f, e)), w') := TryAcquire l w in
  is_error e ErrLost = true ∧ is_error e ErrBusy = false ∧ f = 0 ∧
  not_owned (so_key l) (so_id l) (w_srv w').
Proof.
  intros Hwf Ef Ht Hs1 Hs2 Hav Hc Hn Hin Hlate.
  destruct (TryAcquire_served l w c1 s1 c2 s2 c3 s3 _ Ht) as (_ & Hrun & _).
  set (s' := r_tick s2 (r_tick s1 (w_srv w))) in *.
  assert (r_clock s' = UnixMilli (r_time (w_srv w) + s1 + s2)) as Eck
    by (unfold r_clock, s'; by rewrite !law_tick_time).
  destruct (acquire_free l s' n) as (Hr & _); [done|by apply counter_ticks|unfold int64_max; lia
    |by apply available_tick|by rewrite Eck|].
  rewrite (Hrun _ Hr) by (unfold requestExpiry; lia).
  unfold discardLateGrant, Release, redis, mbind, go_bind, next_turn, set_env; simpl.
  pose proof (serve_release l (r_tick s4 (r_tick s3 (serve (acquire_request l) s').2))) as Hno.
  destruct (serve (release_request l) _) as [r s'']; simpl in *.
  destruct (Int64 r) as [z| |e] eqn:E; simpl; [destruct (negb _); by split_and!|by split_and!|].
  split; [done|split; [|by split]]. rewrite orb_false_r.
  eapply Int64_err; [by left|exact E].
Qed.
End responsive.

(** ** Renewal and release *)
Section renewal.
Context {S : Type} `{!RedisOps S, !RedisLaws S}.
Implicit Types (l : SingleOwner) (w : world S).

(** Renewal is safe under any interference.  Starting from a deadline the
    server backs, [Renew] ends with one it backs: before the new deadline the
    key still has this owner's token and outlives the deadline whatever the
    drift.  The deadline moves forward only, and not at all when [Renew]
    reports an error. *)
Theorem renew_backed l w l' e w' :
  so_wf l → world_ok (so_rely l) w → holds (so_held l) w →
  Renew l w = ((l', e), w') →
  (w_now w' < so_expiresAt l' →
     ∃ x, owned (r_view (w_srv w')) (so_key l) (so_id l) (Some x) ∧
          100 * (so_expiresAt l' - w_now w') ≤ 99 * (Millisecond * x - r_time (w_srv w'))) ∧
  so_expiresAt l ≤ so_expiresAt l' ∧ (e ≠ None → l' = l).
Proof.
  intros Hwf Hw Hh E. destruct (Renew_triple l Hwf w Hw Hh) as [_ ((Hcov & _) & Heq & Hle & Herr)].
  rewrite E in *; simpl in *. split; [|done]. intros Hlt.
  rewrite Heq in Hcov; simpl in Hcov. destruct (Hcov Hlt) as (x & ? & ?); eauto.
Qed.

Lemma serve_renew_lost l (s : S) :
  not_owned (so_key l) (so_id l) s →
  let x := serve (renew_request l) s in
  not_owned (so_key l) (so_id l) x.2 ∧ (x.1 = RInt 0 ∨ ∃ e, x.1 = RErr e).
Proof.
  intros Hno; cbn zeta; unfold not_owned; rewrite serve_reply, serve_view.
  unfold renew_request, serve_ref; cbn [request_script request_fuel].
  pose proof (single_renew_other (r_clock s) (so_key l) (so_id l) (Milliseconds (so_ttl l)) (r_view s) Hno) as Hv.
  revert Hv; simpl; unfold ref_get.
  destruct (r_view s !! so_key l) as [[[v| |] x]|] eqn:E; simpl; eauto.
  rewrite bool_decide_eq_false_2 by (intros [= ->]; by destruct (Hno x)). simpl; eauto.
Qed.

(** A lost lease stays lost.  Once the key is not this owner's any more,
    no renewal brings it back or moves the local deadline: [Renew] returns
    [ErrLost] or an error of the server or the network, and the key is still
    not this owner's afterwards. *)
Theorem renew_never_revives l w l' e w' :
  so_wf l → world_ok (so_rely l) w → not_owned (so_key l) (so_id l) (w_srv w) →
  Renew l w = ((l', e), w') →
  l' = l ∧ not_owned (so_key l) (so_id l) (w_srv w') ∧
  (e = Some ErrLost ∨ (∃ m, e = Some (ErrRedis m)) ∨ ∃ n, e = Some (net_err n)).
Proof.
  intros [HKF Hms] Hw Hno E.
  set (Q := λ (x : SingleOwner * option error) (s : S) (c : Z), x.1 = l ∧ not_owned (so_key l) (so_id l) s ∧
    (x.2 = Some ErrLost ∨ (∃ m, x.2 = Some (ErrRedis m)) ∨ ∃ n, x.2 = Some (net_err n))).
  assert (triple (so_rely l) (λ s _, not_owned (so_key l) (so_id l) s) (Renew l) Q) as H;
    [|specialize (H w Hw Hno); rewrite E in H; apply H].
  unfold Renew. eapply triple_bind; [by apply triple_time_now, stable_so_not_owned|]. intros t.
  eapply triple_bind.
  { eapply triple_pre; [apply (triple_redis _ (λ s _, not_owned (so_key l) (so_id l) s)
      (λ r s _, not_owned (so_key l) (so_id l) s ∧ (r = RInt 0 ∨ ∃ e, r = RErr e)))|by intros s c [? _]].
    - by apply stable_so_not_owned.
    - intros r; apply stable_and; [by apply stable_so_not_owned|apply stable_pure].
    - intros s c H; apply serve_renew_lost. by destruct H as [?|(? & ? & _)]. }
  intros [e'|r]; cbn beta iota.
  { eapply triple_pre; [apply triple_ret|]. intros s c [[n ->] H]; split; [done|].
    split; [by destruct H as [?|(? & ? & _)]|eauto]. }
  apply (triple_assume _ (r = RInt 0 ∨ ∃ e, r = RErr e)); [by intros s c [_ ?]|].
  intros [->|[m ->]]; simpl; (eapply triple_pre; [apply triple_ret|]); intros s c [? _]; unfold Q; eauto 6.
Qed.

(** [Release] by the owner frees the key: the server answers once, the
    call returns nil, the deadline is cleared and the key is gone, so the
    next attempt of anybody succeeds. *)
Theorem release_frees l w x dc ds ts :
  w_turns w = after dc ds served :: ts → 0 ≤ ds →
  owned (r_view (w_srv w)) (so_key l) (so_id l) (Some x) → UnixMilli (r_time (w_srv w) + ds) < x →
  let '((l', e), w') := Release l w in
  e = None ∧ l' = set_expiresAt time_zero l ∧ r_view (w_srv w') !! so_key l = None ∧
  (∀ k, k ≠ so_key l → r_view (w_srv w') !! k = r_view (r_tick ds (w_srv w)) !! k).
Proof.
  intros Ht Hds Ho Hx. destruct w as [s now turns toks log]; simpl in *; subst turns.
  unfold Release, redis, mbind, go_bind, next_turn, set_env; simpl.
  assert (owned (r_view (r_tick ds s)) (so_key l) (so_id l) (Some x)) as Ho' by (by apply tick_keeps).
  pose proof (serve_reply (release_request l) (r_tick ds s)) as Hr.
  pose proof (serve_view (release_request l) (r_tick ds s)) as Hv.
  destruct (serve (release_request l) (r_tick ds s)) as [r s']; simpl in *.
  unfold serve_ref in Hr, Hv; simpl in Hr, Hv.
  pose proof (single_release_owned (r_clock (r_tick ds s)) (so_key l) (so_id l) _ _ Ho') as Hrun.
  simpl in Hrun. rewrite Hrun in Hr, Hv; simpl in Hr, Hv; subst r; simpl.
  rewrite Hv, lookup_delete_eq. repeat split; [done..|]. intros k Hk; by rewrite lookup_delete_ne.
Qed.
End renewal.

(** ** Examples *)
Module Ex.

Definition lease_of (id : string) : SingleOwner :=
  {| so_id := id; so_key := "{m}"; so_fkey := "{m}:fencing"; so_ttl := 10 * Second;
     so_fencing := true; so_expiresAt := time_zero |}.
Definition a : SingleOwner := lease_of "a".
Definition b : SingleOwner := lease_of "b".

Lemma wf id : so_wf (lease_of id).
Proof. by repeat split. Qed.

Lemma free_at_start id n0 t ts : n0 ≤ 0 → so_free (lease_of id) n0 (w_srv (at_start t ts)).
Proof. intros; split; [done|]. exists 0; split; [done|]. split; [lia|]. split; [done|]. by right. Qed.

(** [a] acquires; its renewal fails on the network; eleven seconds later [b]
    takes over. *)
Definition a_view : world mem := at_start 0
  [quiet; served; quiet;
   quiet; first_do [wait (11 * Second); Other (acquire_request b)] (net_fails 0 (NetFailure "i/o timeout"))].
Definition b_view : world mem := at_start 0
  [first_do [Other (acquire_request a); wait (11 * Second)] quiet; served; quiet].

Ltac solve_rely := solve_sched; right; by repeat split.

Lemma a_view_ok : world_ok (so_rely a) a_view.
Proof. solve_sched; right; by repeat split. Qed.
Lemma b_view_ok : world_ok (so_rely b) b_view.
Proof. solve_sched; right; by repeat split. Qed.

Lemma mutual_exclusion_witness :
  so_expiresAt (session a 1 a_view).1.1 ≤ w_now (session a 1 a_view).2 ∨
  so_expiresAt (session b 0 b_view).1.1 ≤ w_now (session b 0 b_view).2.
Proof.
  apply (mutual_exclusion a b 1 0 a_view b_view _ _ 1 2 _ _ (wf "a") (wf "b") eq_refl ltac:(discriminate)
    a_view_ok b_view_ok (free_at_start "a" 0 _ _ ltac:(lia)) (free_at_start "b" 0 _ _ ltac:(lia)));
    vm_compute; reflexivity.
Defined.

(** [a] releases after its work and [b] comes next. *)
Definition b_next : world mem :=
  let w := (TryAcquire a (at_start 0 [quiet; served; quiet])).2 in
  World (env_apply [Other (release_request a); wait Second] (w_srv w, w_now w)).1 Second
    [quiet; served; quiet] [] [].

(** [b]'s late requests while [a] holds the lock. *)
Definition a_holds : world mem :=
  let w := (TryAcquire a (at_start 0 [quiet; served; quiet])).2 in
  World (w_srv w) (w_now w) [quiet; served; quiet] [] [].

Lemma stale_client_harmless_witness :
  holds (covered "{m}" "a" (requestExpiry 0 (10 * Second))) (TryAcquire b a_holds).2 ∧
  holds (covered "{m}" "a" (requestExpiry 0 (10 * Second))) (Renew b a_holds).2 ∧
  holds (covered "{m}" "a" (requestExpiry 0 (10 * Second))) (Release b a_holds).2.
Proof.
  destruct (stale_client_harmless (S := mem) a b (requestExpiry 0 (10 * Second))
    ltac:(discriminate) eq_refl eq_refl ltac:(discriminate)) as (H1 & H2 & H3 & _).
  assert (holds (covered "{m}" "a" (requestExpiry 0 (10 * Second))) a_holds) as H.
  { intros _; exists 10000; split; [by vm_compute|]. vm_compute; discriminate. }
  assert (world_ok (so_rely a) a_holds) as Hw by solve_sched.
  split; [apply (H1 _ Hw H)|split; [apply (H2 _ Hw H)|apply (H3 _ Hw H)]].
Defined.

Lemma acquire_idempotent_witness :
  let s := (serve (acquire_request a) (mem_empty 0)).2 in
  let s' := (serve (acquire_request b) (mem_tick Second s)).2 in
  (serve (acquire_request a) s').1 = (serve (acquire_request a) (mem_empty 0)).1 ∧
  r_view (serve (acquire_request a) s').2 = r_view s'.
Proof.
  apply (acquire_idempotent a (mem_empty 0) _ 0 (Some 10000) [wait Second; Other (acquire_request b)] 0 (wf "a"));
    try done.
  - split; [done|split; [done|by right]].
  - solve_sched; right; by repeat split.
Defined.

Lemma counter_start t : counter (r_view (mem_empty t)) "{m}:fencing" 0.
Proof. split; [done|split; [done|by right]]. Qed.

(** [a]'s lease has run out on the server when [b] asks. *)
Definition b_after : world mem := World (w_srv a_holds) 0
  [after (11 * Second) (11 * Second) quiet; after 5 6 served; after 7 7 quiet] [] [].

Lemma b_after_available : available b b_after (11 * Second).
Proof. right; exists (VStr "a"), 10000; split; vm_compute; reflexivity. Qed.
Lemma b_after_counter : counter (r_view (w_srv b_after)) "{m}:fencing" 1.
Proof. split; [done|split; [done|left; vm_compute; reflexivity]]. Qed.

Lemma free_lock_granted_witness :
  (TryAcquire b b_after).1 = (set_expiresAt (requestExpiry (11 * Second) (10 * Second)) b, (2, None)).
Proof.
  generalize (free_lock_granted b b_after 1
    (11 * Second) (11 * Second) 5 6 7 7 [] (wf "b") eq_refl eq_refl ltac:(done) ltac:(done)
    b_after_available b_after_counter ltac:(lia) ltac:(vm_compute; reflexivity) ltac:(vm_compute; reflexivity)).
  destruct (TryAcquire b b_after) as [[l' [f e]] w']. intros (-> & -> & -> & _); reflexivity.
Defined.

Lemma late_grant_discarded_witness :
  is_error (TryAcquire a (at_start 0
    [after 0 0 quiet; after 0 0 served; after (10 * Second) (10 * Second) quiet; after 0 0 served])).1.2.2
    ErrLost = true.
Proof.
  pose proof (late_grant_discarded a (at_start 0
    [after 0 0 quiet; after 0 0 served; after (10 * Second) (10 * Second) quiet; after 0 0 served])
    0 0 0 0 0 (10 * Second) (10 * Second) 0 0 [] (wf "a") eq_refl eq_refl ltac:(done) ltac:(done)
    (or_introl eq_refl) (counter_start 0) ltac:(done) eq_refl) as H.
  destruct (TryAcquire a _) as [[l' [f e]] w']. destruct H as (H & _); [by vm_compute|]. exact H.
Defined.

(** [a] renews while [b] tries, and with a reply lost on the way. *)
Definition a_renews : world mem := World (w_srv a_holds) 0
  [first_do [wait Second; Other (acquire_request b)] quiet; served; quiet; quiet] [] [].

Lemma a_renews_held : holds (so_held (set_expiresAt (requestExpiry 0 (10 * Second)) a)) a_renews.
Proof.
  split; [|by vm_compute]. intros _; exists 10000; split; [vm_compute; reflexivity|vm_compute; discriminate].
Qed.

Lemma a_renews_ok : world_ok (so_rely a) a_renews.
Proof. solve_sched; right; by repeat split. Qed.
Lemma a_holds_ok : world_ok (so_rely b) a_holds.
Proof. solve_sched. Qed.
Lemma a_holds_not_b : not_owned "{m}" "b" (w_srv a_holds).
Proof. intros y; vm_compute; discriminate. Qed.

Lemma a_renewed_live :
  let x := Renew (set_expiresAt (requestExpiry 0 (10 * Second)) a) a_renews in
  w_now x.2 < so_expiresAt x.1.1.
Proof. vm_compute; reflexivity. Qed.

Lemma renew_backed_witness :
  let x := Renew (set_expiresAt (requestExpiry 0 (10 * Second)) a) a_renews in
  ∃ y, owned (r_view (w_srv x.2)) "{m}" "a" (Some y) ∧
       100 * (so_expiresAt x.1.1 - w_now x.2) ≤ 99 * (Millisecond * y - r_time (w_srv x.2)).
Proof.
  pose proof a_renewed_live as Hl.
  intros x; fold x in Hl; destruct x as [[l' e] w'] eqn:E; unfold x in E; simpl in *.
  destruct (renew_backed (set_expiresAt (requestExpiry 0 (10 * Second)) a) a_renews l' e w') as [H _];
    [apply (wf "a")|apply a_renews_ok|apply a_renews_held|exact E|exact (H Hl)].
Defined.

Lemma renew_never_revives_witness :
  (Renew b a_holds).1.1 = b ∧ not_owned "{m}" "b" (w_srv (Renew b a_holds).2).
Proof.
  destruct (Renew b a_holds) as [[l' e] w'] eqn:E.
  destruct (renew_never_revives b a_holds l' e w') as (? & ? & _); [apply (wf "b")|apply a_holds_ok
    |apply a_holds_not_b|exact E|split; assumption].
Defined.

Definition a_releases : world mem := World (w_srv a_holds) 0 [after 5 5 served] [] [].

Lemma a_releases_owned : owned (r_view (w_srv a_releases)) "{m}" "a" (Some 10000).
Proof. vm_compute; reflexivity. Qed.

Lemma release_frees_witness :
  (Release a a_releases).1 = (a, None) ∧ r_view (w_srv (Release a a_releases).2) !! "{m}" = None.
Proof.
  generalize (release_frees a a_releases 10000 5 5 [] eq_refl ltac:(lia)
    a_releases_owned ltac:(vm_compute; reflexivity)).
  destruct (Release a a_releases) as [[l' e] w']; intros (-> & -> & H & _); split; [reflexivity|exact H].
Defined.

Lemma fencing_monotone_witness : 1 < 2.
Proof.
  eapply (fencing_monotone a b (at_start 0 [quiet; served; quiet]) b_next
    [Other (release_request a); wait Second] _ _ 1 2 _ _ (wf "a") (wf "b") eq_refl eq_refl eq_refl).
  - solve_sched.
  - solve_sched.
  - by apply free_at_start.
  - vm_compute; reflexivity.
  - solve_sched; right; by repeat split.
  - vm_compute; reflexivity.
  - intros x; vm_compute; discriminate.
  - vm_compute; reflexivity.
  - intros (n & Hn & _ & _ & [H|[H _]]); vm_compute in H; [|discriminate].
    injection H as H; apply (itoa_inj 2) in H; lia.
Defined.
End Ex.
