(* ===== verification/PermitSet.v ===== *)
(** * The multi-permit lease

    [internal/lease/permit.go]: the lease behind [Semaphore].  A grant of [n]
    permits is [n] members of one sorted set, all removed or refreshed
    together; the scores are stamped with the clients' clocks. *)
From S2P Require Import Prelude Redis Errors Requests ScriptsSem ScriptsRW RWEffect GoRuntime Lease.

Record PermitSet := {
  ps_id : string;
  ps_key : string;
  ps_ttl : Z;
  ps_capacity : Z;
  ps_tokens : list string;
  ps_acquired : bool;
  ps_expiresAt : Z;
}.

Definition set_grant (tokens : list string) (acquired : bool) (expiresAt : Z) (p : PermitSet) : PermitSet :=
  {| ps_id := ps_id p; ps_key := ps_key p; ps_ttl := ps_ttl p; ps_capacity := ps_capacity p;
     ps_tokens := tokens; ps_acquired := acquired; ps_expiresAt := expiresAt |}.

(** The token loop of [TryAcquire]: [id#0], [id#1], ... *)
Definition permit_tokens (id : string) (n : Z) : list string :=
  (λ i : nat, id +:+ "#" +:+ itoa (Z.of_nat i)) <$> seq 0 (Z.to_nat n).

Section ops.
Context {S : Type} `{!RedisOps S}.

Definition NewPermitSet (key : string) (ttl capacity : Z) : go S PermitSet :=
  id ← Token;
  mret {| ps_id := id; ps_key := key; ps_ttl := ttl; ps_capacity := capacity;
          ps_tokens := []; ps_acquired := false; ps_expiresAt := time_zero |}.

Definition Release (p : PermitSet) : go S (PermitSet * option error) :=
  let tokens := ps_tokens p in
  if bool_decide (tokens = []) then mret (p, Some ErrLost)
  else
    r ← redis (SemRelease (ps_key p) tokens);
    mret match call_Int64 r with
    | CErr e => (p, Some e)
    | CNil => (p, Some (ErrRedis "redis: nil"))
    | COk removed =>
        (set_grant [] false time_zero p,
         if negb (removed =? Z.of_nat (length tokens)) then Some ErrLost else None)
    end.

Definition TryAcquire (p : PermitSet) (n : Z) : go S (PermitSet * option error) :=
  started ← time_now;
  let deadline := requestExpiry started (ps_ttl p) in
  if n <? 1 then mret (p, None)
  else
    let tokens := permit_tokens (ps_id p) n in
    r ← redis (SemAcquire (ps_key p) (UnixMilli started) (Milliseconds (ps_ttl p))
                 (ps_capacity p) tokens);
    match call_Int64 r with
    | CNil => mret (p, Some ErrBusy)
    | CErr e => mret (p, Some e)
    | COk _ =>
        now ← time_now;
        let p := set_grant tokens (ps_acquired p) (ps_expiresAt p) p in
        if negb (After deadline now) then discardLateGrant (Release p)
        else mret (set_grant tokens true deadline p, None)
    end.

Definition Acquire (p : PermitSet) : go S (PermitSet * option error) := TryAcquire p 1.

Definition Renew (p : PermitSet) : go S (PermitSet * option error) :=
  started ← time_now;
  let deadline := requestExpiry started (ps_ttl p) in
  let tokens := ps_tokens p in
  if bool_decide (tokens = []) then mret (p, Some ErrLost)
  else
    r ← redis (SemRenew (ps_key p) (UnixMilli started) (Milliseconds (ps_ttl p)) tokens);
    match call_Int64 r with
    | CErr e => mret (p, Some e)
    | CNil => mret (p, Some (ErrRedis "redis: nil"))
    | COk ok =>
        if negb (ok =? 1) then mret (p, Some ErrLost)
        else
          now1 ← time_now;
          if negb (After (ps_expiresAt p) now1) then mret (p, Some ErrLost)
          else
            now2 ← time_now;
            if negb (After deadline now2) then mret (p, Some ErrLost)
            else if After deadline (ps_expiresAt p)
                 then mret (set_grant (ps_tokens p) (ps_acquired p) deadline p, None)
                 else mret (p, None)
    end.

(** The loop of [Held]: every permit is still there and has not expired by
    the clock read before the first query. *)
Fixpoint held_loop (key : string) (now : Z) (tokens : list string) : go S (bool * option error) :=
  match tokens with
  | [] => mret (true, None)
  | t :: ts =>
      r ← redis (Command (ZSCORE key t));
      match call_Score r with
      | CNil => mret (false, None)
      | CErr e => mret (false, Some e)
      | COk score => if score <=? now then mret (false, None) else held_loop key now ts
      end
  end.

Definition Held (p : PermitSet) : go S (bool * option error) :=
  let tokens := ps_tokens p in
  if bool_decide (tokens = []) then mret (false, None)
  else
    now ← time_now;
    held_loop (ps_key p) (UnixMilli now) tokens.

#[export] Instance permit_lease : Lease S PermitSet := {|
  lease_ID := ps_id;
  lease_Acquire := Acquire;
  lease_Renew := Renew;
  lease_Release := Release;
  lease_Held := Held;
  lease_ExpiresAt := ps_expiresAt;
|}.

End ops.

(** ** Distinct tokens *)

Lemma length_permit_tokens id n : length (permit_tokens id n) = Z.to_nat n.
Proof. unfold permit_tokens; by rewrite length_fmap, length_seq. Qed.

(** The permits of one grant are distinct members. *)
Lemma NoDup_permit_tokens id n : NoDup (permit_tokens id n).
Proof.
  unfold permit_tokens. apply NoDup_fmap_2; [|apply NoDup_seq].
  intros i j H. apply append_inj_l in H. injection H as H%itoa_inj. lia.
Qed.

(** ** The capacity of the set *)

Lemma size_zalive now z : (size (zalive now z) ≤ size z)%nat.
Proof. apply map_subseteq_size, map_filter_subseteq. Qed.

Lemma size_zadd_all score ts z : (size (zadd_all score ts z) ≤ size z + length ts)%nat.
Proof.
  unfold zadd_all; revert z; induction ts as [|t ts IH]; intros z; simpl; [lia|].
  specialize (IH (<[t := score]> z)). rewrite map_size_insert in IH. case_match; unfold id in *; lia.
Qed.

Lemma size_zadd_all_old score ts z :
  Forall (λ t, is_Some (z !! t)) ts → size (zadd_all score ts z) = size z.
Proof.
  unfold zadd_all; revert z; induction ts as [|t ts IH]; intros z; simpl; [done|].
  intros [[s Hs] Hts]%Forall_cons. rewrite IH; [by rewrite map_size_insert, Hs|].
  eapply Forall_impl; [exact Hts|]. intros x [y ?]; simpl.
  destruct (decide (x = t)) as [->|]; [rewrite lookup_insert_eq|rewrite lookup_insert_ne by done]; eauto.
Qed.

Lemma all_live_spec z now ts :
  all_live z now ts = true ↔ ∀ t, t ∈ ts → ∃ s, z !! t = Some s ∧ now < s.
Proof.
  unfold all_live; rewrite forallb_forall. split; intros H t Ht.
  - specialize (H t (proj1 (list_elem_of_In _ _) Ht)). case_match; [|done].
    apply Z.ltb_lt in H; eauto.
  - destruct (H t (proj2 (list_elem_of_In _ _) Ht)) as (s & -> & ?). by apply Z.ltb_lt.
Qed.

Lemma zrem_all_size ts z : (size (zrem_all ts z).2 ≤ size z)%nat.
Proof.
  apply map_subseteq_size, map_subseteq_spec; intros t s.
  rewrite zrem_all_lookup; case_decide; done.
Qed.

(** Acquisition, renewal and release keep at most [capacity] members. *)
Lemma acquired_set_capacity now ttl cap ts z :
  Z.of_nat (size z) ≤ cap → Z.of_nat (size (acquired_set now ttl cap ts z).2) ≤ cap.
Proof.
  intros Hz; unfold acquired_set. pose proof (size_zalive now z).
  case_match; simpl; [lia|]. destruct (Z.ltb_spec cap (Z.of_nat (size (zalive now z)) + Z.of_nat (length ts)));
    simpl; [lia|]. pose proof (size_zadd_all (now + ttl) ts (zalive now z)); lia.
Qed.

Lemma renewed_set_capacity now ttl ts z :
  size (if all_live z now ts then zadd_all (now + ttl) ts z else z) = size z.
Proof.
  destruct (all_live z now ts) eqn:E; [|done]. apply size_zadd_all_old, Forall_forall.
  rewrite all_live_spec in E; intros t Ht; destruct (E t Ht) as (s & -> & _); eauto.
Qed.

Lemma count_in_all z ts :
  count_in z ts = Z.of_nat (length ts) ↔ ∀ t, t ∈ ts → is_Some (z !! t).
Proof.
  unfold count_in. split.
  - intros H%Nat2Z.inj t Ht. 
    assert (List.filter (in_set z) ts = ts) as E.
    { clear -H. induction ts as [|x ts IH]; simpl in *; [done|].
      pose proof (List.filter_length_le (in_set z) ts) as Hle.
      destruct (in_set z x); simpl in *; [f_equal; apply IH; lia|lia]. }
    rewrite <- E in Ht. apply list_elem_of_In, List.filter_In in Ht as [_ Ht].
    by unfold in_set in Ht; to_prop.
  - intros H; f_equal; f_equal. induction ts as [|x ts IH]; simpl; [done|].
    unfold in_set at 1; rewrite bool_decide_eq_true_2 by (apply H; by left).
    f_equal; apply IH; intros t Ht; apply H; by right.
Qed.

(** ** The permits under interference

    The set may also be the readers of a read-write lock, which are permits
    without a limit.  Other clients stamp their requests with their own clocks.  [B] bounds the
    stamps of the requests served in the history under consideration: at
    synchronized clocks, the current time. *)
Definition permit_rely (k : string) (T : list string) (B : Z) (r : request) : Prop :=
  k ∉ request_keys r ∨
  match r with
  | SemAcquire z now _ _ ts => z = k ∧ now ≤ B ∧ (∀ t, t ∈ ts → t ∉ T)
  | SemRenew z _ _ ts | SemRelease z ts => z = k ∧ (∀ t, t ∈ ts → t ∉ T)
  | RWWriteLock K _ _ now _ => NoDup (rw_keys K) ∧ Readers K = k ∧ now ≤ B
  | RWReadLock K t _ _ _ => NoDup (rw_keys K) ∧ Readers K = k ∧ t ∉ T
  | Command (ZSCORE z _) | Command (ZCARD z) => z = k
  | _ => False
  end.

(** The key holds a sorted set that does not expire, satisfying [P]. *)
Definition zset_with {S} `{!RedisOps S} (k : string) (P : gmap string Z → Prop) (s : S) : Prop :=
  ∃ z, zset_of (r_view s) k = Some z ∧ exp_of (r_view s) k = None ∧ P z.

(** Every member of [T] is there until after [B]. *)
Definition all_after (T : list string) (B : Z) (z : gmap string Z) : Prop :=
  ∀ t, t ∈ T → ∃ sc, z !! t = Some sc ∧ B < sc.

Definition lacks_one (T : list string) (z : gmap string Z) : Prop := ∃ t, t ∈ T ∧ z !! t = None.

Section zset_with.
Context {S : Type} `{!RedisOps S, !RedisLaws S}.
Implicit Types (s : S).

Lemma zset_with_tick k P s d : zset_with k P s → zset_with k P (r_tick d s).
Proof.
  intros (z & Hz & Hx & HP). exists z; split; [|split; [|done]];
    unfold zset_of, exp_of in *; rewrite tick_lookup;
    destruct (r_view s !! k) as [[v x]|]; simpl in *; try done; subst;
    rewrite decide_True by done; done.
Qed.

(** One request on the set, from what its script does. *)
Lemma zset_with_serve k (P : gmap string Z → Prop) s r :
  (∀ z m, P z → zset_of m k = Some z →
     ∃ z' m', (serve_ref (r_clock s) r m).2 = m' ∧ only_zset k m m' z' ∧ P z') →
  zset_with k P s → zset_with k P (serve r s).2.
Proof.
  intros H (z & Hz & Hx & HP). unfold zset_with; rewrite serve_view.
  destruct (H z (r_view s) HP Hz) as (z' & m' & -> & (Hz' & Hx' & _) & HP'); eauto.
Qed.

Lemma zset_with_frame k P s r : k ∉ request_keys r → zset_with k P s → zset_with k P (serve r s).2.
Proof.
  intros Hk (z & Hz & Hx & HP); exists z; unfold zset_of, exp_of in *.
  rewrite serve_frame by done; auto.
Qed.

(** The attempts of a read-write lock's users, on its readers. *)
Lemma rw_write_readers K t ttl now wt s z :
  NoDup (rw_keys K) → zset_of (r_view s) (Readers K) = Some z → exp_of (r_view s) (Readers K) = None →
  ∃ z', zset_of (r_view (serve (RWWriteLock K t ttl now wt) s).2) (Readers K) = Some z' ∧
        exp_of (r_view (serve (RWWriteLock K t ttl now wt) s).2) (Readers K) = None ∧ (z' = z ∨ z' = zalive now z).
Proof.
  intros HK Hz Hx. rewrite serve_view. unfold serve_ref; cbn [request_script].
  pose proof (write_lock_readers K (r_clock s) HK (request_fuel (r_view s) (RWWriteLock K t ttl now wt))
    t ttl now wt (r_view s) z Hz) as H.
  destruct (run_ref (r_clock s) _ _) as [x m']; cbn [snd] in *. destruct H as [[? E]|[? E]]; specialize (E Hx); eauto 7.
Qed.

Lemma rw_read_readers K t ttl now wt s z :
  NoDup (rw_keys K) → zset_of (r_view s) (Readers K) = Some z → exp_of (r_view s) (Readers K) = None →
  ∃ z', zset_of (r_view (serve (RWReadLock K t ttl now wt) s).2) (Readers K) = Some z' ∧
        exp_of (r_view (serve (RWReadLock K t ttl now wt) s).2) (Readers K) = None ∧
        (z' = z ∨ z' = <[t := now + ttl]> z).
Proof.
  intros HK Hz Hx. rewrite serve_view. unfold serve_ref; cbn [request_script].
  pose proof (read_lock_readers K (r_clock s) HK (request_fuel (r_view s) (RWReadLock K t ttl now wt))
    t ttl now wt (r_view s) z Hz) as H.
  destruct (run_ref (r_clock s) _ _) as [x m']; cbn [snd] in *. destruct H as [[? E]|[? E]]; specialize (E Hx); eauto 7.
Qed.

(** The members that a request may add to the set. *)
Definition added (r : request) : list string :=
  match r with
  | SemAcquire _ _ _ _ ts | SemRenew _ _ _ ts => ts
  | RWReadLock _ t _ _ _ => [t]
  | _ => []
  end.

(** What the others' requests do to the set. *)
Lemma permit_rely_added k T B s r (P : gmap string Z → Prop) :
  permit_rely k T B r →
  (∀ now z, now ≤ B → P z → P (zalive now z)) →
  (∀ sc z, k ∈ request_keys r → (∀ t, t ∈ added r → t ∉ T) → P z → P (zadd_all sc (added r) z)) →
  (∀ ts z, (∀ t, t ∈ ts → t ∉ T) → P z → P (zrem_all ts z).2) →
  zset_with k P s → zset_with k P (serve r s).2.
Proof.
  intros Hr Hal Had Hre. destruct (decide (k ∈ request_keys r)) as [Hin|Hk]; [|by apply zset_with_frame].
  specialize (λ sc z, Had sc z Hin). destruct Hr as [Hr|Hr]; [done|].
  destruct r as [| | |k' now ttl cap ts|k' now ttl ts|k' ts|K t ttl now wt|K t ttl now wt|c| | | |]; try done;
    [apply zset_with_serve; intros z m HP Hz; unfold serve_ref; cbn [request_script request_fuel]..
    |intros (z & Hz & Hx & HP)|intros (z & Hz & Hx & HP)
    |apply zset_with_serve; intros z m HP Hz; unfold serve_ref; cbn [request_script request_fuel]]; cbn [added] in Had.
  - destruct Hr as (-> & ? & ?).
    destruct (sem_acquire_run (r_clock s) k now ttl cap ts m z Hz) as (m' & -> & Hm').
    eexists _, m'; split; [done|split; [exact Hm'|]]. unfold acquired_set; repeat case_match; simpl; auto.
  - destruct Hr as (-> & ?).
    destruct (sem_renew_run (r_clock s) k now ttl ts m z Hz) as (m' & -> & Hm').
    eexists _, m'; split; [done|split; [exact Hm'|]]. case_match; auto.
  - destruct Hr as (-> & ?).
    destruct (sem_release_run (r_clock s) k ts m z Hz) as (m' & -> & Hm').
    eexists _, m'; split; [done|split; [exact Hm'|]]. auto.
  - destruct Hr as (HK & <- & ?). destruct (rw_write_readers K t ttl now wt s z HK Hz Hx) as (z' & ? & ? & Hz').
    exists z'; split; [done|split; [done|]]. destruct Hz' as [->| ->]; auto.
  - destruct Hr as (HK & <- & Ht). destruct (rw_read_readers K t ttl now wt s z HK Hz Hx) as (z' & ? & ? & Hz').
    exists z'; split; [done|split; [done|]]. destruct Hz' as [->| ->]; [done|]. apply Had; [|done].
    by intros t' ->%list_elem_of_singleton.
  - destruct c; try done; simpl in Hr; subst; zstep Hz m' Hm'; eauto.
Qed.

Lemma permit_rely_step k T B s r (P : gmap string Z → Prop) :
  permit_rely k T B r →
  (∀ now z, now ≤ B → P z → P (zalive now z)) →
  (∀ sc ts z, (∀ t, t ∈ ts → t ∉ T) → P z → P (zadd_all sc ts z)) →
  (∀ ts z, (∀ t, t ∈ ts → t ∉ T) → P z → P (zrem_all ts z).2) →
  zset_with k P s → zset_with k P (serve r s).2.
Proof. intros Hr Hal Had; apply (permit_rely_added k T B s r P Hr Hal); auto. Qed.

Lemma stable_after k T B : stable (permit_rely k T B) (λ s _, zset_with k (all_after T B) s).
Proof.
  split; [|intros; by apply zset_with_tick].
  intros s c r Hr; apply (permit_rely_step k T B); [done|..]; unfold all_after.
  - intros now z ? H t Ht; destruct (H t Ht) as (sc & ? & ?); exists sc; split; [|done].
    apply lookup_zalive; split; [done|lia].
  - intros sc ts z Hd H t Ht; rewrite lookup_zadd_all, decide_False by (intros ?; by eapply Hd); eauto.
  - intros ts z Hd H t Ht; rewrite zrem_all_lookup, decide_False by (intros ?; by eapply Hd); eauto.
Qed.

Lemma stable_lacks k T B : stable (permit_rely k T B) (λ s _, zset_with k (lacks_one T) s).
Proof.
  split; [|intros; by apply zset_with_tick].
  intros s c r Hr; apply (permit_rely_step k T B); [done|..]; unfold lacks_one.
  - intros now z _ (t & ? & E); exists t; split; [done|].
    destruct (zalive now z !! t) eqn:E'; [|done]. apply lookup_zalive in E' as [? _]; congruence.
  - intros sc ts z Hd (t & ? & E); exists t; split; [done|].
    rewrite lookup_zadd_all, decide_False by (intros ?; by eapply Hd); done.
  - intros ts z Hd (t & ? & E); exists t; split; [done|].
    rewrite zrem_all_lookup, decide_False by (intros ?; by eapply Hd); done.
Qed.

Lemma stable_zset k T B : stable (permit_rely k T B) (λ s _, zset_with k (λ _, True) s).
Proof.
  split; [|intros; by apply zset_with_tick].
  intros s c r Hr; by apply (permit_rely_step k T B).
Qed.

(** At most [cap] members, as long as everybody uses that capacity. *)
Definition same_capacity (k : string) (cap : Z) (r : request) : Prop :=
  k ∉ request_keys r ∨
  match r with
  | SemAcquire z _ _ cap' _ => z = k ∧ cap' = cap
  | SemRenew z _ _ _ | SemRelease z _ => z = k
  | Command (ZSCORE z _) | Command (ZCARD z) => z = k
  | _ => False
  end.

Lemma stable_capacity k cap :
  stable (same_capacity k cap) (λ s _, zset_with k (λ z, Z.of_nat (size z) ≤ cap) s).
Proof.
  split; [|intros; by apply zset_with_tick].
  intros s c r [Hk|Hr]; [by apply zset_with_frame|].
  apply zset_with_serve; intros z m HP Hz; unfold serve_ref.
  destruct r as [| | |k' now ttl cap' ts|k' now ttl ts|k' ts| | |cm| | | |]; try done;
    cbn [request_script request_fuel].
  - destruct Hr as (-> & ->).
    destruct (sem_acquire_run (r_clock s) k now ttl cap ts m z Hz) as (m' & -> & Hm').
    eexists _, m'; split; [done|split; [exact Hm'|]]. by apply acquired_set_capacity.
  - subst k'. destruct (sem_renew_run (r_clock s) k now ttl ts m z Hz) as (m' & -> & Hm').
    eexists _, m'; split; [done|split; [exact Hm'|]]. by rewrite renewed_set_capacity.
  - subst k'. destruct (sem_release_run (r_clock s) k ts m z Hz) as (m' & -> & Hm').
    eexists _, m'; split; [done|split; [exact Hm'|]]. pose proof (zrem_all_size ts z); lia.
  - destruct cm; try done; simpl in Hr; subst; zstep Hz m' Hm'; eauto.
Qed.

End zset_with.

(** ** The lease under interference *)

Definition none_in (T : list string) (z : gmap string Z) : Prop := ∀ t, t ∈ T → z !! t = None.
Definition all_at (T : list string) (sc : Z) (z : gmap string Z) : Prop :=
  ∀ t, t ∈ T → z !! t = Some sc.

(** A grant is there as a whole or not at all. *)
Lemma zalive_uniform T sc now z :
  all_at T sc z → all_at T sc (zalive now z) ∧ now < sc ∨ none_in T (zalive now z) ∧ sc ≤ now.
Proof.
  intros H. destruct (decide (now < sc)); [left|right; split; [|lia]].
  - split; [|done]. intros t Ht; apply lookup_zalive; auto.
  - intros t Ht. destruct (zalive now z !! t) eqn:E; [|done].
    apply lookup_zalive in E as [E ?]; rewrite H in E by done; by simplify_eq.
Qed.

Lemma zalive_none T now z : none_in T z → none_in T (zalive now z).
Proof.
  intros H t Ht; destruct (zalive now z !! t) eqn:E; [|done].
  apply lookup_zalive in E as [E _]; rewrite H in E by done; done.
Qed.

Lemma others_keep (T ts : list string) sc z t :
  (∀ t, t ∈ ts → t ∉ T) → t ∈ T →
  zadd_all sc ts z !! t = z !! t ∧ (zrem_all ts z).2 !! t = z !! t.
Proof.
  intros Hd Ht. rewrite lookup_zadd_all, zrem_all_lookup, !decide_False by (intros ?; by eapply Hd). done.
Qed.

Section triples.
Context {S : Type} `{!RedisOps S, !RedisLaws S}.
Context (k : string) (T : list string) (B : Z).
Implicit Types (s : S) (c : Z) (p : PermitSet).

Lemma stable_none : stable (permit_rely k T B) (λ s _, zset_with k (none_in T) s).
Proof.
  split; [|intros; by apply zset_with_tick].
  intros s c r Hr; apply (permit_rely_step k T B); [done|..].
  - intros; by apply zalive_none.
  - intros sc ts z Hd H t Ht; destruct (others_keep T ts sc z t Hd Ht) as [-> _]; auto.
  - intros ts z Hd H t Ht; destruct (others_keep T ts 0 z t Hd Ht) as [_ ->]; auto.
Qed.

(** Granted with score [sc], and expired since only if [sc] is past. *)
Definition granted_at (sc : Z) (z : gmap string Z) : Prop :=
  all_at T sc z ∨ none_in T z ∧ sc ≤ B.

Lemma stable_granted sc : stable (permit_rely k T B) (λ s _, zset_with k (granted_at sc) s).
Proof.
  split; [|intros; by apply zset_with_tick].
  intros s c r Hr; apply (permit_rely_step k T B); [done|..]; unfold granted_at.
  - intros now z ? [H|[H ?]]; [|right; split; [by apply zalive_none|done]].
    destruct (zalive_uniform T sc now z H) as [[? ?]|[? ?]]; [by left|right; split; [done|lia]].
  - intros sc' ts z Hd [H|[H ?]]; [left|right; split; [|done]]; intros t Ht;
      destruct (others_keep T ts sc' z t Hd Ht) as [-> _]; auto.
  - intros ts z Hd [H|[H ?]]; [left|right; split; [|done]]; intros t Ht;
      destruct (others_keep T ts 0 z t Hd Ht) as [_ ->]; auto.
Qed.

(** The reply to an acquisition attempt stamped so that its score is [sc]. *)
Definition sem_attempt (sc : Z) (r : reply) (s : S) (c : Z) : Prop :=
  match r with
  | RInt _ => zset_with k (granted_at sc) s
  | RNil => zset_with k (none_in T) s
  | _ => False
  end.

Lemma stable_sem_attempt sc r : stable (permit_rely k T B) (sem_attempt sc r).
Proof.
  unfold sem_attempt; destruct r; first [apply stable_none|apply stable_granted|apply stable_pure].
Qed.

Lemma count_in_uniform sc z :
  T ≠ [] → (all_at T sc z → count_in z T = Z.of_nat (length T)) ∧
           (none_in T z → count_in z T ≠ Z.of_nat (length T)).
Proof.
  intros HT; split.
  - intros H; apply count_in_all; intros t Ht; rewrite H by done; eauto.
  - intros H Hc. rewrite count_in_all in Hc. destruct T as [|t T']; [done|].
    destruct (Hc t) as [x Hx]; [by left|]. rewrite H in Hx by (by left); done.
Qed.

Lemma serve_sem_attempt now ttl cap s c :
  T ≠ [] → 0 < ttl →
  zset_with k (none_in T) s ∨ zset_with k (granted_at (now + ttl)) s →
  let x := serve (SemAcquire k now ttl cap T) s in sem_attempt (now + ttl) x.1 x.2 c.
Proof.
  intros HT Httl Hs; cbn zeta; unfold sem_attempt, zset_with.
  rewrite serve_reply, serve_view; unfold serve_ref; cbn [request_script request_fuel].
  assert (∃ z, zset_of (r_view s) k = Some z ∧ exp_of (r_view s) k = None ∧
               (none_in T z ∨ all_at T (now + ttl) z)) as (z & Hz & Hx & HP).
  { destruct Hs as [(z & ? & ? & ?)|(z & ? & ? & [?|[? _]])]; eauto 6. }
  destruct (sem_acquire_run (r_clock s) k now ttl cap T _ z Hz) as (m' & -> & (Hz' & Hx' & _)).
  simpl. specialize (Hx' Hx). revert Hz'; unfold acquired_set.
  assert (none_in T (zalive now z) ∨ all_at T (now + ttl) (zalive now z)) as HP'.
  { destruct HP as [?|H]; [left; by apply zalive_none|].
    destruct (zalive_uniform _ _ now _ H) as [[? _]|[_ ?]]; [by right|lia]. }
  destruct (count_in_uniform (now + ttl) (zalive now z) HT) as [Hall Hnone].
  destruct (Z.eqb_spec (count_in (zalive now z) T) (Z.of_nat (length T))) as [E|E]; simpl; intros Hz'.
  - destruct HP' as [H|H]; [by destruct (Hnone H)|]. exists (zalive now z); unfold granted_at; auto.
  - destruct HP' as [H|H]; [|by destruct (E (Hall H))]. revert Hz'; case_match; simpl; intros Hz'; [eauto|].
    eexists; split; [exact Hz'|split; [done|]]. left; intros t Ht.
    by rewrite lookup_zadd_all, decide_True.
Qed.

(** ** A held grant

    Until the clocks of the others pass the deadline by 1% of the duration,
    every permit of the grant is in the set. *)
Definition ps_held p s c : Prop :=
  ps_expiresAt p ≤ requestExpiry c (ps_ttl p) ∧
  zset_with k (λ _, True) s ∧
  (Millisecond * B ≤ ps_expiresAt p + ps_ttl p ÷ 100 → zset_with k (all_after T B) s).

Lemma stable_ps_held p : stable (permit_rely k T B) (ps_held p).
Proof.
  apply stable_and; [|apply stable_and].
  - split; [done|]. unfold requestExpiry; intros s c dc ds (? & ? & ?) ?; lia.
  - apply stable_zset.
  - pose proof (stable_after k T B) as [H1 H2]; split; naive_solver.
Qed.

(** The arithmetic of the stamps. *)
Lemma deadline_score start ttl :
  whole_ms ttl →
  requestExpiry start ttl + ttl ÷ 100 < Millisecond * (UnixMilli start + Milliseconds ttl).
Proof.
  intros [_ Hms]; unfold requestExpiry; pose proof (UnixMilli_bounds start).
  unfold Millisecond in *; lia.
Qed.

(** ** Release *)

Lemma serve_sem_release s c :
  zset_with k (λ _, True) s →
  let x := serve (SemRelease k T) s in
  zset_with k (none_in T) x.2 ∧ ∃ n, x.1 = RInt n.
Proof.
  intros (z & Hz & Hx & _); cbn zeta; unfold zset_with.
  rewrite serve_reply, serve_view; unfold serve_ref; cbn [request_script request_fuel].
  destruct (sem_release_run (r_clock s) k T _ z Hz) as (m' & -> & (Hz' & Hx' & _)); simpl.
  split; [|eauto]. exists (zrem_all T z).2; split; [done|split; [auto|]].
  intros t Ht; by rewrite zrem_all_lookup, decide_True.
Qed.

(** Without a reply nothing changes locally; with one, the permits are gone
    from the server and from the grant. *)
Definition ps_released p (x : PermitSet * option error) s c : Prop :=
  is_error x.2 ErrBusy = false ∧
  (x.1 = p ∧ (∃ n, x.2 = Some (net_err n)) ∧ zset_with k (λ _, True) s ∨
   x.1 = set_grant [] false time_zero p ∧ (x.2 = None ∨ x.2 = Some ErrLost) ∧
   zset_with k (none_in T) s).

Lemma none_zset s : zset_with k (none_in T) s → zset_with k (λ _, True) s.
Proof. intros (z & ? & ? & _); by exists z. Qed.

Lemma ps_Release_triple p :
  ps_key p = k → ps_tokens p = T → T ≠ [] →
  triple (permit_rely k T B) (λ s _, zset_with k (λ _, True) s) (Release p) (ps_released p).
Proof.
  intros Hk Hts HT; unfold Release; rewrite Hk, Hts, bool_decide_eq_false_2 by done.
  eapply triple_bind.
  { apply (triple_redis _ _ (λ r s _, zset_with k (none_in T) s ∧ ∃ n, r = RInt n)).
    - apply stable_zset.
    - intros r; apply stable_and; [apply stable_none|apply stable_pure].
    - intros s c Hs; apply serve_sem_release; [done|].
      destruct Hs as [?|(r & ? & _)]; [done|by apply none_zset]. }
  intros [e|r]; (eapply triple_pre; [apply triple_ret|]); intros s c; simpl.
  - intros [[n ->] Hs]; split; [by destruct n|]. left; split; [done|split; [eauto|]].
    destruct Hs as [?|(r & ? & _)]; [done|by apply none_zset].
  - intros [Hs [n ->]]; simpl. split; [by case_match|]. right; split; [done|].
    split; [case_match; auto|done].
Qed.

Lemma ps_discard_triple p :
  ps_key p = k → ps_tokens p = T → T ≠ [] →
  triple (permit_rely k T B) (λ s _, zset_with k (λ _, True) s) (discardLateGrant (Release p))
    (λ x _ _, is_error x.2 ErrLost = true ∧ is_error x.2 ErrBusy = false).
Proof.
  intros; unfold discardLateGrant. eapply triple_bind; [by apply ps_Release_triple|].
  intros [p' e]. eapply triple_pre; [apply triple_ret|].
  intros s c [Hb _]; simpl in *. destruct e; simpl in *; by rewrite ?Hb.
Qed.

(** ** Acquisition *)

Definition ps_acquired_post p (x : PermitSet * option error) s c : Prop :=
  match x.2 with
  | None => x.1 = set_grant T true (ps_expiresAt x.1) p ∧ ps_held x.1 s c
  | Some ErrBusy => x.1 = p ∧ zset_with k (none_in T) s
  | Some e => errors_Is e ErrBusy = false
  end.

Lemma granted_zset sc s : zset_with k (granted_at sc) s → zset_with k (λ _, True) s.
Proof. intros (z & ? & ? & _); by exists z. Qed.

Lemma granted_after sc s : B < sc → zset_with k (granted_at sc) s → zset_with k (all_after T B) s.
Proof.
  intros HB (z & Hz & Hx & [H|[_ ?]]); [|lia].
  exists z; split; [done|split; [done|]]; intros t Ht; exists sc; auto.
Qed.

Lemma granted_held p start sc s c :
  whole_ms (ps_ttl p) → sc = UnixMilli start + Milliseconds (ps_ttl p) → start ≤ c →
  zset_with k (granted_at sc) s →
  ps_held (set_grant T true (requestExpiry start (ps_ttl p)) p) s c.
Proof.
  intros Hw -> Hc Hg; split; [simpl; unfold requestExpiry; lia|].
  split; [by eapply granted_zset|]. simpl; intros HB.
  eapply granted_after; [|done]. pose proof (deadline_score start (ps_ttl p) Hw).
  unfold Millisecond in *; lia.
Qed.

Lemma ps_TryAcquire_triple p n :
  ps_key p = k → T = permit_tokens (ps_id p) n → 1 ≤ n → whole_ms (ps_ttl p) →
  triple (permit_rely k T B) (λ s _, zset_with k (none_in T) s) (TryAcquire p n) (ps_acquired_post p).
Proof.
  intros Hk HT Hn Hw; unfold TryAcquire.
  assert (T ≠ []) as HT0.
  { intros E. pose proof (length_permit_tokens (ps_id p) n) as Hl. rewrite <- HT, E in Hl. simpl in Hl; lia. }
  eapply triple_bind; [apply triple_time_now, stable_none|]. intros start; cbn beta.
  rewrite (proj2 (Z.ltb_ge n 1)) by lia. rewrite <- HT, Hk.
  set (sc := UnixMilli start + Milliseconds (ps_ttl p)).
  eapply triple_bind.
  { eapply triple_pre; [apply (triple_redis _ (λ s c, start ≤ c ∧ zset_with k (none_in T) s)
      (λ r s c, start ≤ c ∧ sem_attempt sc r s c))|].
    - apply stable_and; [apply stable_since|apply stable_none].
    - intros r; apply stable_and; [apply stable_since|apply stable_sem_attempt].
    - intros s c H; assert (start ≤ c) by (destruct H as [[? _]|(? & ? & _)]; done).
      split; [done|]. apply serve_sem_attempt; [done|by apply whole_ms_pos|].
      destruct H as [[_ ?]|(r & _ & H)]; [by left|]. destruct r; simpl in H; auto; done.
    - intros s c [? ->]; split; [lia|done]. }
  intros [e|r]; cbn beta iota.
  { eapply triple_pre; [apply triple_ret|]. intros s c [[x ->] _]; by destruct x. }
  destruct r; try (by intros w _ [_ []]); simpl call_Int64;
    [eapply triple_pre; [apply triple_ret|]; by intros s c [_ ?]|].
  eapply triple_bind.
  { apply triple_time_now, stable_and; [apply stable_since|apply (stable_sem_attempt sc (RInt z))]. }
  intros now; cbn beta zeta. destruct (negb _).
  - eapply triple_conseq; [by apply ps_discard_triple|..].
    + intros s c [[_ H] _]; by eapply granted_zset.
    + intros [p' e] s c [Hl Hb]; unfold ps_acquired_post; simpl in *.
      destruct e as [e|]; [by destruct e|done].
  - eapply triple_pre; [apply triple_ret|]. intros s c [[Hc H] _]; unfold ps_acquired_post; simpl.
    split; [done|]. by apply (granted_held p start sc).
Qed.
(** ** Renewal *)

Definition sem_renewing (start : Z) p (r : reply) s c : Prop :=
  (start ≤ c ∧ ps_held p s c) ∧
  match r with
  | RInt z => z = 1 → B < UnixMilli start + Milliseconds (ps_ttl p) → zset_with k (all_after T B) s
  | _ => False
  end.

Lemma stable_sem_renewing start p r : stable (permit_rely k T B) (sem_renewing start p r).
Proof.
  apply stable_and; [apply stable_and; [apply stable_since|apply stable_ps_held]|].
  destruct r; try apply stable_pure. pose proof (stable_after k T B) as [H1 H2]; split; naive_solver.
Qed.

Lemma serve_sem_renewing start p s c :
  whole_ms (ps_ttl p) → start ≤ c → ps_expiresAt p ≤ requestExpiry start (ps_ttl p) → ps_held p s c →
  let x := serve (SemRenew k (UnixMilli start) (Milliseconds (ps_ttl p)) T) s in
  sem_renewing start p x.1 x.2 c.
Proof.
  intros Hw Hc Hexp (Hle & (z & Hz & Hx & _) & Hback); cbn zeta.
  set (req := SemRenew _ _ _ _); set (sc := UnixMilli start + Milliseconds (ps_ttl p)).
  pose proof (deadline_score start (ps_ttl p) Hw) as Hsc; fold sc in Hsc.
  assert (∃ z', zset_of (r_view (serve req s).2) k = Some z' ∧ exp_of (r_view (serve req s).2) k = None ∧
    z' = (if all_live z (UnixMilli start) T then zadd_all sc T z else z) ∧
    (serve req s).1 = RInt (if all_live z (UnixMilli start) T then 1 else 0)) as (z' & Hz' & Hx' & Ez & ->).
  { rewrite serve_reply, serve_view; unfold serve_ref, req; cbn [request_script request_fuel].
    destruct (sem_renew_run (r_clock s) k (UnixMilli start) (Milliseconds (ps_ttl p)) T _ z Hz)
      as (m' & -> & (Hz' & Hx' & _)); simpl. eexists; eauto. }
  destruct (all_live z (UnixMilli start) T) eqn:El; subst z'.
  - assert (B < sc → zset_with k (all_after T B) (serve req s).2) as Hall.
    { intros HB; eexists; split; [exact Hz'|split; [done|]]. intros t Ht; exists sc.
      by rewrite lookup_zadd_all, decide_True. }
    split; [split; [done|split; [done|split; [by eexists|]]]|done].
    intros HB; apply Hall; unfold Millisecond in *; lia.
  - split; [split; [done|split; [done|split; [by eexists|]]]|done].
    intros HB; destruct (Hback HB) as (z1 & Hz1 & _ & H1).
    assert (z1 = z) as -> by congruence. by exists z.
Qed.

Definition ps_renewed p (x : PermitSet * option error) s c : Prop :=
  ps_held x.1 s c ∧ x.1 = set_grant (ps_tokens p) (ps_acquired p) (ps_expiresAt x.1) p ∧
  ps_expiresAt p ≤ ps_expiresAt x.1 ∧ (x.2 ≠ None → x.1 = p).

Lemma ps_renewed_same p e s c : ps_held p s c → ps_renewed p (p, e) s c.
Proof. intros; split; [done|split; [by destruct p|split; [simpl; lia|done]]]. Qed.

Lemma ps_Renew_triple p :
  ps_key p = k → ps_tokens p = T → T ≠ [] → whole_ms (ps_ttl p) →
  triple (permit_rely k T B) (ps_held p) (Renew p) (ps_renewed p).
Proof.
  intros Hk HT HT0 Hw; unfold Renew.
  eapply triple_bind; [apply triple_time_now, stable_ps_held|]. intros start; cbn beta zeta.
  rewrite HT, Hk, bool_decide_eq_false_2 by done.
  set (I := λ s c, ps_expiresAt p ≤ requestExpiry start (ps_ttl p) ∧ start ≤ c ∧ ps_held p s c).
  set (J := λ r s c, ps_expiresAt p ≤ requestExpiry start (ps_ttl p) ∧ sem_renewing start p r s c).
  assert (∀ r, stable (permit_rely k T B) (J r)) as HJ.
  { intros r; apply stable_and; [apply stable_pure|apply stable_sem_renewing]. }
  eapply triple_bind.
  { eapply triple_pre; [apply (triple_redis _ I J)|].
    - apply stable_and; [apply stable_pure|]. apply stable_and; [apply stable_since|apply stable_ps_held].
    - done.
    - intros s c [(? & ? & ?)|[r (? & [? ?] & _)]]; split; try done; by apply serve_sem_renewing.
    - intros s c [[? ?] ->]; split; [done|split; [lia|by split]]. }
  assert (∀ r e, triple (permit_rely k T B) (J r) (mret (p, e)) (ps_renewed p)) as Hsame.
  { intros r e; eapply triple_pre; [apply triple_ret|]. intros s c (_ & [_ ?] & _); by apply ps_renewed_same. }
  intros [e|r]; cbn beta iota.
  { eapply triple_pre; [apply triple_ret|]. intros s c [_ [(_ & _ & ?)|[r (_ & [_ ?] & _)]]];
      by apply ps_renewed_same. }
  destruct r; try (by intros w _ (_ & _ & [])). simpl call_Int64. cbn iota beta.
  destruct (negb (z =? 1)) eqn:Ez; [apply Hsame|].
  apply negb_false_iff, Z.eqb_eq in Ez; subst z.
  eapply triple_bind; [apply triple_time_now, HJ|].
  intros now1; cbn beta; destruct (negb _); [eapply triple_pre; [apply (Hsame (RInt 1))|by intros s c [? _]]|].
  eapply triple_bind; [eapply triple_pre; [apply triple_time_now, (HJ (RInt 1))|by intros s c [? _]]|].
  intros now2; cbn beta; destruct (negb _); [eapply triple_pre; [apply (Hsame (RInt 1))|by intros s c [? _]]|].
  destruct (After (requestExpiry start (ps_ttl p)) (ps_expiresAt p));
    [|eapply triple_pre; [apply (Hsame (RInt 1))|by intros s c [? _]]].
  eapply triple_pre; [apply triple_ret|]. intros s c [(Hexp & [Hc (_ & Hz & _)] & H1) _]; simpl.
  split; [|split; [by rewrite HT|split; [done|by intros []]]].
  split; [simpl; unfold requestExpiry; lia|split; [done|]]. simpl; intros HB; apply H1; [done|].
  pose proof (deadline_score start (ps_ttl p) Hw); unfold Millisecond in *; lia.
Qed.
End triples.

(** ** Permits never exceed the capacity *)

Lemma covered_permits (z : gmap string Z) (T : list string) :
  NoDup T → (∀ t, t ∈ T → is_Some (z !! t)) → (length T ≤ size z)%nat.
Proof.
  intros Hnd Hin. rewrite <- (size_dom (D := gset string)).
  rewrite <- (size_list_to_set (C := gset string) T Hnd).
  apply subseteq_size. intros t Ht%elem_of_list_to_set. by apply elem_of_dom, Hin.
Qed.
