(* ===== verification/PermitSafety.v ===== *)
(** * Permits: what the users of a semaphore may rely on

    Theorems about whole histories of [PermitSet] grants on one sorted set:
    the capacity is never exceeded, grants are all or nothing, renewal and
    release behave as a unit. *)
From S2P Require Import Prelude Redis RedisMem Errors Requests ScriptsSem GoRuntime Scenario.
From S2P Require Import Lease PermitSet.

(** ** Disjoint grants *)

Lemma append_same_length a a' b b' :
  String.length a = String.length a' → a +:+ b = a' +:+ b' → a = a'.
Proof.
  revert a'; induction a as [|ch a IH]; intros [|ch' a']; simpl; try done.
  intros [= Hl] [= -> H]; f_equal; eauto.
Qed.

(** Grants under different owner tokens (which all have the same length)
    share no permit. *)
Lemma permit_tokens_disjoint id id' n n' t :
  String.length id = String.length id' → id ≠ id' →
  t ∈ permit_tokens id n → t ∉ permit_tokens id' n'.
Proof.
  intros Hl Hne (i & -> & _)%list_elem_of_fmap (j & H & _)%list_elem_of_fmap.
  by apply Hne; eapply append_same_length.
Qed.

(** Grants, as owner token and number of permits. *)
Definition grants_total (l : list (string * Z)) : Z := foldr (λ g n, g.2 + n) 0 l.

Definition grant_tokens (g : string * Z) : list string := permit_tokens g.1 g.2.

Lemma grants_total_length l :
  Forall (λ g, 1 ≤ g.2) l → grants_total l = Z.of_nat (length (concat (grant_tokens <$> l))).
Proof.
  induction 1 as [|g l Hg _ IH]; [done|]. rewrite fmap_cons; cbn [concat grants_total foldr].
  rewrite length_app, Nat2Z.inj_add, <- IH.
  unfold grant_tokens at 1; rewrite length_permit_tokens. unfold grants_total; lia.
Qed.

Lemma grants_NoDup l :
  NoDup (fst <$> l) → Forall (λ g, String.length g.1 = 32%nat) l → NoDup (concat (grant_tokens <$> l)).
Proof.
  intros Hnd Hl; induction l as [|g l IH]; [constructor|].
  rewrite fmap_cons in *; cbn [concat]. apply NoDup_cons in Hnd as [Hni Hnd]. apply Forall_cons in Hl as [Hg Hgs].
  apply NoDup_app; split; [apply NoDup_permit_tokens|split; [|by apply IH]].
  intros t Ht Hin. apply list_elem_of_In, List.in_concat in Hin as (T & HT & Hin).
  apply list_elem_of_In, list_elem_of_fmap in HT as (g' & -> & Hg'). apply list_elem_of_In in Hin.
  revert Hin; apply (permit_tokens_disjoint g.1) with (n := g.2); [|intros E|done].
  - rewrite Forall_forall in Hgs. by rewrite Hg, Hgs.
  - apply Hni, list_elem_of_fmap. exists g'; auto.
Qed.

(** Grants whose permits are all in one set are no more than its members. *)
Lemma grants_fit l (z : gmap string Z) :
  NoDup (fst <$> l) → Forall (λ g, String.length g.1 = 32%nat ∧ 1 ≤ g.2) l →
  Forall (λ g, ∀ t, t ∈ grant_tokens g → is_Some (z !! t)) l →
  grants_total l ≤ Z.of_nat (size z).
Proof.
  intros Hnd Hl Hin. rewrite grants_total_length by (eapply Forall_impl; [exact Hl|]; by intros g [_ ?]).
  apply inj_le, covered_permits.
  - apply grants_NoDup; [done|]. eapply Forall_impl; [exact Hl|]. by intros g [? _].
  - intros t Ht. apply list_elem_of_In, List.in_concat in Ht as (T & HT & Ht).
    apply list_elem_of_In, list_elem_of_fmap in HT as (g & -> & Hg). apply list_elem_of_In in Ht.
    rewrite Forall_forall in Hin. by eapply Hin.
Qed.

Section histories.
Context {S : Type} `{!RedisOps S, !RedisLaws S}.
Implicit Types (p : PermitSet) (w : world S).

Definition psession (p : PermitSet) (n : Z) (r : nat) : go S (PermitSet * option error) :=
  '(p, e) ← TryAcquire p n;
  match e with
  | Some e => mret (p, Some e)
  | None => p ← renewals r p; mret (p, None)
  end.

Definition ps_rely (p : PermitSet) (n B : Z) : request → Prop :=
  permit_rely (ps_key p) (permit_tokens (ps_id p) n) B.

Lemma permit_tokens_nonempty id n : 1 ≤ n → permit_tokens id n ≠ [].
Proof.
  intros Hn E; pose proof (length_permit_tokens id n) as H; rewrite E in H; simpl in H; lia.
Qed.

Lemma prenewals_triple p n B r :
  1 ≤ n → whole_ms (ps_ttl p) → ps_tokens p = permit_tokens (ps_id p) n →
  triple (ps_rely p n B) (ps_held (ps_key p) (ps_tokens p) B p) (renewals r p)
    (λ p' s c, ps_held (ps_key p) (ps_tokens p) B p' s c ∧
               p' = set_grant (ps_tokens p) (ps_acquired p) (ps_expiresAt p') p).
Proof.
  intros Hn Hw HT; unfold ps_rely; rewrite <- HT.
  enough (∀ t, let p' := set_grant (ps_tokens p) (ps_acquired p) t p in
    triple (permit_rely (ps_key p) (ps_tokens p) B) (ps_held (ps_key p) (ps_tokens p) B p') (renewals r p')
      (λ p'' s c, ps_held (ps_key p) (ps_tokens p) B p'' s c ∧
                  p'' = set_grant (ps_tokens p) (ps_acquired p) (ps_expiresAt p'') p)) as H.
  { specialize (H (ps_expiresAt p)). cbn zeta in H.
    assert (set_grant (ps_tokens p) (ps_acquired p) (ps_expiresAt p) p = p) as E by (by destruct p).
    by rewrite E in H. }
  induction r as [|r IH]; intros t p'; cbn [renewals].
  { eapply triple_pre; [apply triple_ret|]; done. }
  eapply triple_bind.
  { apply (ps_Renew_triple (ps_key p) (ps_tokens p) B p'); try done.
    rewrite HT; by apply permit_tokens_nonempty. }
  intros [p1 e].
  apply (triple_assume _ (p1 = set_grant (ps_tokens p) (ps_acquired p) (ps_expiresAt p1) p));
    [by intros s c (_ & ? & _)|].
  intros E; rewrite E. eapply triple_pre; [apply (IH (ps_expiresAt p1))|].
  intros s c (Hh & _); simpl in Hh. by rewrite E in Hh.
Qed.

Lemma psession_triple p n B r :
  1 ≤ n → whole_ms (ps_ttl p) →
  triple (ps_rely p n B) (λ s _, zset_with (ps_key p) (none_in (permit_tokens (ps_id p) n)) s)
    (psession p n r)
    (λ x s c, x.2 = None → ps_held (ps_key p) (permit_tokens (ps_id p) n) B x.1 s c ∧
       x.1 = set_grant (permit_tokens (ps_id p) n) true (ps_expiresAt x.1) p).
Proof.
  intros Hn Hw; unfold psession. eapply triple_bind; [by apply ps_TryAcquire_triple|].
  intros [p1 [e|]].
  { eapply triple_pre; [apply triple_ret|]; done. }
  apply (triple_assume _ (p1 = set_grant (permit_tokens (ps_id p) n) true (ps_expiresAt p1) p));
    [by intros s c [? _]|]. intros E.
  assert (ps_tokens p1 = permit_tokens (ps_id p1) n) as HT by (by rewrite E).
  assert (ps_key p1 = ps_key p) as Hk by (by rewrite E).
  eapply triple_bind.
  { assert (ps_rely p n B = ps_rely p1 n B) as -> by (by rewrite E).
    eapply triple_pre; [apply (prenewals_triple p1 n B r); [done|by rewrite E|done]|].
    intros s c [_ Hh]; simpl in Hh. rewrite Hk. by rewrite E in Hh |- *. }
  intros p2; eapply triple_pre; [apply triple_ret|]. intros s c [Hh Heq] _; simpl.
  rewrite E in Hh, Heq; simpl in Hh, Heq. done.
Qed.
End histories.

(** ** The capacity is never exceeded *)
Section capacity.
Context {S : Type} `{!RedisOps S, !RedisLaws S}.

(** One client's history: the grant it asks for and its world. *)
Record history := History { h_set : PermitSet; h_n : Z; h_renewals : nat; h_world : world S }.

Definition h_tokens (g : history) : list string := permit_tokens (ps_id (h_set g)) (h_n g).

(** The history ends in the server state [s] with a grant whose deadline the
    others' clocks have not passed by more than the 1% margin. *)
Definition holding (k : string) (B : Z) (s : S) (g : history) : Prop :=
  let p := h_set g in
  let '((p', e), w') := psession p (h_n g) (h_renewals g) (h_world g) in
  ps_key p = k ∧ whole_ms (ps_ttl p) ∧ 1 ≤ h_n g ∧ String.length (ps_id p) = 32%nat ∧
  world_ok (ps_rely p (h_n g) B) (h_world g) ∧
  zset_with k (none_in (h_tokens g)) (w_srv (h_world g)) ∧
  e = None ∧ w_srv w' = s ∧ Millisecond * B ≤ ps_expiresAt p' + ps_ttl p ÷ 100.

Lemma holding_in_set k B s g z :
  holding k B s g → zset_of (r_view s) k = Some z → ∀ t, t ∈ h_tokens g → is_Some (z !! t).
Proof.
  unfold holding. pose proof (psession_triple (h_set g) (h_n g) B (h_renewals g)) as H.
  destruct (psession _ _ _ _) as [[p' e] w'] eqn:E.
  intros (<- & Hw & Hn & _ & Hok & Hz & -> & <- & Hd) Hz' t Ht.
  destruct (H Hn Hw (h_world g) Hok Hz) as [_ Hp]. rewrite E in Hp; simpl in Hp.
  destruct Hp as [(_ & _ & Hback) Heq]; [done|].
  destruct (Hback ltac:(rewrite Heq; exact Hd)) as (z1 & Hz1 & _ & Hall).
  assert (z1 = z) as -> by congruence. destruct (Hall t Ht) as (sc & -> & _); eauto.
Qed.

Lemma holding_id k B s g : holding k B s g → String.length (ps_id (h_set g)) = 32%nat.
Proof. unfold holding; destruct (psession _ _ _ _) as [[? ?] ?]; tauto. Qed.
Lemma holding_n k B s g : holding k B s g → 1 ≤ h_n g.
Proof. unfold holding; destruct (psession _ _ _ _) as [[? ?] ?]; tauto. Qed.

Definition h_grant (g : history) : string * Z := (ps_id (h_set g), h_n g).

(** A semaphore never gives out more permits than it has.  Take any
    number of clients, each with its own history (acquisition, renewals,
    interference, drift, lost messages) on the same set, all ending in the
    same server state, and none of whose deadlines has passed by more than
    the 1% margin on the clocks ([B]) of the others: the permits they hold
    add up to at most the capacity. *)
Theorem permits_within_capacity k B s cap gs :
  zset_with k (λ z, Z.of_nat (size z) ≤ cap) s →
  Forall (holding k B s) gs →
  NoDup (fst <$> (h_grant <$> gs)) →
  grants_total (h_grant <$> gs) ≤ cap.
Proof.
  intros (z & Hz & _ & Hcap) Hgs Hnd.
  enough (grants_total (h_grant <$> gs) ≤ Z.of_nat (size z)) by lia.
  apply grants_fit; [done|..]; apply Forall_fmap; (eapply Forall_impl; [exact Hgs|]); intros g Hg; simpl.
  - split; [by eapply holding_id|by eapply holding_n].
  - by eapply holding_in_set.
Qed.

(** C31: the set never grows beyond the capacity, whatever the clients send,
    in whatever order, with whatever stamps and durations, as long as they
    agree on the capacity. *)
Theorem capacity_invariant k cap s c steps :
  zset_with k (λ z, Z.of_nat (size z) ≤ cap) s →
  Forall (step_ok (same_capacity k cap)) steps →
  zset_with k (λ z, Z.of_nat (size z) ≤ cap) (env_apply steps (s, c)).1.
Proof.
  intros Hs Hst.
  exact (env_apply_stable _ (λ s _, zset_with k (λ z, Z.of_nat (size z) ≤ cap) s) steps (s, c)
    (stable_capacity k cap) Hst Hs).
Qed.
End capacity.
Arguments History {S} _ _ _ _.

(** ** A responsive server *)
Section responsive.
Context {S : Type} `{!RedisOps S, !RedisLaws S}.
Implicit Types (p : PermitSet) (w : world S).

(** The sorted set at [k], which never expires, is [z]. *)
Definition is_zset (k : string) (z : gmap string Z) (s : S) : Prop :=
  zset_of (r_view s) k = Some z ∧ exp_of (r_view s) k = None.

Lemma is_zset_with k z s : is_zset k z s ↔ zset_with k (eq z) s.
Proof. split; [intros [? ?]; by exists z|intros (z' & ? & ? & ->); by split]. Qed.

Lemma is_zset_tick k z s d : is_zset k z s → is_zset k z (r_tick d s).
Proof. rewrite !is_zset_with; apply zset_with_tick. Qed.

Lemma serve_sem_acquire k z s now ttl cap T :
  is_zset k z s →
  let x := serve (SemAcquire k now ttl cap T) s in
  x.1 = (acquired_set now ttl cap T z).1 ∧ is_zset k (acquired_set now ttl cap T z).2 x.2.
Proof.
  intros [Hz Hx]; unfold is_zset; cbn zeta; rewrite serve_reply, serve_view.
  unfold serve_ref; cbn [request_script request_fuel].
  destruct (sem_acquire_run (r_clock s) k now ttl cap T _ z Hz) as (m' & -> & (? & Hx' & _)); simpl; auto.
Qed.

Lemma count_in_none z T : T ≠ [] → none_in T z → count_in z T ≠ Z.of_nat (length T).
Proof. intros HT H. by apply (count_in_uniform T 0 z HT). Qed.

(** An answered attempt for [n] new permits: the set is [z1] after the
    purge, and they are admitted when they fit. *)
Definition fits p (n : Z) (z1 : gmap string Z) : bool := Z.of_nat (size z1) + n <=? ps_capacity p.

Lemma serve_new_permits p n z s now :
  1 ≤ n → is_zset (ps_key p) z s → none_in (permit_tokens (ps_id p) n) z →
  let T := permit_tokens (ps_id p) n in
  let z1 := zalive now z in
  let x := serve (SemAcquire (ps_key p) now (Milliseconds (ps_ttl p)) (ps_capacity p) T) s in
  x.1 = (if fits p n z1 then RInt (Z.of_nat (size z1) + n) else RNil) ∧
  is_zset (ps_key p) (if fits p n z1 then zadd_all (now + Milliseconds (ps_ttl p)) T z1 else z1) x.2.
Proof.
  intros Hn Hz Hnone; cbn zeta. set (T := permit_tokens (ps_id p) n) in *; set (z1 := zalive now z).
  assert (count_in z1 T ≠ Z.of_nat (length T)) as Hcnt.
  { apply count_in_none; [by apply permit_tokens_nonempty|by apply zalive_none]. }
  assert (Z.of_nat (length T) = n) as Hlen by (unfold T; rewrite length_permit_tokens; lia).
  destruct (serve_sem_acquire (ps_key p) z s now (Milliseconds (ps_ttl p)) (ps_capacity p) T Hz) as [-> Hz'].
  revert Hz'; unfold acquired_set, fits; fold z1. rewrite (proj2 (Z.eqb_neq _ _) Hcnt), Hlen, Z.leb_antisym.
  by destruct (ps_capacity p <? _).
Qed.

Lemma TryAcquire_answered p n z w c1 s1 c2 s2 c3 s3 ts :
  1 ≤ n → is_zset (ps_key p) z (w_srv w) → none_in (permit_tokens (ps_id p) n) z →
  w_turns w = after c1 s1 quiet :: after c2 s2 served :: after c3 s3 quiet :: ts →
  c2 + c3 < ps_ttl p - ps_ttl p ÷ 100 - Millisecond →
  let start := w_now w + c1 in
  let z1 := zalive (UnixMilli start) z in
  let T := permit_tokens (ps_id p) n in
  let x := TryAcquire p n w in
  if fits p n z1 then
    x.1 = (set_grant T true (requestExpiry start (ps_ttl p)) p, None) ∧ w_turns x.2 = ts ∧
    is_zset (ps_key p) (zadd_all (UnixMilli start + Milliseconds (ps_ttl p)) T z1) (w_srv x.2)
  else x.1 = (p, Some ErrBusy) ∧ is_zset (ps_key p) z1 (w_srv x.2).
Proof.
  intros Hn Hz Hnone Ht Htime. cbn zeta. destruct w as [s now turns toks log]; simpl in *; subst turns.
  destruct (serve_new_permits p n z (r_tick s2 (r_tick s1 s)) (UnixMilli (now + c1)) Hn)
    as [Hr Hz']; [by apply is_zset_tick, is_zset_tick|done|].
  unfold TryAcquire, time_now, redis, mbind, go_bind, pass, read_clock, next_turn, set_env; simpl.
  rewrite (proj2 (Z.ltb_ge n 1)) by lia; simpl.
  destruct (serve _ _) as [r s']; simpl in Hr, Hz' |- *; subst r.
  destruct (fits _ _ _); simpl; [|done].
  unfold After. rewrite (proj2 (Z.ltb_lt _ _)) by (unfold requestExpiry; lia); simpl.
  split_and!; [done|done|by apply is_zset_tick].
Qed.

(** C32: an answered attempt for [n] permits is granted exactly when, after
    the expired permits are purged, they fit in the capacity, and then as a
    whole: either all [n] members are in the set, stamped with the client's
    clock plus the duration, or none is and the caller gets [ErrBusy]. *)
Theorem permits_granted_iff_room p n z w c1 s1 c2 s2 c3 s3 ts :
  1 ≤ n → is_zset (ps_key p) z (w_srv w) → none_in (permit_tokens (ps_id p) n) z →
  w_turns w = after c1 s1 quiet :: after c2 s2 served :: after c3 s3 quiet :: ts →
  c2 + c3 < ps_ttl p - ps_ttl p ÷ 100 - Millisecond →
  let start := w_now w + c1 in
  let z1 := zalive (UnixMilli start) z in
  let T := permit_tokens (ps_id p) n in
  let '((p', e), w') := TryAcquire p n w in
  if Z.of_nat (size z1) + n <=? ps_capacity p then
    p' = set_grant T true (requestExpiry start (ps_ttl p)) p ∧ e = None ∧
    is_zset (ps_key p) (zadd_all (UnixMilli start + Milliseconds (ps_ttl p)) T z1) (w_srv w')
  else p' = p ∧ e = Some ErrBusy ∧ is_zset (ps_key p) z1 (w_srv w').
Proof.
  intros Hn Hz Hnone Ht Htime. cbn zeta.
  pose proof (TryAcquire_answered p n z w c1 s1 c2 s2 c3 s3 ts Hn Hz Hnone Ht Htime) as H.
  cbn zeta in H; unfold fits in H. destruct (TryAcquire p n w) as [[p' e] w']; simpl in H.
  case_match; naive_solver.
Qed.

(** An answered release takes all permits of the grant out of the set,
    and nobody else's; the caller gets nil when all were still there and
    [ErrLost] when some had expired.  Either way the grant is over locally. *)
Theorem permits_released p z w dc ds ts :
  ps_tokens p ≠ [] → NoDup (ps_tokens p) → is_zset (ps_key p) z (w_srv w) →
  w_turns w = after dc ds served :: ts →
  let '((p', e), w') := Release p w in
  p' = set_grant [] false time_zero p ∧
  (e = None ↔ ∀ t, t ∈ ps_tokens p → is_Some (z !! t)) ∧ (e = None ∨ e = Some ErrLost) ∧
  ∃ z', is_zset (ps_key p) z' (w_srv w') ∧
        ∀ t, z' !! t = if decide (t ∈ ps_tokens p) then None else z !! t.
Proof.
  intros HT Hnd Hz Ht. destruct w as [s now turns toks log]; simpl in *; subst turns.
  unfold Release; rewrite bool_decide_eq_false_2 by done.
  unfold redis, mbind, go_bind, next_turn, set_env; simpl.
  destruct (is_zset_tick _ _ _ ds Hz) as [Hz1 Hx1].
  pose proof (serve_reply (SemRelease (ps_key p) (ps_tokens p)) (r_tick ds s)) as Hr.
  pose proof (serve_view (SemRelease (ps_key p) (ps_tokens p)) (r_tick ds s)) as Hv.
  destruct (serve _ _) as [r s'] eqn:Es; simpl in Hr, Hv |- *.
  unfold serve_ref in Hr, Hv; cbn [request_script request_fuel] in Hr, Hv.
  destruct (sem_release_run (r_clock (r_tick ds s)) _ (ps_tokens p) _ z Hz1) as (m' & Hrun & (? & Hx' & _)).
  rewrite Hrun in Hr, Hv; simpl in Hr, Hv; subst r; simpl.
  rewrite (zrem_all_count _ _ Hnd).
  split; [done|]. split; [|split; [case_match; auto|]].
  - rewrite <- count_in_all. destruct (Z.eqb_spec (count_in z (ps_tokens p)) (Z.of_nat (length (ps_tokens p))));
      simpl; by split.
  - exists (zrem_all (ps_tokens p) z).2. unfold is_zset; rewrite Hv. split; [auto|].
    intros t; apply zrem_all_lookup.
Qed.

(** What a release takes out is what the acquisition put in. *)
Lemma zadd_all_removed sc T z z' :
  none_in T z → (∀ t, z' !! t = if decide (t ∈ T) then None else zadd_all sc T z !! t) → z' = z.
Proof.
  intros Hn H. apply map_eq; intros t. rewrite H, lookup_zadd_all.
  case_decide; [symmetry; by apply Hn|done].
Qed.

(** C33: acquiring and releasing is a round trip.  Permits that were granted
    and are then given back, at whatever later time [s4] as long as nobody
    purges them in between, leave the semaphore as the purge at the start of
    the attempt left it, so the permits of everybody else keep their
    expiries; the client is back to a set without a grant, and neither call
    returns an error. *)
Theorem permits_returned p n z w c1 s1 c2 s2 c3 s3 c4 s4 ts :
  1 ≤ n → is_zset (ps_key p) z (w_srv w) → none_in (permit_tokens (ps_id p) n) z →
  w_turns w = after c1 s1 quiet :: after c2 s2 served :: after c3 s3 quiet :: after c4 s4 served :: ts →
  c2 + c3 < ps_ttl p - ps_ttl p ÷ 100 - Millisecond →
  let z1 := zalive (UnixMilli (w_now w + c1)) z in
  Z.of_nat (size z1) + n ≤ ps_capacity p →
  let '((p1, e1), w1) := TryAcquire p n w in
  let '((p2, e2), w2) := Release p1 w1 in
  e1 = None ∧ e2 = None ∧ p2 = set_grant [] false time_zero p ∧ is_zset (ps_key p) z1 (w_srv w2).
Proof.
  intros Hn Hz Hnone Ht Htime z1 Hroom.
  pose proof (TryAcquire_answered p n z w c1 s1 c2 s2 c3 s3 _ Hn Hz Hnone Ht Htime) as H.
  cbn zeta in H; fold z1 in H. unfold fits in H; rewrite (proj2 (Z.leb_le _ _) Hroom) in H.
  destruct (TryAcquire p n w) as [[p1 e1] w1]; simpl in H; destruct H as ([= -> ->] & Ht1 & Hz1).
  set (T := permit_tokens (ps_id p) n) in *.
  pose proof (permits_released (set_grant T true (requestExpiry (w_now w + c1) (ps_ttl p)) p)
    _ w1 c4 s4 ts (permit_tokens_nonempty _ _ Hn) (NoDup_permit_tokens _ _) Hz1 Ht1) as H.
  destruct (Release _ w1) as [[p2 e2] w2]; destruct H as (-> & He & _ & z2 & Hz2 & Hl); simpl in *.
  rewrite (zadd_all_removed _ T z1 z2) in Hz2 by (done || by apply zalive_none).
  split_and!; [done| |done|done].
  apply He; intros t HtT. rewrite lookup_zadd_all, decide_True by done; eauto.
Qed.

(** Renewal of a grant is safe under any interference of the other
    users: as long as their clocks have not passed the new deadline by the 1%
    margin, every permit of the grant is in the set and stays there beyond
    their clocks; the deadline moves forward only, and on an error nothing
    changes locally. *)
Theorem permits_renew_backed p n B w p' e w' :
  1 ≤ n → ps_tokens p = permit_tokens (ps_id p) n → whole_ms (ps_ttl p) →
  world_ok (ps_rely p n B) w → holds (ps_held (ps_key p) (ps_tokens p) B p) w →
  Renew p w = ((p', e), w') →
  (Millisecond * B ≤ ps_expiresAt p' + ps_ttl p ÷ 100 →
     ∃ z, zset_of (r_view (w_srv w')) (ps_key p) = Some z ∧
          ∀ t, t ∈ ps_tokens p → ∃ sc, z !! t = Some sc ∧ B < sc) ∧
  ps_expiresAt p ≤ ps_expiresAt p' ∧ (e ≠ None → p' = p).
Proof.
  intros Hn HT Hw Hok Hh E. unfold ps_rely in Hok; rewrite <- HT in Hok.
  assert (ps_tokens p ≠ []) as HT0 by (rewrite HT; by apply permit_tokens_nonempty).
  destruct (ps_Renew_triple (ps_key p) (ps_tokens p) B p eq_refl eq_refl HT0 Hw w Hok Hh)
    as [_ ((_ & _ & Hback) & Heq & Hle & Herr)].
  rewrite E in *; simpl in *. split; [|done]. intros HB.
  destruct Hback as (z & ? & _ & ?); [by rewrite Heq|eauto].
Qed.
End responsive.

(** ** Examples: a semaphore with three permits *)
Module Ex.

Definition id_a : string := "aaaaaaaaaaaaaaaaaaaaaaaaaaaaaaaa".
Definition id_b : string := "bbbbbbbbbbbbbbbbbbbbbbbbbbbbbbbb".
Definition set_of (id : string) : PermitSet :=
  {| ps_id := id; ps_key := "{s}"; ps_ttl := 10 * Second; ps_capacity := 3;
     ps_tokens := []; ps_acquired := false; ps_expiresAt := time_zero |}.
Definition a : PermitSet := set_of id_a.
Definition b : PermitSet := set_of id_b.

Definition ask (id : string) (n now : Z) : request := SemAcquire "{s}" now 10000 3 (permit_tokens id n).

(** [a] takes two permits, then [b] one; each client's view of it. *)
Definition a_view : world mem := at_start 0
  [quiet; served; first_do [wait Second; Other (ask id_b 1 1000)] quiet].
Definition b_view : world mem := at_start 0
  [first_do [Other (ask id_a 2 0); wait Second] quiet; served; quiet].
Definition final : mem := w_srv (psession a 2 0 a_view).2.

Lemma start_zset T t ts : zset_with "{s}" (none_in T) (w_srv (at_start t ts)).
Proof. exists ∅; split; [done|split; [done|]]. by intros x _. Qed.

Lemma not_b t : t ∈ permit_tokens id_b 1 → t ∉ permit_tokens id_a 2.
Proof. by apply permit_tokens_disjoint. Qed.
Lemma not_a t : t ∈ permit_tokens id_a 2 → t ∉ permit_tokens id_b 1.
Proof. by apply permit_tokens_disjoint. Qed.

Lemma pa_a_view_ok : world_ok (ps_rely a 2 1000) a_view.
Proof. solve_sched; right; split; [done|split; [lia|apply not_b]]. Qed.
Lemma pa_b_view_ok : world_ok (ps_rely b 1 1000) b_view.
Proof. solve_sched; right; split; [done|split; [lia|apply not_a]]. Qed.

Lemma holding_intro k B s (g : history (S := mem)) x :
  psession (h_set g) (h_n g) (h_renewals g) (h_world g) = x →
  ps_key (h_set g) = k → whole_ms (ps_ttl (h_set g)) → 1 ≤ h_n g →
  String.length (ps_id (h_set g)) = 32%nat →
  world_ok (ps_rely (h_set g) (h_n g) B) (h_world g) →
  zset_with k (none_in (h_tokens g)) (w_srv (h_world g)) →
  x.1.2 = None → w_srv x.2 = s → Millisecond * B ≤ ps_expiresAt x.1.1 + ps_ttl (h_set g) ÷ 100 →
  holding k B s g.
Proof. unfold holding; intros ->; destruct x as [[p' e] w']; simpl; tauto. Qed.

Lemma a_holding : holding "{s}" 1000 final (History a 2 0 a_view).
Proof.
  eapply holding_intro; [vm_compute; reflexivity|done|by split|simpl; lia|done|apply pa_a_view_ok
    |apply start_zset|vm_compute; reflexivity|vm_compute; reflexivity|vm_compute; discriminate].
Qed.
Lemma b_holding : holding "{s}" 1000 final (History b 1 0 b_view).
Proof.
  eapply holding_intro; [vm_compute; reflexivity|done|by split|simpl; lia|done|apply pa_b_view_ok
    |apply start_zset|vm_compute; reflexivity|vm_compute; reflexivity|vm_compute; discriminate].
Qed.

(** The set at the end of the two histories. *)
Definition members : gmap string Z :=
  <[id_b +:+ "#0" := 11000]> (zadd_all 10000 (permit_tokens id_a 2) ∅).

Lemma pa_final_zset : is_zset "{s}" members final.
Proof. split; by_compute. Qed.

Lemma permits_within_capacity_witness :
  grants_total (h_grant <$> [History a 2 0 a_view; History b 1 0 b_view]) ≤ 3.
Proof.
  apply (permits_within_capacity "{s}" 1000 final).
  - exists members; split; [apply pa_final_zset|split; [apply pa_final_zset|]]. vm_compute; discriminate.
  - constructor; [apply a_holding|constructor; [apply b_holding|constructor]].
  - by_compute.
Defined.

Lemma capacity_invariant_witness :
  zset_with "{s}" (λ z, Z.of_nat (size z) ≤ 3)
    (env_apply [Other (ask id_a 2 0); wait Second; Other (ask id_b 2 1000); Other (ask id_b 1 20000)]
       (mem_empty 0, 0)).1.
Proof.
  apply capacity_invariant.
  - exists ∅; split; [done|split; [done|]]. vm_compute; discriminate.
  - solve_sched; right; by split.
Defined.

(** After [a]'s permits have expired, [b] gets all three. *)
Definition b_late : world mem := World final Second
  [after (14 * Second) (14 * Second) quiet; after 1 1 served; after 1 1 quiet] [] [].
(** Before, two are too many. *)
Definition c_busy : world mem := World final Second [after 0 0 quiet; after 1 1 served; after 1 1 quiet] [] [].
Definition c : PermitSet := set_of "cccccccccccccccccccccccccccccccc".

Lemma members_no_c n : none_in (permit_tokens (ps_id c) n) members.
Proof.
  intros t Ht. unfold members. rewrite lookup_insert_ne, lookup_zadd_all, decide_False; [done|..].
  - by eapply (permit_tokens_disjoint (ps_id c)).
  - intros <-. apply list_elem_of_fmap in Ht as (i & H & _). by apply append_same_length in H.
Qed.

Lemma permits_granted_iff_room_witness :
  (TryAcquire c 3 b_late).1.2 = None ∧ (TryAcquire c 1 c_busy).1.2 = Some ErrBusy.
Proof.
  generalize (permits_granted_iff_room c 3 members b_late (14 * Second) (14 * Second) 1 1 1 1 []
    ltac:(lia) pa_final_zset (members_no_c 3) eq_refl ltac:(vm_compute; reflexivity)).
  generalize (permits_granted_iff_room c 1 members c_busy 0 0 1 1 1 1 []
    ltac:(lia) pa_final_zset (members_no_c 1) eq_refl ltac:(vm_compute; reflexivity)).
  cbn zeta. destruct (TryAcquire c 1 c_busy) as [[p1 e1] w1], (TryAcquire c 3 b_late) as [[p2 e2] w2].
  assert ((Z.of_nat (size (zalive (UnixMilli (w_now c_busy + 0)) members)) + 1 <=? ps_capacity c) = false) as ->
    by (vm_compute; reflexivity).
  assert ((Z.of_nat (size (zalive (UnixMilli (w_now b_late + 14 * Second)) members)) + 3 <=? ps_capacity c) = true)
    as -> by (vm_compute; reflexivity).
  intros (_ & -> & _) (_ & -> & _); split; reflexivity.
Defined.

(** [c] takes the three permits late and gives them back when they have
    expired: [a] and [b] had lost theirs, so nothing is left. *)
Definition c_visits : world mem := World final Second
  [after (14 * Second) (14 * Second) quiet; after 1 1 served; after 1 1 quiet; after Second (20 * Second) served] [] [].

Lemma permits_returned_witness :
  let x := TryAcquire c 3 c_visits in (Release x.1.1 x.2).1 = (c, None).
Proof.
  generalize (permits_returned c 3 members c_visits (14 * Second) (14 * Second) 1 1 1 1 Second (20 * Second) []
    ltac:(lia) pa_final_zset (members_no_c 3) eq_refl ltac:(vm_compute; reflexivity)
    ltac:(vm_compute; discriminate)).
  cbn zeta. destruct (TryAcquire c 3 c_visits) as [[p1 e1] w1]; simpl.
  destruct (Release p1 w1) as [[p2 e2] w2]. by intros (_ & -> & -> & _).
Defined.

(** [a] gives its two permits back. *)
Definition a_granted : PermitSet := set_grant (permit_tokens id_a 2) true (requestExpiry 0 (10 * Second)) a.
Definition a_releases : world mem := World final Second [after 1 1 served] [] [].

Lemma members_a t : t ∈ permit_tokens id_a 2 → is_Some (members !! t).
Proof.
  intros Ht; unfold members.
  rewrite lookup_insert_ne; [rewrite lookup_zadd_all, decide_True by done; eauto|].
  intros <-; revert Ht; apply not_b; apply list_elem_of_fmap; exists 0%nat; split; [done|by left].
Qed.

Lemma permits_released_witness : (Release a_granted a_releases).1 = (a, None).
Proof.
  generalize (permits_released a_granted members a_releases 1 1 []
    ltac:(discriminate) (NoDup_permit_tokens id_a 2) pa_final_zset eq_refl).
  destruct (Release a_granted a_releases) as [[p' e] w'].
  intros (-> & He & _); simpl. rewrite (proj2 He members_a). reflexivity.
Defined.

(** [a] renews at one second; [b] asks for more meanwhile. *)
Definition a_renews : world mem := World final Second
  [first_do [Other (ask id_b 1 1000)] quiet; served; quiet; quiet] [] [].

Lemma pa_a_renews_ok : world_ok (ps_rely a_granted 2 1000) a_renews.
Proof. solve_sched; right; split; [done|split; [lia|apply not_b]]. Qed.

Lemma pa_a_renews_held : holds (ps_held "{s}" (permit_tokens id_a 2) 1000 a_granted) a_renews.
Proof.
  split; [by vm_compute|]. destruct pa_final_zset as [Hz Hx].
  split; [exists members; exact (conj Hz (conj Hx I))|].
  intros _; exists members; split; [exact Hz|split; [exact Hx|]].
  intros t Ht; exists 10000; split; [|lia]. unfold members.
  rewrite lookup_insert_ne; [by rewrite lookup_zadd_all, decide_True|].
  intros <-; revert Ht; apply not_b; apply list_elem_of_fmap; exists 0%nat; split; [done|by left].
Qed.

Lemma a_renewed_covers :
  Millisecond * 1000 ≤ ps_expiresAt (Renew a_granted a_renews).1.1 + (10 * Second) ÷ 100.
Proof. vm_compute; discriminate. Qed.

Lemma permits_renew_backed_witness :
  let x := Renew a_granted a_renews in
  ∃ z, zset_of (r_view (w_srv x.2)) "{s}" = Some z ∧
       ∀ t, t ∈ permit_tokens id_a 2 → ∃ sc, z !! t = Some sc ∧ 1000 < sc.
Proof.
  pose proof a_renewed_covers as Hl.
  intros x; fold x in Hl; destruct x as [[p' e] w'] eqn:E; unfold x in E; simpl in *.
  destruct (permits_renew_backed a_granted 2 1000 a_renews p' e w') as [H _];
    [lia|reflexivity|split; reflexivity|apply pa_a_renews_ok|apply pa_a_renews_held|exact E|exact (H Hl)].
Defined.
End Ex.
