(* ===== verification/Keys.v ===== *)
(** * Key names and cluster slots

    [internal/redis/key.go], and the rule of Redis Cluster it relies on: the
    slot of a key is the CRC16 of its hash tag (the text between the first
    left brace and the first right brace after it, when that is not empty),
    or of the whole key when it has none. *)
From S2P Require Import Prelude.
From Stdlib Require Import Ascii.
Open Scope Z_scope.

Definition lbrace : ascii := "{"%char.
Definition rbrace : ascii := "}"%char.

(** [strings.Contains(s, c)] for one byte. *)
Fixpoint contains (c : ascii) (s : string) : bool :=
  match s with
  | EmptyString => false
  | String a s => bool_decide (a = c) || contains c s
  end.

Definition Key (name : string) : string :=
  if contains lbrace name && contains rbrace name then name
  else "{" +:+ name +:+ "}".

Definition Derived (primary suffix : string) : string := primary +:+ ":" +:+ suffix.

(** ** The slot of a key *)

(** What comes before the first [c], if there is one. *)
Fixpoint before (c : ascii) (s : string) : option string :=
  match s with
  | EmptyString => None
  | String a s => if bool_decide (a = c) then Some EmptyString else String a <$> before c s
  end.

(** What comes after the first [c], if there is one. *)
Fixpoint after_first (c : ascii) (s : string) : option string :=
  match s with
  | EmptyString => None
  | String a s => if bool_decide (a = c) then Some s else after_first c s
  end.

Definition find_tag (k : string) : option string :=
  match after_first lbrace k ≫= before rbrace with
  | Some EmptyString | None => None
  | Some t => Some t
  end.

Definition hash_tag (k : string) : string := default k (find_tag k).

(** CRC-16/XMODEM. *)
Definition crc16_bit (crc : Z) : Z :=
  if Z.testbit crc 15 then Z.lxor ((2 * crc) mod 65536) 4129 else (2 * crc) mod 65536.
Definition crc16_byte (crc : Z) (a : ascii) : Z :=
  Nat.iter 8 crc16_bit (Z.lxor crc (Z.of_nat (nat_of_ascii a) * 256)).
Fixpoint crc16_from (crc : Z) (s : string) : Z :=
  match s with
  | EmptyString => crc
  | String a s => crc16_from (crc16_byte crc a) s
  end.
Definition slot (k : string) : Z := crc16_from 0 (hash_tag k) mod 16384.

(** The examples of the source's tests. *)
Example Key_examples :
  Key <$> ["order:10001"; "{order:10001}"; "user:{id}:cart"; "plain"; ""] =
  ["{order:10001}"; "{order:10001}"; "user:{id}:cart"; "{plain}"; "{}"].
Proof. reflexivity. Qed.
Example crc16_check : crc16_from 0 "123456789" = 12739.
Proof. reflexivity. Qed.

(** ** Lemmas *)

Lemma after_first_app c s t u : after_first c s = Some t → after_first c (s +:+ u) = Some (t +:+ u).
Proof.
  induction s as [|a s IH]; simpl; [done|]. case_bool_decide; [by intros [= ->]|exact IH].
Qed.

Lemma before_app c s t u : before c s = Some t → before c (s +:+ u) = Some t.
Proof.
  revert t; induction s as [|a s IH]; intros t; simpl; [done|]. case_bool_decide; [done|].
  intros (t' & Ht & ->)%fmap_Some. by rewrite (IH t' Ht).
Qed.

Lemma before_none c s u : contains c s = false → before c (s +:+ String c u) = Some s.
Proof.
  induction s as [|a s IH]; simpl; [by rewrite bool_decide_eq_true_2|].
  intros [H1 H2]%orb_false_iff. rewrite H1, IH by done. done.
Qed.

(** ** Distinct keys *)

Lemma append_length_ne a b : b ≠ EmptyString → a +:+ b ≠ a.
Proof. intros Hb; induction a as [|c a IH]; simpl; [done|]. intros [= H]; by apply IH. Qed.

Lemma Derived_ne k s : Derived k s ≠ k.
Proof. by apply append_length_ne. Qed.

Lemma Derived_inj k s s' : Derived k s = Derived k s' → s = s'.
Proof. unfold Derived; intros H%append_inj_l. by simplify_eq. Qed.

(** ** Tags *)

(** A tag stays the tag of every longer key. *)
Lemma find_tag_app k t u : find_tag k = Some t → find_tag (k +:+ u) = Some t.
Proof.
  unfold find_tag. destruct (after_first lbrace k) as [r|] eqn:Ea; [|done].
  rewrite (after_first_app _ _ _ u Ea); simpl. destruct (before rbrace r) as [t'|] eqn:Eb; [|done].
  by rewrite (before_app _ _ _ u Eb).
Qed.

(** Names for which [Key] produces a hash tag: those with a tag of their own,
    and nonempty ones without a right brace. *)
Definition taggable (name : string) : bool :=
  bool_decide (is_Some (find_tag name)) ||
  (negb (bool_decide (name = EmptyString)) && negb (contains rbrace name)).

Lemma Key_tagged name : taggable name = true → is_Some (find_tag (Key name)).
Proof.
  unfold taggable, Key. intros [H|[H1 H2]%andb_true_iff]%orb_true_iff.
  - apply bool_decide_eq_true in H. destruct (contains lbrace name && contains rbrace name) eqn:E; [done|].
    exfalso; revert E H; unfold find_tag.
    destruct (after_first lbrace name) as [r|] eqn:Ea; [|by intros _ []]; simpl.
    destruct (before rbrace r) as [t|] eqn:Eb; [|by intros _ []]. intros E _.
    assert (contains lbrace name = true ∧ (contains rbrace r = true → contains rbrace name = true)) as [Hl Hr].
    { clear -Ea; induction name as [|a name IH]; simpl in *; [done|].
      destruct (bool_decide (a = lbrace)); simpl; [simplify_eq; split; [done|by intros ->; rewrite orb_true_r]|].
      destruct (IH Ea) as [? H]; split; [done|]. intros ?; by rewrite H, orb_true_r. }
    assert (contains rbrace r = true) as Hc.
    { clear -Eb; revert t Eb; induction r as [|a r IH]; simpl; [done|]. intros t.
      destruct (bool_decide (a = rbrace)); [done|]. intros (t' & ? & _)%fmap_Some; by eapply IH. }
    by rewrite Hl, (Hr Hc) in E.
  - apply negb_true_iff in H1, H2. apply bool_decide_eq_false in H1. rewrite H2, andb_false_r.
    unfold find_tag. change (after_first lbrace _) with (Some (name +:+ String rbrace "")).
    cbn [mbind option_bind]. rewrite before_none by done. destruct name; [done|eauto].
Qed.

(** C34: all keys derived from a [taggable] name are on the slot of the
    primary key, so that a script may use them together on a cluster. *)
Theorem derived_keys_share_slot name suffix :
  taggable name = true → slot (Derived (Key name) suffix) = slot (Key name).
Proof.
  intros [t Ht]%Key_tagged. unfold slot, Derived, hash_tag. by rewrite (find_tag_app _ _ _ Ht), Ht.
Qed.

Lemma derived_keys_share_slot_witness :
  slot (Derived (Key "order:10001") "fencing") = slot (Key "order:10001").
Proof. exact (derived_keys_share_slot "order:10001" "fencing" eq_refl). Defined.

(** The names whose key has a hash tag: when both braces occur in the name,
    its own tag counts; otherwise it must not be empty, nor begin with a right
    brace. *)
Definition tagged (name : string) : bool :=
  if contains lbrace name && contains rbrace name then bool_decide (is_Some (find_tag name))
  else match name with EmptyString => false | String a _ => negb (bool_decide (a = rbrace)) end.

Lemma before_absent c s : contains c s = false → before c s = None.
Proof.
  induction s as [|a s IH]; simpl; [done|]. intros [H1 H2]%orb_false_iff. by rewrite H1, IH.
Qed.

Lemma before_absent_app c s u : before c s = None → contains c u = false → before c (s +:+ u) = None.
Proof.
  intros Hs Hu; induction s as [|a s IH]; simpl in *; [by apply before_absent|].
  case_bool_decide; [done|]. destruct (before c s); [done|]. by rewrite IH.
Qed.

Lemma after_first_absent_app c s u : after_first c s = None → after_first c (s +:+ u) = after_first c u.
Proof. induction s as [|a s IH]; simpl; [done|]. case_bool_decide; [done|exact IH]. Qed.

Lemma after_first_contains c d s r : after_first c s = Some r → contains d r = true → contains d s = true.
Proof.
  revert r; induction s as [|a s IH]; intros r; simpl; [done|].
  case_bool_decide; [intros [= ->] ->; apply orb_true_r|]. intros Hr Hd. by rewrite (IH r Hr Hd), orb_true_r.
Qed.

(** What has no tag gets none from a suffix without a right brace. *)
Lemma find_tag_none_app k u : find_tag k = None → contains rbrace u = false → find_tag (k +:+ u) = None.
Proof.
  unfold find_tag; intros Hk Hu. destruct (after_first lbrace k) as [r|] eqn:E; simpl in Hk.
  - rewrite (after_first_app _ _ _ u E); simpl. destruct (before rbrace r) as [t|] eqn:Eb.
    + rewrite (before_app _ _ _ u Eb). by destruct t.
    + by rewrite before_absent_app.
  - rewrite (after_first_absent_app _ _ u E). destruct (after_first lbrace u) as [r|] eqn:Eu; [|done]; simpl.
    rewrite before_absent; [done|]. destruct (contains rbrace r) eqn:Er; [|done].
    by rewrite (after_first_contains _ _ _ _ Eu Er) in Hu.
Qed.

Lemma Key_tag_iff name : tagged name = true ↔ is_Some (find_tag (Key name)).
Proof.
  unfold tagged, Key. destruct (contains lbrace name && contains rbrace name); [apply bool_decide_eq_true|].
  unfold find_tag. change (after_first lbrace ("{" +:+ name +:+ "}")) with (Some (name +:+ "}")). cbn [mbind option_bind].
  destruct name as [|a name]; [by split; [done|intros []]|]. change (String a name +:+ "}") with (String a (name +:+ "}")). cbn [before].
  destruct (bool_decide (a = rbrace)) eqn:E; simpl; [by split; [done|intros []]|].
  destruct (before rbrace (name +:+ "}")) as [t|] eqn:Eb; [split; [by eexists|done]|].
  exfalso. clear -Eb. induction name as [|b name IH]; simpl in Eb; [done|].
  destruct (bool_decide _); [done|]. destruct (before rbrace (name +:+ "}")); [done|by apply IH].
Qed.

(** C35: where the guarantee ends.  The cluster hashes the same text for all
    keys of a name exactly when the name is [tagged]: then every derived key is
    hashed by the tag of the primary key.  For every other name (an empty one,
    one that begins with a right brace, one whose braces are out of order or
    enclose nothing) [Key] makes no tag: each key is hashed as a whole, and no
    two of the keys derived with suffixes without a right brace, nor any of
    them and the primary key, are hashed by the same text. *)
Theorem hashed_text_exact name :
  if tagged name then ∀ s, hash_tag (Derived (Key name) s) = hash_tag (Key name)
  else ∀ s, contains rbrace s = false →
    hash_tag (Derived (Key name) s) ≠ hash_tag (Key name) ∧
    ∀ s', contains rbrace s' = false → s ≠ s' → hash_tag (Derived (Key name) s) ≠ hash_tag (Derived (Key name) s').
Proof.
  pose proof (Key_tag_iff name) as Hk. destruct (tagged name).
  - destruct (proj1 Hk eq_refl) as [t Ht]. intros s. unfold Derived, hash_tag.
    by rewrite (find_tag_app _ _ _ Ht), Ht.
  - assert (find_tag (Key name) = None) as Hnone.
    { destruct (find_tag (Key name)) as [t|]; [|done]. discriminate (proj2 Hk (ex_intro _ t eq_refl)). }
    assert (∀ s, contains rbrace s = false → hash_tag (Derived (Key name) s) = Derived (Key name) s) as Hw.
    { intros s Hs. unfold hash_tag, Derived. by rewrite find_tag_none_app. }
    intros s Hs. rewrite (Hw s Hs). split.
    + unfold hash_tag; rewrite Hnone. apply Derived_ne.
    + intros s' Hs' Hne. rewrite (Hw s' Hs'). by intros ?%Derived_inj.
Qed.

(** Such keys do end up on different slots, and a script on them fails on a
    cluster. *)
Example untagged_names_cross_slots :
  Forall (λ name, tagged name = false ∧ slot (Derived (Key name) "fencing") ≠ slot (Key name)) [""; "}a"; "}a{"; "{}a"].
Proof. repeat (apply Forall_cons; split; [cbn beta; split; [reflexivity|vm_compute; discriminate]|]). by apply Forall_nil. Qed.
