(* ===== verification/Backoff.v ===== *)
(** * Backoff and heartbeat intervals

    [retryPolicy.delay] of [options.go] and [renewalInterval] of [guard.go]:
    the computations with [float64].

    A nonnegative [float64] is kept as an integer number of units [2^-s],
    with the scale [s] fixed by its place in the computation; an operation is
    the exact one on integers followed by [rnd64], the rounding to 53
    significant bits.  Subnormal numbers do not occur, and where a double
    would overflow the exact value is larger than any duration. *)
From S2P Require Import Prelude.
Open Scope Z_scope.

(** Round to nearest, ties to even, at 53 significant bits. *)
Definition rnd64 (v : Z) : Z :=
  if v <? 2 ^ 53 then v
  else
    let n := Z.log2 v - 52 in
    let q := v / 2 ^ n in
    let r := v mod 2 ^ n in
    let half := 2 ^ (n - 1) in
    (if (r <? half) || ((r =? half) && Z.even q) then q else q + 1) * 2 ^ n.

(** [0.8] in units of 2^-52 and [0.4] in units of 2^-53. *)
Definition lit_0_8 : Z := 3602879701896397.
Definition lit_0_4 : Z := 3602879701896397.

(** [0.8 + 0.4*rand.Float64()] in units of 2^-106; [rand.Float64()] is
    [u / 2^53] with [0 <= u < 2^53]. *)
Definition jitter (u : Z) : Z := rnd64 (lit_0_8 * 2 ^ 54 + rnd64 (lit_0_4 * u)).

(** [time.Duration(d * jitter)] for the [float64] with the integer value [d]. *)
Definition jittered (d u : Z) : Z := rnd64 (d * jitter u) / 2 ^ 106.

Record retryPolicy := { rp_base : Z; rp_max : Z }.

(** [retryPolicy.delay(attempt)], with the random number of this call. *)
Definition delay (r : retryPolicy) (attempt u : Z) : Z :=
  let base := if rp_base r <=? 0 then 50 * Millisecond else rp_base r in
  let max := if rp_max r <=? 0 then 2 * Second else rp_max r in
  let d := rnd64 (rnd64 base * 2 ^ attempt) in
  let d := if rnd64 max <? d then rnd64 max else d in
  jittered d u.

(** [renewalInterval(ttl)] *)
Definition renewalInterval (ttl u : Z) : Z :=
  let base := ttl ÷ 3 in
  let base := if base <=? 0 then Second else base in
  jittered (rnd64 base) u.

(** ** Bounds *)

Lemma rnd64_small v : v ≤ 2 ^ 53 → rnd64 v = v.
Proof.
  intros H. destruct (Z.lt_ge_cases v (2 ^ 53)) as [Hlt|Hge].
  - unfold rnd64. by rewrite (proj2 (Z.ltb_lt _ _) Hlt).
  - assert (v = 2 ^ 53) as -> by lia. reflexivity.
Qed.

Lemma rnd64_nonneg v : 0 ≤ v → 0 ≤ rnd64 v.
Proof.
  intros Hv; unfold rnd64. destruct (Z.ltb_spec v (2 ^ 53)); [done|].
  assert (0 ≤ v / 2 ^ (Z.log2 v - 52)) by (apply Z.div_pos; [lia|apply Z.pow_pos_nonneg; [lia|]];
    pose proof (Z.log2_le_mono (2 ^ 53) v); rewrite Z.log2_pow2 in *; lia).
  apply Z.mul_nonneg_nonneg; [case_match; lia|apply Z.pow_nonneg; lia].
Qed.

(** The relative error is at most 2^-53. *)
Lemma rnd64_error v : 0 ≤ v → Z.abs (2 ^ 53 * (rnd64 v - v)) ≤ v.
Proof.
  intros Hv; unfold rnd64. destruct (Z.ltb_spec v (2 ^ 53)) as [|Hge]; [rewrite Z.sub_diag; simpl; lia|].
  cbn zeta. set (n := Z.log2 v - 52).
  assert (1 ≤ n) as Hn.
  { pose proof (Z.log2_le_mono (2 ^ 53) v ltac:(lia)) as Hl. rewrite Z.log2_pow2 in Hl by lia. unfold n; lia. }
  destruct (Z.log2_spec v ltac:(lia)) as [Hlo _].
  assert (2 ^ Z.log2 v = 2 ^ 53 * 2 ^ (n - 1)) as Hp
    by (rewrite <- Z.pow_add_r by lia; f_equal; unfold n; lia).
  assert (2 ^ n = 2 * 2 ^ (n - 1)) as H2 by (rewrite <- Z.pow_succ_r by lia; f_equal; lia).
  set (h := 2 ^ (n - 1)) in *. assert (0 < h) by (apply Z.pow_pos_nonneg; lia).
  rewrite H2. pose proof (Z.div_mod v (2 * h) ltac:(lia)) as Hdm.
  pose proof (Z.mod_pos_bound v (2 * h) ltac:(lia)) as Hmb.
  set (q := v / (2 * h)) in *; set (r := v mod (2 * h)) in *.
  assert (Z.abs ((if (r <? h) || ((r =? h) && Z.even q) then q else q + 1) * (2 * h) - v) ≤ h) as He.
  { destruct (Z.ltb_spec r h), (Z.eqb_spec r h); simpl; try (destruct (Z.even q)); lia. }
  rewrite Z.abs_mul. change (Z.abs (2 ^ 53)) with (2 ^ 53). lia.
Qed.

Lemma rnd64_bounds v : 0 ≤ v → (2 ^ 53 - 1) * v ≤ 2 ^ 53 * rnd64 v ≤ (2 ^ 53 + 1) * v.
Proof. intros H; pose proof (rnd64_error v H). lia. Qed.

(** The jitter is between 0.8 and 1.2, up to rounding. *)
Lemma jitter_bounds u :
  0 ≤ u < 2 ^ 53 →
  4 * 2 ^ 106 * (2 ^ 52 - 1) ≤ 5 * 2 ^ 52 * jitter u ∧
  5 * 2 ^ 51 * jitter u ≤ 6 * 2 ^ 106 * (2 ^ 51 + 1).
Proof.
  intros Hu; unfold jitter. pose proof (rnd64_bounds (lit_0_4 * u) ltac:(unfold lit_0_4; lia)) as H1.
  pose proof (rnd64_nonneg (lit_0_4 * u) ltac:(unfold lit_0_4; lia)).
  pose proof (rnd64_bounds (lit_0_8 * 2 ^ 54 + rnd64 (lit_0_4 * u)) ltac:(unfold lit_0_8; lia)) as H2.
  unfold lit_0_4, lit_0_8 in *. lia.
Qed.

Lemma jittered_bounds d u :
  0 ≤ d → 0 ≤ u < 2 ^ 53 →
  4 * d * (2 ^ 50 - 1) ≤ 5 * 2 ^ 50 * (jittered d u + 1) ∧
  5 * 2 ^ 50 * jittered d u ≤ 6 * d * (2 ^ 50 + 1).
Proof.
  intros Hd Hu. destruct (jitter_bounds u Hu) as [Hlo Hhi]. unfold jittered. set (j := jitter u) in *.
  assert (0 ≤ j) by lia. pose proof (rnd64_bounds (d * j) ltac:(nia)) as Hr. set (x := rnd64 (d * j)) in *.
  pose proof (Z.div_mod x (2 ^ 106) ltac:(lia)). pose proof (Z.mod_pos_bound x (2 ^ 106) ltac:(lia)).
  assert (4 * 2 ^ 106 * (2 ^ 52 - 1) * d ≤ 5 * 2 ^ 52 * (d * j)) by nia.
  assert (5 * 2 ^ 51 * (d * j) ≤ 6 * 2 ^ 106 * (2 ^ 51 + 1) * d) by nia.
  set (y := d * j) in *. split; lia.
Qed.

(** The exponential backoff before jitter. *)
Definition backoff (r : retryPolicy) (attempt : Z) : Z :=
  let base := if rp_base r <=? 0 then 50 * Millisecond else rp_base r in
  let max := if rp_max r <=? 0 then 2 * Second else rp_max r in
  Z.min (base * 2 ^ attempt) max.

Lemma backoff_pos r attempt : 0 ≤ attempt → 1 ≤ backoff r attempt.
Proof.
  intros Ha; unfold backoff. assert (0 < 2 ^ attempt) by (apply Z.pow_pos_nonneg; lia).
  destruct (Z.leb_spec (rp_base r) 0), (Z.leb_spec (rp_max r) 0);
    unfold Second, Millisecond in *; nia.
Qed.

(** Up to 104 days the conversions to [float64] are exact. *)
Lemma delay_jittered r attempt u :
  0 ≤ attempt → rp_base r < 2 ^ 53 → rp_max r < 2 ^ 53 →
  delay r attempt u = jittered (backoff r attempt) u.
Proof.
  intros Ha Hb Hm; unfold delay, backoff; cbn zeta. f_equal.
  set (base := if rp_base r <=? 0 then _ else _); set (max := if rp_max r <=? 0 then _ else _).
  assert (0 < base < 2 ^ 53) as Hbase
    by (unfold base; destruct (Z.leb_spec (rp_base r) 0); unfold Millisecond in *; lia).
  assert (0 < max < 2 ^ 53) as Hmax
    by (unfold max; destruct (Z.leb_spec (rp_max r) 0); unfold Second, Millisecond in *; lia).
  rewrite (rnd64_small base), (rnd64_small max) by lia.
  assert (0 < 2 ^ attempt) by (apply Z.pow_pos_nonneg; lia).
  set (v := base * 2 ^ attempt). assert (0 ≤ v) as Hv by (unfold v; nia).
  destruct (Z.le_gt_cases v (2 ^ 53)) as [Hle|Hgt].
  - rewrite (rnd64_small v) by lia. destruct (Z.ltb_spec max v); lia.
  - pose proof (rnd64_bounds v Hv). destruct (Z.ltb_spec max (rnd64 v)); lia.
Qed.

(** C36: the backoff of every retry loop.  The pause before attempt [n+1] is
    the base doubled [n] times, capped by the maximum, within a jitter of 20%
    either way: at most [1.2 * min(base * 2^n, max)] and at least [0.8] of it
    less a nanosecond, up to the rounding of [float64] (a relative 2^-50).
    A policy without positive bounds uses 50 ms and 2 s. *)
Theorem delay_bounds r attempt u :
  0 ≤ attempt → 0 ≤ u < 2 ^ 53 → rp_base r < 2 ^ 53 → rp_max r < 2 ^ 53 →
  4 * backoff r attempt * (2 ^ 50 - 1) ≤ 5 * 2 ^ 50 * (delay r attempt u + 1) ∧
  5 * 2 ^ 50 * delay r attempt u ≤ 6 * backoff r attempt * (2 ^ 50 + 1).
Proof.
  intros Ha Hu Hb Hm. rewrite delay_jittered by done. apply jittered_bounds; [|done].
  pose proof (backoff_pos r attempt Ha); lia.
Qed.

Definition default_policy : retryPolicy := {| rp_base := 50 * Millisecond; rp_max := 2 * Second |}.

Lemma delay_bounds_witness :
  4 * backoff default_policy 10 * (2 ^ 50 - 1) ≤ 5 * 2 ^ 50 * (delay default_policy 10 12345 + 1) ∧
  5 * 2 ^ 50 * delay default_policy 10 12345 ≤ 6 * backoff default_policy 10 * (2 ^ 50 + 1).
Proof. apply (delay_bounds default_policy 10 12345); unfold default_policy, Second, Millisecond; simpl; lia. Defined.

(** The pause of the default policy is never zero. *)
Lemma delay_pos r attempt u :
  0 ≤ attempt → 0 ≤ u < 2 ^ 53 → rp_base r < 2 ^ 53 → rp_max r < 2 ^ 53 →
  3 ≤ backoff r attempt → 1 ≤ delay r attempt u.
Proof.
  intros Ha Hu Hb Hm H3. rewrite delay_jittered by done.
  destruct (jittered_bounds (backoff r attempt) u) as [H _]; lia.
Qed.

(** Heartbeats are frequent enough.  For a lease of up to 104 days and
    at least 3 ns, the interval drawn for the renewal loop is between
    0.8 and 1.2 of a third of the duration (up to rounding), so that two
    missed heartbeats still fit in the lease. *)
Theorem renewalInterval_bounds ttl u :
  3 ≤ ttl < 2 ^ 53 → 0 ≤ u < 2 ^ 53 →
  4 * (ttl ÷ 3) * (2 ^ 50 - 1) ≤ 5 * 2 ^ 50 * (renewalInterval ttl u + 1) ∧
  5 * 2 ^ 50 * renewalInterval ttl u ≤ 6 * (ttl ÷ 3) * (2 ^ 50 + 1) ∧
  2 * renewalInterval ttl u < ttl.
Proof.
  intros Ht Hu; unfold renewalInterval; cbn zeta.
  assert (1 ≤ ttl ÷ 3 ∧ 3 * (ttl ÷ 3) ≤ ttl) as [Hb Hb'].
  { rewrite Z.quot_div_nonneg by lia. pose proof (Z.div_mod ttl 3). pose proof (Z.mod_pos_bound ttl 3). lia. }
  rewrite (proj2 (Z.leb_gt _ _)), rnd64_small by lia.
  destruct (jittered_bounds (ttl ÷ 3) u) as [Hlo Hhi]; [lia|done|]. split; [exact Hlo|split; [exact Hhi|]]. lia.
Qed.

Lemma renewalInterval_bounds_witness : 2 * renewalInterval (10 * Second) 999 < 10 * Second.
Proof. apply (renewalInterval_bounds (10 * Second) 999); [by vm_compute|lia]. Defined.

(** ** A lower bound on every pause *)

Definition min_pause (r : retryPolicy) : Z := backoff r 0 / 2.

Lemma backoff_mono r a : 0 ≤ a → backoff r 0 ≤ backoff r a.
Proof.
  intros Ha; unfold backoff. assert (1 ≤ 2 ^ a) by (change 1 with (2 ^ 0); apply Z.pow_le_mono_r; lia).
  rewrite Z.pow_0_r. destruct (Z.leb_spec (rp_base r) 0); unfold Millisecond; nia.
Qed.

(** Policies within the exact range of [float64] and above the nanosecond
    scale. *)
Definition policy_ok (r : retryPolicy) : Prop :=
  rp_base r < 2 ^ 53 ∧ rp_max r < 2 ^ 53 ∧ 4 ≤ backoff r 0.

Lemma min_pause_pos r : policy_ok r → 1 ≤ min_pause r.
Proof. unfold policy_ok, min_pause; intros (_ & _ & H). apply Z.div_le_lower_bound; lia. Qed.

Lemma delay_min r a u : policy_ok r → 0 ≤ a → 0 ≤ u < 2 ^ 53 → min_pause r ≤ delay r a u.
Proof.
  intros (Hb & Hm & H4) Ha Hu. rewrite delay_jittered by done.
  pose proof (backoff_mono r a Ha). destruct (jittered_bounds (backoff r a) u) as [Hj _]; [lia|done|].
  unfold min_pause. pose proof (Z.mul_div_le (backoff r 0) 2 ltac:(lia)). lia.
Qed.

(** ** An upper bound on every pause *)

Definition max_pause (r : retryPolicy) : Z :=
  6 * (if rp_max r <=? 0 then 2 * Second else rp_max r) * (2 ^ 50 + 1) / (5 * 2 ^ 50).

Lemma delay_max r a u : policy_ok r → 0 ≤ a → 0 ≤ u < 2 ^ 53 → delay r a u ≤ max_pause r.
Proof.
  intros (Hb & Hm & H4) Ha Hu. rewrite delay_jittered by done.
  pose proof (backoff_mono r a Ha). destruct (jittered_bounds (backoff r a) u) as [_ Hj]; [lia|done|].
  unfold max_pause. apply Z.div_le_lower_bound; [lia|].
  set (m := if rp_max r <=? 0 then _ else _). assert (backoff r a ≤ m) by apply Z.le_min_r. lia.
Qed.

Lemma max_pause_pos r : policy_ok r → 0 ≤ max_pause r.
Proof.
  intros Hp. pose proof (delay_max r 0 0 Hp ltac:(lia) ltac:(lia)). pose proof (delay_min r 0 0 Hp ltac:(lia) ltac:(lia)).
  pose proof (min_pause_pos r Hp). lia.
Qed.
