(* ===== verification/Config.v ===== *)
(** * Configuration

    [options.go] and [dist.go]: the per-primitive configuration, the client
    with its defaults, and how options are applied. *)
From S2P Require Import Prelude Backoff.
Open Scope Z_scope.

Record config := {
  cfg_ttl : Z;
  cfg_autoRenew : bool;
  cfg_retry : retryPolicy;
  cfg_fencing : bool;
  cfg_watchdog : bool;
}.

Definition set_ttl (d : Z) (c : config) : config :=
  {| cfg_ttl := d; cfg_autoRenew := cfg_autoRenew c; cfg_retry := cfg_retry c;
     cfg_fencing := cfg_fencing c; cfg_watchdog := cfg_watchdog c |}.
Definition set_autoRenew (b : bool) (c : config) : config :=
  {| cfg_ttl := cfg_ttl c; cfg_autoRenew := b; cfg_retry := cfg_retry c;
     cfg_fencing := cfg_fencing c; cfg_watchdog := cfg_watchdog c |}.
Definition set_retry (r : retryPolicy) (c : config) : config :=
  {| cfg_ttl := cfg_ttl c; cfg_autoRenew := cfg_autoRenew c; cfg_retry := r;
     cfg_fencing := cfg_fencing c; cfg_watchdog := cfg_watchdog c |}.
Definition set_fencing (b : bool) (c : config) : config :=
  {| cfg_ttl := cfg_ttl c; cfg_autoRenew := cfg_autoRenew c; cfg_retry := cfg_retry c;
     cfg_fencing := b; cfg_watchdog := cfg_watchdog c |}.
Definition set_watchdog (b : bool) (c : config) : config :=
  {| cfg_ttl := cfg_ttl c; cfg_autoRenew := cfg_autoRenew c; cfg_retry := cfg_retry c;
     cfg_fencing := cfg_fencing c; cfg_watchdog := b |}.

(** [type Option func( *config)], and the constructors of [options.go]. *)
Definition Option : Type := config → config.
Definition OptLease (d : Z) : Option := set_ttl d.
Definition AutoRenew : Option := set_autoRenew true.
Definition NoAutoRenew : Option := set_autoRenew false.
Definition Watchdog : Option := set_watchdog true.
Definition Fencing : Option := set_fencing true.
Definition Retry (base max : Z) : Option := set_retry {| rp_base := base; rp_max := max |}.

(** The sinks a client reports to, by what was installed. *)
Inductive Metrics := noopMetrics | metricsSink (name : string).
Inductive Tracer := noopTracer | tracerSink (name : string).

Record Client := {
  c_metrics : Metrics;
  c_tracer : Tracer;
  c_defaults : config;
}.

Definition set_defaults (f : config → config) (c : Client) : Client :=
  {| c_metrics := c_metrics c; c_tracer := c_tracer c; c_defaults := f (c_defaults c) |}.

(** [type ClientOption func( *Client)]; a nil sink is ignored. *)
Definition ClientOption : Type := Client → Client.
Definition WithMetrics (m : option Metrics) : ClientOption := λ c,
  match m with
  | Some m => {| c_metrics := m; c_tracer := c_tracer c; c_defaults := c_defaults c |}
  | None => c
  end.
Definition WithTracer (t : option Tracer) : ClientOption := λ c,
  match t with
  | Some t => {| c_metrics := c_metrics c; c_tracer := t; c_defaults := c_defaults c |}
  | None => c
  end.
Definition WithDefaultLease (d : Z) : ClientOption := set_defaults (set_ttl d).
Definition WithAutoRenew (enabled : bool) : ClientOption := set_defaults (set_autoRenew enabled).
Definition WithRetry (base max : Z) : ClientOption :=
  set_defaults (set_retry {| rp_base := base; rp_max := max |}).

Definition New (opts : list ClientOption) : Client :=
  foldl (λ c o, o c)
    {| c_metrics := noopMetrics; c_tracer := noopTracer;
       c_defaults := {| cfg_ttl := 10 * Second; cfg_autoRenew := true;
                        cfg_retry := {| rp_base := 50 * Millisecond; rp_max := 2 * Second |};
                        cfg_fencing := false; cfg_watchdog := false |} |}
    opts.

(** [Client.resolved(opts...)] *)
Definition resolved (c : Client) (opts : list Option) : config :=
  let cfg := foldl (λ cfg o, o cfg) (c_defaults c) opts in
  if cfg_ttl cfg <=? 0 then set_ttl (cfg_ttl (c_defaults c)) cfg else cfg.

(** The configuration a primitive runs with.  Options apply over the
    client's defaults in order, the last one winning; a duration that is not
    positive is replaced by the client's, which leaves the rest as set. *)
Theorem resolved_spec c opts :
  let cfg := foldl (λ cfg o, o cfg) (c_defaults c) opts in
  resolved c opts = set_ttl (if cfg_ttl cfg <=? 0 then cfg_ttl (c_defaults c) else cfg_ttl cfg) cfg ∧
  (0 < cfg_ttl (c_defaults c) → 0 < cfg_ttl (resolved c opts)) ∧
  (∀ d, 0 < d → resolved c (opts ++ [OptLease d]) = set_ttl d cfg) ∧
  (∀ d, d ≤ 0 → resolved c (opts ++ [OptLease d]) = set_ttl (cfg_ttl (c_defaults c)) cfg).
Proof.
  intros cfg; unfold resolved; fold cfg. split_and!.
  - case_match; [done|by destruct cfg].
  - destruct (Z.leb_spec (cfg_ttl cfg) 0); simpl; lia.
  - intros d Hd; rewrite foldl_app; fold cfg; simpl. by rewrite (proj2 (Z.leb_gt _ _)) by lia.
  - intros d Hd; rewrite foldl_app; fold cfg; simpl. by rewrite (proj2 (Z.leb_le _ _)) by lia.
Qed.
