(* ===== verification/Renewer.v ===== *)
(** * The heartbeat loop

    [internal/lease/renewer.go]: one goroutine that calls [renew] on every
    tick until it is stopped or ownership is definitively lost.  The state
    [T] stands for what the [renew] and [onLost] closures capture.

    [Stop] cancels the renewer's context; the loop sees that at a time the
    schedule decides, [rn_cancel]. *)
From S2P Require Import Prelude Redis RedisMem Errors Requests GoRuntime Scenario.
Open Scope Z_scope.

Record Renewer := {
  rn_interval : Z;
  rn_cancel : option Z;   (** when its context is canceled *)
  rn_started : bool;      (** [startOnce] has run, from [Start] or [Stop] *)
  rn_done : bool;         (** [done] is closed *)
}.

Definition NewRenewer (interval : Z) : Renewer :=
  {| rn_interval := interval; rn_cancel := None; rn_started := false; rn_done := false |}.

(** [Start]: true when this call launches the loop. *)
Definition Start (r : Renewer) : Renewer * bool :=
  ({| rn_interval := rn_interval r; rn_cancel := rn_cancel r; rn_started := true; rn_done := rn_done r |},
   negb (rn_started r)).

Definition cancel_at (now : Z) (r : Renewer) : Renewer :=
  {| rn_interval := rn_interval r;
     rn_cancel := Some (match rn_cancel r with Some t => Z.min t now | None => now end);
     rn_started := rn_started r; rn_done := rn_done r |}.

(** How the loop ended. *)
Inductive loop_exit := Stopped | LostOwnership | OutOfFuel.

(** A ticker holds one tick at most: the ticks between the one received and
    the time it is received at are dropped. *)
Definition next_tick (interval tick now : Z) : Z := tick + interval * ((now - tick) / interval + 1).

Section renewer.
Context {S : Type} `{!RedisOps S} {T : Type}.
Context (renew : T → go S (T * option error)) (onLost : T → go S T).

(** [Stop]: cancel, close [done] if the loop never started, and wait for
    [done]; while it waits, the others go on. *)
Definition Stop (r : Renewer) : go S Renewer :=
  now ← read_clock;
  t ← next_turn;
  _ ← pass (t_before t);
  let r := cancel_at now r in
  mret {| rn_interval := rn_interval r; rn_cancel := rn_cancel r; rn_started := true; rn_done := true |}.

Definition rn_ctx (r : Renewer) : context := Ctx (rn_cancel r) ErrCanceled.

(** [loop], from the tick that comes next. *)
Fixpoint loop (fuel : nat) (r : Renewer) (tick : Z) (t : T) : go S (T * loop_exit) :=
  match fuel with
  | O => mret (t, OutOfFuel)
  | Datatypes.S fuel =>
      now ← read_clock;
      stop ← select_ctx_timer (rn_ctx r) (tick - now);
      if (stop : bool) then mret (t, Stopped)
      else
        now ← read_clock;
        let tick := next_tick (rn_interval r) tick now in
        c1 ← ctx_Err (rn_ctx r);
        match c1 with
        | Some _ => mret (t, Stopped)
        | None =>
            '(t, err) ← renew t;
            c2 ← ctx_Err (rn_ctx r);
            match c2 with
            | Some _ => mret (t, Stopped)
            | None =>
                match err with
                | None => loop fuel r tick t
                | Some e =>
                    if errors_Is e ErrLost then t ← onLost t; mret (t, LostOwnership)
                    else loop fuel r tick t
                end
            end
        end
  end.

(** ** Termination *)

Lemma next_tick_later interval tick now :
  0 < interval → tick ≤ now → now < next_tick interval tick now ∧ tick + interval ≤ next_tick interval tick now.
Proof.
  intros Hi Hn; unfold next_tick. pose proof (Z.div_mod (now - tick) interval ltac:(lia)).
  pose proof (Z.mod_pos_bound (now - tick) interval Hi).
  pose proof (Z.div_pos (now - tick) interval ltac:(lia) Hi). nia.
Qed.

(** The select takes the tick only once it is due. *)
Lemma select_tick ctx d (w : world S) :
  (select_ctx_timer ctx d w).1 = false → w_now w + d ≤ w_now (select_ctx_timer ctx d w).2.
Proof.
  unfold select_ctx_timer. pose proof (next_turn_env w) as [_ En].
  destruct (next_turn w) as [t w1]; simpl in *. set (x := env_apply (t_before t) (w_srv w1, w_now w1)).
  rewrite En; unfold ctx_err. destruct (ctx_done_at ctx) as [T0|]; simpl; [|lia].
  destruct (Z.leb_spec T0 (x.2 + Z.max 0 (Z.min T0 (w_now w + d) - x.2))); simpl.
  - destruct (Z.leb_spec (w_now w + d) (x.2 + Z.max 0 (Z.min T0 (w_now w + d) - x.2))); done.
  - lia.
Qed.

(** The number of ticks before the cancellation, and one more. *)
Definition ticks_left (interval stop tick : Z) : nat := Z.to_nat (1 + Z.max 0 ((stop - tick) / interval + 1)).

Lemma ticks_left_pos interval stop tick : (1 ≤ ticks_left interval stop tick)%nat.
Proof. unfold ticks_left; lia. Qed.

Lemma ticks_left_step interval stop tick tick' :
  0 < interval → tick < stop → tick + interval ≤ tick' →
  (ticks_left interval stop tick' < ticks_left interval stop tick)%nat.
Proof.
  intros Hi Hs Ht; unfold ticks_left.
  assert (0 ≤ (stop - tick) / interval) by (apply Z.div_pos; lia).
  assert ((stop - tick') / interval ≤ (stop - tick) / interval - 1).
  { replace (stop - tick) with (stop - (tick + interval) + 1 * interval) by lia.
    rewrite Z.div_add by lia. pose proof (Z.div_le_mono (stop - tick') (stop - (tick + interval)) interval). lia. }
  lia.
Qed.

Lemma loop_enough fuel r stop tick t w :
  0 < rn_interval r → rn_cancel r = Some stop →
  (ticks_left (rn_interval r) stop tick ≤ fuel)%nat →
  (loop fuel r tick t w).1.2 ≠ OutOfFuel.
Proof.
  intros Hi Hc; revert tick t w; induction fuel as [|fuel IH]; intros tick t w Hf.
  { pose proof (ticks_left_pos (rn_interval r) stop tick); lia. }
  cbn [loop]. unfold mbind, go_bind, read_clock, ctx_Err.
  pose proof (select_tick (rn_ctx r) (tick - w_now w) w) as Hsel.
  destruct (select_ctx_timer (rn_ctx r) (tick - w_now w) w) as [st w1]; simpl in Hsel.
  destruct st; [done|]. specialize (Hsel eq_refl).
  destruct (ctx_err (rn_ctx r) (w_now w1)) eqn:E1; [done|].
  destruct (renew t w1) as [[t2 err] w2]. destruct (ctx_err (rn_ctx r) (w_now w2)); [done|].
  destruct (next_tick_later (rn_interval r) tick (w_now w1) Hi ltac:(lia)) as [_ Hnext].
  assert (tick < stop) as Hlt.
  { unfold ctx_err, rn_ctx in E1; simpl in E1; rewrite Hc in E1.
    destruct (Z.leb_spec stop (w_now w1)); [done|lia]. }
  pose proof (ticks_left_step _ _ _ _ Hi Hlt Hnext).
  destruct err as [e|]; [destruct (errors_Is e ErrLost)|].
  - by destruct (onLost t2 w2) as [t3 w3].
  - apply IH; lia.
  - apply IH; lia.
Qed.

(** ** What the loop keeps *)
Context (R : request → Prop) (Inv Lost : T → S → Z → Prop).

Lemma loop_triple fuel r tick t :
  (∀ t, stable R (Inv t)) →
  (∀ t, triple R (Inv t) (renew t) (λ x, if is_error x.2 ErrLost then Lost x.1 else Inv x.1)) →
  (∀ t, triple R (Lost t) (onLost t) (λ t, Lost t)) →
  triple R (Inv t) (loop fuel r tick t)
    (λ x s c, match x.2 with
              | LostOwnership => Lost x.1 s c
              | OutOfFuel => Inv x.1 s c
              | Stopped => Inv x.1 s c ∨ Lost x.1 s c
              end).
Proof.
  intros HI Hr Hl; revert tick t; induction fuel as [|fuel IH]; intros tick t; cbn [loop].
  { apply (triple_ret R (t, OutOfFuel) (λ x s c, match x.2 with LostOwnership => Lost x.1 s c
      | OutOfFuel => Inv x.1 s c | Stopped => Inv x.1 s c ∨ Lost x.1 s c end)). }
  intros w Hw HIw. unfold mbind at 1, go_bind, read_clock, ctx_Err.
  pose proof (triple_select R (Inv t) (rn_ctx r) (tick - w_now w) (HI t) w Hw HIw) as [Hw1 H1].
  unfold mbind, go_bind. destruct (select_ctx_timer _ _ w) as [st w1]; simpl in Hw1, H1.
  destruct st; [split; [done|by left]|].
  destruct (ctx_err (rn_ctx r) (w_now w1)); [split; [done|by left]|].
  destruct (Hr t w1 Hw1 H1) as [Hw2 H2]. destruct (renew t w1) as [[t2 err] w2]; simpl in Hw2, H2.
  destruct (ctx_err (rn_ctx r) (w_now w2)).
  { split; [done|]. destruct (is_error err ErrLost); [by right|by left]. }
  destruct err as [e|]; simpl in H2; [destruct (errors_Is e ErrLost)|].
  - destruct (Hl t2 w2 Hw2 H2) as [Hw3 H3]. by destruct (onLost t2 w2) as [t3 w3].
  - by apply IH.
  - by apply IH.
Qed.
End renewer.

(** C28: a stopped renewer exits.  Whatever [renew] does and however long it
    takes, once [Stop] cancels the context (at [stop]) the loop ends after at
    most one pass per remaining tick and one more: it never keeps running,
    so [Stop], which waits for it, returns. *)
Theorem loop_terminates {S} `{!RedisOps S} {T} (renew : T → go S (T * option error)) onLost r stop t w :
  0 < rn_interval r → rn_cancel r = Some stop →
  let first := w_now w + rn_interval r in
  (loop renew onLost (ticks_left (rn_interval r) stop first) r first t w).1.2 = Stopped ∨
  (loop renew onLost (ticks_left (rn_interval r) stop first) r first t w).1.2 = LostOwnership.
Proof.
  intros Hi Hc first.
  pose proof (loop_enough renew onLost (ticks_left (rn_interval r) stop first) r stop first t w Hi Hc ltac:(lia)).
  destruct (loop _ _ _ _ _ _ _).1.2; auto; done.
Qed.

(** Network trouble alone never ends the heartbeat.  As long as no
    renewal reports an error that matches [ErrLost], the loop goes on until it
    is stopped, however many renewals fail, and [onLost] is not called. *)
Theorem transient_errors_survived {S} `{!RedisOps S} {T} (renew : T → go S (T * option error))
    onLost onLost' fuel r tick t w :
  (∀ t w, is_error (renew t w).1.2 ErrLost = false) →
  (loop renew onLost fuel r tick t w).1.2 ≠ LostOwnership ∧
  loop renew onLost fuel r tick t w = loop renew onLost' fuel r tick t w.
Proof.
  intros Hr; revert tick t w; induction fuel as [|fuel IH]; intros tick t w; [done|].
  cbn [loop]. unfold mbind, go_bind, read_clock, ctx_Err.
  destruct (select_ctx_timer (rn_ctx r) (tick - w_now w) w) as [[] w1]; [done|].
  destruct (ctx_err (rn_ctx r) (w_now w1)); [done|].
  specialize (Hr t w1). destruct (renew t w1) as [[t2 err] w2]; simpl in Hr.
  destruct (ctx_err (rn_ctx r) (w_now w2)); [done|].
  destruct err as [e|]; simpl in Hr; [rewrite Hr|]; apply IH.
Qed.

Module Ex.
(** A renewal that fails twice on the network and then loses the lease. *)
Definition flaky (n : nat) : go mem (nat * option error) :=
  mret (Datatypes.S n, Some (if bool_decide (n < 2)%nat then ErrRedis "i/o timeout" else ErrLost)).
Definition note (n : nat) : go mem nat := mret (n + 100)%nat.
Definition r : Renewer :=
  {| rn_interval := Second; rn_cancel := Some (10 * Second); rn_started := true; rn_done := false |}.

Example flaky_run : (loop flaky note 20 r Second 0%nat (at_start 0 [])).1 = (103%nat, LostOwnership).
Proof. reflexivity. Qed.

Lemma loop_terminates_witness :
  (loop flaky note 11 r Second 0%nat (at_start 0 [])).1.2 = Stopped ∨
  (loop flaky note 11 r Second 0%nat (at_start 0 [])).1.2 = LostOwnership.
Proof. exact (loop_terminates flaky note r (10 * Second) 0%nat (at_start 0 []) eq_refl eq_refl). Defined.

(** A renewal that always times out. *)
Definition down (n : nat) : go mem (nat * option error) :=
  mret (Datatypes.S n, Some (ErrRedis "i/o timeout")).

Lemma transient_errors_survived_witness :
  (loop down note 20 r Second 0%nat (at_start 0 [])).1.2 ≠ LostOwnership.
Proof.
  apply (transient_errors_survived down note note 20 r Second 0%nat (at_start 0 [])).
  intros n w; reflexivity.
Defined.
End Ex.
