(* ===== verification/Guard.v ===== *)
(** * The lifecycle of a held lease

    [guard.go]: the [handle] that [Guard], [Permit] and [Leader] share, with
    its heartbeat or watchdog, its deadline timer, its idempotent release and
    the context that is canceled when ownership is lost.

    An operation on a handle passes its state; the deadline timer's goroutine
    may also run in the middle of a call to the server ([timer_fires]).  What
    a handle needs of its lease is the class [LeaseLaws]; the theorems about
    handles are proved against it. *)
From S2P Require Import Prelude Redis Errors Requests GoRuntime Lease Renewer.
Open Scope Z_scope.

Record handle (L : Type) := {
  h_resource : string;
  h_primitive : string;
  h_leas : L;
  h_renewer : option Renewer;
  h_released : bool;
  h_releaseDone : bool;
  h_lost : bool;               (** [lostCtx] is canceled *)
  h_stopOnce : bool;
  h_timer : option Z;          (** when [deadlineTimer] fires *)
}.
Arguments Build_handle {L}.
Arguments h_resource {L} _.
Arguments h_primitive {L} _.
Arguments h_leas {L} _.
Arguments h_renewer {L} _.
Arguments h_released {L} _.
Arguments h_releaseDone {L} _.
Arguments h_lost {L} _.
Arguments h_stopOnce {L} _.
Arguments h_timer {L} _.

Section setters.
Context {L : Type}.
Implicit Types (h : handle L).

Definition set_leas (l : L) h : handle L :=
  Build_handle (h_resource h) (h_primitive h) l (h_renewer h) (h_released h) (h_releaseDone h)
    (h_lost h) (h_stopOnce h) (h_timer h).
Definition set_renewer (r : option Renewer) h : handle L :=
  Build_handle (h_resource h) (h_primitive h) (h_leas h) r (h_released h) (h_releaseDone h)
    (h_lost h) (h_stopOnce h) (h_timer h).
Definition set_released h : handle L :=
  Build_handle (h_resource h) (h_primitive h) (h_leas h) (h_renewer h) true (h_releaseDone h)
    (h_lost h) (h_stopOnce h) (h_timer h).
Definition set_releaseDone (b : bool) h : handle L :=
  Build_handle (h_resource h) (h_primitive h) (h_leas h) (h_renewer h) (h_released h) b
    (h_lost h) (h_stopOnce h) (h_timer h).
Definition set_stopOnce h : handle L :=
  Build_handle (h_resource h) (h_primitive h) (h_leas h) (h_renewer h) (h_released h) (h_releaseDone h)
    (h_lost h) true (h_timer h).
(** [lostCancel()] *)
Definition lostCancel h : handle L :=
  Build_handle (h_resource h) (h_primitive h) (h_leas h) (h_renewer h) (h_released h) (h_releaseDone h)
    true (h_stopOnce h) (h_timer h).
Definition set_timer (t : option Z) h : handle L :=
  Build_handle (h_resource h) (h_primitive h) (h_leas h) (h_renewer h) (h_released h) (h_releaseDone h)
    (h_lost h) (h_stopOnce h) t.

Definition newHandle (resource primitive : string) (l : L) : handle L :=
  Build_handle resource primitive l None false false false false None.

(** [markLost()]: cancel and stop the timer. *)
Definition markLost h : handle L := set_timer None (lostCancel h).
End setters.

Section ops.
Context {S : Type} `{!RedisOps S} {L : Type} `{!Lease S L}.
Implicit Types (h : handle L).

Definition checkDeadline h : go S (handle L) :=
  if h_lost h then mret h
  else
    now ← time_now;
    let remaining := lease_ExpiresAt (h_leas h) - now in
    if remaining <=? 0 then mret (set_timer None (lostCancel h))
    else mret (set_timer (Some (now + remaining)) h).

(** The deadline timer's goroutine, when it is due and the scheduler runs
    it. *)
Definition timer_fires h : go S (handle L) :=
  t ← next_turn;
  now ← read_clock;
  match h_timer h with
  | Some at_ => if (at_ <=? now) && t_pick t then checkDeadline h else mret h
  | None => mret h
  end.

(** The function registered on the call's context: it runs once the context
    is past its deadline, if the call is still out. *)
Definition call_expires (deadline : Z) h : go S (handle L) :=
  t ← next_turn;
  now ← read_clock;
  if (deadline <=? now) && t_pick t && negb (After (lease_ExpiresAt (h_leas h)) now)
  then mret (markLost h) else mret h.

(** [withLeaseDeadline(ctx, call)].  [call] runs on the lease; before it
    returns, its context may expire and the deadline timer may fire. *)
Definition withLeaseDeadline h (call : L → go S (L * option error)) : go S (handle L * option error) :=
  if h_released h || h_lost h then mret (h, Some ErrLost)
  else
    let deadline := lease_ExpiresAt (h_leas h) in
    now ← time_now;
    if negb (After deadline now) then mret (markLost h, Some ErrLost)
    else
      '(l, err) ← call (h_leas h);
      h ← call_expires deadline h;
      h ← timer_fires h;
      let h := set_leas l h in
      if h_lost h || is_error err ErrLost then mret (markLost h, errors_Join [Some ErrLost; err])
      else
        now ← time_now;
        if negb (After (lease_ExpiresAt l) now) then mret (markLost h, errors_Join [Some ErrLost; err])
        else mret (h, err).

Definition renew h : go S (handle L * option error) :=
  if h_released h || h_lost h then mret (h, Some ErrLost)
  else
    _ ← emit (SpanStart "distsync.renew");
    '(h, err) ← withLeaseDeadline h lease_Renew;
    _ ← emit (MRenew (h_primitive h) (h_resource h) (bool_decide (err = None)));
    let h := if is_error err ErrLost then markLost h else h in
    _ ← emit (SpanFinish err);
    mret (h, err).

(** The closure of [startWatchdog]. *)
Definition watch_call (l : L) : go S (L * option error) :=
  '(held, err) ← lease_Held l;
  mret (l, match err with
           | Some e => Some e
           | None => if negb (held : bool) then Some ErrLost else None
           end).
Definition watch h : go S (handle L * option error) := withLeaseDeadline h watch_call.

(** The [onLost] closure of both loops. *)
Definition onLost h : go S (handle L) :=
  _ ← emit (MRenewalStopped (h_primitive h) (h_resource h) "lost");
  mret (markLost h).

(** [startRenewal] and [startWatchdog]; the loop itself is [loop] of
    [Renewer] with [renew] or [watch]. *)
Definition start (interval : Z) h : go S (handle L) :=
  h ← checkDeadline (set_renewer (Some (NewRenewer interval)) h);
  mret (set_renewer (fst <$> (Start <$> h_renewer h)) h).
Definition startRenewal (interval : Z) h : go S (handle L) := start interval h.
Definition startWatchdog (interval : Z) h : go S (handle L) := start interval h.

Definition heartbeat_loop (fuel : nat) (r : Renewer) (tick : Z) h : go S (handle L * loop_exit) :=
  loop renew onLost fuel r tick h.
Definition watchdog_loop (fuel : nat) (r : Renewer) (tick : Z) h : go S (handle L * loop_exit) :=
  loop watch onLost fuel r tick h.

Definition stop h : go S (handle L) :=
  let h := markLost (set_released h) in
  if h_stopOnce h then mret h
  else
    match h_renewer h with
    | None => mret (set_stopOnce h)
    | Some r =>
        _ ← emit (MRenewalStopped (h_primitive h) (h_resource h) "released");
        r ← Stop r;
        mret (set_stopOnce (set_renewer (Some r) h))
    end.

Definition release h : go S (handle L * option error) :=
  if h_releaseDone h then mret (h, None)
  else
    h ← stop h;
    _ ← emit (SpanStart "distsync.release");
    '(l, err) ← lease_Release (h_leas h);
    _ ← emit (MRelease (h_primitive h) (h_resource h));
    let h := set_releaseDone (bool_decide (err = None) || is_error err ErrLost) (set_leas l h) in
    _ ← emit (SpanFinish err);
    mret (h, err).

(** ** Sequences of operations

    What happens to a handle after it was handed out: renewals (by the user
    or the heartbeat), watchdog checks, the deadline timer, the loop's
    [onLost], releases, and time passing with the others' requests. *)
Inductive hop := ORenew | OWatch | OTimer | OLost | ORelease | OStop | OWait.

Definition do_op (o : hop) h : go S (handle L * option error) :=
  match o with
  | ORenew => renew h
  | OWatch => watch h
  | OTimer => h ← timer_fires h; mret (h, None)
  | OLost => h ← onLost h; mret (h, None)
  | ORelease => release h
  | OStop => h ← stop h; mret (h, None)
  | OWait => _ ← time_now; mret (h, None)
  end.

Fixpoint do_ops (l : list hop) h : go S (handle L * list (option error)) :=
  match l with
  | [] => mret (h, [])
  | o :: l =>
      '(h, e) ← do_op o h;
      '(h, es) ← do_ops l h;
      mret (h, e :: es)
  end.
End ops.

(** ** What the timer and the end of a loop keep *)
Section timer.
Context {S : Type} `{!RedisOps S} {L : Type} `{!Lease S L} (R : request → Prop).
Implicit Types (h : handle L).

(** The timer's goroutine changes the handle only, and only so. *)
Definition timer_rel h h' : Prop :=
  h' = h ∨ h' = set_timer None (lostCancel h) ∨
  (h_lost h = false ∧ h' = set_timer (Some (lease_ExpiresAt (h_leas h))) h).

Lemma checkDeadline_keep (I : S → Z → Prop) h :
  stable R I →
  triple R I (checkDeadline h)
    (λ h' s c, I s c ∧ timer_rel h h' ∧ (h_lost h' = false → is_Some (h_timer h'))).
Proof.
  intros HI; unfold checkDeadline, timer_rel. destruct (h_lost h) eqn:El.
  { eapply triple_pre; [apply triple_ret|]. intros s c ?; split_and!; [done|by left|by rewrite El]. }
  eapply triple_bind; [by apply triple_time_now|]. intros now; cbn beta zeta.
  destruct (lease_ExpiresAt (h_leas h) - now <=? 0); (eapply triple_pre; [apply triple_ret|]); intros s c [? _].
  - split_and!; [done|by auto|done].
  - split_and!; [done| |simpl; eauto]. right; right; split; [done|]. do 2 f_equal; lia.
Qed.

Lemma timer_fires_keep (I : S → Z → Prop) h :
  stable R I → triple R I (timer_fires h) (λ h' s c, I s c ∧ timer_rel h h').
Proof.
  intros HI; unfold timer_fires. eapply triple_bind; [apply triple_next_turn|]. intros t; cbn beta.
  eapply triple_bind; [apply triple_read_clock|]. intros now; cbn beta.
  eapply (triple_pre _ _ I); [|by intros s c [? _]].
  assert (∀ h', h' = h → triple R I (mret h') (λ h' s c, I s c ∧ timer_rel h h')) as Hret.
  { intros h' ->; eapply triple_pre; [apply triple_ret|]. intros s c ?; split; [done|by left]. }
  destruct (h_timer h) as [at_|]; [destruct (_ && _)|]; [|by apply Hret..].
  eapply triple_post; [by apply checkDeadline_keep|]. by intros h' s c (? & ? & _).
Qed.

Lemma call_expires_keep (I : S → Z → Prop) d h :
  triple R I (call_expires d h) (λ h' s c, I s c ∧ (h' = h ∨ h' = markLost h)).
Proof.
  unfold call_expires. eapply triple_bind; [apply triple_next_turn|]. intros t; cbn beta.
  eapply triple_bind; [apply triple_read_clock|]. intros now; cbn beta.
  destruct (_ && _ && _); (eapply triple_pre; [apply triple_ret|]); intros s c [? _]; auto.
Qed.

Lemma timer_rel_leas h h' : timer_rel h h' → h_leas h' = h_leas h ∧ h_releaseDone h' = h_releaseDone h.
Proof. by intros [->|[->|[_ ->]]]. Qed.

Lemma Stop_keep (I : S → Z → Prop) r : stable R I → triple R I (Stop r) (λ _, I).
Proof.
  intros HI; unfold Stop. eapply triple_bind; [apply triple_read_clock|]. intros now; cbn beta.
  eapply (triple_pre _ _ I); [|by intros s c [? _]].
  intros w Hw HIw. unfold mbind, go_bind, pass.
  destruct (next_turn_ok R w Hw) as [(Hb & _) Hw']; destruct (next_turn_env w) as [Es En].
  destruct (next_turn w) as [t w1]; simpl in *. split; [done|]. unfold holds; simpl.
  apply (env_apply_stable R I); [done|done|]. unfold holds in HIw; simpl; by rewrite Es, En.
Qed.

End timer.

(** ** What a handle relies on *)

Class LeaseLaws (S L : Type) `{!RedisOps S, !Lease S L} := {
  (** what the other clients may ask of the server *)
  ll_rely : L → request → Prop;
  (** what never changes: the names on the server and the duration *)
  ll_fixed : L → list string * Z;
  (** the fields that never change are as they should be *)
  ll_ok : L → Prop;
  (** the server backs the local deadline *)
  ll_held : L → S → Z → Prop;
  (** the server is in the state the lease's requests expect *)
  ll_any : L → S → Z → Prop;
  (** the lease is not on the server any more *)
  ll_gone : L → S → Z → Prop;
  (** the lease is on the server, and nobody else's *)
  ll_owned : L → S → Z → Prop;
  ll_stable_held l : ll_ok l → stable (ll_rely l) (ll_held l);
  ll_stable_any l : ll_ok l → stable (ll_rely l) (ll_any l);
  ll_stable_gone l : ll_ok l → stable (ll_rely l) (ll_gone l);
  ll_held_any l s c : ll_ok l → ll_held l s c → ll_any l s c;
  ll_held_owned l s c : ll_ok l → ll_held l s c → c < lease_ExpiresAt l → ll_owned l s c;
  ll_renew l : ll_ok l →
    triple (ll_rely l) (ll_held l) (lease_Renew l) (λ x s c,
      ll_held x.1 s c ∧ lease_ExpiresAt l ≤ lease_ExpiresAt x.1 ∧
      ll_ok x.1 ∧ ll_rely x.1 = ll_rely l ∧ ll_gone x.1 = ll_gone l ∧
      lease_ID x.1 = lease_ID l ∧ ll_fixed x.1 = ll_fixed l);
  ll_query l : ll_ok l →
    triple (ll_rely l) (ll_held l) (lease_Held l) (λ _, ll_held l);
  ll_release l : ll_ok l →
    triple (ll_rely l) (ll_any l) (lease_Release l) (λ x s c,
      if bool_decide (x.2 = None) || is_error x.2 ErrLost then ll_gone l s c
      else x.1 = l ∧ ll_any l s c);
}.

Section safety.
Context {S : Type} `{!RedisOps S} {L : Type} `{!Lease S L, !LeaseLaws S L}.
Context (l0 : L) (Hok0 : ll_ok l0).
Implicit Types (h : handle L) (s : S) (c : Z).

Let R : request → Prop := ll_rely l0.

(** The same lease, at another moment. *)
Definition same_lease (l : L) : Prop :=
  ll_ok l ∧ ll_rely l = ll_rely l0 ∧ ll_gone l = ll_gone l0 ∧ lease_ID l = lease_ID l0 ∧
  ll_fixed l = ll_fixed l0.

(** The invariant of a handle on the lease [l0]; [m] says whether a loop and
    with it the deadline timer was started. *)
Record h_pure (m : bool) h : Prop := {
  hp_released : h_released h = true → h_lost h = true;
  hp_done : h_releaseDone h = true → h_released h = true ∧ h_stopOnce h = true;
  hp_lease : h_releaseDone h = false → same_lease (h_leas h);
  hp_timer t : h_lost h = false → h_timer h = Some t → t ≤ lease_ExpiresAt (h_leas h);
  hp_armed : m = true → h_lost h = false → is_Some (h_timer h);
}.

Definition h_state h s c : Prop :=
  (h_lost h = false → ll_held (h_leas h) s c) ∧
  (h_releaseDone h = false → ll_any (h_leas h) s c) ∧
  (h_releaseDone h = true → ll_gone l0 s c).

Definition h_inv (m : bool) h s c : Prop := h_pure m h ∧ h_state h s c.

(** What never comes back. *)
Definition h_mono h h' : Prop :=
  (h_lost h = true → h_lost h' = true) ∧ (h_released h = true → h_released h' = true) ∧
  (h_releaseDone h = true → h_releaseDone h' = true).

Lemma h_mono_refl h : h_mono h h.
Proof. done. Qed.
Lemma h_mono_trans h1 h2 h3 : h_mono h1 h2 → h_mono h2 h3 → h_mono h1 h3.
Proof. intros (? & ? & ?) (? & ? & ?); split_and!; auto. Qed.

(** Not lost implies not released. *)
Lemma live_not_done m h : h_pure m h → h_lost h = false → h_releaseDone h = false.
Proof.
  intros Hp Hl. destruct (h_releaseDone h) eqn:E; [|done].
  destruct (hp_done _ _ Hp E) as [Hr _]. by rewrite (hp_released _ _ Hp Hr) in Hl.
Qed.

Lemma live_lease m h : h_pure m h → h_lost h = false → same_lease (h_leas h).
Proof. intros Hp Hl; apply (hp_lease _ _ Hp). by eapply live_not_done. Qed.

Lemma stable_when (b b0 : bool) (I : S → Z → Prop) :
  (b = b0 → stable R I) → stable R (λ s c, b = b0 → I s c).
Proof.
  intros H; split; [intros s c r ? HI Hb|intros s c dc ds ? HI Hb]; destruct (H Hb) as [H1 H2]; auto.
Qed.

Lemma stable_h_state m h : h_pure m h → stable R (h_state h).
Proof.
  intros Hp; unfold h_state. apply stable_and; [|apply stable_and]; apply stable_when; intros E.
  - destruct (live_lease _ _ Hp E) as (Hok & Hr & _). unfold R; rewrite <- Hr; by apply ll_stable_held.
  - destruct (hp_lease _ _ Hp E) as (Hok & Hr & _). unfold R; rewrite <- Hr; by apply ll_stable_any.
  - by apply ll_stable_gone.
Qed.

Definition h_post (m : bool) h h' s c : Prop := h_inv m h' s c ∧ h_mono h h'.

Lemma markLost_post m h s c : h_pure m h → h_state h s c → h_post m h (markLost h) s c.
Proof.
  intros Hp (_ & Ha & Hg). split; [split|done].
  - destruct Hp; split; simpl; auto; done.
  - split; [done|split; [exact Ha|exact Hg]].
Qed.

(** The flags of a handle that no call in progress changes. *)
Lemma timer_rel_pure m h h' : h_pure m h → timer_rel h h' → h_pure m h' ∧ h_mono h h'.
Proof.
  intros Hp [->|[->|[Hl ->]]]; [done|..]; (split; [|done]); destruct Hp; split; simpl; auto; try done; eauto.
  intros t _ [= <-]; lia.
Qed.

(** A call that keeps the lease. *)
Definition keeps_lease (call : L → go S (L * option error)) : Prop :=
  ∀ l, same_lease l →
    triple R (ll_held l) (call l) (λ x s c,
      ll_held x.1 s c ∧ lease_ExpiresAt l ≤ lease_ExpiresAt x.1 ∧ same_lease x.1).

(** The handle after a call: the new lease, unless it was lost meanwhile. *)
Definition call_rel h (l' : L) h' : Prop :=
  ∃ h1, h' = set_leas l' h1 ∧ h_mono h h1 ∧ h_releaseDone h1 = h_releaseDone h ∧
        (∀ m, h_pure m h → h_pure m h1) ∧ h_leas h1 = h_leas h.

Lemma call_rel_pure m h l' h' :
  h_pure m h → h_lost h = false → same_lease l' →
  lease_ExpiresAt (h_leas h) ≤ lease_ExpiresAt l' → call_rel h l' h' →
  h_pure m h' ∧ h_mono h h' ∧ h_releaseDone h' = false.
Proof.
  intros Hp Hl Hs Hle (h1 & -> & Hm & Hd & Hpp & Elea). specialize (Hpp m Hp).
  rewrite (live_not_done m h Hp Hl) in Hd. split; [|by split].
  destruct Hpp as [P1 P2 P3 P4 P5]; split; simpl; auto.
  intros t E1 E2; specialize (P4 t E1 E2); rewrite Elea in P4; lia.
Qed.

Lemma call_state l' h' s c :
  h_leas h' = l' → h_releaseDone h' = false → same_lease l' → ll_held l' s c → h_state h' s c.
Proof.
  intros E Hd (Hok & _) Hh; rewrite <- E in *. split_and!; [done|intros _; by apply ll_held_any|congruence].
Qed.

Lemma withLeaseDeadline_triple call m h :
  keeps_lease call → h_pure m h →
  triple R (h_state h) (withLeaseDeadline h call)
    (λ x s c, h_post m h x.1 s c ∧ is_error x.2 ErrLost = h_lost x.1).
Proof.
  intros Hcall Hp; unfold withLeaseDeadline.
  destruct (h_lost h) eqn:El; [rewrite orb_true_r|].
  { eapply triple_pre; [apply triple_ret|]. intros s c ?; split; [split; [by split|done]|]; simpl; by rewrite El. }
  assert (h_released h = false) as ->.
  { destruct (h_released h) eqn:E; [|done]. by rewrite (hp_released _ _ Hp E) in El. }
  cbn [orb]. cbn zeta. pose proof (live_lease _ _ Hp El) as Hs.
  eapply triple_bind; [by eapply triple_time_now, stable_h_state|]. intros now; cbn beta.
  destruct (negb (After _ now)).
  { eapply triple_pre; [apply triple_ret|]. intros s c [? _]; split; [by apply markLost_post|done]. }
  eapply triple_bind.
  { eapply triple_pre; [apply (Hcall _ Hs)|]. intros s c [(Hh & _) _]; by apply Hh. }
  intros [l' err]; cbn [fst snd].
  apply (triple_assume _ (same_lease l' ∧ lease_ExpiresAt (h_leas h) ≤ lease_ExpiresAt l')).
  { by intros s c (_ & ? & ?). }
  intros [Hs' Hle].
  assert (stable R (ll_held l')) as HI.
  { destruct Hs' as (Hok & Hr & _). unfold R; rewrite <- Hr; by apply ll_stable_held. }
  eapply (triple_pre _ _ (ll_held l')); [|by intros s c [? _]].
  eapply triple_bind; [apply call_expires_keep|]. intros h1; cbn beta.
  eapply triple_bind; [apply timer_fires_keep, stable_and; [exact HI|apply stable_pure]|].
  intros h2; cbn beta.
  apply (triple_assume _ (call_rel h l' (set_leas l' h2))).
  { intros s c [[_ H1] H2]. exists h2; split; [done|].
    assert (h_mono h h1 ∧ h_releaseDone h1 = h_releaseDone h ∧ (∀ m, h_pure m h → h_pure m h1) ∧
            h_leas h1 = h_leas h) as (? & E1 & Hpp & E2).
    { destruct H1 as [->| ->]; [done|]. split_and!; try done. intros m' []; split; simpl; auto; done. }
    destruct (timer_rel_leas _ _ H2) as [E3 E4]. split_and!; [|congruence| |congruence].
    - eapply h_mono_trans; [done|]. by eapply (timer_rel_pure m); [apply Hpp|].
    - intros m' Hm'. by eapply (timer_rel_pure m'); [apply Hpp|]. }
  intros Hrel. destruct (call_rel_pure m h l' _ Hp El Hs' Hle Hrel) as (Hp' & Hm' & Hd').
  eapply (triple_pre _ _ (ll_held l')); [|by intros s c [[? _] _]].
  assert (∀ s c, ll_held l' s c → h_post m h (set_leas l' h2) s c ∧ h_post m h (markLost (set_leas l' h2)) s c)
    as Hfin.
  { intros s c Hh. assert (h_state (set_leas l' h2) s c) as Hst by (by apply (call_state l')).
    split; [by split; [split|]|]. destruct (markLost_post m _ s c Hp' Hst) as [? Hmm].
    split; [done|]. by eapply h_mono_trans. }
  destruct (h_lost (set_leas l' h2)) eqn:El2; cbn [orb].
  { eapply triple_pre; [apply triple_ret|]. intros s c Hh; split; [by apply Hfin|by destruct err]. }
  destruct (is_error err ErrLost) eqn:Ee.
  { eapply triple_pre; [apply triple_ret|]. intros s c Hh; split; [by apply Hfin|by destruct err]. }
  eapply triple_bind; [by apply triple_time_now|]. intros now2; cbn beta.
  destruct (negb (After _ now2)); (eapply triple_pre; [apply triple_ret|]); intros s c [Hh _].
  - split; [by apply Hfin|by destruct err].
  - split; [by apply Hfin|]. simpl in *; congruence.
Qed.

Lemma renew_keeps_lease : keeps_lease lease_Renew.
Proof.
  intros l (Hok & Hr & Hg & Hi & Hk). unfold R; rewrite <- Hr. eapply triple_post; [by apply ll_renew|].
  intros x s c (Hh & Hle & Hok' & Hr' & Hg' & Hi' & Hk'). split; [done|split; [done|]].
  split_and!; [done|congruence..].
Qed.

Lemma watch_keeps_lease : keeps_lease watch_call.
Proof.
  intros l Hs. pose proof Hs as (Hok & Hr & _). unfold R, watch_call; rewrite <- Hr.
  eapply triple_bind; [by apply ll_query|]. intros [held err].
  eapply triple_pre; [apply triple_ret|]. intros s c ?; simpl; split; [done|split; [lia|done]].
Qed.

(** The outcome of an operation on a handle. *)
Definition op_post (m : bool) h (x : handle L * option error) s c : Prop := h_post m h x.1 s c.

Lemma post_self m h s c : h_pure m h → h_state h s c → h_post m h h s c.
Proof. intros Hp Hs; exact (conj (conj Hp Hs) (h_mono_refl h)). Qed.

Lemma watch_triple m h :
  h_pure m h → triple R (h_state h) (watch h)
    (λ x s c, h_post m h x.1 s c ∧ is_error x.2 ErrLost = h_lost x.1).
Proof. apply withLeaseDeadline_triple, watch_keeps_lease. Qed.

Lemma renew_triple m h :
  h_pure m h → triple R (h_state h) (renew h)
    (λ x s c, h_post m h x.1 s c ∧ is_error x.2 ErrLost = h_lost x.1).
Proof.
  intros Hp; unfold renew. destruct (h_released h || h_lost h) eqn:Eb.
  { eapply triple_pre; [apply triple_ret|]. intros s c ?; split; [by apply post_self|]. simpl.
    apply orb_true_iff in Eb as [Eb|Eb]; [by rewrite (hp_released _ _ Hp Eb)|by rewrite Eb]. }
  eapply triple_bind; [apply triple_emit|]. intros []; cbn beta.
  eapply triple_bind; [by apply withLeaseDeadline_triple; [apply renew_keeps_lease|]|].
  intros [h' err]; cbn [fst snd]. eapply triple_bind; [apply triple_emit|]. intros []; cbn beta.
  eapply triple_bind; [apply triple_emit|]. intros []; cbn beta.
  eapply triple_pre; [apply triple_ret|]. intros s c [[[Hp' Hst] Hm] He]; simpl.
  destruct (is_error err ErrLost) eqn:Ee; [|by split].
  split; [|done]. destruct (markLost_post m h' s c Hp' Hst) as [? Hm'].
  split; [done|]. by eapply h_mono_trans.
Qed.

Lemma onLost_triple m h : h_pure m h → triple R (h_state h) (onLost h) (h_post m h).
Proof.
  intros Hp; unfold onLost. eapply triple_bind; [apply triple_emit|]. intros []; cbn beta.
  eapply triple_pre; [apply triple_ret|]. intros s c ?; by apply markLost_post.
Qed.

Lemma timer_triple m h : h_pure m h → triple R (h_state h) (timer_fires h) (h_post m h).
Proof.
  intros Hp; eapply triple_post; [by eapply timer_fires_keep, stable_h_state|].
  intros h' s c [Hst Hr]. destruct (timer_rel_pure m h h' Hp Hr) as [Hp' Hm].
  destruct (timer_rel_leas h h' Hr) as [El Ed]. split; [|done]. split; [done|].
  destruct Hst as (H1 & H2 & H3). unfold h_state; rewrite El, Ed. split_and!; [|done..].
  intros Hl; apply H1. destruct (h_lost h) eqn:E; [|done]. destruct Hm as [Hm _]; rewrite Hm in Hl; done.
Qed.

(** [stop] ends local ownership for good. *)
Definition stopped h' : Prop := h_released h' = true ∧ h_lost h' = true ∧ h_stopOnce h' = true.

Lemma stop_triple m h :
  h_pure m h → triple R (h_state h) (stop h) (λ h' s c,
    h_post m h h' s c ∧ stopped h' ∧ h_leas h' = h_leas h ∧ h_releaseDone h' = h_releaseDone h).
Proof.
  intros Hp; unfold stop. cbn zeta.
  assert (∀ s c h', h_state h s c → h_released h' = true → h_lost h' = true → h_stopOnce h' = true →
    h_leas h' = h_leas h → h_releaseDone h' = h_releaseDone h →
    h_post m h h' s c ∧ stopped h' ∧ h_leas h' = h_leas h ∧ h_releaseDone h' = h_releaseDone h) as Hfin.
  { intros s c h' (_ & H2 & H3) E1 E2 E3 E4 E5. split; [|done]. split; [split|unfold h_mono; rewrite E1, E2, E5; auto].
    - destruct Hp; split; rewrite ?E1, ?E2, ?E3, ?E4, ?E5; auto; done.
    - unfold h_state; rewrite E2, E4, E5; split_and!; [done|exact H2|exact H3]. }
  destruct (h_stopOnce _) eqn:Eo.
  { eapply triple_pre; [apply triple_ret|]. intros s c ?; by apply Hfin. }
  destruct (h_renewer _) as [r|].
  - eapply triple_bind; [apply triple_emit|]. intros []; cbn beta.
    eapply triple_bind; [by eapply Stop_keep, stable_h_state|]. intros r'; cbn beta.
    eapply triple_pre; [apply triple_ret|]. intros s c ?; by apply Hfin.
  - eapply triple_pre; [apply triple_ret|]. intros s c ?; by apply Hfin.
Qed.

Lemma release_triple m h :
  h_pure m h → triple R (h_state h) (release h) (λ x s c,
    h_post m h x.1 s c ∧ h_lost x.1 = true ∧
    (x.2 = None ∨ is_error x.2 ErrLost = true → h_releaseDone x.1 = true ∧ ll_gone l0 s c)).
Proof.
  intros Hp; unfold release. destruct (h_releaseDone h) eqn:Ed.
  { eapply triple_pre; [apply triple_ret|]. intros s c Hst; split; [by apply post_self|].
    destruct (hp_done _ _ Hp Ed) as [Hr _]. split; [by apply (hp_released _ _ Hp)|].
    intros _; split; [done|]. destruct Hst as (_ & _ & H); auto. }
  eapply triple_bind; [by apply stop_triple|]. intros h1; cbn beta.
  eapply triple_bind; [apply triple_emit|]. intros []; cbn beta.
  apply (triple_assume _ ((h_pure m h1 ∧ h_mono h h1) ∧ stopped h1 ∧ h_leas h1 = h_leas h ∧ h_releaseDone h1 = false)).
  { intros s c ([[? ?] ?] & ? & ? & E). rewrite Ed in E. done. }
  intros ((Hp1 & Hm1) & (Sr & Sl & So) & El1 & Ed1).
  destruct (hp_lease _ _ Hp Ed) as (Hok & Hr & Hg & Hi & Hk).
  eapply triple_bind.
  { rewrite El1. unfold R; rewrite <- Hr. eapply triple_pre; [by apply ll_release|].
    intros s c ([[_ (_ & Ha & _)] _] & _). rewrite El1 in Ha. by apply Ha. }
  intros [l' err]; cbn [fst snd]. eapply triple_bind; [apply triple_emit|]. intros []; cbn beta.
  eapply triple_bind; [apply triple_emit|]. intros []; cbn beta.
  eapply triple_pre; [apply triple_ret|]. intros s c Hrel; cbn [fst snd].
  set (d := bool_decide (err = None) || is_error err ErrLost) in *.
  assert (h_mono h (set_releaseDone d (set_leas l' h1))) as Hmono.
  { destruct Hm1 as (M1 & M2 & M3). split_and!; simpl; [done|done|]. by rewrite Ed. }
  split; [split; [split|done]|split; [done|]].
  - split; simpl; [auto|auto| |intros; congruence|intros; congruence].
    intros E. rewrite E in Hrel. destruct Hrel as [-> _]. by split_and!.
  - split_and!; simpl; [congruence|intros E; rewrite E in Hrel; by destruct Hrel as [-> ?]|].
    intros E; rewrite E in Hrel. by rewrite <- Hg.
  - intros He; simpl. assert (d = true) as Ed'.
    { unfold d; destruct He as [->| ->]; [done|apply orb_true_r]. }
    rewrite Ed' in Hrel |- *. split; [done|by rewrite <- Hg].
Qed.

Lemma do_op_triple m o h : h_pure m h → triple R (h_state h) (do_op o h) (op_post m h).
Proof.
  intros Hp; unfold op_post; destruct o; cbn [do_op].
  - eapply triple_post; [by apply renew_triple|]. by intros x s c [? _].
  - eapply triple_post; [by apply watch_triple|]. by intros x s c [? _].
  - eapply triple_bind; [by apply timer_triple|]. intros h'; eapply triple_pre; [apply triple_ret|]; done.
  - eapply triple_bind; [by apply onLost_triple|]. intros h'; eapply triple_pre; [apply triple_ret|]; done.
  - eapply triple_post; [by apply release_triple|]. by intros x s c [? _].
  - eapply triple_bind; [by apply stop_triple|]. intros h'; eapply triple_pre; [apply triple_ret|].
    by intros s c [? _].
  - eapply triple_bind; [by eapply triple_time_now, stable_h_state|]. intros t.
    eapply triple_pre; [apply triple_ret|]. intros s c [? _]; by apply post_self.
Qed.

Lemma do_ops_triple m l h :
  h_pure m h → triple R (h_state h) (do_ops l h) (λ x s c, h_post m h x.1 s c).
Proof.
  revert h; induction l as [|o l IH]; intros h Hp; cbn [do_ops].
  { eapply triple_pre; [apply triple_ret|]. intros s c ?; by apply post_self. }
  eapply triple_bind; [by apply do_op_triple|]. intros [h1 e]; unfold op_post; cbn [fst].
  apply (triple_assume _ (h_pure m h1 ∧ h_mono h h1)); [by intros s c [[? _] ?]|]. intros [Hp1 Hm1].
  eapply triple_bind; [eapply triple_pre; [by apply IH|by intros s c [[_ ?] _]]|].
  intros [h2 es]; cbn [fst]. eapply triple_pre; [apply triple_ret|]. intros s c [? Hm2]; simpl.
  split; [done|]. by eapply h_mono_trans.
Qed.

(** ** From the acquisition on *)

Lemma new_pure resource primitive : h_pure false (newHandle resource primitive l0).
Proof. by split. Qed.

Lemma new_state resource primitive s c :
  ll_held l0 s c → h_state (newHandle resource primitive l0) s c.
Proof. intros Hh; split_and!; [done|intros _; by apply ll_held_any|done]. Qed.

Lemma start_triple interval h :
  h_pure false h → triple R (h_state h) (start interval h) (h_post true h).
Proof.
  intros Hp; unfold start. set (h0 := set_renewer _ h).
  assert (h_pure false h0) as Hp0 by (destruct Hp; by split).
  eapply triple_bind.
  { eapply triple_pre; [by eapply checkDeadline_keep, (stable_h_state false h0)|]. done. }
  intros h1; eapply triple_pre; [apply triple_ret|]. intros s c (Hst & Hr & Hm).
  destruct (timer_rel_pure false h0 h1 Hp0 Hr) as [Hp1 Hmono].
  destruct (timer_rel_leas h0 h1 Hr) as [El Ed]. split; [split|exact Hmono].
  - destruct Hp1; split; simpl; auto.
  - destruct Hst as (H1 & H2 & H3). unfold h_state; simpl; rewrite El, Ed. split_and!; [|done..].
    intros Hl; apply H1. destruct (h_lost h0) eqn:E; [|done]. destruct Hmono as [Hx _]; rewrite Hx in Hl; done.
Qed.

(** The holder's view of a monitored handle that is not lost. *)
Lemma inv_owned h s c :
  h_inv true h s c → h_lost h = false → (∀ t, h_timer h = Some t → c < t) → ll_owned (h_leas h) s c.
Proof.
  intros [Hp (Hh & _)] Hl Ht. destruct (live_lease _ _ Hp Hl) as (Hok & _).
  destruct (hp_armed _ _ Hp eq_refl Hl) as [t Et].
  apply ll_held_owned; [done|by apply Hh|]. pose proof (hp_timer _ _ Hp t Hl Et); specialize (Ht t Et); lia.
Qed.

(** The whole life of a handle whose loop was started. *)
Lemma life_triple resource primitive interval l :
  triple R (ll_held l0)
    (h ← start interval (newHandle resource primitive l0); do_ops l h)
    (λ x s c, h_inv true x.1 s c).
Proof.
  eapply triple_bind.
  { eapply triple_pre; [apply start_triple, new_pure|]. intros; by apply new_state. }
  intros h; cbn beta. apply (triple_assume _ (h_pure true h)); [by intros s c [[? _] _]|]. intros Hp.
  eapply triple_conseq; [by apply do_ops_triple|by intros s c [[_ ?] _]|by intros x s c [? _]].
Qed.

(** The heartbeat (or the watchdog) as the loop it is. *)
Lemma monitor_triple (call : handle L → go S (handle L * option error)) fuel r tick h :
  (∀ h, h_pure true h → triple R (h_state h) (call h)
     (λ x s c, h_post true h x.1 s c ∧ is_error x.2 ErrLost = h_lost x.1)) →
  triple R (h_inv true h) (loop call onLost fuel r tick h)
    (λ x s c, h_inv true x.1 s c ∧ (x.2 = LostOwnership → h_lost x.1 = true)).
Proof.
  intros Hcall.
  set (Lost := λ (h : handle L) s c, h_inv true h s c ∧ h_lost h = true).
  assert (∀ h, stable R (h_inv true h)) as HI.
  { intros h0; split.
    - intros s c q Hq [Hp Hs]; split; [done|]. by apply (stable_h_state true h0 Hp).
    - intros s c dc ds Hd [Hp Hs]; split; [done|]. by apply (stable_h_state true h0 Hp). }
  eapply triple_post; [apply (loop_triple call onLost R (h_inv true) Lost)|].
  - done.
  - intros h0 w Hw [Hp Hs]. destruct (Hcall h0 Hp w Hw Hs) as [Hw' [[Hi _] He]]. split; [done|].
    unfold holds in *; rewrite He; destruct (h_lost _) eqn:El; [by split|exact Hi].
  - intros h0 w Hw [[Hp Hs] _]. destruct (onLost_triple true h0 Hp w Hw Hs) as [Hw' [Hi _]].
    split; [done|]. by split.
  - intros [h' []] s c; simpl; [intros [?|[? _]]|intros [? ?]|intros ?]; done.
Qed.
End safety.
