(* ===== verification/GuardSafety.v ===== *)
(** * Handles: what their holders may rely on

    The leases of the library as instances of [LeaseLaws], and the theorems
    about the handles over them: an unlost handle is backed by the server,
    loss is final, release is idempotent. *)
From S2P Require Import Prelude Redis RedisMem Errors Requests ScriptsSingle ScriptsSem GoRuntime.
From S2P Require Import Scenario Lease SingleOwner PermitSet Renewer Guard.
Open Scope Z_scope.

Section instances.
Context {S : Type} `{!RedisOps S, !RedisLaws S}.

(** ** The exclusive lease *)

Definition so_owned (l : SingleOwner) (s : S) (c : Z) : Prop :=
  ∃ x, owned (r_view s) (so_key l) (so_id l) (Some x) ∧ r_clock s < x.

Lemma so_query (l : SingleOwner) :
  so_wf l → triple (so_rely l) (so_held l) (SingleOwner.Held l) (λ _, so_held (S := S) l).
Proof.
  intros [HKF _]; unfold SingleOwner.Held.
  assert (stable (so_rely l) (so_held (S := S) l)) as HI by (by apply stable_so_held).
  eapply triple_bind.
  { eapply triple_pre; [apply (triple_redis (so_rely l) (so_held l) (λ _, so_held l))|done].
    - done.
    - by intros _.
    - intros s c H. assert (so_held l s c) as [Hc Hx] by (by destruct H as [?|[_ ?]]).
      assert (r_view (serve (Command (GET (so_key l))) s).2 = r_view s) as Hv.
      { rewrite serve_view. unfold serve_ref; simpl; unfold ref_get; repeat case_match; by simplify_eq/=. }
      split; [|done]. revert Hc; unfold covered, until_covers; by rewrite Hv, serve_time. }
  intros x; eapply triple_pre; [apply triple_keep|]. intros s c H; destruct x as [e|r]; [|exact H].
  by destruct H as (_ & [?|[_ ?]]).
Qed.

Lemma so_release (l : SingleOwner) :
  so_wf l →
  triple (so_rely l) (λ _ _, True) (SingleOwner.Release l) (λ x (s : S) c,
    if bool_decide (x.2 = None) || is_error x.2 ErrLost then not_owned (so_key l) (so_id l) s
    else x.1 = l ∧ True).
Proof.
  intros [HKF _]; unfold SingleOwner.Release. eapply triple_bind.
  { apply (triple_redis _ _ (λ _ (s : S) _, not_owned (so_key l) (so_id l) s));
      [apply stable_pure|intros; by apply stable_so_not_owned|]. intros; apply serve_release. }
  intros [e|r]; simpl; (eapply triple_pre; [apply triple_ret|]).
  - intros s c [[n ->] _]; simpl. by destruct n.
  - intros s c Hno; simpl. destruct (Int64 r) as [z| |e] eqn:E; simpl; [|done|].
    + destruct (negb (z =? 1)); simpl; done.
    + assert (errors_Is e ErrLost = false) as -> by (by eapply Int64_err; [right|]). done.
Qed.

#[export] Program Instance single_laws : LeaseLaws S SingleOwner := {|
  ll_rely := so_rely;
  ll_fixed := λ l, ([so_key l], so_ttl l);
  ll_ok := so_wf;
  ll_held := so_held;
  ll_any := λ _ _ _, True;
  ll_gone := λ l s _, not_owned (so_key l) (so_id l) s;
  ll_owned := so_owned;
|}.
Next Obligation. intros l Hok; apply stable_so_held, Hok. Qed.
Next Obligation. done. Qed.
Next Obligation. intros l Hok; apply stable_so_not_owned, Hok. Qed.
Next Obligation. done. Qed.
Next Obligation.
  intros l s c Hok [Hc _] Hlt. destruct (Hc Hlt) as (x & Ho & Hu). exists x; split; [done|].
  by eapply until_covers_live.
Qed.
Next Obligation.
  intros l Hok. eapply triple_post; [by apply SingleOwner.Renew_triple|].
  intros x s c (Hh & Heq & Hle & _). split; [done|split; [done|]]. rewrite Heq. done.
Qed.
Next Obligation. intros l Hok; by apply so_query. Qed.
Next Obligation. intros l Hok; by apply so_release. Qed.

(** ** Permits

    [B] bounds the stamps of the others' requests, as in [PermitSet]. *)

Definition ps_ok (p : PermitSet) : Prop := ps_tokens p ≠ [] ∧ whole_ms (ps_ttl p).

Lemma held_loop_keep R (I : S → Z → Prop) k now ts :
  stable R I → (∀ t, R (Command (ZSCORE k t))) → triple R I (held_loop k now ts) (λ _, I).
Proof.
  intros HI HR; induction ts as [|t ts IH]; cbn [held_loop]; [apply triple_keep|].
  eapply triple_bind; [by apply triple_redis_stable|]. intros x; cbn beta.
  destruct (call_Score x) as [sc| |e]; [destruct (sc <=? now); [apply triple_keep|done]|apply triple_keep..].
Qed.

Lemma ps_query B p :
  ps_ok p →
  triple (permit_rely (ps_key p) (ps_tokens p) B) (ps_held (ps_key p) (ps_tokens p) B p) (Held p)
    (λ _, ps_held (S := S) (ps_key p) (ps_tokens p) B p).
Proof.
  intros [HT _]; unfold Held. rewrite bool_decide_eq_false_2 by done.
  eapply triple_bind; [apply triple_time_now, stable_ps_held|]. intros now; cbn beta.
  eapply triple_pre; [apply held_loop_keep; [apply stable_ps_held|]|by intros s c [? _]].
  intros t; by right.
Qed.

Definition permit_laws (B : Z) : LeaseLaws S PermitSet.
Proof.
  refine {|
    ll_rely := λ p, permit_rely (ps_key p) (ps_tokens p) B;
    ll_fixed := λ p, (ps_key p :: ps_tokens p, ps_ttl p);
    ll_ok := ps_ok;
    ll_held := λ p, ps_held (ps_key p) (ps_tokens p) B p;
    ll_any := λ p s _, zset_with (ps_key p) (λ _, True) s;
    ll_gone := λ p s _, zset_with (ps_key p) (none_in (ps_tokens p)) s;
    ll_owned := λ p s c, Millisecond * B ≤ c + ps_ttl p ÷ 100 →
                         zset_with (ps_key p) (all_after (ps_tokens p) B) s;
  |}.
  - intros p _; apply stable_ps_held.
  - intros p _; apply stable_zset.
  - intros p _; apply stable_none.
  - by intros p s c _ (_ & ? & _).
  - intros p s c _ (_ & _ & H) Hc HB. apply H. simpl in Hc; lia.
  - intros p [HT Hw]. eapply triple_post; [by apply ps_Renew_triple|].
    intros x s c (Hh & Heq & Hle & _). rewrite Heq; simpl. split; [|split; [done|]].
    + rewrite Heq in Hh; exact Hh.
    + split; [by split|done].
  - intros p Hok; by apply ps_query.
  - intros p [HT Hw]. eapply triple_post; [by apply ps_Release_triple|].
    intros [p' e] s c [_ [(-> & [n ->] & Hz)|(-> & He & Hz)]]; simpl in *.
    + by destruct n.
    + by destruct He as [->| ->].
Defined.
End instances.

(** ** Loss and release are final *)
Section final.
Context {S : Type} `{!RedisOps S} {L : Type} `{!Lease S L}.
Implicit Types (h : handle L) (w : world S).

Lemma checkDeadline_mono h w : h_mono h (checkDeadline h w).1.
Proof.
  unfold checkDeadline. destruct (h_lost h) eqn:E; [done|]. unfold mbind, go_bind.
  destruct (time_now w) as [now w']. by destruct (_ <=? 0).
Qed.

Lemma timer_fires_mono h w : h_mono h (timer_fires h w).1.
Proof.
  unfold timer_fires, mbind, go_bind, read_clock. destruct (next_turn w) as [t w'].
  destruct (h_timer h); [destruct (_ && _); [apply checkDeadline_mono|done]|done].
Qed.

Lemma call_expires_mono d h w : h_mono h (call_expires d h w).1.
Proof.
  unfold call_expires, mbind, go_bind, read_clock. destruct (next_turn w) as [t w']. by destruct (_ && _ && _).
Qed.

Lemma withLeaseDeadline_mono call h w : h_mono h (withLeaseDeadline h call w).1.1.
Proof.
  unfold withLeaseDeadline, mbind, go_bind. destruct (h_released h || h_lost h); [done|].
  destruct (time_now w) as [now w1]. destruct (negb _); [done|].
  destruct (call (h_leas h) w1) as [[l' err] w2].
  pose proof (call_expires_mono (lease_ExpiresAt (h_leas h)) h w2) as H1.
  destruct (call_expires _ h w2) as [h1 w3]; simpl in H1.
  pose proof (timer_fires_mono h1 w3) as H2. destruct (timer_fires h1 w3) as [h2 w4]; simpl in H2.
  assert (h_mono h (set_leas l' h2) ∧ h_mono h (markLost (set_leas l' h2))) as [Ha Hb].
  { split; (eapply h_mono_trans; [exact H1|]; eapply h_mono_trans; [exact H2|done]). }
  destruct (_ || _); [done|]. destruct (time_now w4) as [now2 w5]. by destruct (negb _).
Qed.

Lemma renew_mono h w : h_mono h (renew h w).1.1.
Proof.
  unfold renew. destruct (h_released h || h_lost h); [done|]. unfold mbind, go_bind. simpl.
  match goal with |- context [withLeaseDeadline h lease_Renew ?w1] =>
    pose proof (withLeaseDeadline_mono lease_Renew h w1) as H;
    destruct (withLeaseDeadline h lease_Renew w1) as [[h1 err] w2]; simpl in * end.
  destruct (is_error err ErrLost); simpl; [|done]. by eapply h_mono_trans.
Qed.

Lemma stop_mono h w : h_mono h (stop h w).1.
Proof.
  unfold stop. destruct (h_stopOnce _); [done|]. destruct (h_renewer _) as [r|]; [|done].
  unfold mbind, go_bind; simpl. by destruct (Stop r _).
Qed.

Lemma release_mono h w : h_mono h (release h w).1.1.
Proof.
  unfold release. destruct (h_releaseDone h) eqn:Ed; [done|]. unfold mbind, go_bind; simpl.
  pose proof (stop_mono h w) as H. destruct (stop h w) as [h1 w1]; simpl in *.
  destruct (lease_Release (h_leas h1) _) as [[l' err] w2]; simpl.
  destruct H as (H1 & H2 & _). split_and!; simpl; auto. congruence.
Qed.

Lemma do_op_mono o h w : h_mono h (do_op o h w).1.1.
Proof.
  destruct o; cbn [do_op]; [apply renew_mono|apply withLeaseDeadline_mono| | |apply release_mono| |];
    unfold mbind, go_bind.
  - pose proof (timer_fires_mono h w); by destruct (timer_fires h w).
  - done.
  - pose proof (stop_mono h w); by destruct (stop h w).
  - by destruct (time_now w).
Qed.

(** Loss and release are final.  Whatever happens to a handle later
    (renewals, checks, timers, releases, in any order), a canceled context
    stays canceled, a released handle stays released, and a completed release
    stays completed. *)
Theorem loss_is_final ops h w :
  let h' := (do_ops ops h w).1.1 in
  (h_lost h = true → h_lost h' = true) ∧ (h_released h = true → h_released h' = true) ∧
  (h_releaseDone h = true → h_releaseDone h' = true).
Proof.
  enough (h_mono h (do_ops ops h w).1.1) by done.
  revert h w; induction ops as [|o ops IH]; intros h w; [done|].
  cbn [do_ops]. unfold mbind, go_bind.
  pose proof (do_op_mono o h w) as H1. destruct (do_op o h w) as [[h1 e] w1]; simpl in H1.
  pose proof (IH h1 w1) as H2. destruct (do_ops ops h1 w1) as [[h2 es] w2]; simpl in *.
  by eapply h_mono_trans.
Qed.

(** What the user calls on a handle, and the answers once it is over. *)
Definition user_op (o : hop) : bool :=
  match o with ORenew | OWatch | ORelease | OStop => true | _ => false end.
Definition over_answer (o : hop) : option error :=
  match o with ORenew | OWatch => Some ErrLost | _ => None end.

(** A handle whose release was completed. *)
Definition finished h : Prop :=
  h_released h = true ∧ h_releaseDone h = true ∧ h_lost h = true ∧ h_stopOnce h = true ∧ h_timer h = None.

Lemma finished_op o h w : finished h → user_op o = true → do_op o h w = ((h, over_answer o), w).
Proof.
  destruct h; intros (? & ? & ? & ? & ?) Ho; simpl in *; subst. by destruct o.
Qed.

(** [release] finishes the handle, unless its outcome is unknown. *)
Lemma release_finishes h w :
  (h_releaseDone h = true → finished h) →
  (release h w).1.2 = None ∨ is_error (release h w).1.2 ErrLost = true →
  finished (release h w).1.1.
Proof.
  unfold release. destruct (h_releaseDone h) eqn:Ed; [by intros H _; apply H|]. intros _.
  unfold mbind, go_bind; simpl.
  assert (h_released (stop h w).1 = true ∧ h_lost (stop h w).1 = true ∧
          h_stopOnce (stop h w).1 = true ∧ h_timer (stop h w).1 = None) as (H1 & H2 & H3 & H4).
  { unfold stop. destruct (h_stopOnce (markLost (set_released h))) eqn:E; [done|].
    destruct (h_renewer _) as [r|]; [|done]. unfold mbind, go_bind; simpl. by destruct (Stop r _). }
  destruct (stop h w) as [h1 w1]; simpl in *.
  destruct (lease_Release (h_leas h1) _) as [[l' err] w2]; simpl.
  intros He. split_and!; simpl; try done. destruct He as [->| ->]; [done|apply orb_true_r].
Qed.

(** A release with any other outcome can be repeated. *)
Lemma release_uncertain h w :
  (h_releaseDone h = true → finished h) →
  (release h w).1.2 ≠ None → is_error (release h w).1.2 ErrLost = false →
  h_releaseDone (release h w).1.1 = false.
Proof.
  unfold release. destruct (h_releaseDone h) eqn:Ed; [done|]. intros _.
  unfold mbind, go_bind; simpl. destruct (stop h w) as [h1 w1].
  destruct (lease_Release (h_leas h1) _) as [[l' err] w2]; simpl.
  intros Hn ->. by rewrite bool_decide_eq_false_2.
Qed.

(** C20: release is idempotent and ends everything.  Once a release has
    returned nil or [ErrLost], every further use of the handle (releases,
    renewals, checks, in any order and number) leaves the world exactly as it
    is: no request is sent, no metric or span is reported, no time passes;
    releases return nil and renewals [ErrLost]. *)
Theorem release_idempotent h w e h' w' ops :
  (h_releaseDone h = true → finished h) →
  release h w = ((h', e), w') → e = None ∨ is_error e ErrLost = true →
  Forall (λ o, user_op o = true) ops →
  do_ops ops h' w' = ((h', over_answer <$> ops), w').
Proof.
  intros Hd E He Hops. pose proof (release_finishes h w Hd) as Hf. rewrite E in Hf. specialize (Hf He).
  simpl in Hf. clear -Hf Hops. induction Hops as [|o ops Ho _ IH]; [done|].
  cbn [do_ops]. unfold mbind, go_bind. by rewrite (finished_op o h' w' Hf Ho), IH.
Qed.

(** C27: a lost handle asks nothing of the server.  After its context is
    canceled (by the deadline timer, a failed renewal or a release), manual
    renewals, heartbeats and checks return [ErrLost] at once and change
    nothing, so a paused process that wakes up late cannot revive its lease. *)
Theorem lost_handle_inert h w ops :
  h_lost h = true → Forall (λ o, o = ORenew ∨ o = OWatch) ops →
  do_ops ops h w = ((h, (λ _, Some ErrLost) <$> ops), w).
Proof.
  intros Hl Hops; induction Hops as [|o ops Ho _ IH]; [done|].
  cbn [do_ops]. unfold mbind, go_bind.
  assert (do_op o h w = ((h, Some ErrLost), w)) as ->.
  { destruct Ho as [->| ->]; cbn [do_op]; [unfold renew|unfold watch, withLeaseDeadline];
      by rewrite Hl, orb_true_r. }
  by rewrite IH.
Qed.
End final.

(** ** The background loops *)
Section loops.
Context {S : Type} `{!RedisOps S, !RedisLaws S}.

Lemma loop_on_lease (l : SingleOwner) resource primitive interval fuel r tick
    (call : handle SingleOwner → go S (handle SingleOwner * option error)) (w : world S) h x w' :
  so_wf l →
  (∀ h, h_pure (S := S) l true h → triple (ll_rely l) (h_state l h) (call h)
     (λ x s c, h_post (S := S) l true h x.1 s c ∧ is_error x.2 ErrLost = h_lost x.1)) →
  world_ok (so_rely l) w → holds (so_held l) w →
  (h ← start interval (newHandle resource primitive l); loop call onLost fuel r tick h) w = ((h, x), w') →
  (x = LostOwnership → h_lost h = true) ∧
  (h_lost h = false → (∀ t, h_timer h = Some t → w_now w' < t) → so_owned (h_leas h) (w_srv w') (w_now w')).
Proof.
  intros Hwf Hcall Hw Hh E. assert (ll_ok (S := S) l) as Hok by exact Hwf.
  assert (triple (ll_rely l) (λ (s : S) c, ll_held l s c)
    (h ← start interval (newHandle resource primitive l); loop call onLost fuel r tick h)
    (λ x s c, h_inv (S := S) l true x.1 s c ∧ (x.2 = LostOwnership → h_lost x.1 = true))) as H.
  { eapply triple_bind.
    - eapply triple_pre; [apply (start_triple l Hok); apply (new_pure l Hok)|].
      intros s c Hs; by apply (new_state l Hok).
    - intros h0; cbn beta. eapply triple_pre; [apply (monitor_triple l Hok call); exact Hcall|].
      by intros s c [? _]. }
  destruct (H w Hw Hh) as [_ [Hi Hx]]. rewrite E in Hi, Hx; simpl in Hi, Hx.
  split; [exact Hx|]. intros Hl Ht. exact (inv_owned l h _ _ Hi Hl Ht).
Qed.

(** C8: the heartbeat keeps the lease.  From a fresh grant on, the loop that
    renews (or, without renewal, only checks) runs for any number of ticks
    under any interference, with any renewals failing; whenever it has
    stopped or is looked at, a handle that is not lost and whose deadline
    timer is on time is owned on the server, and the loop gives up for loss
    only with the handle lost, so that the holder is told. *)
Theorem loops_keep_lease (l : SingleOwner) resource primitive interval fuel r tick (w : world S) h x w' :
  so_wf l → world_ok (so_rely l) w → holds (so_held l) w →
  (h ← start interval (newHandle resource primitive l); heartbeat_loop fuel r tick h) w = ((h, x), w') ∨
  (h ← start interval (newHandle resource primitive l); watchdog_loop fuel r tick h) w = ((h, x), w') →
  (x = LostOwnership → h_lost h = true) ∧
  (h_lost h = false → (∀ t, h_timer h = Some t → w_now w' < t) → so_owned (h_leas h) (w_srv w') (w_now w')).
Proof.
  intros Hwf Hw Hh [E|E]; assert (ll_ok (S := S) l) as Hok by exact Hwf; eapply loop_on_lease; try exact E; try done; intros h' Hp.
  - exact (renew_triple l Hok true h' Hp).
  - exact (watch_triple l Hok true h' Hp).
Qed.
End loops.

(** ** Examples *)
Module Ex.

Definition a : SingleOwner :=
  {| so_id := "a"; so_key := "{m}"; so_fkey := "{m}:fencing"; so_ttl := 10 * Second;
     so_fencing := true; so_expiresAt := requestExpiry 0 (10 * Second) |}.
Definition b_asks : request := SingleAcquire "{m}" "{m}:fencing" "b" 10000 "1".

(** A server on which [a] holds the lock. *)
Definition a_srv : mem := (serve (acquire_request a) (mem_empty 0)).2.
Definition at_work (turns : list turn) : world mem := World a_srv 0 turns [] [].

Lemma a_wf : so_wf a.
Proof. by repeat split. Qed.
Lemma a_held ts : holds (so_held a) (at_work ts).
Proof.
  split; [|by vm_compute]. intros _; exists 10000; split; [vm_compute; reflexivity|vm_compute; discriminate].
Qed.

(** The loop is started; at the first tick, after three seconds in which
    [b] tried to get the lock, the renewal succeeds; then the loop is
    stopped. *)
Definition beats : world mem := at_work
  [quiet; first_do [Other b_asks] quiet; quiet; quiet; served; quiet; quiet; quiet; quiet; quiet].
Definition stopped_at_5 : Renewer :=
  {| rn_interval := 3 * Second; rn_cancel := Some (5 * Second); rn_started := true; rn_done := false |}.
Definition beating : handle SingleOwner * loop_exit * world mem :=
  (h ← start (3 * Second) (newHandle "m" "mutex" a); heartbeat_loop 3 stopped_at_5 (3 * Second) h) beats.

Lemma beats_ok : world_ok (so_rely a) beats.
Proof. solve_sched; right; by repeat split. Qed.

Lemma loops_keep_lease_witness :
  beating.1.2 = Stopped ∧ h_lost beating.1.1 = false ∧ so_owned (h_leas beating.1.1) (w_srv beating.2) (w_now beating.2).
Proof.
  assert (beating.1.2 = Stopped) as H1 by (vm_compute; reflexivity).
  assert (h_lost beating.1.1 = false) as H2 by (vm_compute; reflexivity).
  assert (h_timer beating.1.1 = Some (requestExpiry 0 (10 * Second))) as H3 by (vm_compute; reflexivity).
  assert (w_now beating.2 < requestExpiry 0 (10 * Second)) as H4 by (vm_compute; reflexivity).
  destruct (loops_keep_lease a "m" "mutex" (3 * Second) 3 stopped_at_5 (3 * Second) beats
    beating.1.1 beating.1.2 beating.2 a_wf beats_ok (a_held _)) as [_ Ho].
  { left. destruct beating as [[? ?] ?] eqn:Eb; exact Eb. }
  split; [exact H1|split; [exact H2|]]. apply Ho; [exact H2|]. intros t; rewrite H3; intros [= <-]; exact H4.
Defined.

Definition released : handle SingleOwner * option error * world mem :=
  release (newHandle "m" "mutex" a) (at_work [served]).

Lemma release_idempotent_witness :
  released.1.2 = None ∧
  do_ops [ORenew; ORelease; OWatch; OStop] released.1.1 released.2 =
  ((released.1.1, [Some ErrLost; None; Some ErrLost; None]), released.2).
Proof.
  assert (released.1.2 = None) as H1 by (vm_compute; reflexivity). split; [exact H1|].
  apply (release_idempotent (newHandle "m" "mutex" a) (at_work [served]) released.1.2);
    [discriminate| |by left|by repeat constructor].
  unfold released. destruct (release _ _) as [[? ?] ?]; reflexivity.
Defined.

Lemma lost_handle_inert_witness :
  do_ops [ORenew; OWatch] (markLost (newHandle "m" "mutex" a)) (at_work [served]) =
  ((markLost (newHandle "m" "mutex" a), [Some ErrLost; Some ErrLost]), at_work [served]).
Proof.
  apply (lost_handle_inert (markLost (newHandle "m" "mutex" a)) (at_work [served]) [ORenew; OWatch]);
    [reflexivity|constructor; [by left|constructor; [by right|constructor]]].
Defined.
End Ex.
