(* ===== verification/RWWriter.v ===== *)
(** * The writer's lease of a read-write lock

    [internal/lease/rw.go], the writer's half.  Renewal, release and the
    ownership query are those of the exclusive lease on the writer key
    ([as_single]); the attempt also takes a place in the arrival queue, which
    [Dequeue] gives up. *)
From S2P Require Import Prelude Redis Errors Requests ScriptsSingle ScriptsRW RWLock RWMachine.
From S2P Require Import GoRuntime Lease SingleOwner Guard GuardSafety.
Open Scope Z_scope.

Record RWWriter := {
  ww_id : string;
  ww_keys : RWKeys;
  ww_ttl : Z;
  ww_expiresAt : Z;
}.

Definition set_deadline (t : Z) (w : RWWriter) : RWWriter :=
  {| ww_id := ww_id w; ww_keys := ww_keys w; ww_ttl := ww_ttl w; ww_expiresAt := t |}.

(** [waiterTimeout(ttl)], in milliseconds; the product is an [int64]. *)
Definition waiterTimeout (ttl : Z) : Z := Milliseconds (wrap64 (ttl * 2)).

Definition writer_member (w : RWWriter) : string := "W:" +:+ ww_id w.

Definition write_request (w : RWWriter) (started : Z) : request :=
  RWWriteLock (ww_keys w) (ww_id w) (Milliseconds (ww_ttl w)) (UnixMilli started)
    (waiterTimeout (ww_ttl w)).

Section ops.
Context {S : Type} `{!RedisOps S}.

Definition NewRWWriter (keys : RWKeys) (ttl : Z) : go S RWWriter :=
  id ← Token;
  mret {| ww_id := id; ww_keys := keys; ww_ttl := ttl; ww_expiresAt := time_zero |}.

(** The errors of both commands are ignored. *)
Definition Dequeue (w : RWWriter) : go S unit :=
  _ ← redis (Command (ZREM (Waiters (ww_keys w)) (writer_member w)));
  _ ← redis (Command (HDEL (WaiterTS (ww_keys w)) (writer_member w)));
  mret tt.

Definition Release (w : RWWriter) : go S (RWWriter * option error) :=
  r ← redis (SingleRelease (Writer (ww_keys w)) (ww_id w));
  mret match call_Int64 r with
  | CErr e => (w, Some e)
  | CNil => (w, Some (ErrRedis "redis: nil"))
  | COk ok =>
      if negb (ok =? 1) then (w, Some ErrLost)
      else (set_deadline time_zero w, None)
  end.

Definition TryAcquire (w : RWWriter) : go S (RWWriter * (Z * option error)) :=
  started ← time_now;
  let deadline := requestExpiry started (ww_ttl w) in
  r ← redis (write_request w started);
  match call_Int64 r with
  | CNil => mret (w, (0, Some ErrBusy))
  | CErr e => mret (w, (0, Some e))
  | COk res =>
      now ← time_now;
      if negb (After deadline now) then
        '(w, e) ← discardLateGrant (Release w);
        mret (w, (0, e))
      else mret (set_deadline deadline w, (to_uint64 res, None))
  end.

Definition Acquire (w : RWWriter) : go S (RWWriter * option error) :=
  '(w, (_, e)) ← TryAcquire w;
  mret (w, e).

Definition Renew (w : RWWriter) : go S (RWWriter * option error) :=
  started ← time_now;
  let deadline := requestExpiry started (ww_ttl w) in
  r ← redis (SingleRenew (Writer (ww_keys w)) (ww_id w) (Milliseconds (ww_ttl w)));
  match call_Int64 r with
  | CErr e => mret (w, Some e)
  | CNil => mret (w, Some (ErrRedis "redis: nil"))
  | COk ok =>
      if negb (ok =? 1) then mret (w, Some ErrLost)
      else
        now1 ← time_now;
        if negb (After (ww_expiresAt w) now1) then mret (w, Some ErrLost)
        else
          now2 ← time_now;
          if negb (After deadline now2) then mret (w, Some ErrLost)
          else if After deadline (ww_expiresAt w) then mret (set_deadline deadline w, None)
          else mret (w, None)
  end.

Definition Held (w : RWWriter) : go S (bool * option error) :=
  r ← redis (Command (GET (Writer (ww_keys w))));
  mret match call_Text r with
  | CNil => (false, None)
  | CErr e => (false, Some e)
  | COk val => (bool_decide (val = ww_id w), None)
  end.

#[export] Instance writer_lease : Lease S RWWriter := {|
  lease_ID := ww_id;
  lease_Acquire := Acquire;
  lease_Renew := Renew;
  lease_Release := Release;
  lease_Held := Held;
  lease_ExpiresAt := ww_expiresAt;
|}.
End ops.

(** ** The writer as an exclusive owner *)

Definition as_single (w : RWWriter) : SingleOwner :=
  {| so_id := ww_id w; so_key := Writer (ww_keys w); so_fkey := Fencing (ww_keys w);
     so_ttl := ww_ttl w; so_fencing := true; so_expiresAt := ww_expiresAt w |}.

Lemma ww_set_deadline_same w : set_deadline (ww_expiresAt w) w = w.
Proof. by destruct w. Qed.

Section single.
Context {S : Type} `{!RedisOps S}.

(** A program of the exclusive lease, run by the writer. *)
Definition lift {A} (w : RWWriter) (p : go S (SingleOwner * A)) : go S (RWWriter * A) :=
  '(l, a) ← p; mret (set_deadline (so_expiresAt l) w, a).

Lemma Release_single w (t : world S) : Release w t = lift w (SingleOwner.Release (as_single w)) t.
Proof.
  unfold lift, Release, SingleOwner.Release, release_request, mbind, go_bind. simpl.
  destruct (redis _ t) as [r t1].
  destruct (call_Int64 r) as [ok| |e]; [destruct (negb (ok =? 1))|..]; cbn; by rewrite ?ww_set_deadline_same.
Qed.

Lemma TryAcquire_single w (t : world S) :
  TryAcquire w t = lift w (acquire_with (as_single w) (write_request w)) t.
Proof.
  unfold lift, TryAcquire, acquire_with, discardLateGrant, mbind, go_bind.
  cbn [as_single so_ttl so_id so_key so_fkey so_fencing so_expiresAt].
  destruct (time_now t) as [start t1]. destruct (redis _ t1) as [r t2].
  destruct (call_Int64 r); [|by simpl; rewrite ww_set_deadline_same..].
  destruct (time_now t2) as [now t3]. destruct (negb _); [|done].
  rewrite Release_single. unfold lift, mbind, go_bind.
  by destruct (SingleOwner.Release (as_single w) t3) as [[l e] t4].
Qed.

Lemma Renew_single w (t : world S) : Renew w t = lift w (SingleOwner.Renew (as_single w)) t.
Proof.
  unfold lift, Renew, SingleOwner.Renew, renew_request, mbind, go_bind.
  cbn [as_single so_ttl so_id so_key so_fkey so_fencing so_expiresAt].
  destruct (time_now t) as [start t1]. destruct (redis _ t1) as [r t2].
  destruct (call_Int64 r) as [ok| |e]; [destruct (negb (ok =? 1))|..]; try (cbn; by rewrite ?ww_set_deadline_same).
  destruct (time_now t2) as [n1 t3]. destruct (negb (After (ww_expiresAt w) n1)); [cbn; by rewrite ?ww_set_deadline_same|].
  destruct (time_now t3) as [n2 t4]. destruct (negb (After _ n2)); [cbn; by rewrite ?ww_set_deadline_same|].
  destruct (After _ _); cbn; by rewrite ?ww_set_deadline_same.
Qed.

Lemma Held_single w (t : world S) : Held w t = SingleOwner.Held (as_single w) t.
Proof. done. Qed.

(** What is proved of the exclusive lease holds of the writer. *)
Lemma lift_triple {A} R P (p : go S (SingleOwner * A)) (q : go S (RWWriter * A)) w Q Q' :
  (∀ t, q t = lift w p t) → triple R P p Q →
  (∀ l a s c, Q (l, a) s c → Q' (set_deadline (so_expiresAt l) w, a) s c) → triple R P q Q'.
Proof.
  intros E Hp HQ t Ht HP. rewrite E. unfold lift, mbind, go_bind.
  destruct (Hp t Ht HP) as [Hw H]. destruct (p t) as [[l a] t']. split; [exact Hw|]. by apply HQ.
Qed.
End single.

(** ** The lock on the server *)
Section good.
Context {S : Type} `{!RedisOps S, !RedisLaws S}.
Implicit Types (s : S) (K : RWKeys).

(** The keys hold a lock in a good state, as all its users leave it. *)
Definition lock_good (K : RWKeys) (s : S) : Prop := rw_good K (r_view s).

Lemma stable_lock_good K : stable (rw_protocol K) (λ s _, lock_good K s).
Proof.
  unfold lock_good; split.
  - intros s c r Hr Hg. rewrite serve_view. by apply good_serve.
  - intros s c dc ds _ Hg. rewrite law_tick_view. by apply good_tick.
Qed.

Lemma protocol_op K o : rw_protocol K (to_request K o).
Proof. right; by exists o. Qed.

Lemma lock_good_serve K o s : lock_good K s → lock_good K (serve (to_request K o) s).2.
Proof. intros Hg. exact (proj1 (stable_lock_good K) s 0 _ (protocol_op K o) Hg). Qed.

Lemma on_owned K m st id x : rw_on K m st → owned m (Writer K) id x ↔ rw_writer st = Some (id, x).
Proof.
  intros [Hrep _]. unfold owned. rewrite (rep_writer _ _ _ Hrep).
  destruct (rw_writer st) as [[t y]|]; simpl; split; congruence.
Qed.

Lemma on_counter K m st : rw_on K m st → counter m (Fencing K) (default 0 (rw_fence st)).
Proof.
  intros [Hrep _]. destruct (rep_fence_range _ _ _ Hrep) as [? ?]. split; [done|split; [done|]].
  rewrite (rep_fence _ _ _ Hrep). destruct (rw_fence st); simpl; auto.
Qed.

Lemma on_minted K m st : rw_on K m st → is_Some (rw_fence st) → minted m (Fencing K).
Proof. intros [Hrep _] [n E]. exists n. by rewrite (rep_fence _ _ _ Hrep), E. Qed.

Lemma is_writer_spec st id : is_writer st id = true ↔ ∃ x, rw_writer st = Some (id, x).
Proof.
  unfold is_writer. destruct (rw_writer st) as [[t x]|]; [|split; [done|by intros [? ?]]].
  rewrite String.eqb_eq. split; [intros ->; eauto|by intros [? [= -> _]]].
Qed.

Lemma not_owned_if K m st id : rw_on K m st → is_writer st id = false → ∀ x, ¬ owned m (Writer K) id x.
Proof.
  intros Ho Hw x Hx%(on_owned _ _ _ _ _ Ho).
  assert (is_writer st id = true) by (apply is_writer_spec; eauto). congruence.
Qed.

(** Two servers alike in the writer and the fencing counter. *)
Definition same_lock K (s s' : S) : Prop :=
  r_view s' !! Writer K = r_view s !! Writer K ∧ r_view s' !! Fencing K = r_view s !! Fencing K ∧
  r_time s' = r_time s.

Lemma on_same K s s' st st' :
  rw_on K (r_view s) st → rw_on K (r_view s') st' → r_time s' = r_time s →
  rw_writer st' = rw_writer st → rw_fence st' = rw_fence st → same_lock K s s'.
Proof.
  intros [H _] [H' _] Ht Ew Ef. unfold same_lock.
  by rewrite (rep_writer _ _ _ H), (rep_writer _ _ _ H'), (rep_fence _ _ _ H), (rep_fence _ _ _ H'), Ew, Ef.
Qed.

Lemma same_lock_keeps (l : SingleOwner) K s s' start n0 z c :
  so_key l = Writer K → so_fkey l = Fencing K → same_lock K s s' →
  (so_grant l start n0 z s c → so_grant l start n0 z s' c) ∧
  (counter_ge (so_fkey l) n0 s → counter_ge (so_fkey l) n0 s') ∧
  (not_owned (so_key l) (so_id l) s → not_owned (so_key l) (so_id l) s').
Proof.
  intros Ek Ef (E1 & E2 & E3). rewrite <- Ek in E1; rewrite <- Ef in E2.
  unfold so_grant, covered, counter_ge, fence_is, until_covers, not_owned, owned, minted, counter.
  by rewrite E1, E2, E3.
Qed.

(** The attempt changes the writer and the counter only by a grant. *)
Lemma write_refused t now wt st :
  let st1 := (join ("W:" +:+ t) now wt st).2 in
  ∀ st', (st' = st1 ∨ st' = purge (now - wt) st1 ∨ st' = set_readers (zalive now (rw_readers st)) (purge (now - wt) st1)) →
  rw_writer st' = rw_writer st ∧ rw_fence st' = rw_fence st.
Proof.
  cbv zeta. destruct (join_fields ("W:" +:+ t) now wt st) as (_ & Jw & Jf).
  destruct (purge_fields (now - wt) (join ("W:" +:+ t) now wt st).2) as (_ & Pw & Pf & _).
  intros st' [->|[->| ->]]; simpl; split; congruence.
Qed.
End good.

(** ** The writer under interference *)
Section triples.
Context {S : Type} `{!RedisOps S, !RedisLaws S}.
Context (w : RWWriter).
Implicit Types (s : S) (c : Z).

Definition ww_ok : Prop := NoDup (rw_keys (ww_keys w)) ∧ whole_ms (ww_ttl w).

(** The other users of the lock are other contenders, and keep to its
    protocol. *)
Definition ww_rely (r : request) : Prop := so_rely (as_single w) r ∧ rw_protocol (ww_keys w) r.

Definition ww_held s c : Prop := so_held (as_single w) s c ∧ lock_good (ww_keys w) s.

Definition ww_free (n0 : Z) s : Prop := so_free (as_single w) n0 s ∧ lock_good (ww_keys w) s.

Hypothesis Hok : ww_ok.

Lemma ww_wf : so_wf (as_single w).
Proof.
  destruct Hok as [HK Httl]. split; [|exact Httl]. simpl. pose proof (rw_keys_ne _ HK); by inv_all.
Qed.

Lemma stable_ww I J :
  stable (so_rely (as_single w)) I → stable (rw_protocol (ww_keys w)) J →
  stable (S := S) ww_rely (λ s c, I s c ∧ J s c).
Proof.
  intros HI HJ; apply stable_and; (eapply stable_weaken; [|done]); by intros r [? ?].
Qed.

Lemma stable_ww_held : stable ww_rely ww_held.
Proof. apply stable_ww; [apply stable_so_held, ww_wf|apply stable_lock_good]. Qed.

Lemma stable_ww_free n0 : stable ww_rely (λ s _, ww_free n0 s).
Proof. apply stable_ww; [apply stable_so_free, ww_wf|apply stable_lock_good]. Qed.

(** What the script answers, and what it leaves on the server. *)
(** A grant under the next token, with its lease stamped at [start]. *)
Lemma new_write_grant start n0 s s' st' f c :
  start ≤ c → r_time s' = r_time s → rw_on (ww_keys w) (r_view s') st' →
  rw_writer st' = Some (ww_id w, Some (r_clock s + Milliseconds (ww_ttl w))) → rw_fence st' = Some f →
  n0 ≤ f → (f ≤ 2 ^ 53 → n0 < f) →
  counter_ge (Fencing (ww_keys w)) n0 s' ∧ so_grant (as_single w) start n0 (double_of_Z f) s' c.
Proof.
  intros Hc Ht Ho Hw Ef Hf Hlt. set (K := ww_keys w) in *.
  assert (owned (r_view s') (Writer K) (ww_id w) (Some (r_clock s + Milliseconds (ww_ttl w)))) as Hown
    by (by apply (on_owned _ _ _ _ _ Ho)).
  pose proof (on_counter _ _ _ Ho) as Hc'. rewrite Ef in Hc'; simpl in Hc'.
  split; [exists f; split; [lia|done]|]. split; [|split; [|done]].
  - intros _; exists (r_clock s + Milliseconds (ww_ttl w)); split; [done|].
    unfold until_covers; rewrite Ht. apply request_covers; [apply Hok|done].
  - intros _. exists f. split; [done|split; [done|]]. split; [by exists f|].
    intros x _; split; [|done]. by eapply on_minted; [|eauto].
Qed.

Lemma serve_write start n0 s c :
  start ≤ c → lock_good (ww_keys w) s → counter_ge (so_fkey (as_single w)) n0 s →
  not_owned (so_key (as_single w)) (so_id (as_single w)) s ∨ (∃ z, so_grant (as_single w) start n0 z s c) →
  attempt (as_single w) start n0 (serve (write_request w start) s).1 (serve (write_request w start) s).2 c ∧
  lock_good (ww_keys w) (serve (write_request w start) s).2.
Proof.
  intros Hc (st & Ho & Hi & _) Hctr Hst. pose proof Hctr as (n & Hn & Hcnt). simpl in Hcnt. set (K := ww_keys w) in *.
  destruct (write_run K (r_clock s) (r_view s) st (ww_id w) (Milliseconds (ww_ttl w)) (UnixMilli start)
    (waiterTimeout (ww_ttl w)) Ho) as (m' & Hrun & Ho').
  fold (write_request w start) in Hrun.
  pose proof (serve_view (write_request w start) s) as Hv; pose proof (serve_reply (write_request w start) s) as Hr.
  pose proof (serve_time (write_request w start) s) as Ht. unfold write_request in *; fold K in Hrun, Hv, Hr, Ht |- *.
  rewrite Hrun in Hv, Hr; cbn [fst snd] in Hv, Hr.
  destruct (serve _ s) as [r s']; cbn [fst snd] in *. subst r.
  pose proof (on_counter K _ st Ho) as Hcs.
  pose proof (inv_write (r_clock s) (ww_id w) (Milliseconds (ww_ttl w)) (UnixMilli start) (waiterTimeout (ww_ttl w)) st Hi) as Hi'.
  assert (lock_good K s') as Hg' by (unfold lock_good; rewrite Hv; by eexists). split; [|exact Hg'].
  clear Hi' Hg'. rewrite <- Hv in Ho'.
  pose proof (write_step_cases (r_clock s) (ww_id w) (Milliseconds (ww_ttl w)) (UnixMilli start)
    (waiterTimeout (ww_ttl w)) st) as Hcases. cbv zeta in Hcases.
  pose proof (write_refused (ww_id w) (UnixMilli start)
    (waiterTimeout (ww_ttl w)) st) as Href. cbv zeta in Href.
  assert (∀ st', rw_on K (r_view s') st' → rw_writer st' = rw_writer st → rw_fence st' = rw_fence st →
    same_lock K s s') as Hsame by (intros; by eapply on_same).
  destruct (write_step _ _ _ _ _ _) as [r st']; cbn [fst snd] in *.
  destruct Hcases as [[Hw [= -> ->]]|[Hw [[Hrep Hst']|(Hfree & _ & Httl & _ & st2 & -> & Hgr)]]].
  - (* the owner's retry *)
    specialize (Hsame _ Ho' eq_refl eq_refl).
    apply is_writer_spec in Hw as [x Hw]. assert (owned (r_view s) (Writer K) (ww_id w) x) as Hown by (by eapply on_owned).
    destruct Hst as [Hno|[z Hg]]; [by destruct (Hno x)|].
    destruct (inv_minted _ Hi) as [f Ef]; [eauto|]. rewrite Ef in *; simpl in Hcs.
    assert (z = double_of_Z f) as Ez.
    { destruct Hg as (_ & Hft & _). destruct (Hft eq_refl) as (f' & -> & _ & _ & Hfe). 
      destruct (Hfe x Hown) as [_ Hc']. by rewrite (counter_unique _ _ _ _ Hcs Hc'). }
    subst z. destruct (same_lock_keeps (as_single w) K s s' start n0 (double_of_Z f) c eq_refl eq_refl Hsame) as (G1 & G2 & _).
    split; [split; [done|by apply G2]|]. exact (G1 Hg).
  - (* refused, or an error *)
    destruct (Href st' Hst') as [Ew Ef]. specialize (Hsame _ Ho' Ew Ef).
    destruct (same_lock_keeps (as_single w) K s s' start n0 0 c eq_refl eq_refl Hsame) as (_ & G2 & G3).
    assert (not_owned (Writer K) (ww_id w) s') as Hno by (apply G3; exact (not_owned_if K _ st _ Ho Hw)).
    split; [split; [done|by apply G2]|]. destruct Hrep as [->|[e ->]]; auto.
  - (* a new grant *)
    set (ms := Milliseconds (ww_ttl w)) in *. set (n' := default 0 (rw_fence st)) in *.
    assert (rw_writer st' = Some (ww_id w, Some (r_clock s + ms))) as Hwr
      by (by destruct Hgr as [[[= _ ->] _]|[[= _ ->] _]]).
    pose proof (counter_unique _ _ _ _ Hcnt Hcs) as En.
    destruct Hgr as [[[= -> ->] Hlt]|[[= -> ->] Hge]].
    + destruct (new_write_grant start n0 s s' _ (n' + 1) c Hc Ht Ho' Hwr eq_refl) as [G1 G2]; [lia..|]. by split.
    + destruct (rw_fence st) as [f|] eqn:Ef; [|unfold n', int64_max in Hge; simpl in Hge; lia].
      destruct (new_write_grant start n0 s s' _ f c Hc Ht Ho' Hwr) as [G1 G2].
      * simpl. destruct (purge_fields (UnixMilli start - waiterTimeout (ww_ttl w))
          (join ("W:" +:+ ww_id w) (UnixMilli start) (waiterTimeout (ww_ttl w)) st).2) as (_ & _ & -> & _).
        destruct (join_fields ("W:" +:+ ww_id w) (UnixMilli start) (waiterTimeout (ww_ttl w)) st) as (_ & _ & ->). done.
      * unfold n' in En; simpl in En; lia.
      * unfold n' in Hge; simpl in Hge. unfold int64_max in Hge; lia.
      * split; [by split|]. right; by exists (double_of_Z f).
Qed.
(** The invariant of the server through the writer's own requests. *)
Ltac keep_good := solve_keep ltac:(first
  [ exact (stable_lock_good _)
  | intros s c; exact (lock_good_serve _ (WLock _ _ _ _) s)
  | intros s c; exact (lock_good_serve _ (WRenew _ _) s)
  | intros s c; exact (lock_good_serve _ (WRelease _) s)
  | intros s c; exact (lock_good_serve _ (QLeave _) s)
  | intros s c; exact (lock_good_serve _ (QForget _) s)
  | intros s c; exact (lock_good_serve _ WQuery s) ]).

Lemma ww_Release_good :
  triple (rw_protocol (ww_keys w)) (λ s _, lock_good (ww_keys w) s) (Release w) (λ _ s _, lock_good (ww_keys w) s).
Proof. unfold Release; keep_good. Qed.

Lemma ww_TryAcquire_good :
  triple (rw_protocol (ww_keys w)) (λ s _, lock_good (ww_keys w) s) (TryAcquire w) (λ _ s _, lock_good (ww_keys w) s).
Proof. unfold TryAcquire, discardLateGrant, Release, write_request; keep_good. Qed.

Lemma ww_Renew_good :
  triple (rw_protocol (ww_keys w)) (λ s _, lock_good (ww_keys w) s) (Renew w) (λ _ s _, lock_good (ww_keys w) s).
Proof. unfold Renew; keep_good. Qed.

Lemma ww_Held_good :
  triple (rw_protocol (ww_keys w)) (λ s _, lock_good (ww_keys w) s) (Held w) (λ _ s _, lock_good (ww_keys w) s).
Proof. unfold Held; keep_good. Qed.

(** A grant of [TryAcquire]: with a token above the first [n0], and backed by
    the server. *)
Definition ww_acquired (n0 : Z) (x : RWWriter * (Z * option error)) (s : S) (c : Z) : Prop :=
  let '(w', (z, e)) := x in
  lock_good (ww_keys w) s ∧
  match e with
  | None => w' = set_deadline (ww_expiresAt w') w ∧ so_held (as_single w') s c ∧
      ∃ f, z = to_uint64 (double_of_Z f) ∧ (f ≤ 2 ^ 53 → n0 < f)
  | Some ErrBusy => w' = w ∧ so_free (as_single w) n0 s
  | Some e => errors_Is e ErrBusy = false
  end.

Lemma ww_TryAcquire_triple n0 : triple ww_rely (λ s _, ww_free n0 s) (TryAcquire w) (ww_acquired n0).
Proof.
  assert (triple ww_rely (λ s _, so_free (as_single w) n0 s ∧ lock_good (ww_keys w) s) (TryAcquire w)
    (λ x s c, acquired (as_single w) n0 (as_single x.1, x.2) s c ∧ x.1 = set_deadline (ww_expiresAt x.1) w)) as H.
  { eapply (lift_triple _ _ (acquire_with (as_single w) (write_request w))); [apply TryAcquire_single| |].
    - apply (acquire_with_triple (as_single w) ww_wf n0 (write_request w) (rw_protocol (ww_keys w)) (lock_good (ww_keys w))).
      + apply stable_lock_good.
      + exact (λ start s c, serve_write start n0 s c).
    - intros l [z e] s c H; cbn [fst snd]. split; [|done]. revert H. unfold acquired.
      assert (∀ t, as_single (set_deadline t w) = set_expiresAt t (as_single w)) as E by done.
      rewrite E. destruct e as [e|].
      + destruct e; try done. intros [-> ?]. split; [|done]. simpl. by destruct w.
      + intros (El & ? & ? & ? & ?). split; [done|split; [by rewrite <- El|done]]. }
  intros t Ht Hf. pose proof (H t Ht Hf) as [Hw [Ha He]].
  destruct (ww_TryAcquire_good t) as [_ Hg]; [eapply world_ok_weaken; [|exact Ht]; by intros r [? ?]|apply Hf|].
  split; [exact Hw|]. unfold holds in *. destruct (TryAcquire w t) as [[w' [z e]] t']; cbn [fst snd] in *.
  split; [exact Hg|]. unfold acquired in Ha. destruct e as [e|].
  - destruct e; try exact Ha. destruct Ha as [Ew ?]. split; [|done]. rewrite He. 
    assert (ww_expiresAt w' = ww_expiresAt w) as -> by exact (f_equal so_expiresAt Ew). apply ww_set_deadline_same.
  - destruct Ha as (_ & ? & _ & Hft & _). split; [exact He|split; [done|]].
    destruct (Hft eq_refl) as (f & ? & ? & _). by exists f.
Qed.

(** What is proved of the writer as an owner, with the invariant. *)
Lemma ww_with_good {A} (p : go S A) P Q :
  triple (so_rely (as_single w)) P p Q →
  triple (rw_protocol (ww_keys w)) (λ s _, lock_good (ww_keys w) s) p (λ _ s _, lock_good (ww_keys w) s) →
  triple ww_rely (λ s c, P s c ∧ lock_good (ww_keys w) s) p (λ a s c, Q a s c ∧ lock_good (ww_keys w) s).
Proof. apply triple_combine. Qed.

Lemma ww_Renew_triple :
  triple ww_rely ww_held (Renew w) (λ x s c,
    (so_held (as_single x.1) s c ∧ x.1 = set_deadline (ww_expiresAt x.1) w ∧
     ww_expiresAt w ≤ ww_expiresAt x.1) ∧ lock_good (ww_keys w) s).
Proof.
  apply (ww_with_good _ _ (λ x s c, so_held (as_single x.1) s c ∧ x.1 = set_deadline (ww_expiresAt x.1) w ∧
    ww_expiresAt w ≤ ww_expiresAt x.1)); [|apply ww_Renew_good].
  eapply (lift_triple _ _ (SingleOwner.Renew (as_single w))); [apply Renew_single|apply SingleOwner.Renew_triple, ww_wf|].
  intros l e s c (Hh & El & Hle & _); cbn [fst snd] in *. split; [|done].
  assert (as_single (set_deadline (so_expiresAt l) w) = l) as ->; [by rewrite El|done].
Qed.

Lemma ww_Release_triple :
  triple ww_rely (λ s _, lock_good (ww_keys w) s) (Release w) (λ x s c,
    (if bool_decide (x.2 = None) || is_error x.2 ErrLost then not_owned (Writer (ww_keys w)) (ww_id w) s
     else x.1 = w) ∧ lock_good (ww_keys w) s).
Proof.
  eapply triple_pre; [apply (ww_with_good _ (λ _ _, True) (λ x s c,
    if bool_decide (x.2 = None) || is_error x.2 ErrLost then not_owned (Writer (ww_keys w)) (ww_id w) s
    else x.1 = w)); [|apply ww_Release_good]|done].
  eapply (lift_triple _ _ (SingleOwner.Release (as_single w))); [apply Release_single|apply so_release, ww_wf|].
  intros l e s c H; cbn [fst snd] in *. destruct (_ || _); [exact H|]. destruct H as [-> _]. apply ww_set_deadline_same.
Qed.

Lemma ww_Held_triple : triple ww_rely ww_held (Held w) (λ _, ww_held).
Proof.
  apply (ww_with_good _ _ (λ _, so_held (as_single w))); [exact (so_query (as_single w) ww_wf)|apply ww_Held_good].
Qed.

(** Leaving the queue is within what the lock's other users rely on. *)
Lemma ww_Dequeue_keeps (I : S → Z → Prop) : stable ww_rely I → triple ww_rely I (Dequeue w) (λ _, I).
Proof.
  intros HI; unfold Dequeue. pose proof (rw_keys_ne _ (proj1 Hok)); inv_all.
  assert (∀ o, request_keys (to_request (ww_keys w) o) = [Waiters (ww_keys w)] ∨
    request_keys (to_request (ww_keys w) o) = [WaiterTS (ww_keys w)] → ww_rely (to_request (ww_keys w) o)) as Hr.
  { intros o Ho; split; [left; simpl|apply protocol_op]. destruct Ho as [-> | ->]; set_solver. }
  eapply triple_bind; [apply triple_redis_stable; [apply (Hr (QLeave _)); by left|done]|]. intros a; cbn beta.
  eapply triple_bind; [apply triple_redis_stable; [apply (Hr (QForget _)); by right|done]|]. intros b; cbn beta.
  apply triple_keep.
Qed.
End triples.
