(* ===== verification/RWReader.v ===== *)
(** * The reader's lease of a read-write lock

    [internal/lease/rw.go], the reader's half.  A reader is one member of the
    set of readers; renewal and release are those of a permit ([as_permit]),
    the attempt also takes a place in the arrival queue. *)
From S2P Require Import Prelude Redis Errors Requests ScriptsSem ScriptsRW RWLock RWMachine.
From S2P Require Import GoRuntime Lease SingleOwner PermitSet Guard GuardSafety RWWriter.
Open Scope Z_scope.

Record RWReader := {
  rr_id : string;
  rr_keys : RWKeys;
  rr_ttl : Z;
  rr_expiresAt : Z;
}.

Definition set_deadline (t : Z) (r : RWReader) : RWReader :=
  {| rr_id := rr_id r; rr_keys := rr_keys r; rr_ttl := rr_ttl r; rr_expiresAt := t |}.

Definition reader_member (r : RWReader) : string := "R:" +:+ rr_id r.

Definition read_request (r : RWReader) (started : Z) : request :=
  RWReadLock (rr_keys r) (rr_id r) (Milliseconds (rr_ttl r)) (UnixMilli started)
    (waiterTimeout (rr_ttl r)).

Section ops.
Context {S : Type} `{!RedisOps S}.

Definition NewRWReader (keys : RWKeys) (ttl : Z) : go S RWReader :=
  id ← Token;
  mret {| rr_id := id; rr_keys := keys; rr_ttl := ttl; rr_expiresAt := time_zero |}.

(** The errors of both commands are ignored. *)
Definition Dequeue (r : RWReader) : go S unit :=
  _ ← redis (Command (ZREM (Waiters (rr_keys r)) (reader_member r)));
  _ ← redis (Command (HDEL (WaiterTS (rr_keys r)) (reader_member r)));
  mret tt.

Definition Release (r : RWReader) : go S (RWReader * option error) :=
  x ← redis (SemRelease (Readers (rr_keys r)) [rr_id r]);
  mret match call_Int64 x with
  | CErr e => (r, Some e)
  | CNil => (r, Some (ErrRedis "redis: nil"))
  | COk removed =>
      if negb (removed =? 1) then (r, Some ErrLost)
      else (set_deadline time_zero r, None)
  end.

Definition Acquire (r : RWReader) : go S (RWReader * option error) :=
  started ← time_now;
  let deadline := requestExpiry started (rr_ttl r) in
  x ← redis (read_request r started);
  match call_Int64 x with
  | CNil => mret (r, Some ErrBusy)
  | CErr e => mret (r, Some e)
  | COk _ =>
      now ← time_now;
      if negb (After deadline now) then discardLateGrant (Release r)
      else mret (set_deadline deadline r, None)
  end.

Definition Renew (r : RWReader) : go S (RWReader * option error) :=
  started ← time_now;
  let deadline := requestExpiry started (rr_ttl r) in
  x ← redis (SemRenew (Readers (rr_keys r)) (UnixMilli started) (Milliseconds (rr_ttl r)) [rr_id r]);
  match call_Int64 x with
  | CErr e => mret (r, Some e)
  | CNil => mret (r, Some (ErrRedis "redis: nil"))
  | COk ok =>
      if negb (ok =? 1) then mret (r, Some ErrLost)
      else
        now1 ← time_now;
        if negb (After (rr_expiresAt r) now1) then mret (r, Some ErrLost)
        else
          now2 ← time_now;
          if negb (After deadline now2) then mret (r, Some ErrLost)
          else if After deadline (rr_expiresAt r) then mret (set_deadline deadline r, None)
          else mret (r, None)
  end.

Definition Held (r : RWReader) : go S (bool * option error) :=
  x ← redis (Command (ZSCORE (Readers (rr_keys r)) (rr_id r)));
  match call_Score x with
  | CNil => mret (false, None)
  | CErr e => mret (false, Some e)
  | COk score =>
      now ← time_now;
      mret (UnixMilli now <? score, None)
  end.

#[export] Instance reader_lease : Lease S RWReader := {|
  lease_ID := rr_id;
  lease_Acquire := Acquire;
  lease_Renew := Renew;
  lease_Release := Release;
  lease_Held := Held;
  lease_ExpiresAt := rr_expiresAt;
|}.
End ops.

(** ** The reader as a permit *)

Definition as_permit (r : RWReader) : PermitSet :=
  {| ps_id := rr_id r; ps_key := Readers (rr_keys r); ps_ttl := rr_ttl r; ps_capacity := 0;
     ps_tokens := [rr_id r]; ps_acquired := true; ps_expiresAt := rr_expiresAt r |}.

Lemma rr_set_deadline_same r : set_deadline (rr_expiresAt r) r = r.
Proof. by destruct r. Qed.

Section permit.
Context {S : Type} `{!RedisOps S}.

Lemma Renew_permit r (t : world S) :
  Renew r t = let '((p, e), t') := PermitSet.Renew (as_permit r) t in
              ((set_deadline (ps_expiresAt p) r, e), t').
Proof.
  unfold Renew, PermitSet.Renew, mbind, go_bind.
  cbn [as_permit ps_ttl ps_id ps_key ps_tokens ps_expiresAt].
  destruct (time_now t) as [start t1]. rewrite bool_decide_eq_false_2 by done.
  destruct (redis _ t1) as [x t2].
  destruct (call_Int64 x) as [ok| |e]; [destruct (negb (ok =? 1))|..]; try (cbn; by rewrite ?rr_set_deadline_same).
  destruct (time_now t2) as [n1 t3]. destruct (negb (After (rr_expiresAt r) n1)); [cbn; by rewrite ?rr_set_deadline_same|].
  destruct (time_now t3) as [n2 t4]. destruct (negb (After _ n2)); [cbn; by rewrite ?rr_set_deadline_same|].
  destruct (After _ _); cbn; by rewrite ?rr_set_deadline_same.
Qed.

(** A lost permit set forgets its permits, a lost reader nothing. *)
Lemma Release_permit r (t : world S) :
  Release r t = let '((p, e), t') := PermitSet.Release (as_permit r) t in
                ((if bool_decide (e = None) then set_deadline time_zero r else r, e), t').
Proof.
  unfold Release, PermitSet.Release, mbind, go_bind.
  cbn [as_permit ps_ttl ps_id ps_key ps_tokens ps_expiresAt]. rewrite bool_decide_eq_false_2 by done.
  destruct (redis _ t) as [x t1]. destruct (call_Int64 x) as [ok| |e]; [|done..].
  change (Z.of_nat (length [rr_id r])) with 1. by destruct (negb (ok =? 1)).
Qed.
End permit.

(** ** The reader under interference *)
Section triples.
Context {S : Type} `{!RedisOps S, !RedisLaws S}.
Context (B : Z) (r : RWReader).
Implicit Types (s : S) (c : Z).

Let K := rr_keys r.
Let k := Readers K.
Let T := [rr_id r].

Definition rr_ok : Prop := NoDup (rw_keys (rr_keys r)) ∧ whole_ms (rr_ttl r).

(** The other users of the lock are other contenders with clocks up to [B],
    and keep to its protocol. *)
Definition rr_rely (q : request) : Prop := permit_rely k T B q ∧ rw_protocol K q.

Definition rr_held s c : Prop := ps_held k T B (as_permit r) s c ∧ lock_good K s.

Definition rr_free s : Prop := zset_with k (none_in T) s ∧ lock_good K s.

Lemma good_zset s : lock_good K s → zset_with k (λ _, True) s.
Proof.
  intros (st & [Hrep _] & _). exists (rw_readers st). split; [by apply rep_readers|split; [by eapply rep_noexp|done]].
Qed.

Lemma stable_rr I J :
  stable (permit_rely k T B) I → stable (rw_protocol K) J → stable (S := S) rr_rely (λ s c, I s c ∧ J s c).
Proof. intros HI HJ; apply stable_and; (eapply stable_weaken; [|done]); by intros q [? ?]. Qed.

Lemma stable_rr_held : stable rr_rely rr_held.
Proof. apply stable_rr; [apply stable_ps_held|apply stable_lock_good]. Qed.

Lemma stable_rr_free : stable rr_rely (λ s _, rr_free s).
Proof. apply stable_rr; [apply stable_none|apply stable_lock_good]. Qed.

(** The answer to an attempt with the stamp [sc]. *)
Definition read_attempt (sc : Z) (x : reply) s : Prop :=
  match x with
  | RInt _ => zset_with k (granted_at T B sc) s
  | RNil => zset_with k (none_in T) s
  | RErr _ => zset_with k (none_in T) s ∨ zset_with k (granted_at T B sc) s
  | _ => False
  end.

Lemma stable_read_attempt sc x : stable rr_rely (λ s _, read_attempt sc x s ∧ lock_good K s).
Proof.
  apply (stable_rr (λ s _, read_attempt sc x s)); [|apply stable_lock_good].
  unfold read_attempt; destruct x; first [apply stable_none|apply stable_granted|apply stable_pure
    |apply stable_or; [apply stable_none|apply stable_granted]].
Qed.

Lemma zset_on m st P s : rw_on K m st → m = r_view s → P (rw_readers st) → zset_with k P s.
Proof. intros [Hrep _] -> HP. exists (rw_readers st). split; [by apply rep_readers|split; [by eapply rep_noexp|done]]. Qed.

Lemma serve_read start s :
  rr_ok → lock_good K s →
  let sc := UnixMilli start + Milliseconds (rr_ttl r) in
  zset_with k (none_in T) s ∨ zset_with k (granted_at T B sc) s →
  read_attempt sc (serve (read_request r start) s).1 (serve (read_request r start) s).2 ∧
  lock_good K (serve (read_request r start) s).2.
Proof.
  intros [_ Httl] Hg sc Hst. split; [|exact (lock_good_serve K (RLock _ _ _ _) s Hg)].
  destruct Hg as (st & Ho & Hi & _).
  destruct (read_run K (r_clock s) (r_view s) st (rr_id r) (Milliseconds (rr_ttl r)) (UnixMilli start)
    (waiterTimeout (rr_ttl r)) Ho) as (m' & Hrun & Ho').
  pose proof (serve_view (read_request r start) s) as Hv; pose proof (serve_reply (read_request r start) s) as Hr.
  unfold read_request in *; fold K in Hv, Hr |- *. rewrite Hrun in Hv, Hr; cbn [fst snd] in Hv, Hr.
  destruct (serve _ s) as [x s']; cbn [fst snd] in *. subst x.
  pose proof (read_step_cases (rr_id r) (Milliseconds (rr_ttl r)) (UnixMilli start) (waiterTimeout (rr_ttl r)) st) as Hc.
  cbv zeta in Hc.
  destruct (join_fields ("R:" +:+ rr_id r) (UnixMilli start) (waiterTimeout (rr_ttl r)) st) as (Jr & _).
  destruct (purge_fields (UnixMilli start - waiterTimeout (rr_ttl r))
    (join ("R:" +:+ rr_id r) (UnixMilli start) (waiterTimeout (rr_ttl r)) st).2) as (Pr & _).
  pose proof (whole_ms_pos _ Httl) as Hms.
  assert (none_in T (rw_readers st) ∨ all_at T sc (rw_readers st)) as Hst'.
  { assert (zset_of (r_view s) k = Some (rw_readers st)) as E by (apply rep_readers, Ho).
    destruct Hst as [(z & Hz & _ & H)|(z & Hz & _ & H)]; rewrite E in Hz; injection Hz as <-; [by left|].
    destruct H as [?|[? _]]; auto. }
  destruct (read_step _ _ _ _ _) as [x st']; cbn [fst snd] in *.
  destruct Hc as [[(t & Ht & Hlt) [= -> ->]]|[Hno [[Hx Hst2]|(_ & _ & [= -> ->])]]].
  - eapply zset_on; [exact Ho'|done|]. left. destruct Hst' as [H|H]; [|done].
    by rewrite (H (rr_id r)) in Ht by (by left).
  - assert (none_in T (rw_readers st)) as Hn.
    { destruct Hst' as [H|H]; [done|]. destruct Hno. exists sc. split; [apply H; by left|lia]. }
    assert (rw_readers st' = rw_readers st) as Er by (destruct Hst2 as [-> | ->]; congruence).
    assert (zset_with k (none_in T) s') by (eapply zset_on; [exact Ho'|done|by rewrite Er]).
    destruct Hx as [->|[e ->]]; simpl; auto.
  - eapply zset_on; [exact Ho'|done|]. left. intros t ->%list_elem_of_singleton. simpl. by rewrite lookup_insert_eq.
Qed.
Ltac keep_good := solve_keep ltac:(first
  [ exact (stable_lock_good _)
  | intros s c; exact (lock_good_serve _ (RRenew _ _ _) s)
  | intros s c; exact (lock_good_serve _ (RRelease _) s)
  | intros s c; exact (lock_good_serve _ (RQuery _) s) ]).

Definition keeps_good {A} (p : go S A) : Prop :=
  triple (rw_protocol K) (λ s _, lock_good K s) p (λ _ s _, lock_good K s).

Lemma rr_Release_good : keeps_good (Release r).
Proof. unfold keeps_good, Release; keep_good. Qed.
Lemma rr_Renew_good : keeps_good (Renew r).
Proof. unfold keeps_good, Renew; keep_good. Qed.

Lemma rr_with_good {A} (p : go S A) P Q :
  triple (permit_rely k T B) P p Q → keeps_good p →
  triple rr_rely (λ s c, P s c ∧ lock_good K s) p (λ a s c, Q a s c ∧ lock_good K s).
Proof. apply triple_combine. Qed.

Lemma nonempty : T ≠ [].
Proof. done. Qed.

(** Release gives the reader up when the server answered. *)
Lemma rr_Release_triple :
  triple rr_rely (λ s _, lock_good K s) (Release r) (λ x s c,
    (is_error x.2 ErrBusy = false ∧
     if bool_decide (x.2 = None) || is_error x.2 ErrLost then zset_with k (none_in T) s else x.1 = r) ∧
    lock_good K s).
Proof.
  eapply triple_pre; [apply (rr_with_good _ (λ s _, zset_with k (λ _, True) s) (λ x s c, is_error x.2 ErrBusy = false ∧
    if bool_decide (x.2 = None) || is_error x.2 ErrLost then zset_with k (none_in T) s else x.1 = r));
    [|apply rr_Release_good]|].
  - intros t Ht Hz. rewrite Release_permit.
    destruct (ps_Release_triple k T B (as_permit r) eq_refl eq_refl nonempty t Ht Hz) as [Hw Hp].
    destruct (PermitSet.Release (as_permit r) t) as [[p e] t']. split; [exact Hw|].
    unfold holds in *; cbn [fst snd] in *. destruct Hp as [Hb Hp]; split; [exact Hb|]. cbn [fst snd] in *.
    destruct Hp as [(_ & [n ->] & _)|(_ & He & Hn)]; [by destruct n|]. by destruct He as [-> | ->].
  - intros s c Hg; split; [by apply good_zset|exact Hg].
Qed.

Definition rr_acquired (x : RWReader * option error) s c : Prop :=
  match x.2 with
  | None => x.1 = set_deadline (rr_expiresAt x.1) r ∧ ps_held k T B (as_permit x.1) s c ∧ lock_good K s
  | Some ErrBusy => x.1 = r ∧ rr_free s
  | Some e => errors_Is e ErrBusy = false ∧ lock_good K s
  end.

Lemma rr_discard_triple :
  triple rr_rely (λ s _, lock_good K s) (discardLateGrant (Release r)) rr_acquired.
Proof.
  unfold discardLateGrant. eapply triple_bind; [apply rr_Release_triple|]. intros [r' e].
  eapply triple_pre; [apply triple_ret|]. intros s c [[Hb _] Hg]; unfold rr_acquired; simpl in *.
  destruct e as [e|]; simpl in *; by rewrite ?Hb.
Qed.

Lemma Acquire_triple : rr_ok → triple rr_rely (λ s _, rr_free s) (Acquire r) rr_acquired.
Proof.
  intros Hok; unfold Acquire. eapply triple_bind; [apply triple_time_now, stable_rr_free|].
  intros start; cbn beta zeta. set (sc := UnixMilli start + Milliseconds (rr_ttl r)).
  set (J := λ x s c, start ≤ c ∧ read_attempt sc x s ∧ lock_good K s).
  assert (∀ x, stable rr_rely (J x)) as HJ by (intros x; apply stable_and; [apply stable_since|apply stable_read_attempt]).
  eapply triple_bind.
  { eapply triple_pre; [apply (triple_redis _ (λ s c, start ≤ c ∧ rr_free s) J)|].
    - apply stable_and; [apply stable_since|apply stable_rr_free].
    - exact HJ.
    - intros s c [(? & ? & ?)|(x & ? & Hx & ?)]; (split; [done|]); apply serve_read; try done; [by left|].
      destruct x; simpl in Hx; auto; done.
    - intros s c [? ->]; split; [lia|done]. }
  intros [e|x]; cbn beta iota.
  { eapply triple_pre; [apply triple_ret|]. intros s c [[n ->] [(_ & _ & Hg)|(x & _ & _ & Hg)]]; by destruct n. }
  destruct x; simpl call_Int64; try (by intros w _ (_ & [] & _)).
  - eapply triple_pre; [apply triple_ret|]. by intros s c (_ & ? & ?).
  - eapply triple_bind; [apply triple_time_now, (HJ (RInt z))|]. intros now; cbn beta.
    destruct (negb _).
    + eapply triple_pre; [apply rr_discard_triple|]. by intros s c [(_ & _ & ?) _].
    + eapply triple_pre; [apply triple_ret|]. intros s c [(Hc & Hz & Hg) _]. split; [done|split; [|exact Hg]].
      exact (granted_held k T B (as_permit r) start sc s c (proj2 Hok) eq_refl Hc Hz).
  - eapply triple_pre; [apply triple_ret|]. by intros s c (_ & _ & ?).
Qed.

Lemma rr_Renew_triple :
  rr_ok → triple rr_rely rr_held (Renew r) (λ x s c,
    (ps_held k T B (as_permit x.1) s c ∧ x.1 = set_deadline (rr_expiresAt x.1) r ∧
     rr_expiresAt r ≤ rr_expiresAt x.1) ∧ lock_good K s).
Proof.
  intros [_ Httl]. apply (rr_with_good _ _ (λ x s c, ps_held k T B (as_permit x.1) s c ∧
    x.1 = set_deadline (rr_expiresAt x.1) r ∧ rr_expiresAt r ≤ rr_expiresAt x.1)); [|apply rr_Renew_good].
  intros t Ht Hh. rewrite Renew_permit.
  destruct (ps_Renew_triple k T B (as_permit r) eq_refl eq_refl nonempty Httl t Ht Hh) as [Hw Hp].
  destruct (PermitSet.Renew (as_permit r) t) as [[p e] t']. split; [exact Hw|].
  unfold holds in *; cbn [fst snd] in *. destruct Hp as (Hp & Ep & Hle & _); cbn [fst snd] in *.
  split; [|by split]. assert (as_permit (set_deadline (ps_expiresAt p) r) = p) as ->; [by rewrite Ep|done].
Qed.

Lemma rr_Held_triple : triple rr_rely rr_held (Held r) (λ _, rr_held).
Proof.
  unfold Held. eapply triple_bind; [apply triple_redis_stable; [|apply stable_rr_held]|].
  - split; [by right|apply (protocol_op K (RQuery _))].
  - intros x; cbn beta. destruct (call_Score x); [|apply triple_keep..].
    eapply triple_bind; [apply triple_now_keep, stable_rr_held|]. intros now; cbn beta. apply triple_keep.
Qed.

(** Leaving the queue is within what the lock's other users rely on. *)
Lemma rr_Dequeue_keeps (I : S → Z → Prop) :
  rr_ok → stable rr_rely I → triple rr_rely I (Dequeue r) (λ _, I).
Proof.
  intros Hok HI; unfold Dequeue. pose proof (rw_keys_ne _ (proj1 Hok)); inv_all.
  assert (∀ o, request_keys (to_request K o) = [Waiters K] ∨ request_keys (to_request K o) = [WaiterTS K] →
    rr_rely (to_request K o)) as Hr.
  { intros o Ho; split; [left; unfold k|apply protocol_op]. unfold K in *. destruct Ho as [-> | ->]; set_solver. }
  eapply triple_bind; [apply triple_redis_stable; [apply (Hr (QLeave _)); by left|done]|]. intros a; cbn beta.
  eapply triple_bind; [apply triple_redis_stable; [apply (Hr (QForget _)); by right|done]|]. intros b; cbn beta.
  apply triple_keep.
Qed.
End triples.
