(* ===== verification/Retry.v ===== *)
(** * The acquisition loops

    [Mutex.Lock], [RWMutex.Lock], [RWMutex.RLock], [Semaphore.Acquire] and
    [Leader.Run] retry in the same way: attempt, give up on an error that is
    not [ErrBusy] or when the context is done, otherwise pause for the backoff
    and attempt again with the same lease.  Each instantiates [retry_loop]
    with its attempt, with what it does on an error ([failed]) and with what
    it does when the context ends the wait ([abandon]). *)
From S2P Require Import Prelude Redis Errors Requests GoRuntime Backoff.
Open Scope Z_scope.

(** How the loop ended. *)
Inductive outcome (A : Type) :=
  | Granted (a : A)
  | Refused (e : error)
  | NoFuel.
Arguments Granted {A} a.
Arguments Refused {A} e.
Arguments NoFuel {A}.

Section retry.
Context {S : Type} `{!RedisOps S} {T A : Type}.
Context (attempt : T → go S (T * (A * option error))) (failed : go S unit) (abandon : T → go S unit)
  (prefix : string).
Context (policy : retryPolicy).

(** [fmt.Errorf("...: %w", err)] *)
Definition refused (e : option error) : outcome A :=
  Refused (match e with Some e => ErrWrap prefix e | None => ErrText prefix end).

Fixpoint retry_loop (fuel : nat) (ctx : context) (n : Z) (t : T) : go S (T * outcome A) :=
  match fuel with
  | O => mret (t, NoFuel)
  | Datatypes.S fuel =>
      '(t, (a, err)) ← attempt t;
      match err with
      | None => mret (t, Granted a)
      | Some e =>
          if negb (errors_Is e ErrBusy) then _ ← failed; mret (t, refused (Some e))
          else
            c ← ctx_Err ctx;
            match c with
            | Some e => _ ← abandon t; mret (t, refused (Some e))
            | None =>
                u ← rand_float;
                stop ← select_ctx_timer ctx (delay policy n u);
                if (stop : bool) then
                  c ← ctx_Err ctx;
                  _ ← abandon t;
                  mret (t, refused c)
                else retry_loop fuel ctx (n + 1) t
            end
      end
  end.

Context (R : request → Prop).

(** ** What the loop keeps *)

Lemma retry_triple (Inv : T → S → Z → Prop) (Won : T → A → S → Z → Prop) fuel ctx n t :
  (∀ t, stable R (Inv t)) →
  triple R (λ _ _, True) failed (λ _ _ _, True) →
  (∀ t, triple R (λ _ _, True) (abandon t) (λ _ _ _, True)) →
  (∀ t, triple R (Inv t) (attempt t) (λ x s c,
     match x.2.2 with
     | None => Won x.1 x.2.1 s c
     | Some e => errors_Is e ErrBusy = true → Inv x.1 s c
     end)) →
  triple R (Inv t) (retry_loop fuel ctx n t)
    (λ x s c, match x.2 with Granted a => Won x.1 a s c | _ => True end).
Proof.
  intros HI Hf Hg Ha; revert n t; induction fuel as [|fuel IH]; intros n t; cbn [retry_loop].
  { eapply triple_pre; [apply triple_ret|]; done. }
  assert (∀ (p : go S unit) t e, triple R (λ _ _, True) p (λ _ _ _, True) → triple R (λ _ _, True) (_ ← p; mret (t, refused e))
    (λ x s c, match x.2 with Granted a => Won x.1 a s c | _ => True end)) as Hret.
  { intros p t' e Hp. eapply triple_bind; [exact Hp|]. intros []; cbn beta.
    eapply triple_pre; [apply triple_ret|]; done. }
  pose proof (λ t e, Hret failed t e Hf) as Hend.
  pose proof (λ t e, Hret (abandon t) t e (Hg t)) as Hend'.
  eapply triple_bind; [apply Ha|]. intros [t1 [a [e|]]]; cbn [fst snd];
    [|eapply triple_pre; [apply triple_ret|]; done].
  destruct (errors_Is e ErrBusy); cbn [negb]; [|eapply triple_pre; [apply Hend|done]].
  eapply (triple_pre _ _ (Inv t1)); [|by intros s c H; apply H].
  eapply triple_bind; [apply triple_ctx_Err|]. intros [e'|]; cbn beta iota;
    [eapply triple_pre; [apply Hend'|done]|].
  eapply triple_bind; [apply triple_rand_float|]. intros u; cbn beta.
  eapply (triple_pre _ _ (Inv t1)); [|by intros s c [? _]].
  eapply triple_bind; [apply triple_select, HI|]. intros [|]; cbn beta iota; [|apply IH].
  eapply triple_bind; [apply triple_ctx_Err|]. intros c'; eapply triple_pre; [apply Hend'|done].
Qed.

(** ** Termination *)

(** The pauses that fit before the context is done, and one more. *)
Definition retries_until (deadline now : Z) : nat :=
  Z.to_nat (Z.max 0 ((deadline - now + min_pause policy - 1) / min_pause policy) + 1).

Lemma select_timer ctx d (w : world S) :
  (select_ctx_timer ctx d w).1 = false → w_now w + d ≤ w_now (select_ctx_timer ctx d w).2.
Proof.
  unfold select_ctx_timer. pose proof (next_turn_env w) as [_ En].
  destruct (next_turn w) as [t w1]; simpl in *. set (x := env_apply (t_before t) (w_srv w1, w_now w1)).
  rewrite En; unfold ctx_err. destruct (ctx_done_at ctx) as [T0|]; simpl; [|lia].
  destruct (Z.leb_spec T0 (x.2 + Z.max 0 (Z.min T0 (w_now w + d) - x.2))); simpl.
  - destruct (Z.leb_spec (w_now w + d) (x.2 + Z.max 0 (Z.min T0 (w_now w + d) - x.2))); done.
  - lia.
Qed.

Lemma retries_step deadline now now' :
  policy_ok policy → now < deadline → now + min_pause policy ≤ now' →
  (retries_until deadline now' < retries_until deadline now)%nat.
Proof.
  intros Hp Hd Hn. pose proof (min_pause_pos _ Hp). unfold retries_until.
  set (p := min_pause policy) in *.
  assert (1 ≤ (deadline - now + p - 1) / p) by (apply Z.div_le_lower_bound; lia).
  assert ((deadline - now' + p - 1) / p ≤ (deadline - now + p - 1) / p - 1); [|lia].
  replace (deadline - now + p - 1) with (deadline - now - 1 + 1 * p) by lia.
  rewrite Z.div_add by lia. pose proof (Z.div_le_mono (deadline - now' + p - 1) (deadline - now - 1) p). lia.
Qed.

Lemma retries_later deadline now now' :
  policy_ok policy → now ≤ now' → (retries_until deadline now' ≤ retries_until deadline now)%nat.
Proof.
  intros Hp Hle. unfold retries_until. pose proof (min_pause_pos _ Hp). set (p := min_pause policy) in *.
  pose proof (Z.div_le_mono (deadline - now' + p - 1) (deadline - now + p - 1) p). lia.
Qed.

(** Each attempt takes no negative time. *)
Definition no_backward (attempt : T → go S (T * (A * option error))) : Prop :=
  ∀ t since, triple R (λ _ c, since ≤ c) (attempt t) (λ _ _ c, since ≤ c).

Lemma retry_enough fuel ctx deadline n t w :
  policy_ok policy → no_backward attempt → world_ok R w → 0 ≤ n →
  ctx_done_at ctx = Some deadline →
  (retries_until deadline (w_now w) ≤ fuel)%nat →
  (retry_loop fuel ctx n t w).1.2 ≠ NoFuel.
Proof.
  intros Hp Hb Hw Hn Hctx; revert n t w Hw Hn; induction fuel as [|fuel IH]; intros n t w Hw Hn Hf.
  { unfold retries_until in Hf; lia. }
  cbn [retry_loop]. unfold mbind at 1, go_bind at 1.
  destruct (Hb t (w_now w) w Hw (Z.le_refl _)) as [Hw1 H1].
  destruct (attempt t w) as [[t1 [a [e|]]] w1]; simpl in Hw1, H1; [|done].
  destruct (errors_Is e ErrBusy); cbn [negb]; unfold mbind, go_bind, ctx_Err;
    [|by destruct (failed w1)].
  destruct (ctx_err ctx (w_now w1)) eqn:E1; [by destruct (abandon t1 w1)|].
  assert (w_now w1 < deadline) as Hlt.
  { unfold ctx_err in E1; rewrite Hctx in E1. destruct (Z.leb_spec deadline (w_now w1)); [done|lia]. }
  destruct (triple_rand_float R (λ _ c, w_now w1 ≤ c) w1 Hw1 (Z.le_refl _)) as [Hw2 [H2 Hu]].
  destruct (rand_float w1) as [u w2]; simpl in Hw2, H2, Hu.
  destruct (triple_select R (λ _ _, True) ctx (delay policy n u) (stable_pure R True) w2 Hw2 I) as [Hw3 _].
  pose proof (select_timer ctx (delay policy n u) w2) as H3.
  destruct (select_ctx_timer _ _ w2) as [[|] w3]; simpl in H3, Hw3; [by destruct (abandon t1 w3)|].
  pose proof (delay_min policy n u Hp Hn Hu). unfold holds in *; simpl in *.
  apply IH; [done|lia|]. pose proof (retries_step deadline (w_now w) (w_now w3) Hp ltac:(lia) ltac:(lia)). lia.
Qed.

(** ** Errors *)

(** A refusal never looks like a busy resource: the caller gets the first
    error that is not [ErrBusy], or the context's. *)
Lemma retry_errors fuel ctx n t w e :
  errors_Is (ctx_cause ctx) ErrBusy = false →
  (retry_loop fuel ctx n t w).1.2 = Refused e → errors_Is e ErrBusy = false.
Proof.
  intros Hctx; revert n t w; induction fuel as [|fuel IH]; intros n t w; [done|].
  assert (∀ now e', ctx_err ctx now = Some e' → errors_Is e' ErrBusy = false) as Hc.
  { unfold ctx_err; intros now e'. destruct (ctx_done_at ctx); [|done]. case_match; [by intros [= <-]|done]. }
  cbn [retry_loop]. unfold mbind, go_bind, ctx_Err, refused.
  destruct (attempt t w) as [[t1 [a [e1|]]] w1]; [|done].
  destruct (errors_Is e1 ErrBusy) eqn:E1; cbn [negb].
  - destruct (ctx_err ctx (w_now w1)) as [e2|] eqn:E2.
    + destruct (abandon t1 w1); intros [= <-]; simpl; by eapply Hc.
    + destruct (rand_float w1) as [u w2]. destruct (select_ctx_timer _ _ w2) as [[|] w3]; [|apply IH].
      destruct (abandon t1 w3). destruct (ctx_err ctx (w_now w3)) eqn:E3; intros [= <-]; simpl; [by eapply Hc|done].
  - destruct (failed w1); intros [= <-]; exact E1.
Qed.
End retry.
