(* ===== verification/Handout.v ===== *)
(** * Around an acquisition

    What every primitive does when its lease is granted: report it, wrap the
    lease in a handle and start the background loop the configuration asks
    for ([Mutex.guard], [RWMutex.guard], [Semaphore.permit],
    [Leader.runHeld]); and the guards that [Mutex] and [RWMutex] hand out, of
    which they remember the last one by reference. *)
From S2P Require Import Prelude Redis Errors Requests ScriptsSingle GoRuntime Lease SingleOwner.
From S2P Require Import Backoff Config Renewer Guard GuardSafety Retry.
Open Scope Z_scope.

(** [guard.go]: a [Guard]. *)
Record Guard (L : Type) := { g_handle : handle L; g_fencing : Z }.
Arguments Build_Guard {L} _ _.
Arguments g_handle {L} _.
Arguments g_fencing {L} _.

Definition set_handle {L} (h : handle L) (g : Guard L) : Guard L :=
  {| g_handle := h; g_fencing := g_fencing g |}.

Section ops.
Context {S : Type} `{!RedisOps S}.

(** The part of [guard], [permit] and [runHeld] that starts the background
    loop the configuration asks for. *)
Definition monitor {L} `{!Lease S L} (cfg : config) (h : handle L) : go S (handle L) :=
  if cfg_autoRenew cfg then
    u ← rand_float; startRenewal (renewalInterval (cfg_ttl cfg) u) h
  else if cfg_watchdog cfg then
    u ← rand_float; startWatchdog (renewalInterval (cfg_ttl cfg) u) h
  else mret h.

(** [metrics.Acquire(primitive, name, ok, time.Since(start))] *)
Definition report_acquire (primitive name : string) (ok : bool) (start : Z) : go S unit :=
  now ← time_now;
  emit (MAcquire primitive name ok (now - start)).

Definition finish_error {A} (o : outcome A) : option error :=
  match o with Refused e => Some e | _ => None end.

(** [Guard.Unlock] of the [i]-th guard handed out. *)
Definition guard_unlock {L} `{!Lease S L} (i : nat) (gs : list (Guard L)) :
    go S (list (Guard L) * option error) :=
  match gs !! i with
  | None => mret (gs, None)
  | Some g =>
      '(h, err) ← release (g_handle g);
      mret (<[i := set_handle h g]> gs, err)
  end.

(** The body of [Mutex.Unlock], [RWMutex.Unlock] and [RWMutex.RUnlock]:
    release the guard the [holder] field refers to, and clear the field when
    the outcome is known. *)
Definition unlock_holder {L} `{!Lease S L} (holder : option nat) (gs : list (Guard L)) :
    go S ((list (Guard L) * option nat) * option error) :=
  match holder with
  | None => mret ((gs, None), None)
  | Some i =>
      '(gs, err) ← guard_unlock i gs;
      if bool_decide (err = None) || is_error err ErrLost then
        mret ((gs, if bool_decide (holder = Some i) then None else holder), err)
      else mret ((gs, holder), err)
  end.
End ops.

(** Whether the configuration starts a loop. *)
Definition monitored (cfg : config) : bool := cfg_autoRenew cfg || cfg_watchdog cfg.

Section spec.
Context {S : Type} `{!RedisOps S}.

Lemma report_keep R (I : S → Z → Prop) primitive name ok start :
  stable R I → triple R I (report_acquire primitive name ok start) (λ _, I).
Proof.
  intros HI; unfold report_acquire. eapply triple_bind; [by apply triple_time_now|]. intros now; cbn beta.
  eapply triple_pre; [apply triple_emit|]. by intros s c [? _].
Qed.

Lemma monitor_triple_of {L} `{!Lease S L, !LeaseLaws S L} (l0 : L) cfg (h : handle L) :
  ll_ok l0 → h_pure l0 false h →
  triple (ll_rely l0) (h_state l0 h) (monitor cfg h) (h_inv l0 (monitored cfg)).
Proof.
  intros Hok Hp; unfold monitor, monitored.
  assert (∀ i, triple (ll_rely l0) (λ s c, h_state l0 h s c ∧ 0 ≤ i < 2 ^ 53)
    (start (renewalInterval (cfg_ttl cfg) i) h) (h_inv l0 true)) as Hs.
  { intros i. eapply triple_conseq; [by apply (start_triple l0)|by intros s c [? _]|by intros h' s c [? _]]. }
  destruct (cfg_autoRenew cfg); cbn [orb]; [|destruct (cfg_watchdog cfg)].
  - eapply triple_bind; [apply triple_rand_float|]. intros u; apply Hs.
  - eapply triple_bind; [apply triple_rand_float|]. intros u; apply Hs.
  - eapply triple_pre; [apply triple_ret|]. by split.
Qed.

End spec.

(** Guards over which [Unlock] works: a completed release is finished. *)
Definition guards_ok {L} (gs : list (Guard L)) : Prop :=
  ∀ i g, gs !! i = Some g → h_releaseDone (g_handle g) = true → finished (g_handle g).

(** The held guard is released once: finished and forgotten when the outcome
    is known, kept otherwise. *)
Lemma unlock_holder_once {S} `{!RedisOps S} {L} `{!Lease S L} holder (gs : list (Guard L)) (w : world S) gs' holder' e w' :
  guards_ok gs → unlock_holder holder gs w = ((gs', holder', e), w') →
  (e = None ∨ is_error e ErrLost = true →
     holder' = None ∧ ∀ i g, holder = Some i → gs' !! i = Some g → finished (g_handle g)) ∧
  (e ≠ None → is_error e ErrLost = false →
     holder' = holder ∧ ∀ i g, holder = Some i → gs' !! i = Some g → h_releaseDone (g_handle g) = false).
Proof.
  intros Hg; unfold unlock_holder. destruct holder as [i|].
  2: { intros [= <- <- <- <-]. by split. }
  unfold mbind, go_bind, guard_unlock. destruct (gs !! i) as [g|] eqn:Eg.
  2: { intros [= <- <- <- <-]; simpl. rewrite bool_decide_eq_true_2 by done. split; [|done].
       intros _; split; [done|]. intros i' g' [= <-]; congruence. }
  unfold mbind, go_bind. pose proof (release_finishes (g_handle g) w (Hg i g Eg)) as Hfin.
  pose proof (release_uncertain (g_handle g) w (Hg i g Eg)) as Hunc.
  destruct (release (g_handle g) w) as [[h err] w1]; simpl in Hfin, Hunc |- *.
  assert (i < length gs)%nat as Hi by (by eapply lookup_lt_Some).
  destruct (bool_decide (err = None) || is_error err ErrLost) eqn:Ed; simpl; intros [= <- <- <- <-]; simpl.
  - rewrite bool_decide_eq_true_2 by done. assert (err = None ∨ is_error err ErrLost = true) as He.
    { apply orb_true_iff in Ed as [Ed|Ed]; [left; by apply bool_decide_eq_true in Ed|by right]. }
    split; [|intros Hn Hl; exfalso; destruct He; congruence].
    intros _; split; [done|]. intros i' g' [= <-].
    rewrite list_lookup_insert_eq by done. intros [= <-]; simpl; auto.
  - apply orb_false_iff in Ed as [Ed1 Ed2]. apply bool_decide_eq_false in Ed1.
    split; [intros [?|?]; congruence|]. intros _ _; split; [done|]. intros i' g' [= <-].
    rewrite list_lookup_insert_eq by done. intros [= <-]; simpl; auto.
Qed.

(** The deadline timer is due but has not run. *)
Definition overdue {L} (h : handle L) (now : Z) : Prop := ∃ t, h_timer h = Some t ∧ t ≤ now.

#[export] Instance overdue_dec {L} (h : handle L) now : Decision (overdue h now).
Proof.
  unfold overdue. destruct (h_timer h) as [t|].
  - destruct (decide (t ≤ now)) as [H|H]; [left; by exists t|right]. by intros (t' & [= <-] & ?).
  - right; by intros (t' & ? & _).
Defined.

(** A handle over an exclusive lease that is not lost, with its timer on
    time, is backed by the server. *)
Lemma owned_if_live {S} `{!RedisOps S, !RedisLaws S} (l : SingleOwner) h (s : S) c :
  so_wf l → h_inv (S := S) l true h s c → h_lost h = false → ¬ overdue h c →
  ∃ x, owned (r_view s) (so_key l) (so_id l) (Some x).
Proof.
  intros Hwf Hi Hl Ho. assert (ll_ok (S := S) l) as Hok by exact Hwf.
  destruct (live_lease l true h (proj1 Hi) Hl) as (_ & _ & _ & Hid & [= Hk _]).
  assert (so_owned (h_leas h) s c) as (x & Hx & _).
  { apply (inv_owned l h s c Hi Hl). intros t Et. destruct (Z.le_gt_cases t c); [|lia].
    exfalso; apply Ho; by exists t. }
  exists x. simpl in Hid. by rewrite Hid, Hk in Hx.
Qed.
