(* ===== verification/Guarantee.v ===== *)
(** * What the requests of a handle keep

    The other side of the rely condition: an assertion about the server that
    the lease's own requests keep is kept by everything that is done with a
    handle on that lease, its loops, its timer and its release included.  No
    law of the lease is needed, only that each of its calls keeps the
    assertion; [on] says which leases are meant. *)
From S2P Require Import Prelude Redis Errors Requests GoRuntime Lease Backoff Config Renewer Guard Retry Handout.
Open Scope Z_scope.

Section keep.
Context {S : Type} `{!RedisOps S} {L : Type} `{!Lease S L}.
Context (R : request → Prop) (I : S → Z → Prop) (on : L → Prop) (HI : stable R I).

(** A call on the lease that keeps the assertion, and the lease meant. *)
Definition keeps_on {X} (call : L → go S (L * X)) : Prop :=
  ∀ l, on l → triple R I (call l) (λ x s c, I s c ∧ on x.1).

Context (Hrenew : keeps_on lease_Renew) (Hrelease : keeps_on lease_Release).
Context (Hheld : ∀ l, on l → triple R I (lease_Held l) (λ _, I)).
Implicit Types (h : handle L).

Definition handle_on h : Prop := on (h_leas h).

(** The postcondition of an operation. *)
Definition kept_on {X} (f : X → handle L) (x : X) s c : Prop := I s c ∧ handle_on (f x).

Lemma triple_done {X} (f : X → handle L) (x : X) : handle_on (f x) → triple R I (mret x) (kept_on f).
Proof. intros Hx; eapply triple_pre; [apply triple_ret|]. by intros s c ?. Qed.

Lemma kept_bind {X Y} (f : X → handle L) (p : go S X) (k : X → go S Y) Q :
  triple R I p (kept_on f) → (∀ x, handle_on (f x) → triple R I (k x) Q) → triple R I (p ≫= k) Q.
Proof.
  intros Hp Hk. eapply triple_bind; [exact Hp|]. intros x. eapply triple_pre; [|intros s c H; exact H].
  apply (triple_assume _ (handle_on (f x))); [by intros s c [_ ?]|]. intros Hx.
  eapply triple_pre; [by apply Hk|]. by intros s c [? _].
Qed.

Lemma keep_bind {X Y} (p : go S X) (k : X → go S Y) Q :
  triple R I p (λ _, I) → (∀ x, triple R I (k x) Q) → triple R I (p ≫= k) Q.
Proof. intros Hp Hk. eapply triple_bind; [exact Hp|]. intros x; apply Hk. Qed.

Lemma keep_timer h : handle_on h → triple R I (timer_fires h) (kept_on id).
Proof.
  intros Hh. eapply triple_post; [by apply timer_fires_keep|]. intros h' s c [? Hr]. split; [done|].
  unfold handle_on, id. by destruct (timer_rel_leas h h' Hr) as [-> _].
Qed.

Lemma keep_withLeaseDeadline call h :
  keeps_on call → handle_on h → triple R I (withLeaseDeadline h call) (kept_on fst).
Proof.
  intros Hcall Hh; unfold withLeaseDeadline. destruct (_ || _); [by apply triple_done|].
  apply keep_bind; [by apply triple_now_keep|]. intros now. destruct (negb _); [by apply triple_done|].
  eapply triple_bind; [by apply Hcall|]. intros [l err]; cbn [fst].
  apply (triple_assume _ (on l)); [by intros s c [_ ?]|]. intros Hl. eapply (triple_pre _ _ I); [|by intros s c [? _]].
  eapply triple_bind; [apply call_expires_keep|]. intros h1; cbn beta.
  eapply (triple_pre _ _ I); [|by intros s c [? _]].
  eapply triple_bind; [by apply timer_fires_keep|]. intros h2; cbn beta zeta.
  eapply (triple_pre _ _ I); [|by intros s c [? _]]. destruct (_ || _); [by apply triple_done|].
  apply keep_bind; [by apply triple_now_keep|]. intros now'. destruct (negb _); by apply triple_done.
Qed.

Lemma keep_renew h : handle_on h → triple R I (renew h) (kept_on fst).
Proof.
  intros Hh; unfold renew. destruct (_ || _); [by apply triple_done|].
  apply keep_bind; [apply triple_emit|]. intros _.
  eapply kept_bind; [by apply keep_withLeaseDeadline|]. intros [h' err] Hh'; cbn [fst] in *.
  do 2 (apply keep_bind; [apply triple_emit|]; intros _). apply triple_done. by destruct (is_error err ErrLost).
Qed.

Lemma keep_watch h : handle_on h → triple R I (watch h) (kept_on fst).
Proof.
  apply keep_withLeaseDeadline. intros l Hl; unfold watch_call.
  apply keep_bind; [by apply Hheld|]. intros [held err]. eapply triple_pre; [apply triple_ret|]. by intros s c ?.
Qed.

Lemma keep_onLost h : handle_on h → triple R I (onLost h) (kept_on id).
Proof. intros Hh; unfold onLost. apply keep_bind; [apply triple_emit|]. intros _. by apply triple_done. Qed.

Lemma keep_stop h : handle_on h → triple R I (stop h) (kept_on id).
Proof.
  intros Hh; unfold stop; cbn zeta. destruct (h_stopOnce _); [by apply triple_done|].
  destruct (h_renewer _); [|by apply triple_done]. apply keep_bind; [apply triple_emit|]. intros _.
  apply keep_bind; [by apply Stop_keep|]. intros ?. by apply triple_done.
Qed.

Lemma keep_release h : handle_on h → triple R I (release h) (kept_on fst).
Proof.
  intros Hh; unfold release. destruct (h_releaseDone h); [by apply triple_done|].
  eapply kept_bind; [by apply keep_stop|]. intros h1 H1; cbn beta.
  apply keep_bind; [apply triple_emit|]. intros _. eapply triple_bind; [by apply Hrelease|]. intros [l err]; cbn [fst].
  apply (triple_assume _ (on l)); [by intros s c [_ ?]|]. intros Hl. eapply (triple_pre _ _ I); [|by intros s c [? _]].
  do 2 (apply keep_bind; [apply triple_emit|]; intros _). by apply triple_done.
Qed.

Lemma keep_do_op o h : handle_on h → triple R I (do_op o h) (kept_on fst).
Proof.
  intros Hh; destruct o; cbn [do_op]; auto using keep_renew, keep_watch, keep_release.
  - eapply kept_bind; [by apply keep_timer|]. intros h' ?. by apply triple_done.
  - eapply kept_bind; [by apply keep_onLost|]. intros h' ?. by apply triple_done.
  - eapply kept_bind; [by apply keep_stop|]. intros h' ?. by apply triple_done.
  - apply keep_bind; [by apply triple_now_keep|]. intros _. by apply triple_done.
Qed.

Lemma keep_do_ops ops h : handle_on h → triple R I (do_ops ops h) (kept_on fst).
Proof.
  revert h; induction ops as [|o ops IH]; intros h Hh; cbn [do_ops]; [by apply triple_done|].
  eapply kept_bind; [by apply keep_do_op|]. intros [h1 e] H1; cbn [fst] in *.
  eapply kept_bind; [by apply IH|]. intros [h2 es] H2. by apply triple_done.
Qed.

Lemma keep_monitor cfg h : handle_on h → triple R I (monitor cfg h) (kept_on id).
Proof.
  intros Hh; unfold monitor.
  assert (∀ i, triple R I (start i h) (kept_on id)) as Hs.
  { intros i; unfold start. eapply triple_bind; [by apply checkDeadline_keep|]. intros h'; cbn beta.
    apply (triple_assume _ (handle_on h')).
    { intros s c (_ & Hr & _). unfold handle_on. by destruct (timer_rel_leas _ _ Hr) as [-> _]. }
    intros H'. eapply triple_pre; [by apply triple_done|]. by intros s c [? _]. }
  destruct (cfg_autoRenew cfg); [|destruct (cfg_watchdog cfg)]; [..|by apply triple_done];
    (eapply triple_bind; [apply triple_rand_float|]; intros u; eapply triple_pre; [apply Hs|]; by intros s c [? _]).
Qed.
End keep.

(** The retry loop keeps what an attempt keeps. *)
Lemma keep_retry {S : Type} `{!RedisOps S} {T A} (R : request → Prop) (I : S → Z → Prop) (on : T → Prop)
    (attempt : T → go S (T * (A * option error))) failed abandon prefix policy fuel ctx n t :
  stable R I → keeps_on R I on attempt → triple R I failed (λ _, I) → (∀ t, triple R I (abandon t) (λ _, I)) →
  on t → triple R I (retry_loop attempt failed abandon prefix policy fuel ctx n t) (λ x s c, I s c ∧ on x.1).
Proof.
  intros HI Ha Hf Hb; revert n t; induction fuel as [|fuel IH]; intros n t Ht; cbn [retry_loop].
  { eapply triple_pre; [apply triple_ret|]. by intros s c ?. }
  eapply triple_bind; [by apply Ha|]. intros [t1 [a err]]; cbn [fst].
  apply (triple_assume _ (on t1)); [by intros s c [_ ?]|]. intros H1. eapply (triple_pre _ _ I); [|by intros s c [? _]].
  assert (∀ o : outcome A, triple R I (mret (t1, o)) (λ x s c, I s c ∧ on x.1)) as Hret.
  { intros o; eapply triple_pre; [apply triple_ret|]. by intros s c ?. }
  destruct err as [e|]; [|apply Hret]. destruct (negb _); [apply keep_bind; [exact Hf|]; intros _; apply Hret|].
  apply keep_bind; [apply triple_ctx_Err|]. intros [c1|]; [apply keep_bind; [apply Hb|]; intros _; apply Hret|].
  eapply triple_bind; [apply triple_rand_float|]. intros u. eapply (triple_pre _ _ I); [|by intros s c [? _]].
  apply keep_bind; [by apply triple_select|]. intros [|]; [|by apply IH].
  apply keep_bind; [apply triple_ctx_Err|]. intros c'. apply keep_bind; [apply Hb|]. intros _; apply Hret.
Qed.
