(* ===== verification/Prompt.v ===== *)
(** * Responsive schedules

    Turns in which the server serves and answers a call once, no clock
    advances by more than [δ], and the two clocks agree within 1% both ways.
    The other clients may do whatever the rely condition [R] allows.  Used
    for what happens in bounded time, such as the takeover of a lock: the loop
    that the primitives share gets its lease within one pause of the time at
    which the others are gone ([retry_within]). *)
From S2P Require Import Prelude Redis Errors Requests GoRuntime Backoff Retry.

(** The time a list of steps takes on the client's clock. *)
Fixpoint lag (l : list env_step) : Z :=
  match l with
  | [] => 0
  | Elapse dc _ :: l => dc + lag l
  | Other _ :: l => lag l
  end.

(** The server's clock keeps up with the client's. *)
Definition keeps_up (e : env_step) : Prop :=
  match e with Elapse dc ds => 99 * dc ≤ 100 * ds | Other _ => True end.

Definition good_steps (R : request → Prop) (l : list env_step) : Prop :=
  Forall (step_ok R) l ∧ Forall keeps_up l.

Lemma good_steps_app R l1 l2 : good_steps R (l1 ++ l2) ↔ good_steps R l1 ∧ good_steps R l2.
Proof. unfold good_steps; rewrite !Forall_app; tauto. Qed.

Lemma lag_app l1 l2 : lag (l1 ++ l2) = lag l1 + lag l2.
Proof. induction l1 as [|[] l1 IH]; simpl; lia. Qed.

Lemma lag_nonneg R l : good_steps R l → 0 ≤ lag l.
Proof.
  intros [H _]; induction H as [|[r|dc ds] l He _ IH]; simpl in *; [lia..|].
  destruct He as (? & ? & ?); lia.
Qed.

(** The steps around one served request. *)
Definition prompt (R : request → Prop) (δ : Z) (t : turn) : Prop :=
  t_fail t = None ∧
  match t_execs t with
  | [steps] => let l := t_before t ++ steps ++ t_after t in good_steps R l ∧ lag l ≤ δ
  | _ => False
  end.

Lemma prompt_weaken (R R' : request → Prop) δ t : (∀ r, R r → R' r) → prompt R δ t → prompt R' δ t.
Proof.
  intros HR [Hf He]; split; [done|]. destruct (t_execs t) as [|steps [|]]; [done| |done].
  destruct He as [[H1 H2] Hl]. split; [split; [|done]|done]. eapply Forall_impl; [exact H1|]. intros [r|] ?; simpl in *; auto.
Qed.

(** Such a schedule is one that the safety theorems are about. *)
Lemma prompt_world_ok {S} (R R' : request → Prop) δ (w : world S) :
  (∀ r, R r → R' r) → Forall (prompt R δ) (w_turns w) → world_ok R' w.
Proof.
  intros HR H. apply (world_ok_weaken _ R); [done|]. eapply Forall_impl; [exact H|].
  intros t [_ He]. unfold turn_ok. destruct (t_execs t) as [|steps [|]]; [done| |done].
  destruct He as [[[Hb [Hs Ha]%Forall_app]%Forall_app _] _]. split; [done|]. split; [by repeat constructor|done].
Qed.

Section prompt.
Context {S : Type} `{!RedisOps S, !RedisLaws S}.
Context (R : request → Prop).
Implicit Types (x y z : S * Z) (w : world S).

Definition env w : S * Z := (w_srv w, w_now w).

(** From [x] to [y] at most [d] nanoseconds have passed for the client, and
    as many for the server within 1%. *)
Definition paced (d : Z) x y : Prop :=
  x.2 ≤ y.2 ≤ x.2 + d ∧
  99 * (y.2 - x.2) ≤ 100 * (r_time y.1 - r_time x.1) ∧
  99 * (r_time y.1 - r_time x.1) ≤ 100 * (y.2 - x.2).

Lemma paced_refl x : paced 0 x x.
Proof. unfold paced; lia. Qed.

Lemma paced_trans d1 d2 x y z : paced d1 x y → paced d2 y z → paced (d1 + d2) x z.
Proof. unfold paced; lia. Qed.

Lemma paced_le d d' x y : d ≤ d' → paced d x y → paced d' x y.
Proof. unfold paced; lia. Qed.

Lemma paced_serve d x s c req : paced d x (s, c) → paced d x ((serve req s).2, c).
Proof. unfold paced; simpl. by rewrite serve_time. Qed.

Lemma env_paced l x : good_steps R l → paced (lag l) x (env_apply l x).
Proof.
  revert x; induction l as [|e l IH]; intros x; [intros _; apply paced_refl|].
  intros [[He Hl]%Forall_cons [Hk Hk']%Forall_cons].
  destruct e as [r|dc ds]; cbn [env_apply foldl lag] in *.
  - eapply (paced_trans 0); [|by apply IH]. unfold paced; simpl. rewrite serve_time; lia.
  - destruct He as (? & ? & ?); simpl in Hk.
    eapply paced_trans; [|by apply IH]. unfold paced; simpl. rewrite law_tick_time. lia.
Qed.

(** A prompt turn, taken apart. *)
Lemma prompt_inv δ t :
  prompt R δ t →
  t_fail t = None ∧ ∃ steps, t_execs t = [steps] ∧ good_steps R (t_before t) ∧ good_steps R steps ∧
    good_steps R (t_after t) ∧ lag (t_before t) + lag steps + lag (t_after t) ≤ δ.
Proof.
  intros [Hf He]. split; [done|]. destruct (t_execs t) as [|steps [|]]; [done| |done].
  exists steps; split; [done|]. destruct He as [Hg Hl]. rewrite !good_steps_app, !lag_app in *.
  destruct Hg as (? & ? & ?). split_and!; [done..|lia].
Qed.

Lemma next_turn_cons t ts w :
  w_turns w = t :: ts → next_turn w = (t, World (w_srv w) (w_now w) ts (w_tokens w) (w_log w)).
Proof. unfold next_turn; by intros ->. Qed.

Context (I : S → Z → Prop) (HI : stable R I).

Lemma env_keeps l x : good_steps R l → I x.1 x.2 → I (env_apply l x).1 (env_apply l x).2.
Proof. intros [Hl _]; by apply (env_apply_stable R). Qed.

Lemma time_now_prompt δ t ts w :
  w_turns w = t :: ts → prompt R δ t → holds I w →
  ∃ w', time_now w = (w_now w', w') ∧ w_turns w' = ts ∧ holds I w' ∧ paced δ (env w) (env w').
Proof.
  intros Ht (_ & steps & _ & Hb & Hs & Ha & Hl)%prompt_inv Hw.
  unfold time_now, mbind, go_bind, pass, read_clock. rewrite (next_turn_cons t ts) by done; simpl.
  match goal with |- ∃ w', (_, ?x) = _ ∧ _ => exists x end. split; [done|]. split; [done|]. split; [by apply (env_keeps _ (w_srv w, w_now w))|].
  eapply paced_le; [|by apply env_paced]. pose proof (lag_nonneg _ _ Hs); pose proof (lag_nonneg _ _ Ha). lia.
Qed.

(** A call is served in some state [x] on the way, and answered. *)
Lemma redis_prompt δ t ts req w :
  w_turns w = t :: ts → prompt R δ t → holds I w →
  ∃ x w', redis req w = (inr (serve req x.1).1, w') ∧ w_turns w' = ts ∧ I x.1 x.2 ∧
    paced δ (env w) x ∧ paced δ x (env w') ∧ paced δ (env w) (env w') ∧
    (∀ J : S → Z → Prop, stable R J → J (serve req x.1).2 x.2 → holds J w').
Proof.
  intros Ht (Hf & steps & He & Hb & Hs & Ha & Hl)%prompt_inv Hw.
  unfold redis. rewrite (next_turn_cons t ts) by done; simpl. rewrite Hf, He; simpl.
  set (x0 := env_apply (t_before t) (w_srv w, w_now w)). set (x := env_apply steps x0).
  pose proof (lag_nonneg _ _ Hs); pose proof (lag_nonneg _ _ Ha); pose proof (lag_nonneg _ _ Hb).
  assert (paced (lag (t_before t) + lag steps) (env w) x) as Hp1
    by (eapply paced_trans; by apply env_paced).
  destruct x as [s c] eqn:Ex. assert (I s c) as HIx.
  { change s with (s, c).1; change c with (s, c).2 at 2. rewrite <- Ex. by apply env_keeps, env_keeps. }
  exists (s, c). simpl. destruct (serve req s) as [r s2] eqn:Es; simpl.
  set (y := env_apply (t_after t) (s2, c)).
  assert (paced (lag (t_after t)) (s, c) y) as Hp2.
  { eapply (paced_trans 0 (lag (t_after t)) _ (s2, c)); [|by apply env_paced].
    replace s2 with (serve req s).2 by (by rewrite Es). apply paced_serve, paced_refl. }
  eexists; split; [reflexivity|]. split; [done|split; [exact HIx|]]. unfold env in *; simpl.
  split; [eapply paced_le; [|exact Hp1]; lia|]. replace (y.1, y.2) with y by (by destruct y).
  split; [eapply paced_le; [|exact Hp2]; lia|]. split; [eapply paced_le; [|by eapply paced_trans]; lia|].
  intros J [HJ1 HJ2] HJ. unfold holds; simpl. unfold y.
  apply (env_apply_stable R J (t_after t) (s2, c)); [by split|apply Ha|exact HJ].
Qed.

Lemma rand_prompt t ts w :
  w_turns w = t :: ts → holds I w →
  ∃ w', rand_float w = (t_rand t mod 2 ^ 53, w') ∧ w_turns w' = ts ∧ holds I w' ∧ env w' = env w.
Proof.
  intros Ht Hw. unfold rand_float, mbind, go_bind. rewrite (next_turn_cons t ts) by done.
  eexists; split; [reflexivity|]. by repeat split.
Qed.

(** A pause that ends before the context is done. *)
Lemma select_prompt δ t ts ctx d w :
  w_turns w = t :: ts → prompt R δ t → holds I w → 0 ≤ d →
  (∀ T, ctx_done_at ctx = Some T → w_now w + δ + d < T) →
  ∃ w', select_ctx_timer ctx d w = (false, w') ∧ w_turns w' = ts ∧ holds I w' ∧
    w_now w + d ≤ w_now w' ∧ paced (δ + d) (env w) (env w').
Proof.
  intros Ht (_ & steps & _ & Hb & Hs & Ha & Hl)%prompt_inv Hw Hd Hctx.
  unfold select_ctx_timer. rewrite (next_turn_cons t ts) by done; simpl.
  pose proof (lag_nonneg _ _ Hs); pose proof (lag_nonneg _ _ Ha); pose proof (lag_nonneg _ _ Hb).
  pose proof (env_paced (t_before t) (w_srv w, w_now w) Hb) as Hp.
  pose proof (env_keeps (t_before t) (w_srv w, w_now w) Hb Hw) as HIx.
  set (x := env_apply (t_before t) (w_srv w, w_now w)) in *. unfold paced in Hp; simpl in Hp.
  assert (match ctx_done_at ctx with Some T => Z.min T (w_now w + d) | None => w_now w + d end = w_now w + d) as ->.
  { destruct (ctx_done_at ctx) as [T|] eqn:E; [|done]. specialize (Hctx T eq_refl). lia. }
  set (rest := Z.max 0 (w_now w + d - x.2)).
  assert (ctx_err ctx (x.2 + rest) = None) as ->.
  { unfold ctx_err. destruct (ctx_done_at ctx) as [T|] eqn:E; [|done]. specialize (Hctx T eq_refl).
    rewrite (proj2 (Z.leb_gt _ _)); [done|]. unfold rest; lia. }
  eexists; split; [reflexivity|]. split; [done|]. unfold holds, env, paced; simpl. rewrite law_tick_time.
  split; [apply (proj2 HI); [unfold drift_ok, rest; lia|exact HIx]|]. unfold rest; lia.
Qed.
End prompt.

(** ** The loop of the primitives

    [I g] is what the attempts keep of the server, with some knowledge [g]
    that each attempt may renew; it holds at a time that is [ready], as it is
    one pause after an attempt has left it [fresh].  An attempt, answered
    promptly, is granted ([Won]) or busy, and it is not busy any more from the
    time [Tfree] on. *)
Section loop.
Context {S : Type} `{!RedisOps S, !RedisLaws S} {T A G : Type}.
Context (attempt : T → go S (T * (A * option error))) (failed : go S unit) (abandon : T → go S unit)
  (prefix : string).
Context (policy : retryPolicy) (Hpol : policy_ok policy).
Context (R : request → Prop) (δ Tfree E : Z) (t : T).
Context (I : G → S → Z → Prop) (HI : ∀ g, stable R (I g)).
Context (ready fresh : G → S * Z → Prop).
Context (Hready : ∀ g x y, fresh g x → paced (δ + max_pause policy) x y → ready g y).
Context (Won : T → A → Prop).
Implicit Types (w : world S).

(** The pause after a busy attempt. *)
Lemma retry_pause fuel ctx k g w a e w1 t3 t4 ts :
  attempt t w = ((t, (a, Some e)), w1) → errors_Is e ErrBusy = true → w_turns w1 = t3 :: t4 :: ts →
  prompt R δ t4 → holds (I g) w1 → fresh g (env w1) → 0 ≤ δ → 0 ≤ k →
  w_now w1 + δ + max_pause policy ≤ E → (∀ D, ctx_done_at ctx = Some D → E < D) →
  ∃ w3, retry_loop attempt failed abandon prefix policy (Datatypes.S fuel) ctx k t w =
          retry_loop attempt failed abandon prefix policy fuel ctx (k + 1) t w3 ∧
    w_turns w3 = ts ∧ holds (I g) w3 ∧ ready g (env w3) ∧
    w_now w1 + min_pause policy ≤ w_now w3 ≤ w_now w1 + δ + max_pause policy ∧
    paced (δ + max_pause policy) (env w1) (env w3).
Proof.
  intros Ha He T1 P4 I1 F1 Hδ Hk HE HC. cbn [retry_loop]. unfold mbind at 1, go_bind at 1. rewrite Ha, He; cbn [negb].
  pose proof (max_pause_pos policy Hpol) as Hmp.
  assert (ctx_err ctx (w_now w1) = None) as Hctx1.
  { unfold ctx_err. destruct (ctx_done_at ctx) as [D|] eqn:ED; [|done]. specialize (HC D eq_refl).
    by rewrite (proj2 (Z.leb_gt _ _)) by lia. }
  unfold mbind, go_bind, ctx_Err; cbv beta iota. rewrite Hctx1.
  destruct (rand_prompt (I g) t3 _ w1 T1 I1) as (w2 & -> & T2 & I2 & E2).
  set (u := t_rand t3 mod 2 ^ 53). assert (0 ≤ u < 2 ^ 53) as Hu by (by apply Z.mod_pos_bound).
  pose proof (delay_max policy k u Hpol Hk Hu) as Hdmax. pose proof (delay_min policy k u Hpol Hk Hu) as Hdmin.
  pose proof (min_pause_pos policy Hpol) as Hpp.
  assert (w_now w2 = w_now w1) as En2 by (by injection E2).
  destruct (select_prompt R _ (HI g) δ t4 ts ctx (delay policy k u) w2 T2 P4 I2)
    as (w3 & -> & T3 & I3 & Hge & Q3); [lia|intros D ED; specialize (HC D ED); lia|]. cbn iota.
  rewrite E2 in Q3. apply (paced_le _ (δ + max_pause policy)) in Q3; [|lia].
  exists w3. split_and!; [done..|by eapply Hready|lia| |done]. unfold paced in Q3; simpl in Q3; lia.
Qed.

Definition prompt_attempt : Prop := ∀ g t1 t2 t3 ts w,
  w_turns w = t1 :: t2 :: t3 :: ts → Forall (prompt R δ) [t1; t2; t3] →
  holds (I g) w → ready g (env w) → w_now w + 2 * δ ≤ E →
  (∃ t' a w', attempt t w = ((t', (a, None)), w') ∧ Won t' a) ∨
  (∃ a e w' g', attempt t w = ((t, (a, Some e)), w') ∧ errors_Is e ErrBusy = true ∧ w_turns w' = t3 :: ts ∧
     holds (I g') w' ∧ fresh g' (env w') ∧ w_now w < Tfree ∧ w_now w ≤ w_now w' ≤ w_now w + 2 * δ).

Lemma retry_within fuel ctx k g w :
  prompt_attempt → 0 ≤ δ → 0 ≤ k →
  Forall (prompt R δ) (w_turns w) → (4 * fuel ≤ length (w_turns w))%nat →
  holds (I g) w → ready g (env w) →
  w_now w + 2 * δ ≤ E → Tfree + max_pause policy + 6 * δ ≤ E → (∀ D, ctx_done_at ctx = Some D → E < D) →
  (retries_until policy Tfree (w_now w) ≤ fuel)%nat →
  ∃ t' a w', retry_loop attempt failed abandon prefix policy fuel ctx k t w = ((t', Granted a), w') ∧ Won t' a.
Proof.
  intros Hatt Hδ Hk HR Hlen HIw HPw HE HT HC Hf.
  revert k g w Hk HR Hlen HIw HPw HE Hf; induction fuel as [|fuel IH]; intros k g w Hk HR Hlen HIw HPw HE Hf.
  { unfold retries_until in Hf; lia. }
  destruct (w_turns w) as [|t1 [|t2 [|t3 [|t4 ts]]]] eqn:Ht; try (simpl in Hlen; lia).
  apply Forall_cons in HR as [P1 HR]; apply Forall_cons in HR as [P2 HR]; apply Forall_cons in HR as [P3 HR];
    apply Forall_cons in HR as [P4 HR].
  destruct (Hatt g t1 t2 t3 (t4 :: ts) w) as [(t' & a & w' & Ea & HW)|(a & e & w1 & g' & Ea & He & T1 & I1 & F1 & HwT & Hw1)];
    [done|by repeat (apply Forall_cons_2; [done|])|done|done|done|..].
  { cbn [retry_loop]. unfold mbind at 1, go_bind at 1. rewrite Ea. by eexists _, _, _. }
  destruct (retry_pause fuel ctx k g' w a e w1 t3 t4 ts) as (w3 & -> & T3 & I3 & R3 & Hw3 & _); [done..|lia|done|].
  pose proof (min_pause_pos policy Hpol) as Hpp.
  apply (IH _ g'); rewrite ?T3; [lia|done|simpl in Hlen; lia|done|done|lia|].
  pose proof (retries_step policy Tfree (w_now w) (w_now w3) Hpol HwT ltac:(lia)). lia.
Qed.
End loop.
