(* ===== verification/Mutex.v ===== *)
(** * Mutex

    [mutex.go] and [once.go].  The mutex remembers the guard it handed out
    last, by reference: [mstate] holds the guards of this instance and the
    reference to the holder. *)
From S2P Require Import Prelude Redis RedisMem Errors Requests ScriptsSingle GoRuntime Scenario.
From S2P Require Import Lease SingleOwner Keys Backoff Config Renewer Guard GuardSafety.
From S2P Require Import Retry Handout.
Open Scope Z_scope.

Record Mutex := {
  m_client : Client;
  m_name : string;
  m_cfg : config;
  m_key : string;
  m_fkey : string;
}.

(** [Client.Mutex(name, opts...)] *)
Definition NewMutex (c : Client) (name : string) (opts : list Option) : Mutex :=
  let key := Key name in
  {| m_client := c; m_name := name; m_cfg := resolved c opts; m_key := key;
     m_fkey := Derived key "fencing" |}.

(** The guards handed out by one [Mutex] value, and its [holder]. *)
Record mstate := { ms_guards : list (Guard SingleOwner); ms_holder : option nat }.

Definition mstate_empty : mstate := {| ms_guards := []; ms_holder := None |}.

(** [setHolder(g)] for a new guard. *)
Definition setHolder (g : Guard SingleOwner) (st : mstate) : mstate * nat :=
  ({| ms_guards := ms_guards st ++ [g]; ms_holder := Some (length (ms_guards st)) |},
   length (ms_guards st)).

Section ops.
Context {S : Type} `{!RedisOps S}.
Implicit Types (m : Mutex) (st : mstate).

Definition newLease m : go S SingleOwner :=
  NewSingleOwner (m_key m) (m_fkey m) (cfg_ttl (m_cfg m)) true.

Definition guard m (l : SingleOwner) (fence : Z) : go S (Guard SingleOwner) :=
  h ← monitor (m_cfg m) (newHandle (m_name m) "mutex" l);
  mret {| g_handle := h; g_fencing := fence |}.

Definition lock_with m (fuel : nat) (ctx : context) (l : SingleOwner) (st : mstate) :
    go S (mstate * outcome nat) :=
  start ← time_now;
  '(l, o) ← retry_loop TryAcquire (report_acquire "mutex" (m_name m) false start)
      (λ _, report_acquire "mutex" (m_name m) false start)
    ("distsync: lock " +:+ m_name m) (cfg_retry (m_cfg m)) fuel ctx 0 l;
  match o with
  | Granted fence =>
      g ← guard m l fence;
      let '(st, i) := setHolder g st in
      _ ← report_acquire "mutex" (m_name m) true start;
      mret (st, Granted i)
  | Refused e => mret (st, Refused e)
  | NoFuel => mret (st, NoFuel)
  end.

Definition Lock m (fuel : nat) (ctx : context) (st : mstate) : go S (mstate * outcome nat) :=
  _ ← emit (SpanStart "distsync.mutex.lock");
  l ← newLease m;
  '(st, o) ← lock_with m fuel ctx l st;
  _ ← emit (SpanFinish (finish_error o));
  mret (st, o).

Definition TryLock m (st : mstate) : go S (mstate * (error + nat)) :=
  l ← newLease m;
  '(l, (fence, err)) ← TryAcquire l;
  match err with
  | Some e =>
      if errors_Is e ErrBusy then
        _ ← emit (MAcquire "mutex" (m_name m) false 0);
        mret (st, inl ErrNotAcquired)
      else mret (st, inl e)
  | None =>
      g ← guard m l fence;
      let '(st, i) := setHolder g st in
      _ ← emit (MAcquire "mutex" (m_name m) true 0);
      mret (st, inr i)
  end.

(** [Mutex.Unlock] *)
Definition Unlock st : go S (mstate * option error) :=
  '((gs, holder), err) ← unlock_holder (ms_holder st) (ms_guards st);
  mret ({| ms_guards := gs; ms_holder := holder |}, err).

(** [Once(ctx, mu, fn)], for a callback that ends; the release's error is
    dropped. *)
Definition Once {A} m (fuel : nat) (ctx : context) (fn : go S (A * option error)) (st : mstate) :
    go S (mstate * outcome (A * option error)) :=
  '(st, o) ← Lock m fuel ctx st;
  match o with
  | Refused e => mret (st, Refused e)
  | NoFuel => mret (st, NoFuel)
  | Granted i =>
      r ← fn;
      '(gs, _) ← guard_unlock i (ms_guards st);
      mret ({| ms_guards := gs; ms_holder := ms_holder st |}, Granted r)
  end.
End ops.

(** ** The lock as a whole *)
Section spec.
Context {S : Type} `{!RedisOps S, !RedisLaws S}.
Implicit Types (m : Mutex) (st : mstate).

Definition the_lease m (id : string) : SingleOwner :=
  {| so_id := id; so_key := m_key m; so_fkey := m_fkey m; so_ttl := cfg_ttl (m_cfg m);
     so_fencing := true; so_expiresAt := time_zero |}.

(** A mutex as [NewMutex] builds it, with a duration in whole milliseconds. *)
Definition mutex_ok m : Prop := m_key m ≠ m_fkey m ∧ whole_ms (cfg_ttl (m_cfg m)).

Lemma NewMutex_ok c name opts :
  whole_ms (cfg_ttl (resolved c opts)) → mutex_ok (NewMutex c name opts).
Proof. intros H; split; [|exact H]. simpl. intros E. by apply (Derived_ne (Key name) "fencing"). Qed.

Lemma monitor_single (l : SingleOwner) cfg h :
  so_wf l → h_pure (S := S) l false h →
  triple (so_rely l) (h_state l h) (monitor cfg h) (h_inv l (monitored cfg)).
Proof. exact (monitor_triple_of l cfg h). Qed.

Lemma new_single (l : SingleOwner) resource primitive :
  so_wf l →
  let h := newHandle resource primitive l in
  h_pure (S := S) l false h ∧ ∀ (s : S) c, so_held l s c → h_state l h s c.
Proof. intros Hwf h; split; [exact (new_pure l Hwf _ _)|exact (new_state l Hwf _ _)]. Qed.

Lemma stable_single (l : SingleOwner) b h :
  so_wf l → h_pure (S := S) l b h → stable (so_rely l) (λ (s : S) c, h_state l h s c).
Proof. intros Hwf; exact (stable_h_state l Hwf b h). Qed.

Lemma do_ops_single (l : SingleOwner) b ops h :
  so_wf l → h_pure (S := S) l b h →
  triple (so_rely l) (λ (s : S) c, h_state l h s c) (do_ops ops h)
    (λ x s c, h_post (S := S) l b h x.1 s c).
Proof. intros Hwf; exact (do_ops_triple l Hwf b ops h). Qed.

Lemma live_single (l : SingleOwner) b h :
  so_wf l → h_pure (S := S) l b h → h_lost h = false →
  so_id (h_leas h) = so_id l ∧ so_key (h_leas h) = so_key l.
Proof. intros Hwf Hp Hl. destruct (live_lease l b h Hp Hl) as (_ & _ & _ & ? & [= ? ?]). done. Qed.

(** A guard with what the server knows of its lease. *)
Definition guard_inv m (id : string) (g : Guard SingleOwner) (s : S) (c : Z) : Prop :=
  ∃ t, h_inv (set_expiresAt t (the_lease m id)) (monitored (m_cfg m)) (g_handle g) s c.

Lemma guard_triple m id t fence :
  mutex_ok m →
  let l := set_expiresAt t (the_lease m id) in
  triple (so_rely l) (so_held l) (guard m l fence) (λ g s c, guard_inv m id g s c ∧ g_fencing g = fence).
Proof.
  intros Hok l; unfold guard. assert (so_wf l) as Hwf by exact Hok.
  eapply triple_bind.
  { eapply triple_pre; [apply (monitor_single l); [exact Hwf|]|].
    - by apply new_single.
    - intros s c Hh. by apply new_single. }
  intros h; eapply triple_pre; [apply triple_ret|]. intros s c Hi; split; [by exists t|done].
Qed.

(** What [Lock] and [TryLock] need of the server: the fresh token is not on
    the key, and the fencing counter is one, with at least [n0] mints. *)
Definition lock_free m (id : string) (n0 : Z) (s : S) : Prop :=
  not_owned (m_key m) id s ∧ counter_ge (m_fkey m) n0 s.

Definition lock_rely m (id : string) : request → Prop := rely (m_key m) (m_fkey m) id.

(** A grant of [TryAcquire], before the guard is made. *)
Definition won m (id : string) (n0 : Z) (l : SingleOwner) (fence : Z) (s : S) (c : Z) : Prop :=
  l = set_expiresAt (so_expiresAt l) (the_lease m id) ∧ so_held l s c ∧
  ∃ f, fence = to_uint64 (double_of_Z f) ∧ (f ≤ 2 ^ 53 → n0 < f).

Lemma attempt_triple m id n0 t :
  mutex_ok m →
  let l := set_expiresAt t (the_lease m id) in
  triple (lock_rely m id) (λ s _, lock_free m id n0 s) (TryAcquire l) (λ x s c,
    match x.2.2 with
    | None => won m id n0 x.1 x.2.1 s c
    | Some e => errors_Is e ErrBusy = true → x.1 = l ∧ lock_free m id n0 s
    end).
Proof.
  intros Hok l. assert (so_wf l) as Hwf by exact Hok.
  eapply triple_post; [apply (TryAcquire_triple l Hwf n0)|].
  intros [l' [f [e|]]] s c; simpl.
  - destruct (errors_Is e ErrBusy) eqn:E; [|done]. destruct e; try (by intros ?; congruence).
    by intros [-> Hf] _.
  - intros (Heq & Hh & _ & Hf & _). split; [exact Heq|split; [exact Hh|]].
    destruct (Hf eq_refl) as (f' & ? & ? & _); eauto.
Qed.

(** ** The guards a mutex hands out *)

(** The [i]-th guard is a new one on the lease with token [id]. *)
Definition handed_out m (id : string) (n0 : Z) (st0 st : mstate) (i : nat) (s : S) (c : Z) : Prop :=
  i = length (ms_guards st0) ∧ ms_holder st = Some i ∧
  ∃ g, ms_guards st = ms_guards st0 ++ [g] ∧ guard_inv m id g s c ∧
       ∃ f, g_fencing g = to_uint64 (double_of_Z f) ∧ (f ≤ 2 ^ 53 → n0 < f).

Lemma stable_guard_inv m id g : mutex_ok m → stable (lock_rely m id) (guard_inv m id g).
Proof.
  intros Hok; apply stable_exists; intros t. set (l := set_expiresAt t (the_lease m id)).
  assert (so_wf l) as Hwf by exact Hok.
  split; [intros s c r Hr [Hp Hs]|intros s c dc ds Hd [Hp Hs]]; (split; [exact Hp|]);
    by apply (stable_single l _ _ Hwf Hp).
Qed.

Lemma make_guard_triple {A} m id n0 l fence st (k : go S unit) (ret : mstate → nat → A) :
  mutex_ok m → (∀ I, stable (lock_rely m id) I → triple (lock_rely m id) I k (λ _, I)) →
  triple (lock_rely m id) (won m id n0 l fence)
    (g ← guard m l fence; let '(st, i) := setHolder g st in _ ← k; mret (ret st i))
    (λ x s c, ∃ st' i, x = ret st' i ∧ handed_out m id n0 st st' i s c).
Proof.
  intros Hok Hk. apply (triple_assume _ (l = set_expiresAt (so_expiresAt l) (the_lease m id) ∧
    ∃ f, fence = to_uint64 (double_of_Z f) ∧ (f ≤ 2 ^ 53 → n0 < f))).
  { by intros s c (? & _ & ?). }
  intros [-> Hf]. eapply triple_bind.
  { eapply triple_pre; [apply guard_triple, Hok|]. intros s c (_ & Hh & _). exact Hh. }
  intros g; cbn beta. apply (triple_assume _ (g_fencing g = fence)); [by intros s c [_ ?]|]. intros Hg.
  unfold setHolder. eapply triple_bind.
  { apply Hk, stable_and; [by apply stable_guard_inv|apply stable_pure]. }
  intros []; cbn beta. eapply triple_pre; [apply triple_ret|]. intros s c [Hi _].
  eexists _, _; split; [done|]. split; [done|split; [done|]].
  exists g; split; [done|split; [exact Hi|]]. by rewrite Hg.
Qed.

Lemma stable_lock_free m id n0 : mutex_ok m → stable (lock_rely m id) (λ s _, lock_free m id n0 s).
Proof. intros [HKF _]. exact (stable_so_free (the_lease m id) n0 HKF). Qed.

Lemma lock_with_triple m id n0 fuel ctx st :
  mutex_ok m →
  triple (lock_rely m id) (λ s _, lock_free m id n0 s) (lock_with m fuel ctx (the_lease m id) st)
    (λ x s c, match x.2 with Granted i => handed_out m id n0 st x.1 i s c | _ => x.1 = st end).
Proof.
  intros Hok; unfold lock_with.
  eapply triple_bind; [by apply triple_time_now, stable_lock_free|]. intros start; cbn beta.
  eapply triple_bind.
  { eapply triple_pre; [apply (retry_triple _ _ _ _ _ _
      (λ l s _, l = the_lease m id ∧ lock_free m id n0 s) (λ l fence, won m id n0 l fence))|].
    - intros l; apply stable_and; [apply stable_pure|by apply stable_lock_free].
    - by apply report_keep, stable_pure.
    - intros l'; by apply report_keep, stable_pure.
    - intros l. apply (triple_assume _ (l = the_lease m id)); [by intros s c [? _]|]. intros ->.
      eapply triple_conseq; [apply (attempt_triple m id n0 time_zero Hok)|by intros s c [_ ?]|].
      intros [l' [f [e|]]] s c; simpl; [|done]. intros H He; by apply H.
    - by intros s c [? _]. }
  intros [l [fence|e|]]; cbn [fst snd].
  - eapply triple_post.
    + apply (make_guard_triple m id n0 l fence st _ (λ st i, (st, Granted i)) Hok).
      intros I HI; by apply report_keep.
    + by intros x s c (st' & i & -> & H).
  - eapply triple_pre; [apply triple_ret|]; done.
  - eapply triple_pre; [apply triple_ret|]; done.
Qed.

(** [newLease] draws the next token. *)
Lemma newLease_run m id toks (w : world S) :
  w_tokens w = id :: toks →
  newLease m w = (the_lease m id, World (w_srv w) (w_now w) (w_turns w) toks (w_log w)).
Proof.
  intros Ht. unfold newLease, NewSingleOwner, Token, rand_token, mbind, go_bind. by rewrite Ht.
Qed.

(** The same for [Lock], which draws the token first. *)
Lemma Lock_spec m id toks n0 fuel ctx st w :
  mutex_ok m → w_tokens w = id :: toks → world_ok (lock_rely m id) w → lock_free m id n0 (w_srv w) →
  let '((st', o), w') := Lock m fuel ctx st w in
  world_ok (lock_rely m id) w' ∧
  match o with
  | Granted i => handed_out m id n0 st st' i (w_srv w') (w_now w')
  | _ => st' = st
  end.
Proof.
  intros Hok Ht Hw Hf. unfold Lock, mbind, go_bind, emit.
  rewrite (newLease_run m id toks) by exact Ht. cbn [w_srv w_now w_turns w_tokens w_log].
  set (w1 := World _ _ _ _ _).
  destruct (lock_with_triple m id n0 fuel ctx st Hok w1 Hw Hf) as [Hw' H].
  destruct (lock_with m fuel ctx (the_lease m id) st w1) as [[st' o] w']. by split.
Qed.

Lemma TryLock_spec m id toks n0 st w :
  mutex_ok m → w_tokens w = id :: toks → world_ok (lock_rely m id) w → lock_free m id n0 (w_srv w) →
  let '((st', o), w') := TryLock m st w in
  world_ok (lock_rely m id) w' ∧
  match o with
  | inr i => handed_out m id n0 st st' i (w_srv w') (w_now w')
  | inl e => st' = st ∧ errors_Is e ErrBusy = false
  end.
Proof.
  intros Hok Ht Hw Hf. unfold TryLock, mbind at 1, go_bind at 1.
  rewrite (newLease_run m id toks) by exact Ht. set (w1 := World _ _ _ _ _).
  set (Q := λ (x : mstate * (error + nat)) (s : S) (c : Z), match x.2 with
    | inr i => handed_out m id n0 st x.1 i s c
    | inl e => x.1 = st ∧ errors_Is e ErrBusy = false end).
  match goal with |- context [?p w1] =>
    assert (triple (lock_rely m id) (λ s _, lock_free m id n0 s) p Q) as H end.
  { eapply triple_bind; [apply (attempt_triple m id n0 time_zero Hok)|].
    intros [l [fence [e|]]]; cbn [fst snd].
    - destruct (errors_Is e ErrBusy) eqn:E.
      + eapply triple_bind; [apply triple_emit|]. intros []; cbn beta.
        eapply triple_pre; [apply triple_ret|]. by intros s c _.
      + eapply triple_pre; [apply triple_ret|]. by intros s c _.
    - eapply triple_post; [apply (make_guard_triple m id n0 l fence st _ (λ st i, (st, inr i)) Hok)|].
      + intros I HI; apply triple_emit.
      + by intros x s c (st' & i & -> & H). }
  match goal with |- context [?p w1] => destruct (H w1 Hw Hf) as [Hw' HQ]; destruct (p w1) as [[st' o] w'] end.
  split; [exact Hw'|]. exact HQ.
Qed.

(** ** What a guard is worth *)

(** A history of one client: lock, then anything done with the guard. *)
Definition lock_history m (fuel : nat) (ctx : context) (ops : list hop) st : go S (option (handle SingleOwner)) :=
  '(st, o) ← Lock m fuel ctx st;
  match o with
  | Granted i =>
      match ms_guards st !! i with
      | Some g => '(h, _) ← do_ops ops (g_handle g); mret (Some h)
      | None => mret None
      end
  | _ => mret None
  end.

Lemma lock_history_spec m id toks fuel ctx ops st w h w' :
  mutex_ok m → monitored (m_cfg m) = true → w_tokens w = id :: toks →
  world_ok (lock_rely m id) w → lock_free m id 0 (w_srv w) →
  lock_history m fuel ctx ops st w = (Some h, w') →
  ∃ t, h_inv (set_expiresAt t (the_lease m id)) true h (w_srv w') (w_now w').
Proof.
  intros Hok Hmon Ht Hw Hf. unfold lock_history, mbind at 1, go_bind at 1.
  pose proof (Lock_spec m id toks 0 fuel ctx st w Hok Ht Hw Hf) as H.
  destruct (Lock m fuel ctx st w) as [[st' o] w1]. destruct H as [Hw1 H].
  destruct o as [i| |]; [|done..]. destruct H as (-> & _ & g & Hg & [t Hi] & _).
  rewrite Hg, lookup_app_r, Nat.sub_diag by lia; simpl. unfold mbind, go_bind.
  set (l := set_expiresAt t (the_lease m id)) in *. assert (so_wf l) as Hwf by exact Hok.
  rewrite Hmon in Hi. destruct Hi as [Hp Hs].
  destruct (do_ops_single l true ops (g_handle g) Hwf Hp w1 Hw1 Hs) as [_ [Hi' _]].
  destruct (do_ops ops (g_handle g) w1) as [[h' es] w2]. intros [= <- <-]. by exists t.
Qed.

(** C1: the lock excludes.  Two clients use the same mutex with different
    owner tokens.  Each locks (retrying as long as it takes) and then does
    anything with its guard: heartbeats, manual renewals, checks, the
    deadline timer, releases; other clients interfere, clocks drift by up to
    1%, requests and replies are lost or repeated.  Whenever the two end in the
    same server state, at least one of the two guards is lost (its context is
    canceled) or has a deadline timer that is due and has not run yet. *)
Theorem mutex_excludes m1 m2 id1 id2 toks1 toks2 fuel1 fuel2 ctx1 ctx2 ops1 ops2 st1 st2
    (w1 w2 : world S) h1 h2 w1' w2' :
  mutex_ok m1 → mutex_ok m2 → m_key m1 = m_key m2 → id1 ≠ id2 →
  monitored (m_cfg m1) = true → monitored (m_cfg m2) = true →
  w_tokens w1 = id1 :: toks1 → w_tokens w2 = id2 :: toks2 →
  world_ok (lock_rely m1 id1) w1 → world_ok (lock_rely m2 id2) w2 →
  lock_free m1 id1 0 (w_srv w1) → lock_free m2 id2 0 (w_srv w2) →
  lock_history m1 fuel1 ctx1 ops1 st1 w1 = (Some h1, w1') →
  lock_history m2 fuel2 ctx2 ops2 st2 w2 = (Some h2, w2') →
  w_srv w1' = w_srv w2' →
  h_lost h1 = true ∨ h_lost h2 = true ∨ overdue h1 (w_now w1') ∨ overdue h2 (w_now w2').
Proof.
  intros Hok1 Hok2 Hk Hid Hm1 Hm2 Ht1 Ht2 Hw1 Hw2 Hf1 Hf2 E1 E2 Es.
  destruct (lock_history_spec _ _ _ _ _ _ _ _ _ _ Hok1 Hm1 Ht1 Hw1 Hf1 E1) as [t1 H1].
  destruct (lock_history_spec _ _ _ _ _ _ _ _ _ _ Hok2 Hm2 Ht2 Hw2 Hf2 E2) as [t2 H2].
  destruct (h_lost h1) eqn:El1; [by left|]. destruct (h_lost h2) eqn:El2; [by right; left|].
  destruct (overdue_dec h1 (w_now w1')) as [|Ho1]; [by right; right; left|].
  destruct (overdue_dec h2 (w_now w2')) as [|Ho2]; [by right; right; right|]. exfalso.
  destruct (owned_if_live (set_expiresAt t1 (the_lease m1 id1)) h1 _ _ Hok1 H1 El1 Ho1) as (x1 & X1).
  destruct (owned_if_live (set_expiresAt t2 (the_lease m2 id2)) h2 _ _ Hok2 H2 El2 Ho2) as (x2 & X2).
  simpl in X1, X2. rewrite Es, Hk in X1. unfold owned in X1, X2. congruence.
Qed.
End spec.

Section more.
Context {S : Type} `{!RedisOps S, !RedisLaws S}.
Implicit Types (m : Mutex) (st : mstate) (w : world S).

(** ** Lock returns *)

(** [TryAcquire] takes no negative time, whatever happens on the server. *)
Lemma TryAcquire_forward R (l : SingleOwner) t0 :
  triple R (λ _ c, t0 ≤ c) (TryAcquire (S := S) l) (λ _ _ c, t0 ≤ c).
Proof.
  unfold TryAcquire, discardLateGrant, SingleOwner.Release. solve_keep ltac:(by auto using stable_since).
Qed.

(** C30: [Lock] always returns.  When its context is done at some time,
    [Lock] ends (with a guard or an error) after at most one attempt per pause
    that fits before it and one more, whatever the other clients and the
    network do.  The fuel is that number; the shortest pause of a policy is
    at least a nanosecond. *)
Theorem lock_returns m id toks deadline ctx st w fuel :
  policy_ok (cfg_retry (m_cfg m)) → w_tokens w = id :: toks → world_ok (λ _, True) w →
  ctx_done_at ctx = Some deadline →
  (retries_until (cfg_retry (m_cfg m)) deadline (w_now w) ≤ fuel)%nat →
  (Lock m fuel ctx st w).1.2 ≠ NoFuel.
Proof.
  intros Hp Ht Hw Hc Hf. unfold Lock, lock_with, mbind, go_bind, emit.
  rewrite (newLease_run m id toks) by exact Ht. cbn [w_srv w_now w_turns w_tokens w_log].
  set (w1 := World _ _ _ _ _).
  destruct (triple_time_now (λ _, True) (λ _ c, w_now w ≤ c) (stable_since _ _) w1 Hw (Z.le_refl _)) as [Hw2 [H2 _]].
  destruct (time_now w1) as [start w2]. unfold holds in H2; simpl in Hw2, H2.
  pose proof (retry_enough TryAcquire (report_acquire "mutex" (m_name m) false start)
      (λ _, report_acquire "mutex" (m_name m) false start)
    ("distsync: lock " +:+ m_name m) (cfg_retry (m_cfg m)) (λ _, True) fuel ctx deadline 0 (the_lease m id) w2
    Hp (TryAcquire_forward _) Hw2 (Z.le_refl 0) Hc) as H.
  assert (retries_until (cfg_retry (m_cfg m)) deadline (w_now w2) ≤ fuel)%nat as Hle.
  { etransitivity; [|exact Hf]. by apply retries_later. }
  specialize (H Hle).
  destruct (retry_loop _ _ _ _ _ _ _ _ _ w2) as [[l o] w3]; simpl in H.
  destruct o as [f|e|]; [|done|done].
  destruct (guard m l f w3) as [g w4]. unfold setHolder; simpl.
  by destruct (report_acquire _ _ _ _ w4).
Qed.

(** [Lock] and [TryLock] never report a busy lock as an internal error:
    whatever [Lock] returns does not match [ErrBusy], since it retries or
    reports the context's error; [TryLock] turns it into [ErrNotAcquired]. *)
Theorem lock_errors m fuel ctx st w e :
  errors_Is (ctx_cause ctx) ErrBusy = false →
  (Lock m fuel ctx st w).1.2 = Refused e ∨ (TryLock m st w).1.2 = inl e →
  errors_Is e ErrBusy = false.
Proof.
  intros Hc [H|H].
  - revert H. unfold Lock, lock_with, mbind, go_bind, emit. destruct (newLease m _) as [l w1].
    destruct (time_now w1) as [start w2].
    pose proof (retry_errors TryAcquire (report_acquire "mutex" (m_name m) false start)
      (λ _, report_acquire "mutex" (m_name m) false start)
      ("distsync: lock " +:+ m_name m) (cfg_retry (m_cfg m)) fuel ctx 0 l w2) as Hr.
    destruct (retry_loop _ _ _ _ _ _ _ _ _ w2) as [[l' o] w3]; simpl in Hr.
    destruct o as [f|e'|]; simpl; [|intros [= <-]; by eapply Hr|done].
    destruct (guard m l' f w3) as [g w4]. unfold setHolder; simpl. by destruct (report_acquire _ _ _ _ w4).
  - revert H. unfold TryLock, mbind, go_bind, emit. destruct (newLease m w) as [l w1].
    destruct (TryAcquire l w1) as [[l' [f [e'|]]] w2]; simpl.
    + destruct (errors_Is e' ErrBusy) eqn:E; simpl; intros [= <-]; done.
    + by destruct (guard m l' f w2) as [g w3].
Qed.

(** A guard carries a fencing token larger than any minted before.  If
    [n0] tokens had been minted when [Lock] started, the guard it returns has
    a token above [n0] (below 2^53), is the mutex's holder, and its lease is
    backed by the server. *)
Theorem lock_grants_next_token m id toks n0 fuel ctx st w st' i w' :
  mutex_ok m → w_tokens w = id :: toks → world_ok (lock_rely m id) w → lock_free m id n0 (w_srv w) →
  Lock m fuel ctx st w = ((st', Granted i), w') →
  ms_holder st' = Some i ∧
  ∃ g f, ms_guards st' = ms_guards st ++ [g] ∧ i = length (ms_guards st) ∧
         g_fencing g = to_uint64 (double_of_Z f) ∧ (f ≤ 2 ^ 53 → n0 < f) ∧
         (h_lost (g_handle g) = false → covered (m_key m) id (so_expiresAt (h_leas (g_handle g)))
                                          (w_srv w') (w_now w')).
Proof.
  intros Hok Ht Hw Hf E. pose proof (Lock_spec m id toks n0 fuel ctx st w Hok Ht Hw Hf) as H.
  rewrite E in H. destruct H as [_ (-> & Hh & g & Hg & [t [Hp (Hs & _)]] & f & Hf1 & Hf2)].
  split; [done|]. exists g, f. split_and!; try done. intros Hl.
  assert (so_wf (set_expiresAt t (the_lease m id))) as Hwf by exact Hok.
  destruct (live_single (set_expiresAt t (the_lease m id)) _ _ Hwf Hp Hl) as [Hid Hk].
  destruct (Hs Hl) as [Hc _]. by rewrite Hid, Hk in Hc.
Qed.

(** ** Unlock *)

(** [Mutex.Unlock] releases the last guard once.  When it returns nil or
    [ErrLost] that guard is finished and forgotten: a second [Unlock] returns
    nil and changes nothing.  On any other error the guard stays the holder,
    and a second [Unlock] asks the server again with the same token. *)
Theorem unlock_once st w st' e w' :
  guards_ok (ms_guards st) → Unlock st w = ((st', e), w') →
  (e = None ∨ is_error e ErrLost = true →
     ms_holder st' = None ∧ Unlock st' w' = ((st', None), w') ∧
     ∀ i g, ms_holder st = Some i → ms_guards st' !! i = Some g → finished (g_handle g)) ∧
  (e ≠ None → is_error e ErrLost = false →
     ms_holder st' = ms_holder st ∧
     ∀ i g, ms_holder st = Some i → ms_guards st' !! i = Some g → h_releaseDone (g_handle g) = false).
Proof.
  intros Hg; unfold Unlock, mbind, go_bind.
  pose proof (unlock_holder_once (ms_holder st) (ms_guards st) w) as H.
  destruct (unlock_holder _ _ w) as [[[gs holder] err] w1]. intros [= <- <- <-]; simpl.
  destruct (H gs holder err w1 Hg eq_refl) as [H1 H2]. split; [|exact H2].
  intros He; destruct (H1 He) as [-> ?]. by split_and!.
Qed.
End more.

(** ** Examples *)
Module Ex.

Definition mu : Mutex := NewMutex (New []) "m" [].

Lemma mu_ok : mutex_ok mu.
Proof. by apply NewMutex_ok. Qed.

Definition runs : turn := Turn [] [] [] None true 0.
Definition ask (id : string) : request := acquire_request (the_lease mu id).
Definition client (id : string) (srv : mem) (now : Z) (turns : list turn) : world mem :=
  World srv now turns [id] [].

(** [a] locks and is paused for eleven seconds, in which [b] gets the lock;
    then [a]'s deadline timer runs. *)
Definition a_world : world mem := client "a" (mem_empty 0) 0
  [quiet; quiet; served; quiet; quiet; quiet; quiet;
   first_do [wait (11 * Second); Other (ask "b")] quiet; runs; quiet].
Definition b_world : world mem := client "b" (mem_empty 0) 0
  [first_do [Other (ask "a"); wait (11 * Second)] quiet; quiet; served; quiet; quiet; quiet; quiet].

Lemma mu_a_world_ok : world_ok (lock_rely mu "a") a_world.
Proof. solve_sched; right; by repeat split. Qed.
Lemma mu_b_world_ok : world_ok (lock_rely mu "b") b_world.
Proof. solve_sched; right; by repeat split. Qed.
Lemma mu_start_free id n0 : n0 ≤ 0 → lock_free mu id n0 (mem_empty 0).
Proof. intros; split; [done|]. exists 0; split; [done|]. split; [lia|split; [done|by right]]. Qed.

Lemma mutex_excludes_witness :
  ∃ h1 h2 w1 w2,
    lock_history mu 1 Background [OWait; OTimer] mstate_empty a_world = (Some h1, w1) ∧
    lock_history mu 1 Background [] mstate_empty b_world = (Some h2, w2) ∧
    (h_lost h1 = true ∨ h_lost h2 = true ∨ overdue h1 (w_now w1) ∨ overdue h2 (w_now w2)).
Proof.
  eexists _, _, _, _. split; [vm_compute; reflexivity|split; [vm_compute; reflexivity|]].
  eapply (mutex_excludes mu mu "a" "b" [] [] 1 1 Background Background [OWait; OTimer] []
    mstate_empty mstate_empty a_world b_world _ _ _ _ mu_ok mu_ok eq_refl ltac:(discriminate)
    eq_refl eq_refl eq_refl eq_refl mu_a_world_ok mu_b_world_ok (mu_start_free "a" 0 ltac:(lia)) (mu_start_free "b" 0 ltac:(lia)));
    vm_compute; reflexivity.
Defined.

(** [a] waits for a lock that stays busy, for one second. *)
Definition busy_ctx : context := Ctx (Some Second) ErrDeadlineExceeded.
Definition busy_world : world mem :=
  client "a" (serve (ask "b") (mem_empty 0)).2 0
    (quiet :: mjoin (replicate 30 [quiet; served; quiet; quiet])).

Lemma busy_world_ok : world_ok (λ _, True) busy_world.
Proof. solve_sched. Qed.

Lemma lock_returns_witness :
  (Lock mu (retries_until (cfg_retry (m_cfg mu)) Second 0) busy_ctx mstate_empty busy_world).1.2 ≠ NoFuel.
Proof.
  eapply (lock_returns mu "a" [] Second busy_ctx mstate_empty busy_world _); [|reflexivity|apply busy_world_ok
    |reflexivity|apply le_n].
  repeat split; vm_compute; congruence.
Defined.

(** What it reports then. *)
Definition busy_error : error := ErrWrap "distsync: lock m" ErrDeadlineExceeded.

Lemma lock_errors_witness : errors_Is busy_error ErrBusy = false.
Proof.
  apply (lock_errors mu 30 busy_ctx mstate_empty busy_world busy_error); [reflexivity|].
  left; vm_compute; reflexivity.
Defined.

Lemma lock_grants_next_token_witness :
  ms_holder (Lock mu 1 Background mstate_empty b_world).1.1 = Some 0%nat ∧
  ∃ g, ms_guards (Lock mu 1 Background mstate_empty b_world).1.1 = [g] ∧ g_fencing g = 2.
Proof.
  destruct (Lock mu 1 Background mstate_empty b_world) as [[st o] w'] eqn:E.
  assert (o = Granted 0%nat) as ->.
  { assert ((Lock mu 1 Background mstate_empty b_world).1.2 = Granted 0%nat) as H by (vm_compute; reflexivity).
    rewrite E in H; exact H. }
  destruct (lock_grants_next_token mu "b" [] 0 1 Background mstate_empty b_world st 0%nat w'
    mu_ok eq_refl mu_b_world_ok (mu_start_free "b" 0 ltac:(lia)) E) as (Hh & g & f & Hg & _).
  split; [exact Hh|]. exists g; split; [exact Hg|].
  assert (g_fencing <$> ms_guards (Lock mu 1 Background mstate_empty b_world).1.1 = [2]) as Hf
    by (vm_compute; reflexivity).
  rewrite E in Hf; simpl in Hf; rewrite Hg in Hf; simpl in Hf. congruence.
Defined.

(** [a] locks, releases over a broken connection, and again. *)
Definition a_releases : world mem := client "a" (mem_empty 0) 0
  [quiet; quiet; served; quiet; quiet; quiet; quiet; quiet; net_fails 0 (NetFailure "EOF"); served].
Definition locked : mstate * world mem :=
  let x := Lock mu 1 Background mstate_empty a_releases in (x.1.1, x.2).
Definition once : mstate * option error * world mem := Unlock locked.1 locked.2.
Definition twice : mstate * option error * world mem := Unlock once.1.1 once.2.

Lemma locked_ok : guards_ok (ms_guards locked.1).
Proof.
  assert (Forall (λ g, h_releaseDone (g_handle g) = false) (ms_guards locked.1)) as H.
  { vm_compute. by repeat constructor. }
  intros i g Hi Hd. apply (Forall_lookup_1 _ _ i g H) in Hi. congruence.
Qed.
Lemma once_ok : guards_ok (ms_guards once.1.1).
Proof.
  assert (Forall (λ g, h_releaseDone (g_handle g) = false) (ms_guards once.1.1)) as H.
  { vm_compute. by repeat constructor. }
  intros i g Hi Hd. apply (Forall_lookup_1 _ _ i g H) in Hi. congruence.
Qed.

Lemma unlock_once_witness :
  once.1.2 = Some (ErrRedis "EOF") ∧ ms_holder once.1.1 = ms_holder locked.1 ∧
  twice.1.2 = None ∧ ms_holder twice.1.1 = None ∧ Unlock twice.1.1 twice.2 = ((twice.1.1, None), twice.2).
Proof.
  assert (once.1.2 = Some (ErrRedis "EOF")) as H1 by (vm_compute; reflexivity).
  assert (twice.1.2 = None) as H2 by (vm_compute; reflexivity).
  destruct (unlock_once locked.1 locked.2 once.1.1 once.1.2 once.2 locked_ok) as [_ Ha].
  { unfold once; destruct (Unlock locked.1 locked.2) as [[? ?] ?]; reflexivity. }
  destruct (unlock_once once.1.1 once.2 twice.1.1 twice.1.2 twice.2 once_ok) as [Hb _].
  { unfold twice; destruct (Unlock once.1.1 once.2) as [[? ?] ?]; reflexivity. }
  rewrite H1 in Ha. destruct (Ha ltac:(discriminate) eq_refl) as [Hh _].
  destruct (Hb (or_introl H2)) as (Hn & Hu & _).
  split; [exact H1|split; [exact Hh|split; [exact H2|split; [exact Hn|exact Hu]]]].
Defined.
End Ex.
