(* ===== verification/RWMutex.v ===== *)
(** * The read-write mutex

    [rwmutex.go].  Its guards hold a writer's or a reader's lease behind the
    interface [lease.Lease]: the sum [RWLease], whose operations dispatch on
    the role.  The mutex remembers the last guard of each role. *)
From S2P Require Import Prelude Redis RedisMem Errors Requests ScriptsSingle ScriptsRW RWLock RWMachine.
From S2P Require Import GoRuntime Scenario Lease SingleOwner PermitSet Keys Backoff Config Renewer Guard.
From S2P Require Import GuardSafety RWWriter RWReader Retry Handout.
Open Scope Z_scope.

(** ** The lease in a guard *)

Inductive RWLease := LWriter (w : RWWriter) | LReader (r : RWReader).

Section dispatch.
Context {S : Type} `{!RedisOps S}.

Definition as_writer {A} (p : go S (RWWriter * A)) : go S (RWLease * A) := '(w, a) ← p; mret (LWriter w, a).
Definition as_reader {A} (p : go S (RWReader * A)) : go S (RWLease * A) := '(r, a) ← p; mret (LReader r, a).

#[export] Instance rw_lease : Lease S RWLease := {|
  lease_ID l := match l with LWriter w => ww_id w | LReader r => rr_id r end;
  lease_Acquire l := match l with LWriter w => as_writer (RWWriter.Acquire w) | LReader r => as_reader (RWReader.Acquire r) end;
  lease_Renew l := match l with LWriter w => as_writer (RWWriter.Renew w) | LReader r => as_reader (RWReader.Renew r) end;
  lease_Release l := match l with LWriter w => as_writer (RWWriter.Release w) | LReader r => as_reader (RWReader.Release r) end;
  lease_Held l := match l with LWriter w => RWWriter.Held w | LReader r => RWReader.Held r end;
  lease_ExpiresAt l := match l with LWriter w => ww_expiresAt w | LReader r => rr_expiresAt r end;
|}.
End dispatch.

(** ** The mutex *)

Record RWMutex := {
  rwm_client : Client;
  rwm_name : string;
  rwm_cfg : config;
  rwm_keys : RWKeys;
}.

(** [Client.RWMutex(name, opts...)] *)
Definition NewRWMutex (c : Client) (name : string) (opts : list Option) : RWMutex :=
  let key := Key name in
  {| rwm_client := c; rwm_name := name; rwm_cfg := resolved c opts;
     rwm_keys := {| Writer := Derived key "writer"; Readers := Derived key "readers";
                    ScriptsRW.Fencing := Derived key "fencing"; Waiters := Derived key "waiters";
                    WaiterTS := Derived key "waiter-ts"; Seq := Derived key "seq" |} |}.

(** The guards handed out by one [RWMutex] value, its [writeHolder] and its
    [readHolder]. *)
Record rwmstate := {
  rws_guards : list (Guard RWLease);
  rws_write : option nat;
  rws_read : option nat;
}.

Definition rwmstate_empty : rwmstate := {| rws_guards := []; rws_write := None; rws_read := None |}.

(** For a new guard. *)
Definition setWriteHolder (g : Guard RWLease) (st : rwmstate) : rwmstate * nat :=
  ({| rws_guards := rws_guards st ++ [g]; rws_write := Some (length (rws_guards st));
      rws_read := rws_read st |}, length (rws_guards st)).
Definition setReadHolder (g : Guard RWLease) (st : rwmstate) : rwmstate * nat :=
  ({| rws_guards := rws_guards st ++ [g]; rws_write := rws_write st;
      rws_read := Some (length (rws_guards st)) |}, length (rws_guards st)).

Section ops.
Context {S : Type} `{!RedisOps S}.
Implicit Types (m : RWMutex) (st : rwmstate).

Definition guard m (l : RWLease) (fence : Z) : go S (Guard RWLease) :=
  h ← monitor (rwm_cfg m) (newHandle (rwm_name m) "rwmutex" l);
  mret {| g_handle := h; g_fencing := fence |}.

(** The bodies that [Lock] and [RLock], and [TryLock] and [TryRLock], have in
    common: [attempt] on the lease [l], [dequeue] to give up the place in the
    queue, and the fields to [set] and the name to report under. *)
Section body.
Context {T A : Type} (attempt : T → go S (T * (A * option error))) (dequeue : T → go S unit).
Context (wrap : T → RWLease) (fence : A → Z) (set : Guard RWLease → rwmstate → rwmstate * nat).
Context (kind : string).

Definition lock_with (prefix : string) m (fuel : nat) (ctx : context) (l : T) st :
    go S (rwmstate * outcome nat) :=
  start ← time_now;
  '(l, o) ← retry_loop attempt (report_acquire kind (rwm_name m) false start)
      (λ l, _ ← dequeue l; report_acquire kind (rwm_name m) false start)
    (prefix +:+ rwm_name m) (cfg_retry (rwm_cfg m)) fuel ctx 0 l;
  match o with
  | Granted a =>
      g ← guard m (wrap l) (fence a);
      let '(st, i) := set g st in
      _ ← report_acquire kind (rwm_name m) true start;
      mret (st, Granted i)
  | Refused e => mret (st, Refused e)
  | NoFuel => mret (st, NoFuel)
  end.

Definition try_with m (l : T) st : go S (rwmstate * (error + nat)) :=
  '(l, (a, err)) ← attempt l;
  match err with
  | Some e =>
      if errors_Is e ErrBusy then
        _ ← dequeue l;
        _ ← emit (MAcquire kind (rwm_name m) false 0);
        mret (st, inl ErrNotAcquired)
      else mret (st, inl e)
  | None =>
      g ← guard m (wrap l) (fence a);
      let '(st, i) := set g st in
      _ ← emit (MAcquire kind (rwm_name m) true 0);
      mret (st, inr i)
  end.
End body.

Definition Lock m (fuel : nat) (ctx : context) st : go S (rwmstate * outcome nat) :=
  _ ← emit (SpanStart "distsync.rwmutex.lock");
  l ← NewRWWriter (rwm_keys m) (cfg_ttl (rwm_cfg m));
  '(st, o) ← lock_with RWWriter.TryAcquire RWWriter.Dequeue LWriter id setWriteHolder "rwmutex"
               "distsync: write lock " m fuel ctx l st;
  _ ← emit (SpanFinish (finish_error o));
  mret (st, o).

Definition TryLock m st : go S (rwmstate * (error + nat)) :=
  l ← NewRWWriter (rwm_keys m) (cfg_ttl (rwm_cfg m));
  try_with RWWriter.TryAcquire RWWriter.Dequeue LWriter id setWriteHolder "rwmutex" m l st.

Definition try_read (l : RWReader) : go S (RWReader * (unit * option error)) :=
  '(l, e) ← RWReader.Acquire l;
  mret (l, (tt, e)).

Definition RLock m (fuel : nat) (ctx : context) st : go S (rwmstate * outcome nat) :=
  _ ← emit (SpanStart "distsync.rwmutex.rlock");
  l ← NewRWReader (rwm_keys m) (cfg_ttl (rwm_cfg m));
  '(st, o) ← lock_with try_read RWReader.Dequeue LReader (λ _, 0) setReadHolder "rwmutex-read"
               "distsync: read lock " m fuel ctx l st;
  _ ← emit (SpanFinish (finish_error o));
  mret (st, o).

Definition TryRLock m st : go S (rwmstate * (error + nat)) :=
  l ← NewRWReader (rwm_keys m) (cfg_ttl (rwm_cfg m));
  try_with try_read RWReader.Dequeue LReader (λ _, 0) setReadHolder "rwmutex-read" m l st.

Definition Unlock st : go S (rwmstate * option error) :=
  '((gs, holder), err) ← unlock_holder (rws_write st) (rws_guards st);
  mret ({| rws_guards := gs; rws_write := holder; rws_read := rws_read st |}, err).

Definition RUnlock st : go S (rwmstate * option error) :=
  '((gs, holder), err) ← unlock_holder (rws_read st) (rws_guards st);
  mret ({| rws_guards := gs; rws_write := rws_write st; rws_read := holder |}, err).
End ops.

(** ** The lease in a guard, under interference *)
Section laws.
Context {S : Type} `{!RedisOps S, !RedisLaws S}.
(** A bound on the clocks of the other clients, as in [PermitSet]. *)
Context (B : Z).

Definition lease_ok (l : RWLease) : Prop :=
  match l with LWriter w => ww_ok w | LReader r => rr_ok r end.
Definition lease_rely (l : RWLease) : request → Prop :=
  match l with LWriter w => ww_rely w | LReader r => rr_rely B r end.
Definition lease_held (l : RWLease) (s : S) (c : Z) : Prop :=
  match l with LWriter w => ww_held w s c | LReader r => rr_held B r s c end.
Definition lease_keys (l : RWLease) : RWKeys :=
  match l with LWriter w => ww_keys w | LReader r => rr_keys r end.
Definition lease_gone (l : RWLease) (s : S) : Prop :=
  match l with
  | LWriter w => not_owned (Writer (ww_keys w)) (ww_id w) s
  | LReader r => zset_with (Readers (rr_keys r)) (none_in [rr_id r]) s
  end.
(** On the server, in a lock in a good state; for a reader as long as nobody's
    clock is ahead by more than 1% of the lease. *)
Definition lease_owned (l : RWLease) (s : S) (c : Z) : Prop :=
  lock_good (lease_keys l) s ∧
  match l with
  | LWriter w => ∃ x, owned (r_view s) (Writer (ww_keys w)) (ww_id w) (Some x)
  | LReader r => Millisecond * B ≤ c + rr_ttl r ÷ 100 →
      zset_with (Readers (rr_keys r)) (all_after [rr_id r] B) s
  end.
Definition lease_fixed (l : RWLease) : list string * Z :=
  match l with
  | LWriter w => ("W" :: rw_keys (ww_keys w), ww_ttl w)
  | LReader r => ("R" :: rw_keys (rr_keys r), rr_ttl r)
  end.

Lemma rw_renew l : lease_ok l →
  triple (lease_rely l) (lease_held l) (lease_Renew l) (λ x s c,
    lease_held x.1 s c ∧ lease_ExpiresAt l ≤ lease_ExpiresAt x.1 ∧ lease_ok x.1 ∧
    lease_rely x.1 = lease_rely l ∧ (λ s (_ : Z), lease_gone x.1 s) = (λ s _, lease_gone l s) ∧
    lease_ID x.1 = lease_ID l ∧ lease_fixed x.1 = lease_fixed l).
Proof.
  destruct l as [w|r]; intros Hok.
  - eapply triple_bind; [by apply RWWriter.ww_Renew_triple|]. intros [w' e].
    eapply triple_pre; [apply triple_ret|]. intros s c [(Hh & E & Hle) Hg]; cbn [fst snd] in *.
    rewrite E in Hh, Hle |- *. by split_and!.
  - eapply triple_bind; [by apply RWReader.rr_Renew_triple|]. intros [r' e].
    eapply triple_pre; [apply triple_ret|]. intros s c [(Hh & E & Hle) Hg]; cbn [fst snd] in *.
    rewrite E in Hh, Hle |- *. by split_and!.
Qed.

Lemma rw_release l : lease_ok l →
  triple (lease_rely l) (λ s _, lock_good (lease_keys l) s) (lease_Release l) (λ x s c,
    if bool_decide (x.2 = None) || is_error x.2 ErrLost then lease_gone l s
    else x.1 = l ∧ lock_good (lease_keys l) s).
Proof.
  destruct l as [w|r]; intros Hok.
  - eapply triple_bind; [by apply RWWriter.ww_Release_triple|]. intros [w' e].
    eapply triple_pre; [apply triple_ret|]. intros s c [H Hg]; cbn [fst snd] in *.
    destruct (_ || _); [done|]. by rewrite H.
  - eapply triple_bind; [by apply RWReader.rr_Release_triple|]. intros [r' e].
    eapply triple_pre; [apply triple_ret|]. intros s c [[_ H] Hg]; cbn [fst snd] in *.
    destruct (_ || _); [done|]. by rewrite H.
Qed.

Definition rw_laws : LeaseLaws S RWLease.
Proof.
  refine {|
    ll_rely := lease_rely; ll_fixed := lease_fixed; ll_ok := lease_ok; ll_held := lease_held;
    ll_any := λ l s _, lock_good (lease_keys l) s; ll_gone := λ l s _, lease_gone l s;
    ll_owned := lease_owned; ll_renew := rw_renew; ll_release := rw_release;
  |}.
  - intros [w|r] Hok; [by apply stable_ww_held|apply stable_rr_held].
  - intros [w|r] Hok; (eapply stable_weaken; [|apply stable_lock_good]); by intros q [_ ?].
  - intros [w|r] Hok; (eapply stable_weaken; [by intros q [? _]|]).
    + exact (stable_so_not_owned (as_single w) (proj1 (ww_wf w Hok))).
    + apply stable_none.
  - by intros [w|r] s c Hok [_ Hg].
  - intros [w|r] s c Hok [Hh Hg] Hc; (split; [exact Hg|]).
    + destruct Hh as [Hcov _]. destruct (Hcov Hc) as (x & Hx & _). by exists x.
    + destruct Hh as (_ & _ & Hb). intros HB; apply Hb. simpl in Hc |- *; lia.
  - intros [w|r] Hok; [by apply RWWriter.ww_Held_triple|apply RWReader.rr_Held_triple].
Defined.

(** A writer and another holder cannot both be on the server. *)
Lemma owned_exclusive l1 l2 s c1 c2 :
  lease_keys l1 = lease_keys l2 → lease_ID (S := S) l1 ≠ lease_ID (S := S) l2 →
  (∃ w, l1 = LWriter w) ∨ (∃ w, l2 = LWriter w) →
  (∀ r, l1 = LReader r → Millisecond * B ≤ c1 + rr_ttl r ÷ 100) →
  (∀ r, l2 = LReader r → Millisecond * B ≤ c2 + rr_ttl r ÷ 100) →
  lease_owned l1 s c1 → lease_owned l2 s c2 → False.
Proof.
  intros Hk Hid Hw H1 H2 [Hg O1] [_ O2].
  assert (∀ w r x, Writer (ww_keys w) = Writer (lease_keys l1) → Readers (rr_keys r) = Readers (lease_keys l1) →
    owned (r_view s) (Writer (ww_keys w)) (ww_id w) (Some x) →
    zset_with (Readers (rr_keys r)) (all_after [rr_id r] B) s → False) as Hx.
  { intros w r x Ew Er Hx (z & Hz & _ & Hall). rewrite Ew in Hx; rewrite Er in Hz.
    destruct Hg as (st & Ho & Hi & _). apply (on_owned _ _ _ _ _ Ho) in Hx.
    rewrite (rep_readers _ _ _ (proj1 Ho)) in Hz; injection Hz as <-.
    destruct (Hall (rr_id r)) as (sc & Hsc & _); [by left|].
    rewrite (inv_excl _ Hi) in Hsc by eauto. by rewrite lookup_empty in Hsc. }
  destruct l1 as [w1|r1], l2 as [w2|r2]; simpl in *.
  - destruct O1 as [x1 X1], O2 as [x2 X2]. rewrite Hk in X1. unfold owned in *. congruence.
  - destruct O1 as [x1 X1]. eapply (Hx w1 r2); [done|by rewrite Hk|exact X1|auto].
  - destruct O2 as [x2 X2]. eapply (Hx w2 r1); [by rewrite Hk|done|exact X2|auto].
  - destruct Hw as [[? ?]|[? ?]]; done.
Qed.
End laws.

(** ** The guards of a read-write mutex *)

Inductive side := Write | Read.

Section spec.
Context {S : Type} `{!RedisOps S, !RedisLaws S}.
Context (B : Z).
#[local] Instance laws : LeaseLaws S RWLease := rw_laws B.
Implicit Types (m : RWMutex) (st : rwmstate).

(** As [NewRWMutex] builds it, with a duration in whole milliseconds. *)
Definition rwmutex_ok m : Prop := NoDup (rw_keys (rwm_keys m)) ∧ whole_ms (cfg_ttl (rwm_cfg m)).

Definition the_writer m (id : string) : RWWriter :=
  {| ww_id := id; ww_keys := rwm_keys m; ww_ttl := cfg_ttl (rwm_cfg m); ww_expiresAt := time_zero |}.
Definition the_reader m (id : string) : RWReader :=
  {| rr_id := id; rr_keys := rwm_keys m; rr_ttl := cfg_ttl (rwm_cfg m); rr_expiresAt := time_zero |}.

(** The lease behind a guard of the mutex, up to its deadline. *)
Definition side_lease m (sd : side) (id : string) (t : Z) : RWLease :=
  match sd with
  | Write => LWriter (RWWriter.set_deadline t (the_writer m id))
  | Read => LReader (RWReader.set_deadline t (the_reader m id))
  end.

Definition side_rely m (sd : side) (id : string) : request → Prop := lease_rely B (side_lease m sd id 0).

Lemma side_rely_eq m sd id t : lease_rely B (side_lease m sd id t) = side_rely m sd id.
Proof. by destruct sd. Qed.

Lemma side_ok m sd id t : rwmutex_ok m → lease_ok (side_lease m sd id t).
Proof. by destruct sd. Qed.

Lemma rw_guard_triple m sd id t fence :
  rwmutex_ok m →
  triple (side_rely m sd id) (lease_held B (side_lease m sd id t)) (guard m (side_lease m sd id t) fence)
    (λ g s c, h_inv (S := S) (side_lease m sd id t) (monitored (rwm_cfg m)) (g_handle g) s c ∧ g_fencing g = fence).
Proof.
  intros Hok. pose proof (side_ok m sd id t Hok) as Hl. unfold guard. rewrite <- (side_rely_eq m sd id t).
  set (l := side_lease m sd id t) in *. assert (ll_ok (S := S) l) as Hok' by exact Hl.
  eapply triple_bind.
  { eapply triple_pre; [apply (monitor_triple_of (S := S) l (rwm_cfg m) (newHandle (rwm_name m) "rwmutex" l) Hok')|].
    - by apply new_pure.
    - intros s c Hh. by apply new_state. }
  intros h; eapply triple_pre; [apply triple_ret|]. by intros s c Hi.
Qed.

Definition setHolder (sd : side) : Guard RWLease → rwmstate → rwmstate * nat :=
  match sd with Write => setWriteHolder | Read => setReadHolder end.

(** The [i]-th guard is a new one on the lease of the side, with the token
    [id] and a fencing token that satisfies [P]; it is the holder of its side. *)
Definition handed_out m (sd : side) (id : string) (P : Z → Prop) st0 st (i : nat) (s : S) (c : Z) : Prop :=
  i = length (rws_guards st0) ∧
  ∃ g t, st = (setHolder sd g st0).1 ∧ P (g_fencing g) ∧
    h_inv (side_lease m sd id t) (monitored (rwm_cfg m)) (g_handle g) s c.

Lemma held_guards sd g st : rws_guards (setHolder sd g st).1 = rws_guards st ++ [g].
Proof. by destruct sd. Qed.

Section body.
Context {T A : Type} (attempt : T → go S (T * (A * option error))) (dequeue : T → go S unit).
Context (wrap : T → RWLease) (fence : A → Z) (kind : string).
Context (m : RWMutex) (sd : side) (id : string) (P : Z → Prop) (l0 : T) (Free : S → Prop).
Hypothesis Hok : rwmutex_ok m.
Hypothesis Hstable : stable (side_rely m sd id) (λ s _, Free s).
Hypothesis Hdequeue : ∀ l, triple (side_rely m sd id) (λ _ _, True) (dequeue l) (λ _ _ _, True).

(** The attempt was granted. *)
Definition won (l : T) (a : A) (s : S) (c : Z) : Prop :=
  P (fence a) ∧ ∃ t, wrap l = side_lease m sd id t ∧ lease_held B (side_lease m sd id t) s c.

Hypothesis Hattempt : triple (side_rely m sd id) (λ s _, Free s) (attempt l0) (λ x s c,
  match x.2.2 with
  | None => won x.1 x.2.1 s c
  | Some e => errors_Is e ErrBusy = true → x.1 = l0 ∧ Free s
  end).

Lemma hand_out_triple {C} l a st (k : go S unit) (ret : rwmstate → nat → C) :
  (∀ I, stable (side_rely m sd id) I → triple (side_rely m sd id) I k (λ _, I)) →
  triple (side_rely m sd id) (won l a)
    (g ← guard m (wrap l) (fence a); let '(st, i) := setHolder sd g st in _ ← k; mret (ret st i))
    (λ x s c, ∃ st' i, x = ret st' i ∧ handed_out m sd id P st st' i s c).
Proof.
  intros Hk. apply (triple_assume _ (P (fence a) ∧ ∃ t, wrap l = side_lease m sd id t)).
  { intros s c (? & t & ? & _); eauto. }
  intros [HP [t0 Et0]].
  intros w Hw (_ & t & Et & Hh). rewrite Et. revert w Hw Hh.
  change (triple (side_rely m sd id) (lease_held B (side_lease m sd id t))
    (g ← guard m (side_lease m sd id t) (fence a); let '(st, i) := setHolder sd g st in _ ← k; mret (ret st i))
    (λ x s c, ∃ st' i, x = ret st' i ∧ handed_out m sd id P st st' i s c)).
  eapply triple_bind; [by apply rw_guard_triple|]. intros g; cbn beta.
  set (I := λ s c, h_inv (S := S) (side_lease m sd id t) (monitored (rwm_cfg m)) (g_handle g) s c ∧ g_fencing g = fence a).
  assert (stable (side_rely m sd id) I) as HI.
  { apply stable_and; [|apply stable_pure]. rewrite <- (side_rely_eq m sd id t).
    assert (ll_ok (S := S) (side_lease m sd id t)) as Hl by (by apply side_ok).
    split; [intros s c r Hr [Hp Hs]|intros s c dc ds Hd [Hp Hs]]; (split; [exact Hp|]);
      by apply (stable_h_state _ Hl _ _ Hp). }
  destruct sd; cbn [setHolder setWriteHolder setReadHolder];
    (eapply triple_bind; [by apply Hk|]); intros []; cbn beta;
    (eapply triple_pre; [apply triple_ret|]); intros s c [Hi Hf];
    eexists _, _; (split; [done|]); (split; [done|]); exists g, t; by rewrite Hf.
Qed.

Lemma rw_lock_with_triple prefix fuel ctx st :
  triple (side_rely m sd id) (λ s _, Free s)
    (lock_with attempt dequeue wrap fence (setHolder sd) kind prefix m fuel ctx l0 st)
    (λ x s c, match x.2 with Granted i => handed_out m sd id P st x.1 i s c | _ => x.1 = st end).
Proof.
  unfold lock_with. eapply triple_bind; [by apply triple_now_keep|]. intros start; cbn beta.
  eapply triple_bind.
  { eapply triple_pre; [apply (retry_triple _ _ _ _ _ _ (λ l s _, l = l0 ∧ Free s) won)|].
    - intros l; apply stable_and; [apply stable_pure|exact Hstable].
    - by apply report_keep, stable_pure.
    - intros l. eapply triple_bind; [apply Hdequeue|]. intros []; by apply report_keep, stable_pure.
    - intros l. apply (triple_assume _ (l = l0)); [by intros s c [? _]|]. intros ->.
      eapply triple_conseq; [exact Hattempt|by intros s c [_ ?]|]. by intros [l' [a [e|]]] s c.
    - by intros s c ?. }
  intros [l [a|e|]]; cbn [fst snd]; [|by (eapply triple_pre; [apply triple_ret|])..].
  eapply triple_post; [apply (hand_out_triple l a st _ (λ st i, (st, Granted i)))|].
  - intros I HI; by apply report_keep.
  - by intros x s c (st' & i & -> & H).
Qed.

Lemma try_with_triple st :
  triple (side_rely m sd id) (λ s _, Free s) (try_with attempt dequeue wrap fence (setHolder sd) kind m l0 st)
    (λ x s c, match x.2 with inr i => handed_out m sd id P st x.1 i s c | inl e => x.1 = st ∧ errors_Is e ErrBusy = false end).
Proof.
  unfold try_with. eapply triple_bind; [exact Hattempt|]. intros [l [a [e|]]]; cbn [fst snd].
  - destruct (errors_Is e ErrBusy) eqn:E.
    + eapply triple_bind; [eapply triple_pre; [apply Hdequeue|done]|]. intros []; cbn beta.
      eapply triple_bind; [apply triple_emit|]. intros []; cbn beta.
      by (eapply triple_pre; [apply triple_ret|]).
    + eapply triple_pre; [apply triple_ret|]. by intros s c _.
  - eapply triple_post; [apply (hand_out_triple l a st _ (λ st i, (st, inr i)))|].
    + intros I HI; apply triple_emit.
    + by intros x s c (st' & i & -> & H).
Qed.
End body.

(** *** The two sides *)

(** What [Lock], or [RLock], needs of the server: the fresh token is not on
    it, its keys hold a lock in a good state, and at least [n0] fencing tokens
    have been minted. *)
Definition side_free m (sd : side) (id : string) (n0 : Z) (s : S) : Prop :=
  match sd with
  | Write => ww_free (the_writer m id) n0 s
  | Read => rr_free (the_reader m id) s
  end.

Lemma stable_side_free m sd id n0 :
  rwmutex_ok m → stable (side_rely m sd id) (λ s _, side_free m sd id n0 s).
Proof.
  intros Hok; destruct sd; [exact (stable_ww_free (the_writer m id) Hok n0)|exact (stable_rr_free B (the_reader m id))].
Qed.

(** The fencing token of a guard. *)
Definition side_fence (sd : side) (n0 fence : Z) : Prop :=
  match sd with
  | Write => ∃ f, fence = to_uint64 (double_of_Z f) ∧ (f ≤ 2 ^ 53 → n0 < f)
  | Read => fence = 0
  end.

Lemma write_attempt m id n0 :
  rwmutex_ok m →
  triple (side_rely m Write id) (λ s _, side_free m Write id n0 s) (RWWriter.TryAcquire (the_writer m id))
    (λ x s c, match x.2.2 with
      | None => won LWriter Datatypes.id m Write id (side_fence Write n0) x.1 x.2.1 s c
      | Some e => errors_Is e ErrBusy = true → x.1 = the_writer m id ∧ side_free m Write id n0 s
      end).
Proof.
  intros Hok. eapply triple_post; [exact (RWWriter.ww_TryAcquire_triple (the_writer m id) Hok n0)|].
  intros [w [z [e|]]] s c [Hg H]; cbn [fst snd] in *.
  - destruct (errors_Is e ErrBusy) eqn:E; [|done]. destruct e; try congruence.
    destruct H as [-> ?]; intros _; by split.
  - destruct H as (Ew & Hh & Hf). split; [exact Hf|]. exists (ww_expiresAt w). 
    assert (LWriter w = side_lease m Write id (ww_expiresAt w)) as E by (simpl; by rewrite Ew at 1).
    split; [exact E|]. split; [|exact Hg]. by rewrite Ew in Hh.
Qed.

Lemma read_attempt_triple m id n0 :
  rwmutex_ok m →
  triple (side_rely m Read id) (λ s _, side_free m Read id n0 s) (try_read (the_reader m id))
    (λ x s c, match x.2.2 with
      | None => won LReader (λ _, 0) m Read id (side_fence Read n0) x.1 x.2.1 s c
      | Some e => errors_Is e ErrBusy = true → x.1 = the_reader m id ∧ side_free m Read id n0 s
      end).
Proof.
  intros Hok. unfold try_read. eapply triple_bind; [exact (RWReader.Acquire_triple B (the_reader m id) Hok)|].
  intros [r e]. eapply triple_pre; [apply triple_ret|]. intros s c H; unfold rr_acquired in H; cbn [fst snd] in *.
  destruct e as [e|].
  - destruct (errors_Is e ErrBusy) eqn:E; [|done]. destruct e; by try (destruct H; congruence).
  - destruct H as (Er & Hh & Hg). split; [done|]. exists (rr_expiresAt r).
    assert (LReader r = side_lease m Read id (rr_expiresAt r)) as E by (simpl; by rewrite Er at 1).
    split; [exact E|]. split; [|exact Hg]. by rewrite Er in Hh.
Qed.

(** Giving up the place in the queue asks nothing the others do not expect. *)
Lemma write_dequeue m id l :
  triple (side_rely m Write id) (λ _ _, True) (RWWriter.Dequeue (S := S) l) (λ _ _ _, True).
Proof. unfold RWWriter.Dequeue. solve_keep ltac:(by auto using stable_pure). Qed.
Lemma read_dequeue m id l :
  triple (side_rely m Read id) (λ _ _, True) (RWReader.Dequeue (S := S) l) (λ _ _ _, True).
Proof. unfold RWReader.Dequeue. solve_keep ltac:(by auto using stable_pure). Qed.

(** [Lock] or [RLock]. *)
Definition side_lock m (sd : side) : nat → context → rwmstate → go S (rwmstate * outcome nat) :=
  match sd with Write => Lock m | Read => RLock m end.
Definition side_try m (sd : side) : rwmstate → go S (rwmstate * (error + nat)) :=
  match sd with Write => TryLock m | Read => TryRLock m end.

Lemma side_lock_spec m sd id toks n0 fuel ctx st w :
  rwmutex_ok m → w_tokens w = id :: toks → world_ok (side_rely m sd id) w → side_free m sd id n0 (w_srv w) →
  let '((st', o), w') := side_lock m sd fuel ctx st w in
  world_ok (side_rely m sd id) w' ∧
  match o with
  | Granted i => handed_out m sd id (side_fence sd n0) st st' i (w_srv w') (w_now w')
  | _ => st' = st
  end.
Proof.
  intros Hok Ht Hw Hf. destruct sd; unfold side_lock, Lock, RLock, NewRWWriter, NewRWReader, Token, rand_token, emit, mbind, go_bind;
    cbn [w_srv w_now w_turns w_tokens w_log]; rewrite Ht; unfold mret, go_ret; set (w1 := World _ _ _ _ _).
  - destruct (rw_lock_with_triple _ RWWriter.Dequeue LWriter Datatypes.id "rwmutex" m Write id (side_fence Write n0)
      (the_writer m id) (side_free m Write id n0) Hok (stable_side_free m Write id n0 Hok) (write_dequeue m id)
      (write_attempt m id n0 Hok) "distsync: write lock " fuel ctx st w1 Hw Hf) as [Hw' H].
    cbn [setHolder] in Hw', H. unfold the_writer in *.
    destruct (lock_with _ _ _ _ _ _ _ _ _ _ _ _ w1) as [[st' o] w']. by split.
  - destruct (rw_lock_with_triple _ RWReader.Dequeue LReader (λ _, 0) "rwmutex-read" m Read id (side_fence Read n0)
      (the_reader m id) (side_free m Read id n0) Hok (stable_side_free m Read id n0 Hok) (read_dequeue m id)
      (read_attempt_triple m id n0 Hok) "distsync: read lock " fuel ctx st w1 Hw Hf) as [Hw' H].
    cbn [setHolder] in Hw', H. unfold the_reader in *.
    destruct (lock_with _ _ _ _ _ _ _ _ _ _ _ _ w1) as [[st' o] w']. by split.
Qed.

(** ** What a guard is worth *)

(** A history of one client: lock a side, then anything done with the guard. *)
Definition rw_history m (sd : side) (fuel : nat) (ctx : context) (ops : list hop) st : go S (option (handle RWLease)) :=
  '(st, o) ← side_lock m sd fuel ctx st;
  match o with
  | Granted i =>
      match rws_guards st !! i with
      | Some g => '(h, _) ← do_ops ops (g_handle g); mret (Some h)
      | None => mret None
      end
  | _ => mret None
  end.

Lemma rw_history_spec m sd id toks fuel ctx ops st w h w' :
  rwmutex_ok m → monitored (rwm_cfg m) = true → w_tokens w = id :: toks →
  world_ok (side_rely m sd id) w → side_free m sd id 0 (w_srv w) →
  rw_history m sd fuel ctx ops st w = (Some h, w') →
  ∃ t, h_inv (side_lease m sd id t) true h (w_srv w') (w_now w').
Proof.
  intros Hok Hmon Ht Hw Hf. unfold rw_history, mbind at 1, go_bind at 1.
  pose proof (side_lock_spec m sd id toks 0 fuel ctx st w Hok Ht Hw Hf) as H.
  destruct (side_lock m sd fuel ctx st w) as [[st' o] w1]. destruct H as [Hw1 H].
  destruct o as [i| |]; [|done..]. destruct H as (-> & g & t & -> & _ & Hi).
  rewrite held_guards, lookup_app_r, Nat.sub_diag by lia; simpl. unfold mbind, go_bind.
  set (l := side_lease m sd id t) in *. assert (ll_ok (S := S) l) as Hl by (by apply side_ok).
  rewrite Hmon in Hi. destruct Hi as [Hp Hs]. rewrite <- (side_rely_eq m sd id t) in Hw1.
  destruct (do_ops_triple l Hl true ops (g_handle g) Hp w1 Hw1 Hs) as [_ [Hi' _]].
  destruct (do_ops ops (g_handle g) w1) as [[h' es] w2]. intros [= <- <-]. by exists t.
Qed.

(** A handle that is not lost, with its timer on time, is on the server. *)
Lemma rw_live m sd id t h s c :
  rwmutex_ok m → h_inv (side_lease m sd id t) true h s c → h_lost h = false → ¬ overdue h c →
  ∃ t', lease_owned B (side_lease m sd id t') s c.
Proof.
  intros Hok Hi Hl Ho. assert (ll_ok (S := S) (side_lease m sd id t)) as Hlk by (by apply side_ok).
  assert (lease_owned B (h_leas h) s c) as Hown.
  { apply (inv_owned (side_lease m sd id t) h s c Hi Hl). intros t0 Et. destruct (Z.le_gt_cases t0 c); [|lia].
    exfalso; apply Ho; by exists t0. }
  destruct (live_lease _ true h (proj1 Hi) Hl) as (_ & _ & _ & Hid & Hfix).
  destruct (h_leas h) as [[i K d e]|[i K d e]] eqn:Eh, sd; try (simpl in Hfix; congruence);
    cbn in Hid, Hfix; injection Hfix as E1 E2 E3 E4 E5 E6 E7;
    (assert (K = rwm_keys m) as -> by (destruct K, (rwm_keys m); simpl in *; congruence)); subst;
    exists e; exact Hown.
Qed.

(** C2: readers and writers exclude each other.  Two clients use the same
    read-write lock with different owner tokens, at least one of them the
    write side.  Each locks its side (retrying as long as it takes) and then
    does anything with its guard: heartbeats, manual renewals, checks, the
    deadline timer, releases; other contenders interfere, clocks drift by up
    to 1%, requests and replies are lost or repeated.  Whenever the two end in
    the same server state, at least one of the two guards is lost (its context
    is canceled) or has a deadline timer that is due and has not run yet.  A
    reader's share of this needs the others' clocks ([B]) not to be ahead of
    its own by more than 1% of the lease. *)
Theorem rw_excludes m1 m2 sd1 sd2 id1 id2 toks1 toks2 fuel1 fuel2 ctx1 ctx2 ops1 ops2 st1 st2
    (w1 w2 : world S) h1 h2 w1' w2' :
  rwmutex_ok m1 → rwmutex_ok m2 → rwm_keys m1 = rwm_keys m2 → id1 ≠ id2 →
  sd1 = Write ∨ sd2 = Write →
  monitored (rwm_cfg m1) = true → monitored (rwm_cfg m2) = true →
  w_tokens w1 = id1 :: toks1 → w_tokens w2 = id2 :: toks2 →
  world_ok (side_rely m1 sd1 id1) w1 → world_ok (side_rely m2 sd2 id2) w2 →
  side_free m1 sd1 id1 0 (w_srv w1) → side_free m2 sd2 id2 0 (w_srv w2) →
  rw_history m1 sd1 fuel1 ctx1 ops1 st1 w1 = (Some h1, w1') →
  rw_history m2 sd2 fuel2 ctx2 ops2 st2 w2 = (Some h2, w2') →
  w_srv w1' = w_srv w2' →
  (sd1 = Read → Millisecond * B ≤ w_now w1' + cfg_ttl (rwm_cfg m1) ÷ 100) →
  (sd2 = Read → Millisecond * B ≤ w_now w2' + cfg_ttl (rwm_cfg m2) ÷ 100) →
  h_lost h1 = true ∨ h_lost h2 = true ∨ overdue h1 (w_now w1') ∨ overdue h2 (w_now w2').
Proof.
  intros Hok1 Hok2 Hk Hid Hsd Hm1 Hm2 Ht1 Ht2 Hw1 Hw2 Hf1 Hf2 E1 E2 Es HB1 HB2.
  destruct (rw_history_spec _ _ _ _ _ _ _ _ _ _ _ Hok1 Hm1 Ht1 Hw1 Hf1 E1) as [t1 H1].
  destruct (rw_history_spec _ _ _ _ _ _ _ _ _ _ _ Hok2 Hm2 Ht2 Hw2 Hf2 E2) as [t2 H2].
  destruct (h_lost h1) eqn:El1; [by left|]. destruct (h_lost h2) eqn:El2; [by right; left|].
  destruct (overdue_dec h1 (w_now w1')) as [|Ho1]; [by right; right; left|].
  destruct (overdue_dec h2 (w_now w2')) as [|Ho2]; [by right; right; right|]. exfalso.
  destruct (rw_live _ _ _ _ _ _ _ Hok1 H1 El1 Ho1) as [d1 O1].
  destruct (rw_live _ _ _ _ _ _ _ Hok2 H2 El2 Ho2) as [d2 O2]. rewrite Es in O1.
  eapply owned_exclusive; [| | | | |exact O1|exact O2].
  - by destruct sd1, sd2.
  - by destruct sd1, sd2.
  - destruct Hsd as [-> | ->]; [left|right]; simpl; eauto.
  - destruct sd1; [done|]. intros r [= <-]. by apply HB1.
  - destruct sd2; [done|]. intros r [= <-]. by apply HB2.
Qed.

(** A write guard carries a fencing token larger than any minted before,
    a read guard none.  If [n0] tokens had been minted when [Lock] or [RLock]
    started, the guard it returns becomes the holder of its side and leaves
    the other side's alone, and its lease is backed by the server. *)
Theorem rw_grants m sd id toks n0 fuel ctx st w st' i w' :
  rwmutex_ok m → w_tokens w = id :: toks → world_ok (side_rely m sd id) w → side_free m sd id n0 (w_srv w) →
  side_lock m sd fuel ctx st w = ((st', Granted i), w') →
  ∃ g, st' = (setHolder sd g st).1 ∧ i = length (rws_guards st) ∧ side_fence sd n0 (g_fencing g) ∧
       (h_lost (g_handle g) = false →
          lease_held B (h_leas (g_handle g)) (w_srv w') (w_now w') ∧
          lease_ID (S := S) (h_leas (g_handle g)) = id).
Proof.
  intros Hok Ht Hw Hf E. pose proof (side_lock_spec m sd id toks n0 fuel ctx st w Hok Ht Hw Hf) as H.
  rewrite E in H. destruct H as [_ (-> & g & t & Hg & HP & [Hp (Hs & _)])].
  exists g. split_and!; try done. intros Hl.
  assert (ll_ok (S := S) (side_lease m sd id t)) as Hlk by (by apply side_ok).
  destruct (live_lease (side_lease m sd id t) _ _ Hp Hl) as (_ & _ & _ & Hid & _). split; [by apply Hs|].
  rewrite Hid. by destruct sd.
Qed.
End spec.

Section more.
Context {S : Type} `{!RedisOps S, !RedisLaws S}.
Implicit Types (m : RWMutex) (st : rwmstate) (w : world S).

(** ** Lock and RLock return *)

Lemma write_forward : no_backward (λ _, True) (RWWriter.TryAcquire (S := S)).
Proof.
  intros l t0. unfold RWWriter.TryAcquire, discardLateGrant, RWWriter.Release. solve_keep ltac:(by auto using stable_since).
Qed.

Lemma read_forward : no_backward (λ _, True) (try_read (S := S)).
Proof.
  intros l t0. unfold try_read, RWReader.Acquire, discardLateGrant, RWReader.Release.
  solve_keep ltac:(by auto using stable_since).
Qed.

Section body.
Context {T A : Type} (attempt : T → go S (T * (A * option error))) (dequeue : T → go S unit).
Context (wrap : T → RWLease) (fence : A → Z) (set : Guard RWLease → rwmstate → rwmstate * nat).
Context (kind prefix : string) (m : RWMutex) (ctx : context) (l : T) (st : rwmstate).

Lemma lock_with_returns deadline fuel w :
  policy_ok (cfg_retry (rwm_cfg m)) → no_backward (λ _, True) attempt → world_ok (λ _, True) w →
  ctx_done_at ctx = Some deadline →
  (retries_until (cfg_retry (rwm_cfg m)) deadline (w_now w) ≤ fuel)%nat →
  (lock_with attempt dequeue wrap fence set kind prefix m fuel ctx l st w).1.2 ≠ NoFuel.
Proof.
  intros Hp Hb Hw Hc Hf. unfold lock_with, mbind, go_bind.
  destruct (triple_time_now (λ _, True) (λ _ c, w_now w ≤ c) (stable_since _ _) w Hw (Z.le_refl _)) as [Hw2 [H2 _]].
  destruct (time_now w) as [start w2]. unfold holds in H2; simpl in Hw2, H2.
  match goal with |- context [retry_loop attempt ?f ?g ?pre _ _ _ _ _ _] =>
    pose proof (retry_enough attempt f g pre (cfg_retry (rwm_cfg m)) (λ _, True) fuel ctx deadline 0 l w2
      Hp Hb Hw2 (Z.le_refl 0) Hc) as H end.
  assert (retries_until (cfg_retry (rwm_cfg m)) deadline (w_now w2) ≤ fuel)%nat as Hle.
  { etransitivity; [|exact Hf]. by apply retries_later. }
  specialize (H Hle). destruct (retry_loop _ _ _ _ _ _ _ _ _ w2) as [[l' o] w3]; simpl in H.
  destruct o as [a|e|]; [|done|done].
  destruct (guard m (wrap l') (fence a) w3) as [g w4]. destruct (set g st) as [st' i].
  by destruct (report_acquire _ _ _ _ w4).
Qed.

Lemma lock_with_errors fuel w e :
  errors_Is (ctx_cause ctx) ErrBusy = false →
  (lock_with attempt dequeue wrap fence set kind prefix m fuel ctx l st w).1.2 = Refused e →
  errors_Is e ErrBusy = false.
Proof.
  intros Hc. unfold lock_with, mbind, go_bind. destruct (time_now w) as [start w2].
  match goal with |- context [retry_loop attempt ?f ?g ?pre _ _ _ _ _ _] =>
    pose proof (retry_errors attempt f g pre (cfg_retry (rwm_cfg m)) fuel ctx 0 l w2) as Hr end.
  destruct (retry_loop _ _ _ _ _ _ _ _ _ w2) as [[l' o] w3]; simpl in Hr.
  destruct o as [a|e'|]; simpl; [|intros [= <-]; by eapply Hr|done].
  destruct (guard m (wrap l') (fence a) w3) as [g w4]. destruct (set g st) as [st' i].
  by destruct (report_acquire _ _ _ _ w4).
Qed.

Lemma try_with_errors w e :
  (try_with attempt dequeue wrap fence set kind m l st w).1.2 = inl e → errors_Is e ErrBusy = false.
Proof.
  unfold try_with, mbind, go_bind, emit. destruct (attempt l w) as [[l' [a [e'|]]] w2]; simpl.
  - destruct (errors_Is e' ErrBusy) eqn:E; simpl; [destruct (dequeue l' w2)|]; by intros [= <-].
  - destruct (guard m (wrap l') (fence a) w2) as [g w3]. by destruct (set g st).
Qed.
End body.

(** [Lock] and [RLock] are those bodies on a new lease. *)
Lemma lock_body m fuel ctx st w :
  ∃ l w1, w_now w1 = w_now w ∧ w_turns w1 = w_turns w ∧
    (Lock m fuel ctx st w).1 = (lock_with RWWriter.TryAcquire RWWriter.Dequeue LWriter id setWriteHolder "rwmutex"
      "distsync: write lock " m fuel ctx l st w1).1.
Proof.
  unfold Lock, NewRWWriter, Token, rand_token, mbind, go_bind, emit; simpl.
  destruct (w_tokens w) as [|i toks]; unfold mret, go_ret;
    match goal with |- context [lock_with _ _ _ _ _ _ _ _ _ _ ?l _ ?w1] => exists l, w1 end;
    (split; [done|split; [done|]]); by destruct (lock_with _ _ _ _ _ _ _ _ _ _ _ _ _) as [[? ?] ?].
Qed.

Lemma rlock_body m fuel ctx st w :
  ∃ l w1, w_now w1 = w_now w ∧ w_turns w1 = w_turns w ∧
    (RLock m fuel ctx st w).1 = (lock_with try_read RWReader.Dequeue LReader (λ _, 0) setReadHolder "rwmutex-read"
      "distsync: read lock " m fuel ctx l st w1).1.
Proof.
  unfold RLock, NewRWReader, Token, rand_token, mbind, go_bind, emit; simpl.
  destruct (w_tokens w) as [|i toks]; unfold mret, go_ret;
    match goal with |- context [lock_with _ _ _ _ _ _ _ _ _ _ ?l _ ?w1] => exists l, w1 end;
    (split; [done|split; [done|]]); by destruct (lock_with _ _ _ _ _ _ _ _ _ _ _ _ _) as [[? ?] ?].
Qed.

(** [Lock] and [RLock] always return.  When its context is done at some
    time, each ends (with a guard or an error) after at most one attempt per
    pause that fits before it and one more, whatever the other contenders and
    the network do. *)
Theorem rw_lock_returns m sd deadline ctx st w fuel :
  policy_ok (cfg_retry (rwm_cfg m)) → world_ok (λ _, True) w →
  ctx_done_at ctx = Some deadline →
  (retries_until (cfg_retry (rwm_cfg m)) deadline (w_now w) ≤ fuel)%nat →
  (side_lock m sd fuel ctx st w).1.2 ≠ NoFuel.
Proof.
  intros Hp Hw Hc Hf. unfold world_ok in Hw.
  destruct sd; unfold side_lock;
    [destruct (lock_body m fuel ctx st w) as (l & w1 & En & Et & ->)
    |destruct (rlock_body m fuel ctx st w) as (l & w1 & En & Et & ->)];
    rewrite <- Et in Hw; rewrite <- En in Hf; eapply lock_with_returns; eauto using write_forward, read_forward.
Qed.

(** None of [Lock], [RLock], [TryLock] and [TryRLock] ever reports a busy
    lock as an internal error: what they return does not match [ErrBusy]. *)
Theorem rw_lock_errors m sd fuel ctx st w e :
  errors_Is (ctx_cause ctx) ErrBusy = false →
  (side_lock m sd fuel ctx st w).1.2 = Refused e ∨ (side_try m sd st w).1.2 = inl e →
  errors_Is e ErrBusy = false.
Proof.
  intros Hc [H|H].
  - destruct sd; unfold side_lock in H;
      [destruct (lock_body m fuel ctx st w) as (l & w1 & _ & _ & E)
      |destruct (rlock_body m fuel ctx st w) as (l & w1 & _ & _ & E)];
      rewrite E in H; by eapply lock_with_errors.
  - destruct sd; unfold side_try, TryLock, TryRLock, NewRWWriter, NewRWReader, Token, mbind, go_bind in H;
      destruct (rand_token w) as [i w1]; unfold mret, go_ret in H; by eapply try_with_errors.
Qed.

(** ** Unlocking one side *)

Definition side_unlock (sd : side) : rwmstate → go S (rwmstate * option error) :=
  match sd with Write => Unlock | Read => RUnlock end.
Definition side_holder (sd : side) st : option nat :=
  match sd with Write => rws_write st | Read => rws_read st end.
Definition other_side (sd : side) : side := match sd with Write => Read | Read => Write end.

(** [Unlock] releases the last write guard once, [RUnlock] the last read
    guard, and neither forgets the other's.  When it returns nil or [ErrLost]
    that guard is finished and forgotten: a second call returns nil and
    changes nothing.  On any other error the guard stays the holder, and a
    second call asks the server again. *)
Theorem rw_unlock_once sd st w st' e w' :
  guards_ok (rws_guards st) → side_unlock sd st w = ((st', e), w') →
  side_holder (other_side sd) st' = side_holder (other_side sd) st ∧
  (e = None ∨ is_error e ErrLost = true →
     side_holder sd st' = None ∧ side_unlock sd st' w' = ((st', None), w') ∧
     ∀ i g, side_holder sd st = Some i → rws_guards st' !! i = Some g → finished (g_handle g)) ∧
  (e ≠ None → is_error e ErrLost = false →
     side_holder sd st' = side_holder sd st ∧
     ∀ i g, side_holder sd st = Some i → rws_guards st' !! i = Some g → h_releaseDone (g_handle g) = false).
Proof.
  intros Hg. destruct sd; simpl; unfold Unlock, RUnlock, mbind, go_bind.
  - pose proof (unlock_holder_once (rws_write st) (rws_guards st) w) as H.
    destruct (unlock_holder _ _ w) as [[[gs holder] err] w1]. intros [= <- <- <-]; simpl.
    destruct (H gs holder err w1 Hg eq_refl) as [H1 H2]. split; [done|split; [|exact H2]].
    intros He; destruct (H1 He) as [-> ?]. by split_and!.
  - pose proof (unlock_holder_once (rws_read st) (rws_guards st) w) as H.
    destruct (unlock_holder _ _ w) as [[[gs holder] err] w1]. intros [= <- <- <-]; simpl.
    destruct (H gs holder err w1 Hg eq_refl) as [H1 H2]. split; [done|split; [|exact H2]].
    intros He; destruct (H1 He) as [-> ?]. by split_and!.
Qed.
End more.

(** ** Examples *)
Module Ex.

Definition mu : RWMutex := NewRWMutex (New []) "m" [].

Lemma rwmu_ok : rwmutex_ok mu.
Proof. split; [by_compute|]. by split. Qed.

Definition runs : turn := Turn [] [] [] None true 0.
Definition a_asks : request := write_request (the_writer mu "a") 0.
(** The reader [b], at eleven seconds. *)
Definition b_asks : request := read_request (the_reader mu "b") (11 * Second).
Definition client (id : string) (srv : mem) (now : Z) (turns : list turn) : world mem :=
  World srv now turns [id] [].

(** [a] locks for writing and is paused for eleven seconds, in which the
    reader [b] gets the lock; then [a]'s deadline timer runs. *)
Definition a_world : world mem := client "a" (mem_empty 0) 0
  [quiet; quiet; served; quiet; quiet; quiet; quiet;
   first_do [wait (11 * Second); Other b_asks] quiet; runs; quiet].
Definition b_world : world mem := client "b" (mem_empty 0) 0
  [first_do [Other a_asks; wait (11 * Second)] quiet; quiet; served; quiet; quiet; quiet; quiet].

Lemma rwmu_a_world_ok : world_ok (side_rely 11000 mu Write "a") a_world.
Proof.
  solve_sched; split.
  - right. split_and!; by try apply rwmu_ok.
  - right. by eexists (RWMachine.RLock "b" _ _ _).
Qed.

Lemma rwmu_b_world_ok : world_ok (side_rely 11000 mu Read "b") b_world.
Proof.
  solve_sched; split.
  - right. split_and!; by try apply rwmu_ok.
  - right. by eexists (RWMachine.WLock "a" _ _ _).
Qed.

Lemma start_good : lock_good (rwm_keys mu) (mem_empty 0).
Proof. exists rw_init. split; [apply rw_on_empty, rwmu_ok|split; [apply rw_inv_init|done]]. Qed.

Lemma rwmu_start_free sd id n0 : n0 ≤ 0 → side_free mu sd id n0 (mem_empty 0).
Proof.
  intros; destruct sd.
  - split; [|apply start_good]. split; [done|]. exists 0; split; [done|]. split; [lia|split; [done|by right]].
  - split; [|apply start_good]. exists ∅. split; [done|split; [done|]]. intros t _. apply lookup_empty.
Qed.

Lemma rw_excludes_witness :
  ∃ h1 h2 w1 w2,
    rw_history mu Write 1 Background [OWait; OTimer] rwmstate_empty a_world = (Some h1, w1) ∧
    rw_history mu Read 1 Background [] rwmstate_empty b_world = (Some h2, w2) ∧
    (h_lost h1 = true ∨ h_lost h2 = true ∨ overdue h1 (w_now w1) ∨ overdue h2 (w_now w2)).
Proof.
  eexists _, _, _, _. split; [vm_compute; reflexivity|split; [vm_compute; reflexivity|]].
  eapply (rw_excludes 11000 mu mu Write Read "a" "b" [] [] 1 1 Background Background [OWait; OTimer] []
    rwmstate_empty rwmstate_empty a_world b_world _ _ _ _ rwmu_ok rwmu_ok eq_refl ltac:(discriminate) (or_introl eq_refl)
    eq_refl eq_refl eq_refl eq_refl rwmu_a_world_ok rwmu_b_world_ok (rwmu_start_free Write "a" 0 ltac:(lia))
    (rwmu_start_free Read "b" 0 ltac:(lia))); [vm_compute; reflexivity..|discriminate|].
  intros _; vm_compute; discriminate.
Defined.

(** A guard for writing, with the first fencing token. *)
Definition w_world : world mem := client "a" (mem_empty 0) 0 [quiet; quiet; served; quiet; quiet; quiet; quiet].

Lemma rwmu_w_world_ok : world_ok (side_rely 0 mu Write "a") w_world.
Proof. solve_sched. Qed.

Lemma rw_grants_witness :
  rws_write (Lock mu 1 Background rwmstate_empty w_world).1.1 = Some 0%nat ∧
  ∃ g, rws_guards (Lock mu 1 Background rwmstate_empty w_world).1.1 = [g] ∧ g_fencing g = 1.
Proof.
  destruct (Lock mu 1 Background rwmstate_empty w_world) as [[st o] w'] eqn:E.
  assert (o = Granted 0%nat ∧ g_fencing <$> rws_guards st = [1]) as [-> Hf].
  { assert ((Lock mu 1 Background rwmstate_empty w_world).1.2 = Granted 0%nat ∧
      g_fencing <$> rws_guards (Lock mu 1 Background rwmstate_empty w_world).1.1 = [1]) as H by (split; vm_compute; reflexivity).
    rewrite E in H; exact H. }
  destruct (rw_grants 0 mu Write "a" [] 0 1 Background rwmstate_empty w_world st 0%nat w'
    rwmu_ok eq_refl rwmu_w_world_ok (rwmu_start_free Write "a" 0 ltac:(lia)) E) as (g & -> & _).
  split; [reflexivity|]. exists g; split; [reflexivity|]. injection Hf as H; exact H.
Defined.

(** [a] waits for one second for a lock that [b] holds for writing. *)
Definition busy_ctx : context := Ctx (Some Second) ErrDeadlineExceeded.
Definition b_holds : mem := (serve (write_request (the_writer mu "b") 0) (mem_empty 0)).2.
Definition busy_world : world mem :=
  client "a" b_holds 0 (quiet :: mjoin (replicate 30 [quiet; served; quiet; quiet])).

Lemma rwmu_busy_world_ok : world_ok (λ _, True) busy_world.
Proof. solve_sched. Qed.

Lemma rw_lock_returns_witness :
  (side_lock mu Read (retries_until (cfg_retry (rwm_cfg mu)) Second 0) busy_ctx rwmstate_empty busy_world).1.2 ≠ NoFuel ∧
  (side_lock mu Write (retries_until (cfg_retry (rwm_cfg mu)) Second 0) busy_ctx rwmstate_empty busy_world).1.2 ≠ NoFuel.
Proof.
  assert (policy_ok (cfg_retry (rwm_cfg mu))) as Hp by (repeat split; vm_compute; congruence).
  split.
  - apply (rw_lock_returns mu Read Second busy_ctx rwmstate_empty busy_world _ Hp rwmu_busy_world_ok eq_refl (le_n _)).
  - apply (rw_lock_returns mu Write Second busy_ctx rwmstate_empty busy_world _ Hp rwmu_busy_world_ok eq_refl (le_n _)).
Defined.

Definition busy_error : error := ErrWrap "distsync: read lock m" ErrDeadlineExceeded.

Lemma rw_lock_errors_witness : errors_Is busy_error ErrBusy = false ∧ errors_Is ErrNotAcquired ErrBusy = false.
Proof.
  split.
  - apply (rw_lock_errors mu Read 30 busy_ctx rwmstate_empty busy_world busy_error); [reflexivity|].
    left; vm_compute; reflexivity.
  - apply (rw_lock_errors mu Write 30 busy_ctx rwmstate_empty (client "a" b_holds 0 [quiet; served; served; served]) ErrNotAcquired);
      [reflexivity|].
    right; vm_compute; reflexivity.
Defined.

(** [a] locks for reading, unlocks over a broken connection, and again. *)
Definition a_releases : world mem := client "a" (mem_empty 0) 0
  [quiet; quiet; served; quiet; quiet; quiet; quiet; quiet; net_fails 0 (NetFailure "EOF"); served].
Definition locked : rwmstate * world mem :=
  let x := RLock mu 1 Background rwmstate_empty a_releases in (x.1.1, x.2).
Definition once : rwmstate * option error * world mem := side_unlock Read locked.1 locked.2.
Definition twice : rwmstate * option error * world mem := side_unlock Read once.1.1 once.2.

Lemma rw_once_ok : guards_ok (rws_guards once.1.1).
Proof.
  assert (Forall (λ g, h_releaseDone (g_handle g) = false) (rws_guards once.1.1)) as H.
  { vm_compute. by repeat constructor. }
  intros i g Hi Hd. apply (Forall_lookup_1 _ _ i g H) in Hi. congruence.
Qed.

Lemma rw_unlock_once_witness :
  once.1.2 = Some (ErrRedis "EOF") ∧ twice.1.2 = None ∧ side_holder Read twice.1.1 = None ∧
  side_unlock Read twice.1.1 twice.2 = ((twice.1.1, None), twice.2).
Proof.
  assert (once.1.2 = Some (ErrRedis "EOF")) as H1 by (vm_compute; reflexivity).
  assert (twice.1.2 = None) as H2 by (vm_compute; reflexivity).
  destruct (rw_unlock_once Read once.1.1 once.2 twice.1.1 twice.1.2 twice.2 rw_once_ok) as (_ & Hb & _).
  { unfold twice; destruct (side_unlock Read once.1.1 once.2) as [[? ?] ?]; reflexivity. }
  destruct (Hb (or_introl H2)) as (Hn & Hu & _).
  split; [exact H1|split; [exact H2|split; [exact Hn|exact Hu]]].
Defined.
End Ex.
