(* ===== verification/Semaphore.v ===== *)
(** * Semaphore

    [semaphore.go]: a counting semaphore over [PermitSet] grants, its permits
    and the count of free permits. *)
From S2P Require Import Prelude Redis RedisMem Errors Requests ScriptsSem GoRuntime Scenario.
From S2P Require Import Lease PermitSet PermitSafety Keys Backoff Config Renewer Guard.
From S2P Require Import GuardSafety Retry Handout Guarantee.
Open Scope Z_scope.

Record Semaphore := {
  s_client : Client;
  s_name : string;
  s_cfg : config;
  s_key : string;
  s_capacity : Z;
}.

(** [Client.Semaphore(name, capacity, opts...)]; none when it panics. *)
Definition NewSemaphore (c : Client) (name : string) (capacity : Z) (opts : list Option) : option Semaphore :=
  if capacity <? 1 then None
  else Some {| s_client := c; s_name := name; s_cfg := resolved c opts; s_key := Key name;
               s_capacity := capacity |}.

Record Permit := { p_handle : handle PermitSet; p_n : Z }.

Section ops.
Context {S : Type} `{!RedisOps S}.
Implicit Types (s : Semaphore).

Definition permit s (l : PermitSet) (n : Z) : go S Permit :=
  h ← monitor (s_cfg s) (newHandle (s_name s) "semaphore" l);
  mret {| p_handle := h; p_n := n |}.

Definition try_n (n : Z) (l : PermitSet) : go S (PermitSet * (unit * option error)) :=
  '(l, e) ← TryAcquire l n;
  mret (l, (tt, e)).

Definition acquire_with s (fuel : nat) (ctx : context) (n : Z) (l : PermitSet) : go S (outcome Permit) :=
  start ← time_now;
  '(l, o) ← retry_loop (try_n n) (report_acquire "semaphore" (s_name s) false start)
      (λ _, report_acquire "semaphore" (s_name s) false start)
    ("distsync: semaphore " +:+ s_name s) (cfg_retry (s_cfg s)) fuel ctx 0 l;
  match o with
  | Granted _ =>
      p ← permit s l n;
      _ ← report_acquire "semaphore" (s_name s) true start;
      mret (Granted p)
  | Refused e => mret (Refused e)
  | NoFuel => mret NoFuel
  end.

Definition too_few s : error :=
  ErrText ("distsync: semaphore " +:+ s_name s +:+ ": permits must be >= 1").

Definition sem_Acquire s (fuel : nat) (ctx : context) (n : Z) : go S (outcome Permit) :=
  if n <? 1 then mret (Refused (too_few s))
  else
    _ ← emit (SpanStart "distsync.semaphore.acquire");
    l ← NewPermitSet (s_key s) (cfg_ttl (s_cfg s)) (s_capacity s);
    o ← acquire_with s fuel ctx n l;
    _ ← emit (SpanFinish (finish_error o));
    mret o.

Definition sem_TryAcquire s (n : Z) : go S (error + Permit) :=
  if n <? 1 then mret (inl (too_few s))
  else
    l ← NewPermitSet (s_key s) (cfg_ttl (s_cfg s)) (s_capacity s);
    '(l, e) ← TryAcquire l n;
    match e with
    | Some e =>
        if errors_Is e ErrBusy then
          _ ← emit (MAcquire "semaphore" (s_name s) false 0);
          mret (inl ErrNotAcquired)
        else mret (inl e)
    | None =>
        p ← permit s l n;
        _ ← emit (MAcquire "semaphore" (s_name s) true 0);
        mret (inr p)
    end.

Definition Available s : go S (error + Z) :=
  r ← redis (Command (ZCARD (s_key s)));
  mret match call_Int64 r with
  | COk used => inr (Z.max 0 (s_capacity s - used))
  | CNil => inl (ErrRedis "redis: nil")
  | CErr e => inl e
  end.

(** [Permit.Renew] and [Permit.Release]. *)
Definition permit_Renew (p : Permit) : go S (Permit * option error) :=
  '(h, e) ← renew (p_handle p); mret ({| p_handle := h; p_n := p_n p |}, e).
Definition permit_Release (p : Permit) : go S (Permit * option error) :=
  '(h, e) ← release (p_handle p); mret ({| p_handle := h; p_n := p_n p |}, e).

End ops.

(** ** What a semaphore's own requests do to the set

    Every request that a semaphore sends keeps the set within its capacity, so
    a client guarantees to the others what it relies on. *)
Section capacity.
Context {S : Type} `{!RedisOps S, !RedisLaws S} (k : string) (cap : Z).

Definition within (srv : S) (c : Z) : Prop := zset_with k (λ z, Z.of_nat (size z) ≤ cap) srv.
Definition on_set (p : PermitSet) : Prop := ps_key p = k ∧ ps_capacity p = cap.

Lemma stable_within : stable (same_capacity k cap) within.
Proof. apply stable_capacity. Qed.

Lemma own_request req : same_capacity k cap req → triple (same_capacity k cap) within (redis req) (λ _, within).
Proof. intros Hr. apply triple_redis_stable; [exact Hr|apply stable_within]. Qed.

Lemma within_done {X} (p : PermitSet) (x : X) :
  on_set p → triple (same_capacity k cap) within (mret (p, x)) (λ x s c, within s c ∧ on_set x.1).
Proof. intros Hp; eapply triple_pre; [apply triple_ret|]. by intros s c ?. Qed.

Lemma within_Release : keeps_on (same_capacity k cap) within on_set Release.
Proof.
  intros p [Hk Hc]; unfold Release. destruct (bool_decide _); [by apply within_done|].
  apply keep_bind; [apply own_request; by right|]. intros x. destruct (call_Int64 x); by apply within_done.
Qed.

Lemma within_TryAcquire n : keeps_on (same_capacity k cap) within on_set (λ p, TryAcquire p n).
Proof.
  intros p [Hk Hc]; unfold TryAcquire. apply keep_bind; [apply triple_now_keep, stable_within|]. intros now.
  destruct (n <? 1); [by apply within_done|]. apply keep_bind; [apply own_request; by right|]. intros x.
  destruct (call_Int64 x); [|by apply within_done..].
  apply keep_bind; [apply triple_now_keep, stable_within|]. intros now'. destruct (negb _); [|by apply within_done].
  unfold discardLateGrant. eapply triple_bind; [by apply within_Release|]. intros [p' e]; cbn [fst].
  eapply triple_pre; [apply triple_ret|]. by intros s c ?.
Qed.

Lemma within_Renew : keeps_on (same_capacity k cap) within on_set Renew.
Proof.
  intros p [Hk Hc]; unfold Renew.
  repeat first
    [ by apply within_done
    | apply keep_bind; [first [apply triple_now_keep, stable_within | apply own_request; by right]|intros ?; cbn beta]
    | case_match ].
Qed.

Lemma within_Held p : on_set p → triple (same_capacity k cap) within (Held p) (λ _, within).
Proof.
  intros [Hk _]; unfold Held. destruct (bool_decide _); [apply triple_keep|].
  apply keep_bind; [apply triple_now_keep, stable_within|]. intros now.
  apply held_loop_keep; [apply stable_within|]. intros t; by right.
Qed.

Lemma within_report primitive name ok start :
  triple (same_capacity k cap) within (report_acquire (S := S) primitive name ok start) (λ _, within).
Proof. apply report_keep, stable_within. Qed.

Lemma within_permit s l n :
  on_set l → triple (same_capacity k cap) within (permit s l n) (kept_on within on_set p_handle).
Proof.
  intros Hl; unfold permit.
  eapply (kept_bind _ _ _ id); [by apply keep_monitor; [apply stable_within|]|]. intros h Hh.
  eapply triple_pre; [apply triple_ret|]. by intros srv c ?.
Qed.

Lemma within_Acquire s fuel ctx n :
  s_key s = k → s_capacity s = cap →
  triple (same_capacity k cap) within (sem_Acquire s fuel ctx n)
    (λ o srv c, within srv c ∧ match o with Granted p => handle_on on_set (p_handle p) | _ => True end).
Proof.
  intros Hk Hc; unfold sem_Acquire.
  assert (∀ o : outcome Permit, match o with Granted p => handle_on on_set (p_handle p) | _ => True end →
    triple (same_capacity k cap) within (mret o)
      (λ o srv c, within srv c ∧ match o with Granted p => handle_on on_set (p_handle p) | _ => True end)) as Hret.
  { intros o Ho; eapply triple_pre; [apply triple_ret|]. by intros srv c ?. }
  destruct (n <? 1); [by apply Hret|]. apply keep_bind; [apply triple_emit|]. intros _.
  unfold NewPermitSet, Token.
  eapply (triple_bind _ _ _ _ (λ l srv c, within srv c ∧ on_set l)).
  { apply keep_bind; [apply triple_rand_token|]. intros id. eapply triple_pre; [apply triple_ret|]. by intros srv c ?. }
  intros l; cbn beta. apply (triple_assume _ (on_set l)); [by intros srv c [_ ?]|]. intros Hl.
  eapply (triple_pre _ _ within); [|by intros srv c [? _]].
  eapply (triple_bind _ _ _ _ (λ o srv c, within srv c ∧
    match o with Granted p => handle_on on_set (p_handle p) | _ => True end)).
  - unfold acquire_with. apply keep_bind; [apply triple_now_keep, stable_within|]. intros start.
    eapply triple_bind.
    { apply (keep_retry _ within on_set); [apply stable_within| |apply within_report|intros; apply within_report|exact Hl].
      intros l' Hl'; unfold try_n. eapply triple_bind; [by apply within_TryAcquire|]. intros [l1 e]; cbn [fst].
      eapply triple_pre; [apply triple_ret|]. by intros srv c ?. }
    intros [l1 o]; cbn [fst]. apply (triple_assume _ (on_set l1)); [by intros srv c [_ ?]|]. intros H1.
    eapply (triple_pre _ _ within); [|by intros srv c [? _]]. destruct o as [u|e|]; [|by apply Hret..].
    eapply kept_bind; [by apply within_permit|]. intros p Hp.
    apply keep_bind; [apply within_report|]. intros _. by apply Hret.
  - intros o; cbn beta. apply (triple_assume _ (match o with Granted p => handle_on on_set (p_handle p) | _ => True end));
      [by intros srv c [_ ?]|]. intros Ho. eapply (triple_pre _ _ within); [|by intros srv c [? _]].
    apply keep_bind; [apply triple_emit|]. intros _. by apply Hret.
Qed.
End capacity.

(** ** What a permit is worth *)
Section spec.
Context {S : Type} `{!RedisOps S, !RedisLaws S}.
(** A bound on the clocks of the other clients, as in [PermitSet]. *)
Context (B : Z).
#[local] Instance laws : LeaseLaws S PermitSet := permit_laws B.
Implicit Types (s : Semaphore).

Definition sem_ok s : Prop := whole_ms (cfg_ttl (s_cfg s)).

Definition new_set s (id : string) : PermitSet :=
  {| ps_id := id; ps_key := s_key s; ps_ttl := cfg_ttl (s_cfg s); ps_capacity := s_capacity s;
     ps_tokens := []; ps_acquired := false; ps_expiresAt := time_zero |}.

(** The grant of [n] permits under [id], with some deadline. *)
Definition granted_set s (id : string) (n t : Z) : PermitSet :=
  set_grant (permit_tokens id n) true t (new_set s id).

Definition sem_rely s (id : string) (n : Z) : request → Prop :=
  permit_rely (s_key s) (permit_tokens id n) B.

(** None of the permits is in the set, which does not expire. *)
Definition sem_free s (id : string) (n : Z) (srv : S) : Prop :=
  zset_with (s_key s) (none_in (permit_tokens id n)) srv.

Lemma granted_ok s id n t : sem_ok s → 1 ≤ n → ll_ok (granted_set s id n t).
Proof. intros Hok Hn; split; [by apply permit_tokens_nonempty|exact Hok]. Qed.

Definition permit_inv s (id : string) (n : Z) (h : handle PermitSet) (srv : S) (c : Z) : Prop :=
  ∃ t, h_inv (granted_set s id n t) (monitored (s_cfg s)) h srv c.

Lemma stable_permit_inv s id n h : sem_ok s → 1 ≤ n → stable (sem_rely s id n) (permit_inv s id n h).
Proof.
  intros Hok Hn; apply stable_exists; intros t. pose proof (granted_ok s id n t Hok Hn) as Hl.
  split; [intros s' c r Hr [Hp Hs]|intros s' c dc ds Hd [Hp Hs]]; (split; [exact Hp|]);
    by apply (stable_h_state _ Hl _ _ Hp).
Qed.

Lemma permit_triple s id n t :
  sem_ok s → 1 ≤ n →
  let l := granted_set s id n t in
  triple (sem_rely s id n) (λ srv c, ps_held (s_key s) (permit_tokens id n) B l srv c)
    (permit s l n) (λ p srv c, permit_inv s id n (p_handle p) srv c ∧ p_n p = n).
Proof.
  intros Hok Hn l; unfold permit. pose proof (granted_ok s id n t Hok Hn) as Hl.
  eapply triple_bind.
  { eapply triple_pre; [apply (monitor_triple_of l (s_cfg s) _ Hl), (new_pure l Hl)|].
    intros srv c Hh. exact (new_state l Hl _ _ srv c Hh). }
  intros h; eapply triple_pre; [apply triple_ret|]. intros srv c Hi; split; [by exists t|done].
Qed.

Definition pwon s id n (l : PermitSet) (srv : S) (c : Z) : Prop :=
  l = granted_set s id n (ps_expiresAt l) ∧ ps_held (s_key s) (permit_tokens id n) B l srv c.

Lemma try_n_triple s id n :
  sem_ok s → 1 ≤ n →
  triple (sem_rely s id n) (λ srv _, sem_free s id n srv) (TryAcquire (new_set s id) n) (λ x srv c,
    match x.2 with
    | None => pwon s id n x.1 srv c
    | Some e => errors_Is e ErrBusy = true → x.1 = new_set s id ∧ sem_free s id n srv
    end).
Proof.
  intros Hok Hn. eapply triple_post; [by apply (ps_TryAcquire_triple _ _ B (new_set s id) n)|].
  intros [l [e|]] srv c; unfold ps_acquired_post; simpl.
  - destruct e; try (by intros ? ?; congruence). by intros [-> ?] _.
  - intros [Heq Hh]. split; [exact Heq|exact Hh].
Qed.

Lemma make_permit_triple {A} s id n l (k : go S unit) (ret : Permit → A) :
  sem_ok s → 1 ≤ n → (∀ I, stable (sem_rely s id n) I → triple (sem_rely s id n) I k (λ _, I)) →
  triple (sem_rely s id n) (pwon s id n l) (p ← permit s l n; _ ← k; mret (ret p))
    (λ x srv c, ∃ p, x = ret p ∧ permit_inv s id n (p_handle p) srv c ∧ p_n p = n).
Proof.
  intros Hok Hn Hk. apply (triple_assume _ (l = granted_set s id n (ps_expiresAt l))); [by intros ? ? [? _]|].
  intros ->. eapply triple_bind.
  { eapply triple_pre; [by apply permit_triple|]. by intros srv c [_ ?]. }
  intros p; cbn beta. eapply triple_bind.
  { apply Hk, stable_and; [by apply stable_permit_inv|apply stable_pure]. }
  intros []; cbn beta. eapply triple_pre; [apply triple_ret|]. intros srv c [? ?]; eauto.
Qed.

Lemma sem_acquire_with_triple s id n fuel ctx :
  sem_ok s → 1 ≤ n →
  triple (sem_rely s id n) (λ srv _, sem_free s id n srv) (acquire_with s fuel ctx n (new_set s id))
    (λ o srv c, match o with Granted p => permit_inv s id n (p_handle p) srv c ∧ p_n p = n | _ => True end).
Proof.
  intros Hok Hn; unfold acquire_with.
  eapply triple_bind; [by apply triple_time_now, stable_none|]. intros start; cbn beta.
  eapply triple_bind.
  { eapply triple_pre; [apply (retry_triple _ _ _ _ _ _
      (λ l srv _, l = new_set s id ∧ sem_free s id n srv) (λ l _, pwon s id n l))|].
    - intros l; apply stable_and; [apply stable_pure|apply stable_none].
    - by apply report_keep, stable_pure.
    - intros l'; by apply report_keep, stable_pure.
    - intros l. apply (triple_assume _ (l = new_set s id)); [by intros srv c [? _]|]. intros ->.
      unfold try_n. eapply triple_bind; [eapply triple_pre; [by apply try_n_triple|by intros srv c [_ ?]]|].
      intros [l' e]; eapply triple_pre; [apply triple_ret|]. by intros srv c H.
    - by intros srv c [? _]. }
  intros [l [[]|e|]]; cbn [fst snd].
  - eapply triple_post.
    + apply (make_permit_triple s id n l _ Granted Hok Hn). intros I HI; by apply report_keep.
    + by intros x srv c (p & -> & H).
  - eapply triple_pre; [apply triple_ret|]; done.
  - eapply triple_pre; [apply triple_ret|]; done.
Qed.

(** A history of one client: acquire, then anything done with the permit. *)
Definition sem_history s (fuel : nat) (ctx : context) (n : Z) (ops : list hop) : go S (option (handle PermitSet)) :=
  o ← sem_Acquire s fuel ctx n;
  match o with
  | Granted p => '(h, _) ← do_ops ops (p_handle p); mret (Some h)
  | _ => mret None
  end.

Lemma sem_history_spec s id toks fuel ctx n ops w h w' :
  sem_ok s → 1 ≤ n → monitored (s_cfg s) = true → w_tokens w = id :: toks →
  world_ok (sem_rely s id n) w → sem_free s id n (w_srv w) →
  sem_history s fuel ctx n ops w = (Some h, w') →
  ∃ t, h_inv (granted_set s id n t) true h (w_srv w') (w_now w').
Proof.
  intros Hok Hn Hmon Ht Hw Hf. unfold sem_history, sem_Acquire. rewrite (proj2 (Z.ltb_ge n 1)) by lia.
  unfold mbind, go_bind, emit, NewPermitSet, Token, rand_token, mbind, go_bind; simpl. rewrite Ht.
  unfold mret, go_ret. set (w1 := World _ _ _ toks _). fold (new_set s id).
  destruct (sem_acquire_with_triple s id n fuel ctx Hok Hn w1 Hw Hf) as [Hw1 H1].
  destruct (acquire_with s fuel ctx n (new_set s id) w1) as [o w2]; simpl in Hw1, H1.
  destruct o as [p| |]; [|done..]. destruct H1 as [[t [Hp Hs]] _]. rewrite Hmon in Hp.
  pose proof (granted_ok s id n t Hok Hn) as Hl. simpl.
  match goal with |- context [do_ops ops (p_handle p) ?w3] =>
    destruct (do_ops_triple _ Hl true ops (p_handle p) Hp w3 Hw1 Hs) as [_ [Hi _]];
    destruct (do_ops ops (p_handle p) w3) as [[h' es] w4] end.
  intros [= <- <-]. by exists t.
Qed.

(** A permit that is not lost, with its timer on time, is backed. *)
Lemma live_permit_in_set s id n t h srv c :
  sem_ok s → 1 ≤ n → h_inv (granted_set s id n t) true h srv c →
  h_lost h = false → ¬ overdue h c → Millisecond * B ≤ c + cfg_ttl (s_cfg s) ÷ 100 →
  zset_with (s_key s) (all_after (permit_tokens id n) B) srv.
Proof.
  intros Hok Hn Hi Hl Ho HB. pose proof (granted_ok s id n t Hok Hn) as Hlo.
  destruct (live_lease _ _ _ (proj1 Hi) Hl) as (_ & _ & _ & _ & [= Ek ET Et]).
  assert (ll_owned (h_leas h) srv c) as H.
  { apply (inv_owned _ h srv c Hi Hl). intros t' E. destruct (Z.le_gt_cases t' c); [|lia].
    exfalso; apply Ho; by exists t'. }
  simpl in H. rewrite Ek, ET, Et in H. by apply H.
Qed.

(** One client of the semaphore, with its history. *)
Record sem_client := SemClient {
  sc_sem : Semaphore; sc_id : string; sc_n : Z; sc_fuel : nat; sc_ctx : context;
  sc_ops : list hop; sc_world : world S;
}.

(** The client's history starts where the set on the server is within the
    capacity, and ends in the server state [srv] with a permit that is not
    lost. *)
Definition sem_holds (k : string) (cap : Z) (srv : S) (g : sem_client) : Prop :=
  let s := sc_sem g in
  s_key s = k ∧ s_capacity s = cap ∧ within k cap (w_srv (sc_world g)) (w_now (sc_world g)) ∧
  world_ok (same_capacity k cap) (sc_world g) ∧ sem_ok s ∧ monitored (s_cfg s) = true ∧ 1 ≤ sc_n g ∧
  String.length (sc_id g) = 32%nat ∧ (∃ toks, w_tokens (sc_world g) = sc_id g :: toks) ∧
  world_ok (sem_rely s (sc_id g) (sc_n g)) (sc_world g) ∧ sem_free s (sc_id g) (sc_n g) (w_srv (sc_world g)) ∧
  ∃ h w', sem_history s (sc_fuel g) (sc_ctx g) (sc_n g) (sc_ops g) (sc_world g) = (Some h, w') ∧
    w_srv w' = srv ∧ h_lost h = false ∧ ¬ overdue h (w_now w') ∧
    Millisecond * B ≤ w_now w' + cfg_ttl (s_cfg s) ÷ 100.

Definition sc_grant (g : sem_client) : string * Z := (sc_id g, sc_n g).

(** The client's own requests, and the others', keep the set within the
    capacity. *)
Lemma sem_history_within k cap s fuel ctx n ops :
  s_key s = k → s_capacity s = cap →
  triple (same_capacity k cap) (within k cap) (sem_history s fuel ctx n ops) (λ _, within (S := S) k cap).
Proof.
  intros Hk Hc; unfold sem_history. eapply triple_bind; [by apply (within_Acquire k cap)|].
  intros o; cbn beta. destruct o as [p|e|].
  2, 3: eapply triple_pre; [apply triple_keep|]; by intros srv c [? _].
  eapply triple_assume; [by intros srv c [_ Hp]; exact Hp|]. intros Hp.
  eapply (triple_pre _ _ (within k cap)); [|by intros srv c [? _]].
  eapply (kept_bind _ _ _ fst).
  - apply (keep_do_ops _ _ (on_set k cap)); [apply stable_within|apply within_Renew|apply within_Release|apply within_Held|exact Hp].
  - intros [h es] _. apply triple_keep.
Qed.

(** C3: the semaphore's capacity holds across clients.  Take any number of
    clients of one semaphore with their own histories (acquiring with retries,
    heartbeats, renewals, checks, timers, lost messages, interference, drift),
    each from a server on which the set is within the capacity, and all ending
    in the same server state; let the others ask for the same capacity, and
    the clocks of all be within 1% of the duration of each other.  Then the
    permits of those whose handle is not lost and whose deadline timer is on
    time add up to at most the capacity. *)
Theorem semaphore_capacity k cap srv gs :
  0 ≤ cap → Forall (sem_holds k cap srv) gs → NoDup (fst <$> (sc_grant <$> gs)) →
  grants_total (sc_grant <$> gs) ≤ cap.
Proof.
  intros Hcap Hgs Hnd. destruct gs as [|g0 gs]; [done|].
  assert (zset_with k (λ z, Z.of_nat (size z) ≤ cap) srv) as (z & Hz & _ & Hsize).
  { apply Forall_cons in Hgs as [(Hk & Hc & Hi & Hg & _ & _ & _ & _ & _ & _ & _ & h & w' & E & <- & _) _].
    destruct (sem_history_within k cap _ (sc_fuel g0) (sc_ctx g0) (sc_n g0) (sc_ops g0) Hk Hc _ Hg Hi) as [_ H].
    rewrite E in H. exact H. }
  enough (grants_total (sc_grant <$> g0 :: gs) ≤ Z.of_nat (size z)) by lia.
  apply grants_fit; [done|..]; apply Forall_fmap; (eapply Forall_impl; [exact Hgs|]); intros g; simpl.
  - by intros (_ & _ & _ & _ & _ & _ & ? & ? & _).
  - intros (Hk & _ & _ & _ & Hok & Hmon & Hn & _ & [toks Ht] & Hw & Hf & h & w' & E & Es & Hl & Ho & HB) t Hin.
    destruct (sem_history_spec _ _ _ _ _ _ _ _ _ _ Hok Hn Hmon Ht Hw Hf E) as [t0 Hi].
    destruct (live_permit_in_set _ _ _ _ _ _ _ Hok Hn Hi Hl Ho HB) as (z' & Hz' & _ & Hall).
    rewrite Hk, Es in Hz'. assert (z' = z) as -> by congruence.
    destruct (Hall t Hin) as (sc & -> & _); eauto.
Qed.
End spec.

(** ** Free permits, and invalid requests *)
Section queries.
Context {S : Type} `{!RedisOps S, !RedisLaws S}.

(** [Available] on an answered query is what is left of the capacity,
    never negative, and it changes nothing in the set. *)
Theorem available_counts s z (w : world S) dc ds ts :
  w_turns w = after dc ds served :: ts → is_zset (s_key s) z (w_srv w) →
  (Available s w).1 = inr (Z.max 0 (s_capacity s - Z.of_nat (size z))) ∧
  is_zset (s_key s) z (w_srv (Available s w).2).
Proof.
  destruct w as [srv now turns toks log]; simpl; intros -> Hz.
  destruct (is_zset_tick _ _ _ ds Hz) as [Hz1 Hx1].
  unfold Available, redis, mbind, go_bind, next_turn, set_env; simpl.
  pose proof (serve_reply (Command (ZCARD (s_key s))) (r_tick ds srv)) as Hr.
  pose proof (serve_view (Command (ZCARD (s_key s))) (r_tick ds srv)) as Hv.
  destruct (serve _ _) as [r s']; simpl in Hr, Hv |- *.
  unfold serve_ref in Hr, Hv; cbn [request_script request_fuel] in Hr, Hv.
  destruct (run_zstep (r_clock (r_tick ds srv)) (s_key s) (ZCARD (s_key s)) _ SRet _ z eq_refl Hz1 eq_refl)
    as (m' & Hrun & Hz' & Hx' & _). rewrite Hrun in Hr, Hv; simpl in Hr, Hv; subst r; simpl.
  split; [done|]. unfold is_zset; rewrite Hv; auto.
Qed.
End queries.

(** ** Examples: three permits *)
Module Ex.

Definition id_a : string := "aaaaaaaaaaaaaaaaaaaaaaaaaaaaaaaa".
Definition id_b : string := "bbbbbbbbbbbbbbbbbbbbbbbbbbbbbbbb".
Definition sem : Semaphore :=
  {| s_client := New []; s_name := "s"; s_cfg := resolved (New []) []; s_key := "{s}"; s_capacity := 3 |}.

Example sem_made : NewSemaphore (New []) "s" 3 [] = Some sem.
Proof. reflexivity. Qed.
Example no_capacity : NewSemaphore (New []) "s" 0 [] = None.
Proof. reflexivity. Qed.

Definition ask (id : string) (n now : Z) : request := SemAcquire "{s}" now 10000 3 (permit_tokens id n).
Definition client (id : string) (turns : list turn) : world mem := World (mem_empty 0) 0 turns [id] [].

(** [a] takes two permits and goes on renewing them; [b] takes the third. *)
Definition a_world : world mem := client id_a
  [quiet; quiet; served; quiet; quiet; quiet; quiet;
   first_do [wait Second; Other (ask id_b 1 1000)] quiet].
Definition b_world : world mem := client id_b
  [first_do [Other (ask id_a 2 0); wait Second] quiet; quiet; served; quiet; quiet; quiet; quiet].

Definition a_client : sem_client := SemClient sem id_a 2 1 Background [OWait] a_world.
Definition b_client : sem_client := SemClient sem id_b 1 1 Background [] b_world.

Lemma disjoint_ab t : t ∈ permit_tokens id_b 1 → t ∉ permit_tokens id_a 2.
Proof. by apply permit_tokens_disjoint. Qed.
Lemma disjoint_ba t : t ∈ permit_tokens id_a 2 → t ∉ permit_tokens id_b 1.
Proof. by apply permit_tokens_disjoint. Qed.
Lemma sem_a_world_ok : world_ok (sem_rely 1000 sem id_a 2) a_world.
Proof. solve_sched; right; split; [done|split; [lia|apply disjoint_ab]]. Qed.
Lemma sem_b_world_ok : world_ok (sem_rely 1000 sem id_b 1) b_world.
Proof. solve_sched; right; split; [done|split; [lia|apply disjoint_ba]]. Qed.
(** The others ask for the same capacity. *)
Lemma sem_a_world_same : world_ok (same_capacity "{s}" 3) a_world.
Proof. solve_sched; right; by split. Qed.
Lemma sem_b_world_same : world_ok (same_capacity "{s}" 3) b_world.
Proof. solve_sched; right; by split. Qed.
Lemma sem_start_within : within "{s}" 3 (mem_empty 0) 0.
Proof. exists ∅; split; [done|split; [done|]]. vm_compute; discriminate. Qed.
Lemma sem_start_free id n : sem_free sem id n (mem_empty 0).
Proof. exists ∅; split; [done|split; [done|]]. by intros t _. Qed.

Definition a_run := sem_history sem 1 Background 2 [OWait] a_world.
Definition b_run := sem_history sem 1 Background 1 [] b_world.
Definition final : mem := w_srv a_run.2.

#[local] Instance mem_eq_dec : EqDecision mem.
Proof. solve_decision. Defined.

Lemma holds_intro id n fuel ctx ops w x srv :
  sem_history sem fuel ctx n ops w = x → 1 ≤ n → String.length id = 32%nat → w_tokens w = [id] →
  world_ok (same_capacity "{s}" 3) w → within "{s}" 3 (w_srv w) (w_now w) →
  world_ok (sem_rely 1000 sem id n) w → sem_free sem id n (w_srv w) →
  w_srv x.2 = srv →
  match x.1 with
  | Some h => negb (h_lost h) && negb (bool_decide (overdue h (w_now x.2))) &&
              (Millisecond * 1000 <=? w_now x.2 + (10 * Second) ÷ 100)
  | None => false
  end = true →
  sem_holds 1000 "{s}" 3 srv (SemClient sem id n fuel ctx ops w).
Proof.
  intros E Hn Hid Ht Hsame Hin Hw Hf Hs Hx. destruct x as [[h|] w']; [|done].
  split; [reflexivity|split; [reflexivity|split; [exact Hin|split; [exact Hsame|]]]].
  split; [by split|split; [reflexivity|split; [exact Hn|split; [exact Hid|]]]].
  split; [exists []; exact Ht|split; [exact Hw|split; [exact Hf|]]].
  exists h, w'. apply andb_true_iff in Hx as [[Hl Ho]%andb_true_iff Hb].
  split; [exact E|split; [exact Hs|]]. apply negb_true_iff in Hl, Ho. apply bool_decide_eq_false in Ho.
  split; [exact Hl|split; [exact Ho|by apply Z.leb_le in Hb]].
Qed.

Lemma a_holds : sem_holds 1000 "{s}" 3 final a_client.
Proof.
  apply (holds_intro id_a 2 1 Background [OWait] a_world a_run);
    [exact eq_refl|lia|exact eq_refl|exact eq_refl|apply sem_a_world_same|apply sem_start_within|apply sem_a_world_ok|apply sem_start_free|exact eq_refl|vm_compute; reflexivity].
Qed.
Lemma b_holds : sem_holds 1000 "{s}" 3 final b_client.
Proof.
  apply (holds_intro id_b 1 1 Background [] b_world b_run);
    [exact eq_refl|lia|exact eq_refl|exact eq_refl|apply sem_b_world_same|apply sem_start_within|apply sem_b_world_ok|apply sem_start_free|by_compute|vm_compute; reflexivity].
Qed.

Definition members : gmap string Z :=
  <[id_b +:+ "#0" := 11000]> (zadd_all 10000 (permit_tokens id_a 2) ∅).
Lemma sem_final_zset : is_zset "{s}" members final.
Proof. split; by_compute. Qed.

Lemma semaphore_capacity_witness :
  grants_total (sc_grant <$> [a_client; b_client]) ≤ 3.
Proof.
  apply (semaphore_capacity 1000 "{s}" 3 final); [lia| |by_compute].
  constructor; [apply a_holds|constructor; [apply b_holds|constructor]].
Defined.

Lemma available_counts_witness : (Available sem (World final Second [after 1 1 served] [] [])).1 = inr 0.
Proof.
  destruct (available_counts sem members (World final Second [after 1 1 served] [] []) 1 1 [] eq_refl sem_final_zset)
    as [H _]. rewrite H. vm_compute; reflexivity.
Defined.
End Ex.
