(* ===== verification/Leader.v ===== *)
(** * Leader election

    [leader.go]: acquire the leader lease, run a callback while it is held,
    release it.  The callback runs concurrently with the heartbeat (or
    watchdog) and the deadline timer, and other goroutines may be in [Run] or
    [TryRun] of the same [Leader] value at the same time; what they all do
    while the callback runs is its [cb_during], and what the others do between
    its return and the reset of the shared fields its [cb_after].

    The theorems take the view of one run: of the handles that the field
    [active] may refer to, one is its own, the others are numbered. *)
From S2P Require Import Prelude Redis RedisMem Errors Requests ScriptsSingle GoRuntime Scenario.
From S2P Require Import Lease SingleOwner Keys Backoff Config Renewer Guard GuardSafety.
From S2P Require Import Retry Handout.
Open Scope Z_scope.

Record Leader := {
  le_client : Client;
  le_name : string;
  le_cfg : config;
  le_key : string;
  le_fkey : string;
  le_fencing : bool;
}.

(** [Client.Leader(name, opts...)] *)
Definition NewLeader (c : Client) (name : string) (opts : list Option) : Leader :=
  let cfg := resolved c opts in
  let key := Key name in
  {| le_client := c; le_name := name; le_cfg := cfg; le_key := key; le_fkey := Derived key "fencing";
     le_fencing := cfg_fencing cfg |}.

(** A pointer to a handle, as one run sees it. *)
Inductive pointer := Mine | Theirs (i : nat).

#[export] Instance pointer_eq_dec : EqDecision pointer.
Proof. solve_decision. Defined.

(** [active], with the handle it points to, and [fence]. *)
Record lstate := { ls_active : option (pointer * handle SingleOwner); ls_fence : Z }.
Definition lstate_empty : lstate := {| ls_active := None; ls_fence := 0 |}.

Definition IsLeader (st : lstate) : bool :=
  match ls_active st with Some (_, h) => negb (h_lost h) | None => false end.

Definition FencingToken (st : lstate) : Z :=
  match ls_active st with Some (_, h) => if h_lost h then 0 else ls_fence st | None => 0 end.

(** [l.active == h] *)
Definition is_active (p : pointer) (st : lstate) : bool := bool_decide (fst <$> ls_active st = Some p).

(** The beginning of [runHeld], its deferred reset, and a change of the handle
    that [p] points to. *)
Definition activate (p : pointer) (h : handle SingleOwner) (fence : Z) : lstate :=
  {| ls_active := Some (p, h); ls_fence := fence |}.
Definition deactivate (p : pointer) (st : lstate) : lstate := if is_active p st then lstate_empty else st.
Definition update (p : pointer) (h : handle SingleOwner) (st : lstate) : lstate :=
  if is_active p st then {| ls_active := Some (p, h); ls_fence := ls_fence st |} else st.

(** What another run on the same value does to it: it becomes leader, its
    handle changes, it ends. *)
Inductive share :=
  | Began (i : nat) (h : handle SingleOwner) (fence : Z)
  | Changed (i : nat) (h : handle SingleOwner)
  | Ended (i : nat).

Definition do_share (st : lstate) (x : share) : lstate :=
  match x with
  | Began i h fence => activate (Theirs i) h fence
  | Changed i h => update (Theirs i) h st
  | Ended i => deactivate (Theirs i) st
  end.
Definition do_shares (l : list share) (st : lstate) : lstate := foldl do_share st l.

(** During the callback: operations on its own handle, and the others. *)
Inductive lop := Own (o : hop) | Other_run (x : share).

Record callback := Callback {
  cb_during : list lop;
  cb_result : option error;
  cb_after : list share;
}.

(** A callback that is alone on its [Leader] value. *)
Definition alone (during : list hop) (result : option error) : callback :=
  Callback (Own <$> during) result [].

Section ops.
Context {S : Type} `{!RedisOps S}.
Implicit Types (l : Leader).

Definition leader_lease l : go S SingleOwner :=
  NewSingleOwner (le_key l) (le_fkey l) (cfg_ttl (le_cfg l)) (le_fencing l).

Fixpoint do_lops (l : list lop) (h : handle SingleOwner) (st : lstate) : go S (handle SingleOwner * lstate) :=
  match l with
  | [] => mret (h, st)
  | Own o :: l => '(h, _) ← do_op o h; do_lops l h (update Mine h st)
  | Other_run x :: l => do_lops l h (do_share st x)
  end.

(** [runHeld] up to the callback's return: its handle, and the state that the
    callback sees at its end. *)
Definition lead l (le : SingleOwner) (fence : Z) (during : list lop) : go S (handle SingleOwner * lstate) :=
  h ← monitor (le_cfg l) (newHandle (le_name l) "leader" le);
  do_lops during h (activate Mine h fence).

(** The deferred functions: stop and release, whose error is joined; then the
    reset, if [active] still is this run's handle. *)
Definition step_down (h : handle SingleOwner) (st : lstate) (after : list share) (err : option error) :
    go S (lstate * option error) :=
  h ← stop h;
  '(h, rerr) ← release h;
  let err := match rerr with Some _ => errors_Join [err; rerr] | None => err end in
  mret (deactivate Mine (do_shares after (update Mine h st)), err).

Definition runHeld l (le : SingleOwner) (fence : Z) (cb : callback) : go S (lstate * option error) :=
  '(h, st) ← lead l le fence (cb_during cb);
  let err := if h_lost h then errors_Join [cb_result cb; Some ErrLeadershipLost] else cb_result cb in
  step_down h st (cb_after cb) err.

Definition nil_callback l : error := ErrText ("distsync: leader " +:+ le_name l +:+ ": nil callback").

(** [Run(ctx, fn)] on a value in the state [st]; [fn] is nil when [cb] is
    none. *)
Definition Run l (fuel : nat) (ctx : context) (cb : option callback) (st : lstate) :
    go S (lstate * outcome (option error)) :=
  _ ← emit (SpanStart "distsync.leader.run");
  '(st, o) ←
    match cb with
    | None => mret (st, Granted (Some (nil_callback l)))
    | Some cb =>
        le ← leader_lease l;
        start ← time_now;
        '(le, o) ← retry_loop TryAcquire (mret tt)
      (λ _, mret tt) ("distsync: leader " +:+ le_name l)
          (cfg_retry (le_cfg l)) fuel ctx 0 le;
        match o with
        | Granted fence =>
            _ ← report_acquire "leader" (le_name l) true start;
            '(st, err) ← runHeld l le fence cb;
            mret (st, Granted err)
        | Refused e => mret (st, Granted (Some e))
        | NoFuel => mret (st, NoFuel)
        end
    end;
  _ ← emit (SpanFinish (match o with Granted e => e | _ => None end));
  mret (st, o).

Definition TryRun l (cb : option callback) (st : lstate) : go S (lstate * option error) :=
  _ ← emit (SpanStart "distsync.leader.tryrun");
  '(st, err) ←
    match cb with
    | None => mret (st, Some (nil_callback l))
    | Some cb =>
        le ← leader_lease l;
        '(le, (fence, e)) ← TryAcquire le;
        match e with
        | Some e => mret (st, Some (if errors_Is e ErrBusy then ErrNotAcquired else e))
        | None =>
            _ ← emit (MAcquire "leader" (le_name l) true 0);
            runHeld l le fence cb
        end
    end;
  _ ← emit (SpanFinish err);
  mret (st, err).

(** ** What [Run] returns *)

Definition other_began (x : share) : bool := match x with Began _ _ _ => true | _ => false end.

(** No other run on the same value becomes leader meanwhile. *)
Definition undisturbed (cb : callback) : Prop :=
  Forall (λ o, match o with Other_run x => other_began x = false | Own _ => True end) (cb_during cb) ∧
  Forall (λ x, other_began x = false) (cb_after cb).

Lemma share_mine st x h : other_began x = false → ls_active st = Some (Mine, h) → do_share st x = st.
Proof.
  intros Hx E. destruct x; simpl; [done|..]; unfold update, deactivate, is_active; by rewrite E.
Qed.

Lemma shares_mine xs st h :
  Forall (λ x, other_began x = false) xs → ls_active st = Some (Mine, h) → do_shares xs st = st.
Proof.
  intros Hxs E; induction Hxs as [|x xs Hx _ IH]; [done|]. cbn [do_shares foldl]. by rewrite (share_mine st x h).
Qed.

(** [active] refers to this run's handle only as long as nobody else's
    replaces it, and then to the handle as it is. *)
Definition mine_is (h : handle SingleOwner) (st : lstate) : Prop :=
  ∀ h', ls_active st = Some (Mine, h') → h' = h.

Lemma mine_is_update h st : mine_is h (update Mine h st).
Proof.
  unfold mine_is, update, is_active. intros h'. case_bool_decide as E; simpl; [by intros [= <-]|].
  intros E'. by rewrite E' in E.
Qed.

Lemma mine_is_share h st x : mine_is h st → mine_is h (do_share st x).
Proof.
  unfold mine_is. intros H h'. destruct x; simpl; [done|..]; unfold update, deactivate; case_match; try done; apply H.
Qed.

Lemma do_lops_mine xs h st w :
  mine_is h st →
  let '((h', st'), _) := do_lops xs h st w in
  mine_is h' st' ∧
  (Forall (λ o, match o with Other_run x => other_began x = false | Own _ => True end) xs →
   ls_active st = Some (Mine, h) → ls_active st' = Some (Mine, h')).
Proof.
  revert h st w; induction xs as [|[o|x] xs IH]; intros h st w Hm; cbn [do_lops]; [by split|..].
  - unfold mbind, go_bind. destruct (do_op o h w) as [[h1 e] w1].
    specialize (IH h1 (update Mine h1 st) w1 (mine_is_update h1 st)).
    destruct (do_lops xs h1 _ w1) as [[h' st'] w2]. destruct IH as [IH1 IH2]. split; [done|].
    intros [_ Hxs]%Forall_cons E. apply IH2; [done|]. unfold update, is_active. by rewrite E.
  - specialize (IH h (do_share st x) w (mine_is_share h st x Hm)).
    destruct (do_lops xs h _ w) as [[h' st'] w2]. destruct IH as [IH1 IH2]. split; [done|].
    intros [Hx Hxs]%Forall_cons E. apply IH2; [done|]. by rewrite (share_mine st x h).
Qed.

(** Once another run is active, what it finds does not depend on the handle
    it has replaced. *)
Lemma shares_theirs xs st st' i :
  st = st' ∨ is_active Mine st = true ∧ is_active Mine st' = true →
  is_active (Theirs i) (do_shares xs st) = true → do_shares xs st = do_shares xs st'.
Proof.
  revert st st'; induction xs as [|x xs IH]; intros st st' Hs Ha; cbn [do_shares foldl] in *.
  - destruct Hs as [?|[Hm _]]; [done|]. unfold is_active in *. rewrite bool_decide_eq_true in Hm, Ha. congruence.
  - apply IH; [|exact Ha]. destruct Hs as [->|[H1 H2]]; [by left|].
    destruct x; simpl; [by left|..]; right; unfold update, deactivate, is_active in *;
      rewrite bool_decide_eq_true in H1, H2; rewrite H1, H2; simpl; by rewrite H1, H2.
Qed.

Lemma deactivated p st : is_active p (deactivate p st) = false.
Proof. unfold deactivate. by destruct (is_active p st) eqn:E. Qed.

Lemma shares_swapped xs h st i :
  is_active (Theirs i) (do_shares xs st) = true →
  deactivate Mine (do_shares xs (update Mine h st)) = do_shares xs st.
Proof.
  intros Ha. assert (st = update Mine h st ∨ is_active Mine st = true ∧ is_active Mine (update Mine h st) = true) as Hs.
  { unfold update. destruct (is_active Mine st) eqn:E; [right; by split|by left]. }
  rewrite <- (shares_theirs xs st _ i Hs Ha). unfold deactivate.
  assert (is_active Mine (do_shares xs st) = false) as ->; [|done].
  unfold is_active in *. rewrite bool_decide_eq_true in Ha. by rewrite Ha.
Qed.

(** C29: leadership ends with the callback.  After [runHeld] (and so [Run] and
    [TryRun]) the value does not refer to this run's handle any more.  If
    another run on the same value has become leader meanwhile, its state is
    left as it is; if none has, the value is not leader and has no fencing
    token (and was leader until the end exactly if its handle was not lost).
    The returned error matches [ErrLeadershipLost] when the lease was lost
    before the callback returned, and everything the callback's own error
    matches; it is nil only if the callback returned nil and the lease was not
    lost. *)
Theorem leadership_ends l le fence cb (w : world S) :
  let '((h1, st1), _) := lead l le fence (cb_during cb) w in
  let '((st, err), _) := runHeld l le fence cb w in
  is_active Mine st = false ∧
  (∀ i, is_active (Theirs i) (do_shares (cb_after cb) st1) = true → st = do_shares (cb_after cb) st1) ∧
  (undisturbed cb → IsLeader st1 = negb (h_lost h1) ∧ IsLeader st = false ∧ FencingToken st = 0) ∧
  (h_lost h1 = true → is_error err ErrLeadershipLost = true) ∧
  (∀ t, is_error (cb_result cb) t = true → is_error err t = true) ∧
  (err = None → cb_result cb = None ∧ h_lost h1 = false).
Proof.
  unfold runHeld, mbind, go_bind. destruct (lead l le fence (cb_during cb) w) as [[h st1] w1] eqn:E; simpl.
  assert (undisturbed cb → ls_active st1 = Some (Mine, h)) as Hst.
  { revert E. unfold lead, mbind, go_bind. destruct (monitor _ _ w) as [h0 w0]. intros E [Hd _].
    pose proof (do_lops_mine (cb_during cb) h0 (activate Mine h0 fence) w0) as H. rewrite E in H.
    destruct H as [_ H]; [by intros h' [= <-]|]. by apply H. }
  unfold step_down, mbind, go_bind.
  destruct (stop h w1) as [h1 w2]. destruct (release h1 w2) as [[h2 rerr] w3]; simpl.
  set (err := if h_lost h then errors_Join [cb_result cb; Some ErrLeadershipLost] else cb_result cb).
  assert (∀ t, is_error err t = true → is_error
    (match rerr with Some _ => errors_Join [err; rerr] | None => err end) t = true) as Hj.
  { intros t Ht. destruct rerr; [|done]. rewrite join_is; simpl. by rewrite Ht. }
  split_and!; [apply deactivated|apply shares_swapped| | | |].
  - intros Hu. specialize (Hst Hu). unfold IsLeader, FencingToken at 1. rewrite Hst. split; [done|].
    rewrite (shares_mine (cb_after cb) _ h2); [|apply Hu|unfold update, is_active; by rewrite Hst].
    unfold deactivate, update, is_active. by rewrite Hst.
  - intros Hl; apply Hj. unfold err. rewrite Hl, join_is; simpl. apply orb_true_r.
  - intros t Ht; apply Hj. unfold err. destruct (h_lost h); [|done]. rewrite join_is; simpl. by rewrite Ht.
  - unfold err. destruct rerr as [e|]; [by destruct (h_lost h), (cb_result cb)|].
    destruct (h_lost h); [by destruct (cb_result cb)|]. by intros ->.
Qed.

(** A run that is alone on its value. *)
Lemma lead_alone l le fence during (w : world S) :
  lead l le fence (Own <$> during) w =
  (h ← monitor (le_cfg l) (newHandle (le_name l) "leader" le);
   '(h, _) ← do_ops during h;
   mret (h, activate Mine h fence)) w.
Proof.
  unfold lead, mbind, go_bind. destruct (monitor _ _ w) as [h w1]. revert h w1.
  induction during as [|o during IH]; intros h w1; [done|]. cbn [fmap list_fmap do_lops do_ops].
  unfold mbind, go_bind. destruct (do_op o h w1) as [[h1 e] w2].
  change (update Mine h1 (activate Mine h fence)) with (activate Mine h1 fence). rewrite IH.
  by destruct (do_ops during h1 w2) as [[h2 es] w3].
Qed.
End ops.

(** ** One leader at a time *)
Section spec.
Context {S : Type} `{!RedisOps S, !RedisLaws S}.
Implicit Types (l : Leader).

Definition leader_ok l : Prop := le_key l ≠ le_fkey l ∧ whole_ms (cfg_ttl (le_cfg l)).

Definition the_leader_lease l (id : string) : SingleOwner :=
  {| so_id := id; so_key := le_key l; so_fkey := le_fkey l; so_ttl := cfg_ttl (le_cfg l);
     so_fencing := le_fencing l; so_expiresAt := time_zero |}.

Definition leader_rely l (id : string) : request → Prop := rely (le_key l) (le_fkey l) id.

(** From the attempt to the end of the callback, of a run that is alone on its
    value. *)
Definition leader_history l (during : list hop) : go S (option lstate) :=
  le ← leader_lease l;
  '(le, (fence, e)) ← TryAcquire le;
  match e with
  | Some _ => mret None
  | None => '(_, st) ← lead l le fence (Own <$> during); mret (Some st)
  end.

Lemma lead_triple l id t fence during :
  leader_ok l → monitored (le_cfg l) = true →
  let le := set_expiresAt t (the_leader_lease l id) in
  triple (so_rely le) (so_held le) (lead l le fence (Own <$> during)) (λ x s c,
    x.2 = activate Mine x.1 fence ∧ h_inv (S := S) le true x.1 s c).
Proof.
  intros Hok Hmon le. assert (ll_ok (S := S) le) as Hl by exact Hok.
  enough (triple (so_rely le) (so_held le) (h ← monitor (le_cfg l) (newHandle (le_name l) "leader" le);
      '(h, _) ← do_ops during h; mret (h, activate Mine h fence)) (λ x s c,
    x.2 = activate Mine x.1 fence ∧ h_inv (S := S) le true x.1 s c)) as H.
  { intros w; rewrite lead_alone; apply H. }
  eapply triple_bind.
  { eapply triple_pre; [apply (monitor_triple_of le (le_cfg l) _ Hl), (new_pure le Hl)|].
    intros s c Hh. exact (new_state le Hl _ _ s c Hh). }
  intros h; cbn beta. rewrite Hmon. apply (triple_assume _ (h_pure (S := S) le true h)); [by intros s c [? _]|].
  intros Hp. eapply triple_bind.
  { eapply triple_pre; [apply (do_ops_triple le Hl true during h Hp)|]. by intros s c [_ ?]. }
  intros [h' es]; eapply triple_pre; [apply triple_ret|]. by intros s c [Hi _].
Qed.

Lemma leader_history_spec l id toks n0 during w st w' :
  leader_ok l → monitored (le_cfg l) = true → w_tokens w = id :: toks →
  world_ok (leader_rely l id) w → so_free (the_leader_lease l id) n0 (w_srv w) →
  leader_history l during w = (Some st, w') →
  ∃ h t, ls_active st = Some (Mine, h) ∧
    h_inv (set_expiresAt t (the_leader_lease l id)) true h (w_srv w') (w_now w') ∧
    (le_fencing l = true → ∃ f, ls_fence st = to_uint64 (double_of_Z f) ∧ (f ≤ 2 ^ 53 → n0 < f)).
Proof.
  intros Hok Hmon Ht Hw Hf.
  unfold leader_history, leader_lease, NewSingleOwner, Token, rand_token, mbind, go_bind; simpl. rewrite Ht.
  unfold mret, go_ret. set (w1 := World _ _ _ toks _). fold (the_leader_lease l id).
  set (le := the_leader_lease l id) in *. assert (so_wf le) as Hwf by exact Hok.
  destruct (TryAcquire_triple le Hwf n0 w1 Hw Hf) as [Hw2 H].
  destruct (TryAcquire le w1) as [[le' [fence [e|]]] w2]; simpl in Hw2, H; [done|].
  destruct H as (Heq & Hh & _ & Hfen & _). unfold le in Heq, Hfen; simpl in Hfen.
  rewrite Heq. set (t := so_expiresAt le') in *.
  assert (holds (so_held (set_expiresAt t (the_leader_lease l id))) w2) as Hh2 by (by rewrite Heq in Hh).
  destruct (lead_triple l id t fence during Hok Hmon w2 Hw2 Hh2) as [_ [E1 Hi]].
  destruct (lead l _ fence _ w2) as [[h st'] w3]; simpl in *. subst st'. intros [= <- <-].
  exists h, t; split; [done|split; [done|]]. intros Hfl. destruct (Hfen Hfl) as (f & ? & ? & _).
  exists f; auto.
Qed.

(** C5: at most one leader.  Two replicas run for the same role with different
    owner tokens, under any interference, drift and message loss.  When their
    histories end in the same server state, both being inside their
    callbacks, [IsLeader] is false for one of them or its deadline timer is
    due and has not run.  A leader with fencing carries a token above those
    minted before its attempt. *)
Theorem one_leader l1 l2 id1 id2 toks1 toks2 n1 n2 during1 during2 (w1 w2 : world S) st1 st2 w1' w2' :
  leader_ok l1 → leader_ok l2 → le_key l1 = le_key l2 → id1 ≠ id2 →
  monitored (le_cfg l1) = true → monitored (le_cfg l2) = true →
  w_tokens w1 = id1 :: toks1 → w_tokens w2 = id2 :: toks2 →
  world_ok (leader_rely l1 id1) w1 → world_ok (leader_rely l2 id2) w2 →
  so_free (the_leader_lease l1 id1) n1 (w_srv w1) → so_free (the_leader_lease l2 id2) n2 (w_srv w2) →
  leader_history l1 during1 w1 = (Some st1, w1') →
  leader_history l2 during2 w2 = (Some st2, w2') →
  w_srv w1' = w_srv w2' →
  (IsLeader st1 = false ∨ IsLeader st2 = false ∨
   (∃ h, ls_active st1 = Some (Mine, h) ∧ overdue h (w_now w1')) ∨
   (∃ h, ls_active st2 = Some (Mine, h) ∧ overdue h (w_now w2'))) ∧
  (le_fencing l1 = true → IsLeader st1 = true →
   ∃ f, FencingToken st1 = to_uint64 (double_of_Z f) ∧ (f ≤ 2 ^ 53 → n1 < f)).
Proof.
  intros Hok1 Hok2 Hk Hid Hm1 Hm2 Ht1 Ht2 Hw1 Hw2 Hf1 Hf2 E1 E2 Es.
  destruct (leader_history_spec _ _ _ _ _ _ _ _ Hok1 Hm1 Ht1 Hw1 Hf1 E1) as (h1 & t1 & A1 & I1 & F1).
  destruct (leader_history_spec _ _ _ _ _ _ _ _ Hok2 Hm2 Ht2 Hw2 Hf2 E2) as (h2 & t2 & A2 & I2 & _).
  unfold IsLeader, FencingToken; rewrite A1, A2. split.
  2: { intros Hfl Hl; apply negb_true_iff in Hl; rewrite Hl; auto. }
  destruct (h_lost h1) eqn:L1; [by left|]. destruct (h_lost h2) eqn:L2; [by right; left|].
  destruct (overdue_dec h1 (w_now w1')) as [|O1]; [by right; right; left; exists h1|].
  destruct (overdue_dec h2 (w_now w2')) as [|O2]; [by right; right; right; exists h2|]. exfalso.
  pose proof (owned_if_live (set_expiresAt t1 (the_leader_lease l1 id1)) h1 _ _ Hok1 I1 L1 O1) as (x1 & X1).
  pose proof (owned_if_live (set_expiresAt t2 (the_leader_lease l2 id2)) h2 _ _ Hok2 I2 L2 O2) as (x2 & X2).
  simpl in X1, X2. rewrite Es, Hk in X1. unfold owned in X1, X2. congruence.
Qed.
End spec.

(** ** Examples *)
Module Ex.

Definition lead_a : Leader := NewLeader (New []) "cron" [Fencing].

Lemma lead_a_ok : leader_ok lead_a.
Proof. split; [apply not_eq_sym, Derived_ne|by split]. Qed.

Definition runs : turn := Turn [] [] [] None true 0.
Definition ask (id : string) : request := acquire_request (the_leader_lease lead_a id).
Definition client (id : string) (turns : list turn) : world mem := World (mem_empty 0) 0 turns [id] [].

(** [a] leads, then pauses for eleven seconds while [b] takes over; [a]'s
    deadline timer runs, so that its callback is told. *)
Definition a_world : world mem := client "a"
  [quiet; served; quiet; quiet; quiet;
   first_do [wait (11 * Second); Other (ask "b")] quiet; runs; quiet].
Definition b_world : world mem := client "b"
  [first_do [Other (ask "a"); wait (11 * Second)] quiet; served; quiet; quiet; quiet].

Lemma lead_a_world_ok : world_ok (leader_rely lead_a "a") a_world.
Proof. solve_sched; right; by repeat split. Qed.
Lemma lead_b_world_ok : world_ok (leader_rely lead_a "b") b_world.
Proof. solve_sched; right; by repeat split. Qed.
Lemma lead_start_free id : so_free (the_leader_lease lead_a id) 0 (mem_empty 0).
Proof. split; [done|]. exists 0; split; [done|]. split; [lia|split; [done|by right]]. Qed.

Lemma one_leader_witness :
  ∃ st1 st2 w1 w2,
    leader_history lead_a [OWait; OTimer] a_world = (Some st1, w1) ∧
    leader_history lead_a [] b_world = (Some st2, w2) ∧ IsLeader st1 = false ∧ FencingToken st2 = 2 ∧
    (IsLeader st1 = false ∨ IsLeader st2 = false ∨
     (∃ h, ls_active st1 = Some (Mine, h) ∧ overdue h (w_now w1)) ∨
     (∃ h, ls_active st2 = Some (Mine, h) ∧ overdue h (w_now w2))).
Proof.
  eexists _, _, _, _. split; [vm_compute; reflexivity|split; [vm_compute; reflexivity|]].
  split; [reflexivity|split; [reflexivity|]].
  eapply (one_leader lead_a lead_a "a" "b" [] [] 0 0 [OWait; OTimer] [] a_world b_world _ _ _ _
    lead_a_ok lead_a_ok eq_refl ltac:(discriminate) eq_refl eq_refl eq_refl eq_refl
    lead_a_world_ok lead_b_world_ok (lead_start_free "a") (lead_start_free "b"));
    vm_compute; reflexivity.
Defined.

(** [a] loses its lease in its callback; before that returns, another run on
    the same value becomes leader, and stays so when [a]'s run has ended. *)
Definition second : handle SingleOwner := newHandle "cron" "leader" (the_leader_lease lead_a "c").
Example superseded :
  let cb := Callback [Own OWait; Own OTimer; Other_run (Began 0 second 2)] None [] in
  let '((st, err), _) := runHeld lead_a (set_expiresAt (10 * Second) (the_leader_lease lead_a "a")) 1 cb
    (client "a" [quiet; quiet; first_do [wait (11 * Second)] quiet; runs; quiet; served]) in
  IsLeader st = true ∧ FencingToken st = 2 ∧ is_error err ErrLeadershipLost = true.
Proof. vm_compute. auto. Qed.
End Ex.
