(* ===== verification/Takeover.v ===== *)
(** * The takeover of a lock

    What [Mutex.Lock] and [Leader.Run] are for: when the holder crashes, or
    releases, somebody else gets the lock.  The holder no longer renews, nobody
    else acquires, and the server answers ([Prompt]): then a client that waits
    gets the lock as soon as the old lease has run out, up to one pause of the
    backoff and the time of the calls. *)
From S2P Require Import Prelude Redis RedisMem Errors Requests ScriptsSingle ScriptsRW RWEffect GoRuntime Scenario.
From S2P Require Import Lease SingleOwner SingleSafety Keys Backoff Config Renewer Guard GuardSafety.
From S2P Require Import Retry Handout Prompt Mutex Leader.
Open Scope Z_scope.

(** ** The others leave the lock *)
Section leaving.
Context {S : Type} `{!RedisOps S, !RedisLaws S}.
Implicit Types (l : SingleOwner) (w : world S).

(** The others may release the lock, ask for it to be read, or use other
    keys, but neither acquire nor renew it. *)
Definition leaving l (r : request) : Prop :=
  so_rely l r ∧
  match r with
  | SingleAcquire k _ _ _ _ | SingleRenew k _ _ => k ≠ so_key l
  | RWWriteLock K _ _ _ _ => Writer K ≠ so_key l
  | _ => True
  end.

(** The lock is free, or somebody's until the server's clock shows [X]
    milliseconds at the latest; [n] tokens have been minted. *)
Definition vacating l (n X : Z) (s : S) (c : Z) : Prop :=
  counter (r_view s) (so_fkey l) n ∧
  (r_view s !! so_key l = None ∨
   ∃ t x, t ≠ so_id l ∧ owned (r_view s) (so_key l) t (Some x) ∧ r_clock s ≤ x ≤ X).

Lemma leaving_step l now m r :
  so_key l ≠ so_fkey l → leaving l r →
  let m' := (serve_ref now r m).2 in
  (m' !! so_key l = m !! so_key l ∨ m' !! so_key l = None) ∧ m' !! so_fkey l = m !! so_fkey l.
Proof.
  intros HKF [[[HK HF]|Hriv] Hr]; cbn zeta.
  { rewrite !serve_ref_frame by done; auto. }
  destruct r as [k f t ttl fl|k t ttl|k t| | | |KK t ttl now' wt|KK t ttl now' wt|c| | | |]; simpl in Hriv, Hr; try done.
  - by destruct Hriv.
  - by destruct Hriv.
  - destruct Hriv as (-> & _). destruct (release_lock now (so_key l) m t) as [->|(y & _ & ->)]; [auto|].
    rewrite lookup_delete_eq, lookup_delete_ne by done; auto.
  - by destruct Hriv as (_ & ? & _).
  - destruct Hriv as (HK & <- & <-). destruct (rw_read_lock_step now m KK t ttl now' wt HK) as [-> ->]; auto.
  - destruct c; try done; subst. unfold serve_ref; simpl; unfold ref_get. repeat case_match; simplify_eq/=; auto.
Qed.

Lemma stable_vacating l n X : so_key l ≠ so_fkey l → stable (leaving l) (vacating l n X).
Proof.
  intros HKF; split.
  - intros s c r Hr [Hc Hs]. unfold vacating. rewrite serve_clock, serve_view.
    destruct (leaving_step l (r_clock s) (r_view s) r HKF Hr) as [HK HF].
    split; [unfold counter; by rewrite HF|].
    destruct HK as [HK|HK]; [|by left]. unfold owned; rewrite HK. exact Hs.
  - intros s c dc ds _ [Hc Hs]. split; [rewrite law_tick_view; by apply counter_tick|].
    unfold owned in *; rewrite tick_lookup. destruct Hs as [->|(t & x & Ht & Ho & Hx)]; [by left|].
    rewrite Ho. case_decide as Hlive; [right|by left]. exists t, x; split_and!; [done..| |lia].
    unfold r_clock; rewrite law_tick_time. unfold entry_live in Hlive; simpl in Hlive.
    apply Z.le_ngt; intros Hlt. by rewrite law_expired in Hlive.
Qed.

(** ** One attempt *)

(** The token of the next grant. *)
Definition next_fence l (n : Z) : Z := if so_fencing l then n + 1 else 0.

Lemma fence_value l n :
  0 ≤ n < 2 ^ 53 → to_uint64 (if so_fencing l then double_of_Z (n + 1) else 0) = next_fence l n.
Proof.
  intros Hn; unfold next_fence. destruct (so_fencing l); [|done].
  rewrite double_of_Z_exact by lia. apply to_uint64_id. unfold int64_max; lia.
Qed.

Definition in_range l (s : S) : Prop := in_int64 (r_clock s + Milliseconds (so_ttl l)) = true.

(** What the server answers: a grant, or that the lock is not free yet. *)
Lemma serve_vacating l n X (s : S) c :
  so_wf l → 0 ≤ n < 2 ^ 53 → vacating l n X s c → in_range l s →
  (serve (acquire_request l) s).1 = RInt (if so_fencing l then double_of_Z (n + 1) else 0) ∨
  (serve (acquire_request l) s).1 = RNil ∧ r_clock s ≤ X ∧ vacating l n X (serve (acquire_request l) s).2 c.
Proof.
  intros Hwf Hn [Hc Hs] Hin. destruct Hs as [Hfree|(t & x & Ht & Ho & Hx)].
  - left. by apply (acquire_free l s n Hwf Hc ltac:(unfold int64_max; lia) Hfree Hin).
  - right. pose proof (whole_ms_pos _ (proj2 Hwf)) as Hms. unfold vacating, r_clock.
    rewrite serve_time, serve_reply, serve_view. unfold acquire_request, serve_ref; cbn [request_script request_fuel].
    rewrite (single_acquire_busy (r_clock s) _ _ _ _ _ _ _ _ Ho) by done; cbn [fst snd answer].
    split; [done|split; [unfold r_clock in *; lia|]]. split; [done|]. right; eauto 6.
Qed.

(** An answered attempt is granted, or the lock was still somebody's. *)
Lemma attempt_prompt l n X δ t1 t2 t3 ts w :
  so_wf l → 0 ≤ n < 2 ^ 53 → 2 * δ < so_ttl l - so_ttl l ÷ 100 - Millisecond →
  w_turns w = t1 :: t2 :: t3 :: ts → Forall (prompt (leaving l) δ) [t1; t2; t3] →
  holds (vacating l n X) w → (∀ y, paced (2 * δ) (env w) y → in_range l y.1) →
  (∃ t w', TryAcquire l w = ((set_expiresAt t l, (next_fence l n, None)), w')) ∨
  (∃ x w', TryAcquire l w = ((l, (0, Some ErrBusy)), w') ∧ w_turns w' = t3 :: ts ∧ holds (vacating l n X) w' ∧
     paced (2 * δ) (env w) x ∧ r_clock x.1 ≤ X ∧ paced (2 * δ) (env w) (env w')).
Proof.
  intros Hwf Hn Hδ Ht [P1 [P2 [P3 _]%Forall_cons]%Forall_cons]%Forall_cons Hw Hin.
  pose proof (stable_vacating l n X (proj1 Hwf)) as HI.
  destruct (time_now_prompt (leaving l) _ HI δ t1 _ w Ht P1 Hw) as (w1 & E1 & T1 & I1 & Q1).
  destruct (redis_prompt (leaving l) _ HI δ t2 _ (acquire_request l) w1 T1 P2 I1)
    as (x & w2 & E2 & T2 & Ix & Qx & Qx' & Q2 & HJ).
  assert (paced (2 * δ) (env w) x) as Qwx by (eapply (paced_le (δ + δ)); [lia|by eapply paced_trans]).
  unfold TryAcquire, mbind, go_bind. rewrite E1, E2.
  destruct (serve_vacating l n X x.1 x.2 Hwf Hn Ix (Hin x Qwx)) as [Hr|(Hr & HX & Hv)]; rewrite Hr; simpl.
  - left. destruct (time_now_prompt (leaving l) (λ _ _, True) (stable_pure _ True) δ t3 _ w2 T2 P3 I)
      as (w3 & E3 & _ & _ & Q3).
    rewrite E3. unfold After. unfold paced, env in Q2, Q3; simpl in Q2, Q3.
    rewrite (proj2 (Z.ltb_lt _ _)) by (unfold requestExpiry; lia); simpl. rewrite fence_value by done. eauto.
  - right. exists x, w2. split; [done|split; [exact T2|]]. split; [by apply HJ|].
    split; [done|split; [done|]]. eapply (paced_le (δ + δ)); [lia|by eapply paced_trans].
Qed.

(** ** The loop *)
Context (failed : go S unit) (abandon : SingleOwner → go S unit) (prefix : string).
Context (policy : retryPolicy) (Hpol : policy_ok policy).

(** [due]: by the client's clock the lease has run out at [T]; [spare]: until
    the client's clock shows [E] the server's stays below [H]. *)
Definition due (X T : Z) (x : S * Z) : Prop := 100 * (Millisecond * (X + 1) - r_time x.1) ≤ 99 * (T - x.2).
Definition spare (E H : Z) (x : S * Z) : Prop := 100 * (E - x.2) ≤ 99 * (H - r_time x.1).

Lemma paced_due X T d x y : paced d x y → due X T x → due X T y.
Proof. unfold paced, due; lia. Qed.
Lemma paced_spare E H d x y : paced d x y → spare E H x → spare E H y.
Proof. unfold paced, spare; lia. Qed.

Lemma busy_before X T x : due X T x → r_clock x.1 ≤ X → x.2 < T.
Proof.
  unfold due, r_clock; intros Hd HX. pose proof (UnixMilli_bounds (r_time x.1)). unfold Millisecond in *. lia.
Qed.

Lemma spare_range l E H x y d :
  paced d x y → spare E H x → x.2 + d ≤ E → 0 ≤ r_time x.1 → 0 ≤ Milliseconds (so_ttl l) →
  UnixMilli H + Milliseconds (so_ttl l) ≤ int64_max → in_range l y.1.
Proof.
  unfold paced, spare, in_range, r_clock; intros Hp Hs Hd Ht Hm HH. apply in_int64_spec.
  assert (0 ≤ UnixMilli (r_time y.1) ≤ UnixMilli H) as ?.
  { split; [change 0 with (UnixMilli 0)|]; apply UnixMilli_mono; lia. }
  unfold int64_min; lia.
Qed.

Lemma paced_all X T E H d x y :
  paced d x y → due X T x ∧ spare E H x ∧ 0 ≤ r_time x.1 → due X T y ∧ spare E H y ∧ 0 ≤ r_time y.1.
Proof. unfold paced, due, spare; lia. Qed.

Lemma retry_takes_over l n X δ T E H fuel ctx w :
  so_wf l → 0 ≤ n < 2 ^ 53 → 0 ≤ δ → 2 * δ < so_ttl l - so_ttl l ÷ 100 - Millisecond →
  Forall (prompt (leaving l) δ) (w_turns w) → (4 * fuel ≤ length (w_turns w))%nat →
  holds (vacating l n X) w → due X T (env w) → spare E H (env w) → 0 ≤ r_time (w_srv w) →
  UnixMilli H + Milliseconds (so_ttl l) ≤ int64_max →
  w_now w + 2 * δ ≤ E → T + max_pause policy + 6 * δ ≤ E → (∀ D, ctx_done_at ctx = Some D → E < D) →
  (retries_until policy T (w_now w) ≤ fuel)%nat →
  ∃ t w', retry_loop TryAcquire failed abandon prefix policy fuel ctx 0 l w =
            ((set_expiresAt t l, Granted (next_fence l n)), w').
Proof.
  intros Hwf Hn Hδ Htime HP Hlen HV HD HS H0 HH HE HT HC Hf.
  pose proof (whole_ms_pos _ (proj2 Hwf)) as Hms.
  destruct (retry_within TryAcquire failed abandon prefix policy Hpol (leaving l) δ T E l
    (λ _, vacating l n X) (λ _, stable_vacating l n X (proj1 Hwf))
    (λ _ x, due X T x ∧ spare E H x ∧ 0 ≤ r_time x.1) (λ _ x, due X T x ∧ spare E H x ∧ 0 ≤ r_time x.1)
    (λ _ x y Hx Hp, paced_all X T E H _ x y Hp Hx)
    (λ l' f, (∃ t, l' = set_expiresAt t l) ∧ f = next_fence l n) fuel ctx 0 tt w)
    as (l' & f & w' & -> & [t ->] & ->); [|done..|by eauto].
  intros [] t1 t2 t3 ts w1 Ht1 HP1 HV1 (HD1 & HS1 & H01) HE1.
  destruct (attempt_prompt l n X δ t1 t2 t3 ts w1) as [(t & w' & ->)|(x & w' & -> & T1 & V1 & Qx & HX & Q1)];
    [done..| |left; eexists _, _, _; split; [done|]; eauto|right].
  { intros y Hy. by eapply (spare_range l E H (env w1) y (2 * δ)); [| | | |lia|]. }
  exists 0, ErrBusy, w', tt. do 4 (split; [done|]). split; [by eapply paced_all|].
  pose proof (busy_before X T x (paced_due _ _ _ _ _ Qx HD1) HX) as HxT.
  unfold paced in Qx, Q1; simpl in Qx, Q1. split; lia.
Qed.
End leaving.

(** ** The scene *)
Section scene.
Context {S : Type} `{!RedisOps S, !RedisLaws S}.
Implicit Types (l : SingleOwner) (w : world S) (policy : retryPolicy).

(** The client's time at which the old lease has run out, whatever the drift
    of the clocks, and the time by which the lock is taken over: one more
    pause and eight calls later. *)
Definition free_by (X : Z) w : Z :=
  w_now w + (100 * Z.max 0 (Millisecond * (X + 1) - r_time (w_srv w)) + 98) / 99.
Definition takeover_by policy (δ X : Z) w : Z := free_by X w + max_pause policy + 8 * δ.

(** The lock of [l] was abandoned: nobody renews it or acquires it but the
    client, whose calls take at most [δ], much less than the lease. *)
Record abandoned l policy (δ n X : Z) w : Prop := {
  ab_minted : 0 ≤ n < 2 ^ 53;
  ab_vacating : holds (vacating l n X) w;
  ab_prompt : Forall (prompt (leaving l) δ) (w_turns w);
  ab_short : 2 * δ < so_ttl l - so_ttl l ÷ 100 - Millisecond;
  ab_epoch : 0 ≤ r_time (w_srv w);
  ab_range : UnixMilli (r_time (w_srv w) + 2 * (takeover_by policy δ X w - w_now w)) +
             Milliseconds (so_ttl l) ≤ int64_max;
}.

(** Time for the loop: a context that is not done before the takeover,
    an attempt per pause until the lease has run out, and the turns for it. *)
Record patient policy (δ X : Z) (ctx : context) (fuel : nat) w : Prop := {
  pa_context : ∀ D, ctx_done_at ctx = Some D → takeover_by policy δ X w < D;
  pa_fuel : (retries_until policy (free_by X w) (w_now w) ≤ fuel)%nat;
  pa_turns : (1 + 4 * fuel ≤ length (w_turns w))%nat;
}.

Lemma due_free_by X w : due X (free_by X w) (env w).
Proof.
  unfold due, free_by; simpl. set (r := Z.max 0 (Millisecond * (X + 1) - r_time (w_srv w))).
  assert (Millisecond * (X + 1) - r_time (w_srv w) ≤ r) by lia.
  pose proof (Z.div_mod (100 * r + 98) 99 ltac:(lia)). pose proof (Z.mod_pos_bound (100 * r + 98) 99 ltac:(lia)). lia.
Qed.

Lemma leaving_world_ok l δ w : Forall (prompt (leaving l) δ) (w_turns w) → world_ok (so_rely l) w.
Proof. apply prompt_world_ok. by intros r [? _]. Qed.

Lemma vacating_free l n X (s : S) c : vacating l n X s c → so_free l n s.
Proof.
  intros [Hc Hs]. split; [|by exists n].
  intros x Ho. destruct Hs as [Hs|(t & y & Ht & Hs & _)]; unfold owned in *; congruence.
Qed.

(** After the clock is read, the loop of [Lock] and [Run] gets the lease,
    and the server backs it. *)
Lemma abandoned_taken (failed : go S unit) (abandon : SingleOwner → go S unit) prefix policy
    l δ n X ctx fuel w :
  so_wf l → policy_ok policy → abandoned l policy δ n X w → patient policy δ X ctx fuel w →
  (∀ I, stable (so_rely l) I → triple (so_rely l) I failed (λ _, I)) →
  (∀ l' I, stable (so_rely l) I → triple (so_rely l) I (abandon l') (λ _, I)) →
  let w1 := (time_now w).2 in
  ∃ t w', retry_loop TryAcquire failed abandon prefix policy fuel ctx 0 l w1 =
      ((set_expiresAt t l, Granted (next_fence l n)), w') ∧
    world_ok (so_rely l) w' ∧ holds (so_held (set_expiresAt t l)) w'.
Proof.
  intros Hwf Hpol [Hn HV HP Hs H0 HR] [HC HF HL] Hfail Hab. destruct (w_turns w) as [|t0 ts] eqn:Ht; [simpl in HL; lia|].
  apply Forall_cons in HP as [P0 HP].
  destruct (time_now_prompt (leaving l) _ (stable_vacating l n X (proj1 Hwf)) δ t0 ts w Ht P0 HV)
    as (w1 & -> & T1 & V1 & Q1). cbn [snd].
  pose proof (max_pause_pos policy Hpol) as Hmp. pose proof (min_pause_pos policy Hpol) as Hpp.
  assert (w_now w ≤ w_now w1 ≤ w_now w + δ) as Hw1 by (unfold paced in Q1; simpl in Q1; lia).
  assert (w_now w ≤ free_by X w) as Hfree.
  { unfold free_by. assert (0 ≤ (100 * Z.max 0 (Millisecond * (X + 1) - r_time (w_srv w)) + 98) / 99); [|lia].
    apply Z.div_pos; lia. }
  destruct (retry_takes_over failed abandon prefix policy Hpol l n X δ (free_by X w) (takeover_by policy δ X w)
    (r_time (w_srv w) + 2 * (takeover_by policy δ X w - w_now w)) fuel ctx w1) as (t & w' & E);
    rewrite ?T1; try done; try lia.
  - simpl in HL; lia.
  - eapply paced_due; [exact Q1|apply due_free_by].
  - eapply paced_spare; [exact Q1|]. unfold spare; simpl. unfold takeover_by; lia.
  - unfold paced in Q1; simpl in Q1; lia.
  - unfold takeover_by; lia.
  - unfold takeover_by; lia.
  - etransitivity; [apply (retries_later policy _ (w_now w)); [done|lia]|exact HF].
  - exists t, w'. split; [done|].
    pose proof (leaving_world_ok l δ w1 ltac:(by rewrite T1)) as Hok.
    destruct (retry_triple TryAcquire failed abandon prefix policy (so_rely l)
      (λ l' s _, l' = l ∧ so_free l n s) (λ l' _ s c, so_held l' s c) fuel ctx 0 l) with w1 as [Hok' H]; try done.
    + intros l'; apply stable_and; [apply stable_pure|by apply stable_so_free, Hwf].
    + apply Hfail, stable_pure.
    + intros l'; apply Hab, stable_pure.
    + intros l'. apply (triple_assume _ (l' = l)); [by intros s c [? _]|]. intros ->.
      eapply triple_conseq; [apply (TryAcquire_triple l Hwf n)|by intros s c [_ ?]|].
      intros [l'' [f [e|]]] s c; simpl; [|by intros (_ & ? & _)].
      destruct (errors_Is e ErrBusy) eqn:Ee; [|done]. by destruct e; try (by intros ?; congruence).
    + split; [done|exact (vacating_free l n X _ (w_now w1) V1)].
    + rewrite E in *; simpl in *. by split.
Qed.
End scene.

(** ** The takeover *)
Section takeover.
Context {S : Type} `{!RedisOps S, !RedisLaws S}.
Implicit Types (m : Mutex) (l : Leader) (w : world S).

(** The world once the token has been drawn and the span started. *)
Definition drawn (span : string) (toks : list string) w : world S :=
  World (w_srv w) (w_now w) (w_turns w) toks (SpanStart span :: w_log w).

Lemma drawn_abandoned (le : SingleOwner) policy δ n X span toks w :
  abandoned le policy δ n X w → abandoned le policy δ n X (drawn span toks w).
Proof. by intros []. Qed.
Lemma drawn_patient policy δ X ctx fuel span toks w :
  patient policy δ X ctx fuel w → patient policy δ X ctx fuel (drawn span toks w).
Proof. by intros []. Qed.

(** C15: an abandoned lock is taken over.  Its holder has crashed, or
    releases it some time; nobody else acquires it; the server answers and
    the clocks drift by at most 1%.  Then [Lock] returns a guard whenever its
    context is not done before the old lease has run out, plus the longest
    pause of the backoff and the time of eight calls.  The guard is the
    mutex's new holder, has the next fencing token and a lease that the
    server backs. *)
Theorem lock_takes_over m id toks δ n X fuel ctx st w :
  mutex_ok m → policy_ok (cfg_retry (m_cfg m)) → w_tokens w = id :: toks →
  abandoned (the_lease m id) (cfg_retry (m_cfg m)) δ n X w →
  patient (cfg_retry (m_cfg m)) δ X ctx fuel w →
  let '((st', o), w') := Mutex.Lock m fuel ctx st w in
  ∃ g, o = Granted (length (ms_guards st)) ∧ ms_holder st' = Some (length (ms_guards st)) ∧
    ms_guards st' = ms_guards st ++ [g] ∧ g_fencing g = n + 1 ∧ guard_inv m id g (w_srv w') (w_now w').
Proof.
  intros Hok Hpol Ht Hab Hpa.
  pose proof (leaving_world_ok _ _ _ (ab_prompt _ _ _ _ _ _ Hab)) as Hw.
  assert (lock_free m id n (w_srv w)) as Hf.
  { exact (vacating_free (the_lease m id) n X _ (w_now w) (ab_vacating _ _ _ _ _ _ Hab)). }
  pose proof (Lock_spec m id toks n fuel ctx st w Hok Ht Hw Hf) as Hspec.
  revert Hspec. unfold Mutex.Lock, lock_with, mbind, go_bind, emit. rewrite (newLease_run m id toks) by exact Ht.
  cbn [w_srv w_now w_turns w_tokens w_log]. fold (drawn "distsync.mutex.lock" toks w).
  pose proof (λ failed abandon prefix, abandoned_taken failed abandon prefix (cfg_retry (m_cfg m)) (the_lease m id) δ n X
    ctx fuel _ Hok Hpol (drawn_abandoned _ _ _ _ _ "distsync.mutex.lock" toks _ Hab)
    (drawn_patient _ _ _ _ _ "distsync.mutex.lock" toks _ Hpa)) as H.
  destruct (time_now (drawn _ toks w)) as [start w1]; cbn [snd] in H.
  destruct (H (report_acquire "mutex" (m_name m) false start) (λ _, report_acquire "mutex" (m_name m) false start)
    ("distsync: lock " +:+ m_name m)) as (t & w2 & -> & _);
    [intros; by apply report_keep|intros; by apply report_keep|]. cbn [next_fence so_fencing the_lease].
  unfold guard, mbind, go_bind. destruct (monitor _ _ w2) as [h w3]. unfold setHolder; simpl.
  destruct (report_acquire _ _ _ _ w3) as [[] w4]; simpl. intros [_ (_ & _ & g & Hg & Hi & _)].
  apply app_inj_tail in Hg as [_ <-]. eexists; split_and!; [done..|exact Hi].
Qed.

(** C16: failover.  When the leader of a role has crashed or steps down, and
    the server answers, a replica that is in [Run] becomes leader: it runs its
    callback with the next fencing token (zero without fencing) and a lease
    that the server backs, unless its context is done before the time given
    in [takeover_by]; what [Run] returns is what [runHeld] makes of the
    callback's result. *)
Theorem failover l id toks δ n X fuel ctx cb st0 w :
  leader_ok l → policy_ok (cfg_retry (le_cfg l)) → w_tokens w = id :: toks →
  abandoned (the_leader_lease l id) (cfg_retry (le_cfg l)) δ n X w →
  patient (cfg_retry (le_cfg l)) δ X ctx fuel w →
  ∃ t (w1 : world S), let le := set_expiresAt t (the_leader_lease l id) in
    holds (so_held le) w1 ∧
    Run l fuel ctx (Some cb) st0 w =
      (let '((st, err), w2) := runHeld l le (next_fence le n) cb w1 in
       ((st, Granted err), (emit (SpanFinish err) w2).2)).
Proof.
  intros Hok Hpol Ht Hab Hpa.
  unfold Run, leader_lease, NewSingleOwner, Token, rand_token, mbind, go_bind, emit; simpl. rewrite Ht.
  unfold mret, go_ret; cbn [w_srv w_now w_turns w_tokens w_log]. fold (the_leader_lease l id).
  fold (drawn "distsync.leader.run" toks w).
  pose proof (λ failed abandon prefix, abandoned_taken failed abandon prefix (cfg_retry (le_cfg l))
    (the_leader_lease l id) δ n X ctx fuel _ Hok Hpol
    (drawn_abandoned _ _ _ _ _ "distsync.leader.run" toks _ Hab)
    (drawn_patient _ _ _ _ _ "distsync.leader.run" toks _ Hpa)) as H.
  destruct (time_now (drawn _ toks w)) as [start w1]; cbn [snd] in H.
  destruct (H (mret tt) (λ _, mret tt) ("distsync: leader " +:+ le_name l)) as (t & w2 & E & Hw2 & Hh);
    [intros; apply triple_keep|intros; apply triple_keep|].
  unfold mret, go_ret in E; rewrite E; clear E H.
  destruct (report_keep (so_rely (the_leader_lease l id)) (so_held (set_expiresAt t (the_leader_lease l id)))
    "leader" (le_name l) true start (stable_so_held (set_expiresAt t (the_leader_lease l id)) (proj1 Hok)) w2 Hw2 Hh) as [_ Hh3].
  destruct (report_acquire _ _ _ _ w2) as [[] w3]; cbn [snd] in Hh3.
  exists t, w3. split; [exact Hh3|]. by destruct (runHeld _ _ _ _ w3) as [[st err] w4].
Qed.
End takeover.

(** ** Examples: [b] has crashed with half a second of its lease left *)
Module Ex.

(** Every call takes three milliseconds. *)
Definition steady : turn := Turn [wait Millisecond] [[wait Millisecond]] [wait Millisecond] None false 0.
Definition turns : list turn := replicate 100 steady.
Definition patience : context := Ctx (Some (5 * Second)) ErrDeadlineExceeded.

Lemma steady_prompt R : prompt R (3 * Millisecond) steady.
Proof.
  split; [done|]. split; [|by vm_compute]. unfold good_steps; simpl.
  rewrite !Forall_cons. unfold step_ok, drift_ok, keeps_up; simpl. by split_and!.
Qed.
Lemma turns_prompt R : Forall (prompt R (3 * Millisecond)) turns.
Proof. apply Forall_replicate, steady_prompt. Qed.

Definition half_left (r : request) : mem := r_tick (9500 * Millisecond) (serve r (mem_empty 0)).2.

Definition mu_world : world mem := World (half_left (Mutex.Ex.ask "b")) 0 turns ["a"] [].

Lemma mu_abandoned :
  abandoned (the_lease Mutex.Ex.mu "a") (cfg_retry (m_cfg Mutex.Ex.mu)) (3 * Millisecond) 1 10000 mu_world.
Proof.
  split; [lia| |apply turns_prompt|by vm_compute|by vm_compute|by vm_compute].
  split; [split; [lia|split; [done|left; reflexivity]]|].
  right; exists "b", 10000; split; [discriminate|split; [reflexivity|by vm_compute]].
Qed.
Lemma mu_patient : patient (cfg_retry (m_cfg Mutex.Ex.mu)) (3 * Millisecond) 10000 patience 24 mu_world.
Proof. split; [intros D [= <-]; by vm_compute|vm_compute; lia|vm_compute; lia]. Qed.

Lemma lock_takes_over_witness :
  ∃ g, (Mutex.Lock Mutex.Ex.mu 24 patience mstate_empty mu_world).1.2 = Granted 0%nat ∧
    ms_guards (Mutex.Lock Mutex.Ex.mu 24 patience mstate_empty mu_world).1.1 = [g] ∧ g_fencing g = 2.
Proof.
  pose proof (lock_takes_over Mutex.Ex.mu "a" [] (3 * Millisecond) 1 10000 24 patience mstate_empty mu_world
    Mutex.Ex.mu_ok ltac:(repeat split; by vm_compute) eq_refl mu_abandoned mu_patient) as H.
  destruct (Mutex.Lock _ _ _ _ mu_world) as [[st o] w']. destruct H as (g & Ho & _ & Hg & Hf & _).
  exists g. split; [exact Ho|split; [exact Hg|exact Hf]].
Defined.

(** The same for a role: the surviving replica's callback is told a larger
    fencing token, works for a second, and returns. *)
Definition role_world : world mem := World (half_left (Leader.Ex.ask "b")) 0 turns ["a"] [].

Lemma role_abandoned :
  abandoned (the_leader_lease Leader.Ex.lead_a "a") (cfg_retry (le_cfg Leader.Ex.lead_a)) (3 * Millisecond) 1 10000
    role_world.
Proof.
  split; [lia| |apply turns_prompt|by vm_compute|by vm_compute|by vm_compute].
  split; [split; [lia|split; [done|left; reflexivity]]|].
  right; exists "b", 10000; split; [discriminate|split; [reflexivity|by vm_compute]].
Qed.
Lemma role_patient : patient (cfg_retry (le_cfg Leader.Ex.lead_a)) (3 * Millisecond) 10000 patience 24 role_world.
Proof. split; [intros D [= <-]; by vm_compute|vm_compute; lia|vm_compute; lia]. Qed.

Lemma failover_witness :
  ∃ t (w1 : world mem), let le := set_expiresAt t (the_leader_lease Leader.Ex.lead_a "a") in
    so_held le (w_srv w1) (w_now w1) ∧
    (Run Leader.Ex.lead_a 24 patience (Some (alone [OWait; ORenew] None)) lstate_empty role_world).1 =
    ((runHeld Leader.Ex.lead_a le 2 (alone [OWait; ORenew] None) w1).1.1,
     Granted (runHeld Leader.Ex.lead_a le 2 (alone [OWait; ORenew] None) w1).1.2).
Proof.
  destruct (failover Leader.Ex.lead_a "a" [] (3 * Millisecond) 1 10000 24 patience (alone [OWait; ORenew] None) lstate_empty role_world
    Leader.Ex.lead_a_ok ltac:(repeat split; by vm_compute) eq_refl role_abandoned role_patient) as (t & w1 & Hh & E).
  exists t, w1. split; [exact Hh|]. rewrite E. cbn [next_fence so_fencing].
  change (next_fence (set_expiresAt t (the_leader_lease Leader.Ex.lead_a "a")) 1) with 2.
  by destruct (runHeld _ _ _ _ w1) as [[st err] w2].
Defined.
End Ex.
