(* ===== verification/Admission.v ===== *)
(** * The admission to a semaphore

    What [Semaphore.Acquire] is for: a client that waits gets its permits once
    the others leave it room.  Unlike a lock, a semaphore is not left by
    everybody: the others may go on renewing, releasing and acquiring again a
    set [Stay] of permits that leaves room for the request; every other permit
    is released or runs out.  Then, on responsive schedules ([Prompt]), the
    client is admitted within one pause of the backoff of the time at which
    the last of them has run out by its own clock, which is the clock that the
    purge of the set goes by. *)
From S2P Require Import Prelude Redis RedisMem Errors Requests ScriptsSem GoRuntime Scenario.
From S2P Require Import Lease PermitSet PermitSafety Keys Backoff Config Renewer Guard GuardSafety.
From S2P Require Import Retry Handout Prompt Semaphore.
Open Scope Z_scope.

(** ** The others leave room *)
Section ebbing.
Context {S : Type} `{!RedisOps S, !RedisLaws S}.
Context (k : string) (T : list string) (Stay : gset string) (Y : Z).

(** None of [T] is in the set, and what does not stay expires by [Y]. *)
Definition ebbing (z : gmap string Z) : Prop :=
  none_in T z ∧ ∀ t sc, z !! t = Some sc → t ∈ Stay ∨ sc ≤ Y.

Definition leaving_room (B : Z) (r : request) : Prop :=
  permit_rely k T B r ∧ (k ∈ request_keys r → ∀ t, t ∈ added r → t ∈ Stay).

Lemma zalive_ebbing now z : ebbing z → ebbing (zalive now z).
Proof.
  intros [Hn Hz]; split; [by apply zalive_none|]. intros t sc [Ht _]%lookup_zalive; eauto.
Qed.

Lemma stable_ebbing B : stable (leaving_room B) (λ s _, zset_with k ebbing s).
Proof.
  split; [|intros; by apply zset_with_tick].
  intros s c r [Hr Hadd]; apply (permit_rely_added k T B); [done|..].
  - intros now z _; apply zalive_ebbing.
  - intros sc z Hk Hd [Hn Hz]; split.
    { intros t Ht. destruct (others_keep T _ sc z t Hd Ht) as [-> _]; auto. }
    intros t sc'. rewrite lookup_zadd_all. case_decide as Ht; [left; by apply Hadd|eauto].
  - intros ts z Hd [Hn Hz]; split.
    { intros t Ht. destruct (others_keep T _ 0 z t Hd Ht) as [_ ->]; auto. }
    intros t sc. rewrite zrem_all_lookup. case_decide; [done|eauto].
Qed.

(** From the stamp [Y] on, a purge leaves only what stays. *)
Lemma ebbed now z : ebbing z → Y ≤ now → (size (zalive now z) ≤ size Stay)%nat.
Proof.
  intros [_ Hz] Hnow. rewrite <- (size_dom (D := gset string)). apply subseteq_size.
  intros t [sc [Ht Hs]%lookup_zalive]%elem_of_dom. destruct (Hz t sc Ht) as [?|?]; [done|lia].
Qed.

Lemma room_world_ok B δ (w : world S) :
  Forall (prompt (leaving_room B) δ) (w_turns w) → world_ok (permit_rely k T B) w.
Proof. apply prompt_world_ok. by intros r [? _]. Qed.
End ebbing.

(** ** One attempt *)
Section attempt.
Context {S : Type} `{!RedisOps S, !RedisLaws S}.
Context (p : PermitSet) (n : Z) (Stay : gset string) (Y B : Z).
Context (Hn : 1 ≤ n) (Hroom : Z.of_nat (size Stay) + n ≤ ps_capacity p).
Implicit Types (w : world S).

Let T := permit_tokens (ps_id p) n.
Let R := leaving_room (ps_key p) T Stay B.
Let waits := λ (s : S) (_ : Z), zset_with (ps_key p) (ebbing T Stay Y) s.

(** What the server answers to an attempt stamped with [now]. *)
Lemma serve_ebbing (s : S) c now :
  waits s c →
  let x := serve (SemAcquire (ps_key p) now (Milliseconds (ps_ttl p)) (ps_capacity p) T) s in
  (∃ m, x.1 = RInt m) ∨ x.1 = RNil ∧ now < Y ∧ waits x.2 c.
Proof.
  intros (z & Hz & Hx & He); cbn zeta. pose proof He as [Hnone _].
  destruct (serve_new_permits p n z s now Hn (conj Hz Hx) Hnone) as [Hr Hz']. fold T in Hr, Hz'.
  unfold fits in *. destruct (Z.leb_spec (Z.of_nat (size (zalive now z)) + n) (ps_capacity p)) as [|Hfull]; [left; eauto|].
  right. split; [done|]. split.
  - apply Z.lt_nge; intros Hge. pose proof (ebbed T Stay Y now z He Hge). lia.
  - destruct Hz' as [? ?]. eexists; split; [done|split; [done|by apply zalive_ebbing]].
Qed.

Lemma try_prompt δ t1 t2 t3 ts w :
  2 * δ < ps_ttl p - ps_ttl p ÷ 100 - Millisecond →
  w_turns w = t1 :: t2 :: t3 :: ts → Forall (prompt R δ) [t1; t2; t3] → holds waits w →
  (∃ t w', try_n n p w = ((set_grant T true t p, (tt, None)), w')) ∨
  (∃ w', try_n n p w = ((p, (tt, Some ErrBusy)), w') ∧ w_turns w' = t3 :: ts ∧ holds waits w' ∧
     w_now w < Millisecond * Y ∧ paced (2 * δ) (env w) (env w')).
Proof.
  intros Hδ Ht [P1 [P2 [P3 _]%Forall_cons]%Forall_cons]%Forall_cons Hw.
  pose proof (stable_ebbing (S := S) (ps_key p) T Stay Y B) as HI.
  destruct (time_now_prompt R _ HI δ t1 _ w Ht P1 Hw) as (w1 & E1 & T1 & I1 & Q1).
  destruct (redis_prompt R _ HI δ t2 _ (SemAcquire (ps_key p) (UnixMilli (w_now w1)) (Milliseconds (ps_ttl p))
    (ps_capacity p) T) w1 T1 P2 I1) as (x & w2 & E2 & T2 & Ix & Qx & Qx' & Q2 & HJ).
  unfold try_n, TryAcquire, mbind, go_bind. rewrite E1, (proj2 (Z.ltb_ge n 1)) by lia.
  fold T; rewrite E2.
  destruct (serve_ebbing x.1 x.2 (UnixMilli (w_now w1)) Ix) as [[m Hr]|(Hr & HY & Hv)]; rewrite Hr; simpl.
  - left. destruct (time_now_prompt R (λ _ _, True) (stable_pure _ True) δ t3 _ w2 T2 P3 I) as (w3 & E3 & _ & _ & Q3).
    rewrite E3. unfold After. unfold paced, env in Q2, Q3; simpl in Q2, Q3.
    rewrite (proj2 (Z.ltb_lt _ _)) by (unfold requestExpiry; lia); simpl. by eexists _, _.
  - right. exists w2. split; [done|split; [exact T2|]]. split; [by apply HJ|]. split.
    + pose proof (UnixMilli_bounds (w_now w1)). unfold paced in Q1; simpl in Q1. unfold Millisecond in *; lia.
    + eapply (paced_le (δ + δ)); [lia|by eapply paced_trans].
Qed.
End attempt.

(** ** The admission *)
Section admission.
Context {S : Type} `{!RedisOps S, !RedisLaws S}.
Implicit Types (s : Semaphore) (w : world S).

(** When the last permit that does not stay has run out, and the time by
    which the client is admitted. *)
Definition room_by (Y : Z) w : Z := Z.max (w_now w) (Millisecond * Y).
Definition admitted_by (policy : retryPolicy) (δ Y : Z) w : Z := room_by Y w + max_pause policy + 8 * δ.

(** The others leave room for [n] permits of [id], and calls take at most
    [δ], much less than the lease. *)
Record making_room s (id : string) (n : Z) (Stay : gset string) (Y B δ : Z) w : Prop := {
  mr_count : 1 ≤ n;
  mr_room : Z.of_nat (size Stay) + n ≤ s_capacity s;
  mr_set : zset_with (s_key s) (ebbing (permit_tokens id n) Stay Y) (w_srv w);
  mr_prompt : Forall (prompt (leaving_room (s_key s) (permit_tokens id n) Stay B) δ) (w_turns w);
  mr_short : 2 * δ < cfg_ttl (s_cfg s) - cfg_ttl (s_cfg s) ÷ 100 - Millisecond;
}.

Record waiting s (δ Y : Z) (ctx : context) (fuel : nat) w : Prop := {
  wa_context : ∀ D, ctx_done_at ctx = Some D → admitted_by (cfg_retry (s_cfg s)) δ Y w < D;
  wa_fuel : (retries_until (cfg_retry (s_cfg s)) (room_by Y w) (w_now w) ≤ fuel)%nat;
  wa_turns : (1 + 4 * fuel ≤ length (w_turns w))%nat;
}.

Lemma acquire_admitted s id n Stay Y B δ fuel ctx w :
  sem_ok s → policy_ok (cfg_retry (s_cfg s)) →
  making_room s id n Stay Y B δ w → waiting s δ Y ctx fuel w →
  ∃ p, (acquire_with s fuel ctx n (new_set s id) w).1 = Granted p.
Proof.
  intros Hok Hpol [Hn Hroom HS HP Hs] [HC HF HL]. unfold acquire_with, mbind at 1, go_bind at 1.
  destruct (w_turns w) as [|t0 ts] eqn:Ht; [simpl in HL; lia|]. apply Forall_cons in HP as [P0 HP].
  destruct (time_now_prompt _ _ (stable_ebbing (s_key s) (permit_tokens id n) Stay Y B) δ t0 ts w Ht P0 HS)
    as (w1 & -> & T1 & V1 & Q1).
  assert (w_now w ≤ w_now w1 ≤ w_now w + δ) as Hw1 by (unfold paced in Q1; simpl in Q1; lia).
  pose proof (max_pause_pos _ Hpol) as Hmp. pose proof (min_pause_pos _ Hpol) as Hpp.
  unfold mbind at 1, go_bind at 1.
  destruct (retry_within (try_n n) (report_acquire "semaphore" (s_name s) false (w_now w1))
    (λ _, report_acquire "semaphore" (s_name s) false (w_now w1)) ("distsync: semaphore " +:+ s_name s)
    (cfg_retry (s_cfg s)) Hpol _ δ (room_by Y w) (admitted_by (cfg_retry (s_cfg s)) δ Y w) (new_set s id)
    (λ _ : unit, λ srv _, zset_with (s_key s) (ebbing (permit_tokens id n) Stay Y) srv)
    (λ _, stable_ebbing _ _ _ _ B) (λ _ _, True) (λ _ _, True) ltac:(done) (λ _ _, True) fuel ctx 0 tt w1)
    as (l & [] & w2 & -> & _); rewrite ?T1; unfold admitted_by, room_by in *; try done; try lia.
  - intros m t1 t2 t3 ts' w3 HT3 HP3 HW3 _ _.
    destruct (try_prompt (new_set s id) n Stay Y B Hn Hroom δ t1 t2 t3 ts' w3 Hs HT3 HP3 HW3)
      as [(t & w' & ->)|(w' & -> & ? & ? & ? & ?)]; [left; by eexists _, _, _|right].
    eexists _, _, _, tt; split; [done|]. split_and!; [done..|lia| |]; unfold paced, env in *; simpl in *; lia.
  - simpl in HL; lia.
  - etransitivity; [apply (retries_later (cfg_retry (s_cfg s)) _ (w_now w)); [done|lia]|exact HF].
  - unfold mbind, go_bind. destruct (permit s l n w2) as [p w3]. destruct (report_acquire _ _ _ _ w3) as [[] w4].
    by exists p.
Qed.

(** C17: a semaphore admits a client that waits.  The others may go on using
    the permits in [Stay], renewing and acquiring them again, as long as these
    leave room for the request; every other permit is released or runs out by
    [Y].  Then [Acquire] returns a permit of [n] whenever its context is not
    done before that time, plus the longest pause of the backoff and the time
    of eight calls, and the server backs all [n] of its members. *)
Theorem semaphore_admits s id toks n Stay Y B δ fuel ctx w :
  sem_ok s → policy_ok (cfg_retry (s_cfg s)) → w_tokens w = id :: toks →
  making_room s id n Stay Y B δ w → waiting s δ Y ctx fuel w →
  let '(o, w') := sem_Acquire s fuel ctx n w in
  ∃ p, o = Granted p ∧ p_n p = n ∧ permit_inv B s id n (p_handle p) (w_srv w') (w_now w').
Proof.
  intros Hok Hpol Ht Hmr Hwa. pose proof (mr_count _ _ _ _ _ _ _ _ Hmr) as Hn.
  unfold sem_Acquire. rewrite (proj2 (Z.ltb_ge n 1)) by lia.
  unfold mbind, go_bind, emit, NewPermitSet, Token, rand_token, mbind, go_bind; simpl. rewrite Ht.
  unfold mret, go_ret. set (w1 := World _ _ _ toks _). fold (new_set s id).
  assert (making_room s id n Stay Y B δ w1) as Hmr1 by (by destruct Hmr).
  assert (waiting s δ Y ctx fuel w1) as Hwa1 by (by destruct Hwa).
  destruct (acquire_admitted s id n Stay Y B δ fuel ctx w1 Hok Hpol Hmr1 Hwa1) as [p Hp].
  assert (sem_free s id n (w_srv w1)) as Hf.
  { destruct (mr_set _ _ _ _ _ _ _ _ Hmr1) as (z & ? & ? & [? _]). by exists z. }
  destruct (sem_acquire_with_triple B s id n fuel ctx Hok Hn w1
    (room_world_ok _ _ _ B δ w1 (mr_prompt _ _ _ _ _ _ _ _ Hmr1)) Hf) as [_ H].
  destruct (acquire_with s fuel ctx n (new_set s id) w1) as [o w2]; simpl in Hp, H; subst o.
  destruct H as [Hi Hpn]. by exists p.
Qed.
End admission.

(** ** Example: [a] has crashed with half a second of its two permits left;
    [b] stays and renews the third *)
Module Ex.
Import Semaphore.Ex.

Definition id_c : string := "cccccccccccccccccccccccccccccccc".
Definition stay : gset string := {[ id_b +:+ "#0" ]}.

(** Every call takes three milliseconds; [b] renews during the first. *)
Definition steady : turn := Turn [wait Millisecond] [[wait Millisecond]] [wait Millisecond] None false 0.
Definition b_renews : turn :=
  first_do [Other (SemRenew "{s}" 9500 10000 (permit_tokens id_b 1))] steady.
Definition c_world : world mem :=
  World (r_tick (8500 * Millisecond) final) (9500 * Millisecond) (b_renews :: replicate 100 steady) [id_c] [].
Definition patience : context := Ctx (Some (15 * Second)) ErrDeadlineExceeded.

Lemma adm_prompt R : (∀ r, Other r ∈ t_before b_renews → R r) → Forall (prompt R (3 * Millisecond)) (w_turns c_world).
Proof.
  intros HR. assert (Forall keeps_up [wait Millisecond]) as Hk by (repeat constructor; vm_compute; discriminate).
  apply Forall_cons_2; [|apply Forall_replicate]; (split; [done|]; split; [|by vm_compute]);
    unfold good_steps; simpl; rewrite !Forall_cons; unfold step_ok, drift_ok, keeps_up; simpl; split_and!; try done.
  apply HR; by left.
Qed.

Lemma adm_making_room : making_room sem id_c 2 stay 10000 20000 (3 * Millisecond) c_world.
Proof.
  split; [lia|by vm_compute| | |by vm_compute].
  - destruct (is_zset_tick _ _ _ (8500 * Millisecond) sem_final_zset) as [Hz Hx].
    exists members; split; [exact Hz|split; [exact Hx|]]. split; [apply PermitSafety.Ex.members_no_c|].
    intros t sc. unfold members. destruct (decide (t = id_b +:+ "#0")) as [->|]; [by left; set_solver|].
    rewrite lookup_insert_ne, lookup_zadd_all by done. case_decide; [|done]. intros [= <-]; right; lia.
  - apply adm_prompt. intros r Hr. assert (r = SemRenew "{s}" 9500 10000 (permit_tokens id_b 1)) as ->.
    { apply elem_of_cons in Hr as [[= ->]|Hr]; [done|]. by apply list_elem_of_singleton in Hr. }
    split; [right; split; [done|]; intros t Ht; by apply (permit_tokens_disjoint id_b id_c 1 2)|].
    intros _ t Ht. apply list_elem_of_fmap in Ht as (i & -> & Hi). apply elem_of_seq in Hi.
    assert (i = 0%nat) as -> by lia. set_solver.
Qed.

Lemma adm_waiting : waiting sem (3 * Millisecond) 10000 patience 24 c_world.
Proof. split; [intros D [= <-]; by vm_compute|vm_compute; lia|vm_compute; lia]. Qed.

Lemma semaphore_admits_witness :
  ∃ p, (sem_Acquire sem 24 patience 2 c_world).1 = Granted p ∧ p_n p = 2.
Proof.
  pose proof (semaphore_admits sem id_c [] 2 stay 10000 20000 (3 * Millisecond) 24 patience c_world
    ltac:(by split) ltac:(repeat split; by vm_compute) eq_refl adm_making_room adm_waiting) as H.
  destruct (sem_Acquire _ _ _ _ c_world) as [o w']. destruct H as (p & Ho & Hn & _).
  exists p. split; [exact Ho|exact Hn].
Defined.
End Ex.
