(* ===== verification/RWTurn.v ===== *)
(** * The writer's turn

    [RWMutex.Lock] under contention: a writer that waits gets the lock although
    others keep coming.  Those who hold the lock, or were in the queue before
    the writer, leave or crash; but there is no need for a gap between the
    others: any number of readers and writers may come after it, try as often
    as they like, and stay.  On responsive schedules ([Prompt]) the writer gets
    the lock within one pause of the backoff of the time at which the old
    leases have run out and the old contenders have been silent for the
    timeout of the queue. *)
From S2P Require Import Prelude Redis RedisMem Errors Requests ScriptsSingle ScriptsRW RWLock RWMachine.
From S2P Require Import GoRuntime RWFair RWLine Scenario Lease SingleOwner SingleSafety Keys Backoff Config Renewer.
From S2P Require Import Guard GuardSafety RWWriter RWReader Retry Handout Prompt Mutex RWMutex Takeover.
Open Scope Z_scope.

(** ** The line at the server *)
Section turn.
Context {S : Type} `{!RedisOps S, !RedisLaws S}.
Context (w : RWWriter) (Old : gset string) (X Y V L f : Z).
Implicit Types (s : S) (x : S * Z).

Definition K : RWKeys := ww_keys w.
Definition timeout : Z := waiterTimeout (ww_ttl w).

(** The writer has come ([came]), or not yet. *)
Definition placed (came : bool) : rwstate → Prop :=
  if came then in_line (ww_id w) Old V L else only_old Old V.

(** Until [E], when the queue might expire, at most one timeout from now. *)
Definition line (came : bool) (E : Z) s (c : Z) : Prop :=
  r_clock s < E →
  E ≤ r_clock s + timeout ∧ queue_lasts K E (r_view s) ∧
  rw_lock K (λ st, holders (ww_id w) X Y (r_clock s) f st ∧ placed came st) (r_view s).

(** The others use other keys, give up what they have, or, once the writer
    has come, get in line behind it. *)
Definition others (came : bool) (r : request) : Prop :=
  ww_rely w r ∧
  ((∀ k, k ∈ rw_keys K → k ∉ request_keys r) ∨
   ∃ o, r = to_request K o ∧ (yields (ww_id w) Old o ∨ came = true ∧ newcomer (ww_id w) Old L timeout o)).

Lemma others_came r : others false r → others true r.
Proof. intros [? [?|(o & -> & [?|[? _]])]]; [by split; [|left]| |done]. split; [done|]. right; eauto. Qed.

Hypothesis Hok : ww_ok w.
Hypothesis Hme : me (ww_id w) ∉ Old.

Lemma lasts_others came r E s :
  (∀ k, k ∈ rw_keys K → k ∉ request_keys r) ∨
  (∃ o, r = to_request K o ∧ (yields (ww_id w) Old o ∨ came = true ∧ newcomer (ww_id w) Old L timeout o)) →
  E ≤ r_clock s + timeout → queue_lasts K E (r_view s) → queue_lasts K E (r_view (serve r s).2).
Proof.
  intros Hr HE [Hq Ht]. rewrite serve_view. destruct Hr as [Hk|(o & -> & Ho)].
  { split; (eapply lasts_lookup; [apply serve_ref_frame, Hk|done]); unfold rw_keys; set_solver. }
  assert (match o with RWMachine.WLock _ _ _ wt | RWMachine.RLock _ _ _ wt => E ≤ r_clock s + wt | _ => True end) as HE'.
  { destruct o; try done; (destruct Ho as [Ho|[_ Ho]]; [done|]); cbn in Ho; lia. }
  split; (apply (apply_lasts K (r_clock s) (proj1 Hok)); [auto|exact HE'|done]).
Qed.

Lemma stable_line came E : stable (others came) (line came E).
Proof.
  split.
  - intros s c r [_ Hr] Hl. unfold line in *; rewrite serve_clock. intros Hc.
    destruct (Hl Hc) as (HE & Hlast & st & Ho & Hi & Hh & Hp).
    split; [done|split; [by apply (lasts_others came)|]]. rewrite serve_view.
    destruct Hr as [Hk|(o & -> & Hr)].
    { exists st; split; [|done]. eapply rw_on_frame; [|exact Ho]. intros k Hin. by apply serve_ref_frame, Hk. }
    destruct (apply_run K (r_clock s) _ st o Ho) as (m' & Em & Ho'). rewrite Em; cbn [snd].
    exists (rw_apply (r_clock s) o st).2. split; [done|split; [by apply inv_apply|]].
    destruct Hr as [Hy|[-> Hn]].
    + split; [by apply (yields_holders _ Old)|].
      destruct (yields_line (ww_id w) Old V (r_clock s) L o st Hy) as [H1 H2].
      destruct came; [exact (H1 Hp)|exact (H2 Hp)].
    + destruct (newcomer_line (ww_id w) Old X Y V Hme (r_clock s) f L timeout o st Hi Hn Hp Hh); by split.
  - intros s c dc ds (_ & Hds & _) Hl. unfold line, r_clock in *; rewrite law_tick_time. intros Hc.
    assert (UnixMilli (r_time s) ≤ UnixMilli (r_time s + ds)) as Hmono by (apply UnixMilli_mono; lia).
    destruct Hl as (HE & Hlast & st & Ho & Hi & (Hw & Hr & Hf) & Hp); [lia|].
    split; [lia|]. rewrite law_tick_view.
    destruct (line_tick K r_expired (UnixMilli (r_time s + ds)) (r_view s) st E) as (st' & Ho' & Ha & Eq & Es & Hlast' & Hlive);
      [by intros; apply law_not_expired|done..|]. split; [done|].
    exists st'; split; [done|split; [by eapply inv_aged|]]. destruct Ha as (Er & Ef & Ew & Eseq).
    split; [split; [|by rewrite Er, Ef]|].
    + intros t x Hx. destruct Ew as [Ew|Ew]; [|congruence]. rewrite Ew in Hx. destruct (Hw t x Hx) as (? & x' & -> & ?).
      split; [done|]. exists x'; split; [done|]. split; [|lia]. apply Z.le_ngt; intros Hlt.
      rewrite <- Ew in Hx. specialize (Hlive _ _ Hx). by rewrite law_expired in Hlive.
    + destruct came; cbn [placed] in *; [by eapply in_line_same|].
      destruct Hp as [Hs Hq]. split; [destruct Eseq as [[_ ->]|[_ ?]]; [done|lia]|].
      intros h n; rewrite Eq; intros Hh. destruct (Hq h n Hh) as (? & t & ? & ?). split; [done|]. exists t. by rewrite Es.
Qed.
(** ** One attempt *)

Context (Hwt : 0 < timeout) (Hf : 0 ≤ f < 2 ^ 53).

(** What the server answers. *)
Lemma serve_turn came E start s c :
  line came E s c → r_clock s < E → in_int64 (r_clock s + Milliseconds (ww_ttl w)) = true → L ≤ UnixMilli start →
  let x := serve (write_request w start) s in
  x.1 = lua_int (f + 1) ∨
  x.1 = RNil ∧ (r_clock s ≤ X ∨ UnixMilli start < Y ∨ UnixMilli start ≤ V + timeout) ∧
  line true (r_clock s + timeout) x.2 c.
Proof.
  intros Hl Hc Hin HL. cbv zeta. destruct (Hl Hc) as (_ & _ & st & Ho & Hi & Hh & Hp). clear Hl.
  pose proof (whole_ms_pos _ (proj2 Hok)) as Hms.
  set (now := UnixMilli start) in *. set (ms := Milliseconds (ww_ttl w)) in *.
  assert (only_old Old V st ∨ in_line (ww_id w) Old V L st) as Hp' by (destruct came; auto).
  assert (f < int64_max) as Hmax by (unfold int64_max; lia).
  pose proof (own_attempt (ww_id w) Old X Y V L (r_clock s) f ms now timeout st Hi Hp' Hh Hwt Hms Hin Hmax) as Ha.
  cbv zeta in Ha.
  assert (is_writer st (ww_id w) = false) as Hw.
  { unfold is_writer. destruct (rw_writer st) as [[t x]|] eqn:Ew; [|done]. apply String.eqb_neq.
    destruct Hh as [Hh _]. by apply (Hh t x). }
  destruct (apply_run K (r_clock s) _ st (RWMachine.WLock (ww_id w) ms now timeout) Ho) as (m' & Em & Ho').
  cbn [to_request rw_apply] in Em, Ho'. unfold write_request; fold K now ms timeout.
  assert (∀ k, k = Waiters K ∨ k = WaiterTS K → (serve_ref (r_clock s) (RWWriteLock K (ww_id w) ms now timeout) (r_view s)).1 = RNil →
    lasts k (r_clock s + timeout) m') as Hlast.
  { intros k Hk Hnil. pose proof (write_renews K (r_clock s) (proj1 Hok) k _ st _ ms now timeout Hk Ho Hw Hnil) as H.
    by rewrite Em in H. }
  unfold line. rewrite serve_clock, serve_reply, serve_view.
  rewrite Em in *; cbn [fst snd] in *. destruct Ha as [->|(Hnil & Hbusy & Hin' & Hh')]; [by left|right].
  split; [done|split; [exact Hbusy|]]. intros _. split; [lia|]. split; [split; apply Hlast; auto|].
  exists (write_step (r_clock s) (ww_id w) ms now timeout st).2. split; [done|split; [by apply inv_write|]].
  split; [done|]. eapply in_line_le; [exact HL|exact Hin'].
Qed.

(** The times: by the client's clock the writer's lease has run out at [T], the
    readers' and the old contenders' places too ([gone_by]); the queue lasts
    for two more calls. *)
Context (δ : Z) (policy : retryPolicy) (Hpol : policy_ok policy) (T E H : Z).
Context (Hδ : 0 ≤ δ) (Hshort : 2 * δ < ww_ttl w - ww_ttl w ÷ 100 - Millisecond).
Context (Htimeout : 400 * δ + 100 * max_pause policy ≤ 99 * Millisecond * (timeout - 1)).
Context (HH : UnixMilli H + Milliseconds (ww_ttl w) ≤ int64_max).
Context (HYT : Millisecond * Y ≤ T) (HVT : Millisecond * (V + timeout + 1) ≤ T).

Definition clocks x : Prop := due X T x ∧ spare E H x ∧ 0 ≤ r_time x.1 ∧ L ≤ UnixMilli x.2.
Definition time_left (d : Z) (Q : Z) x : Prop := 100 * d < 99 * (Millisecond * Q - r_time x.1).
Definition ready (Q : Z) x : Prop := clocks x ∧ time_left (2 * δ) Q x.
Definition fresh (Q : Z) x : Prop := clocks x ∧ time_left (3 * δ + max_pause policy) Q x.

Lemma paced_clocks d x y : paced d x y → clocks x → clocks y.
Proof.
  intros Hp (HD & HS & Ht & HL). split_and!; [by eapply paced_due|by eapply paced_spare|unfold paced in Hp; lia|].
  etransitivity; [exact HL|]. apply UnixMilli_mono. unfold paced in Hp; lia.
Qed.

Lemma paced_left d d' Q x y : paced d x y → time_left (d' + d) Q x → time_left d' Q y.
Proof. unfold paced, time_left; lia. Qed.

Lemma fresh_ready Q x y : fresh Q x → paced (δ + max_pause policy) x y → ready Q y.
Proof.
  intros [Hc Hl] Hp. split; [by eapply paced_clocks|]. eapply paced_left; [exact Hp|].
  unfold time_left in *; lia.
Qed.

Lemma clock_before Q s : r_time s < Millisecond * Q → r_clock s < Q.
Proof. unfold r_clock. pose proof (UnixMilli_bounds (r_time s)). unfold Millisecond in *; lia. Qed.

Lemma turn_prompt came Q t1 t2 t3 ts (v : world S) :
  w_turns v = t1 :: t2 :: t3 :: ts → Forall (prompt (others came) δ) [t1; t2] → prompt (others true) δ t3 →
  holds (line came Q) v → ready Q (env v) → w_now v + 2 * δ ≤ E →
  (∃ t v', RWWriter.TryAcquire w v = ((RWWriter.set_deadline t w, (f + 1, None)), v')) ∨
  (∃ v' Q', RWWriter.TryAcquire w v = ((w, (0, Some ErrBusy)), v') ∧ w_turns v' = t3 :: ts ∧ holds (line true Q') v' ∧
     fresh Q' (env v') ∧ w_now v < T ∧ w_now v ≤ w_now v' ≤ w_now v + 2 * δ).
Proof.
  intros Ht [P1 [P2 _]%Forall_cons]%Forall_cons P3 Hl [Hc Hleft] HE.
  pose proof (stable_line came Q) as HI.
  destruct (time_now_prompt (others came) _ HI δ t1 _ v Ht P1 Hl) as (v1 & E1 & T1 & I1 & Q1).
  destruct (redis_prompt (others came) _ HI δ t2 _ (write_request w (w_now v1)) v1 T1 P2 I1)
    as (x & v2 & E2 & T2 & Ix & Qx & Qx' & Q2 & HJ).
  assert (paced (2 * δ) (env v) x) as Qvx by (eapply (paced_le (δ + δ)); [lia|by eapply paced_trans]).
  assert (paced (2 * δ) (env v) (env v2)) as Qv2 by (eapply (paced_le (δ + δ)); [lia|by eapply paced_trans]).
  pose proof (paced_clocks _ _ _ Qvx Hc) as Hcx. pose proof (paced_clocks _ _ _ Q1 Hc) as Hc1.
  assert (r_clock x.1 < Q) as Hclock.
  { apply clock_before. clear HJ. unfold time_left, paced, env in *; simpl in *; lia. }
  pose proof (whole_ms_pos _ (proj2 Hok)) as Hms.
  assert (in_range (as_single w) x.1) as Hin.
  { apply (spare_range (as_single w) E H (env v) x (2 * δ)); try done; [apply Hc..|simpl; lia]. }
  unfold RWWriter.TryAcquire, mbind, go_bind. rewrite E1, E2.
  destruct (serve_turn came Q (w_now v1) x.1 x.2 Ix Hclock Hin) as [Hr|(Hr & Hbusy & Hv)]; [apply Hc1|..]; rewrite Hr; simpl.
  - left. destruct (time_now_prompt (others true) (λ _ _, True) (stable_pure _ True) δ t3 _ v2 T2 P3 I)
      as (v3 & E3 & _ & _ & Q3). rewrite E3. unfold After. unfold paced, env in Q2, Q3; simpl in Q2, Q3.
    rewrite (proj2 (Z.ltb_lt _ _)) by (unfold requestExpiry; lia); simpl.
    rewrite double_of_Z_exact, to_uint64_id by (unfold int64_max; lia). by eexists _, _.
  - right. exists v2, (r_clock x.1 + timeout). split; [done|split; [exact T2|]].
    assert (∀ C, stable (others true) C → stable (others came) C) as Hsub.
    { intros C; apply stable_weaken. destruct came; [done|apply others_came]. }
    split; [apply HJ; [apply Hsub, stable_line|exact Hv]|]. split; [split|split].
    + by eapply paced_clocks.
    + clear HJ Hsub. unfold time_left, r_clock. pose proof (UnixMilli_bounds (r_time x.1)).
      unfold paced, env, Millisecond in *; simpl in *; lia.
    + clear HJ Hsub. pose proof (UnixMilli_bounds (w_now v1)). unfold paced in Q1, Qvx; simpl in Q1, Qvx.
      destruct Hbusy as [HX|Hb]; [|unfold Millisecond in *; lia].
      pose proof (busy_before X T x (proj1 Hcx) HX). lia.
    + unfold paced in Qv2; simpl in Qv2; lia.
Qed.
(** ** The loop *)
Context (failed : go S unit) (abandon : RWWriter → go S unit) (prefix : string).

Definition granted (l : RWWriter) (a : Z) : Prop := (∃ t, l = RWWriter.set_deadline t w) ∧ a = f + 1.

Lemma turn_attempt :
  prompt_attempt RWWriter.TryAcquire (others true) δ T E w (line true) ready fresh granted.
Proof.
  intros Q t1 t2 t3 ts v Ht [P1 [P2 [P3 _]%Forall_cons]%Forall_cons]%Forall_cons Hl Hr HE.
  destruct (turn_prompt true Q t1 t2 t3 ts v Ht (Forall_cons_2 _ _ _ P1 (Forall_cons_2 _ _ _ P2 (Forall_nil_2 _))) P3 Hl Hr HE) as [(t & v' & ->)|(v' & Q' & -> & ? & ? & ? & ? & ?)].
  - left. eexists _, _, _; split; [done|]. split; [by eexists|done].
  - right. eexists _, _, _, Q'; split; [done|]. by do 5 (split; [done|]).
Qed.

(** The writer comes, and waits its turn. *)
Lemma retry_turn fuel ctx Q t1 t2 ts (v : world S) :
  w_turns v = t1 :: t2 :: ts → Forall (prompt (others false) δ) [t1; t2] → Forall (prompt (others true) δ) ts →
  (4 * fuel ≤ length (w_turns v))%nat → holds (line false Q) v → ready Q (env v) →
  w_now v + 2 * δ ≤ E → T + max_pause policy + 6 * δ ≤ E → (∀ D, ctx_done_at ctx = Some D → E < D) →
  (retries_until policy T (w_now v) ≤ fuel)%nat →
  ∃ t v', retry_loop RWWriter.TryAcquire failed abandon prefix policy fuel ctx 0 w v =
            ((RWWriter.set_deadline t w, Granted (f + 1)), v').
Proof.
  intros Ht HP HP' Hlen Hl Hr HE HT HC Hfu. destruct fuel as [|fuel]; [unfold retries_until in Hfu; lia|].
  rewrite Ht in Hlen. destruct ts as [|t3 [|t4 ts]]; try (simpl in Hlen; lia).
  apply Forall_cons in HP' as [P3 HP']; apply Forall_cons in HP' as [P4 HP'].
  destruct (turn_prompt false Q t1 t2 t3 _ v Ht HP P3 Hl Hr HE)
    as [(t & v' & Ea)|(v1 & Q' & Ea & T1 & I1 & F1 & HvT & Hv1)].
  { exists t, v'. cbn [retry_loop]. unfold mbind at 1, go_bind at 1. by rewrite Ea. }
  pose proof (min_pause_pos policy Hpol) as Hpp.
  destruct (retry_pause RWWriter.TryAcquire failed abandon prefix policy Hpol (others true) δ E w (line true)
    (stable_line true) ready fresh fresh_ready fuel ctx 0 Q' v 0 ErrBusy v1 t3 t4 ts)
    as (v3 & -> & T3 & I3 & R3 & Hv3 & _); [done..|lia|done|].
  destruct (retry_within RWWriter.TryAcquire failed abandon prefix policy Hpol (others true) δ T E w (line true)
    (stable_line true) ready fresh fresh_ready granted fuel ctx (0 + 1) Q' v3) as (l & a & v' & -> & [t ->] & ->);
    rewrite ?T3; [apply turn_attempt|done|lia|done|simpl in Hlen; lia|done|done|lia|done|done| |by exists t, v'].
  pose proof (retries_step policy T (w_now v) (w_now v3) Hpol HvT ltac:(lia)). lia.
Qed.
End turn.

(** ** The scene *)
Section scene.
Context {S : Type} `{!RedisOps S, !RedisLaws S}.
Context (B : Z).
Implicit Types (m : RWMutex) (w : world S).

(** When the old holders and the old contenders are gone, and the time by
    which it is the writer's turn. *)
Definition gone_by m (X Y V : Z) w : Z :=
  Z.max (free_by X w) (Z.max (Millisecond * Y) (Millisecond * (V + waiterTimeout (cfg_ttl (rwm_cfg m)) + 1))).
Definition turn_by m (δ X Y V : Z) w : Z := gone_by m X Y V w + max_pause (cfg_retry (rwm_cfg m)) + 8 * δ.

(** A writer comes to a lock with a queue [Old] and others to follow. *)
Record coming m id (Old : gset string) (δ X Y V f Q : Z) w : Prop := {
  co_minted : 0 ≤ f < 2 ^ 53;
  co_me : me id ∉ Old;
  co_line : holds (line (the_writer m id) Old X Y V (UnixMilli (w_now w)) f false Q) w;
  co_queue : time_left (3 * δ) Q (env w);
  co_first : Forall (prompt (others (the_writer m id) Old (UnixMilli (w_now w)) false) δ) (take 3 (w_turns w));
  co_then : Forall (prompt (others (the_writer m id) Old (UnixMilli (w_now w)) true) δ) (drop 3 (w_turns w));
  co_short : 2 * δ < cfg_ttl (rwm_cfg m) - cfg_ttl (rwm_cfg m) ÷ 100 - Millisecond;
  co_timeout : 400 * δ + 100 * max_pause (cfg_retry (rwm_cfg m)) ≤
               99 * Millisecond * (waiterTimeout (cfg_ttl (rwm_cfg m)) - 1);
  co_epoch : 0 ≤ r_time (w_srv w);
  co_range : UnixMilli (r_time (w_srv w) + 2 * (turn_by m δ X Y V w - w_now w)) +
             Milliseconds (cfg_ttl (rwm_cfg m)) ≤ int64_max;
}.

(** Its context, its attempts and their turns last until then. *)
Record staying m (δ X Y V : Z) (ctx : context) (fuel : nat) w : Prop := {
  sy_context : ∀ D, ctx_done_at ctx = Some D → turn_by m δ X Y V w < D;
  sy_fuel : (retries_until (cfg_retry (rwm_cfg m)) (gone_by m X Y V w) (w_now w) ≤ fuel)%nat;
  sy_turns : (1 + 4 * fuel ≤ length (w_turns w))%nat;
}.

Lemma coming_ok m id Old δ X Y V f Q w : coming m id Old δ X Y V f Q w → world_ok (side_rely B m Write id) w.
Proof.
  intros Hc. apply (prompt_world_ok (others (the_writer m id) Old (UnixMilli (w_now w)) true) _ δ); [by intros r [? _]|].
  rewrite <- (take_drop 3 (w_turns w)). apply Forall_app; split; [|apply Hc].
  eapply Forall_impl; [apply (co_first _ _ _ _ _ _ _ _ _ _ Hc)|]. intros t. apply prompt_weaken, others_came.
Qed.

Lemma coming_free m id Old δ X Y V f Q w : 0 ≤ δ → coming m id Old δ X Y V f Q w → side_free m Write id f (w_srv w).
Proof.
  intros Hδ Hc. assert (r_clock (w_srv w) < Q) as Hlt.
  { apply clock_before. pose proof (co_queue _ _ _ _ _ _ _ _ _ _ Hc). unfold time_left, env in *; simpl in *; lia. }
  destruct (co_line _ _ _ _ _ _ _ _ _ _ Hc Hlt) as (_ & _ & st & Ho & Hi & (Hw & _ & Hf) & _).
  split; [|by exists st]. split.
  - intros x. apply (not_owned_if _ _ st _ Ho). unfold is_writer. destruct (rw_writer st) as [[t y]|]; [|done].
    apply String.eqb_neq. by apply (Hw t y).
  - exists f. split; [done|]. rewrite <- Hf. exact (on_counter _ _ st Ho).
Qed.

Lemma coming_granted (failed : go S unit) (abandon : RWWriter → go S unit) prefix m id Old δ X Y V f Q ctx fuel w :
  rwmutex_ok m → policy_ok (cfg_retry (rwm_cfg m)) → 0 ≤ δ →
  coming m id Old δ X Y V f Q w → staying m δ X Y V ctx fuel w →
  ∃ t w', retry_loop RWWriter.TryAcquire failed abandon prefix (cfg_retry (rwm_cfg m)) fuel ctx 0 (the_writer m id)
            (time_now w).2 = ((RWWriter.set_deadline t (the_writer m id), Granted (f + 1)), w').
Proof.
  intros Hok Hpol Hδ Hc [HC HF HL]. pose proof Hc as [Hf Hme Hline Hq Hp1 Hp2 Hs Hto H0 HR].
  destruct (w_turns w) as [|t0 [|t1 [|t2 ts]]] eqn:Ht; try (destruct fuel; [unfold retries_until in HF; lia|simpl in HL; lia]).
  simpl in Hp1, Hp2. apply Forall_cons in Hp1 as [P0 Hp1].
  set (L := UnixMilli (w_now w)) in *. set (wr := the_writer m id) in *.
  destruct (time_now_prompt _ _ (stable_line wr Old X Y V L f Hok Hme false Q) δ t0 _ w Ht P0 Hline)
    as (w1 & -> & T1 & V1 & Q1). cbn [snd].
  pose proof (max_pause_pos _ Hpol) as Hmp. pose proof (min_pause_pos _ Hpol) as Hpp.
  assert (w_now w ≤ w_now w1 ≤ w_now w + δ) as Hw1 by (unfold paced in Q1; simpl in Q1; lia).
  assert (w_now w ≤ gone_by m X Y V w ∧ free_by X w ≤ gone_by m X Y V w) as [Hgone Hfree].
  { assert (w_now w ≤ free_by X w); [|unfold gone_by; lia]. unfold free_by.
    assert (0 ≤ (100 * Z.max 0 (Millisecond * (X + 1) - r_time (w_srv w)) + 98) / 99); [|lia]. apply Z.div_pos; lia. }
  assert (0 < waiterTimeout (cfg_ttl (rwm_cfg m))) as Hwt by (unfold Millisecond in *; lia).
  assert (Millisecond * Y ≤ gone_by m X Y V w ∧ Millisecond * (V + timeout wr + 1) ≤ gone_by m X Y V w) as [HY HV]
    by (unfold gone_by, timeout, wr; simpl; lia).
  set (G := gone_by m X Y V w) in *. set (mp := max_pause (cfg_retry (rwm_cfg m))) in *.
  assert (turn_by m δ X Y V w = G + mp + 8 * δ) as ET by done.
  apply (retry_turn wr Old X Y V L f Hok Hme Hwt Hf δ _ Hpol G (turn_by m δ X Y V w)
    (r_time (w_srv w) + 2 * (turn_by m δ X Y V w - w_now w)) Hδ Hs Hto HR HY HV failed abandon prefix fuel ctx Q t1 t2 ts w1 T1 Hp1 Hp2);
    [by rewrite T1; simpl in *; lia|done| |lia|fold mp; lia|done|].
  - split; [split_and!|].
    + eapply paced_due; [exact Q1|]. pose proof (due_free_by X w). unfold due in *; simpl in *; lia.
    + eapply paced_spare; [exact Q1|]. unfold spare; simpl. lia.
    + unfold paced, env in Q1; simpl in *; lia.
    + apply UnixMilli_mono. simpl; lia.
    + eapply (paced_left δ); [exact Q1|]. unfold time_left in *; simpl in *; lia.
  - etransitivity; [apply (retries_later (cfg_retry (rwm_cfg m)) _ (w_now w)); [done|lia]|exact HF].
Qed.

(** C18: a waiting writer is not starved.  Others hold the lock, and contenders
    [Old] are in its queue; none of them renews, or comes again: the writer's
    lease runs out by [X], the readers' by [Y], and the contenders were last
    heard from at [V].  Once the writer has come to the end of the queue, any
    number of new readers and writers may come as well, again and again.  Then
    [Lock] returns a guard with the next fencing token and a lease that the
    server backs, unless its context is done before the time at which the old
    leases have run out and the old contenders have been silent for the
    timeout of the queue, plus the longest pause of the backoff and the time
    of eight calls. *)
Theorem writer_not_starved m id toks Old δ X Y V f Q fuel ctx st w :
  rwmutex_ok m → policy_ok (cfg_retry (rwm_cfg m)) → 0 ≤ δ → w_tokens w = id :: toks →
  coming m id Old δ X Y V f Q w → staying m δ X Y V ctx fuel w →
  let '((st', o), w') := RWMutex.Lock m fuel ctx st w in
  ∃ i, o = Granted i ∧ handed_out B m Write id (λ fence, fence = f + 1) st st' i (w_srv w') (w_now w').
Proof.
  intros Hok Hpol Hδ Ht Hc Hs.
  pose proof (side_lock_spec B m Write id toks f fuel ctx st w Hok Ht (coming_ok _ _ _ _ _ _ _ _ _ _ Hc)
    (coming_free _ _ _ _ _ _ _ _ _ _ Hδ Hc)) as Hspec.
  revert Hspec. unfold side_lock, RWMutex.Lock, lock_with, NewRWWriter, Token, rand_token, mbind, go_bind, emit.
  cbn [w_srv w_now w_turns w_tokens w_log]. rewrite Ht. unfold mret, go_ret; cbn [w_srv w_now w_turns w_tokens w_log].
  fold (drawn "distsync.rwmutex.lock" toks w). fold (the_writer m id).
  assert (coming m id Old δ X Y V f Q (drawn "distsync.rwmutex.lock" toks w)) as Hc' by (by destruct Hc).
  assert (staying m δ X Y V ctx fuel (drawn "distsync.rwmutex.lock" toks w)) as Hs' by (by destruct Hs).
  pose proof (λ failed abandon prefix, coming_granted failed abandon prefix m id Old δ X Y V f Q ctx fuel _ Hok Hpol Hδ Hc' Hs') as H.
  destruct (time_now (drawn _ toks w)) as [start w1]; cbn [snd] in H.
  match goal with |- context [retry_loop _ ?a ?b ?c _ _ _ _ _ w1] => destruct (H a b c) as (t & w2 & ->) end.
  unfold RWMutex.guard, mbind, go_bind. destruct (monitor _ _ w2) as [h w3]. unfold setWriteHolder; simpl.
  destruct (report_acquire _ _ _ _ w3) as [[] w4]; simpl. unfold mret, go_ret. intros [_ (Ei & g & t' & Est & _ & Hi)].
  eexists; split; [done|]. split; [done|]. exists g, t'. split; [done|]. split; [|done].
  injection Est as Eg. apply app_inj_tail in Eg as [_ <-]. done.
Qed.
End scene.

(** ** Example: [b] writes, [d] waits and has crashed, [a] comes; then the
    reader [e] and the writer [g] come and try during every call *)
Module Ex.
Import RWMutex.Ex.

Definition steady : turn := Turn [wait Millisecond] [[wait Millisecond]] [wait Millisecond] None false 0.
Definition e_tries : request := read_request (the_reader mu "e") (20010 * Millisecond).
Definition g_tries : request := write_request (the_writer mu "g") (20011 * Millisecond).
Definition crowded : turn := first_do [Other e_tries; Other g_tries] steady.

Definition b_renews : request := SingleRenew (Writer (rwm_keys mu)) "b" 10000.
Definition d_asks : request := write_request (the_writer mu "d") (200 * Millisecond).
Definition at_twenty : mem := (env_apply
  [Other (write_request (the_writer mu "b") 0); wait (200 * Millisecond); Other d_asks; wait (8800 * Millisecond);
   Other b_renews; wait (1300 * Millisecond); Other b_renews; wait (9700 * Millisecond)] (mem_empty 0, 0)).1.

Definition a_comes : world mem :=
  World at_twenty (20 * Second) (replicate 3 steady ++ replicate 120 crowded) ["a"] [].
Definition old : gset string := {["W:d"]}.
Definition waiting_st : rwstate := RWState (Some ("b", Some 20300)) ∅ {["W:d" := 2]} {["W:d" := "200"]} 2 (Some 1).

Lemma waiting_on : rw_on (rwm_keys mu) (r_view at_twenty) waiting_st.
Proof.
  split; [split|].
  - apply rwmu_ok.
  - vm_compute; reflexivity.
  - vm_compute; reflexivity.
  - vm_compute; reflexivity.
  - vm_compute; reflexivity.
  - vm_compute; reflexivity.
  - split; [split; [discriminate|vm_compute; discriminate]|left]. eexists; vm_compute; reflexivity.
  - vm_compute; reflexivity.
  - split; vm_compute; discriminate.
  - intros _. split; [eexists|]; vm_compute; reflexivity.
Qed.

Lemma waiting_inv : rw_inv waiting_st.
Proof.
  split; cbn; [done|intros x n|intros x y n|by eexists|lia].
  - intros [_ <-]%lookup_singleton_Some; lia.
  - by intros [-> _]%lookup_singleton_Some [-> _]%lookup_singleton_Some.
Qed.
Definition L : Z := UnixMilli (w_now a_comes).

Lemma old_not_me : me "a" ∉ old.
Proof. unfold old. by rewrite elem_of_singleton. Qed.

Lemma e_others : others (the_writer mu "a") old L true e_tries.
Proof.
  split; [split|].
  - right. split_and!; by try apply rwmu_ok.
  - right. by eexists (RWMachine.RLock "e" _ _ _).
  - right. eexists (RWMachine.RLock "e" _ _ _). split; [done|]. right; split; [done|].
    split; [unfold old; by rewrite elem_of_singleton|]. split; vm_compute; [split; [reflexivity|discriminate]|discriminate].
Qed.

Lemma g_others : others (the_writer mu "a") old L true g_tries.
Proof.
  split; [split|].
  - right. split_and!; by try apply rwmu_ok.
  - right. by eexists (RWMachine.WLock "g" _ _ _).
  - right. eexists (RWMachine.WLock "g" _ _ _). split; [done|]. right; split; [done|].
    split; [done|]. split; [unfold old; by rewrite elem_of_singleton|].
    split; vm_compute; [split; [reflexivity|discriminate]|discriminate].
Qed.

Lemma turn_steady R : prompt R (3 * Millisecond) steady.
Proof.
  split; [done|]. split; [|by vm_compute]. unfold good_steps; simpl.
  rewrite !Forall_cons. unfold step_ok, drift_ok, keeps_up; simpl. by split_and!.
Qed.

Lemma turn_crowded : prompt (others (the_writer mu "a") old L true) (3 * Millisecond) crowded.
Proof.
  split; [done|]. split; [|by vm_compute]. unfold good_steps; simpl.
  rewrite !Forall_cons. unfold step_ok, drift_ok, keeps_up; simpl. by split_and!; try apply e_others; try apply g_others.
Qed.

Lemma a_coming : coming mu "a" old (3 * Millisecond) 20300 0 200 1 20200 a_comes.
Proof.
  split.
  - lia.
  - exact old_not_me.
  - intros _. split; [vm_compute; discriminate|]. split; [split; vm_compute; discriminate|].
    exists waiting_st. split; [exact waiting_on|split; [exact waiting_inv|]]. split; [split; [|split; [|reflexivity]]|].
    + intros t x [= <- <-]. split; [done|]. exists 20300; split; [done|]. split; vm_compute; discriminate.
    + intros r s Hr; cbn in Hr. by rewrite lookup_empty in Hr.
    + split; [by vm_compute|]. intros h n Hh; cbn in Hh. apply lookup_singleton_Some in Hh as [<- <-].
      split; [unfold old; by rewrite elem_of_singleton|]. exists 200. split; [vm_compute; reflexivity|lia].
  - vm_compute; reflexivity.
  - simpl. by repeat (apply Forall_cons_2; [apply turn_steady|]).
  - change (drop 3 (w_turns a_comes)) with (replicate 120 crowded). apply Forall_replicate, turn_crowded.
  - vm_compute; reflexivity.
  - vm_compute; discriminate.
  - vm_compute; discriminate.
  - vm_compute; discriminate.
Qed.

Definition patience : context := Ctx (Some (30 * Second)) ErrDeadlineExceeded.

Lemma a_staying : staying mu (3 * Millisecond) 20300 0 200 patience 20 a_comes.
Proof. split; [intros D [= <-]; vm_compute; reflexivity|vm_compute; lia|vm_compute; lia]. Qed.

Lemma writer_not_starved_witness :
  let x := RWMutex.Lock mu 20 patience rwmstate_empty a_comes in
  x.1.2 = Granted 0%nat ∧ ∃ g, rws_guards x.1.1 = [g] ∧ g_fencing g = 2.
Proof.
  pose proof (writer_not_starved 0 mu "a" [] old (3 * Millisecond) 20300 0 200 1 20200 20 patience rwmstate_empty a_comes
    rwmu_ok ltac:(repeat split; by vm_compute) ltac:(vm_compute; discriminate) eq_refl a_coming a_staying) as H.
  destruct (RWMutex.Lock _ _ _ _ a_comes) as [[st o] w']. destruct H as (i & Ho & Hi & g & t & Hst & Hf & _).
  rewrite Hi in Ho. rewrite Hst. split; [exact Ho|]. exists g. split; [reflexivity|exact Hf].
Defined.
End Ex.
