(* ===== verification/RateLog.v ===== *)
(** * What a limiter's key goes through

    All clients of a limiter share one key.  [log_on k l s] lists the requests
    that reach the key [k] in the course of the steps [l] of a server, each
    with the server's clock and the reply; [log_invariant] proves a property
    of the log and the state by induction over the steps. *)
From S2P Require Import Prelude Float64 Redis Requests ScriptsRate GoRuntime.
Open Scope Z_scope.

Record visit := Visit { v_clock : Z; v_request : request; v_reply : reply }.

(** A property of every visit and of the visits before it. *)
Fixpoint prefix_all (P : list visit → visit → Prop) (pre log : list visit) : Prop :=
  match log with
  | [] => True
  | v :: log => P pre v ∧ prefix_all P (pre ++ [v]) log
  end.

Lemma prefix_all_app P pre l1 l2 :
  prefix_all P pre (l1 ++ l2) ↔ prefix_all P pre l1 ∧ prefix_all P (pre ++ l1) l2.
Proof.
  revert pre; induction l1 as [|v l1 IH]; intros pre; simpl; [rewrite app_nil_r; tauto|].
  rewrite IH, <- app_assoc; simpl; tauto.
Qed.

Lemma prefix_all_snoc P l v : prefix_all P [] (l ++ [v]) ↔ prefix_all P [] l ∧ P l v.
Proof. rewrite prefix_all_app; simpl; tauto. Qed.

(** The amount a visit asks for, and whether it was admitted. *)
Definition admitted (v : visit) : bool :=
  match v_reply v with RInts (a :: _) => a =? 1 | _ => false end.

(** What a visit asks for: a count, or for the buckets an amount in units of
    2^-1074. *)
Definition charge (v : visit) : Z :=
  match v_request v with
  | RateLimitFixed _ _ _ _ n | RateLimitSliding _ _ _ _ n _ => n
  | RateLimit _ _ _ _ n | RateLimitLeaky _ _ _ _ n => match n with Fin z => z | _ => 0 end
  | _ => 0
  end.

(** The stamp it carries. *)
Definition stamp (v : visit) : Z :=
  match v_request v with
  | RateLimitFixed _ _ _ now _ | RateLimitSliding _ _ _ now _ _
  | RateLimit _ _ _ now _ | RateLimitLeaky _ _ _ now _ => now
  | _ => 0
  end.

(** The counts admitted among the visits that satisfy [f]. *)
Fixpoint granted (f : visit → bool) (log : list visit) : Z :=
  match log with
  | [] => 0
  | v :: log => (if f v && admitted v then charge v else 0) + granted f log
  end.

Lemma granted_app f l1 l2 : granted f (l1 ++ l2) = granted f l1 + granted f l2.
Proof. induction l1 as [|v l1 IH]; simpl; [done|]. rewrite IH; lia. Qed.

Definition all_visits (v : visit) : bool := true.

Lemma granted_mono f g log :
  Forall (λ v, 0 ≤ charge v) log → (∀ v, v ∈ log → f v = true → g v = true) → granted f log ≤ granted g log.
Proof.
  induction 1 as [|v log Hv _ IH]; intros Hfg; simpl; [done|].
  assert (granted f log ≤ granted g log) by (apply IH; intros; apply Hfg; [by right|done]).
  specialize (Hfg v ltac:(by left)). destruct (f v) eqn:E; simpl; [rewrite Hfg by done; simpl|];
    repeat case_match; lia.
Qed.

Lemma granted_nonneg f log : Forall (λ v, 0 ≤ charge v) log → 0 ≤ granted f log.
Proof. induction 1; simpl; [done|]. case_match; lia. Qed.

Section log.
Context {S : Type} `{!RedisOps S}.

Fixpoint log_on (k : string) (l : list env_step) (s : S) : list visit :=
  match l with
  | [] => []
  | Other r :: l =>
      let '(x, s') := serve r s in
      (if decide (k ∈ request_keys r) then [Visit (r_clock s) r x] else []) ++ log_on k l s'
  | Elapse _ ds :: l => log_on k l (r_tick ds s)
  end.

Definition server_after (l : list env_step) (s : S) : S := (env_apply l (s, 0)).1.

(** The server's clock does not run backward. *)
Definition forward (l : list env_step) : Prop :=
  Forall (λ e, match e with Elapse _ ds => 0 ≤ ds | Other _ => True end) l.

Lemma env_apply_srv l (s : S) c c' : (env_apply l (s, c)).1 = (env_apply l (s, c')).1.
Proof.
  revert s c c'; induction l as [|[r|dc ds] l IH]; intros s c c'; simpl; [done|apply IH|apply IH].
Qed.

Lemma log_invariant k (P : list visit → visit → Prop) (Inv : list visit → S → Prop) l s log :
  (∀ log s ds, 0 ≤ ds → Inv log s → Inv log (r_tick ds s)) →
  (∀ log s r, k ∉ request_keys r → Inv log s → Inv log (serve r s).2) →
  (∀ log s r, k ∈ request_keys r → Inv log s →
     P log (Visit (r_clock s) r (serve r s).1) →
     Inv (log ++ [Visit (r_clock s) r (serve r s).1]) (serve r s).2) →
  forward l → prefix_all P log (log_on k l s) → Inv log s →
  Inv (log ++ log_on k l s) (server_after l s).
Proof.
  intros Ht Hframe Hserve. unfold server_after. revert s log; induction l as [|[r|dc ds] l IH];
    intros s log Hf Hp HI; cbn [log_on] in *; [by rewrite app_nil_r|..]; apply Forall_cons in Hf as [He Hf].
  - cbn [env_apply foldl fst snd]. change (foldl _ ?x l) with (env_apply l x).
    specialize (Hframe log s r); specialize (Hserve log s r).
    destruct (serve r s) as [x s'] eqn:E; simpl in *. destruct (decide (k ∈ request_keys r)).
    + destruct Hp as [Hv Hp]. rewrite (assoc_L (++) log [_]). apply IH; auto.
    + rewrite app_nil_l in *. apply IH; auto.
  - cbn [env_apply foldl fst snd]. change (foldl _ ?x l) with (env_apply l x).
    rewrite (env_apply_srv l _ _ 0). apply IH; auto.
Qed.
End log.
