(* ===== verification/RateLimiter.v ===== *)
(** * The rate limiter

    [ratelimiter.go]: the limiter with its four algorithms, the checks of its
    constructor, [Allow], [Acquire], [Wait] and [Reset].  A Go panic is a
    value ([Panic]); the theorems show that none is reached. *)
From S2P Require Import Prelude Float64 Redis RedisMem Errors Requests ScriptsRate.
From S2P Require Import GoRuntime Scenario Lease Keys Config Retry.
Open Scope Z_scope.

(** ** Configuration *)

Inductive Algorithm :=
  | AlgorithmTokenBucket
  | AlgorithmFixedWindow
  | AlgorithmSlidingWindow
  | AlgorithmLeakyBucket.

#[export] Instance Algorithm_eq_dec : EqDecision Algorithm.
Proof. solve_decision. Defined.

Definition Algorithm_String (a : Algorithm) : string :=
  match a with
  | AlgorithmFixedWindow => "fixed-window"
  | AlgorithmSlidingWindow => "sliding-window"
  | AlgorithmLeakyBucket => "leaky-bucket"
  | AlgorithmTokenBucket => "token-bucket"
  end.

Record rlConfig := { rc_algorithm : Algorithm }.
Definition RateLimiterOption : Type := rlConfig → rlConfig.
Definition TokenBucket : RateLimiterOption := λ _, {| rc_algorithm := AlgorithmTokenBucket |}.
Definition FixedWindow : RateLimiterOption := λ _, {| rc_algorithm := AlgorithmFixedWindow |}.
Definition SlidingWindow : RateLimiterOption := λ _, {| rc_algorithm := AlgorithmSlidingWindow |}.
Definition LeakyBucket : RateLimiterOption := λ _, {| rc_algorithm := AlgorithmLeakyBucket |}.

Record Rate := { r_PerSecond : float64; r_Capacity : float64 }.
Definition PerSecond (n : float64) : Rate := {| r_PerSecond := n; r_Capacity := n |}.
Definition PerMinute (n : float64) : Rate := {| r_PerSecond := fdiv n (of_Z 60); r_Capacity := n |}.
Definition WithBurst (r : Rate) (capacity : float64) : Rate :=
  {| r_PerSecond := r_PerSecond r; r_Capacity := capacity |}.

Record RateLimiter := {
  rl_client : Client;
  rl_name : string;
  rl_key : string;
  rl_capacity : float64;
  rl_rate : float64;
  rl_algorithm : Algorithm;
}.

Definition windowed (a : Algorithm) : bool :=
  bool_decide (a = AlgorithmFixedWindow) || bool_decide (a = AlgorithmSlidingWindow).

(** [float64(math.MaxInt64/int64(time.Millisecond))] *)
Definition max_window_ms : Z := int64_max ÷ Millisecond.

(** [Client.RateLimiter(name, rate, opts...)] *)
Definition NewRateLimiter (c : Client) (name : string) (rate : Rate) (opts : list RateLimiterOption) :
    ran RateLimiter :=
  let cfg := foldl (λ cfg o, o cfg) {| rc_algorithm := AlgorithmTokenBucket |} opts in
  let rl := {| rl_client := c; rl_name := name; rl_key := Key name; rl_capacity := r_Capacity rate;
               rl_rate := r_PerSecond rate; rl_algorithm := rc_algorithm cfg |} in
  if fleb (rl_rate rl) (Fin 0) || fleb (rl_capacity rl) (Fin 0) || is_nan (rl_rate rl) ||
     is_nan (rl_capacity rl) || is_inf (rl_rate rl) || is_inf (rl_capacity rl) then
    Panic "distsync: rate limiter requires positive finite rate and capacity"
  else
    let windowMs := fmul (fdiv (rl_capacity rl) (rl_rate rl)) (of_Z 1000) in
    if fltb (of_Z max_window_ms) windowMs then
      Panic "distsync: rate limiter refill period exceeds time.Duration range"
    else if windowed (rl_algorithm rl) &&
            (fltb windowMs (of_Z 1) || fltb (rl_capacity rl) (of_Z 1) ||
             fltb (of_Z (2 ^ 53 - 1)) (rl_capacity rl)) then
      Panic "distsync: windowed rate limiter requires a window of at least 1ms and capacity in [1, 2^53-1]"
    else Ran rl.

(** [window()] *)
Definition window (rl : RateLimiter) : Z :=
  ftrunc (fmul (fdiv (rl_capacity rl) (rl_rate rl)) (of_Z Second)).

(** [fixedWindowKey(nowMs)]; integer division by zero panics. *)
Definition fixedWindowKey (rl : RateLimiter) (nowMs : Z) : ran string :=
  let w := Milliseconds (window rl) in
  if w =? 0 then Panic "runtime error: integer divide by zero"
  else Ran (rl_key rl +:+ ":" +:+ itoa (nowMs ÷ w)).

(** ** Operations *)

(** [Cmd.Slice()]: the elements of an array reply. *)
Definition Slice (r : reply) : error + list (string + Z) :=
  match r with
  | RInts l => inr (inr <$> l)
  | RArr l => inr (inl <$> l)
  | RNil => inl (ErrRedis "redis: nil")
  | RErr m => inl (ErrRedis m)
  | _ => inl (ErrRedis "redis: unexpected type for Slice")
  end.

(** What [Allow] returns: allowed, retryAfter, err. *)
Definition verdict : Type := bool * Z * option error.

Section ops.
Context {S : Type} `{!RedisOps S}.
Implicit Types (rl : RateLimiter).

Definition rl_error rl (msg : string) : error :=
  ErrText ("distsync: rate limiter " +:+ rl_name rl +:+ ": " +:+ msg).

Definition allow rl (req : request) : go S (ran verdict) :=
  x ← redis req;
  match x with
  | inl e => mret (Ran (false, 0, Some e))
  | inr r =>
      match Slice r with
      | inl e => mret (Ran (false, 0, Some e))
      | inr [inr a; _; inr ms] => mret (Ran (a =? 1, wrap64 (ms * Millisecond), None))
      | inr [_; _; _] => mret (Panic "interface conversion")
      | inr _ => mret (Ran (false, 0, Some (rl_error rl "unexpected script result")))
      end
  end.

(** The evaluation of one request, [n] being valid. *)
Definition evaluate rl (n : float64) : go S (ran verdict) :=
  match rl_algorithm rl with
  | AlgorithmFixedWindow =>
      t ← time_now;
      let now := UnixMilli t in
      match fixedWindowKey rl now with
      | Panic m => mret (Panic m)
      | Ran k => allow rl (RateLimitFixed k (rl_capacity rl) (Milliseconds (window rl)) now (ftrunc n))
      end
  | AlgorithmSlidingWindow =>
      t ← time_now;
      prefix ← Token;
      allow rl (RateLimitSliding (rl_key rl) (rl_capacity rl) (Milliseconds (window rl)) (UnixMilli t)
                  (ftrunc n) prefix)
  | AlgorithmLeakyBucket =>
      t ← time_now;
      allow rl (RateLimitLeaky (rl_key rl) (rl_capacity rl) (rl_rate rl) (UnixMilli t) n)
  | AlgorithmTokenBucket =>
      t ← time_now;
      allow rl (RateLimit (rl_key rl) (rl_capacity rl) (rl_rate rl) (UnixMilli t) n)
  end.

Definition verdict_error (r : ran verdict) : option error :=
  match r with Ran (_, err) => err | Panic _ => None end.

(** The count a request is charged: a windowed limiter rounds up. *)
Definition charged rl (n : float64) : float64 := if windowed (rl_algorithm rl) then fceil n else n.

Definition Allow rl (n : float64) : go S (ran verdict) :=
  if is_zero n then mret (Ran (true, 0, None))
  else if fltb n (Fin 0) || is_nan n || is_inf n then
    mret (Ran (false, 0, Some (rl_error rl "request count must be finite and non-negative")))
  else
    let n := charged rl n in
    if fltb (rl_capacity rl) n then
      mret (Ran (false, 0, Some (rl_error rl "request count exceeds capacity")))
    else
      _ ← emit (SpanStart "distsync.ratelimit.allow");
      r ← evaluate rl n;
      _ ← emit (SpanFinish (verdict_error r));
      mret r.

Definition rl_wrap rl (e : option error) : outcome unit :=
  Refused (match e with
           | Some e => ErrWrap ("distsync: rate limiter " +:+ rl_name rl) e
           | None => ErrText ("distsync: rate limiter " +:+ rl_name rl)
           end).

(** [Acquire(ctx, n)], with fuel for the number of attempts. *)
Fixpoint rl_Acquire (fuel : nat) (ctx : context) rl (n : float64) : go S (ran (outcome unit)) :=
  match fuel with
  | O => mret (Ran NoFuel)
  | Datatypes.S fuel =>
      r ← Allow rl n;
      match r with
      | Panic m => mret (Panic m)
      | Ran (_, _, Some e) => mret (Ran (rl_wrap rl (Some e)))
      | Ran (true, _, None) => mret (Ran (Granted tt))
      | Ran (false, retryAfter, None) =>
          c ← ctx_Err ctx;
          match c with
          | Some e => mret (Ran (rl_wrap rl (Some e)))
          | None =>
              let retryAfter := if retryAfter <=? 0 then 10 * Millisecond else retryAfter in
              stop ← select_ctx_timer ctx retryAfter;
              if (stop : bool) then
                c ← ctx_Err ctx;
                mret (Ran (rl_wrap rl c))
              else rl_Acquire fuel ctx rl n
          end
      end
  end.

(** [Wait(ctx, n)] *)
Definition Wait (fuel : nat) (ctx : context) rl (n : float64) : go S (Z * ran (outcome unit)) :=
  start ← time_now;
  err ← rl_Acquire fuel ctx rl n;
  now ← time_now;
  mret (now - start, err).

(** [Reset(ctx)] *)
Definition Reset_limiter rl : go S (ran (option error)) :=
  key ← (if bool_decide (rl_algorithm rl = AlgorithmFixedWindow)
         then t ← time_now; mret (fixedWindowKey rl (UnixMilli t))
         else mret (Ran (rl_key rl)));
  match key with
  | Panic m => mret (Panic m)
  | Ran key =>
      x ← redis (Command (DEL key));
      mret (Ran (match x with
                 | inl e => Some e
                 | inr (RErr m) => Some (ErrRedis m)
                 | inr _ => None
                 end))
  end.
End ops.

(** ** The constructor *)

Lemma finite_positive x :
  fleb x (Fin 0) = false → is_nan x = false → is_inf x = false → ∃ z, x = Fin z ∧ 0 < z.
Proof. destruct x as [| |z]; simpl; [done|done|]. intros H%Z.leb_gt _ _; by exists z. Qed.

(** [0.001], the double before it, and what lies half-way; and
    9223372036.8545. *)
Definition milli : Z := round_mag unit64 1000.
Definition before_milli : Z := milli - 2 * 2 ^ 1011.
Definition half_way : Z := milli - 2 ^ 1011.
Definition period_limit : Z := 92233720368545 * unit64 / 10 ^ 4.

Lemma before_milli_pos : 0 < before_milli.
Proof. refine (proj1 (Z.ltb_lt _ _) _). vm_cast_no_check (eq_refl true). Qed.
Lemma half_way_above : before_milli < half_way.
Proof. refine (proj1 (Z.ltb_lt _ _) _). vm_cast_no_check (eq_refl true). Qed.
Lemma milli_pos : 0 < milli.
Proof. refine (proj1 (Z.ltb_lt _ _) _). vm_cast_no_check (eq_refl true). Qed.
Lemma half_way_below : round_mag (half_way - 1) 1 = before_milli.
Proof. refine (proj1 (Z.eqb_eq _ _) _). vm_cast_no_check (eq_refl true). Qed.
Lemma half_way_none : round_mag half_way 1 ≠ half_way.
Proof. refine (proj1 (Z.eqb_neq _ _) _). vm_cast_no_check (eq_refl false). Qed.
Lemma half_way_up : round_mag (half_way + 1) 1 = milli.
Proof. refine (proj1 (Z.eqb_eq _ _) _). vm_cast_no_check (eq_refl true). Qed.
Lemma before_milli_ms : round_mag (before_milli * 1000) 1 < unit64.
Proof. refine (proj1 (Z.ltb_lt _ _) _). vm_cast_no_check (eq_refl true). Qed.
Lemma milli_ns : round_mag (milli * Second) 1 = Millisecond * unit64.
Proof. refine (proj1 (Z.eqb_eq _ _) _). vm_cast_no_check (eq_refl true). Qed.
Lemma period_limit_pos : 0 < period_limit.
Proof. refine (proj1 (Z.ltb_lt _ _) _). vm_cast_no_check (eq_refl true). Qed.
Lemma period_limit_ms : max_window_ms * unit64 < round_mag (period_limit * 1000) 1.
Proof. refine (proj1 (Z.ltb_lt _ _) _). vm_cast_no_check (eq_refl true). Qed.
Lemma period_limit_ns : round_mag (period_limit * Second) 1 < 2 ^ 63 * unit64.
Proof. refine (proj1 (Z.ltb_lt _ _) _). vm_cast_no_check (eq_refl true). Qed.

#[local] Opaque milli before_milli half_way period_limit.

(** There is no double between the two. *)
Lemma milli_gap q : round_mag q 1 = q → 0 ≤ q → q < milli → q ≤ before_milli.
Proof.
  pose proof before_milli_pos as Hb; pose proof half_way_above as Hh.
  pose proof half_way_below as E1; pose proof half_way_none as E2; pose proof half_way_up as E3.
  intros Hr Hq Hlt. destruct (Z.lt_trichotomy q half_way) as [H|[->|H]]; [|exfalso; exact (E2 Hr)|].
  - rewrite <- Hr, <- E1. apply round_mag_mono; lia.
  - exfalso. enough (milli ≤ q) by lia. rewrite <- Hr, <- E3. apply round_mag_mono; lia.
Qed.

(** A quotient [q] of capacity and rate passes the checks of the constructor
    only if it is a window from one millisecond up to what a duration holds. *)
Lemma period_bounds q :
  0 ≤ q → round_mag q 1 = q →
  (fltb (of_Z max_window_ms) (fmul (Fin q) (of_Z 1000)) = false →
   0 ≤ ftrunc (fmul (Fin q) (of_Z Second)) ≤ int64_max) ∧
  (fltb (fmul (Fin q) (of_Z 1000)) (of_Z 1) = false →
   fltb (of_Z max_window_ms) (fmul (Fin q) (of_Z 1000)) = false →
   Millisecond ≤ ftrunc (fmul (Fin q) (of_Z Second))).
Proof.
  intros Hq Hr. pose proof unit64_pos as Hu.
  rewrite !fmul_Z by (unfold Second, Millisecond; lia).
  rewrite (of_Z_exact max_window_ms), (of_Z_exact 1) by by vm_compute.
  set (ms := round_mag (q * 1000) 1). set (ns := round_mag (q * Second) 1).
  assert (0 ≤ ns) as Hns by (apply round_mag_nonneg; unfold Second, Millisecond; lia).
  assert (fltb (Fin (max_window_ms * unit64)) (capped ms) = false → ns < 2 ^ 63 * unit64) as Hhi.
  { intros H%fltb_capped. pose proof period_limit_ms; pose proof period_limit_ns; pose proof period_limit_pos.
    assert (q < period_limit) as Hlt.
    { apply Z.nle_gt; intros Hle. enough (round_mag (period_limit * 1000) 1 ≤ ms) by lia.
      apply round_mag_mono; lia. }
    assert (ns ≤ round_mag (period_limit * Second) 1); [|lia].
    apply round_mag_mono; unfold Second, Millisecond; lia. }
  assert (ns < 2 ^ 63 * unit64 → ftrunc (capped ns) = ns / unit64 ∧ ns / unit64 ≤ int64_max) as Ht.
  { intros Hlt. unfold capped. rewrite (proj2 (Z.ltb_lt _ _)); cbn [ftrunc].
    - rewrite Z.quot_div_nonneg by lia. assert (ns / unit64 < 2 ^ 63) by (apply Z.div_lt_upper_bound; lia).
      assert (0 ≤ ns / unit64) by (apply Z.div_pos; lia).
      rewrite (proj2 (in_int64_spec _)); unfold int64_min, int64_max; lia.
    - etrans; [exact Hlt|]. rewrite unit64_units, <- Z.pow_add_r by lia.
      rewrite <- (Z.mul_1_l (2 ^ _)). apply max64_53; lia. }
  split.
  - intros H; destruct Ht as [-> ?]; [by apply Hhi|]. split; [apply Z.div_pos; lia|done].
  - intros H1 H2; destruct Ht as [-> _]; [by apply Hhi|].
    assert (unit64 ≤ ms) as Hms.
    { apply capped_fltb in H1; [lia|]. rewrite unit64_units. apply (max64_53 1); lia. }
    assert (milli ≤ q) as Hm.
    { apply Z.nlt_ge; intros Hlt. pose proof (milli_gap q Hr Hq Hlt). pose proof before_milli_ms.
      enough (ms ≤ round_mag (before_milli * 1000) 1) by lia.
      apply round_mag_mono; pose proof before_milli_pos; lia. }
    apply Z.div_le_lower_bound; [done|]. rewrite Z.mul_comm, <- milli_ns.
    apply round_mag_mono; pose proof milli_pos; unfold Second, Millisecond; lia.
Qed.

(** What the constructor lets through. *)
Record limiter_ok (rl : RateLimiter) : Prop := {
  ok_capacity : ∃ c, rl_capacity rl = Fin c ∧ 0 < c;
  ok_rate : ∃ r, rl_rate rl = Fin r ∧ 0 < r;
  ok_period : fltb (of_Z max_window_ms) (fmul (fdiv (rl_capacity rl) (rl_rate rl)) (of_Z 1000)) = false;
  ok_window : 0 ≤ window rl ≤ int64_max;
  ok_whole : windowed (rl_algorithm rl) = true → 1 ≤ Milliseconds (window rl);
  ok_count : windowed (rl_algorithm rl) = true →
    fleb (of_Z 1) (rl_capacity rl) = true ∧ fleb (rl_capacity rl) (of_Z (2 ^ 53 - 1)) = true;
}.

Lemma fltb_fleb a b : fltb (Fin a) (Fin b) = false → fleb (Fin b) (Fin a) = true.
Proof. intros H%Z.ltb_ge. by apply Z.leb_le. Qed.

Lemma period_finite k r :
  0 < k → 0 < r → fltb (of_Z max_window_ms) (fmul (fdiv (Fin k) (Fin r)) (of_Z 1000)) = false →
  ∃ q, fdiv (Fin k) (Fin r) = Fin q ∧ 0 ≤ q ∧ round_mag q 1 = q.
Proof.
  intros Hk Hr. pose proof unit64_pos as Hu.
  assert (0 ≤ k * unit64) as Hn by nia. rewrite fdiv_fin by lia.
  pose proof (round_mag_nonneg _ r Hn Hr) as Hq. pose proof (round_mag_idem _ r Hn Hr) as Hq2.
  set (q := round_mag (k * unit64) r) in *. clearbody q. unfold capped. destruct (q <? max64).
  { intros _; exists q. exact (conj eq_refl (conj Hq Hq2)). }
  rewrite !of_Z_exact by by vm_compute.
  unfold fmul, is_zero, is_neg, orb. rewrite (proj2 (Z.eqb_neq _ 0)) by lia. done.
Qed.

Lemma new_limiter_ok c name rate opts rl : NewRateLimiter c name rate opts = Ran rl → limiter_ok rl.
Proof.
  unfold NewRateLimiter. set (rl0 := {| rl_client := c |}).
  destruct (_ || is_inf (rl_capacity rl0)) eqn:E1; [done|].
  destruct (fltb (of_Z max_window_ms) _) eqn:E2; [done|].
  destruct (windowed (rl_algorithm rl0) && _) eqn:E3; [done|]. intros [= <-].
  apply orb_false_elim in E1 as [E1 I2]; apply orb_false_elim in E1 as [E1 I1].
  apply orb_false_elim in E1 as [E1 N2]; apply orb_false_elim in E1 as [E1 N1].
  apply orb_false_elim in E1 as [P1 P2].
  destruct (finite_positive (rl_rate rl0) P1 N1 I1) as (r & Er & Hr).
  destruct (finite_positive (rl_capacity rl0) P2 N2 I2) as (k & Ek & Hk).
  destruct (period_finite k r Hk Hr) as (q & Eq & Hq & Hq2); [rewrite <- Er, <- Ek; exact E2|].
  assert (window rl0 = ftrunc (fmul (Fin q) (of_Z Second))) as Hw by (unfold window; rewrite Er, Ek, Eq; reflexivity).
  destruct (period_bounds q Hq Hq2) as [Hb1 Hb2].
  assert (fltb (of_Z max_window_ms) (fmul (Fin q) (of_Z 1000)) = false) as E4 by (rewrite <- Eq, <- Er, <- Ek; exact E2).
  split; [exists k; exact (conj Ek Hk)|exists r; exact (conj Er Hr)|exact E2|rewrite Hw; exact (Hb1 E4)| |]; intros Hwin;
    rewrite Hwin in E3; cbn [andb] in E3; apply orb_false_elim in E3 as [E3 W3]; apply orb_false_elim in E3 as [W1 W2].
  - rewrite Hw. rewrite Er, Ek, Eq in W1. specialize (Hb2 W1 E4). clear - Hb2.
    unfold Milliseconds. rewrite Z.quot_div_nonneg by (unfold Millisecond in *; lia).
    apply Z.div_le_lower_bound; unfold Millisecond in *; lia.
  - rewrite Ek in W2, W3 |- *. rewrite (of_Z_exact 1) in W2 |- * by by vm_compute.
    rewrite (of_Z_exact (2 ^ 53 - 1)) in W3 |- * by by vm_compute.
    split; [exact (fltb_fleb _ _ W2)|exact (fltb_fleb _ _ W3)].
Qed.

(** ** What [Allow] returns *)

Definition is_limiter (r : request) : bool :=
  match r with
  | RateLimit _ _ _ _ _ | RateLimitFixed _ _ _ _ _ | RateLimitSliding _ _ _ _ _ _
  | RateLimitLeaky _ _ _ _ _ => true
  | _ => false
  end.

(** A count that [Allow] refuses by itself. *)
Definition bad_count (rl : RateLimiter) (n : float64) : bool :=
  fltb n (Fin 0) || is_nan n || is_inf n || fltb (rl_capacity rl) (charged rl n).

(** An error of the server or of the network. *)
Definition from_redis (e : error) : Prop := (∃ n, e = net_err n) ∨ ∃ m, e = ErrRedis m.

(** A verdict, or an error with a refusal. *)
Definition answered (v : verdict) : Prop :=
  match v with
  | (_, ms, None) => ∃ z, ms = wrap64 (z * Millisecond)
  | (a, ms, Some e) => a = false ∧ ms = 0 ∧ from_redis e
  end.

Section results.
Context {S : Type} `{!RedisOps S}.
Implicit Types (rl : RateLimiter) (w : world S).

Lemma exec_all_reply (P : reply → Prop) req l last (x : S * Z) r :
  (∀ s, P (serve req s).1) → (∀ r, last = Some r → P r) →
  (exec_all req l last x).1 = Some r → P r.
Proof.
  intros HP; revert last x; induction l as [|steps l IH]; intros last x Hl; simpl; [apply Hl|].
  destruct (serve req _) as [r' s'] eqn:E; apply IH. intros r1 [= <-].
  pose proof (HP (env_apply steps x).1) as Hr; by rewrite E in Hr.
Qed.

Lemma redis_reply (P : reply → Prop) req w :
  (∀ s, P (serve req s).1) →
  match (redis req w).1 with inl e => ∃ n, e = net_err n | inr r => P r end.
Proof.
  intros HP; unfold redis. destruct (next_turn w) as [t w1].
  pose proof (exec_all_reply P req (t_execs t) None (env_apply (t_before t) (w_srv w1, w_now w1))) as H.
  destruct (exec_all _ _ _ _) as [[r|] x1]; simpl in H |- *; destruct (t_fail t); simpl;
    first [by eexists | by apply H | by exists (NetFailure "connection failed")].
Qed.

Lemma serve_decision req (s : S) :
  is_limiter req = true → decision (serve req s).1 ∨ ∃ m, (serve req s).1 = RErr m.
Proof.
  intros Hr; unfold serve. destruct (run _ s) as [[e|r] s'] eqn:E; simpl; [by right; exists e|left].
  eapply (run_post decision _ s); [|by rewrite E].
  destruct req; try done; [apply ratelimit_decision|apply ratelimit_fixed_decision
    |apply ratelimit_sliding_decision|apply ratelimit_leaky_decision].
Qed.

Lemma allow_answers rl req w :
  is_limiter req = true →
  ∃ v, (allow rl req w).1 = Ran v ∧ answered v.
Proof.
  intros Hr; unfold allow, mbind, go_bind.
  pose proof (redis_reply (λ r, decision r ∨ ∃ m, r = RErr m) req w (λ s, serve_decision req s Hr)) as H.
  destruct (redis req w) as [[e|r] w1]; simpl in *.
  - eexists; split; [done|]. do 2 (split; [done|]). by left.
  - destruct H as [(a & b & c & ->)|(m & ->)]; simpl; eexists; (split; [done|]); simpl.
    + by exists c.
    + do 2 (split; [done|]). right; by exists m.
Qed.

Lemma evaluate_answers rl n w :
  limiter_ok rl →
  ∃ v, (evaluate rl n w).1 = Ran v ∧ answered v.
Proof.
  intros Hok; unfold evaluate. pose proof (ok_whole rl Hok) as Hw.
  destruct (rl_algorithm rl); unfold mbind, go_bind; destruct (time_now w) as [t w1];
    try (by apply allow_answers).
  - unfold fixedWindowKey. rewrite (proj2 (Z.eqb_neq _ 0)) by (specialize (Hw eq_refl); lia).
    by apply allow_answers.
  - destruct (Token w1) as [p w2]. by apply allow_answers.
Qed.

Lemma Allow_cases rl n w :
  limiter_ok rl →
  (is_zero n = true → Allow rl n w = (Ran (true, 0, None), w)) ∧
  (is_zero n = false → bad_count rl n = true →
     ∃ msg, Allow rl n w = (Ran (false, 0, Some (rl_error rl msg)), w)) ∧
  (is_zero n = false → bad_count rl n = false →
     ∃ v, (Allow rl n w).1 = Ran v ∧ answered v).
Proof.
  intros Hok. unfold Allow, bad_count. destruct (is_zero n); [done|]. split; [done|].
  destruct (fltb n (Fin 0) || is_nan n || is_inf n); cbn [orb]; [split; [eauto|done]|].
  destruct (fltb (rl_capacity rl) (charged rl n)); [split; [eauto|done]|]. split; [done|]. intros _ _.
  unfold mbind, go_bind. destruct (emit _ w) as [[] w1].
  destruct (evaluate_answers rl (charged rl n) w1 Hok) as (v & E & H).
  destruct (evaluate rl _ w1) as [r w2]. simpl in *; subst r. by exists v.
Qed.

(** C21: the results of [Allow], on every input.  Zero is allowed and a count
    that is negative, not a number, infinite or (rounded up for the windowed
    algorithms) above the capacity is refused with an error, both without
    using Redis or anything else of the world.  Otherwise the limiter that the
    constructor returned never panics (no division by a zero window, no
    failing type assertion) and never misreads a reply: the only errors are
    those of the server and the network, and they come with a refusal. *)
Theorem allow_results c name rate opts rl n w :
  NewRateLimiter c name rate opts = Ran rl →
  (is_zero n = true → Allow rl n w = (Ran (true, 0, None), w)) ∧
  (is_zero n = false → bad_count rl n = true →
     ∃ msg, Allow rl n w = (Ran (false, 0, Some (rl_error rl msg)), w)) ∧
  (is_zero n = false → bad_count rl n = false →
     ∃ v, (Allow rl n w).1 = Ran v ∧ answered v).
Proof. intros Hok%new_limiter_ok. by apply Allow_cases. Qed.
End results.

(** ** [Acquire] returns *)

(** The pause before the next attempt. *)
Definition pause (retryAfter : Z) : Z :=
  if retryAfter <=? 0 then 10 * Millisecond else retryAfter.

(** Even a reply that overflows a duration cannot make the pause short. *)
Lemma pause_min ms : 64 ≤ pause (wrap64 (ms * Millisecond)).
Proof.
  unfold pause. destruct (Z.leb_spec (wrap64 (ms * Millisecond)) 0) as [|H]; [unfold Millisecond; lia|].
  revert H; unfold wrap64, Millisecond. pose proof (Z.div_mod (ms * 1000000 + 2 ^ 63) (2 ^ 64)). lia.
Qed.

(** The pauses that fit before the deadline, and one more attempt. *)
Definition acquire_fuel (deadline now : Z) : nat := Z.to_nat (Z.max 0 ((deadline - now + 63) / 64) + 1).

Section acquire.
Context {S : Type} `{!RedisOps S}.
Implicit Types (rl : RateLimiter) (w : world S).

Section keep.
Context (I : S → Z → Prop) (R : request → Prop) (HI : stable R I).
Context (Hserve : ∀ req s c, is_limiter req = true → I s c → I (serve req s).2 c).

Lemma allow_keep rl req : is_limiter req = true → triple R I (allow rl req) (λ _, I).
Proof.
  intros Hr; unfold allow. eapply triple_bind; [apply triple_redis_keep; [intros s c; by apply Hserve|done]|].
  intros x; cbn beta. repeat case_match; apply triple_keep.
Qed.

Lemma Allow_keep rl n : triple R I (Allow rl n) (λ _, I).
Proof.
  unfold Allow. repeat (case_match; [apply triple_keep|]).
  eapply triple_bind; [apply triple_emit|]. intros []; cbn beta.
  eapply triple_bind; [|intros r; eapply triple_bind; [apply triple_emit|]; intros []; apply triple_keep].
  unfold evaluate. destruct (rl_algorithm rl); (eapply triple_bind; [by apply triple_now_keep|]);
    intros t; cbn beta; try by apply allow_keep.
  - cbn zeta. destruct (fixedWindowKey rl (UnixMilli t)); [by apply allow_keep|apply triple_keep].
  - eapply triple_bind; [apply triple_rand_token|]. intros p; by apply allow_keep.
Qed.
End keep.

Lemma Allow_no_panic rl n w :
  limiter_ok rl →
  ∃ v, (Allow rl n w).1 = Ran v ∧ (v.2 = None → ∃ z, v.1.2 = wrap64 (z * Millisecond)).
Proof.
  intros Hok. destruct (Allow_cases rl n w Hok) as (H0 & H1 & H2).
  destruct (is_zero n); [rewrite H0 by done; eexists; split; [done|]; by exists 0|].
  destruct (bad_count rl n).
  - destruct H1 as [msg ->]; [done..|]. by eexists.
  - destruct H2 as (v & -> & Hv); [done..|]. eexists; split; [done|].
    destruct v as [[a ms] [e|]]; [done|]. by intros _.
Qed.

Lemma acquire_step deadline now now' :
  now < deadline → now + 64 ≤ now' → (acquire_fuel deadline now' < acquire_fuel deadline now)%nat.
Proof.
  unfold acquire_fuel; intros. pose proof (Z.div_le_mono (deadline - now' + 63) (deadline - now - 64 + 63) 64 ltac:(lia) ltac:(lia)).
  replace (deadline - now + 63) with (deadline - now - 64 + 63 + 1 * 64) by lia. rewrite Z.div_add by lia.
  assert (0 ≤ (deadline - now - 64 + 63) / 64); [apply Z.div_pos; lia|lia].
Qed.

(** C22: [Acquire] with a deadline returns.  Whatever the server replies and
    however the network fails, each refusal is followed by a pause of at least
    64 ns (a retry-after that is not positive, also one that overflowed a
    duration, is replaced by 10 ms), so that [Acquire] makes at most as many
    attempts as pauses fit before the context is done and one more; it does
    not panic, and ends with a grant or an error. *)
Theorem rl_acquire_returns c name rate opts rl fuel ctx deadline n w :
  NewRateLimiter c name rate opts = Ran rl → world_ok (λ _, True) w →
  ctx_done_at ctx = Some deadline → (acquire_fuel deadline (w_now w) ≤ fuel)%nat →
  ∃ o, (rl_Acquire fuel ctx rl n w).1 = Ran o ∧ o ≠ NoFuel.
Proof.
  intros Hnew Hw Hctx; revert w Hw; induction fuel as [|fuel IH]; intros w Hw Hf; [unfold acquire_fuel in Hf; lia|].
  cbn [rl_Acquire]. unfold mbind at 1, go_bind at 1.
  assert (stable (S := S) (λ _, True) (λ _ c, w_now w ≤ c)) as Hs by apply stable_since.
  destruct (Allow_keep (λ _ c, w_now w ≤ c) (λ _, True) Hs ltac:(done) rl n w Hw (Z.le_refl _)) as [Hw1 H1].
  destruct (Allow_no_panic rl n w (new_limiter_ok _ _ _ _ _ Hnew)) as (v & E & Hv).
  destruct (Allow rl n w) as [r w1]; cbn [fst snd] in *; subst r.
  destruct v as [[[|] ms] [e|]]; try by eexists. destruct (Hv eq_refl) as [z Ez]; cbn [fst snd] in Ez; subst ms.
  unfold mbind, go_bind, ctx_Err. destruct (ctx_err ctx (w_now w1)) eqn:E1; [by eexists|].
  assert (w_now w1 < deadline) as Hlt.
  { unfold ctx_err in E1; rewrite Hctx in E1. destruct (Z.leb_spec deadline (w_now w1)); [done|lia]. }
  fold (pause (wrap64 (z * Millisecond))). set (d := pause _).
  destruct (triple_select (λ _, True) (λ _ _, True) ctx d (stable_pure _ True) w1 Hw1 I) as [Hw2 _].
  pose proof (select_timer ctx d w1) as H2. pose proof (pause_min z) as Hd; fold d in Hd.
  destruct (select_ctx_timer ctx d w1) as [[|] w2]; cbn [fst snd] in *; [by eexists|].
  apply IH; [done|]. unfold holds in H1; simpl in H1. specialize (H2 eq_refl).
  pose proof (acquire_step deadline (w_now w) (w_now w2)). lia.
Qed.
End acquire.

(** The checks of the constructor are the right ones.  Every limiter it
    returns has a window that fits a duration without overflow, although
    capacity and rate are rounded in three places on the way; a windowed
    limiter has at least one millisecond, so that numbering the windows never
    divides by zero, and its key at a given time is that of the window the
    time lies in. *)
Theorem limiter_window c name rate opts rl :
  NewRateLimiter c name rate opts = Ran rl →
  0 ≤ window rl ≤ int64_max ∧
  (windowed (rl_algorithm rl) = true →
   let W := Milliseconds (window rl) in
   1 ≤ W ∧ ∀ now, 0 ≤ now → ∃ i, fixedWindowKey rl now = Ran (rl_key rl +:+ ":" +:+ itoa i) ∧
     i * W ≤ now < (i + 1) * W).
Proof.
  intros Hok%new_limiter_ok. split; [apply (ok_window rl Hok)|]. intros Hw W.
  pose proof (ok_whole rl Hok Hw) as H1; fold W in H1. split; [done|]. intros now Hnow. exists (now / W).
  unfold fixedWindowKey; fold W. rewrite (proj2 (Z.eqb_neq W 0)), Z.quot_div_nonneg by lia. split; [done|].
  pose proof (Z.div_mod now W ltac:(lia)). pose proof (Z.mod_pos_bound now W ltac:(lia)). lia.
Qed.

Module Ex.
(** One request per millisecond, the shortest window there is. *)
Definition shortest : Rate := PerSecond (of_Z 1000).
Definition ms_limiter : RateLimiter :=
  {| rl_client := New []; rl_name := "api"; rl_key := "{api}"; rl_capacity := of_Z 1;
     rl_rate := of_Z 1000; rl_algorithm := AlgorithmFixedWindow |}.

Lemma new_ms_limiter :
  NewRateLimiter (New []) "api" (WithBurst shortest (of_Z 1)) [FixedWindow] = Ran ms_limiter.
Proof. vm_compute; reflexivity. Qed.

Lemma limiter_window_witness : 1 ≤ Milliseconds (window ms_limiter).
Proof.
  destruct (limiter_window (New []) "api" (WithBurst shortest (of_Z 1)) [FixedWindow] ms_limiter new_ms_limiter)
    as [_ H]. apply H. reflexivity.
Defined.

(** A negative count is refused; a network that fails is reported. *)
Definition w0 : world mem := at_start (7 * Second) [quiet; net_fails 1 NetDeadline].

Lemma allow_results_witness :
  (∃ msg, Allow ms_limiter (of_Z (-1)) w0 = (Ran (false, 0, Some (rl_error ms_limiter msg)), w0)) ∧
  ∃ v, (Allow ms_limiter (of_Z 1) w0).1 = Ran v ∧ answered v.
Proof.
  split.
  - apply (allow_results (New []) "api" (WithBurst shortest (of_Z 1)) [FixedWindow] ms_limiter (of_Z (-1)) w0
      new_ms_limiter); vm_compute; reflexivity.
  - apply (allow_results (New []) "api" (WithBurst shortest (of_Z 1)) [FixedWindow] ms_limiter (of_Z 1) w0
      new_ms_limiter); vm_compute; reflexivity.
Defined.

(** Half a millisecond is left. *)
Definition late_ctx : context := Ctx (Some (7 * Second + 500000)) ErrDeadlineExceeded.

Lemma rl_acquire_returns_witness :
  ∃ o, (rl_Acquire 7814 late_ctx ms_limiter (of_Z 1) w0).1 = Ran o ∧ o ≠ NoFuel.
Proof.
  apply (rl_acquire_returns (New []) "api" (WithBurst shortest (of_Z 1)) [FixedWindow] ms_limiter 7814 late_ctx
    (7 * Second + 500000) (of_Z 1) w0 new_ms_limiter).
  - solve_sched.
  - reflexivity.
  - apply Nat.leb_le. vm_compute; reflexivity.
Defined.
End Ex.
