(* ===== verification/RateWindow.v ===== *)
(** * The windowed limiters

    What [ratelimit_fixed.lua] and [ratelimit_sliding.lua] admit, over the
    whole history of a limiter's key: all its clients, other traffic, and the
    expiry of the key. *)
From S2P Require Import Prelude Float64 Redis RedisMem Errors Requests ScriptsSem ScriptsRate.
From S2P Require Import GoRuntime Scenario Keys Config RateLog RateLimiter.
Open Scope Z_scope.

(** ** Fixed windows *)

Section fixed_script.
Context (t0 : Z) (k : string) (limit : float64) (W now n : Z).

(** The counter of a window key. *)
Definition fixed_count (m : keyspace) (g : Z) : Prop :=
  (m !! k = None ∧ g = 0) ∨ ∃ x, m !! k = Some (Entry (VStr (itoa g)) x).

Definition fixed_reply (g : Z) : reply :=
  let retryMs := (now / W + 1) * W - now in
  if fltb limit (of_Z (g + n)) then RInts [0; 0; retryMs]
  else RInts [1; ftrunc (fsub limit (of_Z (g + n))); retryMs].

Lemma ratelimit_fixed_run `{LN : !LuaNumbers} m g :
  0 ≤ now ≤ 2 ^ 52 → 1 ≤ W ≤ 2 ^ 52 → 0 ≤ g ≤ 2 ^ 53 → 1 ≤ n ≤ 2 ^ 53 → fixed_count m g →
  serve_ref t0 (RateLimitFixed k limit W now n) m =
  (fixed_reply g, <[k := Entry (VStr (itoa (if fltb limit (of_Z (g + n)) then g else g + n)))
                                (Some (t0 + W * 2))]> m).
Proof.
  intros Hnow HW Hg Hn Hc. unfold serve_ref; cbn [request_script request_fuel].
  unfold ratelimit_fixed, fixed_reply. rewrite floor_quotient by lia.
  assert (in_int64 g = true ∧ in_int64 (g + n) = true ∧ in_int64 (g + n + - n) = true) as (I1 & I2 & I3).
  { rewrite !in_int64_spec; unfold int64_min, int64_max; lia. }
  assert (∃ x, ref_incrby k n m = (RInt (g + n), <[k := Entry (VStr (itoa (g + n))) x]> m)) as [x Hx].
  { unfold ref_incrby. destruct Hc as [[-> ->]|[x ->]]; [by exists None|].
    rewrite atoi_itoa, I1, I2. by exists x. }
  cbn [mbind script_bind sbind call_int run_ref ref_exec]. rewrite Hx.
  unfold ref_pexpire. rewrite lookup_insert_eq, (proj2 (Z.leb_gt _ _)) by lia. rewrite insert_insert_eq.
  destruct (fltb limit (of_Z (g + n))); cbn [sbind run_ref ref_exec mret script_ret answer]; [|done].
  unfold ref_incrby. rewrite lookup_insert_eq, atoi_itoa, I2, I3, insert_insert_eq.
  cbn [run_ref answer]. replace (g + n + - n) with g by lia. done.
Qed.
End fixed_script.

(** A windowed limiter that the constructor returned. *)
Lemma windowed_params rl :
  limiter_ok rl → windowed (rl_algorithm rl) = true →
  1 ≤ Milliseconds (window rl) ≤ 2 ^ 52 ∧
  ∃ c, rl_capacity rl = Fin c ∧ unit64 ≤ c ≤ (2 ^ 53 - 1) * unit64 ∧
       ∀ z, 0 ≤ z → fltb (rl_capacity rl) (of_Z z) = (c <? z * unit64).
Proof.
  intros Hok Hw. split.
  - split; [by apply (ok_whole rl Hok)|]. destruct (ok_window rl Hok).
    pose proof (Milliseconds_bounds (window rl) ltac:(done)). unfold int64_max, Millisecond in *; lia.
  - destruct (ok_capacity rl Hok) as (c & Ec & _). destruct (ok_count rl Hok Hw) as [H1 H2].
    pose proof unit64_pos. exists c. rewrite Ec in *.
    rewrite (of_Z_exact 1) in H1 by by vm_compute. rewrite (of_Z_exact (2 ^ 53 - 1)) in H2 by by vm_compute.
    apply Z.leb_le in H1, H2. split; [done|]. split; [lia|].
    intros z Hz. apply fltb_of_Z; lia.
Qed.

Section fixed_history.
Context {S : Type} `{!RedisOps S, !RedisLaws S}.
Context (rl : RateLimiter) (wk δ : Z).
Context (Hok : limiter_ok rl) (Halg : rl_algorithm rl = AlgorithmFixedWindow).
Context (Hδ : 0 ≤ δ) (HδW : 2 * δ ≤ Milliseconds (window rl)).

(** The key of window number [wk]. *)
Definition window_key : string := rl_key rl +:+ ":" +:+ itoa wk.

(** What [Allow] sends to this key: a stamp of this window, read from a clock
    that differs from the server's by at most [δ] milliseconds, and a count
    up to the capacity. *)
Definition fixed_visit (pre : list visit) (v : visit) : Prop :=
  ∃ now n, v_request v = RateLimitFixed window_key (rl_capacity rl) (Milliseconds (window rl)) now n ∧
    fixedWindowKey rl now = Ran window_key ∧ 0 ≤ now ≤ 2 ^ 52 ∧ Z.abs (now - v_clock v) ≤ δ ∧
    1 ≤ n ∧ fltb (rl_capacity rl) (of_Z n) = false.

(** The right answer, given what was granted before. *)
Definition fixed_exact (pre : list visit) (v : visit) : Prop :=
  match v_request v with
  | RateLimitFixed _ limit W now n => v_reply v = fixed_reply limit W now n (granted all_visits pre)
  | _ => False
  end.

Definition fixed_inv (log : list visit) (s : S) : Prop :=
  prefix_all fixed_exact [] log ∧
  0 ≤ granted all_visits log ∧ fltb (rl_capacity rl) (of_Z (granted all_visits log)) = false ∧
  match r_view s !! window_key with
  | None => log = [] ∨ (wk + 2) * Milliseconds (window rl) - δ ≤ r_clock s
  | Some e => ∃ x, e = Entry (VStr (itoa (granted all_visits log))) (Some x) ∧
                   (wk + 2) * Milliseconds (window rl) - δ ≤ x
  end.

Lemma fixed_in_window now :
  0 ≤ now → fixedWindowKey rl now = Ran window_key →
  wk * Milliseconds (window rl) ≤ now < (wk + 1) * Milliseconds (window rl).
Proof.
  intros Hn. unfold fixedWindowKey, window_key. pose proof (ok_whole rl Hok) as Hw. rewrite Halg in Hw.
  specialize (Hw eq_refl). rewrite (proj2 (Z.eqb_neq _ 0)) by lia. intros [= H].
  apply append_inj_l in H. injection H as H%itoa_inj. rewrite Z.quot_div_nonneg in H by lia.
  pose proof (Z.div_mod now (Milliseconds (window rl)) ltac:(lia)).
  pose proof (Z.mod_pos_bound now (Milliseconds (window rl)) ltac:(lia)). nia.
Qed.

Lemma fixed_inv_tick log s ds : 0 ≤ ds → fixed_inv log s → fixed_inv log (r_tick ds s).
Proof.
  intros Hds (H1 & H2 & H3 & H4). split_and!; [done..|]. rewrite tick_lookup.
  assert (r_clock s ≤ UnixMilli (r_time s + ds)) as Hc by (apply UnixMilli_mono; lia).
  assert (r_clock (r_tick ds s) = UnixMilli (r_time s + ds)) as -> by (unfold r_clock; by rewrite law_tick_time).
  destruct (r_view s !! window_key) as [e|]; [|destruct H4; [by left|right; lia]].
  destruct H4 as (x & -> & Hx). case_decide as Hl; [by exists x|right].
  unfold entry_live in Hl; simpl in Hl. destruct (Z.lt_ge_cases (UnixMilli (r_time s + ds)) x) as [Hlt|]; [|lia].
  by apply (law_not_expired x) in Hlt.
Qed.

Lemma fixed_inv_serve log s r :
  fixed_inv log s → fixed_visit log (Visit (r_clock s) r (serve r s).1) →
  fixed_inv (log ++ [Visit (r_clock s) r (serve r s).1]) (serve r s).2.
Proof.
  intros (H1 & H2 & H3 & H4) (now & n & Er & Hk & Hnow & Hclk & Hn & Hfit); simpl in Er, Hclk; subst r.
  destruct (windowed_params rl Hok) as (HW & c & Ec & Hc & Hcmp); [by rewrite Halg|].
  pose proof unit64_pos as Hu. set (W := Milliseconds (window rl)) in *. set (g := granted all_visits log) in *.
  pose proof (fixed_in_window now ltac:(lia) Hk) as Hwin; fold W in Hwin.
  rewrite Hcmp in H3, Hfit by lia. apply Z.ltb_ge in H3, Hfit.
  assert (g ≤ 2 ^ 53 ∧ n ≤ 2 ^ 53) as [Hg53 Hn53] by nia.
  assert (fixed_count window_key (r_view s) g) as Hcount.
  { unfold fixed_count. destruct (r_view s !! window_key) as [e|].
    - destruct H4 as (x & -> & _). right; by exists (Some x).
    - destruct H4 as [->|Hexp]; [by left|]. lia. }
  pose proof (ratelimit_fixed_run (r_clock s) window_key (rl_capacity rl) W now n (r_view s) g
    Hnow HW ltac:(lia) ltac:(lia) Hcount) as Hrun.
  assert (granted all_visits (log ++ [Visit (r_clock s)
      (RateLimitFixed window_key (rl_capacity rl) W now n)
      (serve (RateLimitFixed window_key (rl_capacity rl) W now n) s).1]) =
    if fltb (rl_capacity rl) (of_Z (g + n)) then g else g + n) as Hg'.
  { rewrite granted_app; fold g. simpl. unfold admitted, charge; simpl.
    rewrite serve_reply, Hrun; simpl. unfold fixed_reply. destruct (fltb _ _); simpl; lia. }
  split_and!; rewrite ?Hg'.
  - apply prefix_all_snoc; split; [done|]. unfold fixed_exact; simpl. by rewrite serve_reply, Hrun.
  - destruct (fltb _ _); lia.
  - destruct (fltb (rl_capacity rl) (of_Z (g + n))) eqn:E; [|done]. rewrite Hcmp by lia. by apply Z.ltb_ge.
  - rewrite serve_view, Hrun; simpl. rewrite lookup_insert_eq. eexists; split; [done|]. lia.
Qed.
End fixed_history.

(** ** Sliding windows *)

(** The members of one admitted request. *)
Fixpoint sliding_members (prefix : string) (i : Z) (n : nat) : list string :=
  match n with
  | O => []
  | S n => (prefix +:+ ":" +:+ itoa i) :: sliding_members prefix (i + 1) n
  end.

Section sliding_script.
Context (t0 : Z) (k : string) (limit : float64) (W now n : Z) (prefix : string).

Lemma sliding_add_run i c m z :
  zset_of m k = Some z →
  ∃ m', run_ref t0 (sliding_add k prefix now i c) m = (inr tt, m') ∧
        zset_of m' k = Some (zadd_all now (sliding_members prefix i c) z).
Proof.
  revert i m z; induction c as [|c IH]; intros i m z Hz; [by exists m|].
  cbn [sliding_add]. zstep Hz m1 H1. apply (IH (i + 1) m1), H1.
Qed.

(** The key holds the set [z], to expire at [x]; a missing key is the empty
    set. *)
Definition zset_at (m : keyspace) (z : gmap string Z) (x : Z) : Prop :=
  (m !! k = None ∧ z = ∅) ∨ m !! k = Some (Entry (VZset z) (Some x)).

Lemma pexpire_zset_at m z :
  1 ≤ W → zset_of m k = Some z →
  ∃ c m', ref_pexpire t0 k (W * 2) m = (RInt c, m') ∧ zset_at m' z (t0 + 2 * W).
Proof.
  intros HW. unfold zset_of, ref_pexpire, zset_at. destruct (m !! k) as [[[| |] x]|] eqn:E; intros [= <-].
  - rewrite (proj2 (Z.leb_gt _ _)) by lia. eexists _, _; split; [done|]. rewrite lookup_insert_eq. right.
    do 3 f_equal; lia.
  - eexists _, _; split; [done|]. by left.
Qed.

(** How long until the oldest entry leaves the window. *)
Definition sliding_retry (z : gmap string Z) : Z :=
  match zsorted z with (s, _) :: _ => W - (now - s) | [] => W end.

Definition sliding_result (z : gmap string Z) : reply * gmap string Z :=
  let z1 := zalive (now - W) z in
  let used := Z.of_nat (size z1) in
  if fltb limit (of_Z (used + n)) then (RInts [0; 0; sliding_retry z1], z1)
  else (RInts [1; ftrunc (fsub (fsub limit (of_Z used)) (of_Z n)); 0],
        zadd_all now (sliding_members prefix 0 (Z.to_nat n)) z1).

Lemma ratelimit_sliding_run `{LN : !LuaNumbers} m z :
  1 ≤ W → zset_of m k = Some z →
  ∃ m', serve_ref t0 (RateLimitSliding k limit W now n prefix) m = ((sliding_result z).1, m') ∧
        zset_at m' (sliding_result z).2 (t0 + 2 * W).
Proof.
  intros HW Hz. unfold serve_ref; cbn [request_script request_fuel]. unfold ratelimit_sliding, sliding_result.
  zstep Hz m1 H1. fold (zalive (now - W) z) in *. destruct H1 as (Hz1 & _).
  zstep Hz1 m2 H2. destruct H2 as (Hz2 & _). set (z1 := zalive (now - W) z) in *.
  destruct (fltb limit (of_Z (Z.of_nat (size z1) + n))).
  - zstep Hz2 m3 H3. destruct H3 as (Hz3 & _). unfold sliding_retry.
    destruct (pexpire_zset_at m3 z1 HW Hz3) as (c & m' & Hp & Hat).
    exists m'. destruct (zsorted z1) as [|[s x] l]; cbn; rewrite ?atoi_itoa; cbn; rewrite Hp; done.
  - change (sbind ?f ?p) with (mbind (M := script) f p); rewrite run_ref_bind.
    destruct (sliding_add_run 0 (Z.to_nat n) m2 z1 Hz2) as (m3 & -> & Hz3).
    destruct (pexpire_zset_at m3 _ HW Hz3) as (c & m' & Hp & Hat).
    exists m'. cbn; rewrite Hp; done.
Qed.
End sliding_script.

(** ** The entries a history leaves *)

Definition prefix_of (v : visit) : string :=
  match v_request v with RateLimitSliding _ _ _ _ _ p => p | _ => "" end.
Definition entries (v : visit) : list string := sliding_members (prefix_of v) 0 (Z.to_nat (charge v)).

Definition add_entries (z : gmap string Z) (v : visit) : gmap string Z :=
  if admitted v then zadd_all (stamp v) (entries v) z else z.

(** All entries ever added by the admitted requests. *)
Definition all_entries (log : list visit) : gmap string Z := foldl add_entries ∅ log.

Lemma all_entries_snoc log v : all_entries (log ++ [v]) = add_entries (all_entries log) v.
Proof. unfold all_entries; by rewrite foldl_app. Qed.

Lemma append_inj (a a' b b' : string) :
  String.length a = String.length a' → a +:+ b = a' +:+ b' → a = a' ∧ b = b'.
Proof.
  revert a'; induction a as [|ch a IH]; intros [|ch' a'] Hl; try done.
  intros [= -> H]. injection Hl as Hl. by destruct (IH a' Hl H) as [-> ->].
Qed.

Lemma elem_of_members p i n x :
  x ∈ sliding_members p i n ↔ ∃ j, i ≤ j < i + Z.of_nat n ∧ x = p +:+ ":" +:+ itoa j.
Proof.
  revert i; induction n as [|n IH]; intros i; cbn [sliding_members].
  - split; [by intros ?%not_elem_of_nil|]. intros (j & ? & _); lia.
  - rewrite elem_of_cons, IH. split.
    + intros [->|(j & ? & ->)]; [exists i|exists j]; (split; [lia|done]).
    + intros (j & ? & ->). destruct (decide (j = i)) as [->|]; [by left|right]. exists j; split; [lia|done].
Qed.

Lemma NoDup_members p i n : NoDup (sliding_members p i n).
Proof.
  revert i; induction n as [|n IH]; intros i; cbn [sliding_members]; [constructor|].
  constructor; [|done]. rewrite elem_of_members. intros (j & ? & H).
  apply append_inj_l, append_inj_l, itoa_inj in H. lia.
Qed.

Lemma length_members p i n : length (sliding_members p i n) = n.
Proof. revert i; induction n as [|n IH]; intros i; simpl; [done|by rewrite IH]. Qed.

(** What survives of new entries: those whose score does. *)
Lemma zalive_zadd_all t s ms z :
  (∀ x, x ∈ ms → z !! x = None) →
  zalive t (zadd_all s ms z) = if t <? s then zadd_all s ms (zalive t z) else zalive t z.
Proof.
  intros Hf. apply map_eq; intros x. apply option_eq; intros y. rewrite lookup_zalive, lookup_zadd_all.
  destruct (Z.ltb_spec t s); rewrite ?lookup_zadd_all; destruct (decide (x ∈ ms)) as [Hx|];
    rewrite ?lookup_zalive; try done.
  - split; [by intros [[= <-] _]|]. intros [= <-]; split; [done|lia].
  - rewrite (Hf x Hx). split; [intros [[= <-] ?]; lia|by intros [? _]].
Qed.

Lemma size_zadd_fresh s ms z :
  NoDup ms → (∀ x, x ∈ ms → z !! x = None) → size (zadd_all s ms z) = (length ms + size z)%nat.
Proof.
  intros Hnd; unfold zadd_all. revert z; induction Hnd as [|x ms Hx Hnd IH]; intros z Hf; simpl; [done|].
  rewrite IH.
  - rewrite map_size_insert_None by (apply Hf; by left). lia.
  - intros y Hy. rewrite lookup_insert_ne by (intros ->; done). apply Hf; by right.
Qed.

(** Distinct prefixes of one length, as [lease.Token] draws them. *)
Definition fresh_prefix (pre : list visit) (v : visit) : Prop :=
  String.length (prefix_of v) = 32%nat ∧ Forall (λ u, prefix_of u ≠ prefix_of v) pre.

Lemma fresh_entries pre v x :
  prefix_all fresh_prefix [] pre → fresh_prefix pre v → x ∈ entries v → all_entries pre !! x = None.
Proof.
  intros Hpre [Hl Hne] Hx. apply elem_of_members in Hx as (j & _ & ->). revert Hpre Hne.
  induction pre as [|u pre IH] using rev_ind; intros Hpre Hne; [done|].
  apply prefix_all_snoc in Hpre as [Hpre [Hlu _]]. apply Forall_app in Hne as [Hne Hu].
  rewrite Forall_singleton in Hu. rewrite all_entries_snoc; unfold add_entries.
  destruct (admitted u); [|by apply IH]. rewrite lookup_zadd_all, decide_False; [by apply IH|].
  unfold entries; rewrite elem_of_members. intros (i & _ & E). apply append_inj in E as [E _]; congruence.
Qed.

(** The live entries count what was granted since. *)
Lemma count_entries t log :
  prefix_all fresh_prefix [] log → Forall (λ v, 0 ≤ charge v) log →
  Z.of_nat (size (zalive t (all_entries log))) = granted (λ v, t <? stamp v) log.
Proof.
  induction log as [|v log IH] using rev_ind; intros Hf Hc; [done|].
  apply prefix_all_snoc in Hf as [Hf Hv]. apply Forall_app in Hc as [Hc Hcv]. rewrite Forall_singleton in Hcv.
  rewrite granted_app, <- IH, all_entries_snoc by done. unfold add_entries; cbn [granted].
  destruct (admitted v); [|rewrite andb_false_r; lia]. rewrite andb_true_r.
  rewrite zalive_zadd_all by (intros x; by apply fresh_entries).
  destruct (t <? stamp v); [|lia]. rewrite size_zadd_fresh.
  - unfold entries. rewrite length_members. lia.
  - apply NoDup_members.
  - intros x Hx. destruct (zalive t (all_entries log) !! x) eqn:E; [|done].
    apply lookup_zalive in E as [E _]. by rewrite (fresh_entries log v x Hf Hv Hx) in E.
Qed.

(** An entry tells of an admitted request. *)
Lemma entry_origin log x s :
  all_entries log !! x = Some s → ∃ v, v ∈ log ∧ admitted v = true ∧ stamp v = s.
Proof.
  induction log as [|v log IH] using rev_ind; [done|]. rewrite all_entries_snoc; unfold add_entries.
  intros H. assert (all_entries log !! x = Some s ∨ (admitted v = true ∧ s = stamp v)) as [Hl|[Ha ->]].
  { destruct (admitted v); [|by left]. rewrite lookup_zadd_all in H. case_decide; [right|by left]. by injection H as <-. }
  - destruct (IH Hl) as (u & ? & ?). exists u; split; [|done]. apply elem_of_app; by left.
  - exists v; split; [|done]. apply elem_of_app; right; by apply list_elem_of_singleton.
Qed.

(** The latest stamp the server has seen, [t] included. *)
Definition latest (pre : list visit) (t : Z) : Z := foldr (λ u m, Z.max (stamp u) m) t pre.

Lemma latest_max pre a b : latest pre (Z.max a b) = Z.max (latest pre a) b.
Proof. induction pre as [|u pre IH]; simpl; [done|]. rewrite IH; lia. Qed.
Lemma latest_snoc pre v t : latest (pre ++ [v]) t = Z.max (latest pre (stamp v)) t.
Proof. unfold latest at 1; rewrite foldr_app; cbn [foldr]. exact (latest_max pre (stamp v) t). Qed.
Lemma latest_le pre t : t ≤ latest pre t ∧ Forall (λ u, stamp u ≤ latest pre t) pre.
Proof.
  induction pre as [|u pre [IH1 IH2]]; simpl; [by split|]. split; [lia|]. constructor; [lia|].
  eapply Forall_impl; [exact IH2|]. simpl; lia.
Qed.
Lemma latest_bound pre t b : t ≤ b → Forall (λ u, stamp u ≤ b) pre → latest pre t ≤ b.
Proof. induction 2; simpl; lia. Qed.

(** A visit's stamp is at most [η] before those the server has seen. *)
Definition late_by (η : Z) (pre : list visit) (v : visit) : Prop := Forall (λ u, stamp u ≤ stamp v + η) pre.

(** In the [len] milliseconds that end with [t]. *)
Definition in_window (len t : Z) (v : visit) : bool := (t - len <? stamp v) && (stamp v <=? t).

(** The server's clock goes forward through the log. *)
Definition clocked (pre : list visit) (v : visit) : Prop := Forall (λ u, v_clock u ≤ v_clock v) pre.

Section sliding_history.
Context {S : Type} `{!RedisOps S, !RedisLaws S}.
Context (rl : RateLimiter) (δ : Z).
Context (Hok : limiter_ok rl) (Halg : rl_algorithm rl = AlgorithmSlidingWindow).
Context (Hδ : 0 ≤ δ) (HδW : 2 * δ < Milliseconds (window rl)).

(** What [Allow] sends: a count up to the capacity, a prefix of its own, and
    a stamp from a clock that differs from the server's by at most [δ]
    milliseconds. *)
Definition sliding_visit (pre : list visit) (v : visit) : Prop :=
  (∃ now n p, v_request v = RateLimitSliding (rl_key rl) (rl_capacity rl) (Milliseconds (window rl)) now n p ∧
     1 ≤ n ∧ fltb (rl_capacity rl) (of_Z n) = false) ∧
  Z.abs (stamp v - v_clock v) ≤ δ ∧ fresh_prefix pre v.

(** What was granted in the window that ends with the latest stamp. *)
Definition used (pre : list visit) (v : visit) : Z :=
  granted (in_window (Milliseconds (window rl)) (latest pre (stamp v))) pre.

(** The right answer: allowed exactly when the count fits with what was
    granted in that window; otherwise the retry-after is the time until some
    admitted request leaves the window. *)
Definition sliding_exact (pre : list visit) (v : visit) : Prop :=
  if fltb (rl_capacity rl) (of_Z (used pre v + charge v)) then
    ∃ ms, v_reply v = RInts [0; 0; ms] ∧ 1 ≤ ms ∧
      ∃ u, u ∈ pre ∧ admitted u = true ∧ stamp u + Milliseconds (window rl) = stamp v + ms
  else ∃ left, v_reply v = RInts [1; left; 0].

Lemma exact_admitted pre v :
  sliding_exact pre v → admitted v = negb (fltb (rl_capacity rl) (of_Z (used pre v + charge v))).
Proof.
  unfold sliding_exact, admitted. destruct (fltb _ _).
  - by intros (ms & -> & _).
  - by intros (left & ->).
Qed.

Definition sliding_inv (log : list visit) (s : S) : Prop :=
  prefix_all sliding_exact [] log ∧ prefix_all sliding_visit [] log ∧
  (prefix_all clocked [] log ∧ Forall (λ u, v_clock u ≤ r_clock s) log) ∧
  match last log with
  | None => r_view s !! rl_key rl = None
  | Some v =>
      zset_at (rl_key rl) (r_view s) (zalive (latest log (stamp v) - Milliseconds (window rl)) (all_entries log))
        (v_clock v + 2 * Milliseconds (window rl)) ∨
      (r_view s !! rl_key rl = None ∧ v_clock v + 2 * Milliseconds (window rl) ≤ r_clock s)
  end.

Lemma sliding_facts log :
  prefix_all sliding_visit [] log → prefix_all fresh_prefix [] log ∧ Forall (λ v, 0 ≤ charge v) log.
Proof.
  induction log as [|v log IH] using rev_ind; [done|]. rewrite !prefix_all_snoc, Forall_app, Forall_singleton.
  intros [H ((now & n & p & E & ? & _) & _ & ?)]. destruct (IH H). split_and!; try done.
  unfold charge; rewrite E; lia.
Qed.

(** The clocks' difference bounds every stamp, and how late it can be. *)
Lemma skews log : prefix_all sliding_visit [] log → Forall (λ v, Z.abs (stamp v - v_clock v) ≤ δ) log.
Proof.
  induction log as [|v log IH] using rev_ind; [done|]. intros [Hv (_ & ? & _)]%prefix_all_snoc.
  apply Forall_app; split; [auto|by apply Forall_singleton].
Qed.

Lemma skew_late log :
  prefix_all sliding_visit [] log → prefix_all clocked [] log → prefix_all (late_by (2 * δ)) [] log.
Proof.
  intros Hs%skews Hc. induction log as [|v log IH] using rev_ind; [done|].
  revert Hc Hs; rewrite !prefix_all_snoc, Forall_app, Forall_singleton. intros [Hc Hcv] [Hs Hv]. split; [by apply IH|].
  unfold late_by, clocked in *. rewrite Forall_forall in *. intros u Hu. specialize (Hcv u Hu); specialize (Hs u Hu).
  simpl in *. lia.
Qed.

Lemma sliding_inv_tick log s ds : 0 ≤ ds → sliding_inv log s → sliding_inv log (r_tick ds s).
Proof.
  intros Hds (H1 & H2 & (H3 & H3') & H4).
  assert (r_clock s ≤ UnixMilli (r_time s + ds)) as Hc by (apply UnixMilli_mono; lia).
  assert (r_clock (r_tick ds s) = UnixMilli (r_time s + ds)) as E by (unfold r_clock; by rewrite law_tick_time).
  split_and!; [done..| |]. { eapply Forall_impl; [exact H3'|]. rewrite E; simpl; lia. }
  destruct (last log) as [v|]; [|by rewrite tick_lookup, H4].
  unfold zset_at in *. rewrite E, tick_lookup.
  destruct H4 as [[[-> ?]| ->]|[-> ?]]; [by left; left| |right; split; [done|lia]].
  case_decide as Hl; [by left; right|right]. split; [done|]. unfold entry_live in Hl; simpl in Hl.
  set (x := v_clock v + _) in *. destruct (Z.lt_ge_cases (UnixMilli (r_time s + ds)) x) as [Hlt|]; [|done].
  by apply (law_not_expired x) in Hlt.
Qed.

Lemma zalive_zalive a b z : zalive a (zalive b z) = zalive (Z.max b a) z.
Proof. apply map_eq; intros x. apply option_eq; intros y. rewrite !lookup_zalive. intuition lia. Qed.

(** What the script finds: the entries of the requests admitted in the window. *)
Lemma sliding_found log s now :
  sliding_inv log s → Z.abs (now - r_clock s) ≤ δ →
  ∃ z, zset_of (r_view s) (rl_key rl) = Some z ∧
    zalive (now - Milliseconds (window rl)) z = zalive (latest log now - Milliseconds (window rl)) (all_entries log).
Proof.
  intros (_ & Hv & (Hc & _) & H) Hclk. set (W := Milliseconds (window rl)) in *. unfold zset_of, zset_at in *.
  destruct (last log) as [v|] eqn:El.
  2: { exists ∅. rewrite H. by apply last_None in El as ->. }
  apply last_Some in El as [log0 ->]. rewrite latest_snoc in *. rewrite Z.max_l in H by apply latest_le.
  assert (Z.max (latest log0 (stamp v)) now - W = Z.max (latest log0 (stamp v) - W) (now - W)) as -> by lia.
  rewrite <- zalive_zalive. destruct H as [[[-> Hz]| ->]|[-> Hexp]]; eexists; (split; [done|]); [|done|].
  - by rewrite <- Hz.
  - transitivity (∅ : gmap string Z); [apply map_filter_empty|]. symmetry.
    apply map_eq; intros x. rewrite lookup_empty, zalive_zalive.
    destruct (zalive _ _ !! x) as [y|] eqn:E; [|done]. apply lookup_zalive in E as [E Hy].
    apply entry_origin in E as (u & Hu & _ & <-).
    pose proof (proj1 (Forall_forall _ _) (skews _ Hv) u Hu) as Hd. apply prefix_all_snoc in Hc as [_ Hc].
    assert (v_clock u ≤ v_clock v); [|simpl in Hd; lia].
    apply elem_of_app in Hu as [Hu|Hu%list_elem_of_singleton]; [|by subst].
    exact (proj1 (Forall_forall _ _) Hc u Hu).
Qed.

Lemma sliding_inv_serve log s r :
  sliding_inv log s → sliding_visit log (Visit (r_clock s) r (serve r s).1) →
  sliding_inv (log ++ [Visit (r_clock s) r (serve r s).1]) (serve r s).2.
Proof.
  intros HI Hv. pose proof HI as (H1 & H2 & (H3 & H3') & _). set (v := Visit (r_clock s) r (serve r s).1) in *.
  pose proof Hv as ((now & n & p & Er & Hn & Hfit) & Hclk & Hfresh). simpl in Er.
  destruct (windowed_params rl Hok) as (HW & c & Ec & Hc & Hcmp); [by rewrite Halg|].
  destruct (sliding_facts log H2) as [Hpre Hch]. pose proof unit64_pos as Hu.
  set (W := Milliseconds (window rl)) in *.
  assert (stamp v = now ∧ charge v = n) as [Es En] by (unfold stamp, charge; simpl; by rewrite Er).
  rewrite Es in Hclk. destruct (sliding_found log s now HI Hclk) as (z & Hz & Hza). fold W in Hza.
  destruct (ratelimit_sliding_run (r_clock s) (rl_key rl) (rl_capacity rl) W now n p (r_view s) z ltac:(lia) Hz)
    as (m' & Hrun & Hat). rewrite <- Er in Hrun.
  assert (v_reply v = (sliding_result (rl_capacity rl) W now n p z).1) as Hrep
    by (unfold v; simpl; by rewrite serve_reply, Hrun).
  destruct (latest_le log now) as [HT HTs]. set (T := latest log now) in *.
  assert (Z.of_nat (size (zalive (now - W) z)) = used log v) as Hused.
  { unfold used; rewrite Es; fold W T. rewrite Hza, count_entries by done.
    clear - HTs. clearbody T. induction log as [|u log IH]; simpl; [done|]. apply Forall_cons in HTs as [Hu Hm].
    rewrite IH by done. unfold in_window. by rewrite (proj2 (Z.leb_le (stamp u) T) Hu), andb_true_r. }
  assert (prefix_all clocked [] (log ++ [v])) as Hclocked by (by apply prefix_all_snoc).
  assert (prefix_all sliding_visit [] (log ++ [v])) as Hvisit by (by apply prefix_all_snoc).
  set (g := used log v) in *. unfold sliding_result in Hrep, Hat. rewrite Hused in Hrep, Hat.
  assert (sliding_exact log v) as Hexact.
  { unfold sliding_exact. rewrite En; fold g. destruct (fltb (rl_capacity rl) (of_Z (g + n))) eqn:E; [|by eexists].
    exists (sliding_retry W now (zalive (now - W) z)). split; [done|]. fold W. unfold sliding_retry.
    destruct (zsorted (zalive (now - W) z)) as [|[t x] l] eqn:Eh.
    + exfalso. apply zsorted_nil in Eh. rewrite Eh, map_size_empty in Hused.
      replace (g + n) with n in E by lia. congruence.
    + apply zsorted_head in Eh as [Ht _]. pose proof Ht as Hlt. apply lookup_zalive in Hlt as [_ Hlt].
      rewrite Hza in Ht. apply lookup_zalive in Ht as [Ht _]. apply entry_origin in Ht as (u & Hu' & Hadm & <-).
      split; [lia|]. exists u. rewrite Es. split_and!; [done..|lia]. }
  split_and!; [by apply prefix_all_snoc|done|done| |].
  - apply Forall_app; split; [|by apply Forall_singleton; rewrite serve_clock]. eapply Forall_impl; [exact H3'|].
    by rewrite serve_clock.
  - rewrite last_snoc. left. simpl v_clock. rewrite serve_view, Hrun. cbn [snd]. fold W.
    rewrite latest_snoc, Es, Z.max_l by done. fold T.
    rewrite all_entries_snoc. unfold add_entries. rewrite (exact_admitted log v Hexact), En; fold g.
    destruct (fltb (rl_capacity rl) (of_Z (g + n))); cbn [negb]; [by rewrite <- Hza|].
    rewrite zalive_zadd_all by (intros x; by apply fresh_entries).
    assert (T ≤ now + 2 * δ) as HTn.
    { apply latest_bound; [lia|]. pose proof (skew_late _ Hvisit Hclocked) as Hl. apply prefix_all_snoc in Hl as [_ Hl].
      by rewrite <- Es. }
    rewrite Es, (proj2 (Z.ltb_lt _ _)) by lia.
    rewrite <- Hza. unfold entries. rewrite En.
    assert (prefix_of v = p) as -> by (unfold prefix_of; simpl; by rewrite Er). done.
Qed.

(** Exact answers keep every window within the capacity that is shorter than
    the limiter's by the lateness of the stamps. *)
Lemma sliding_bound log η :
  0 ≤ η → prefix_all sliding_exact [] log → prefix_all sliding_visit [] log → prefix_all (late_by η) [] log →
  ∀ t, fltb (rl_capacity rl) (of_Z (granted (in_window (Milliseconds (window rl) - η) t) log)) = false.
Proof.
  intros Hη He Hv Hl t. destruct (windowed_params rl Hok) as (_ & c & Ec & Hc & Hcmp); [by rewrite Halg|].
  pose proof unit64_pos as Hu. set (W := Milliseconds (window rl)).
  induction log as [|v log IH] using rev_ind.
  { rewrite Hcmp by done. apply Z.ltb_ge. simpl; lia. }
  destruct (sliding_facts _ Hv) as [_ Hch]. apply Forall_app in Hch as [Hch Hcv]. rewrite Forall_singleton in Hcv.
  apply prefix_all_snoc in He as [He Hev], Hv as [Hv _], Hl as [Hl Hlv]. specialize (IH He Hv Hl).
  rewrite granted_app. cbn [granted]. rewrite (exact_admitted log v Hev), Z.add_0_r.
  destruct (in_window (W - η) t v) eqn:Et; [|by rewrite Z.add_0_r].
  destruct (fltb (rl_capacity rl) (of_Z (used log v + charge v))) eqn:E; [by rewrite Z.add_0_r|].
  cbn [negb andb]. assert (granted (in_window (W - η) t) log ≤ used log v) as Hle.
  { apply granted_mono; [done|]. intros u Hu'. unfold in_window in *; fold W.
    destruct (latest_le log (stamp v)) as [_ HT]. rewrite Forall_forall in HT. specialize (HT u Hu').
    assert (latest log (stamp v) ≤ stamp v + η); [|lia].
    apply latest_bound; [lia|]. eapply Forall_impl; [exact Hlv|]. simpl; lia. }
  pose proof (granted_nonneg (in_window (W - η) t) log Hch).
  rewrite Ec, fltb_of_Z in E |- * by lia. apply Z.ltb_ge in E. apply Z.ltb_ge. nia.
Qed.
End sliding_history.

Section window_theorems.
Context {S : Type} `{!RedisOps S, !RedisLaws S}.

(** C13: a fixed window is exact.  Take any history of the server in which the
    key of one window is used only by clients of the limiter, whose clocks
    differ from the server's by at most half a window: every request is
    answered as [fixed_reply] says, allowed exactly when its count fits with
    the counts granted before it in this window (refused requests leave
    nothing behind) and with the time to the next window as retry-after; all
    granted counts together are within the capacity, and the counter does not
    expire while its window can still be used. *)
Theorem fixed_window_exact c name rate opts rl wk δ l (s : S) :
  NewRateLimiter c name rate opts = Ran rl → rl_algorithm rl = AlgorithmFixedWindow →
  0 ≤ δ → 2 * δ ≤ Milliseconds (window rl) → forward l →
  r_view s !! window_key rl wk = None →
  prefix_all (fixed_visit rl wk δ) [] (log_on (window_key rl wk) l s) →
  let log := log_on (window_key rl wk) l s in
  prefix_all fixed_exact [] log ∧ fltb (rl_capacity rl) (of_Z (granted all_visits log)) = false.
Proof.
  intros Hnew Halg Hδ HδW Hf Hs Hv log. pose proof (new_limiter_ok _ _ _ _ _ Hnew) as Hok.
  destruct (log_invariant (window_key rl wk) (fixed_visit rl wk δ) (fixed_inv rl wk δ) l s [])
    as (H1 & _ & H2 & _); try done.
  - intros; by apply fixed_inv_tick.
  - intros log' s' r Hk (H1 & H2 & H3 & H4). split_and!; [done..|].
    rewrite serve_frame by done. rewrite serve_clock. exact H4.
  - intros; by apply fixed_inv_serve.
  - split_and!; try done; [|by rewrite Hs; left].
    destruct (windowed_params rl Hok) as (_ & k & Ek & Hk & Hcmp); [by rewrite Halg|].
    rewrite Hcmp by done. apply Z.ltb_ge. pose proof unit64_pos; simpl; lia.
Qed.

(** C6: a sliding window is exact, up to the order in which stamps arrive.
    Take any history of the server in which the limiter's key is used only by
    its clients, whose clocks differ from the server's by less than half a
    window ([δ]).  Every request is allowed exactly when its count fits with
    the counts granted in the window that ends at the latest stamp that the
    server has seen; a refusal carries the time until a granted request leaves
    the window.  If no stamp is more than [η] before an earlier one, then in
    every stretch of a window less [η], wherever it ends, the granted counts
    are within the capacity: in every whole window when stamps arrive in
    order, and always in every window less twice the difference of the clocks.
    The expiry of the key after two idle windows forgets nothing that
    counts. *)
Theorem sliding_window_exact c name rate opts rl δ l (s : S) :
  NewRateLimiter c name rate opts = Ran rl → rl_algorithm rl = AlgorithmSlidingWindow →
  0 ≤ δ → 2 * δ < Milliseconds (window rl) → forward l →
  r_view s !! rl_key rl = None →
  prefix_all (sliding_visit rl δ) [] (log_on (rl_key rl) l s) →
  let log := log_on (rl_key rl) l s in
  prefix_all (sliding_exact rl) [] log ∧ prefix_all (late_by (2 * δ)) [] log ∧
  ∀ η, 0 ≤ η → prefix_all (late_by η) [] log →
    ∀ t, fltb (rl_capacity rl) (of_Z (granted (in_window (Milliseconds (window rl) - η) t) log)) = false.
Proof.
  intros Hnew Halg Hδ HδW Hf Hs Hv log. pose proof (new_limiter_ok _ _ _ _ _ Hnew) as Hok.
  destruct (log_invariant (rl_key rl) (sliding_visit rl δ) (sliding_inv rl δ) l s [])
    as (H1 & H2 & (H3 & _) & _); try done.
  - intros; by apply sliding_inv_tick.
  - intros log' s' r Hk (I1 & I2 & (I3 & I3') & I4). split_and!; [done..| |]; rewrite serve_clock; [done|].
    unfold zset_at in *. by rewrite serve_frame.
  - intros; by apply sliding_inv_serve.
  - split; [exact H1|split; [by eapply skew_late|]]. intros η Hη Hl. by eapply sliding_bound.
Qed.
End window_theorems.

Module Ex.
(** Two requests a second, and a server at 5 s. *)
Definition fixed : RateLimiter :=
  {| rl_client := New []; rl_name := "api"; rl_key := "{api}"; rl_capacity := of_Z 2;
     rl_rate := of_Z 2; rl_algorithm := AlgorithmFixedWindow |}.
Definition sliding : RateLimiter :=
  {| rl_client := New []; rl_name := "api"; rl_key := "{api}"; rl_capacity := of_Z 2;
     rl_rate := of_Z 2; rl_algorithm := AlgorithmSlidingWindow |}.

Lemma new_fixed : NewRateLimiter (New []) "api" (PerSecond (of_Z 2)) [FixedWindow] = Ran fixed.
Proof. vm_compute; reflexivity. Qed.
Lemma new_sliding : NewRateLimiter (New []) "api" (PerSecond (of_Z 2)) [SlidingWindow] = Ran sliding.
Proof. vm_compute; reflexivity. Qed.

Definition ask (now n : Z) : env_step := Other (RateLimitFixed "{api}:5" (of_Z 2) 1000 now n).
Definition s0 : mem := mem_empty (5 * Second).

(** One of two is granted, two more do not fit, one more does. *)
Definition fixed_run : list env_step :=
  [ask 5000 1; wait (100 * Millisecond); ask 5120 2; ask 5100 1; wait (900 * Millisecond)].

Lemma fixed_ms : Milliseconds (window fixed) = 1000.
Proof. vm_compute; reflexivity. Qed.

Definition fixed_log : list visit :=
  [Visit 5000 (RateLimitFixed "{api}:5" (of_Z 2) 1000 5000 1) (RInts [1; 1; 1000]);
   Visit 5100 (RateLimitFixed "{api}:5" (of_Z 2) 1000 5120 2) (RInts [0; 0; 880]);
   Visit 5100 (RateLimitFixed "{api}:5" (of_Z 2) 1000 5100 1) (RInts [1; 0; 900])].

Lemma fixed_run_log : log_on "{api}:5" fixed_run s0 = fixed_log.
Proof. vm_compute; reflexivity. Qed.

Lemma fixed_visit_ok pre clk now n x :
  fixedWindowKey fixed now = Ran "{api}:5" → 0 ≤ now ≤ 2 ^ 52 → Z.abs (now - clk) ≤ 50 → 1 ≤ n →
  fltb (of_Z 2) (of_Z n) = false →
  fixed_visit fixed 5 50 pre (Visit clk (RateLimitFixed "{api}:5" (of_Z 2) 1000 now n) x).
Proof.
  intros H1 H2 H3 H4 H5. exists now, n. rewrite fixed_ms.
  exact (conj eq_refl (conj H1 (conj H2 (conj H3 (conj H4 H5))))).
Qed.

Lemma fixed_window_exact_witness :
  let log := log_on "{api}:5" fixed_run s0 in
  prefix_all fixed_exact [] log ∧ fltb (of_Z 2) (of_Z (granted all_visits log)) = false ∧
  granted all_visits log = 2.
Proof.
  intros log. destruct (fixed_window_exact (New []) "api" (PerSecond (of_Z 2)) [FixedWindow] fixed 5 50
    fixed_run s0) as [H1 H2].
  - apply new_fixed.
  - reflexivity.
  - lia.
  - rewrite fixed_ms; lia.
  - repeat constructor; vm_compute; discriminate.
  - reflexivity.
  - change (window_key fixed 5) with "{api}:5". rewrite fixed_run_log.
    repeat (split; [apply fixed_visit_ok; [vm_compute; reflexivity|lia|lia|lia|vm_compute; reflexivity]|]). exact I.
  - split; [exact H1|split; [exact H2|]]. unfold log. rewrite fixed_run_log. reflexivity.
Defined.

(** Two requests at 5 s fill the window; a third fits when the first have left
    it, and a fourth, whose stamp is older than the third's, is judged by the
    third's: it is let in, although the window that ends at its own stamp is
    full. *)
Definition p1 : string := "00000000000000000000000000000001".
Definition p2 : string := "00000000000000000000000000000002".
Definition p3 : string := "00000000000000000000000000000003".
Definition p4 : string := "00000000000000000000000000000004".
Definition slide (now n : Z) (p : string) : env_step :=
  Other (RateLimitSliding "{api}" (of_Z 2) 1000 now n p).
Definition sliding_run : list env_step :=
  [slide 5000 2 p1; wait (400 * Millisecond); slide 5410 1 p2; wait (600 * Millisecond); slide 6030 1 p3;
   slide 5990 1 p4].
Definition sliding_log : list visit :=
  [Visit 5000 (RateLimitSliding "{api}" (of_Z 2) 1000 5000 2 p1) (RInts [1; 0; 0]);
   Visit 5400 (RateLimitSliding "{api}" (of_Z 2) 1000 5410 1 p2) (RInts [0; 0; 590]);
   Visit 6000 (RateLimitSliding "{api}" (of_Z 2) 1000 6030 1 p3) (RInts [1; 1; 0]);
   Visit 6000 (RateLimitSliding "{api}" (of_Z 2) 1000 5990 1 p4) (RInts [1; 0; 0])].

Lemma sliding_ms : Milliseconds (window sliding) = 1000.
Proof. vm_compute; reflexivity. Qed.
Lemma sliding_run_log : log_on "{api}" sliding_run s0 = sliding_log.
Proof. vm_compute; reflexivity. Qed.

(** Whole windows can hold more when stamps come out of order. *)
Example out_of_order : granted (in_window 1000 5990) sliding_log = 3.
Proof. vm_compute; reflexivity. Qed.

Lemma sliding_visit_ok pre clk now n p x :
  1 ≤ n → fltb (of_Z 2) (of_Z n) = false → Z.abs (now - clk) ≤ 50 →
  String.length p = 32%nat → Forall (λ u, prefix_of u ≠ p) pre →
  sliding_visit sliding 50 pre (Visit clk (RateLimitSliding "{api}" (of_Z 2) 1000 now n p) x).
Proof.
  intros H1 H2 H3 H5 H6. refine (conj _ (conj H3 (conj H5 H6))).
  exists now, n, p. rewrite sliding_ms. exact (conj eq_refl (conj H1 H2)).
Qed.

Lemma sliding_window_exact_witness :
  let log := log_on "{api}" sliding_run s0 in
  prefix_all (sliding_exact sliding) [] log ∧ prefix_all (late_by 100) [] log ∧
  fltb (of_Z 2) (of_Z (granted (in_window 960 5990) log)) = false.
Proof.
  intros log. destruct (sliding_window_exact (New []) "api" (PerSecond (of_Z 2)) [SlidingWindow] sliding 50
    sliding_run s0) as (H1 & H2 & H3).
  - apply new_sliding.
  - reflexivity.
  - lia.
  - rewrite sliding_ms; lia.
  - repeat constructor; vm_compute; discriminate.
  - reflexivity.
  - change (rl_key sliding) with "{api}". rewrite sliding_run_log.
    repeat (split; [apply sliding_visit_ok; [lia|vm_compute; reflexivity|lia|reflexivity|by_compute]|]).
    exact I.
  - split; [exact H1|split; [exact H2|]]. rewrite sliding_ms in H3. apply (H3 40 ltac:(lia)).
    change (rl_key sliding) with "{api}". rewrite sliding_run_log.
    repeat (split; [by_compute|]). exact I.
Defined.
End Ex.
