(* ===== verification/RateBucket.v ===== *)
(** * The bucket limiters

    What [ratelimit.lua] admits over the whole history of a limiter's key, in
    the double-precision arithmetic of the script, and how
    [ratelimit_leaky.lua] is its mirror image. *)
From S2P Require Import Prelude Float64 Redis RedisMem Errors Requests ScriptsRate.
From S2P Require Import GoRuntime Scenario Keys Config RateLog RateLimiter.
Open Scope Z_scope.

(** ** The arithmetic of a refill

    In units of [2^-1074]: capacity [c], rate [r], tokens [a]; [e] the
    milliseconds since the last request. *)

(** [(now - ts) / 1000.0 * rate], rounded twice, before any overflow. *)
Definition gained (r e : Z) : Z := round_mag (round_mag (e * unit64) 1000 * r) unit64.

(** The tokens after the refill, clamped. *)
Definition refilled (c r a e : Z) : Z := Z.min (round_mag (a + gained r e) 1) c.

Lemma gained_nonneg r e : 0 ≤ r → 0 ≤ e → 0 ≤ gained r e.
Proof.
  intros Hr He. pose proof unit64_pos. apply round_mag_nonneg; [|done].
  apply Z.mul_nonneg_nonneg; [apply round_mag_nonneg; lia|done].
Qed.

Lemma double_lt v : 0 ≤ v → double v → v < max64.
Proof. intros Hv [_ H]. by rewrite Z.abs_eq in H. Qed.

Lemma elapsed_exact now ts :
  0 ≤ ts ≤ now → now ≤ 2 ^ 53 → fsub (of_Z now) (of_Z ts) = Fin ((now - ts) * unit64).
Proof.
  intros H1 H2. pose proof unit64_pos. pose proof (num_of_Z now ltac:(lia)) as Hn.
  pose proof (num_of_Z ts ltac:(lia)) as Ht. destruct (num_of_Z (now - ts) ltac:(lia)) as (_ & _ & Hd).
  destruct (fsub_num _ _ _ _ Hn Ht ltac:(nia)) as [-> _]. f_equal.
  replace (now * unit64 - ts * unit64) with ((now - ts) * unit64) by lia.
  apply double_round; [nia|done].
Qed.

(** The script's expression for what a refill adds. *)
Lemma gain_value r e :
  0 < r → 0 ≤ e ≤ 2 ^ 53 →
  fmul (fdiv (Fin (e * unit64)) (of_Z 1000)) (Fin r) = capped (gained r e) ∧ 0 ≤ gained r e.
Proof.
  intros Hr He. pose proof unit64_pos as Hu. assert (0 ≤ e * unit64) as Heu by nia.
  split; [|apply gained_nonneg; lia].
  rewrite (of_Z_exact 1000), fdiv_fin by lia.
  assert (round_mag (e * unit64 * unit64) (1000 * unit64) = round_mag (e * unit64) 1000) as ->.
  { apply Z.le_antisymm; apply round_mag_mono; nia. }
  pose proof (round_mag_nonneg (e * unit64) 1000 ltac:(lia) ltac:(lia)) as Hq.
  assert (round_mag (e * unit64) 1000 ≤ e * unit64) as Hqe.
  { destruct (num_of_Z e) as (_ & _ & [Hd _]); [lia|]. rewrite Z.abs_eq in Hd by lia.
    apply round_mag_le_double; [lia|lia|lia|exact Hd|lia]. }
  assert (e * unit64 < max64) as Hem by (rewrite unit64_units; apply max64_53; lia).
  unfold gained. set (q := round_mag (e * unit64) 1000) in *.
  assert (capped q = Fin q) as -> by (unfold capped; by rewrite (proj2 (Z.ltb_lt q max64)) by lia).
  by rewrite fmul_fin by lia.
Qed.

(** The script's expression is [refilled]. *)
Lemma refill_value c r a now ts :
  0 < c → double c → 0 < r → 0 ≤ a → 0 ≤ ts ≤ now → now ≤ 2 ^ 53 →
  let x := fadd (Fin a) (fmul (fdiv (fsub (of_Z now) (of_Z ts)) (of_Z 1000)) (Fin r)) in
  (if fltb (Fin c) x then Fin c else x) = Fin (refilled c r a (now - ts)).
Proof.
  intros Hc Dc Hr Ha Ht Hn x. pose proof (double_lt c ltac:(lia) Dc) as Hcm.
  unfold x; clear x. rewrite elapsed_exact by lia. set (e := now - ts).
  destruct (gain_value r e Hr ltac:(unfold e; lia)) as (-> & Hp). unfold refilled. set (p := gained r e) in *.
  pose proof (round_mag_mono p 1 (a + p) 1 Hp ltac:(lia) ltac:(lia) ltac:(lia) ltac:(lia)) as Hm.
  assert (round_mag p 1 = p) as Hpp.
  { apply round_mag_idem; [|apply unit64_pos]. apply Z.mul_nonneg_nonneg; [apply round_mag_nonneg|];
      pose proof unit64_pos; unfold e; nia. }
  unfold capped. destruct (Z.ltb_spec p max64) as [Hlt|Hge]; cbn [fadd].
  - rewrite fround_nonneg by lia. destruct (Z.ltb_spec (round_mag (a + p) 1) max64); cbn [fltb negb].
    + destruct (Z.ltb_spec c (round_mag (a + p) 1)); cbn iota; apply (f_equal Fin); lia.
    + apply (f_equal Fin); lia.
  - cbn [fltb negb]. apply (f_equal Fin); lia.
Qed.

Lemma unit64_huge : 2 ^ 62 < unit64.
Proof. rewrite unit64_units. apply Z.pow_lt_mono_r; lia. Qed.

(** A refill adds [e * r / 1000], up to a relative 2^-51 and half a unit. *)
Lemma gained_le r e :
  0 < r → 0 ≤ e → 2 ^ 51 * (1000 * gained r e) ≤ (2 ^ 51 + 1) * (e * r) + 2 ^ 50 * 1000.
Proof.
  intros Hr He. pose proof unit64_huge as Hu. unfold gained. set (u := unit64) in *.
  set (q := round_mag (e * u) 1000). assert (0 ≤ q) as Hq by (apply round_mag_nonneg; nia).
  set (p := round_mag (q * r) u).
  assert (2 ^ 53 * (1000 * q) ≤ (2 ^ 53 + 1) * (e * u)) as H1.
  { destruct (Z.eq_dec e 0) as [->|].
    - unfold q. rewrite Z.mul_0_l, round_mag_0; lia.
    - destruct (round_mag_error (e * u) 1000) as [H _]; [nia|lia|]. fold q in H.
      assert (u ≤ e * u) by nia. lia. }
  assert (2 ^ 53 * (p * u) ≤ (2 ^ 53 + 1) * (q * r) + 2 ^ 52 * u) as H2.
  { destruct (round_mag_error (q * r) u) as [H _]; [nia|lia|]. fold p in H.
    assert (0 ≤ q * r) by nia. lia. }
  assert (2 ^ 53 * (1000 * q) * r ≤ (2 ^ 53 + 1) * (e * u) * r) as H3 by (apply Z.mul_le_mono_nonneg_r; lia).
  assert (0 ≤ e * r) by nia. set (er := e * r) in *.
  assert (2 ^ 106 * (1000 * p) * u ≤ ((2 ^ 53 + 1) * (2 ^ 53 + 1) * er + 2 ^ 105 * 1000) * u) as H4 by (unfold er; lia).
  apply Z.mul_le_mono_pos_r in H4; [|lia]. lia.
Qed.

Section refill.
Context (c r a e : Z) (Hc : 0 < c) (Dc : double c) (Hr : 0 < r) (Ha : 0 ≤ a ≤ c) (Da : double a) (He : 0 ≤ e).

Lemma refilled_range : a ≤ refilled c r a e ≤ c ∧ double (refilled c r a e).
Proof.
  pose proof (gained_nonneg r e ltac:(lia) He) as Hg. unfold refilled.
  assert (a ≤ round_mag (a + gained r e) 1) as H.
  { apply double_le_round_mag; [lia|lia|lia|apply double_round; [lia|done]|lia]. }
  split; [lia|]. destruct (Z.min_spec (round_mag (a + gained r e) 1) c) as [[Hlt ->]|[_ ->]]; [|done].
  apply round_double; [lia|lia|]. pose proof (double_lt c ltac:(lia) Dc). lia.
Qed.

Lemma refilled_le :
  2 ^ 51 * (1000 * refilled c r a e) ≤ 2 ^ 51 * (1000 * a) + (2 ^ 51 + 1) * (e * r) + 2 ^ 50 * 1000 + 500 * c.
Proof.
  pose proof (gained_nonneg r e ltac:(lia) He) as Hg. pose proof (gained_le r e Hr He) as Hb.
  unfold refilled. set (g := gained r e) in *.
  destruct (round_mag_error (a + g) 1) as [_ H]; [lia|lia|]. rewrite Z.mod_1_r in H. specialize (H eq_refl).
  set (s := round_mag (a + g) 1) in *. lia.
Qed.

(** What is left after a grant. *)
Lemma remaining_le n :
  0 ≤ n ≤ refilled c r a e →
  let rem := round_mag (refilled c r a e - n) 1 in
  0 ≤ rem ≤ c ∧ double rem ∧
  2 ^ 51 * (1000 * (rem + n)) ≤ 2 ^ 51 * (1000 * a) + (2 ^ 51 + 1) * (e * r) + 1000 * (c + 2 ^ 50).
Proof.
  intros Hn rem. pose proof refilled_range as [HR DR]. pose proof refilled_le as Hle.
  set (R := refilled c r a e) in *. assert (0 ≤ rem) as H0 by (apply round_mag_nonneg; lia).
  assert (rem ≤ R) as H1 by (apply round_mag_le_double; [lia|lia|lia|apply double_round; [lia|done]|lia]).
  split; [lia|]. split.
  - apply round_double; [lia|lia|]. pose proof (double_lt R ltac:(lia) DR). unfold rem in *; lia.
  - destruct (round_mag_error (R - n) 1) as [_ H]; [lia|lia|]. rewrite Z.mod_1_r in H. specialize (H eq_refl).
    fold rem in H. lia.
Qed.
End refill.

(** ** How long the key lives *)

(** The milliseconds until a bucket is full, as the script computes them. *)
Definition fill_ms (c r : Z) : Z := - (- round_mag (round_mag (c * unit64) r * 1000) 1 / unit64).

(** The refill period passes the constructor's check. *)
Record period_ok (c r : Z) : Prop := {
  period_check : fltb (of_Z max_window_ms) (fmul (fdiv (Fin c) (Fin r)) (of_Z 1000)) = false;
}.

Lemma max_window_lt : max_window_ms * unit64 < max64.
Proof. rewrite unit64_units. apply max64_53; [by vm_compute|lia]. Qed.

Section period.
Context (c r : Z) (Hc : 0 < c) (Hr : 0 < r).
Context (Hperiod : period_ok c r).

(** The quotient and the product of the constructor's check are finite. *)
Lemma period_value :
  let q := round_mag (c * unit64) r in let m := round_mag (q * 1000) 1 in
  fmul (fdiv (Fin c) (Fin r)) (of_Z 1000) = Fin m ∧ 0 ≤ m ≤ max_window_ms * unit64.
Proof.
  pose proof unit64_pos as Hu. destruct (period_finite c r Hc Hr (period_check c r Hperiod)) as (q & Eq & Hq & _).
  assert (q = round_mag (c * unit64) r) as ->.
  { rewrite fdiv_fin in Eq by lia. unfold capped in Eq. case_match; [by injection Eq as <-|done]. }
  intros q m. fold q in Eq, Hq. pose proof (period_check c r Hperiod) as Hp. rewrite Eq, fmul_Z in Hp by lia. rewrite Eq, fmul_Z by lia. fold m in Hp |- *.
  rewrite of_Z_exact in Hp by by vm_compute. apply fltb_capped in Hp.
  assert (0 ≤ m) by (apply round_mag_nonneg; lia). split; [|lia].
  pose proof max_window_lt as Hmax.
  unfold capped. by rewrite (proj2 (Z.ltb_lt m max64)) by lia.
Qed.

Lemma fill_ms_bounds :
  0 ≤ fill_ms c r ≤ max_window_ms ∧ round_mag (round_mag (c * unit64) r * 1000) 1 ≤ fill_ms c r * unit64.
Proof.
  pose proof unit64_pos as Hu. destruct period_value as [_ Hm]. unfold fill_ms.
  set (m := round_mag (round_mag (c * unit64) r * 1000) 1) in *.
  pose proof (Z.div_mod (- m) unit64 ltac:(lia)). pose proof (Z.mod_pos_bound (- m) unit64 Hu). nia.
Qed.

Lemma bucket_ttl_value : bucket_ttl (Fin c) (Fin r) = fill_ms c r + 1000.
Proof.
  pose proof unit64_pos as Hu. unfold bucket_ttl. destruct period_value as [-> Hm].
  pose proof fill_ms_bounds as [Hf _]. cbn [fceil]. fold (fill_ms c r). assert (max_window_ms < 2 ^ 52) by by vm_compute.
  rewrite <- (of_Z_exact (fill_ms c r)) by lia.
  erewrite fadd_num; [|apply num_of_Z; lia|apply num_of_Z; lia].
  replace (fill_ms c r * unit64 + 1000 * unit64) with ((fill_ms c r + 1000) * unit64) by lia.
  destruct (num_of_Z (fill_ms c r + 1000)) as (_ & Hp & Hd); [lia|].
  rewrite double_round by done. rewrite (proj1 (capped_num _ Hd Hp)).
  apply ftrunc_Z, in_int64_spec. unfold int64_min, int64_max; lia.
Qed.

(** After the life of the key, and a bit, the bucket would be full anyway. *)
Lemma full_after a e :
  0 ≤ a → fill_ms c r + 1 ≤ e →
  2 ^ 51 * (1000 * c) ≤ 2 ^ 51 * (1000 * a) + (2 ^ 51 + 1) * (e * r) + 500 * c.
Proof.
  intros Ha He. pose proof unit64_huge as Hu. destruct fill_ms_bounds as [Hf Hm].
  set (u := unit64) in *. set (q := round_mag (c * u) r) in *. set (m := round_mag (q * 1000) 1) in *.
  assert (0 ≤ q) as Hq by (apply round_mag_nonneg; nia).
  assert ((2 ^ 53 - 1) * (q * 1000) ≤ 2 ^ 53 * m) as H1.
  { destruct (round_mag_error (q * 1000) 1) as [_ H]; [lia|lia|]. rewrite Z.mod_1_r in H.
    specialize (H eq_refl). fold m in H. lia. }
  destruct (round_mag_error (c * u) r) as [H2 _]; [nia|lia|]. fold q in H2.
  destruct (Z.le_gt_cases (2 ^ 52 * r) (c * u)) as [Hn|Hs].
  - assert ((2 ^ 53 - 1) * (c * u) ≤ 2 ^ 53 * (q * r)) as H3 by lia.
    assert (fill_ms c r * u ≤ e * u) as H4 by (apply Z.mul_le_mono_nonneg_r; lia).
    assert ((2 ^ 53 - 1) * (q * 1000) * r ≤ 2 ^ 53 * (e * u) * r) as H5 by (apply Z.mul_le_mono_nonneg_r; lia).
    assert ((2 ^ 53 - 1) * (2 ^ 53 - 1) * (1000 * c) * u ≤ 2 ^ 106 * (e * r) * u) as H6 by lia.
    apply Z.mul_le_mono_pos_r in H6; [|lia]. lia.
  - assert (r ≤ e * r) by nia. assert (c * 2 ^ 62 ≤ c * u) by nia. lia.
Qed.
End period.

(** ** The script *)

(** One command on the hash described by [Hh]. *)
Ltac on_key Hh m' Hh' :=
  cbn [mbind script_bind sbind mret script_ret call_bulk call_int call_hget_num];
  match goal with
  | |- context [run_ref ?now (SCall ?c ?kont) ?m] =>
      let H := fresh in
      pose proof (run_hcmd now (cmd_key c) c _ kont m _ eq_refl Hh) as H;
      destruct H as (m' & -> & Hh' & _ & _); [first [done | simpl; by case_match] |];
      cbn [fst snd sbind mret script_ret] in *
  end.

Section bucket_script.
Context `{LN : !LuaNumbers} (t0 : Z) (k : string) (c r now : Z).

(** The hash of a bucket: [field] has the amount [a] and [ts] the stamp [t]. *)
Definition bucket_at (field : string) (m : keyspace) (a t x : Z) : Prop :=
  ∃ h, m !! k = Some (Entry (VHash h) (Some x)) ∧
       h !! field = Some (num_str (Fin a)) ∧ h !! "ts" = Some (num_str (of_Z t)).

(** A request finds the amount [a] and the stamp [t]; a missing bucket has
    the amount [fresh], stamped now. *)
Definition bucket_found (field : string) (fresh : Z) (m : keyspace) (a t : Z) : Prop :=
  (m !! k = None ∧ a = fresh ∧ t = now) ∨ ∃ x, bucket_at field m a t x.

(** Setting the two fields and the time to live. *)
Lemma bucket_write {A} field m h a (kont : script A) :
  field ≠ "ts" → hash_of m k = Some h → 0 < bucket_ttl (Fin c) (Fin r) →
  ∃ m', run_ref t0 (_ ← call_int (HSET k [(field, num_str (Fin a)); ("ts", num_str (of_Z now))]);
                    _ ← call_int (PEXPIRE k (bucket_ttl (Fin c) (Fin r))); kont) m = run_ref t0 kont m' ∧
        bucket_at field m' a now (t0 + bucket_ttl (Fin c) (Fin r)).
Proof.
  intros Hf Hh Httl. on_key Hh m1 Hh1. set (ttl := bucket_ttl _ _) in *.
  set (h' := foldl _ _ _) in Hh1. assert (h' !! field = Some (num_str (Fin a)) ∧ h' !! "ts" = Some (num_str (of_Z now))) as [H1 H2].
  { unfold h'; simpl. rewrite lookup_insert_ne, !lookup_insert_eq by done. done. }
  clearbody h'. assert (∃ x, m1 !! k = Some (Entry (VHash h') x)) as [x E].
  { unfold hash_of in Hh1. cbn [cmd_key] in Hh1. destruct (m1 !! k) as [[[| |] x]|]; try done.
    - injection Hh1 as ->; by exists x.
    - injection Hh1 as <-; by rewrite lookup_empty in H1. }
  cbn [run_ref ref_exec]. unfold ref_pexpire. rewrite E, (proj2 (Z.leb_gt _ _)) by done. cbn [run_ref].
  eexists; split; [done|]. exists h'. by rewrite lookup_insert_eq.
Qed.

Context (Hlaw : ∀ z, double z → str_num (num_str (Fin z)) = Some (Fin z)).

(** What the script reads. *)
Lemma bucket_read {A} field fresh m a t (kont : float64 → float64 → script A) :
  double a → 0 ≤ t ≤ 2 ^ 53 → bucket_found field fresh m a t →
  ∃ m', run_ref t0 (v ← call_hget_num k field; w ← call_hget_num k "ts";
                    kont (default (Fin fresh) v) (default (of_Z now) w)) m =
        run_ref t0 (kont (Fin a) (of_Z t)) m' ∧ ∃ h, hash_of m' k = Some h.
Proof.
  intros Da Ht Hb. assert (str_num (num_str (of_Z t)) = Some (of_Z t)) as Hts.
  { destruct (num_of_Z t Ht) as (-> & _ & Dt). by apply Hlaw. }
  destruct Hb as [(Hk & -> & ->)|(x & h & Hk & H1 & H2)].
  - assert (hash_of m k = Some ∅) as Hh by (unfold hash_of; by rewrite Hk).
    on_key Hh m1 Hh1. on_key Hh1 m2 Hh2. exists m2; split; [done|by eexists].
  - assert (hash_of m k = Some h) as Hh by (unfold hash_of; by rewrite Hk).
    on_key Hh m1 Hh1. on_key Hh1 m2 Hh2. exists m2; split; [|by eexists].
    rewrite H1, H2; simpl. by rewrite Hlaw, Hts by done.
Qed.
End bucket_script.

(** ** The token bucket *)

(** The milliseconds until [n] tokens are there. *)
Definition wait_ms (r missing : Z) : Z := - (- round_mag (round_mag (missing * unit64) r * 1000) 1 / unit64).

Lemma wait_value c r missing :
  0 < c → 0 < r → 0 ≤ missing ≤ c →
  period_ok c r →
  ftrunc (fceil (fmul (fdiv (Fin missing) (Fin r)) (of_Z 1000))) = wait_ms r missing ∧
  0 ≤ wait_ms r missing ≤ fill_ms c r.
Proof.
  intros Hc Hr Hm Hp. pose proof unit64_pos as Hu. destruct (period_value c r Hc Hr Hp) as [_ Hmax].
  destruct (fill_ms_bounds c r Hc Hr Hp) as [Hf Hf'].
  destruct (period_finite c r Hc Hr (period_check c r Hp)) as (q & Eq & Hq & _).
  set (qm := round_mag (missing * unit64) r).
  assert (0 ≤ qm ≤ round_mag (c * unit64) r) as Hqm.
  { clear Eq Hp. assert (0 ≤ missing * unit64 ≤ c * unit64) by nia.
    split; [apply round_mag_nonneg; lia|apply round_mag_mono; try lia]. apply Z.mul_le_mono_nonneg_r; lia. }
  assert (round_mag (c * unit64) r < max64) as Hlt.
  { rewrite fdiv_fin in Eq by lia. unfold capped in Eq. destruct (Z.ltb_spec (round_mag (c * unit64) r) max64); [done|discriminate Eq]. }
  clear Eq Hp Hq q.
  set (mm := round_mag (qm * 1000) 1).
  assert (0 ≤ mm ≤ round_mag (round_mag (c * unit64) r * 1000) 1) as Hmm.
  { split; [apply round_mag_nonneg; lia|apply round_mag_mono; lia]. }
  pose proof max_window_lt as Hmw.
  rewrite fdiv_fin by lia. fold qm. assert (capped qm = Fin qm) as ->.
  { unfold capped. by rewrite (proj2 (Z.ltb_lt qm max64)) by lia. }
  rewrite fmul_Z by lia. fold mm. assert (capped mm = Fin mm) as ->.
  { unfold capped. by rewrite (proj2 (Z.ltb_lt mm max64)) by lia. }
  cbn [fceil]. fold (wait_ms r missing).
  assert (0 ≤ wait_ms r missing ≤ fill_ms c r) as Hw.
  { unfold wait_ms, fill_ms; fold qm mm. set (M := round_mag (round_mag (c * unit64) r * 1000) 1) in *.
    pose proof (Z.div_le_mono (- M) (- mm) unit64 Hu ltac:(lia)).
    pose proof (Z.div_le_mono (- mm) 0 unit64 Hu ltac:(lia)). rewrite Z.div_0_l in * by lia. lia. }
  split; [|done]. change (- (- mm / unit64)) with (wait_ms r missing). apply ftrunc_Z, in_int64_spec.
  assert (max_window_ms < 2 ^ 52) by by vm_compute. unfold int64_min, int64_max; lia.
Qed.

Section token_bucket.
Context `{LN : !LuaNumbers} (t0 : Z) (k : string) (c r now : Z).
Context (Hlaw : ∀ z, double z → str_num (num_str (Fin z)) = Some (Fin z)).
Context (Hc : 0 < c) (Dc : double c) (Hr : 0 < r).
Context (Hperiod : period_ok c r).

Lemma ratelimit_run m a t n :
  0 ≤ a ≤ c → double a → 0 ≤ t ≤ now → now ≤ 2 ^ 53 → 0 ≤ n ≤ c → double n →
  bucket_found k now "tokens" c m a t →
  let R := refilled c r a (now - t) in
  ∃ left ms m', serve_ref t0 (RateLimit k (Fin c) (Fin r) now (Fin n)) m =
                  (RInts [if n <=? R then 1 else 0; left; ms], m') ∧
    bucket_at k "tokens" m' (if n <=? R then round_mag (R - n) 1 else R) now (t0 + (fill_ms c r + 1000)) ∧
    0 ≤ ms ≤ fill_ms c r ∧ ms = (if n <=? R then 0 else wait_ms r (round_mag (n - R) 1)).
Proof.
  intros Ha Da Ht Hnow Hn Dn Hb R. unfold serve_ref; cbn [request_script request_fuel]. unfold ratelimit.
  destruct (bucket_read t0 k now Hlaw "tokens" c m a t
    (token_decide k (Fin c) (Fin r) now (Fin n))) as (m1 & -> & h & Hh); [done|lia|done|].
  unfold token_decide. rewrite (refill_value c r a now t Hc Dc Hr (proj1 Ha) Ht Hnow). fold R.
  destruct (refilled_range c r a (now - t)) as [HR DR]; [done..|lia|]. fold R in HR, DR.
  assert (0 < bucket_ttl (Fin c) (Fin r)) as Httl.
  { rewrite bucket_ttl_value by done. destruct (fill_ms_bounds c r); [done..|lia]. }
  assert (num R (Fin R)) as HnR by (split; [done|split; [lia|done]]).
  assert (num n (Fin n)) as Hnn by (split; [done|split; [lia|done]]).
  cbn [fleb]. rewrite <- bucket_ttl_value by done. destruct (Z.leb_spec n R) as [Hle|Hgt].
  - rewrite (proj1 (fsub_num _ _ _ _ HnR Hnn Hle)).
    destruct (bucket_write t0 k c r now "tokens" m1 h (round_mag (R - n) 1)
      (mret (RInts [1; ftrunc (Fin (round_mag (R - n) 1)); ftrunc (Fin 0)]))) as (m' & -> & Hat); [done..|].
    eexists _, _, m'. split; [done|]. split; [done|]. assert (ftrunc (Fin 0) = 0) as -> by done.
    destruct (fill_ms_bounds c r); [done..|]. split; [lia|done].
  - rewrite (proj1 (fsub_num _ _ _ _ Hnn HnR ltac:(lia))). set (miss := round_mag (n - R) 1).
    assert (0 ≤ miss ≤ c) as Hmiss.
    { split; [apply round_mag_nonneg; lia|]. apply round_mag_le_double; try lia. apply double_round; [lia|done]. }
    destruct (wait_value c r miss) as [-> Hw]; [done..|].
    destruct (bucket_write t0 k c r now "tokens" m1 h R
      (mret (RInts [0; ftrunc (Fin R); wait_ms r miss]))) as (m' & -> & Hat); [done..|].
    eexists _, _, m'. split; [done|]. split; [done|]. split; [exact Hw|reflexivity].
Qed.
End token_bucket.

(** ** The history of a bucket

    Both buckets are accounts: [a] is the credit left, a refill adds to it,
    a grant takes from it, and a bucket that is not there has the full
    credit [c].  [account v a t]: the value [v] stands for the credit [a] with
    the stamp [t]. *)

(** The most that may be granted to the visits of a stretch of the log: the
    capacity, what the rate yields between the first and the last stamp, and
    the rounding of the arithmetic, in units of [2^-51 / 1000]. *)
Definition span (log : list visit) : Z :=
  match head log, last log with Some u, Some w => stamp w - stamp u | _, _ => 0 end.
Definition budget (c r : Z) (log : list visit) : Z :=
  2 ^ 51 * (1000 * c) + (2 ^ 51 + 1) * (span log * r) + Z.of_nat (length log) * (1000 * (c + 2 ^ 50)).

Lemma span_snoc log v w : last log = Some w → span (log ++ [v]) = span log + (stamp v - stamp w).
Proof.
  intros Hl. unfold span. rewrite last_snoc, Hl. destruct log as [|u log]; [done|]. simpl. lia.
Qed.

Lemma infix_snoc {A} (l pre mid post : list A) v :
  l ++ [v] = pre ++ mid ++ post →
  (∃ post', l = pre ++ mid ++ post') ∨ (∃ mid', l = pre ++ mid' ∧ mid = mid' ++ [v]) ∨ mid = [].
Proof.
  intros H. destruct post as [|x post] using rev_ind.
  - rewrite app_nil_r in H. destruct mid as [|y mid _] using rev_ind; [by right; right|right; left].
    rewrite (assoc_L (++)) in H. apply app_inj_2 in H as [-> [= <-]]; [|done]. by exists mid.
  - left. exists post. rewrite !(assoc_L (++)) in H. apply app_inj_2 in H as [-> _]; [|done].
    by rewrite (assoc_L (++)).
Qed.

Section account_step.
Context `{LN : !LuaNumbers} (c r : Z) (k : string) (account : value → Z → Z → Prop) (request_of : Z → Z → request).

Definition credit_found (m : keyspace) (now a t : Z) : Prop :=
  (m !! k = None ∧ a = c ∧ t = now) ∨
  ∃ v x, m !! k = Some (Entry v (Some x)) ∧ account v a t ∧ 0 ≤ a ≤ c.

(** What a request does to the account. *)
Definition account_step : Prop := ∀ t0 m now a t n,
  credit_found m now a t → 0 ≤ t ≤ now → now ≤ 2 ^ 53 → 0 ≤ n ≤ c → double n →
  ∃ (b : bool) left ms m' v' a',
    serve_ref t0 (request_of now n) m = (RInts [if b then 1 else 0; left; ms], m') ∧
    m' !! k = Some (Entry v' (Some (t0 + (fill_ms c r + 1000)))) ∧ account v' a' now ∧ 0 ≤ a' ≤ c ∧
    0 ≤ ms ≤ fill_ms c r ∧
    let g := if b then n else 0 in
    2 ^ 51 * (1000 * (a' + g)) ≤ 2 ^ 51 * (1000 * a) + (2 ^ 51 + 1) * ((now - t) * r) + 1000 * (c + 2 ^ 50) ∧
    2 ^ 51 * (1000 * (a' + g)) ≤ 2 ^ 51 * (1000 * c) + 500 * c.
End account_step.

Section account.
Context {S : Type} `{!RedisOps S, !RedisLaws S}.
Context (c r δ : Z) (k : string) (account : value → Z → Z → Prop) (request_of : Z → Z → request).
Context (Hc : 0 < c) (Hr : 0 < r) (Hp : period_ok c r) (Hδ : δ ≤ 499).

Context (Hstep : account_step c r k account request_of).
Context (Hreq : ∀ now n, stamp (Visit 0 (request_of now n) RNil) = now ∧
                         charge (Visit 0 (request_of now n) RNil) = n).

(** A request of a client whose clock differs from the server's by less than
    half a second, stamped not before those the server has seen. *)
Definition account_visit (pre : list visit) (v : visit) : Prop :=
  (∃ now n, v_request v = request_of now n ∧ 0 ≤ n ≤ c ∧ double n) ∧
  0 ≤ stamp v ≤ 2 ^ 53 ∧ Z.abs (stamp v - v_clock v) ≤ δ ∧ Forall (λ u, stamp u ≤ stamp v) pre.

Definition retry_ok (v : visit) : Prop :=
  ∃ b left ms, v_reply v = RInts [b; left; ms] ∧ 0 ≤ ms ≤ fill_ms c r.

Definition account_inv (log : list visit) (s : S) : Prop :=
  prefix_all account_visit [] log ∧ Forall retry_ok log ∧
  (∀ pre mid post, log = pre ++ mid ++ post → 2 ^ 51 * (1000 * granted all_visits mid) ≤ budget c r mid) ∧
  match last log with
  | None => r_view s !! k = None
  | Some u => ∃ a, 0 ≤ a ≤ c ∧
      (∀ pre mid, log = pre ++ mid → mid ≠ [] →
         2 ^ 51 * (1000 * (granted all_visits mid + a)) ≤ budget c r mid) ∧
      ((∃ v, r_view s !! k = Some (Entry v (Some (v_clock u + (fill_ms c r + 1000)))) ∧ account v a (stamp u)) ∨
       (r_view s !! k = None ∧ v_clock u + (fill_ms c r + 1000) ≤ r_clock s))
  end.

Lemma account_inv_tick log s ds : 0 ≤ ds → account_inv log s → account_inv log (r_tick ds s).
Proof.
  intros Hds (H1 & H2 & H3 & H4). refine (conj H1 (conj H2 (conj H3 _))).
  assert (r_clock s ≤ UnixMilli (r_time s + ds)) as Hclk by (apply UnixMilli_mono; lia).
  assert (r_clock (r_tick ds s) = UnixMilli (r_time s + ds)) as E by (unfold r_clock; by rewrite law_tick_time).
  destruct (last log) as [u|]; [|by rewrite tick_lookup, H4].
  destruct H4 as (a & Ha & Hpot & Hk). exists a. split; [exact Ha|]. split; [exact Hpot|]. rewrite E, tick_lookup.
  destruct Hk as [(v & -> & Hv)|[-> ?]]; [|right; split; [done|lia]].
  case_decide as Hl; [left; exists v; exact (conj eq_refl Hv)|right]. split; [done|]. unfold entry_live in Hl; cbn [e_exp] in Hl.
  set (x := v_clock u + _) in *. destruct (Z.lt_ge_cases (UnixMilli (r_time s + ds)) x) as [Hlt|]; [|done].
  by apply (law_not_expired x) in Hlt.
Qed.

Lemma account_inv_frame log s req : k ∉ request_keys req → account_inv log s → account_inv log (serve req s).2.
Proof.
  intros Hk (H1 & H2 & H3 & H4). refine (conj H1 (conj H2 (conj H3 _))). rewrite serve_clock, serve_frame by done. exact H4.
Qed.

(** What the request finds, and the credit it may count on. *)
Lemma account_found log s now :
  account_inv log s → Forall (λ u, stamp u ≤ now) log → 0 ≤ now → Z.abs (now - r_clock s) ≤ δ →
  ∃ a t, credit_found c k account (r_view s) now a t ∧ 0 ≤ t ≤ now ∧
    ∀ pre mid, log = pre ++ mid → mid ≠ [] → ∃ u, last mid = Some u ∧
      ∀ z, 2 ^ 51 * (1000 * z) ≤ 2 ^ 51 * (1000 * a) + (2 ^ 51 + 1) * ((now - t) * r) + 1000 * (c + 2 ^ 50) →
           2 ^ 51 * (1000 * z) ≤ 2 ^ 51 * (1000 * c) + 500 * c →
      2 ^ 51 * (1000 * (granted all_visits mid + z)) ≤
        budget c r mid + (2 ^ 51 + 1) * ((now - stamp u) * r) + 1000 * (c + 2 ^ 50).
Proof.
  intros (Hv & _ & _ & Hl) Hmono Hnow Hclk. destruct (last log) as [u|] eqn:El.
  2: { apply last_None in El as ->. exists c, now. split; [by left|]. split; [lia|].
       intros pre mid E Hne. symmetry in E. apply app_nil in E as [_ ->]. done. }
  assert (∀ pre mid, log = pre ++ mid → mid ≠ [] → last mid = Some u) as Hlast.
  { intros pre mid -> Hne. destruct mid as [|x mid _] using rev_ind; [done|].
    rewrite (assoc_L (++)), last_snoc in El. by rewrite last_snoc. }
  apply last_Some in El as [log0 ->]. apply prefix_all_snoc in Hv as [_ (_ & Hsu & Hdu & _)].
  apply Forall_app in Hmono as [_ Hm]. rewrite Forall_singleton in Hm.
  destruct Hl as (a & Ha & Hpot & [(v & Hk & Hacc)|[Hk Hexp]]).
  - exists a, (stamp u). split; [right; exists v; by eexists|]. split; [lia|].
    intros pre mid E Hne. exists u. split; [by eapply Hlast|]. intros z Hz _.
    specialize (Hpot pre mid E Hne). lia.
  - exists c, now. split; [by left|]. split; [lia|].
    intros pre mid E Hne. exists u. split; [by eapply Hlast|]. intros z _ Hz.
    specialize (Hpot pre mid E Hne).
    pose proof (full_after c r Hc Hr Hp a (now - stamp u) ltac:(lia) ltac:(lia)). lia.
Qed.

Lemma budget_snoc mid v u :
  last mid = Some u →
  budget c r (mid ++ [v]) = budget c r mid + (2 ^ 51 + 1) * ((stamp v - stamp u) * r) + 1000 * (c + 2 ^ 50).
Proof. intros H. unfold budget. rewrite (span_snoc _ _ _ H), length_app; simpl. lia. Qed.

Lemma budget_nonneg mid : prefix_all account_visit [] mid → 0 ≤ budget c r mid.
Proof.
  intros Hv. unfold budget. assert (0 ≤ span mid); [|nia].
  destruct mid as [|w mid _] using rev_ind; [done|]. unfold span; rewrite last_snoc.
  apply prefix_all_snoc in Hv as [_ (_ & _ & _ & Hm)]. destruct mid as [|u mid]; simpl; [lia|].
  apply Forall_cons in Hm as [Hm _]. lia.
Qed.

Lemma account_inv_serve log s req :
  account_inv log s → account_visit log (Visit (r_clock s) req (serve req s).1) →
  account_inv (log ++ [Visit (r_clock s) req (serve req s).1]) (serve req s).2.
Proof.
  intros HI Hv. pose proof HI as (H1 & H2 & H3 & _). set (v := Visit (r_clock s) req (serve req s).1) in *.
  pose proof Hv as ((now & n & Er & Hn & Dn) & Hs & Hclk & Hmono). simpl in Er.
  assert (stamp v = now ∧ charge v = n) as [Es En].
  { destruct (Hreq now n) as [E1 E2]. unfold stamp, charge in *. cbn [v_request v] in *. rewrite Er. by split. }
  rewrite Es in Hs, Hclk, Hmono. simpl in Hclk.
  destruct (account_found log s now HI Hmono ltac:(lia) Hclk) as (a & t & Hf & Ht & Hgrow).
  destruct (Hstep (r_clock s) (r_view s) now a t n Hf Ht ltac:(lia) Hn Dn)
    as (b & left & ms & m' & v' & a' & Hrun & Hk & Hacc & Ha' & Hms & Hle1 & Hle2). cbv zeta in Hle1, Hle2.
  rewrite <- Er in Hrun.
  assert (v_reply v = RInts [if b then 1 else 0; left; ms]) as Hrep by (unfold v; simpl; by rewrite serve_reply, Hrun).
  assert (admitted v = b) as Hadm by (unfold admitted; rewrite Hrep; by destruct b).
  set (g := if b then n else 0) in *.
  assert (∀ mid, granted all_visits (mid ++ [v]) = granted all_visits mid + g) as Hgr.
  { intros mid. rewrite granted_app. simpl. rewrite Hadm, En. unfold g. lia. }
  assert (∀ pre mid, log ++ [v] = pre ++ mid ++ [v] →
    2 ^ 51 * (1000 * (granted all_visits (mid ++ [v]) + a')) ≤ budget c r (mid ++ [v])) as Hpot.
  { intros pre mid E. rewrite (assoc_L (++)) in E. apply app_inj_2 in E as [E _]; [|done]. rewrite Hgr.
    destruct mid as [|x mid0] eqn:Em.
    - unfold budget, span; simpl. nia.
    - rewrite <- Em in *. destruct (Hgrow pre mid E ltac:(by rewrite Em)) as (u & Hu & Hz).
      rewrite (budget_snoc mid v u Hu), Es. specialize (Hz (a' + g) Hle1 Hle2). lia. }
  assert (prefix_all account_visit [] (log ++ [v])) as Hv' by (by apply prefix_all_snoc).
  split; [exact Hv'|]. split.
  { apply Forall_app; split; [exact H2|]. apply Forall_singleton. exists (if b then 1 else 0), left, ms. by split. }
  split.
  - intros pre mid post E. destruct (infix_snoc _ _ _ _ _ E) as [[post' E']|[(mid' & E' & ->)| ->]].
    + by apply (H3 pre mid post').
    + specialize (Hpot pre mid'). rewrite E', (assoc_L (++)) in Hpot. specialize (Hpot eq_refl). lia.
    + simpl. apply budget_nonneg. constructor.
  - rewrite last_snoc. exists a'. split; [exact Ha'|]. split.
    + intros pre mid E Hne. destruct mid as [|x mid _] using rev_ind; [done|].
      pose proof E as E'. rewrite (assoc_L (++)) in E'. apply app_inj_2 in E' as [_ [= <-]]; [|done].
      by apply (Hpot pre).
    + left. exists v'. rewrite serve_view, Hrun, Es. by split.
Qed.
End account.

(** ** Token bucket *)

(** The credit is the tokens themselves. *)
Definition token_account `{!LuaNumbers} (v : value) (a t : Z) : Prop :=
  ∃ h, v = VHash h ∧ h !! "tokens" = Some (num_str (Fin a)) ∧ h !! "ts" = Some (num_str (of_Z t)) ∧ double a.

Definition token_request (k : string) (c r now n : Z) : request := RateLimit k (Fin c) (Fin r) now (Fin n).

(** The largest rounding of a subtraction. *)
Lemma sub_rounding x y c :
  0 ≤ y ≤ x → x ≤ c → 2 ^ 53 * Z.abs (round_mag (x - y) 1 - (x - y)) ≤ c.
Proof.
  intros Hy Hx. destruct (round_mag_error (x - y) 1) as [_ H]; [lia|lia|]. rewrite Z.mod_1_r in H.
  specialize (H eq_refl). lia.
Qed.

Lemma token_step `{LN : !LuaNumbers} k c r :
  (∀ z, double z → str_num (num_str (Fin z)) = Some (Fin z)) →
  0 < c → double c → 0 < r → period_ok c r →
  account_step c r k token_account (token_request k c r).
Proof.
  intros Hlaw Hc Dc Hr Hp t0 m now a t n Hf Ht Hnow Hn Dn. unfold token_request.
  assert (0 ≤ a ≤ c ∧ double a ∧ bucket_found k now "tokens" c m a t) as (Ha & Da & Hb).
  { destruct Hf as [(Hk & -> & ->)|(v & x & Hk & (h & -> & H1 & H2 & Da) & Ha)].
    - split; [lia|split; [done|by left]].
    - split; [done|split; [done|]]. right. exists x, h. by split. }
  destruct (ratelimit_run t0 k c r now Hlaw Hc Dc Hr Hp m a t n Ha Da Ht Hnow Hn Dn Hb)
    as (left & ms & m' & Hrun & (h & Hk & H1 & H2) & Hms & _).
  destruct (refilled_range c r a (now - t) Hc Dc Hr Ha Da ltac:(lia)) as [HR DR].
  pose proof (refilled_le c r a (now - t) Hc Hr Ha ltac:(lia)) as Hle. set (R := refilled c r a (now - t)) in *.
  exists (n <=? R), left, ms, m', (VHash h). destruct (Z.leb_spec n R) as [Hok|Hno].
  - destruct (remaining_le c r a (now - t) Hc Dc Hr Ha Da ltac:(lia) n ltac:(lia)) as (Hrem & Drem & Hbound).
    fold R in Hrem, Drem, Hbound. pose proof (sub_rounding R n c ltac:(lia) ltac:(lia)) as Hrd.
    exists (round_mag (R - n) 1). split; [exact Hrun|]. split; [exact Hk|]. split; [by exists h|].
    split; [exact Hrem|]. split; [exact Hms|]. split; [exact Hbound|lia].
  - exists R. split; [exact Hrun|]. split; [exact Hk|]. split; [by exists h|].
    split; [lia|]. split; [exact Hms|]. split; lia.
Qed.

(** A bucket limiter that the constructor returned. *)
Lemma bucket_params rl c r :
  limiter_ok rl → rl_capacity rl = Fin c → rl_rate rl = Fin r → 0 < c ∧ 0 < r ∧ period_ok c r.
Proof.
  intros Hok Ec Er. destruct (ok_capacity rl Hok) as (c' & E & Hc). destruct (ok_rate rl Hok) as (r' & E' & Hr).
  rewrite Ec in E; rewrite Er in E'. injection E as <-; injection E' as <-.
  split; [exact Hc|split; [exact Hr|]]. constructor. rewrite <- Ec, <- Er. apply (ok_period rl Hok).
Qed.

(** The longest retry-after fits a duration. *)
Lemma fill_fits c r :
  0 < c → 0 < r → period_ok c r → wrap64 (fill_ms c r * Millisecond) = fill_ms c r * Millisecond.
Proof.
  intros Hc Hr Hp. destruct (fill_ms_bounds c r Hc Hr Hp) as [H _]. apply wrap64_id.
  unfold max_window_ms, int64_max, int64_min, Millisecond in *. change ((2 ^ 63 - 1) ÷ 1000000) with 9223372036854 in H. lia.
Qed.

Section bucket_theorem.
Context {S : Type} `{!RedisOps S, !RedisLaws S}.

(** What an account promises over the history of its key. *)
Lemma account_history c r δ k account request_of l (s : S) :
  0 < c → 0 < r → period_ok c r → δ ≤ 499 → account_step c r k account request_of →
  (∀ now n, stamp (Visit 0 (request_of now n) RNil) = now ∧ charge (Visit 0 (request_of now n) RNil) = n) →
  forward l → r_view s !! k = None → prefix_all (account_visit c δ request_of) [] (log_on k l s) →
  (∀ pre mid post, log_on k l s = pre ++ mid ++ post →
     2 ^ 51 * (1000 * granted all_visits mid) ≤ budget c r mid) ∧
  Forall (retry_ok c r) (log_on k l s).
Proof.
  intros Hc Hr Hp Hδ Hstep Hreq Hf Hs Hv.
  destruct (log_invariant k (account_visit c δ request_of) (account_inv c r δ k account request_of) l s [])
    as (_ & H2 & H3 & _); [| | |exact Hf|exact Hv| |exact (conj H3 H2)].
  - intros log s' ds Hds HI. by apply account_inv_tick.
  - intros log s' req Hk HI. by apply account_inv_frame.
  - intros log s' req _ HI Hvis. by apply account_inv_serve.
  - split; [exact I|]. split; [constructor|]. split; [|exact Hs].
    intros pre mid post E. symmetry in E. apply app_nil in E as [_ E]. apply app_nil in E as [-> _].
    unfold budget. change (granted all_visits []) with 0. change (span []) with 0. cbn [length]. lia.
Qed.

(** C7: the rate of a token bucket.  Take any history of the server in which
    the limiter's key is used only by its clients, whose stamps arrive in
    order and differ from the server's clock by less than half a second.  Over
    every stretch of requests, from any one to any later one, the amounts
    granted are at most the capacity, plus rate times the time between the
    first and the last stamp, up to the rounding of the doubles: a relative
    2^-51 of the refill, and per request 2^-51 of the capacity and half of the
    smallest subnormal.  The expiry of an idle bucket, which restores the full
    capacity, grants nothing more.  Every request gets a decision, whose
    retry-after is at most the time to fill the bucket and fits a duration. *)
Theorem token_bucket_rate cl name rate opts rl c r δ l (s : S) :
  NewRateLimiter cl name rate opts = Ran rl → rl_algorithm rl = AlgorithmTokenBucket →
  rl_capacity rl = Fin c → rl_rate rl = Fin r → double c → δ ≤ 499 → forward l →
  r_view s !! rl_key rl = None →
  prefix_all (account_visit c δ (token_request (rl_key rl) c r)) [] (log_on (rl_key rl) l s) →
  (∀ pre mid post, log_on (rl_key rl) l s = pre ++ mid ++ post →
     2 ^ 51 * (1000 * granted all_visits mid) ≤ budget c r mid) ∧
  Forall (retry_ok c r) (log_on (rl_key rl) l s) ∧
  wrap64 (fill_ms c r * Millisecond) = fill_ms c r * Millisecond.
Proof.
  intros Hnew _ Ec Er Dc Hδ Hf Hs Hv. pose proof (new_limiter_ok _ _ _ _ _ Hnew) as Hok.
  destruct (bucket_params rl c r Hok Ec Er) as (Hc & Hr & Hp).
  destruct (account_history c r δ (rl_key rl) token_account (token_request (rl_key rl) c r) l s) as [H1 H2];
    [exact Hc|exact Hr|exact Hp|exact Hδ| |by split|exact Hf|exact Hs|exact Hv|].
  - apply token_step; [apply law_numbers|exact Hc|exact Dc|exact Hr|exact Hp].
  - split; [exact H1|split; [exact H2|by apply fill_fits]].
Qed.
End bucket_theorem.

(** ** Leaky bucket *)

(** The level after the drain. *)
Definition drained (r b e : Z) : Z := round_mag (Z.max 0 (b - gained r e)) 1.

Lemma drain_value r b now ts :
  0 < r → 0 ≤ b → double b → 0 ≤ ts ≤ now → now ≤ 2 ^ 53 →
  let x := fsub (Fin b) (fmul (fdiv (fsub (of_Z now) (of_Z ts)) (of_Z 1000)) (Fin r)) in
  (if fltb x (Fin 0) then Fin 0 else x) = Fin (drained r b (now - ts)).
Proof.
  intros Hr Hb Db Ht Hn. rewrite elapsed_exact by lia. set (e := now - ts).
  assert (0 ≤ e ≤ 2 ^ 53) as He by (unfold e; lia). destruct (gain_value r e Hr He) as (-> & Hg).
  unfold drained. set (g := gained r e) in *. pose proof (double_lt b Hb Db) as Hbm.
  unfold capped. destruct (Z.ltb_spec g max64) as [Hlt|Hge].
  2: { cbn [fsub fneg fadd negb fltb]. rewrite Z.max_l, round_mag_0 by lia. done. }
  cbn [fsub fneg fadd]. destruct (Z.le_gt_cases g b) as [Hle|Hgt].
  - rewrite fround_nonneg, Z.max_r by lia.
    assert (round_mag (b - g) 1 ≤ b) by (apply round_mag_le_double; try lia; by apply double_round).
    pose proof (round_mag_nonneg (b - g) 1 ltac:(lia) ltac:(lia)).
    rewrite (proj2 (Z.ltb_lt (round_mag (b + - g) 1) max64)) by (unfold Z.sub in *; lia). cbn [fltb].
    rewrite (proj2 (Z.ltb_ge _ 0)) by (unfold Z.sub in *; lia). done.
  - rewrite Z.max_l, round_mag_0 by lia.
    destruct (fround_neg (b + - g)) as [[z [-> Hz]]| ->]; [lia| |done].
    cbn [fltb]. by rewrite (proj2 (Z.ltb_lt z 0)) by lia.
Qed.

(** A sum of two amounts up to the capacity rounds by at most [2^-52] of it,
    when it is accepted. *)
Lemma sum_rounding x n c :
  0 ≤ x → 0 ≤ n → round_mag (x + n) 1 ≤ c → 2 ^ 52 * Z.abs (round_mag (x + n) 1 - (x + n)) ≤ c.
Proof.
  intros Hx Hn Hle. destruct (round_mag_error (x + n) 1) as [_ H]; [lia|lia|]. rewrite Z.mod_1_r in H.
  specialize (H eq_refl). lia.
Qed.

Lemma drained_range r b e :
  0 < r → 0 ≤ b → double b → 0 ≤ e →
  0 ≤ drained r b e ≤ b ∧ double (drained r b e) ∧ 2 ^ 53 * (b - drained r b e) ≤ 2 ^ 53 * gained r e + b.
Proof.
  intros Hr Hb Db He. pose proof (gained_nonneg r e ltac:(lia) He) as Hg. unfold drained. set (g := gained r e) in *.
  set (x := Z.max 0 (b - g)). assert (0 ≤ x ≤ b) as Hx by lia.
  assert (0 ≤ round_mag x 1) as H0 by (apply round_mag_nonneg; lia).
  assert (round_mag x 1 ≤ b) as H1 by (apply round_mag_le_double; [lia|lia|lia|by apply double_round|lia]).
  split; [lia|]. split.
  - apply round_double; [lia|lia|]. pose proof (double_lt b Hb Db). lia.
  - destruct (round_mag_error x 1) as [_ H]; [lia|lia|]. rewrite Z.mod_1_r in H. specialize (H eq_refl). lia.
Qed.

Section leaky_bucket.
Context `{LN : !LuaNumbers} (t0 : Z) (k : string) (c r now : Z).
Context (Hlaw : ∀ z, double z → str_num (num_str (Fin z)) = Some (Fin z)).
Context (Hc : 0 < c) (Dc : double c) (Hc2 : 2 * c < max64) (Hr : 0 < r) (Hperiod : period_ok c r).

(** What the arriving work adds to the drained level. *)
Definition raised (b t n : Z) : Z := round_mag (drained r b (now - t) + n) 1.

Lemma ratelimit_leaky_run m b t n :
  0 ≤ b ≤ c → double b → 0 ≤ t ≤ now → now ≤ 2 ^ 53 → 0 ≤ n ≤ c → double n →
  bucket_found k now "level" 0 m b t →
  ∃ left ms m', serve_ref t0 (RateLimitLeaky k (Fin c) (Fin r) now (Fin n)) m =
                  (RInts [if raised b t n <=? c then 1 else 0; left; ms], m') ∧
    bucket_at k "level" m' (if raised b t n <=? c then raised b t n else drained r b (now - t)) now
      (t0 + (fill_ms c r + 1000)) ∧
    0 ≤ ms ≤ fill_ms c r ∧
    ms = (if raised b t n <=? c then 0 else wait_ms r (round_mag (raised b t n - c) 1)).
Proof.
  intros Hb Db Ht Hnow Hn Dn Hf. unfold serve_ref; cbn [request_script request_fuel]. unfold ratelimit_leaky.
  destruct (bucket_read t0 k now Hlaw "level" 0 m b t (leaky_decide k (Fin c) (Fin r) now (Fin n)))
    as (m1 & -> & h & Hh); [exact Db|lia|exact Hf|].
  unfold leaky_decide. rewrite (drain_value r b now t Hr (proj1 Hb) Db Ht Hnow).
  destruct (drained_range r b (now - t) Hr (proj1 Hb) Db ltac:(lia)) as (HD & DD & _).
  unfold raised. set (D := drained r b (now - t)) in *.
  assert (0 < bucket_ttl (Fin c) (Fin r)) as Httl.
  { rewrite bucket_ttl_value by done. destruct (fill_ms_bounds c r); [done..|lia]. }
  assert (0 ≤ round_mag (D + n) 1 ≤ 2 * c) as HN.
  { split; [apply round_mag_nonneg; lia|].
    apply round_mag_le_double; [lia|lia|lia| |lia]. apply double_twice; [lia|]. apply double_round; [lia|exact Dc]. }
  assert (num (round_mag (D + n) 1) (capped (round_mag (D + n) 1))) as Hnum.
  { apply capped_num; [|lia]. apply round_double; lia. }
  cbn [fadd]. rewrite fround_nonneg by lia. change (if round_mag (D + n) 1 <? max64 then _ else _)
    with (capped (round_mag (D + n) 1)). rewrite (proj1 Hnum). set (N := round_mag (D + n) 1) in *.
  cbn [fleb]. rewrite <- bucket_ttl_value by done. destruct (Z.leb_spec N c) as [Hle|Hgt].
  - destruct (bucket_write t0 k c r now "level" m1 h N (mret (RInts [1; 0; ftrunc (Fin 0)]))) as (m' & -> & Hat);
      [discriminate|exact Hh|exact Httl|].
    eexists _, _, m'. split; [reflexivity|]. split; [exact Hat|]. assert (ftrunc (Fin 0) = 0) as -> by done.
    destruct (fill_ms_bounds c r); [done..|]. split; [lia|reflexivity].
  - assert (num c (Fin c)) as Hcn by (split; [done|split; [lia|exact Dc]]). rewrite (proj1 Hnum) in Hnum.
    rewrite (proj1 (fsub_num _ _ _ _ Hnum Hcn ltac:(lia))). set (miss := round_mag (N - c) 1).
    assert (0 ≤ miss ≤ c) as Hmiss.
    { split; [apply round_mag_nonneg; lia|].
      apply round_mag_le_double; [lia|lia|lia| |lia]. apply double_round; [lia|exact Dc]. }
    destruct (wait_value c r miss) as [-> Hw]; [exact Hc|exact Hr|exact Hmiss|exact Hperiod|].
    destruct (bucket_write t0 k c r now "level" m1 h D (mret (RInts [0; 0; wait_ms r miss]))) as (m' & -> & Hat);
      [discriminate|exact Hh|exact Httl|].
    eexists _, _, m'. split; [reflexivity|]. split; [exact Hat|]. split; [exact Hw|reflexivity].
Qed.
End leaky_bucket.

(** The credit is the room left above the level. *)
Definition leaky_account `{!LuaNumbers} (c : Z) (v : value) (a t : Z) : Prop :=
  ∃ h, v = VHash h ∧ h !! "level" = Some (num_str (Fin (c - a))) ∧ h !! "ts" = Some (num_str (of_Z t)) ∧
       double (c - a).

Definition leaky_request (k : string) (c r now n : Z) : request := RateLimitLeaky k (Fin c) (Fin r) now (Fin n).

Lemma double_0 : double 0.
Proof. split; [apply round_mag_0; lia|]. rewrite Z.abs_0. apply (max64_53 0 0); lia. Qed.

Lemma leaky_step `{LN : !LuaNumbers} k c r :
  (∀ z, double z → str_num (num_str (Fin z)) = Some (Fin z)) →
  0 < c → double c → 2 * c < max64 → 0 < r → period_ok c r →
  account_step c r k (leaky_account c) (leaky_request k c r).
Proof.
  intros Hlaw Hc Dc Hc2 Hr Hp t0 m now a t n Hf Ht Hnow Hn Dn. unfold leaky_request.
  assert (0 ≤ a ≤ c ∧ double (c - a) ∧ bucket_found k now "level" 0 m (c - a) t) as (Ha & Da & Hb).
  { destruct Hf as [(Hk & -> & ->)|(v & x & Hk & (h & -> & H1 & H2 & Da) & Ha)].
    - rewrite Z.sub_diag. split; [lia|split; [exact double_0|by left]].
    - split; [exact Ha|split; [exact Da|]]. right. exists x, h. by split. }
  set (b := c - a) in *. assert (0 ≤ b ≤ c) as Hbc by lia.
  destruct (ratelimit_leaky_run t0 k c r now Hlaw Hc Dc Hc2 Hr Hp m b t n Hbc Da Ht Hnow Hn Dn Hb)
    as (left & ms & m' & Hrun & (h & Hk & H1 & H2) & Hms & _).
  destruct (drained_range r b (now - t) Hr (proj1 Hbc) Da ltac:(lia)) as (HD & DD & Hdr).
  pose proof (gained_le r (now - t) Hr ltac:(lia)) as Hg. unfold raised in *.
  set (D := drained r b (now - t)) in *. set (N := round_mag (D + n) 1) in *.
  pose proof (round_mag_nonneg (D + n) 1 ltac:(lia) ltac:(lia)) as HN0. fold N in HN0.
  exists (N <=? c), left, ms, m', (VHash h). destruct (Z.leb_spec N c) as [Hok|Hno].
  - exists (c - N). assert (double N) as DN by (apply round_double; lia).
    pose proof (sum_rounding D n c ltac:(lia) ltac:(lia) Hok) as Hrd. fold N in Hrd.
    split; [exact Hrun|]. split; [exact Hk|]. split.
    { exists h. replace (c - (c - N)) with N by lia. by split. }
    split; [lia|]. split; [exact Hms|]. split; lia.
  - exists (c - D). split; [exact Hrun|]. split; [exact Hk|]. split.
    { exists h. replace (c - (c - D)) with D by lia. by split. }
    split; [lia|]. split; [exact Hms|]. split; lia.
Qed.

Section leaky_theorem.
Context {S : Type} `{!RedisOps S, !RedisLaws S}.

(** A leaky bucket admits at the same rate as a token bucket.  Under the
    conditions of [token_bucket_rate], and for a capacity of which twice is
    still a finite double, the amounts granted over every stretch of requests
    are bounded in the same way, and every retry-after is at most the time to
    drain the bucket and fits a duration. *)
Theorem leaky_bucket_rate cl name rate opts rl c r δ l (s : S) :
  NewRateLimiter cl name rate opts = Ran rl → rl_algorithm rl = AlgorithmLeakyBucket →
  rl_capacity rl = Fin c → rl_rate rl = Fin r → double c → 2 * c < max64 → δ ≤ 499 → forward l →
  r_view s !! rl_key rl = None →
  prefix_all (account_visit c δ (leaky_request (rl_key rl) c r)) [] (log_on (rl_key rl) l s) →
  (∀ pre mid post, log_on (rl_key rl) l s = pre ++ mid ++ post →
     2 ^ 51 * (1000 * granted all_visits mid) ≤ budget c r mid) ∧
  Forall (retry_ok c r) (log_on (rl_key rl) l s) ∧
  wrap64 (fill_ms c r * Millisecond) = fill_ms c r * Millisecond.
Proof.
  intros Hnew _ Ec Er Dc Hc2 Hδ Hf Hs Hv. pose proof (new_limiter_ok _ _ _ _ _ Hnew) as Hok.
  destruct (bucket_params rl c r Hok Ec Er) as (Hc & Hr & Hp).
  destruct (account_history c r δ (rl_key rl) (leaky_account c) (leaky_request (rl_key rl) c r) l s) as [H1 H2];
    [exact Hc|exact Hr|exact Hp|exact Hδ| |by split|exact Hf|exact Hs|exact Hv|].
  - apply leaky_step; [apply law_numbers|exact Hc|exact Dc|exact Hc2|exact Hr|exact Hp].
  - split; [exact H1|split; [exact H2|by apply fill_fits]].
Qed.
End leaky_theorem.

Module Ex.
(** Two requests a second, and a server at 5 s. *)
Definition bucket (alg : Algorithm) : RateLimiter :=
  {| rl_client := New []; rl_name := "api"; rl_key := "{api}"; rl_capacity := of_Z 2;
     rl_rate := of_Z 2; rl_algorithm := alg |}.

Lemma new_token : NewRateLimiter (New []) "api" (PerSecond (of_Z 2)) [] = Ran (bucket AlgorithmTokenBucket).
Proof. vm_compute; reflexivity. Qed.
Lemma new_leaky :
  NewRateLimiter (New []) "api" (PerSecond (of_Z 2)) [LeakyBucket] = Ran (bucket AlgorithmLeakyBucket).
Proof. vm_compute; reflexivity. Qed.

Definition s0 : mem := mem_empty (5 * Second).
Definition two : Z := 2 * unit64.

(** The burst of two, one too many, and half a second later one more. *)
Definition run (req : Z → Z → request) : list env_step :=
  [Other (req 5000 two); wait (100 * Millisecond); Other (req 5100 unit64);
   wait (400 * Millisecond); Other (req 5500 unit64)].
Definition log (req : Z → Z → request) : list visit :=
  [Visit 5000 (req 5000 two) (RInts [1; 0; 0]); Visit 5100 (req 5100 unit64) (RInts [0; 0; 400]);
   Visit 5500 (req 5500 unit64) (RInts [1; 0; 0])].

Definition token : Z → Z → request := token_request "{api}" two two.
Definition leaky : Z → Z → request := leaky_request "{api}" two two.

Lemma token_log : log_on "{api}" (run token) s0 = log token.
Proof. vm_compute; reflexivity. Qed.
Lemma leaky_log : log_on "{api}" (run leaky) s0 = log leaky.
Proof. vm_compute; reflexivity. Qed.

Lemma double_two : double two.
Proof. apply (num_of_Z 2); lia. Qed.
Lemma double_unit : double unit64.
Proof. rewrite <- (Z.mul_1_l unit64). apply (num_of_Z 1); lia. Qed.

Lemma visits_ok (req : Z → Z → request) :
  (∀ clk now n x, stamp (Visit clk (req now n) x) = now) → prefix_all (account_visit two 50 req) [] (log req).
Proof.
  intros Hst. pose proof unit64_pos. assert (0 ≤ two ≤ two ∧ 0 ≤ unit64 ≤ two) as [H2 H1] by (unfold two; lia).
  unfold log. cbn [prefix_all app]. unfold account_visit.
  assert (∀ clk now n x, v_request (Visit clk (req now n) x) = req now n) as Hreq by reflexivity.
  repeat (rewrite !Hst). cbn [v_clock v_request].
  split; [|split; [|split; [|exact I]]]; (split; [eexists _, _; split; [reflexivity|]|split; [lia|split; [lia|]]]);
    first [exact (conj H2 double_two)|exact (conj H1 double_unit)|repeat constructor; rewrite Hst; lia].
Qed.

Lemma token_bucket_rate_witness :
  Forall (retry_ok two two) (log_on "{api}" (run token) s0) ∧
  granted all_visits (log_on "{api}" (run token) s0) = 3 * unit64.
Proof.
  split.
  - apply (token_bucket_rate (New []) "api" (PerSecond (of_Z 2)) [] (bucket AlgorithmTokenBucket) two two 50
      (run token) s0).
    + exact new_token.
    + reflexivity.
    + vm_compute; reflexivity.
    + vm_compute; reflexivity.
    + exact double_two.
    + lia.
    + repeat constructor; vm_compute; discriminate.
    + reflexivity.
    + change (rl_key _) with "{api}". change (token_request "{api}" two two) with token. rewrite token_log.
      apply visits_ok; reflexivity.
  - rewrite token_log. vm_compute; reflexivity.
Defined.

Lemma leaky_bucket_rate_witness :
  Forall (retry_ok two two) (log_on "{api}" (run leaky) s0) ∧
  granted all_visits (log_on "{api}" (run leaky) s0) = 3 * unit64.
Proof.
  split.
  - apply (leaky_bucket_rate (New []) "api" (PerSecond (of_Z 2)) [LeakyBucket] (bucket AlgorithmLeakyBucket) two two
      50 (run leaky) s0).
    + exact new_leaky.
    + reflexivity.
    + vm_compute; reflexivity.
    + vm_compute; reflexivity.
    + exact double_two.
    + apply Z.ltb_lt. vm_compute; reflexivity.
    + lia.
    + repeat constructor; vm_compute; discriminate.
    + reflexivity.
    + change (rl_key _) with "{api}". change (leaky_request "{api}" two two) with leaky. rewrite leaky_log.
      apply visits_ok; reflexivity.
  - rewrite leaky_log. vm_compute; reflexivity.
Defined.
End Ex.
