(* ===== verification/RateEquiv.v ===== *)
(** * The two buckets are one algorithm

    With numbers that the doubles represent exactly, a leaky bucket answers
    every request as a token bucket of the same capacity and rate does: what
    is left of the one is the room left in the other. *)
From S2P Require Import Prelude Float64 Redis RedisMem Errors Requests ScriptsRate.
From S2P Require Import GoRuntime Scenario Config RateLog RateLimiter RateBucket.
Open Scope Z_scope.

(** ** Exact arithmetic

    [grid v]: [v] is a whole number of eighths. *)
Definition eighth : Z := 2 ^ 1071.
Definition grid (v : Z) : Prop := ∃ j, 0 ≤ j ≤ 2 ^ 53 ∧ v = j * eighth.

Lemma eighth_pos : 0 < eighth.
Proof. apply Z.pow_pos_nonneg; lia. Qed.
Lemma unit64_eighth : unit64 = 8 * eighth.
Proof. rewrite unit64_units. unfold eighth. change 1074 with (3 + 1071). by rewrite Z.pow_add_r by lia. Qed.

Lemma round_eighths j : 0 ≤ j ≤ 2 ^ 53 → round_mag (j * eighth) 1 = j * eighth.
Proof. intros Hj. apply round_mag_53; lia. Qed.
#[global] Opaque eighth.

Lemma grid_round v : grid v → round_mag v 1 = v.
Proof. intros (j & Hj & ->). by apply round_eighths. Qed.
Lemma grid_double v : grid v → double v.
Proof.
  intros (j & Hj & ->). pose proof eighth_pos. unfold double. rewrite Z.abs_eq by nia.
  split; [by apply round_eighths|]. pose proof (max64_53 j 1074 Hj ltac:(lia)) as H1.
  rewrite <- unit64_units, unit64_eighth in H1. nia.
Qed.

(** A refill over a multiple of an eighth of a second at a whole rate is
    exact, or more than any capacity. *)
Lemma gained_exact C R f :
  0 < R → 0 ≤ f → 125 * f ≤ 2 ^ 53 → C ≤ 2 ^ 53 → 
  let g := gained (R * unit64) (125 * f) in
  g = f * R * eighth ∨ (C * eighth ≤ g ∧ C * eighth ≤ f * R * eighth).
Proof.
  intros HR Hf Hf53 HC g. pose proof eighth_pos as He. pose proof unit64_pos as Hu.
  assert (round_mag (125 * f * unit64) 1000 = f * eighth) as Hq.
  { rewrite unit64_eighth. replace (125 * f * (8 * eighth)) with (f * eighth * 1000) by lia.
    rewrite round_mag_scaled by nia. apply round_eighths. lia. }
  assert (g = round_mag (f * R * eighth) 1) as ->.
  { unfold g, gained. rewrite Hq. replace (f * eighth * (R * unit64)) with (f * R * eighth * unit64) by lia.
    apply round_mag_scaled; [nia|done]. }
  destruct (Z.le_gt_cases (f * R) (2 ^ 53)) as [Hle|Hgt]; [left; apply round_eighths; nia|right].
  assert (C * eighth ≤ 2 ^ 53 * eighth) as HCe by (apply Z.mul_le_mono_nonneg_r; lia).
  assert (2 ^ 53 * eighth ≤ f * R * eighth) as Hfe by (apply Z.mul_le_mono_nonneg_r; lia).
  split; [|lia]. rewrite <- (round_eighths (2 ^ 53)) in HCe by lia.
  etrans; [exact HCe|]. apply round_mag_mono; lia.
Qed.

(** Tokens after the refill and level after the drain are complements. *)
Lemma complements C A R f :
  0 ≤ A ≤ C → C ≤ 2 ^ 52 → 0 < R → 0 ≤ f → 125 * f ≤ 2 ^ 53 →
  ∃ X, 0 ≤ X ≤ C ∧ refilled (C * eighth) (R * unit64) (A * eighth) (125 * f) = X * eighth ∧
       drained (R * unit64) ((C - A) * eighth) (125 * f) = (C - X) * eighth.
Proof.
  intros HA HC HR Hf Hf53. pose proof eighth_pos as He. unfold refilled, drained.
  destruct (gained_exact C R f HR Hf Hf53 ltac:(lia)) as [->|[Hg _]].
  - exists (Z.min (A + f * R) C). assert (0 ≤ f * R) as HfR by nia. split; [lia|].
    replace (A * eighth + f * R * eighth) with ((A + f * R) * eighth) by lia.
    replace ((C - A) * eighth - f * R * eighth) with ((C - A - f * R) * eighth) by lia. split.
    + destruct (Z.le_gt_cases (A + f * R) (2 ^ 53)) as [Hle|Hgt].
      * rewrite round_eighths by lia. rewrite <- Z.mul_min_distr_nonneg_r by lia. done.
      * rewrite (Z.min_r (A + f * R)) by lia. apply Z.min_r.
        rewrite <- (round_eighths C) at 1 by lia. apply round_mag_mono; nia.
    + destruct (Z.le_gt_cases (C - A) (f * R)) as [Hle|Hgt].
      * rewrite Z.max_l, round_mag_0 by nia. rewrite Z.min_r by lia. lia.
      * rewrite Z.max_r by nia. rewrite Z.min_l by lia. rewrite round_eighths by lia. lia.
  - set (g := gained _ _) in *. exists C. split; [lia|]. split.
    + apply Z.min_r. rewrite <- (round_eighths C) at 1 by lia. apply round_mag_mono; nia.
    + rewrite Z.max_l, round_mag_0 by nia. lia.
Qed.

(** ** One request to both *)
Section step.
Context `{LN : !LuaNumbers} (Hlaw : ∀ z, double z → str_num (num_str (Fin z)) = Some (Fin z)).
Context (kt kl : string) (C R : Z) (HC : 0 < C ≤ 2 ^ 52) (HR : 0 < R).

Definition cap : Z := C * eighth.
Definition rate : Z := R * unit64.
Context (Hp : period_ok cap rate).

(** The credit [A] eighths with the stamp [t], in both buckets, which expire
    at the same time; or neither is there. *)
Definition same_credit (m : keyspace) (last : option Z) : Prop :=
  (m !! kt = None ∧ m !! kl = None) ∨
  ∃ A t x, last = Some t ∧ 0 ≤ A ≤ C ∧ bucket_at kt "tokens" m (A * eighth) t x ∧
           bucket_at kl "level" m ((C - A) * eighth) t x.

Definition same_decision (x y : reply) : Prop :=
  ∃ b left left' ms, x = RInts [b; left; ms] ∧ y = RInts [b; left'; ms].

(** What the two requests find. *)
Lemma both_found m now last :
  same_credit m last → 0 ≤ now →
  (∀ t, last = Some t → 0 ≤ t ≤ now ∧ (now - t) mod 125 = 0) →
  ∃ A t f, 0 ≤ A ≤ C ∧ 0 ≤ t ≤ now ∧ 0 ≤ f ∧ now - t = 125 * f ∧
    bucket_found kt now "tokens" cap m (A * eighth) t ∧ bucket_found kl now "level" 0 m ((C - A) * eighth) t.
Proof.
  intros Hs Hnow Hlast. destruct Hs as [[H1 H2]|(A & t & x0 & -> & HA & H1 & H2)].
  - exists C, now, 0. do 4 (split; [lia|]).
    split; left; (split; [done|split; [unfold cap; lia|done]]).
  - destruct (Hlast t eq_refl) as [Ht Hmod]. exists A, t, ((now - t) / 125).
    pose proof (Z.div_mod (now - t) 125 ltac:(lia)). assert (0 ≤ (now - t) / 125) by (apply Z.div_pos; lia).
    do 3 (split; [done|]). split; [lia|]. split; right; by exists x0.
Qed.

Lemma both_step t0 m now M last :
  kt ≠ kl → same_credit m last → 0 ≤ now ≤ 2 ^ 53 → 0 ≤ M ≤ C →
  (∀ t, last = Some t → 0 ≤ t ≤ now ∧ (now - t) mod 125 = 0) →
  let x := serve_ref t0 (RateLimit kt (Fin cap) (Fin rate) now (Fin (M * eighth))) m in
  let y := serve_ref t0 (RateLimitLeaky kl (Fin cap) (Fin rate) now (Fin (M * eighth))) x.2 in
  same_decision x.1 y.1 ∧ same_credit y.2 (Some now).
Proof.
  intros Hkeys Hs Hnow HM Hlast x y. pose proof eighth_pos as He. pose proof unit64_pos as Hu.
  assert (grid cap) as Gc by (exists C; split; [lia|done]).
  assert (0 < cap ∧ 0 < rate) as [Hc0 Hr0] by (unfold cap, rate; nia).
  assert (grid (M * eighth)) as GM by (exists M; split; [lia|done]).
  assert (0 ≤ M * eighth ≤ cap) as HMc by (unfold cap; nia).
  assert (2 * cap < max64) as Hc2.
  { assert (grid (2 * cap)) as G2 by (exists (2 * C); split; [lia|unfold cap; lia]).
    pose proof (double_lt (2 * cap) ltac:(lia) (grid_double _ G2)). done. }
  destruct (both_found m now last Hs (proj1 Hnow) Hlast) as (A & t & f & HA & Ht & Hf & Ef & Ft & Fl).
  assert (grid (A * eighth) ∧ grid ((C - A) * eighth)) as [GA GL].
  { split; [exists A|exists (C - A)]; (split; [lia|done]). }
  destruct (complements C A R f HA ltac:(lia) HR Hf ltac:(lia)) as (X & HX & EX & ED).
  fold cap rate in EX, ED. rewrite <- Ef in EX, ED.
  destruct (ratelimit_run t0 kt cap rate now Hlaw Hc0 (grid_double _ Gc) Hr0 Hp m (A * eighth) t (M * eighth))
    as (left & ms & m1 & E1 & B1 & _ & Ems1);
    [unfold cap; nia|by apply grid_double|exact Ht|lia|exact HMc|by apply grid_double|exact Ft|].
  rewrite EX in E1, B1, Ems1.
  assert (m1 !! kl = m !! kl) as Efr.
  { pose proof (serve_ref_frame t0 (RateLimit kt (Fin cap) (Fin rate) now (Fin (M * eighth))) m kl) as H.
    rewrite E1 in H. apply H. cbn [request_keys]. set_solver. }
  assert (bucket_found kl now "level" 0 m1 ((C - A) * eighth) t) as Fl1.
  { unfold bucket_found, bucket_at in *. by rewrite Efr. }
  destruct (ratelimit_leaky_run t0 kl cap rate now Hlaw Hc0 (grid_double _ Gc) Hc2 Hr0 Hp m1 ((C - A) * eighth) t
    (M * eighth)) as (left' & ms' & m2 & E2 & B2 & _ & Ems2);
    [unfold cap; nia|by apply grid_double|exact Ht|lia|exact HMc|by apply grid_double|exact Fl1|].
  assert (raised rate now ((C - A) * eighth) t (M * eighth) = (C - X + M) * eighth) as ER.
  { unfold raised. rewrite ED, <- Z.mul_add_distr_r. apply round_eighths; lia. }
  rewrite ER, ED in *.
  assert ((M * eighth <=? X * eighth) = (M <=? X)) as T1 by nia.
  assert (((C - X + M) * eighth <=? cap) = (M <=? X)) as T2 by (unfold cap; nia).
  rewrite T1 in *. rewrite T2 in *.
  assert (ms' = ms) as ->.
  { rewrite Ems1, Ems2. destruct (M <=? X); [done|]. do 2 f_equal. unfold cap; lia. }
  unfold y, x. rewrite E1; cbn [fst snd]. rewrite E2; cbn [fst snd].
  split; [by eexists _, _, _, _|]. right.
  exists (if M <=? X then X - M else X), now, (t0 + (fill_ms cap rate + 1000)). split; [done|].
  split; [destruct (Z.leb_spec M X); lia|]. split.
  - destruct B1 as (h & Hk & H1 & H2). exists h.
    pose proof (serve_ref_frame t0 (RateLimitLeaky kl (Fin cap) (Fin rate) now (Fin (M * eighth))) m1 kt) as Hfr.
    rewrite E2 in Hfr; cbn [snd] in Hfr. rewrite Hfr by (cbn [request_keys]; set_solver). split; [done|]. split; [|done].
    rewrite H1. destruct (Z.leb_spec M X); [|done]. rewrite <- Z.mul_sub_distr_r, round_eighths by lia. done.
  - destruct B2 as (h & Hk & H1 & H2). exists h. split; [done|]. split; [|done].
    rewrite H1. destruct (M <=? X); [|done]. do 3 f_equal; lia.
Qed.
End step.

Section duel.
Context {S : Type} `{!RedisOps S, !RedisLaws S}.

Lemma same_credit_tick kt kl C d (s : S) last :
  same_credit kt kl C (r_view s) last → same_credit kt kl C (r_view (r_tick d s)) last.
Proof.
  intros [[H1 H2]|(A & t & x & -> & HA & (h & Hk & H1 & H2) & (h' & Hk' & H1' & H2'))].
  - left. by rewrite !tick_lookup, H1, H2.
  - unfold same_credit, bucket_at. rewrite !tick_lookup, Hk, Hk'. unfold entry_live; cbn [e_exp].
    destruct (decide (r_expired x _ = false)); [right|by left].
    exists A, t, x. split; [done|]. split; [done|]. split; [by exists h|by exists h'].
Qed.

(** Both limiters are asked for the same, in eighths, at the same stamps; [d]
    nanoseconds pass on the server before each pair of requests. *)
Fixpoint duel (rlt rll : RateLimiter) (l : list (Z * Z * Z)) (s : S) : list (reply * reply) :=
  match l with
  | [] => []
  | (d, now, M) :: l =>
      let n := Fin (M * eighth) in
      let '(x, s) := serve (RateLimit (rl_key rlt) (rl_capacity rlt) (rl_rate rlt) now n) (r_tick d s) in
      let '(y, s) := serve (RateLimitLeaky (rl_key rll) (rl_capacity rll) (rl_rate rll) now n) s in
      (x, y) :: duel rlt rll l s
  end.

(** Stamps that move forward in eighths of a second, and counts up to [C]. *)
Fixpoint stamps_ok (C : Z) (last : option Z) (l : list (Z * Z * Z)) : Prop :=
  match l with
  | [] => True
  | (d, now, M) :: l =>
      0 ≤ now ≤ 2 ^ 53 ∧ 0 ≤ M ≤ C ∧
      match last with Some t => 0 ≤ t ≤ now ∧ (now - t) mod 125 = 0 | None => True end ∧
      stamps_ok C (Some now) l
  end.

(** C12: a leaky bucket is a token bucket.  Of two limiters with the same
    capacity, a number of eighths up to 2^52, and the same whole rate, the one
    a token bucket and the other a leaky bucket, asked for the same counts at
    the same times, in eighths and at stamps that are eighths of a second
    apart, every request gets the same decision and the same retry-after from
    both; the burst that the leaky bucket lets through at once is the whole
    capacity. *)
Theorem buckets_equivalent ct cl nt nl rate opts opts' rlt rll C R l (s : S) :
  NewRateLimiter ct nt rate opts = Ran rlt → NewRateLimiter cl nl rate opts' = Ran rll →
  rl_algorithm rlt = AlgorithmTokenBucket → rl_algorithm rll = AlgorithmLeakyBucket →
  rl_capacity rlt = Fin (C * eighth) → rl_rate rlt = Fin (R * unit64) →
  rl_capacity rll = Fin (C * eighth) → rl_rate rll = Fin (R * unit64) →
  0 < C ≤ 2 ^ 52 → 0 < R → rl_key rlt ≠ rl_key rll →
  r_view s !! rl_key rlt = None → r_view s !! rl_key rll = None → stamps_ok C None l →
  Forall (λ p, same_decision p.1 p.2) (duel rlt rll l s).
Proof.
  intros Hnew _ _ _ Ec Er Ec' Er' HC HR Hkeys H1 H2.
  destruct (bucket_params rlt _ _ (new_limiter_ok _ _ _ _ _ Hnew) Ec Er) as (_ & _ & Hp).
  assert (same_credit (rl_key rlt) (rl_key rll) C (r_view s) None) as Hs by (by left).
  clear H1 H2. generalize (None : option Z) as last, Hs. clear Hs. revert s.
  induction l as [|[[d now] M] l IH]; intros s last Hs; cbn [duel stamps_ok]; [constructor|].
  intros (Hnow & HM & Hlast & Hl). rewrite Ec, Er, Ec', Er'.
  apply (same_credit_tick _ _ C d) in Hs.
  destruct (both_step law_numbers (rl_key rlt) (rl_key rll) C R HC HR Hp (r_clock (r_tick d s)) _ now M last Hkeys Hs
    Hnow HM) as [Hd Hs'].
  { intros t ->. exact Hlast. }
  set (req := RateLimit (rl_key rlt) _ _ _ _) in *. set (req' := RateLimitLeaky (rl_key rll) _ _ _ _) in *.
  fold req in Hd, Hs'. fold req' in Hd, Hs'.
  pose proof (serve_reply req (r_tick d s)) as Ex. pose proof (serve_view req (r_tick d s)) as Ev.
  pose proof (serve_clock req (r_tick d s)) as Eclk.
  destruct (serve req (r_tick d s)) as [x s2]; cbn [fst snd] in *.
  pose proof (serve_reply req' s2) as Ey. pose proof (serve_view req' s2) as Ev'.
  destruct (serve req' s2) as [y s3]; cbn [fst snd] in *. rewrite Ev, Eclk in Ey, Ev'.
  constructor; [cbn [fst snd]; rewrite Ex, Ey; exact Hd|]. apply (IH s3 (Some now)); [|exact Hl].
  rewrite Ev'. exact Hs'.
Qed.
End duel.

Module Ex.
Definition two : Z := 16 * eighth.
Definition limiter (name : string) (alg : Algorithm) : RateLimiter :=
  {| rl_client := New []; rl_name := name; rl_key := "{" ++ name ++ "}"; rl_capacity := of_Z 2;
     rl_rate := of_Z 2; rl_algorithm := alg |}.

(** A burst of two, one too many, one half a second after the burst, and two
    that have to wait. *)
Definition asks : list (Z * Z * Z) :=
  [(0, 5000, 16); (125 * Millisecond, 5125, 8); (375 * Millisecond, 5500, 8); (0, 5500, 16)].

Lemma buckets_equivalent_witness :
  Forall (λ p, same_decision p.1 p.2)
    (duel (limiter "a" AlgorithmTokenBucket) (limiter "b" AlgorithmLeakyBucket) asks (mem_empty (5 * Second))) ∧
  duel (limiter "a" AlgorithmTokenBucket) (limiter "b" AlgorithmLeakyBucket) asks
      (mem_empty (5 * Second)) =
    [(RInts [1; 0; 0], RInts [1; 0; 0]); (RInts [0; 0; 375], RInts [0; 0; 375]);
     (RInts [1; 0; 0], RInts [1; 0; 0]); (RInts [0; 0; 1000], RInts [0; 0; 1000])].
Proof.
  split; [|vm_compute; reflexivity].
  apply (buckets_equivalent (New []) (New []) "a" "b" (PerSecond (of_Z 2)) [] [LeakyBucket] _ _ 16 2).
  - vm_compute; reflexivity.
  - vm_compute; reflexivity.
  - reflexivity.
  - reflexivity.
  - vm_compute; reflexivity.
  - vm_compute; reflexivity.
  - vm_compute; reflexivity.
  - vm_compute; reflexivity.
  - lia.
  - lia.
  - discriminate.
  - reflexivity.
  - reflexivity.
  - repeat (split; [lia|]; split; [lia|]; split; [done || (split; [lia|reflexivity])|]). exact I.
Defined.
End Ex.
