(* ===== verification/RatePeriod.v ===== *)
(** * How long a window is

    [window()] divides and multiplies doubles and truncates.  Its result is
    the quotient of capacity and rate to the nanosecond, up to the rounding of
    the doubles; where the rounding is downward, a window that should be whole
    loses a nanosecond, and with it a millisecond. *)
From S2P Require Import Prelude Float64 Redis RedisMem Errors Requests ScriptsRate.
From S2P Require Import GoRuntime Scenario Keys Config RateLog RateLimiter RateBucket.
Open Scope Z_scope.

Lemma unit64_large : 2 ^ 200 < unit64.
Proof. rewrite unit64_units. apply Z.pow_lt_mono_r; lia. Qed.

Section window.
Context (c r : Z) (Hc : 0 < c) (Hr : 0 < r).

(** The nanoseconds before the truncation. *)
Definition exact_ns : Z := round_mag (round_mag (c * unit64) r * Second) 1.

Lemma exact_ns_bounds :
  2 ^ 106 * (exact_ns * r) ≤ ((2 ^ 106 + 2 ^ 55) * (c * Second) + r) * unit64 ∧
  ((2 ^ 106 - 2 ^ 55) * (c * Second) - r) * unit64 ≤ 2 ^ 106 * (exact_ns * r).
Proof.
  pose proof unit64_large as Hu. unfold exact_ns. set (u := unit64) in *.
  assert (0 ≤ c * u) as Hcu by (apply Z.mul_nonneg_nonneg; lia).
  destruct (round_mag_error (c * u) r Hcu Hr) as [H1 _]. set (q := round_mag (c * u) r) in *.
  assert (0 ≤ q) as Hq by (by apply round_mag_nonneg).
  assert (0 ≤ q * Second) as HqS by (unfold Second, Millisecond; lia).
  destruct (round_mag_error (q * Second) 1 HqS ltac:(lia)) as [_ H2]. rewrite Z.mod_1_r in H2. specialize (H2 eq_refl).
  set (ns := round_mag (q * Second) 1) in *. rewrite Z.mul_1_r in H2.
  assert (2 ^ 53 * (q * r) ≤ (2 ^ 53 + 1) * (c * u) + 2 ^ 52 * r) as U1 by lia.
  assert ((2 ^ 53 - 1) * (c * u) - 2 ^ 52 * r ≤ 2 ^ 53 * (q * r)) as L1 by lia. clear H1.
  assert (2 ^ 53 * ns * r ≤ (2 ^ 53 + 1) * (q * Second) * r) as U2 by (apply Z.mul_le_mono_nonneg_r; lia).
  assert ((2 ^ 53 - 1) * (q * Second) * r ≤ 2 ^ 53 * ns * r) as L2 by (apply Z.mul_le_mono_nonneg_r; lia). clear H2.
  assert (2 ^ 200 * r ≤ r * u) as Hru by (rewrite Z.mul_comm; apply Z.mul_le_mono_nonneg_l; lia).
  unfold Second, Millisecond in *. set (qr := q * r) in *. set (cu := c * u) in *. set (nr := ns * r) in *.
  replace ((2 ^ 53 + 1) * (q * (1000 * 1000000)) * r) with ((2 ^ 53 + 1) * 1000000000 * qr) in U2 by (unfold qr; lia).
  replace ((2 ^ 53 - 1) * (q * (1000 * 1000000)) * r) with ((2 ^ 53 - 1) * 1000000000 * qr) in L2 by (unfold qr; lia).
  replace (2 ^ 53 * ns * r) with (2 ^ 53 * nr) in U2, L2 by (unfold nr; lia).
  replace (((2 ^ 106 + 2 ^ 55) * (c * (1000 * 1000000)) + r) * u) with
    ((2 ^ 106 + 2 ^ 55) * 1000000000 * cu + r * u) by (unfold cu; lia).
  replace (((2 ^ 106 - 2 ^ 55) * (c * (1000 * 1000000)) - r) * u) with
    ((2 ^ 106 - 2 ^ 55) * 1000000000 * cu - r * u) by (unfold cu; lia).
  assert (0 ≤ qr) by (unfold qr; apply Z.mul_nonneg_nonneg; lia).
  set (ru := r * u) in *. clearbody qr cu nr ru u. clear q ns Hq HqS. lia.
Qed.
End window.

Section accuracy.
Context (cl : Client) (name : string) (rate : Rate) (opts : list RateLimiterOption) (rl : RateLimiter).

Lemma window_value c r :
  limiter_ok rl → rl_capacity rl = Fin c → rl_rate rl = Fin r → window rl = exact_ns c r / unit64.
Proof.
  intros Hok Ec Er. destruct (bucket_params rl c r Hok Ec Er) as (Hc & Hr & Hp). pose proof unit64_pos as Hu.
  destruct (period_finite c r Hc Hr (period_check c r Hp)) as (q & Eq & Hq & Hq2).
  assert (q = round_mag (c * unit64) r) as Hqv.
  { rewrite fdiv_fin in Eq by lia. unfold capped in Eq. case_match; [by injection Eq as <-|discriminate Eq]. }
  destruct (period_bounds q Hq Hq2) as [Hb _].
  assert (fltb (of_Z max_window_ms) (fmul (Fin q) (of_Z 1000)) = false) as Hm by (rewrite <- Eq; exact (period_check c r Hp)).
  specialize (Hb Hm). clear Hm. unfold window. rewrite Ec, Er, Eq.
  rewrite fmul_Z in Hb |- * by (unfold Second, Millisecond; lia). unfold exact_ns. rewrite <- Hqv.
  set (ns := round_mag (q * Second) 1) in *.
  assert (0 ≤ ns) as Hns by (apply round_mag_nonneg; unfold Second, Millisecond; lia).
  revert Hb. unfold capped. destruct (ns <? max64); cbn [ftrunc].
  - rewrite Z.quot_div_nonneg by lia. destruct (in_int64 (ns / unit64)); [done|]. unfold int64_min; lia.
  - unfold int64_min; lia.
Qed.

(** C25: the window of a limiter is capacity over rate.  Whatever the rate and
    the options of a limiter that was made, its window in nanoseconds, computed
    in doubles and truncated, is the exact quotient rounded down, up to a
    relative 2^-51 and 2^-51 nanoseconds. *)
Theorem window_accuracy c r :
  NewRateLimiter cl name rate opts = Ran rl → rl_capacity rl = Fin c → rl_rate rl = Fin r →
  2 ^ 51 * (window rl * r) ≤ (2 ^ 51 + 1) * (c * Second) + r ∧
  (2 ^ 51 - 1) * (c * Second) ≤ 2 ^ 51 * ((window rl + 1) * r) + r.
Proof.
  intros Hok%new_limiter_ok Ec Er. rewrite (window_value c r Hok Ec Er).
  destruct (bucket_params rl c r Hok Ec Er) as (Hc & Hr & _). clear Hok Ec Er.
  destruct (exact_ns_bounds c r Hc Hr) as [HU HL]. pose proof unit64_pos as Hu.
  set (E := exact_ns c r) in *. pose proof (Z.div_mod E unit64 ltac:(lia)) as Hd.
  pose proof (Z.mod_pos_bound E unit64 Hu) as Hm. set (w := E / unit64) in *. set (u := unit64) in *.
  assert (w * r * u ≤ E * r) as H1 by nia. assert (E * r ≤ (w + 1) * r * u) as H2 by nia.
  assert (2 ^ 106 * (w * r) * u ≤ ((2 ^ 106 + 2 ^ 55) * (c * Second) + r) * u) as H3 by lia.
  assert (((2 ^ 106 - 2 ^ 55) * (c * Second) - r) * u ≤ 2 ^ 106 * ((w + 1) * r) * u) as H4 by lia.
  apply Z.mul_le_mono_pos_r in H3; [|done]. apply Z.mul_le_mono_pos_r in H4; [|done].
  clearbody w u E. clear HU HL H1 H2 Hd Hm Hu. split; lia.
Qed.
End accuracy.

Module Ex.
(** 23 requests a minute. *)
Definition minute : RateLimiter :=
  {| rl_client := New []; rl_name := "api"; rl_key := "{api}"; rl_capacity := of_Z 23;
     rl_rate := fdiv (of_Z 23) (of_Z 60); rl_algorithm := AlgorithmSlidingWindow |}.

Lemma new_minute : NewRateLimiter (New []) "api" (PerMinute (of_Z 23)) [SlidingWindow] = Ran minute.
Proof. vm_compute; reflexivity. Qed.

(** Its rate in units of 2^-1074. *)
Definition rate23 : Z := match rl_rate minute with Fin z => z | _ => 0 end.

Lemma window_accuracy_witness :
  2 ^ 51 * (59999999999 * rate23) ≤ (2 ^ 51 + 1) * (23 * unit64 * Second) + rate23.
Proof.
  destruct (window_accuracy (New []) "api" (PerMinute (of_Z 23)) [SlidingWindow] minute (23 * unit64) rate23
    new_minute) as [H _].
  - vm_compute; reflexivity.
  - vm_compute; reflexivity.
  - assert (window minute = 59999999999) as E by (vm_compute; reflexivity). rewrite E in H. exact H.
Defined.

(** Two bursts, 59.999 seconds apart. *)
Definition burst (now : Z) (prefix : string) : env_step :=
  Other (RateLimitSliding (rl_key minute) (rl_capacity minute) (Milliseconds (window minute)) now 23 prefix).
Definition bursts : list env_step :=
  [burst 5000 "00000000000000000000000000000001"; wait (59999 * Millisecond);
   burst 64999 "00000000000000000000000000000002"].

(** A minute that is too short.  [PerMinute(23)], a budget of 23 requests
    for one minute, makes a limiter whose window is 59,999 milliseconds: the
    division and the multiplication round below 60 seconds and the conversion
    truncates.  A sliding-window limiter then admits 46 requests within less
    than a minute. *)
Example minute_too_short :
  NewRateLimiter (New []) "api" (PerMinute (of_Z 23)) [SlidingWindow] = Ran minute ∧
  Milliseconds (window minute) = 59999 ∧
  (let log := log_on "{api}" bursts (mem_empty (5 * Second)) in
   granted all_visits log = 46 ∧ stamp <$> log = [5000; 64999]).
Proof. split; [exact new_minute|]. split; [vm_compute; reflexivity|]. split; vm_compute; reflexivity. Qed.
End Ex.
