(* ===== verification/Prometheus.v ===== *)
(** * The Prometheus sink

    [metrics/prometheus.go]: the sink that turns the events of the log into
    collectors of a bounded number of series.  The collectors and the
    registry are [client_golang]'s: a parameter ([Collectors]) with its
    documented behaviour as laws ([CollectorLaws]). *)
From S2P Require Import Prelude Float64 Redis Errors GoRuntime.
From stdpp Require Import gmap.
Open Scope Z_scope.

(** ** UTF-8

    [utf8.ValidString]: label values must be valid UTF-8. *)
Definition byte_in (lo hi : Z) (c : Ascii.ascii) : bool :=
  (lo <=? Z.of_N (Ascii.N_of_ascii c)) && (Z.of_N (Ascii.N_of_ascii c) <=? hi).

(** The range of the second byte and the number of bytes after it, by the
    first byte. *)
Definition utf8_lead (c : Ascii.ascii) : option (Z * Z * nat) :=
  if byte_in 0xC2 0xDF c then Some (0x80, 0xBF, 0%nat)
  else if byte_in 0xE0 0xE0 c then Some (0xA0, 0xBF, 1%nat)
  else if byte_in 0xED 0xED c then Some (0x80, 0x9F, 1%nat)
  else if byte_in 0xE1 0xEF c then Some (0x80, 0xBF, 1%nat)
  else if byte_in 0xF0 0xF0 c then Some (0x90, 0xBF, 2%nat)
  else if byte_in 0xF1 0xF3 c then Some (0x80, 0xBF, 2%nat)
  else if byte_in 0xF4 0xF4 c then Some (0x80, 0x8F, 2%nat)
  else None.

(** [rest]: what the bytes to come have to be, [None] between characters. *)
Fixpoint utf8_from (rest : option (Z * Z * nat)) (s : string) : bool :=
  match s, rest with
  | EmptyString, None => true
  | EmptyString, Some _ => false
  | String c s, None =>
      if byte_in 0 0x7F c then utf8_from None s
      else match utf8_lead c with Some r => utf8_from (Some r) s | None => false end
  | String c s, Some (lo, hi, more) =>
      byte_in lo hi c && utf8_from (match more with O => None | S n => Some (0x80, 0xBF, n) end) s
  end.

Definition ValidString : string → bool := utf8_from None.

(** ** What the sink relies on *)

Record Opts := { Namespace : string; o_Name : string }.

Class Collectors (CV HV Reg : Type) := {
  NewCounterVec : Opts → list string → CV;
  NewHistogramVec : Opts → list string → HV;
  c_Inc : list string → CV → ran CV;                  (** [WithLabelValues(...).Inc()] *)
  h_Observe : list string → float64 → HV → ran HV;    (** [WithLabelValues(...).Observe(x)] *)
  MustRegister : list (CV + HV) → Reg → ran Reg;
  (** what can be observed of them *)
  c_value : CV → list string → option Z;              (** a series' value, if there is the series *)
  h_count : HV → list string → option Z;              (** its sample count *)
  label_names : CV + HV → list string;
  fq_name : CV + HV → string;
  registered : Reg → gset string;
}.

(** A series counts exactly as long as a double does. *)
Definition counted (x : option Z) : option Z := Some (default 0 x + 1).
Definition countable_value (x : option Z) : Prop := default 0 x < 2 ^ 53.

Class CollectorLaws (CV HV Reg : Type) `{!Collectors CV HV Reg} : Prop := {
  law_new_counter : ∀ o ls vs, c_value (NewCounterVec (HV := HV) (Reg := Reg) o ls : CV) vs = None;
  law_new_histogram : ∀ o ls vs, h_count (NewHistogramVec (CV := CV) (Reg := Reg) o ls : HV) vs = None;
  law_describe : ∀ o ls,
    fq_name (inl (NewCounterVec o ls) : CV + HV) = Namespace o +:+ "_" +:+ o_Name o ∧
    fq_name (inr (NewHistogramVec o ls) : CV + HV) = Namespace o +:+ "_" +:+ o_Name o ∧
    label_names (inl (NewCounterVec o ls) : CV + HV) = ls ∧ label_names (inr (NewHistogramVec o ls) : CV + HV) = ls;
  law_inc : ∀ vs (v : CV),
    length vs = length (label_names (inl v : CV + HV)) → forallb ValidString vs = true → countable_value (c_value v vs) →
    ∃ v', c_Inc vs v = Ran v' ∧ label_names (inl v' : CV + HV) = label_names (inl v : CV + HV) ∧
          ∀ vs', c_value v' vs' = if decide (vs' = vs) then counted (c_value v vs) else c_value v vs';
  law_observe : ∀ vs x (v : HV),
    length vs = length (label_names (inr v : CV + HV)) → forallb ValidString vs = true → countable_value (h_count v vs) →
    ∃ v', h_Observe vs x v = Ran v' ∧ label_names (inr v' : CV + HV) = label_names (inr v : CV + HV) ∧
          ∀ vs', h_count v' vs' = if decide (vs' = vs) then counted (h_count v vs) else h_count v vs';
  law_register : ∀ (cs : list (CV + HV)) reg,
    NoDup (fq_name <$> cs) → (∀ c, c ∈ cs → fq_name c ∉ registered reg) →
    ∃ reg', MustRegister cs reg = Ran reg' ∧ registered reg' = list_to_set (fq_name <$> cs) ∪ registered reg;
  (** a second collector of a registered name is an error, on which [MustRegister] panics *)
  law_register_twice : ∀ (cs : list (CV + HV)) reg c,
    c ∈ cs → fq_name c ∈ registered reg → ∃ msg, MustRegister cs reg = Panic msg;
}.

(** ** The sink *)
Record Prometheus (CV HV : Type) := Sink {
  resources : gset string;
  acquires : CV;
  acquireWait : HV;
  releases : CV;
  renews : CV;
  renewStopped : CV;
}.
Arguments Sink {CV HV} _ _ _ _ _ _.
Arguments resources {CV HV} _.
Arguments acquires {CV HV} _.
Arguments acquireWait {CV HV} _.
Arguments releases {CV HV} _.
Arguments renews {CV HV} _.
Arguments renewStopped {CV HV} _.

(** [Duration.Seconds()] *)
Definition Seconds (d : Z) : float64 :=
  fadd (of_Z (Z.quot d Second)) (fdiv (of_Z (Z.rem d Second)) (of_Z 1000000000)).

Section sink.
Context {CV HV Reg : Type} `{!Collectors CV HV Reg}.
Implicit Types (p : Prometheus CV HV).

(** The collectors of a new sink; [resources] is a copy of the allowlist. *)
Definition new_sink (allow : list string) : Prometheus CV HV :=
  let opts name := {| Namespace := "distsync"; o_Name := name |} in
  {| resources := foldl (λ m r, {[ r ]} ∪ m) ∅ allow;
     acquires := NewCounterVec (opts "acquires_total") ["primitive"; "resource"; "result"];
     acquireWait := NewHistogramVec (opts "acquire_wait_seconds") ["primitive"; "resource"];
     releases := NewCounterVec (opts "releases_total") ["primitive"; "resource"];
     renews := NewCounterVec (opts "renews_total") ["primitive"; "resource"; "result"];
     renewStopped := NewCounterVec (opts "renewal_stopped_total") ["primitive"; "resource"; "reason"] |}.

Definition all_collectors p : list (CV + HV) :=
  [inl (acquires p); inr (acquireWait p); inl (releases p); inl (renews p); inl (renewStopped p)].

(** [NewWithResources(reg, resources...)] registers with [reg], or with the
    process-wide registry; the result is the sink and that registry after. *)
Definition NewWithResources (DefaultRegisterer : Reg) (reg : option Reg) (allow : list string) :
    ran (Prometheus CV HV * Reg) :=
  let reg := default DefaultRegisterer reg in
  let p := new_sink allow in
  reg ← MustRegister (all_collectors p) reg;
  mret (p, reg).

(** [New(reg)] *)
Definition New_sink (DefaultRegisterer : Reg) (reg : option Reg) : ran (Prometheus CV HV * Reg) :=
  NewWithResources DefaultRegisterer reg [].

Definition label_of (allow : gset string) (resource : string) : string :=
  if decide (resource ∈ allow) then resource else "other".
Definition resourceLabel p (resource : string) : string := label_of (resources p) resource.

Definition result_label (ok : bool) : string := if ok then "success" else "failure".

Definition Acquire p (primitive resource : string) (ok : bool) (wait : Z) : ran (Prometheus CV HV) :=
  let resource := resourceLabel p resource in
  a ← c_Inc [primitive; resource; result_label ok] (acquires p);
  h ← h_Observe [primitive; resource] (Seconds wait) (acquireWait p);
  mret (Sink (resources p) a h (releases p) (renews p) (renewStopped p)).

Definition Release p (primitive resource : string) : ran (Prometheus CV HV) :=
  let resource := resourceLabel p resource in
  r ← c_Inc [primitive; resource] (releases p);
  mret (Sink (resources p) (acquires p) (acquireWait p) r (renews p) (renewStopped p)).

Definition Renew p (primitive resource : string) (ok : bool) : ran (Prometheus CV HV) :=
  let resource := resourceLabel p resource in
  r ← c_Inc [primitive; resource; result_label ok] (renews p);
  mret (Sink (resources p) (acquires p) (acquireWait p) (releases p) r (renewStopped p)).

Definition RenewalStopped p (primitive resource reason : string) : ran (Prometheus CV HV) :=
  let resource := resourceLabel p resource in
  r ← c_Inc [primitive; resource; reason] (renewStopped p);
  mret (Sink (resources p) (acquires p) (acquireWait p) (releases p) (renews p) r).

(** The sink behind [distsync.Metrics]: each event of the log is the call of
    one method. *)
Definition observe (e : event) p : ran (Prometheus CV HV) :=
  match e with
  | MAcquire prim res ok wait => Acquire p prim res ok wait
  | MRelease prim res => Release p prim res
  | MRenew prim res ok => Renew p prim res ok
  | MRenewalStopped prim res reason => RenewalStopped p prim res reason
  | SpanStart _ | SpanFinish _ => mret p
  end.

(** All events of a log, the oldest first. *)
Fixpoint observe_all (l : list event) p : ran (Prometheus CV HV) :=
  match l with
  | [] => mret p
  | e :: l => p ← observe e p; observe_all l p
  end.
End sink.

(** ** What the collectors should show

    The series an event adds to, by collector. *)
Section keys.
Context (allow : gset string).

Definition acquire_key (e : event) : option (list string) :=
  match e with
  | MAcquire prim res ok _ => Some [prim; label_of allow res; result_label ok]
  | _ => None
  end.
Definition wait_key (e : event) : option (list string) :=
  match e with MAcquire prim res _ _ => Some [prim; label_of allow res] | _ => None end.
Definition release_key (e : event) : option (list string) :=
  match e with MRelease prim res => Some [prim; label_of allow res] | _ => None end.
Definition renew_key (e : event) : option (list string) :=
  match e with MRenew prim res ok => Some [prim; label_of allow res; result_label ok] | _ => None end.
Definition stopped_key (e : event) : option (list string) :=
  match e with
  | MRenewalStopped prim res reason => Some [prim; label_of allow res; reason]
  | _ => None
  end.
End keys.

(** The number of events of a log in a series; no series without an event. *)
Definition tally (key : event → option (list string)) (log : list event) (vs : list string) : option Z :=
  match length (filter (λ e, key e = Some vs) log) with
  | O => None
  | n => Some (Z.of_nat n)
  end.

Lemma tally_snoc key log e vs :
  tally key (log ++ [e]) vs = if decide (key e = Some vs) then counted (tally key log vs) else tally key log vs.
Proof.
  unfold tally. rewrite filter_app, length_app. rewrite filter_cons, filter_nil.
  case_decide; simpl; [|by rewrite Nat.add_0_r].
  destruct (length (filter _ log)) as [|n]; [done|]. unfold counted; simpl. f_equal. lia.
Qed.

Lemma tally_idle key log e : key e = None → ∀ vs, tally key (log ++ [e]) vs = tally key log vs.
Proof. intros E vs. rewrite tally_snoc, E. by rewrite decide_False by done. Qed.

Lemma tally_le key log vs : default 0 (tally key log vs) ≤ Z.of_nat (length log).
Proof.
  unfold tally. pose proof (length_filter (λ e, key e = Some vs) log) as H.
  destruct (length (filter _ log)); simpl; lia.
Qed.

Lemma tally_some key log vs : is_Some (tally key log vs) → ∃ e, e ∈ log ∧ key e = Some vs.
Proof.
  unfold tally. destruct (filter (λ e, key e = Some vs) log) as [|e l] eqn:E; [by intros [? ?]|].
  intros _. exists e. assert (e ∈ filter (λ e, key e = Some vs) log) as He by (rewrite E; by left).
  by apply list_elem_of_filter in He as [? ?].
Qed.

(** The labels an event brings are valid. *)
Definition event_valid (e : event) : Prop :=
  match e with
  | MAcquire prim _ _ _ | MRelease prim _ | MRenew prim _ _ => ValidString prim = true
  | MRenewalStopped prim _ reason => ValidString prim = true ∧ ValidString reason = true
  | SpanStart _ | SpanFinish _ => True
  end.

Definition allow_valid (allow : gset string) : Prop := set_Forall (λ r, ValidString r = true) allow.

Lemma label_valid allow res : allow_valid allow → ValidString (label_of allow res) = true.
Proof. intros H. unfold label_of. case_decide; [by apply H|done]. Qed.

(** ** Counting series *)

(** All choices of one element of each list. *)
Fixpoint combinations (ls : list (list string)) : list (list string) :=
  match ls with
  | [] => [[]]
  | l :: ls => a ← l; vs ← combinations ls; [a :: vs]
  end.

Lemma elem_of_combinations ls vs : vs ∈ combinations ls ↔ Forall2 (∈) vs ls.
Proof.
  revert vs; induction ls as [|l ls IH]; intros vs; cbn [combinations].
  - rewrite list_elem_of_singleton. split; [by intros ->|by intros ?%Forall2_nil_inv_r].
  - rewrite list_elem_of_bind. setoid_rewrite list_elem_of_bind. setoid_rewrite IH.
    setoid_rewrite list_elem_of_singleton. split.
    + intros (a & (vs' & -> & Hvs) & Ha). by constructor.
    + intros (a & vs' & Ha & Hvs & ->)%Forall2_cons_inv_r. eauto 6.
Qed.

Lemma length_bind {A B} (f : A → list B) l n :
  (∀ a, a ∈ l → length (f a) = n) → length (l ≫= f) = (length l * n)%nat.
Proof.
  induction l as [|a l IH]; intros H; [done|]. rewrite bind_cons, length_app, H by by left.
  rewrite IH by (intros; apply H; by right). done.
Qed.

Lemma length_combinations ls : length (combinations ls) = foldr (λ l n, length l * n)%nat 1%nat ls.
Proof.
  induction ls as [|l ls IH]; [done|]. cbn [combinations foldr]. rewrite <- IH.
  apply length_bind. intros a _. rewrite (length_bind _ _ 1%nat) by done. lia.
Qed.

Lemma combinations_2 (a b : string) l1 l2 : a ∈ l1 → b ∈ l2 → [a; b] ∈ combinations [l1; l2].
Proof. intros H1 H2. apply elem_of_combinations. by repeat constructor. Qed.
Lemma combinations_3 (a b c : string) l1 l2 l3 :
  a ∈ l1 → b ∈ l2 → c ∈ l3 → [a; b; c] ∈ combinations [l1; l2; l3].
Proof. intros H1 H2 H3. apply elem_of_combinations. by repeat constructor. Qed.

Lemma label_listed allow res : label_of allow res ∈ "other" :: elements allow.
Proof. unfold label_of. case_decide; [right; by apply elem_of_elements|by left]. Qed.

(** The primitive and the reason come from fixed lists. *)
Definition from_vocabulary (prims reasons : list string) (e : event) : Prop :=
  match e with
  | MAcquire prim _ _ _ | MRelease prim _ | MRenew prim _ _ => prim ∈ prims
  | MRenewalStopped prim _ reason => prim ∈ prims ∧ reason ∈ reasons
  | SpanStart _ | SpanFinish _ => True
  end.

Lemma vocabulary_valid prims reasons e :
  Forall (λ r, ValidString r = true) prims → Forall (λ r, ValidString r = true) reasons →
  from_vocabulary prims reasons e → event_valid e.
Proof. rewrite !Forall_forall. destruct e; simpl; naive_solver. Qed.

Lemma size_list_to_set_le (l : list string) : (size (list_to_set l : gset string) ≤ length l)%nat.
Proof.
  induction l as [|x l IH]; [rewrite list_to_set_nil, size_empty; simpl; lia|]. rewrite list_to_set_cons; cbn [length].
  pose proof (size_union_alt ({[ x ]} : gset string) (list_to_set l)) as ->. rewrite size_singleton.
  pose proof (subseteq_size (list_to_set l ∖ {[ x ]}) (list_to_set l : gset string) ltac:(set_solver)). lia.
Qed.

(** The names the sink registers. *)
Definition sink_names : list string :=
  ["distsync_acquires_total"; "distsync_acquire_wait_seconds"; "distsync_releases_total"; "distsync_renews_total";
   "distsync_renewal_stopped_total"].

Section laws.
Context {CV HV Reg : Type} `{!Collectors CV HV Reg, !CollectorLaws CV HV Reg}.
Implicit Types (p : Prometheus CV HV).

Definition counter_shows (n : nat) key log (v : CV) : Prop :=
  length (label_names (inl v : CV + HV)) = n ∧ ∀ vs, c_value v vs = tally key log vs.
Definition histogram_shows (n : nat) key log (v : HV) : Prop :=
  length (label_names (inr v : CV + HV)) = n ∧ ∀ vs, h_count v vs = tally key log vs.

(** Every collector has its label names, and shows the log. *)
Record sink_shows allow (log : list event) p : Prop := {
  shows_resources : resources p = allow;
  shows_acquires : counter_shows 3 (acquire_key allow) log (acquires p);
  shows_wait : histogram_shows 2 (wait_key allow) log (acquireWait p);
  shows_releases : counter_shows 2 (release_key allow) log (releases p);
  shows_renews : counter_shows 3 (renew_key allow) log (renews p);
  shows_stopped : counter_shows 3 (stopped_key allow) log (renewStopped p);
}.

Lemma counter_inc n key log e v vs :
  counter_shows n key log v → key e = Some vs → length vs = n → forallb ValidString vs = true →
  Z.of_nat (length log) < 2 ^ 53 →
  ∃ v', c_Inc vs v = Ran v' ∧ counter_shows n key (log ++ [e]) v'.
Proof.
  intros [Hn Hv] Hk Hl Hvs Hlog. destruct (law_inc (HV := HV) vs v) as (v' & E & En & Hv').
  - by rewrite Hn.
  - done.
  - unfold countable_value. rewrite Hv. pose proof (tally_le key log vs). lia.
  - exists v'. split; [done|]. split; [by rewrite En|]. intros vs'. rewrite Hv', tally_snoc, Hk, !Hv.
    destruct (decide (vs' = vs)) as [->|Hne]; [by rewrite decide_True|by rewrite decide_False by congruence].
Qed.

Lemma histogram_observe n key log e v vs x :
  histogram_shows n key log v → key e = Some vs → length vs = n → forallb ValidString vs = true →
  Z.of_nat (length log) < 2 ^ 53 →
  ∃ v', h_Observe vs x v = Ran v' ∧ histogram_shows n key (log ++ [e]) v'.
Proof.
  intros [Hn Hv] Hk Hl Hvs Hlog. destruct (law_observe (CV := CV) vs x v) as (v' & E & En & Hv').
  - by rewrite Hn.
  - done.
  - unfold countable_value. rewrite Hv. pose proof (tally_le key log vs). lia.
  - exists v'. split; [done|]. split; [by rewrite En|]. intros vs'. rewrite Hv', tally_snoc, Hk, !Hv.
    destruct (decide (vs' = vs)) as [->|Hne]; [by rewrite decide_True|by rewrite decide_False by congruence].
Qed.

Lemma counter_idle n key log e v :
  key e = None → counter_shows n key log v → counter_shows n key (log ++ [e]) v.
Proof. intros Hk [Hn Hv]. split; [done|]. intros vs. by rewrite tally_idle. Qed.
Lemma histogram_idle n key log e v :
  key e = None → histogram_shows n key log v → histogram_shows n key (log ++ [e]) v.
Proof. intros Hk [Hn Hv]. split; [done|]. intros vs. by rewrite tally_idle. Qed.

Lemma observe_shows allow log p e :
  allow_valid allow → event_valid e → Z.of_nat (length log) < 2 ^ 53 → sink_shows allow log p →
  ∃ p', observe e p = Ran p' ∧ sink_shows allow (log ++ [e]) p'.
Proof.
  intros Ha He Hlog [H0 H1 H2 H3 H4 H5]. pose proof (λ res, label_valid allow res Ha) as Hl.
  assert (∀ b, ValidString (result_label b) = true) as Hr by by intros [].
  assert (resourceLabel p = label_of allow) as El by (unfold resourceLabel; by rewrite H0).
  destruct e as [prim res ok wait|prim res|prim res ok|prim res reason|name|err]; cbn [observe event_valid] in *.
  - unfold Acquire. rewrite El.
    edestruct (counter_inc 3 _ log (MAcquire prim res ok wait) (acquires p) _ H1 eq_refl) as (a & -> & Hacq);
      [done|simpl; by rewrite He, Hl, Hr|done|].
    edestruct (histogram_observe 2 _ log (MAcquire prim res ok wait) (acquireWait p) _ (Seconds wait) H2 eq_refl)
      as (h & -> & Hobs); [done|simpl; by rewrite He, Hl|done|].
    eexists; split; [done|]. by split; [|..|apply counter_idle|apply counter_idle|apply counter_idle].
  - unfold Release. rewrite El.
    edestruct (counter_inc 2 _ log (MRelease prim res) (releases p) _ H3 eq_refl) as (a & -> & Hrel);
      [done|simpl; by rewrite He, Hl|done|].
    eexists; split; [done|]. split; [done|by apply counter_idle|by apply histogram_idle|done|by apply counter_idle..].
  - unfold Renew. rewrite El.
    edestruct (counter_inc 3 _ log (MRenew prim res ok) (renews p) _ H4 eq_refl) as (a & -> & Hren);
      [done|simpl; by rewrite He, Hl, Hr|done|].
    eexists; split; [done|].
    split; [done|by apply counter_idle|by apply histogram_idle|by apply counter_idle|done|by apply counter_idle].
  - destruct He as [He Hre]. unfold RenewalStopped. rewrite El.
    edestruct (counter_inc 3 _ log (MRenewalStopped prim res reason) (renewStopped p) _ H5 eq_refl)
      as (a & -> & Hst); [done|simpl; by rewrite He, Hl, Hre|done|].
    eexists; split; [done|].
    split; [done|by apply counter_idle|by apply histogram_idle|by apply counter_idle|by apply counter_idle|done].
  - exists p. split; [done|]. split; [done|by apply counter_idle|by apply histogram_idle|by apply counter_idle..].
  - exists p. split; [done|]. split; [done|by apply counter_idle|by apply histogram_idle|by apply counter_idle..].
Qed.

Lemma observe_all_shows allow log l p :
  allow_valid allow → Forall event_valid l → Z.of_nat (length log + length l) ≤ 2 ^ 53 → sink_shows allow log p →
  ∃ p', observe_all l p = Ran p' ∧ sink_shows allow (log ++ l) p'.
Proof.
  intros Ha. revert log p. induction l as [|e l IH]; intros log p Hl Hn Hs; cbn [observe_all].
  - exists p. by rewrite app_nil_r.
  - apply Forall_cons in Hl as [He Hl]. cbn [length] in Hn.
    destruct (observe_shows allow log p e Ha He ltac:(lia) Hs) as (p1 & -> & Hs1).
    replace (log ++ e :: l) with ((log ++ [e]) ++ l) by by rewrite <- (assoc_L (++)).
    apply IH; [done| |done]. rewrite length_app; simpl; lia.
Qed.
Lemma allowlist_set (allow : list string) (X : gset string) :
  foldl (λ m r, {[ r ]} ∪ m) X allow = list_to_set allow ∪ X.
Proof.
  revert X; induction allow as [|r l IH]; intros X; simpl; [set_solver|]. rewrite IH. set_solver.
Qed.

(** The new sink shows the empty log. *)
Lemma new_sink_shows (allow : list string) :
  sink_shows (list_to_set allow) [] (new_sink (Reg := Reg) allow : Prometheus CV HV).
Proof.
  assert (∀ o ls key, counter_shows (length ls) key [] (NewCounterVec (HV := HV) (Reg := Reg) o ls : CV)) as Hc.
  { intros o ls key. destruct (law_describe (CV := CV) (HV := HV) o ls) as (_ & _ & E & _). split; [by rewrite E|].
    intros vs. by rewrite law_new_counter. }
  assert (∀ o ls key, histogram_shows (length ls) key [] (NewHistogramVec (CV := CV) (Reg := Reg) o ls : HV)) as Hh.
  { intros o ls key. destruct (law_describe (CV := CV) (HV := HV) o ls) as (_ & _ & _ & E). split; [by rewrite E|].
    intros vs. by rewrite law_new_histogram. }
  split; [|apply Hc|apply Hh|apply Hc|apply Hc|apply Hc].
  simpl. rewrite allowlist_set. set_solver.
Qed.

Lemma NewWithResources_sink def reg allow p reg' :
  NewWithResources def reg allow = Ran (p, reg') →
  p = new_sink (Reg := Reg) allow ∧ MustRegister (all_collectors p) (default def reg) = Ran reg'.
Proof.
  unfold NewWithResources. destruct (MustRegister _ _) as [r|msg] eqn:E; [|done]. by intros [= <- <-].
Qed.

Lemma sink_fq_names (allow : list string) :
  fq_name <$> all_collectors (new_sink (Reg := Reg) allow : Prometheus CV HV) = sink_names.
Proof.
  unfold all_collectors, new_sink; cbn [fmap list_fmap acquires acquireWait releases renews renewStopped].
  pose proof (λ o ls, proj1 (law_describe (CV := CV) (HV := HV) o ls)) as Hc.
  pose proof (λ o ls, proj1 (proj2 (law_describe (CV := CV) (HV := HV) o ls))) as Hh.
  by rewrite !Hc, Hh.
Qed.

(** What is fed to a new sink is shown. *)
Lemma sink_shown def reg allow p0 reg' log :
  NewWithResources (CV := CV) (HV := HV) def reg allow = Ran (p0, reg') →
  Forall (λ r, ValidString r = true) allow → Forall event_valid log → Z.of_nat (length log) ≤ 2 ^ 53 →
  ∃ p, observe_all log p0 = Ran p ∧ sink_shows (list_to_set allow) log p.
Proof.
  intros [-> _]%NewWithResources_sink Ha Hl Hn. apply (observe_all_shows _ []); [|done|done|apply new_sink_shows].
  intros r Hr%elem_of_list_to_set. by eapply Forall_forall in Ha.
Qed.

(** C26: the sink loses nothing and never panics.  A sink that the constructor
    returned, whose allowlist is valid UTF-8, fed with any log of at most 2^53
    events whose primitives and reasons are valid UTF-8 (resource names may be
    any bytes), accepts every event, and every collector then has exactly the
    series that the log names, each with the number of the events of that
    primitive, that resource label and that result or reason. *)
Theorem sink_counts def reg allow p0 reg' log :
  NewWithResources (CV := CV) (HV := HV) def reg allow = Ran (p0, reg') →
  Forall (λ r, ValidString r = true) allow → Forall event_valid log → Z.of_nat (length log) ≤ 2 ^ 53 →
  ∃ p, observe_all log p0 = Ran p ∧
    let known := list_to_set allow in ∀ vs,
    c_value (acquires p) vs = tally (acquire_key known) log vs ∧
    h_count (acquireWait p) vs = tally (wait_key known) log vs ∧
    c_value (releases p) vs = tally (release_key known) log vs ∧
    c_value (renews p) vs = tally (renew_key known) log vs ∧
    c_value (renewStopped p) vs = tally (stopped_key known) log vs.
Proof.
  intros Hnew Ha Hl Hn. destruct (sink_shown def reg allow p0 reg' log Hnew Ha Hl Hn)
    as (p & E & [_ [_ H1] [_ H2] [_ H3] [_ H4] [_ H5]]).
  exists p. split; [exact E|]. intros known vs. by rewrite H1, H2, H3, H4, H5.
Qed.

(** The number of series is bounded.  With primitives and reasons from
    fixed vocabularies, whatever the resource names, every resource label of
    every collector is an allowed name or "other", at most N+1 of them for N
    distinct allowed names, and no collector ever has more series than there
    are combinations of a primitive, a resource label, and a result or
    reason. *)
Lemma series_bounded def reg allow p0 reg' log prims reasons :
  NewWithResources (CV := CV) (HV := HV) def reg allow = Ran (p0, reg') →
  Forall (λ r, ValidString r = true) (allow ++ prims ++ reasons) →
  Forall (from_vocabulary prims reasons) log → Z.of_nat (length log) ≤ 2 ^ 53 →
  let labels := "other" :: elements (list_to_set allow : gset string) in
  ∃ p, observe_all log p0 = Ran p ∧ (length labels ≤ length allow + 1)%nat ∧
    (∀ vs, is_Some (c_value (acquires p) vs) ∨ is_Some (c_value (renews p) vs) →
       vs ∈ combinations [prims; labels; ["success"; "failure"]]) ∧
    (∀ vs, is_Some (h_count (acquireWait p) vs) ∨ is_Some (c_value (releases p) vs) →
       vs ∈ combinations [prims; labels]) ∧
    (∀ vs, is_Some (c_value (renewStopped p) vs) → vs ∈ combinations [prims; labels; reasons]) ∧
    ∀ l, NoDup l → (∀ vs, vs ∈ l → is_Some (c_value (acquires p) vs)) →
      (length l ≤ length prims * (length allow + 1) * 2)%nat.
Proof.
  intros Hnew Hv Hlog Hn labels. rewrite !Forall_app in Hv. destruct Hv as (Ha & Hp & Hr).
  destruct (sink_shown def reg allow p0 reg' log Hnew Ha) as (p & E & [_ [_ S1] [_ S2] [_ S3] [_ S4] [_ S5]]);
    [|done|].
  { eapply Forall_impl; [exact Hlog|]. intros e He. by apply (vocabulary_valid prims reasons). }
  exists p. split; [exact E|]. assert (length labels ≤ length allow + 1)%nat as HL.
  { unfold labels; cbn [length]. pose proof (size_list_to_set_le allow) as H. change (size ?X) with (length (elements X)) in H. lia. }
  split; [exact HL|]. rewrite Forall_forall in Hlog.
  assert (∀ vs, is_Some (c_value (acquires p) vs) ∨ is_Some (c_value (renews p) vs) →
       vs ∈ combinations [prims; labels; ["success"; "failure"]]) as H1.
  { intros vs Hvs. rewrite S1, S4 in Hvs.
    destruct Hvs as [(e & He & Hk)%tally_some|(e & He & Hk)%tally_some]; specialize (Hlog e He);
      destruct e as [prim res ok wait|prim res|prim res ok|prim res reason|name|err]; try discriminate Hk;
      injection Hk as <-; apply combinations_3; first [exact Hlog|apply label_listed|by destruct ok; set_solver]. }
  split; [exact H1|]. split; [|split].
  - intros vs Hvs. rewrite S2, S3 in Hvs.
    destruct Hvs as [(e & He & Hk)%tally_some|(e & He & Hk)%tally_some]; specialize (Hlog e He);
      destruct e as [prim res ok wait|prim res|prim res ok|prim res reason|name|err]; try discriminate Hk;
      injection Hk as <-; apply combinations_2; first [exact Hlog|apply label_listed].
  - intros vs Hvs. rewrite S5 in Hvs.
    apply tally_some in Hvs as (e & He & Hk); specialize (Hlog e He);
      destruct e as [prim res ok wait|prim res|prim res ok|prim res reason|name|err]; try discriminate Hk;
      injection Hk as <-; apply combinations_3; first [apply Hlog|apply label_listed].
  - intros l Hnd Hl. transitivity (length (combinations [prims; labels; ["success"; "failure"]])).
    + apply submseteq_length, NoDup_submseteq; [done|]. intros vs Hvs. apply H1. left. by apply Hl.
    + rewrite length_combinations. cbn [foldr]. change (length ["success"; "failure"]) with 2%nat.
      set (n := length labels) in *. clearbody n. clear - HL. nia.
Qed.

(** One sink per registry.  On a registry without its five names the
    constructor returns; a second sink on the same registry, whatever its
    allowlist, panics. *)
Theorem sink_registers_once def reg allow allow' :
  (∀ name, name ∈ sink_names → name ∉ registered (default def reg)) →
  ∃ (p : Prometheus CV HV) reg', NewWithResources def reg allow = Ran (p, reg') ∧
    ∃ msg, NewWithResources (CV := CV) (HV := HV) def (Some reg') allow' = Panic msg.
Proof.
  intros Hfree. destruct (law_register (all_collectors (new_sink (Reg := Reg) allow : Prometheus CV HV)) (default def reg))
    as (reg' & E & Er).
  { rewrite sink_fq_names. apply (bool_decide_unpack _). vm_compute; exact I. }
  { intros c Hc. apply Hfree. rewrite <- (sink_fq_names allow). by apply list_elem_of_fmap_2. }
  exists (new_sink (Reg := Reg) allow), reg'. unfold NewWithResources at 1. rewrite E. split; [done|].
  set (p' := new_sink (Reg := Reg) allow' : Prometheus CV HV).
  destruct (law_register_twice (all_collectors p') reg' (inl (acquires p'))) as (msg & E').
  { by left. }
  { rewrite Er, sink_fq_names, <- (sink_fq_names allow'). apply elem_of_union_l, elem_of_list_to_set, list_elem_of_fmap_2.
    by left. }
  exists msg. unfold NewWithResources. simpl default. fold p'. by rewrite E'.
Qed.
End laws.

Module Ex.
(** ** Collectors that obey the laws *)
Record vec := Vec { ve_name : string; ve_labels : list string; ve_series : gmap (list string) Z }.

Definition ve_add (vs : list string) (v : vec) : ran vec :=
  if (length vs =? length (ve_labels v))%nat && forallb ValidString vs then
    Ran (Vec (ve_name v) (ve_labels v) (<[vs := default 0 (ve_series v !! vs) + 1]> (ve_series v)))
  else Panic "inconsistent label values".

Definition new_vec (o : Opts) (ls : list string) : vec := Vec (Namespace o +:+ "_" +:+ o_Name o) ls ∅.
Definition either (c : vec + vec) : vec := match c with inl v | inr v => v end.

Definition register (c : vec + vec) (reg : list string) : ran (list string) :=
  if decide (ve_name (either c) ∈ reg) then Panic "duplicate metrics collector registration attempted"
  else Ran (ve_name (either c) :: reg).
Fixpoint register_all (cs : list (vec + vec)) (reg : list string) : ran (list string) :=
  match cs with [] => Ran reg | c :: cs => reg ← register c reg; register_all cs reg end.

#[export] Instance vec_collectors : Collectors vec vec (list string) := {|
  NewCounterVec := new_vec;
  NewHistogramVec := new_vec;
  c_Inc := ve_add;
  h_Observe := λ vs _, ve_add vs;
  MustRegister := register_all;
  c_value := λ v vs, ve_series v !! vs;
  h_count := λ v vs, ve_series v !! vs;
  label_names := λ c, ve_labels (either c);
  fq_name := λ c, ve_name (either c);
  registered := list_to_set;
|}.

Lemma ve_add_law vs v :
  length vs = length (ve_labels v) → forallb ValidString vs = true →
  ∃ v', ve_add vs v = Ran v' ∧ ve_labels v' = ve_labels v ∧
        ∀ vs', ve_series v' !! vs' = if decide (vs' = vs) then counted (ve_series v !! vs) else ve_series v !! vs'.
Proof.
  intros Hl Hv. unfold ve_add. rewrite Hl, Nat.eqb_refl, Hv. eexists; split; [done|]. split; [done|].
  intros vs'; cbn [ve_series]. destruct (decide (vs' = vs)) as [->|]; [by rewrite lookup_insert_eq|].
  by rewrite lookup_insert_ne.
Qed.

Lemma register_all_law cs reg :
  NoDup ((λ c, ve_name (either c)) <$> cs) → (∀ c, c ∈ cs → ve_name (either c) ∉ reg) →
  ∃ reg', register_all cs reg = Ran reg' ∧
    (list_to_set reg' : gset string) = list_to_set ((λ c, ve_name (either c)) <$> cs) ∪ list_to_set reg.
Proof.
  revert reg; induction cs as [|c cs IH]; intros reg; simpl; [exists reg; split; [done|set_solver]|].
  intros [Hc Hnd]%NoDup_cons Hfree. unfold register. rewrite decide_False by (apply Hfree; by left). simpl.
  destruct (IH (ve_name (either c) :: reg) Hnd) as (reg' & -> & E).
  - intros c' Hc' [Heq|Hin]%elem_of_cons; [|by eapply Hfree; [by right|]].
    apply Hc. rewrite <- Heq. by apply (list_elem_of_fmap_2 (λ c, ve_name (either c))).
  - exists reg'. split; [done|]. rewrite E. set_solver.
Qed.

Lemma register_all_twice cs reg c :
  c ∈ cs → ve_name (either c) ∈ reg → ∃ msg, register_all cs reg = Panic msg.
Proof.
  revert reg; induction cs as [|c' cs IH]; intros reg; [by intros ?%elem_of_nil|].
  intros [<-|Hc]%elem_of_cons Hreg; simpl; unfold register.
  - rewrite decide_True by done. by eexists.
  - case_decide; [by eexists|]. simpl. apply IH; [done|by right].
Qed.

#[export] Instance vec_laws : CollectorLaws vec vec (list string).
Proof.
  split.
  - done.
  - done.
  - done.
  - intros vs v Hl Hv _. by apply ve_add_law.
  - intros vs x v Hl Hv _. by apply ve_add_law.
  - intros cs reg Hnd Hfree. apply register_all_law; [done|]. intros c Hc Hin.
    apply (Hfree c Hc). by apply elem_of_list_to_set.
  - intros cs reg c Hc Hin. eapply register_all_twice; [done|]. by apply elem_of_list_to_set in Hin.
Qed.

(** ** Examples *)

(** One allowed name, twice; names that are not allowed, one of them not even
    text. *)
Definition allow : list string := ["scheduler"; "scheduler"].
Definition not_text : string := String (Ascii.ascii_of_N 255) "".
Definition events : list event :=
  [MAcquire "mutex" "scheduler" true 1500000000; MAcquire "mutex" "order:1" true 0;
   MAcquire "mutex" "order:2" true 0; MAcquire "semaphore" not_text false 7; MRenew "mutex" "scheduler" true;
   MRenewalStopped "mutex" "scheduler" "released"; MRelease "mutex" "scheduler"; SpanStart "distsync.renew"].

Definition new : ran (Prometheus vec vec * list string) := NewWithResources [] None allow.
Definition sink0 : Prometheus vec vec := new_sink (Reg := list string) allow.
Lemma new_returns : new = Ran (sink0, rev sink_names).
Proof. vm_compute; reflexivity. Qed.

Lemma sink_counts_witness :
  ∃ p, observe_all events sink0 = Ran p ∧
    c_value (acquires p) ["mutex"; "other"; "success"] = Some 2 ∧
    c_value (acquires p) ["semaphore"; "other"; "failure"] = Some 1 ∧
    c_value (acquires p) ["mutex"; "order:1"; "success"] = None ∧
    h_count (acquireWait p) ["mutex"; "scheduler"] = Some 1.
Proof.
  destruct (sink_counts [] None allow sink0 (rev sink_names) events) as (p & E & H).
  - apply new_returns.
  - repeat constructor.
  - repeat constructor.
  - vm_compute; discriminate.
  - exists p. cbv zeta in H. split; [exact E|].
    split; [rewrite (proj1 (H _)); vm_compute; reflexivity|].
    split; [rewrite (proj1 (H _)); vm_compute; reflexivity|].
    split; [rewrite (proj1 (H _)); vm_compute; reflexivity|].
    rewrite (proj1 (proj2 (H _))). vm_compute; reflexivity.
Defined.

Lemma sink_registers_once_witness :
  ∃ (p : Prometheus vec vec) reg', NewWithResources [] None allow = Ran (p, reg') ∧
    ∃ msg, NewWithResources (CV := vec) (HV := vec) [] (Some reg') [] = Panic msg.
Proof. apply sink_registers_once. intros name _. cbn. set_solver. Defined.

(** Overlong, surrogate, too large and cut off encodings are not valid. *)
Example utf8_checks :
  let b := λ l, String.string_of_list_ascii (Ascii.ascii_of_N <$> l) in
  (ValidString (b [0xC3; 0xA9]%N), ValidString (b [0xF0; 0x9F; 0x92; 0xA9]%N), ValidString (b [0xC0; 0x80]%N),
   ValidString (b [0xED; 0xA0; 0x80]%N), ValidString (b [0xF4; 0x90; 0x80; 0x80]%N), ValidString (b [0xE2; 0x82]%N)) =
  (true, true, false, false, false, false).
Proof. vm_compute; reflexivity. Qed.

Example seconds_check : Seconds 1500000000 = fdiv (of_Z 3) (of_Z 2).
Proof. vm_compute; reflexivity. Qed.
End Ex.
