(* ===== verification/Telemetry.v ===== *)
(** * The OpenTelemetry tracer

    [telemetry/telemetry.go]: the adapter from [distsync.Tracer] to spans of
    OpenTelemetry.  Its API is a parameter ([Otel]) with its documented
    behaviour as laws ([OtelLaws]); what a log of events makes of it is
    [trace]. *)
From S2P Require Import Prelude Redis Errors GoRuntime.
Open Scope Z_scope.

(** ** What the tracer relies on *)

(** A span: its name, the span its context had, the errors recorded, the
    description of an error status, and whether it has ended. *)
Record span_data (Sp : Type) := Span {
  sd_name : string;
  sd_parent : option Sp;
  sd_errors : list error;
  sd_status : option string;
  sd_ended : bool;
}.
Arguments Span {Sp} _ _ _ _ _.
Arguments sd_name {Sp} _.
Arguments sd_parent {Sp} _.
Arguments sd_errors {Sp} _.
Arguments sd_status {Sp} _.
Arguments sd_ended {Sp} _.

(** [P]: providers; [C]: contexts; [Sp]: spans; [W]: what the SDK keeps. *)
Class Otel (P C Sp W : Type) := {
  ot_Start : P → string → C → string → W → C * Sp * W;   (** [provider.Tracer(lib).Start(ctx, name)] *)
  ot_RecordError : Sp → error → W → W;
  ot_SetStatusError : Sp → string → W → W;               (** [SetStatus(codes.Error, text)] *)
  ot_End : Sp → W → W;
  ot_Error : error → string;                             (** [err.Error()] *)
  ctx_span : C → option Sp;
  ot_span : W → Sp → option (span_data Sp);
}.

Definition add_error {Sp} (e : error) (d : span_data Sp) : span_data Sp :=
  Span (sd_name d) (sd_parent d) (sd_errors d ++ [e]) (sd_status d) (sd_ended d).
Definition set_status {Sp} (s : string) (d : span_data Sp) : span_data Sp :=
  Span (sd_name d) (sd_parent d) (sd_errors d) (Some s) (sd_ended d).
Definition set_ended {Sp} (d : span_data Sp) : span_data Sp :=
  Span (sd_name d) (sd_parent d) (sd_errors d) (sd_status d) true.

(** [w'] is [w] with the open span [sp] changed by [f]. *)
Definition changes {P C Sp W} `{!Otel P C Sp W} (sp : Sp) (f : span_data Sp → span_data Sp) (w w' : W) : Prop :=
  (∀ sp', sp' ≠ sp → ot_span (P := P) (C := C) w' sp' = ot_span (P := P) (C := C) w sp') ∧
  ∀ d, ot_span (P := P) (C := C) w sp = Some d → sd_ended d = false → ot_span (P := P) (C := C) w' sp = Some (f d).

Class OtelLaws (P C Sp W : Type) `{!Otel P C Sp W} : Prop := {
  law_start : ∀ p lib c name w, let '(c', sp, w') := ot_Start p lib c name w in
    ot_span (P := P) (C := C) w sp = None ∧ ctx_span (P := P) (W := W) c' = Some sp ∧
    ot_span (P := P) (C := C) w' sp = Some (Span name (ctx_span (P := P) (W := W) c) [] None false) ∧
    ∀ sp', sp' ≠ sp → ot_span (P := P) (C := C) w' sp' = ot_span (P := P) (C := C) w sp';
  law_record : ∀ sp e w, changes sp (add_error e) w (ot_RecordError (P := P) (C := C) sp e w);
  law_status : ∀ sp s w, changes sp (set_status s) w (ot_SetStatusError (P := P) (C := C) sp s w);
  law_end : ∀ sp w, changes sp set_ended w (ot_End (P := P) (C := C) sp w);
}.

(** ** The tracer *)
Section tracer.
Context {P C Sp W : Type} `{!Otel P C Sp W}.

Record Tracer := { provider : P }.

(** [NewTracer(provider)]; nil is the process-wide provider. *)
Definition NewTracer (GetTracerProvider : P) (p : option P) : Tracer :=
  {| provider := default GetTracerProvider p |}.

(** The function that [Start] returns. *)
Definition finish (sp : Sp) (err : option error) (w : W) : W :=
  let w := match err with
           | Some e => ot_SetStatusError (P := P) (C := C) sp (ot_Error (P := P) (C := C) (Sp := Sp) (W := W) e)
                         (ot_RecordError (P := P) (C := C) sp e w)
           | None => w
           end in
  ot_End (P := P) (C := C) sp w.

Definition Start (t : Tracer) (ctx : C) (name : string) (w : W) : C * (option error → W → W) * W :=
  let '(ctx, span, w) := ot_Start (provider t) "distsync" ctx name w in
  (ctx, finish span, w).

(** The tracer behind the events of a log.  [open]: for each span that is not
    finished, the innermost first, the context it was started in and its
    finish function.  None if a span is finished that was not started. *)
Fixpoint trace (t : Tracer) (l : list event) (open : list (C * (option error → W → W))) (ctx : C) (w : W) :
    option (list (C * (option error → W → W)) * C * W) :=
  match l with
  | [] => Some (open, ctx, w)
  | SpanStart name :: l =>
      let '(ctx', fin, w) := Start t ctx name w in trace t l ((ctx, fin) :: open) ctx' w
  | SpanFinish err :: l =>
      match open with
      | [] => None
      | (ctx, fin) :: open => trace t l open ctx (fin err w)
      end
  | _ :: l => trace t l open ctx w
  end.
End tracer.
Arguments Tracer P : clear implicits.

(** The number of spans that are open after the events, [n] being open
    before; none if a span is finished that was not started. *)
Fixpoint spans (n : nat) (es : list event) : option nat :=
  match es with
  | [] => Some n
  | SpanStart _ :: es => spans (n + 1) es
  | SpanFinish _ :: es => match n with O => None | S n => spans n es end
  | _ :: es => spans n es
  end.

Lemma spans_app n es es' : spans n (es ++ es') = spans n es ≫= λ m, spans m es'.
Proof.
  revert n; induction es as [|e es IH]; intros n; [done|]. destruct e; simpl; try apply IH. by destruct n.
Qed.

(** ** The operations of a log

    What the events say by themselves, without a tracer: the operations in the
    order in which they were started, each with its name, the operation within
    which it was started (by its number), and how it ended, if it has: with an
    error or without. *)
Record operation := Operation {
  op_name : string;
  op_within : option nat;
  op_end : option (option error);
}.

Definition end_with (err : option error) (o : operation) : operation :=
  Operation (op_name o) (op_within o) (Some err).

(** [open]: the operations that have not ended, the innermost first. *)
Fixpoint operations (l : list event) (open : list nat) (ops : list operation) : list operation :=
  match l with
  | [] => ops
  | SpanStart name :: l => operations l (length ops :: open) (ops ++ [Operation name (head open) None])
  | SpanFinish err :: l =>
      match open with
      | [] => operations l [] ops
      | i :: open => operations l open (alter (end_with err) i ops)
      end
  | _ :: l => operations l open ops
  end.

(** The operations that have not ended are those that are open. *)
Definition open_ops (open : list nat) (ops : list operation) : Prop :=
  ∀ i o, ops !! i = Some o → op_end o = None → i ∈ open.

Lemma operations_end l open ops :
  open_ops open ops → spans (length open) l = Some 0%nat → Forall (λ o, is_Some (op_end o)) (operations l open ops).
Proof.
  revert open ops; induction l as [|e l IH]; intros open ops Ho Hs; cbn [operations spans] in *.
  - injection Hs as Hs%nil_length_inv. subst open. apply Forall_lookup; intros i o Hi.
    destruct (op_end o) eqn:E; [done|]. by specialize (Ho i o Hi E); apply elem_of_nil in Ho.
  - destruct e as [? ? ? ?|? ?|? ? ?|? ? ?|name|err]; try (by apply IH).
    + apply IH; [|simpl; by rewrite Nat.add_1_r in Hs]. intros i o [Hi|[-> _]]%lookup_snoc_Some E; [right; by eapply Ho, E; apply Hi|].
      by left.
    + destruct open as [|k open]; [done|]. apply IH; [|done]. intros i o Hi E.
      destruct (decide (i = k)) as [->|Hne].
      { rewrite list_lookup_alter_eq in Hi. destruct (ops !! k); [|done]. by injection Hi as <-. }
      rewrite list_lookup_alter_ne in Hi by done. specialize (Ho i o Hi E). by apply elem_of_cons in Ho as [?|?].
Qed.

(** ** What becomes of the spans *)
Section laws.
Context {P C Sp W : Type} `{!EqDecision Sp, !Otel P C Sp W, !OtelLaws P C Sp W}.
Implicit Types (t : Tracer P) (w : W) (sp : Sp) (d : span_data Sp) (o : operation).

Notation span_of w sp := (ot_span (P := P) (C := C) w sp) (only parsing).
Notation span_in c := (ctx_span (P := P) (Sp := Sp) (W := W) c) (only parsing).
Notation text e := (ot_Error (P := P) (C := C) (Sp := Sp) (W := W) e) (only parsing).

(** The span of an operation, [sps] being the spans of the operations and
    [root] the span of the context before the first of them: its parent is the
    span of the operation within which it was started; it has ended when the
    operation has, and then exactly an operation's error is recorded, once,
    and is its error status. *)
Definition span_for (root : option Sp) (sps : list Sp) o : span_data Sp :=
  Span (op_name o) (match op_within o with Some i => sps !! i | None => root end)
    (match op_end o with Some (Some e) => [e] | _ => [] end)
    (match op_end o with Some (Some e) => Some (text e) | _ => None end)
    (bool_decide (is_Some (op_end o))).

(** The span of the innermost of the operations [open]. *)
Definition innermost (root : option Sp) (sps : list Sp) (open : list nat) : option Sp :=
  match open with i :: _ => sps !! i | [] => root end.

(** Finishing an open span ends it, with its error, and leaves the others. *)
Lemma finish_spec sp err w root sps o :
  op_end o = None → span_of w sp = Some (span_for root sps o) →
  (∀ sp', sp' ≠ sp → span_of (finish (P := P) (C := C) sp err w) sp' = span_of w sp') ∧
  span_of (finish (P := P) (C := C) sp err w) sp = Some (span_for root sps (end_with err o)).
Proof.
  intros Ho Hd. set (d := span_for root sps o) in *.
  assert (sd_ended d = false) as E by (unfold d, span_for; simpl; by rewrite Ho).
  unfold finish. destruct err as [e|].
  - destruct (law_record sp e w) as [R1 R2]. set (w1 := ot_RecordError sp e w) in *. specialize (R2 d Hd E).
    destruct (law_status sp (text e) w1) as [S1 S2]. set (w2 := ot_SetStatusError sp _ w1) in *.
    specialize (S2 _ R2 E). destruct (law_end sp w2) as [T1 T2]. specialize (T2 _ S2 E). split.
    + intros sp' Hne. by rewrite T1, S1, R1.
    + rewrite T2. unfold d, span_for, set_ended, set_status, add_error; simpl. by rewrite Ho.
  - destruct (law_end sp w) as [T1 T2]. specialize (T2 d Hd E). split; [exact T1|].
    rewrite T2. unfold d, span_for, set_ended; simpl. by rewrite Ho.
Qed.

(** The tracer's stack agrees with the operations that are open: each finish
    function is for the span of its operation, and the context kept with it is
    the one in which the operation was started. *)
Fixpoint stack (root : option Sp) (sps : list Sp) (open : list nat)
    (fins : list (C * (option error → W → W))) : Prop :=
  match open, fins with
  | [], [] => True
  | i :: open, (c, fin) :: fins =>
      (∃ sp, sps !! i = Some sp ∧ fin = finish (P := P) (C := C) sp) ∧
      span_in c = innermost root sps open ∧ stack root sps open fins
  | _, _ => False
  end.

Record traced (w0 : W) (root : option Sp) (open : list nat) (ops : list operation) (sps : list Sp)
    (fins : list (C * (option error → W → W))) (c : C) w : Prop := {
  tr_distinct : NoDup sps;
  tr_length : length sps = length ops;
  tr_new sp : sp ∈ sps → span_of w0 sp = None;
  tr_spans i sp o : sps !! i = Some sp → ops !! i = Some o → span_of w sp = Some (span_for root sps o);
  tr_others sp : sp ∉ sps → span_of w sp = span_of w0 sp;
  tr_within i o k : ops !! i = Some o → op_within o = Some k → (k < length ops)%nat;
  tr_open : NoDup open ∧ ∀ i, i ∈ open → ∃ o, ops !! i = Some o ∧ op_end o = None;
  tr_stack : stack root sps open fins;
  tr_ctx : span_in c = innermost root sps open;
}.

Lemma innermost_app root sps sps' open :
  (∀ i, i ∈ open → (i < length sps)%nat) → innermost root (sps ++ sps') open = innermost root sps open.
Proof. destruct open as [|i open]; intros H; [done|]. apply lookup_app_l, H. by left. Qed.

Lemma stack_app root sps sps' open fins :
  (∀ i, i ∈ open → (i < length sps)%nat) → stack root sps open fins → stack root (sps ++ sps') open fins.
Proof.
  revert fins; induction open as [|i open IH]; intros [|[c fin] fins] H; [done..|].
  intros ((sp & Hsp & E) & Hc & Hs). assert (∀ j, j ∈ open → (j < length sps)%nat) as H' by (intros; apply H; by right).
  split; [|split; [by rewrite innermost_app|by apply IH]]. exists sp; split; [|done]. by apply lookup_app_l_Some.
Qed.

Lemma span_for_app root sps sps' o :
  (∀ k, op_within o = Some k → (k < length sps)%nat) → span_for root (sps ++ sps') o = span_for root sps o.
Proof. unfold span_for. destruct (op_within o) as [k|]; intros H; [|done]. by rewrite lookup_app_l by auto. Qed.

Lemma traced_start w0 root open ops sps fins c w p lib name :
  traced w0 root open ops sps fins c w →
  let '(c', sp, w1) := ot_Start p lib c name w in
  traced w0 root (length ops :: open) (ops ++ [Operation name (head open) None]) (sps ++ [sp])
    ((c, finish (P := P) (C := C) sp) :: fins) c' w1.
Proof.
  intros [T1 T2 T3 T4 T5 T6 [T7 T7'] T8 T9]. pose proof (law_start p lib c name w) as Hst.
  destruct (ot_Start _ _ _ _ _) as [[c' sp] w1]. destruct Hst as (Hf & Hc' & Hd & Ho).
  assert (∀ i, i ∈ open → (i < length ops)%nat) as Hlt.
  { intros i (o & Hi & _)%T7'. by eapply lookup_lt_Some. }
  assert (∀ i, i ∈ open → (i < length sps)%nat) as Hlt' by (by rewrite T2).
  assert (sp ∉ sps) as Hsp.
  { intros [i Hi]%list_elem_of_lookup. destruct (lookup_lt_is_Some_2 ops i) as [o Hoi];
      [apply lookup_lt_Some in Hi; lia|]. rewrite (T4 i sp o) in Hf by done. done. }
  assert (∀ o k, op_within o = Some k → (∃ i, ops !! i = Some o) → (k < length sps)%nat) as Hw.
  { intros o k E [i Hi]. rewrite T2. by eapply T6. }
  split.
  - apply NoDup_app; split; [done|]. split; [|apply NoDup_singleton].
    intros x Hx ->%list_elem_of_singleton. done.
  - rewrite !length_app, T2. done.
  - intros x [Hx| ->%list_elem_of_singleton]%elem_of_app; [by apply T3|]. by rewrite <- T5.
  - intros i x o [[Hl Hi]|[-> <-]]%lookup_snoc_Some [[Hl' Hi']|[El <-]]%lookup_snoc_Some; [|lia|lia|].
    + rewrite span_for_app by (intros k Hk; eauto). rewrite Ho; [by apply (T4 i)|].
      intros ->. by apply Hsp; eapply list_elem_of_lookup_2.
    + rewrite Hd. unfold span_for; cbn [op_name op_within op_end]. do 2 f_equal. rewrite T9.
      destruct open as [|k open]; cbn [innermost head]; [done|]. by rewrite lookup_app_l by (apply Hlt'; by left).
  - intros x [Hx Hne%not_elem_of_cons]%not_elem_of_app. destruct Hne as [Hne _]. rewrite Ho by done. by apply T5.
  - intros i o k [[_ Hi]|[-> <-]]%lookup_snoc_Some Hk; rewrite length_app; simpl.
    + specialize (T6 i o k Hi Hk). lia.
    + destruct open as [|i open]; [done|]. injection Hk as <-. specialize (Hlt i ltac:(by left)). lia.
  - split.
    + apply NoDup_cons; split; [|done]. intros Hin%Hlt. lia.
    + intros i [->|Hin]%elem_of_cons; [eexists; split; [by apply list_lookup_middle|done]|].
      destruct (T7' i Hin) as (o & Hi & E). exists o; split; [by apply lookup_app_l_Some|done].
  - cbn [stack]. split; [exists sp; split; [rewrite <- T2; by apply list_lookup_middle|done]|].
    split; [by rewrite innermost_app|by apply stack_app].
  - cbn [innermost]. rewrite Hc', <- T2. symmetry. by apply list_lookup_middle.
Qed.

Lemma traced_finish w0 root i open ops sps c' fin fins c w err :
  traced w0 root (i :: open) ops sps ((c', fin) :: fins) c w →
  traced w0 root open (alter (end_with err) i ops) sps fins c' (fin err w).
Proof.
  intros [T1 T2 T3 T4 T5 T6 [T7 T7'] ((sp & Hsp & ->) & Hc & Hst) _].
  destruct (T7' i ltac:(by left)) as (o & Hi & Eo). apply NoDup_cons in T7 as [Hni T7].
  destruct (finish_spec sp err w root sps o Eo (T4 i sp o Hsp Hi)) as [Hoth Hd].
  assert (∀ j x, sps !! j = Some x → j ≠ i → x ≠ sp) as Hne.
  { intros j x Hj Hji ->. by apply Hji, (NoDup_lookup sps j i sp). }
  assert (∀ j o', alter (end_with err) i ops !! j = Some o' →
    (j = i ∧ o' = end_with err o) ∨ (j ≠ i ∧ ops !! j = Some o')) as Halt.
  { intros j o'. destruct (decide (j = i)) as [->|]; [|rewrite list_lookup_alter_ne by done; auto].
    rewrite list_lookup_alter_eq, Hi. intros [= <-]; auto. }
  split; try done.
  - by rewrite length_alter.
  - intros j x o' Hj [[-> ->]|[Hji Hj']]%Halt; [by assert (x = sp) as -> by congruence|].
    rewrite Hoth by eauto. by apply (T4 j).
  - intros x Hx. rewrite Hoth; [by apply T5|]. intros ->. by apply Hx; eapply list_elem_of_lookup_2.
  - intros j o' k [[-> ->]|[_ Hj]]%Halt Hk; rewrite length_alter; eapply T6; [exact Hi|exact Hk|exact Hj|exact Hk].
  - split; [done|]. intros j Hj. destruct (T7' j ltac:(by right)) as (o' & Hj' & E'). exists o'; split; [|done].
    rewrite list_lookup_alter_ne; [done|]. intros ->; done.
Qed.

Lemma traced_trace t w0 root l open ops sps fins c w n :
  traced w0 root open ops sps fins c w → spans (length open) l = Some n →
  ∃ open' sps' fins' c' w', trace t l fins c w = Some (fins', c', w') ∧ length fins' = n ∧
    traced w0 root open' (operations l open ops) sps' fins' c' w'.
Proof.
  revert open ops sps fins c w; induction l as [|e l IH]; intros open ops sps fins c w Ht Hs;
    cbn [trace spans operations] in *.
  { injection Hs as <-. exists open, sps, fins, c, w. split; [done|split; [|done]].
    pose proof (tr_stack _ _ _ _ _ _ _ _ Ht) as Hst. clear -Hst. revert fins Hst.
    induction open as [|i open IH]; intros [|[c fin] fins]; try done. intros (_ & _ & Hst). simpl. by rewrite (IH fins). }
  destruct e as [? ? ? ?|? ?|? ? ?|? ? ?|name|err]; try (by eapply IH).
  - unfold Start. pose proof (traced_start w0 root open ops sps fins c w (provider t) "distsync" name Ht) as H.
    destruct (ot_Start _ _ _ _ _) as [[c' sp] w1]. eapply IH; [exact H|]. by rewrite Nat.add_1_r in Hs.
  - destruct open as [|i open]; [done|]. destruct fins as [|[c' fin] fins]; [by destruct (tr_stack _ _ _ _ _ _ _ _ Ht)|].
    eapply IH; [by eapply traced_finish|exact Hs].
Qed.

(** The tracer makes of a log exactly the spans of its operations: new ones,
    one for each, and no other span is touched. *)
Lemma trace_exact t l c w n :
  spans 0 l = Some n →
  ∃ fins c' w' sps, trace t l [] c w = Some (fins, c', w') ∧ length fins = n ∧ NoDup sps ∧
    Forall (λ sp, span_of w sp = None) sps ∧
    Forall2 (λ sp o, span_of w' sp = Some (span_for (span_in c) sps o)) sps (operations l [] []) ∧
    ∀ sp, sp ∉ sps → span_of w' sp = span_of w sp.
Proof.
  intros Hs. destruct (traced_trace t w (span_in c) l [] [] [] [] c w n) as (open & sps & fins & c' & w' & E & Hn & T); [|done|].
  { split; try done; [constructor|by intros sp ?%elem_of_nil|split; [constructor|by intros i ?%elem_of_nil]]. }
  destruct T as [T1 T2 T3 T4 T5 _ _ _ _]. exists fins, c', w', sps. split_and!; try done.
  - by apply Forall_forall.
  - apply Forall2_same_length_lookup; split; [done|]. intros i sp o; apply T4.
Qed.
End laws.

(** ** An SDK that obeys the laws *)
Module Ex.
(** A span is its number; a context is the spans it is in. *)
Notation sdk := (list (span_data nat)).

#[export] Instance sdk_otel : Otel unit (list nat) nat sdk := {|
  ot_Start := λ _ _ c name w, (length w :: c, length w, w ++ [Span name (head c) [] None false]);
  ot_RecordError := λ sp e, alter (λ d, if sd_ended d then d else add_error e d) sp;
  ot_SetStatusError := λ sp s, alter (λ d, if sd_ended d then d else set_status s d) sp;
  ot_End := λ sp, alter set_ended sp;
  ot_Error := λ e, match e with ErrRedis m => m | _ => "error" end;
  ctx_span := head;
  ot_span := λ w sp, w !! sp;
|}.

Lemma alter_changes sp f g (w : sdk) :
  (∀ d, sd_ended d = false → g d = f d) → changes (P := unit) (C := list nat) sp f w (alter g sp w).
Proof.
  intros H. split; cbn [ot_span sdk_otel].
  - intros sp' Hne. by rewrite list_lookup_alter_ne.
  - intros d Hd He. by rewrite list_lookup_alter_eq, Hd, <- H.
Qed.

#[export] Instance sdk_laws : OtelLaws unit (list nat) nat sdk.
Proof.
  split.
  - intros p lib c name w; cbn [ot_Start sdk_otel ot_span ctx_span]. split; [by apply lookup_ge_None|].
    split; [done|]. split; [by apply list_lookup_middle|]. intros sp' Hne.
    destruct (decide (sp' < length w)%nat); [by apply lookup_app_l|].
    rewrite (lookup_ge_None_2 w) by lia. apply lookup_ge_None_2. rewrite length_app; simpl. lia.
  - intros sp e w. apply alter_changes. by intros d ->.
  - intros sp s w. apply alter_changes. by intros d ->.
  - intros sp w. by apply alter_changes.
Qed.
End Ex.
