(* ===== verification/Application.v ===== *)
(** * An application of the library

    All components at work in one program: any number of mutexes, read-write
    mutexes, semaphores, leaders and rate limiters, on which an application
    calls the public methods in any order, with the heartbeats, watchdog
    checks, timers and releases of the handles it was given ([hop]) in
    between.  What it reports to the metrics sink and the tracer is shown to
    come from a finite vocabulary and to nest; together with [Prometheus], the
    number of series of a sink is bounded by constants of the program. *)
From S2P Require Import Prelude Float64 Redis RedisMem Errors Requests GoRuntime Scenario.
From S2P Require Import Lease SingleOwner PermitSet Keys Backoff Config Renewer Guard RWWriter RWReader.
From S2P Require Import Retry Handout Mutex RWMutex Semaphore Leader RateLimiter Prometheus Telemetry.
Open Scope Z_scope.

(** ** The program *)
Record app := App {
  ap_mutexes : list (Mutex * mstate);
  ap_rwmutexes : list (RWMutex * rwmstate);
  ap_semaphores : list (Semaphore * list Permit);
  ap_leaders : list (Leader * lstate);
  ap_limiters : list RateLimiter;
}.

Inductive mutex_call :=
  | MuLock (fuel : nat) (ctx : context)
  | MuTryLock
  | MuUnlock
  | MuOnce (fuel : nat) (ctx : context) (result : option error)
  | MuGuard (j : nat) (ops : list hop).

Inductive rwmutex_call :=
  | RwLock (fuel : nat) (ctx : context)
  | RwRLock (fuel : nat) (ctx : context)
  | RwTryLock
  | RwTryRLock
  | RwUnlock
  | RwRUnlock
  | RwGuard (j : nat) (ops : list hop).

Inductive semaphore_call :=
  | SeAcquire (fuel : nat) (ctx : context) (n : Z)
  | SeTryAcquire (n : Z)
  | SeAvailable
  | SePermit (j : nat) (ops : list hop).

Inductive leader_call :=
  | LeRun (fuel : nat) (ctx : context) (cb : option callback)
  | LeTryRun (cb : option callback).

Inductive limiter_call :=
  | LiAllow (n : float64)
  | LiWait (fuel : nat) (ctx : context) (n : float64)
  | LiReset.

Inductive call :=
  | OnMutex (i : nat) (c : mutex_call)
  | OnRWMutex (i : nat) (c : rwmutex_call)
  | OnSemaphore (i : nat) (c : semaphore_call)
  | OnLeader (i : nat) (c : leader_call)
  | OnLimiter (i : nat) (c : limiter_call).

Section run.
Context {S : Type} `{!RedisOps S}.

(** The [i]-th element, if any, is replaced by what [f] makes of it. *)
Definition at_index {T} (f : T → go S T) (i : nat) (l : list T) : go S (list T) :=
  match l !! i with
  | None => mret l
  | Some x => x ← f x; mret (<[i := x]> l)
  end.

Definition use_guard {L} `{!Lease S L} (ops : list hop) (g : Handout.Guard L) : go S (Handout.Guard L) :=
  '(h, _) ← do_ops ops (g_handle g); mret (set_handle h g).
Definition use_permit (ops : list hop) (p : Permit) : go S Permit :=
  '(h, _) ← do_ops ops (p_handle p); mret {| p_handle := h; p_n := p_n p |}.

Definition call_mutex (c : mutex_call) (x : Mutex * mstate) : go S (Mutex * mstate) :=
  let '(m, st) := x in
  match c with
  | MuLock fuel ctx => '(st, _) ← Mutex.Lock m fuel ctx st; mret (m, st)
  | MuTryLock => '(st, _) ← Mutex.TryLock m st; mret (m, st)
  | MuUnlock => '(st, _) ← Mutex.Unlock st; mret (m, st)
  | MuOnce fuel ctx result => '(st, _) ← Once m fuel ctx (mret (tt, result)) st; mret (m, st)
  | MuGuard j ops =>
      gs ← at_index (use_guard ops) j (ms_guards st);
      mret (m, {| ms_guards := gs; ms_holder := ms_holder st |})
  end.

Definition call_rwmutex (c : rwmutex_call) (x : RWMutex * rwmstate) : go S (RWMutex * rwmstate) :=
  let '(m, st) := x in
  match c with
  | RwLock fuel ctx => '(st, _) ← RWMutex.Lock m fuel ctx st; mret (m, st)
  | RwRLock fuel ctx => '(st, _) ← RLock m fuel ctx st; mret (m, st)
  | RwTryLock => '(st, _) ← RWMutex.TryLock m st; mret (m, st)
  | RwTryRLock => '(st, _) ← TryRLock m st; mret (m, st)
  | RwUnlock => '(st, _) ← RWMutex.Unlock st; mret (m, st)
  | RwRUnlock => '(st, _) ← RUnlock st; mret (m, st)
  | RwGuard j ops =>
      gs ← at_index (use_guard ops) j (rws_guards st);
      mret (m, {| rws_guards := gs; rws_write := rws_write st; rws_read := rws_read st |})
  end.

Definition call_semaphore (c : semaphore_call) (x : Semaphore * list Permit) : go S (Semaphore * list Permit) :=
  let '(s, ps) := x in
  match c with
  | SeAcquire fuel ctx n =>
      o ← sem_Acquire s fuel ctx n;
      mret (s, match o with Granted p => ps ++ [p] | _ => ps end)
  | SeTryAcquire n =>
      r ← sem_TryAcquire s n;
      mret (s, match r with inr p => ps ++ [p] | inl _ => ps end)
  | SeAvailable => _ ← Available s; mret (s, ps)
  | SePermit j ops => ps ← at_index (use_permit ops) j ps; mret (s, ps)
  end.

Definition call_leader (c : leader_call) (x : Leader * lstate) : go S (Leader * lstate) :=
  let '(l, st) := x in
  match c with
  | LeRun fuel ctx cb => '(st, _) ← Run l fuel ctx cb st; mret (l, st)
  | LeTryRun cb => '(st, _) ← TryRun l cb st; mret (l, st)
  end.

Definition call_limiter (c : limiter_call) (rl : RateLimiter) : go S RateLimiter :=
  match c with
  | LiAllow n => _ ← Allow rl n; mret rl
  | LiWait fuel ctx n => _ ← Wait fuel ctx rl n; mret rl
  | LiReset => _ ← Reset_limiter rl; mret rl
  end.

Definition run_call (c : call) (a : app) : go S app :=
  match c with
  | OnMutex i c =>
      x ← at_index (call_mutex c) i (ap_mutexes a);
      mret (App x (ap_rwmutexes a) (ap_semaphores a) (ap_leaders a) (ap_limiters a))
  | OnRWMutex i c =>
      x ← at_index (call_rwmutex c) i (ap_rwmutexes a);
      mret (App (ap_mutexes a) x (ap_semaphores a) (ap_leaders a) (ap_limiters a))
  | OnSemaphore i c =>
      x ← at_index (call_semaphore c) i (ap_semaphores a);
      mret (App (ap_mutexes a) (ap_rwmutexes a) x (ap_leaders a) (ap_limiters a))
  | OnLeader i c =>
      x ← at_index (call_leader c) i (ap_leaders a);
      mret (App (ap_mutexes a) (ap_rwmutexes a) (ap_semaphores a) x (ap_limiters a))
  | OnLimiter i c =>
      x ← at_index (call_limiter c) i (ap_limiters a);
      mret (App (ap_mutexes a) (ap_rwmutexes a) (ap_semaphores a) (ap_leaders a) x)
  end.

Fixpoint run_calls (cs : list call) (a : app) : go S app :=
  match cs with
  | [] => mret a
  | c :: cs => a ← run_call c a; run_calls cs a
  end.
End run.

(** An application that has called nothing yet. *)
Definition new_app (ms : list Mutex) (rws : list RWMutex) (ss : list Semaphore) (ls : list Leader)
    (rls : list RateLimiter) : app :=
  App ((λ m, (m, mstate_empty)) <$> ms) ((λ m, (m, rwmstate_empty)) <$> rws) ((λ s, (s, [])) <$> ss)
    ((λ l, (l, lstate_empty)) <$> ls) rls.

(** ** What it reports *)

Definition primitives : list string := ["mutex"; "rwmutex"; "rwmutex-read"; "semaphore"; "leader"].
Definition reasons : list string := ["released"; "lost"].

Section reports.
Context {S : Type} `{!RedisOps S}.

(** [emits n p m Q]: [p] reports events of the vocabulary, from [n] open
    spans to [m], and its result satisfies [Q]. *)
Definition emits {A} (n : nat) (p : go S A) (m : nat) (Q : A → Prop) : Prop :=
  ∀ w, ∃ es, w_log (p w).2 = rev es ++ w_log w ∧ Forall (from_vocabulary primitives reasons) es ∧
             spans n es = Some m ∧ Q (p w).1.

Definition silent {A} (p : go S A) : Prop := ∀ w, w_log (p w).2 = w_log w.

Lemma emits_ret {A} n (a : A) (Q : A → Prop) : Q a → emits n (mret a) n Q.
Proof. intros H w. by exists []. Qed.

Lemma emits_bind {A B} n p k (Q : A → Prop) (f : A → go S B) m T :
  emits n p k Q → (∀ a, Q a → emits k (f a) m T) → emits n (p ≫= f) m T.
Proof.
  intros Hp Hf w. unfold mbind, go_bind. destruct (Hp w) as (es & E1 & V1 & S1 & HQ).
  destruct (p w) as [a w1]; simpl in *. destruct (Hf a HQ w1) as (es' & E2 & V2 & S2 & HT).
  exists (es ++ es'). rewrite E2, E1, rev_app_distr, <- (assoc_L (++)). split; [done|].
  split; [by apply Forall_app|]. by rewrite spans_app, S1.
Qed.

Lemma emits_silent {A} n (p : go S A) : silent p → emits n p n (λ _, True).
Proof. intros H w. exists []. by rewrite H. Qed.

Lemma emits_weaken {A} n (p : go S A) m (Q T : A → Prop) : emits n p m Q → (∀ a, Q a → T a) → emits n p m T.
Proof. intros H HQ w. destruct (H w) as (es & ? & ? & ? & ?). exists es; auto. Qed.

Lemma emits_start n name : emits n (emit (SpanStart name)) (n + 1) (λ _, True).
Proof. intros w. exists [SpanStart name]. by repeat constructor. Qed.
Lemma emits_finish n err : emits (n + 1) (emit (SpanFinish err)) n (λ _, True).
Proof. intros w. exists [SpanFinish err]. rewrite Nat.add_1_r. by repeat constructor. Qed.

(** Any other event. *)
Lemma emits_event n e :
  from_vocabulary primitives reasons e → spans n [e] = Some n → emits n (emit e) n (λ _, True).
Proof. intros H E w. exists [e]. by repeat constructor. Qed.

Lemma silent_ret {A} (a : A) : silent (mret a).
Proof. done. Qed.
Lemma silent_bind {A B} (p : go S A) (f : A → go S B) : silent p → (∀ a, silent (f a)) → silent (p ≫= f).
Proof. intros Hp Hf w. unfold mbind, go_bind. specialize (Hp w). destruct (p w) as [a w1]; simpl in *. by rewrite Hf. Qed.
Lemma silent_next_turn : silent next_turn.
Proof. intros w. unfold next_turn. by destruct (w_turns w). Qed.
Lemma silent_redis req : silent (redis req).
Proof.
  intros w. unfold redis. pose proof (silent_next_turn w). destruct (next_turn w) as [t w1]; simpl in *.
  destruct (exec_all req _ _ _) as [r x1]; simpl. by destruct (t_fail t), r.
Qed.
Lemma silent_time_now : silent time_now.
Proof.
  apply silent_bind; [apply silent_next_turn|]. intros t. by apply silent_bind.
Qed.
Lemma silent_rand_float : silent rand_float.
Proof. apply silent_bind; [apply silent_next_turn|]. intros t. apply silent_ret. Qed.
Lemma silent_rand_token : silent rand_token.
Proof. intros w. unfold rand_token. by destruct (w_tokens w). Qed.
Lemma silent_select ctx d : silent (select_ctx_timer ctx d).
Proof.
  intros w. unfold select_ctx_timer. pose proof (silent_next_turn w). by destruct (next_turn w) as [t w1].
Qed.
End reports.

(** Straight-line code that reports nothing. *)
Ltac solve_silent :=
  repeat (cbn beta zeta; first
    [ apply silent_redis | apply silent_time_now | apply silent_rand_float | apply silent_rand_token
    | apply silent_next_turn | apply silent_select | solve [apply silent_ret]
    | match goal with H : silent ?p |- silent ?p => exact H end
    | match goal with |- silent (ctx_Err _) => done | |- silent read_clock => done end
    | apply silent_bind; [|let a := fresh "a" in intros a]
    | case_match ]).

(** ** Leases report nothing *)
Class QuietLease (S L : Type) `{!RedisOps S, !Lease S L} : Prop := {
  quiet_renew : ∀ l : L, silent (lease_Renew (S := S) l);
  quiet_release : ∀ l : L, silent (lease_Release (S := S) l);
  quiet_held : ∀ l : L, silent (lease_Held (S := S) l);
}.

Section leases.
Context {S : Type} `{!RedisOps S}.

Lemma silent_single_try l : silent (SingleOwner.TryAcquire (S := S) l).
Proof. unfold SingleOwner.TryAcquire, discardLateGrant, SingleOwner.Release. solve_silent. Qed.
#[export] Instance quiet_single : QuietLease S SingleOwner.
Proof.
  split; intros l; cbn [lease_Renew lease_Release lease_Held single_lease].
  - unfold SingleOwner.Renew. solve_silent.
  - unfold SingleOwner.Release. solve_silent.
  - unfold SingleOwner.Held. solve_silent.
Qed.

Lemma silent_permit_try p n : silent (PermitSet.TryAcquire (S := S) p n).
Proof. unfold PermitSet.TryAcquire, discardLateGrant, PermitSet.Release. solve_silent. Qed.
Lemma silent_held_loop key now tokens : silent (held_loop (S := S) key now tokens).
Proof. induction tokens as [|t ts IH]; cbn [held_loop]; solve_silent. Qed.
#[export] Instance quiet_permit : QuietLease S PermitSet.
Proof.
  split; intros l; cbn [lease_Renew lease_Release lease_Held permit_lease].
  - unfold PermitSet.Renew. solve_silent.
  - unfold PermitSet.Release. solve_silent.
  - unfold PermitSet.Held. solve_silent. apply silent_held_loop.
Qed.

Lemma silent_writer_try w : silent (RWWriter.TryAcquire (S := S) w).
Proof. unfold RWWriter.TryAcquire, discardLateGrant, RWWriter.Release. solve_silent. Qed.
Lemma silent_writer_dequeue w : silent (RWWriter.Dequeue (S := S) w).
Proof. unfold RWWriter.Dequeue. solve_silent. Qed.
Lemma silent_reader_try r : silent (RWReader.Acquire (S := S) r).
Proof. unfold RWReader.Acquire, discardLateGrant, RWReader.Release. solve_silent. Qed.
Lemma silent_reader_dequeue r : silent (RWReader.Dequeue (S := S) r).
Proof. unfold RWReader.Dequeue. solve_silent. Qed.
#[export] Instance quiet_rw : QuietLease S RWLease.
Proof.
  split; intros [w|r]; cbn [lease_Renew lease_Release lease_Held rw_lease]; unfold as_writer, as_reader.
  - unfold RWWriter.Renew. solve_silent.
  - unfold RWReader.Renew. solve_silent.
  - unfold RWWriter.Release. solve_silent.
  - unfold RWReader.Release. solve_silent.
  - unfold RWWriter.Held. solve_silent.
  - unfold RWReader.Held. solve_silent.
Qed.
End leases.

(** Steps through code that reports: one rule per construct. *)
Ltac emit_rule :=
  first
    [ apply emits_start | apply emits_finish
    | apply emits_event; [simpl; try split; solve [done | set_solver | by case_match]|done]
    | solve [apply emits_silent; solve_silent] ].
Ltac emit_step :=
  cbn beta zeta;
  match goal with
  | |- emits _ (mret _) _ _ => apply emits_ret
  | |- emits _ (_ ≫= _) _ _ => eapply emits_bind; [emit_rule|let a := fresh "a" in intros a ?]
  | |- emits _ (match ?x with _ => _ end) _ _ => destruct x eqn:?
  end.

(** ** Handles *)
Section handles.
Context {S : Type} `{!RedisOps S} {L : Type} `{!Lease S L, !QuietLease S L}.
Implicit Types (h : handle L).

Definition named h : Prop := h_primitive h ∈ primitives.

Lemma emits_checkDeadline n h : named h → emits n (checkDeadline (S := S) h) n named.
Proof. intros H. unfold checkDeadline. repeat emit_step; done. Qed.

Lemma emits_timer n h : named h → emits n (timer_fires (S := S) h) n named.
Proof.
  intros H. unfold timer_fires. repeat emit_step; try done. by apply emits_checkDeadline.
Qed.

Lemma emits_withLeaseDeadline n h call :
  (∀ l, silent (S := S) (call l)) → named h →
  emits n (withLeaseDeadline h call) n (λ x, named x.1).
Proof.
  intros Hc H. unfold withLeaseDeadline. emit_step; [by apply emits_ret|].
  emit_step. emit_step; [by apply emits_ret|].
  eapply emits_bind; [apply emits_silent, Hc|]. intros [l err] _; cbn beta.
  eapply (emits_bind _ _ n named). { unfold call_expires. repeat emit_step; done. }
  intros h1 H1. eapply emits_bind; [by apply emits_timer|]. intros h2 H2. repeat emit_step; done.
Qed.

Lemma emits_renew n h : named h → emits n (Guard.renew (S := S) h) n (λ x, named x.1).
Proof.
  intros H. unfold Guard.renew. emit_step; [by apply emits_ret|]. emit_step.
  eapply emits_bind; [by apply emits_withLeaseDeadline; [apply quiet_renew|]|]. intros [h1 err] H1; cbn beta.
  repeat emit_step; by case_match.
Qed.

Lemma emits_watch n h : named h → emits n (watch (S := S) h) n (λ x, named x.1).
Proof.
  intros H. apply emits_withLeaseDeadline; [|done]. intros l. unfold watch_call.
  apply silent_bind; [apply quiet_held|]. intros [held err]. solve_silent.
Qed.

Lemma emits_onLost n h : named h → emits n (onLost (S := S) h) n named.
Proof. intros H. unfold onLost. repeat emit_step; done. Qed.

Lemma emits_stop n h : named h → emits n (Guard.stop (S := S) h) n named.
Proof.
  intros H. unfold Guard.stop. repeat emit_step; try done.
  eapply emits_bind; [apply emits_silent; unfold Stop, pass; solve_silent; done|]. intros r' _. by apply emits_ret.
Qed.

Lemma emits_release n h : named h → emits n (Guard.release (S := S) h) n (λ x, named x.1).
Proof.
  intros H. unfold Guard.release. emit_step; [by apply emits_ret|].
  eapply emits_bind; [by apply emits_stop|]. intros h1 H1. emit_step.
  eapply emits_bind; [apply emits_silent, quiet_release|]. intros [l err] _; cbn beta. repeat emit_step; done.
Qed.

Lemma emits_do_op n o h : named h → emits n (do_op (S := S) o h) n (λ x, named x.1).
Proof.
  intros H. assert (∀ p : go S (handle L), emits n p n named →
    emits n (h ← p; mret (h, None : option error)) n (λ x, named x.1)) as Hp.
  { intros p Hp. eapply emits_bind; [exact Hp|]. intros h' H'. by apply emits_ret. }
  destruct o; cbn [do_op].
  - by apply emits_renew.
  - by apply emits_watch.
  - by apply Hp, emits_timer.
  - by apply Hp, emits_onLost.
  - by apply emits_release.
  - by apply Hp, emits_stop.
  - by repeat emit_step.
Qed.

Lemma emits_do_ops n l h : named h → emits n (do_ops (S := S) l h) n (λ x, named x.1).
Proof.
  revert h; induction l as [|o l IH]; intros h H; cbn [do_ops]; [by apply emits_ret|].
  eapply emits_bind; [by apply emits_do_op|]. intros [h1 e] H1; cbn beta.
  eapply emits_bind; [by apply IH|]. intros [h2 es] H2. by apply emits_ret.
Qed.

Lemma emits_monitor n cfg h : named h → emits n (monitor (S := S) cfg h) n named.
Proof.
  intros H. assert (∀ i, emits n (start (S := S) i h) n named) as Hs.
  { intros i. unfold start. eapply emits_bind; [by apply emits_checkDeadline|]. intros h1 H1. by apply emits_ret. }
  unfold monitor, startRenewal, startWatchdog. repeat emit_step; try done; apply Hs.
Qed.
End handles.

(** ** Acquisitions *)
Section acquisitions.
Context {S : Type} `{!RedisOps S}.

Lemma emits_report n primitive name ok start :
  primitive ∈ primitives → emits n (report_acquire (S := S) primitive name ok start) n (λ _, True).
Proof. intros H. unfold report_acquire. emit_step. by apply emits_event. Qed.

Lemma emits_retry {T A} n (attempt : T → go S (T * (A * option error))) failed abandon prefix policy fuel ctx k t :
  (∀ t, silent (attempt t)) → emits n failed n (λ _, True) → (∀ t, emits n (abandon t) n (λ _, True)) →
  emits n (retry_loop attempt failed abandon prefix policy fuel ctx k t) n (λ _, True).
Proof.
  intros Ha Hf Hg. revert k t; induction fuel as [|fuel IH]; intros k t; cbn [retry_loop]; [by apply emits_ret|].
  eapply emits_bind; [apply emits_silent, Ha|]. intros [t1 [a [e|]]] _; cbn beta iota; [|by apply emits_ret].
  emit_step; [eapply emits_bind; [exact Hf|]; intros; by apply emits_ret|].
  emit_step. emit_step; [eapply emits_bind; [apply Hg|]; intros; by apply emits_ret|].
  do 2 emit_step. emit_step; [|apply IH].
  emit_step. eapply emits_bind; [apply Hg|]; intros; by apply emits_ret.
Qed.

Section guards.
Context {L : Type} `{!Lease S L, !QuietLease S L}.

Definition guards_named (gs : list (Handout.Guard L)) : Prop := Forall (λ g, named (g_handle g)) gs.

Lemma emits_at_index {T} n (P : T → Prop) (f : T → go S T) i l :
  (∀ x, P x → emits n (f x) n P) → Forall P l → emits n (at_index f i l) n (Forall P).
Proof.
  intros Hf Hl. unfold at_index. destruct (l !! i) as [x|] eqn:E; [|by apply emits_ret].
  eapply emits_bind; [apply Hf; by eapply Forall_lookup_1|]. intros y Hy. by apply emits_ret, Forall_insert.
Qed.

Lemma emits_guard_unlock n i (gs : list (Handout.Guard L)) :
  guards_named gs → emits n (guard_unlock i gs) n (λ x, guards_named x.1).
Proof.
  intros H. unfold guard_unlock. destruct (gs !! i) as [g|] eqn:E; [|by apply emits_ret].
  eapply emits_bind; [apply emits_release; exact (Forall_lookup_1 _ _ _ _ H E)|]. intros [h err] Hh; cbn beta.
  by apply emits_ret, Forall_insert.
Qed.

Lemma emits_unlock_holder n holder (gs : list (Handout.Guard L)) :
  guards_named gs → emits n (unlock_holder holder gs) n (λ x, guards_named x.1.1).
Proof.
  intros H. unfold unlock_holder. destruct holder as [i|]; [|by apply emits_ret].
  eapply emits_bind; [by apply emits_guard_unlock|]. intros [gs' err] Hg; cbn beta.
  emit_step; by apply emits_ret.
Qed.

Lemma emits_use_guard n ops (g : Handout.Guard L) :
  named (g_handle g) → emits n (use_guard ops g) n (λ g, named (g_handle g)).
Proof.
  intros H. unfold use_guard. eapply emits_bind; [by apply emits_do_ops|]. intros [h es] Hh. by apply emits_ret.
Qed.
End guards.
End acquisitions.

(** ** The primitives *)
Section primitives.
Context {S : Type} `{!RedisOps S}.

Definition mutex_named (x : Mutex * mstate) : Prop := guards_named (ms_guards x.2).

Lemma emits_mutex_guard n m l fence : emits n (Mutex.guard (S := S) m l fence) n (λ g, named (g_handle g)).
Proof.
  unfold Mutex.guard. eapply emits_bind; [apply emits_monitor; unfold named; simpl; set_solver|].
  intros h H. by apply emits_ret.
Qed.

Lemma named_setHolder g st :
  named (g_handle g) → guards_named (ms_guards st) → guards_named (ms_guards (Mutex.setHolder g st).1).
Proof. intros Hg Hs. apply Forall_app; split; [done|by apply Forall_singleton]. Qed.

Lemma emits_mutex_lock n m fuel ctx st :
  guards_named (ms_guards st) → emits n (Mutex.Lock (S := S) m fuel ctx st) n (λ x, guards_named (ms_guards x.1)).
Proof.
  intros H. unfold Mutex.Lock. emit_step. unfold Mutex.newLease, NewSingleOwner, Token. emit_step.
  eapply (emits_bind _ _ (n + 1) (λ x, guards_named (ms_guards x.1))).
  - unfold Mutex.lock_with. emit_step. eapply emits_bind.
    { apply emits_retry; [apply silent_single_try|by apply emits_report; set_solver|].
      intros t. by apply emits_report; set_solver. }
    intros [l o] _; cbn beta. destruct o as [fence|e|]; [|by apply emits_ret..].
    eapply emits_bind; [apply emits_mutex_guard|]. intros g Hg; cbn beta.
    eapply emits_bind; [by apply emits_report; set_solver|]. intros _ _. apply emits_ret. by apply named_setHolder.
  - intros [st1 o] Hst; cbn beta. repeat emit_step; done.
Qed.

Lemma emits_mutex_trylock n m st :
  guards_named (ms_guards st) → emits n (Mutex.TryLock (S := S) m st) n (λ x, guards_named (ms_guards x.1)).
Proof.
  intros H. unfold Mutex.TryLock, Mutex.newLease, NewSingleOwner, Token. emit_step.
  eapply emits_bind; [apply emits_silent, silent_single_try|]. intros [l [fence [e|]]] _; cbn beta iota.
  - repeat emit_step; done.
  - eapply emits_bind; [apply emits_mutex_guard|]. intros g Hg; cbn beta.
    unfold Mutex.setHolder at 1; cbn beta iota zeta. emit_step. apply emits_ret. by apply named_setHolder.
Qed.

Lemma emits_mutex_unlock n st :
  guards_named (ms_guards st) → emits n (Mutex.Unlock (S := S) st) n (λ x, guards_named (ms_guards x.1)).
Proof.
  intros H. unfold Mutex.Unlock. eapply emits_bind; [by apply emits_unlock_holder|].
  intros [[gs holder] err] Hg. by apply emits_ret.
Qed.

Lemma emits_call_mutex n c x : mutex_named x → emits n (call_mutex (S := S) c x) n mutex_named.
Proof.
  destruct x as [m st]; unfold mutex_named; cbn [snd]; intros H. destruct c; cbn [call_mutex].
  - eapply emits_bind; [by apply emits_mutex_lock|]. intros [st1 o] Hst. by apply emits_ret.
  - eapply emits_bind; [by apply emits_mutex_trylock|]. intros [st1 o] Hst. by apply emits_ret.
  - eapply emits_bind; [by apply emits_mutex_unlock|]. intros [st1 o] Hst. by apply emits_ret.
  - eapply (emits_bind _ _ n (λ x, guards_named (ms_guards x.1))); [|intros [st1 o] Hst; by apply emits_ret].
    unfold Once. eapply emits_bind; [by apply emits_mutex_lock|]. intros [st1 o] Hst; cbn beta.
    destruct o as [i|e|]; [|by apply emits_ret..]. emit_step.
    eapply emits_bind; [by apply emits_guard_unlock|]. intros [gs err] Hg. by apply emits_ret.
  - eapply emits_bind; [apply (emits_at_index _ (λ g, named (g_handle g))); [intros; by apply emits_use_guard|done]|].
    intros gs Hg. by apply emits_ret.
Qed.

Definition rwmutex_named (x : RWMutex * rwmstate) : Prop := guards_named (rws_guards x.2).

Section rw_body.
Context {T A : Type} (attempt : T → go S (T * (A * option error))) (dequeue : T → go S unit).
Context (wrap : T → RWLease) (fence : A → Z) (set : Handout.Guard RWLease → rwmstate → rwmstate * nat).
Context (kind : string).
Context (Hkind : kind ∈ primitives) (Hattempt : ∀ t, silent (attempt t)) (Hdequeue : ∀ t, silent (dequeue t)).
Context (Hset : ∀ g st, rws_guards (set g st).1 = rws_guards st ++ [g]).

Lemma named_set g st :
  named (g_handle g) → guards_named (rws_guards st) → guards_named (rws_guards (set g st).1).
Proof. intros Hg Hs. rewrite Hset. apply Forall_app; split; [done|by apply Forall_singleton]. Qed.

Lemma emits_rw_guard n m l f : emits n (RWMutex.guard (S := S) m l f) n (λ g, named (g_handle g)).
Proof.
  unfold RWMutex.guard. eapply emits_bind; [apply emits_monitor; unfold named; simpl; set_solver|].
  intros h H. by apply emits_ret.
Qed.

Lemma emits_lock_with n prefix m fuel ctx l st :
  guards_named (rws_guards st) →
  emits n (RWMutex.lock_with attempt dequeue wrap fence set kind prefix m fuel ctx l st) n
    (λ x, guards_named (rws_guards x.1)).
Proof.
  intros H. unfold RWMutex.lock_with. emit_step. eapply emits_bind.
  { apply emits_retry; [apply Hattempt|by apply emits_report|].
    intros t. eapply emits_bind; [apply emits_silent, Hdequeue|]. intros _ _. by apply emits_report. }
  intros [t o] _; cbn beta. destruct o as [res|e|]; [|by apply emits_ret..].
  eapply emits_bind; [apply emits_rw_guard|]. intros g Hg; cbn beta.
  pose proof (named_set g st Hg H) as Hn. destruct (set g st) as [st1 i]; cbn beta iota.
  eapply emits_bind; [by apply emits_report|]. intros _ _. by apply emits_ret.
Qed.

Lemma emits_try_with n m l st :
  guards_named (rws_guards st) →
  emits n (try_with attempt dequeue wrap fence set kind m l st) n (λ x, guards_named (rws_guards x.1)).
Proof.
  intros H. unfold try_with. eapply emits_bind; [apply emits_silent, Hattempt|].
  intros [t [a [e|]]] _; cbn beta iota.
  - emit_step; [|by apply emits_ret]. eapply emits_bind; [apply emits_silent, Hdequeue|]. intros _ _.
    eapply emits_bind; [by apply emits_event|]. intros _ _. by apply emits_ret.
  - eapply emits_bind; [apply emits_rw_guard|]. intros g Hg; cbn beta.
    pose proof (named_set g st Hg H) as Hn. destruct (set g st) as [st1 i]; cbn beta iota.
    eapply emits_bind; [by apply emits_event|]. intros _ _. by apply emits_ret.
Qed.
End rw_body.

Lemma silent_try_read r : silent (try_read (S := S) r).
Proof. unfold try_read. apply silent_bind; [apply silent_reader_try|]. intros [l e]. solve_silent. Qed.

Lemma emits_rw_lock n m fuel ctx st :
  guards_named (rws_guards st) → emits n (RWMutex.Lock (S := S) m fuel ctx st) n (λ x, guards_named (rws_guards x.1)).
Proof.
  intros H. unfold RWMutex.Lock, NewRWWriter, Token. do 2 emit_step.
  eapply emits_bind; [apply emits_lock_with; [set_solver|apply silent_writer_try|apply silent_writer_dequeue|done|done]|].
  intros [st1 o] Hst; cbn beta. repeat emit_step; done.
Qed.

Lemma emits_rw_rlock n m fuel ctx st :
  guards_named (rws_guards st) → emits n (RLock (S := S) m fuel ctx st) n (λ x, guards_named (rws_guards x.1)).
Proof.
  intros H. unfold RLock, NewRWReader, Token. do 2 emit_step.
  eapply emits_bind; [apply emits_lock_with; [set_solver|apply silent_try_read|apply silent_reader_dequeue|done|done]|].
  intros [st1 o] Hst; cbn beta. repeat emit_step; done.
Qed.

Lemma emits_rw_trylock n m st :
  guards_named (rws_guards st) → emits n (RWMutex.TryLock (S := S) m st) n (λ x, guards_named (rws_guards x.1)).
Proof.
  intros H. unfold RWMutex.TryLock, NewRWWriter, Token. emit_step.
  apply emits_try_with; [set_solver|apply silent_writer_try|apply silent_writer_dequeue|done|done].
Qed.

Lemma emits_rw_tryrlock n m st :
  guards_named (rws_guards st) → emits n (TryRLock (S := S) m st) n (λ x, guards_named (rws_guards x.1)).
Proof.
  intros H. unfold TryRLock, NewRWReader, Token. emit_step.
  apply emits_try_with; [set_solver|apply silent_try_read|apply silent_reader_dequeue|done|done].
Qed.

Lemma emits_rw_unlock n st :
  guards_named (rws_guards st) → emits n (RWMutex.Unlock (S := S) st) n (λ x, guards_named (rws_guards x.1)).
Proof.
  intros H. unfold RWMutex.Unlock. eapply emits_bind; [by apply emits_unlock_holder|].
  intros [[gs holder] err] Hg. by apply emits_ret.
Qed.

Lemma emits_rw_runlock n st :
  guards_named (rws_guards st) → emits n (RUnlock (S := S) st) n (λ x, guards_named (rws_guards x.1)).
Proof.
  intros H. unfold RUnlock. eapply emits_bind; [by apply emits_unlock_holder|].
  intros [[gs holder] err] Hg. by apply emits_ret.
Qed.

Lemma emits_call_rwmutex n c x : rwmutex_named x → emits n (call_rwmutex (S := S) c x) n rwmutex_named.
Proof.
  destruct x as [m st]; unfold rwmutex_named; cbn [snd]; intros H.
  destruct c as [fuel ctx|fuel ctx| | | | |j ops]; cbn [call_rwmutex].
  7: { eapply emits_bind; [apply (emits_at_index _ (λ g, named (g_handle g))); [intros; by apply emits_use_guard|done]|].
    intros gs Hg. by apply emits_ret. }
  all: eapply (emits_bind _ _ n (λ x, guards_named (rws_guards x.1))); [|intros [st1 o] Hst; by apply emits_ret].
  all: auto using emits_rw_lock, emits_rw_rlock, emits_rw_trylock, emits_rw_tryrlock, emits_rw_unlock, emits_rw_runlock.
Qed.

Definition semaphore_named (x : Semaphore * list Permit) : Prop := Forall (λ p, named (p_handle p)) x.2.

Lemma emits_permit n s l k : emits n (permit (S := S) s l k) n (λ p, named (p_handle p)).
Proof.
  unfold permit. eapply emits_bind; [apply emits_monitor; unfold named; simpl; set_solver|].
  intros h H. by apply emits_ret.
Qed.

Lemma emits_sem_acquire n s fuel ctx k :
  emits n (sem_Acquire (S := S) s fuel ctx k) n (λ o, match o with Granted p => named (p_handle p) | _ => True end).
Proof.
  unfold sem_Acquire. emit_step; [by apply emits_ret|]. emit_step. unfold NewPermitSet, Token. emit_step.
  eapply (emits_bind _ _ _ (λ o, match o with Granted p => named (p_handle p) | _ => True end)).
  - unfold acquire_with. emit_step. eapply emits_bind.
    { apply emits_retry; [|by apply emits_report; set_solver|intros t; by apply emits_report; set_solver].
      intros t. unfold try_n. apply silent_bind; [apply silent_permit_try|]. intros [l e]. solve_silent. }
    intros [l o] _; cbn beta. destruct o as [u|e|]; [|by apply emits_ret..].
    eapply emits_bind; [apply emits_permit|]. intros p Hp.
    eapply emits_bind; [by apply emits_report; set_solver|]. intros _ _. by apply emits_ret.
  - intros o Ho; cbn beta. emit_step. by apply emits_ret.
Qed.

Lemma emits_sem_tryacquire n s k :
  emits n (sem_TryAcquire (S := S) s k) n (λ r, match r with inr p => named (p_handle p) | inl _ => True end).
Proof.
  unfold sem_TryAcquire, NewPermitSet, Token. emit_step; [by apply emits_ret|]. emit_step.
  eapply emits_bind; [apply emits_silent, silent_permit_try|]. intros [l [e|]] _; cbn beta iota.
  - emit_step; [emit_step|]; by apply emits_ret.
  - eapply emits_bind; [apply emits_permit|]. intros p Hp; cbn beta. emit_step. by apply emits_ret.
Qed.

Lemma emits_call_semaphore n c x : semaphore_named x → emits n (call_semaphore (S := S) c x) n semaphore_named.
Proof.
  destruct x as [s ps]; unfold semaphore_named; cbn [snd]; intros H.
  assert (∀ p, named (p_handle p) → Forall (λ p, named (p_handle p)) (ps ++ [p])) as Hsnoc.
  { intros p Hp. apply Forall_app; split; [done|by apply Forall_singleton]. }
  destruct c; cbn [call_semaphore].
  - eapply emits_bind; [apply emits_sem_acquire|]. intros [p|e|] Hp; apply emits_ret; [by apply Hsnoc|done|done].
  - eapply emits_bind; [apply emits_sem_tryacquire|]. intros [e|p] Hp; apply emits_ret; [done|by apply Hsnoc].
  - unfold Available. by repeat emit_step.
  - eapply emits_bind; [apply (emits_at_index _ (λ p, named (p_handle p))); [|done]|intros ps' H'; by apply emits_ret].
    intros p Hp. unfold use_permit. eapply emits_bind; [by apply emits_do_ops|]. intros [h es] Hh. by apply emits_ret.
Qed.

Lemma emits_do_lops n xs h st :
  named h → emits n (do_lops (S := S) xs h st) n (λ x, named x.1).
Proof.
  revert h st; induction xs as [|[o|x] xs IH]; intros h st H; cbn [do_lops]; [by apply emits_ret| |by apply IH].
  eapply emits_bind; [by apply emits_do_op|]. intros [h1 e] H1. by apply IH.
Qed.

Lemma emits_runHeld n l le fence cb : emits n (runHeld (S := S) l le fence cb) n (λ _, True).
Proof.
  unfold runHeld, lead. eapply (emits_bind _ _ _ (λ x, named x.1)).
  { eapply emits_bind; [apply emits_monitor; unfold named; simpl; set_solver|]. intros h H.
    by apply emits_do_lops. }
  intros [h st] H; cbn beta iota zeta. unfold step_down.
  eapply emits_bind; [apply emits_stop; exact H|]. intros h1 H1; cbn beta.
  eapply emits_bind; [by apply emits_release|]. intros [h2 rerr] H2. by apply emits_ret.
Qed.

Lemma emits_run n l fuel ctx cb st : emits n (Run (S := S) l fuel ctx cb st) n (λ _, True).
Proof.
  unfold Run. destruct cb as [cb|]; [|by repeat emit_step].
  emit_step. eapply (emits_bind _ _ _ (λ _, True)); [|intros [st1 o] _; by repeat emit_step].
  unfold leader_lease, NewSingleOwner, Token. do 2 emit_step.
  eapply emits_bind; [apply emits_retry; [apply silent_single_try|by apply emits_ret|intros; by apply emits_ret]|].
  intros [le o] _; cbn beta. destruct o as [fence|e|]; [|by apply emits_ret..].
  eapply emits_bind; [by apply emits_report; set_solver|]. intros _ _.
  eapply emits_bind; [apply emits_runHeld|]. intros [st1 err] _. by apply emits_ret.
Qed.

Lemma emits_tryrun n l cb st : emits n (TryRun (S := S) l cb st) n (λ _, True).
Proof.
  unfold TryRun. destruct cb as [cb|]; [|by repeat emit_step].
  emit_step. eapply (emits_bind _ _ _ (λ _, True)); [|intros [st1 err] _; by repeat emit_step].
  unfold leader_lease, NewSingleOwner, Token. emit_step.
  eapply emits_bind; [apply emits_silent, silent_single_try|]. intros [le [fence [e|]]] _; cbn beta iota;
    [by apply emits_ret|]. emit_step. apply emits_runHeld.
Qed.

Lemma emits_call_leader n c x : emits n (call_leader (S := S) c x) n (λ _, True).
Proof.
  destruct x as [l st], c; cbn [call_leader]; (eapply emits_bind; [apply emits_run || apply emits_tryrun|]);
    intros [st1 o] _; by apply emits_ret.
Qed.

Lemma emits_allow n rl k : emits n (Allow (S := S) rl k) n (λ _, True).
Proof.
  assert (∀ req, silent (S := S) (allow rl req)) as Ha by (intros req; unfold allow; solve_silent).
  unfold Allow. do 3 (emit_step; [by apply emits_ret|]). emit_step.
  eapply emits_bind; [apply emits_silent|]; [|intros r _; by repeat emit_step].
  unfold evaluate, Token. destruct (rl_algorithm rl); solve_silent; apply Ha.
Qed.

Lemma emits_rl_acquire n fuel ctx rl k : emits n (rl_Acquire (S := S) fuel ctx rl k) n (λ _, True).
Proof.
  induction fuel as [|fuel IH]; cbn [rl_Acquire]; [by apply emits_ret|].
  eapply emits_bind; [apply emits_allow|]. intros r _; cbn beta. repeat (emit_step || apply IH); done.
Qed.

Lemma emits_call_limiter n c rl : emits n (call_limiter (S := S) c rl) n (λ _, True).
Proof.
  destruct c; cbn [call_limiter]; (eapply (emits_bind _ _ _ (λ _, True)); [|intros ? _; by apply emits_ret]).
  - apply emits_allow.
  - unfold Wait. emit_step. eapply emits_bind; [apply emits_rl_acquire|]. intros o _. by repeat emit_step.
  - apply emits_silent. unfold Reset_limiter. solve_silent.
Qed.

(** ** The application *)
Definition app_named (a : app) : Prop :=
  Forall mutex_named (ap_mutexes a) ∧ Forall rwmutex_named (ap_rwmutexes a) ∧
  Forall semaphore_named (ap_semaphores a).

Lemma emits_run_call n c a : app_named a → emits n (run_call (S := S) c a) n app_named.
Proof.
  intros (H1 & H2 & H3). destruct c; cbn [run_call].
  - eapply emits_bind; [by apply (emits_at_index _ mutex_named); [intros; by apply emits_call_mutex|]|].
    intros x Hx. by apply emits_ret.
  - eapply emits_bind; [by apply (emits_at_index _ rwmutex_named); [intros; by apply emits_call_rwmutex|]|].
    intros x Hx. by apply emits_ret.
  - eapply emits_bind; [by apply (emits_at_index _ semaphore_named); [intros; by apply emits_call_semaphore|]|].
    intros x Hx. by apply emits_ret.
  - eapply emits_bind; [apply (emits_at_index _ (λ _, True)); [intros; apply emits_call_leader|by apply Forall_true]|].
    intros x Hx. by apply emits_ret.
  - eapply emits_bind; [apply (emits_at_index _ (λ _, True)); [intros; apply emits_call_limiter|by apply Forall_true]|].
    intros x Hx. by apply emits_ret.
Qed.

Lemma emits_run_calls n cs a : app_named a → emits n (run_calls (S := S) cs a) n app_named.
Proof.
  revert a; induction cs as [|c cs IH]; intros a Ha; cbn [run_calls]; [by apply emits_ret|].
  eapply emits_bind; [by apply emits_run_call|]. intros a' Ha'. by apply IH.
Qed.

Lemma new_app_named ms rws ss ls rls : app_named (new_app ms rws ss ls rls).
Proof. repeat split; apply Forall_fmap, Forall_true; intros x; constructor. Qed.

(** C23: what an application reports.  Whatever an application calls, in any
    order and under any schedule of the others, of the network and of time,
    the primitives it reports are the five names of the library and the
    reasons for which a renewal stopped are "released" and "lost" (never
    "error"), and every span is finished once, after the spans that were
    started within it. *)
Theorem application_reports ms rws ss ls rls cs (w : world S) :
  w_log w = [] →
  let log := rev (w_log (run_calls cs (new_app ms rws ss ls rls) w).2) in
  Forall (from_vocabulary primitives reasons) log ∧ spans 0 log = Some 0%nat.
Proof.
  intros Hw log. unfold log.
  destruct (emits_run_calls 0 cs _ (new_app_named ms rws ss ls rls) w) as (es & -> & Hv & Hs & _).
  rewrite Hw, app_nil_r, rev_involutive. by split.
Qed.

(** C11: an application's sink has a bounded number of series.  A sink with [N]
    allowed resource names accepts everything that an application reports, up
    to 2^53 events.  Then every series of acquisitions and of stopped renewals
    has one of the five primitives, an allowed name or "other", and one of two
    results or reasons; and there are at most [10 (N + 1)] series of
    acquisitions, however many locks, of whatever names, the application
    used. *)
Theorem application_series {CV HV Reg} `{!Collectors CV HV Reg, !CollectorLaws CV HV Reg}
    def reg allow (p0 : Prometheus CV HV) reg' ms rws ss ls rls cs (w : world S) :
  w_log w = [] → NewWithResources def reg allow = Ran (p0, reg') → Forall (λ r, ValidString r = true) allow →
  let log := rev (w_log (run_calls cs (new_app ms rws ss ls rls) w).2) in
  let labels := "other" :: elements (list_to_set allow : gset string) in
  Z.of_nat (length log) ≤ 2 ^ 53 →
  ∃ p, observe_all log p0 = Ran p ∧
    (∀ vs, is_Some (c_value (acquires p) vs) → vs ∈ combinations [primitives; labels; ["success"; "failure"]]) ∧
    (∀ vs, is_Some (c_value (renewStopped p) vs) → vs ∈ combinations [primitives; labels; reasons]) ∧
    ∀ l, NoDup l → (∀ vs, vs ∈ l → is_Some (c_value (acquires p) vs)) → (length l ≤ 10 * (length allow + 1))%nat.
Proof.
  intros Hw Hnew Ha log labels Hn.
  destruct (emits_run_calls 0 cs _ (new_app_named ms rws ss ls rls) w) as (es & E & Hv & _ & _).
  assert (log = es) as El by (unfold log; by rewrite E, Hw, app_nil_r, rev_involutive). clearbody log; subst log.
  destruct (series_bounded def reg allow p0 reg' es primitives reasons) as (p & Hp & _ & H1 & _ & H3 & Hl);
    [done| |done|done|].
  { rewrite !Forall_app. split; [done|]. by repeat constructor. }
  exists p. split; [done|]. split; [intros vs Hvs; apply H1; by left|]. split; [exact H3|].
  intros l Hnd Hin. specialize (Hl l Hnd Hin). simpl in Hl. lia.
Qed.

End primitives.

(** ** Examples *)
Module Ex.
#[local] Existing Instances Prometheus.Ex.vec_collectors Prometheus.Ex.vec_laws.
#[local] Existing Instances Telemetry.Ex.sdk_otel Telemetry.Ex.sdk_laws.

(** A lock with an allowed name that is renewed and released, one with
    another name that is busy, a permit, and a refused request. *)
Definition cl : Client := New [].
Definition limiter : RateLimiter :=
  {| rl_client := cl; rl_name := "api"; rl_key := "{api}"; rl_capacity := of_Z 2; rl_rate := of_Z 2;
     rl_algorithm := AlgorithmTokenBucket |}.
Definition the_app : app :=
  new_app [NewMutex cl "scheduler" []; NewMutex cl "order:1" []] []
    (match NewSemaphore cl "pool" 2 [] with Some s => [s] | None => [] end) [NewLeader cl "boss" []] [limiter].
Definition calls : list call :=
  [OnMutex 0 (MuLock 2 Background); OnMutex 0 (MuGuard 0 [ORenew]); OnMutex 0 MuUnlock; OnMutex 1 MuTryLock;
   OnMutex 1 MuTryLock; OnSemaphore 0 (SeTryAcquire 1); OnSemaphore 0 (SePermit 0 [ORenew; ORelease]);
   OnLimiter 0 (LiAllow (of_Z 3)); OnLeader 0 (LeTryRun None)].
Definition start : world mem := World (mem_empty Second) Second (replicate 60 served) ["a"; "b"; "c"; "d"] [].

Definition reported : list event := rev (w_log (run_calls calls the_app start).2).

Lemma application_reports_witness :
  Forall (from_vocabulary primitives reasons) reported ∧ spans 0 reported = Some 0%nat ∧
  length reported = 22%nat.
Proof.
  destruct (application_reports [NewMutex cl "scheduler" []; NewMutex cl "order:1" []] []
    (match NewSemaphore cl "pool" 2 [] with Some s => [s] | None => [] end) [NewLeader cl "boss" []] [limiter]
    calls start) as [H1 H2]; [reflexivity|].
  split; [exact H1|split; [exact H2|vm_compute; reflexivity]].
Defined.

Lemma application_series_witness :
  ∃ p, observe_all reported Prometheus.Ex.sink0 = Ran p ∧
    ∀ l, NoDup l → (∀ vs, vs ∈ l → is_Some (c_value (acquires p) vs)) → (length l ≤ 30)%nat.
Proof.
  destruct (application_series [] None Prometheus.Ex.allow Prometheus.Ex.sink0 (rev sink_names)
    [NewMutex cl "scheduler" []; NewMutex cl "order:1" []] []
    (match NewSemaphore cl "pool" 2 [] with Some s => [s] | None => [] end) [NewLeader cl "boss" []] [limiter]
    calls start) as (p & Hp & _ & _ & H).
  - reflexivity.
  - apply Prometheus.Ex.new_returns.
  - repeat constructor.
  - vm_compute; discriminate.
  - exists p. split; [exact Hp|exact H].
Defined.

End Ex.
