(* ===== verification/Demo.v ===== *)
(** * The demonstration programs

    [examples/basic/main.go] and [examples/cluster/main.go]: every primitive of
    the library once, in a program that prints, and that ends early through
    [log.Fatalf].  They are the clients of the library that the repository
    has, and the place where its parts meet.

    The connection (dialing and [PING]) is a parameter, as are the steps of the
    background loops while the program holds something; the lines that the
    leader's callback prints are left out. *)
From S2P Require Import Prelude Float64 Redis RedisMem Errors Requests GoRuntime Scenario.
From S2P Require Import Lease SingleOwner PermitSet Keys Backoff Config Renewer Guard GuardSafety RWWriter RWReader.
From S2P Require Import Retry Handout Mutex RWMutex Semaphore Leader RateLimiter Prometheus Telemetry Application.
From Stdlib Require Import Ascii.
Open Scope Z_scope.

(** ** A process *)

(** A line printed by [fmt.Printf] or [log.Fatalf]: the format without its
    final newline, and the arguments. *)
Inductive arg := AInt (n : Z) | ABool (b : bool) | ADuration (d : Z) | AString (s : string) | AError (e : error).
Record line := Line { l_format : string; l_args : list arg }.

(** How a process got to where it is: with a value, out through
    [log.Fatalf] or a panic, or still waiting when the fuel is spent. *)
Inductive ended (A : Type) :=
  | Returned (a : A)
  | Fatal (l : line)
  | Panicked (msg : string)
  | Waiting.
Arguments Returned {A} a.
Arguments Fatal {A} l.
Arguments Panicked {A} msg.
Arguments Waiting {A}.

(** What has been printed, latest first. *)
Definition process (S A : Type) : Type := list line → go S (ended A * list line).

#[export] Instance process_ret S : MRet (process S) := λ A a out, mret (Returned a, out).
#[export] Instance process_bind S : MBind (process S) := λ A B f p out,
  '(a, out) ← p out;
  match a with
  | Returned a => f a out
  | Fatal l => mret (Fatal l, out)
  | Panicked msg => mret (Panicked msg, out)
  | Waiting => mret (Waiting, out)
  end.

Section process.
Context {S : Type}.

Definition lift {A} (p : go S A) : process S A := λ out, a ← p; mret (Returned a, out).
Definition Println (s : string) : process S unit := λ out, mret (Returned tt, Line s [] :: out).
Definition Printf (format : string) (args : list arg) : process S unit := λ out,
  mret (Returned tt, Line format args :: out).
Definition Fatalf {A} (format : string) (args : list arg) : process S A := λ out,
  mret (Fatal (Line format args), out).

(** [if err != nil { log.Fatalf(format, err) }] *)
Definition check (format : string) (err : option error) : process S unit :=
  match err with Some e => Fatalf format [AError e] | None => mret tt end.

(** The same after a call that waits. *)
Definition granted {A} (format : string) (o : outcome A) : process S A :=
  match o with
  | Granted a => mret a
  | Refused e => Fatalf format [AError e]
  | NoFuel => λ out, mret (Waiting, out)
  end.

Definition unpanic {A} (r : ran A) : process S A :=
  match r with Ran a => mret a | Panic msg => λ out, mret (Panicked msg, out) end.

(** [must(v, err)] *)
Definition must {A} (r : error + A) : process S A :=
  match r with inr v => mret v | inl e => Fatalf "call failed: %v" [AError e] end.
End process.

(** ** Addresses *)

(** [strings.Split(s, ",")] *)
Definition comma : ascii := ","%char.

Fixpoint split_comma (s : string) : list string :=
  match s with
  | EmptyString => [EmptyString]
  | String c s =>
      if bool_decide (c = comma) then EmptyString :: split_comma s
      else match split_comma s with
           | [] => [String c EmptyString]
           | w :: ws => String c w :: ws
           end
  end.

Definition basic_addr (REDIS_ADDR : string) : string :=
  if bool_decide (REDIS_ADDR = "") then "localhost:6379" else REDIS_ADDR.

Definition cluster_addrs (REDIS_CLUSTER_ADDRS : string) : list string :=
  let addrs := split_comma REDIS_CLUSTER_ADDRS in
  if bool_decide (addrs = [""]) then ["127.0.0.1:7000"; "127.0.0.1:7001"; "127.0.0.1:7002"] else addrs.

(** ** The programs *)
Section programs.
Context {S : Type} `{!RedisOps S}.
(** The connection, the attempts and the steps of the loops. *)
Context (ping : list string → go S (option error)) (fuel : nat).
Context (asleep reign : list hop).

(** [context.WithTimeout(ctx, d)] of the background context. *)
Definition WithTimeout (d : Z) : go S context :=
  now ← time_now; mret (Ctx (Some (now + d)) ErrDeadlineExceeded).

Definition Sleep (d : Z) : go S unit := _ ← select_ctx_timer Background d; mret tt.

(** The guard at [i], released with the error dropped. *)
Definition unlock_quietly {L} `{!Lease S L} (i : nat) (gs : list (Handout.Guard L)) : go S (list (Handout.Guard L)) :=
  '(gs, _) ← guard_unlock i gs; mret gs.

(** The read-write mutex: both sides in turn. *)
Definition demo_rwmutex (client : Client) (rlock wlock : string) (say : string → process S unit) : process S unit :=
  let rw := NewRWMutex client "config:tenant:1001" [] in
  '(st, o) ← lift (RLock rw fuel Background rwmstate_empty);
  rg ← granted rlock o;
  _ ← say "read lock held";
  gs ← lift (unlock_quietly rg (rws_guards st));
  '(st, o) ← lift (RWMutex.Lock rw fuel Background
    {| rws_guards := gs; rws_write := rws_write st; rws_read := rws_read st |});
  wg ← granted wlock o;
  _ ← say "write lock held";
  _ ← lift (unlock_quietly wg (rws_guards st));
  mret tt.

(** [NewSemaphore] panics for a capacity below one. *)
Definition demo_semaphore (client : Client) (name : string) : process S Semaphore :=
  match NewSemaphore client name 20 [] with
  | Some sem => mret sem
  | None => unpanic (Panic "distsync: semaphore capacity must be >= 1")
  end.

(** What the programs tolerate of the leader's error. *)
Definition basic_tolerates (err : option error) : bool :=
  match err with None => true | Some e => errors_Is e ErrLeadershipLost end.
Definition cluster_tolerates (err : option error) : bool :=
  match err with None => true | Some e => same_sentinel e ErrLeadershipLost end.

Definition demo_leader (client : Client) (d : Z) (tolerates : option error → bool) (format : string) : process S unit :=
  let leader := NewLeader client "scheduler" [] in
  leadCtx ← lift (WithTimeout d);
  '(_, o) ← lift (Run leader fuel leadCtx (Some (alone reign None)) lstate_empty);
  err ← granted format o;
  if tolerates err then mret tt else check format err.

Definition basic_main (REDIS_ADDR : string) : process S unit :=
  let addr := basic_addr REDIS_ADDR in
  err ← lift (ping [addr]);
  _ ← match err with
      | Some e => Fatalf "cannot reach redis at %s (%v) — start one with: docker run -p 6379:6379 redis:7"
                    [AString addr; AError e]
      | None => mret tt
      end;
  let client := New [WithMetrics (Some (metricsSink "prometheus")); WithTracer (Some (tracerSink "otel"))] in
  let mu := NewMutex client "order:10001" [OptLease (10 * Second); Config.Fencing] in
  '(st, o) ← lift (Mutex.Lock mu fuel Background mstate_empty);
  i ← granted "lock: %v" o;
  _ ← Printf "locked order:10001, fencing token = %d"
        [AInt (match ms_guards st !! i with Some guard => g_fencing guard | None => 0 end)];
  _ ← lift (Sleep (100 * Millisecond));
  gs ← lift (at_index (use_guard asleep) i (ms_guards st));
  '(_, err) ← lift (guard_unlock i gs);
  _ ← check "unlock: %v" err;
  _ ← Println "unlocked";
  sem ← demo_semaphore client "openai:gpt5";
  o ← lift (sem_Acquire sem fuel Background 1);
  permit ← granted "acquire: %v" o;
  r ← lift (Available sem);
  free ← must r;
  _ ← Printf "acquired 1 AI permit, %d still free" [AInt free];
  _ ← lift (permit_Release permit);
  _ ← Println "released permit";
  _ ← demo_rwmutex client "rlock: %v" "wlock: %v" Println;
  rl ← unpanic (NewRateLimiter client "tenant:1001" (PerSecond (of_Z 100)) []);
  r ← lift (rl_Acquire fuel Background rl (of_Z 1));
  o ← unpanic r;
  _ ← granted "rate limit: %v" o;
  _ ← Println "rate limiter allowed 1 request";
  rlStrict ← unpanic (NewRateLimiter client "tenant:1001:strict" (PerSecond (of_Z 100)) [SlidingWindow]);
  r ← lift (Allow rlStrict (of_Z 1));
  '(ok, retry, err) ← unpanic r;
  _ ← check "sliding allow: %v" err;
  _ ← Printf "sliding-window allow: ok=%v retryAfter=%v" [ABool ok; ADuration retry];
  _ ← demo_leader client (2 * Second) basic_tolerates "leader run: %v";
  Println "demo done".

Definition cluster_main (REDIS_CLUSTER_ADDRS : string) : process S unit :=
  err ← lift (ping (cluster_addrs REDIS_CLUSTER_ADDRS));
  _ ← check "cannot reach cluster (start it first, see the header): %v" err;
  let client := New [] in
  let mu := NewMutex client "order:10001" [] in
  '(st, o) ← lift (Mutex.Lock mu fuel Background mstate_empty);
  i ← granted "mutex: %v" o;
  _ ← Printf "mutex locked, fencing token = %d"
        [AInt (match ms_guards st !! i with Some guard => g_fencing guard | None => 0 end)];
  _ ← lift (unlock_quietly i (ms_guards st));
  sem ← demo_semaphore client "ai:gpt5";
  o ← lift (sem_Acquire sem fuel Background 1);
  permit ← granted "semaphore: %v" o;
  _ ← Println "semaphore permit acquired";
  _ ← lift (permit_Release permit);
  _ ← demo_rwmutex client "rwmutex: %v" "rwmutex write: %v" (λ _, mret tt);
  rl ← unpanic (NewRateLimiter client "tenant:1001" (PerSecond (of_Z 100)) [SlidingWindow]);
  r ← lift (rl_Acquire fuel Background rl (of_Z 1));
  o ← unpanic r;
  _ ← granted "ratelimit: %v" o;
  _ ← demo_leader client (500 * Millisecond) cluster_tolerates "leader: %v";
  Println "all primitives OK on a real Redis Cluster".
End programs.

(** ** The addresses *)

Definition join_comma (ws : list string) : string :=
  match ws with [] => "" | w :: ws => foldl (λ s w, s +:+ String comma w) w ws end.

Lemma append_assoc (a b c : string) : a +:+ (b +:+ c) = (a +:+ b) +:+ c.
Proof. induction a as [|x a IH]; [done|]. exact (f_equal (String x) IH). Qed.

Lemma join_comma_cons w1 w2 ws : join_comma (w1 :: w2 :: ws) = w1 +:+ String comma (join_comma (w2 :: ws)).
Proof.
  unfold join_comma; cbn [foldl]. revert w2; induction ws as [|w ws IH]; intros w2; [done|]. cbn [foldl].
  rewrite <- IH. f_equal. symmetry. exact (append_assoc w1 (String comma w2) (String comma w)).
Qed.

Lemma split_comma_nonempty s : split_comma s ≠ [].
Proof. destruct s as [|c s]; [done|]. simpl. case_bool_decide; [done|]. by destruct (split_comma s). Qed.

(** Splitting and joining is a round trip, so no address is lost, and only
    the unset variable means the default cluster. *)
Lemma join_split s : join_comma (split_comma s) = s.
Proof.
  induction s as [|c s IH]; [done|]. cbn [split_comma]. pose proof (split_comma_nonempty s) as Hne.
  destruct (split_comma s) as [|w ws]; [done|]. case_bool_decide as Hc; [rewrite join_comma_cons, IH; by subst|].
  rewrite <- IH. destruct ws as [|w2 ws]; [done|]. by rewrite !join_comma_cons.
Qed.

Theorem cluster_addrs_spec s :
  (s = "" → cluster_addrs s = ["127.0.0.1:7000"; "127.0.0.1:7001"; "127.0.0.1:7002"]) ∧
  (s ≠ "" → join_comma (cluster_addrs s) = s).
Proof.
  unfold cluster_addrs. split; [by intros ->|]. intros Hs. case_bool_decide as E; [|apply join_split].
  destruct Hs. by rewrite <- (join_split s), E.
Qed.

(** ** Losing the leadership *)
Section loss.
Context {S : Type} `{!RedisOps S}.

(** The error of a lost leadership is always a joined one: it matches
    [ErrLeadershipLost] but never is that value, so that the cluster program,
    which compares with [!=], ends with [log.Fatalf] where the basic program,
    which asks [errors.Is], goes on. *)
Theorem loss_not_tolerated l (le : SingleOwner) fence during (w : world S) :
  IsLeader (lead l le fence (Own <$> during) w).1.2 = false →
  let err := (runHeld l le fence (alone during None) w).1.2 in
  basic_tolerates err = true ∧ cluster_tolerates err = false.
Proof.
  unfold runHeld, mbind, go_bind; cbn [alone cb_during cb_result cb_after]. rewrite lead_alone.
  unfold step_down, mbind, go_bind.
  destruct (monitor _ _ w) as [h0 w0]. destruct (do_ops during h0 w0) as [[h es] w1]; simpl.
  unfold IsLeader; simpl. intros Hl%negb_false_iff. rewrite Hl.
  destruct (Guard.stop h w1) as [h1 w2]. destruct (Guard.release h1 w2) as [[h2 [rerr|]] w3]; simpl; split; done.
Qed.
End loss.

(** ** What the programs do in every world *)
Section tame.
Context {S : Type} `{!RedisOps S}.

Lemma rl_Acquire_no_panic fuel ctx rl n (w : world S) msg :
  limiter_ok rl → (rl_Acquire fuel ctx rl n w).1 ≠ Panic msg.
Proof.
  intros Hok. revert w; induction fuel as [|fuel IH]; intros w; cbn [rl_Acquire]; [done|].
  unfold mbind at 1, go_bind at 1. destruct (Allow_no_panic rl n w Hok) as (v & E & _).
  destruct (Allow rl n w) as [r w1]; simpl in E; subst r. destruct v as [[[] retry] [e|]]; try done.
  unfold mbind, go_bind, ctx_Err. destruct (ctx_err ctx (w_now w1)); [done|].
  destruct (select_ctx_timer _ _ w1) as [[] w2]; [done|]. apply IH.
Qed.

(** [tame p Q]: [p] reports events of the vocabulary with balanced spans
    however it ends, it does not panic, and what it returns satisfies [Q]. *)
Definition tame {A} (p : process S A) (Q : A → Prop) : Prop :=
  ∀ out, emits 0 (p out) 0 (λ x, match x.1 with Returned a => Q a | Panicked _ => False | _ => True end).

Lemma tame_ret {A} (a : A) (Q : A → Prop) : Q a → tame (mret a) Q.
Proof. intros H out. by apply emits_ret. Qed.
Lemma tame_lift {A} (p : go S A) (Q : A → Prop) : emits 0 p 0 Q → tame (lift p) Q.
Proof. intros H out. eapply emits_bind; [exact H|]. intros a Ha. by apply emits_ret. Qed.
Lemma tame_bind {A B} (p : process S A) (f : A → process S B) Q T :
  tame p Q → (∀ a, Q a → tame (f a) T) → tame (p ≫= f) T.
Proof.
  intros Hp Hf out. unfold mbind, process_bind. eapply emits_bind; [apply Hp|].
  intros [[a|l|m|] out'] H; simpl in H; [by apply Hf|by apply emits_ret|done|by apply emits_ret].
Qed.
Lemma tame_say (s : string) : tame (Println s) (λ _, True).
Proof. intros out. by apply emits_ret. Qed.
Lemma tame_printf format args : tame (Printf format args) (λ _, True).
Proof. intros out. by apply emits_ret. Qed.
Lemma tame_fatal {A} format args (Q : A → Prop) : tame (Fatalf format args) Q.
Proof. intros out. by apply emits_ret. Qed.
Lemma tame_check format err : tame (check format err) (λ _, True).
Proof. destruct err; [apply tame_fatal|by apply tame_ret]. Qed.
Lemma tame_granted {A} format (o : outcome A) (Q : A → Prop) :
  match o with Granted a => Q a | _ => True end → tame (granted format o) Q.
Proof. destruct o; intros H; [by apply tame_ret|apply tame_fatal|]. intros out. by apply emits_ret. Qed.
Lemma tame_must {A} (r : error + A) : tame (must r) (λ _, True).
Proof. destruct r; [apply tame_fatal|by apply tame_ret]. Qed.
Lemma tame_unpanic {A} (r : ran A) (Q : A → Prop) :
  (∀ msg, r ≠ Panic msg) → (∀ a, r = Ran a → Q a) → tame (unpanic r) Q.
Proof. intros H HQ. destruct r as [a|m]; [by apply tame_ret, HQ|by destruct (H m)]. Qed.

(** The calls of the programs. *)
Lemma emits_and {A} n (p : go S A) m (Q T : A → Prop) :
  emits n p m Q → (∀ w, T (p w).1) → emits n p m (λ a, Q a ∧ T a).
Proof. intros H HT w. destruct (H w) as (es & ? & ? & ? & ?). exists es; auto. Qed.

Lemma tame_limiter {B} client name opts (f : RateLimiter → process S B) T :
  (∀ msg, NewRateLimiter client name (PerSecond (of_Z 100)) opts ≠ Panic msg) →
  (∀ rl, limiter_ok rl → tame (f rl) T) →
  tame (unpanic (NewRateLimiter client name (PerSecond (of_Z 100)) opts) ≫= f) T.
Proof.
  intros Hn Hf. eapply tame_bind; [apply (tame_unpanic _ limiter_ok Hn)|exact Hf].
  intros rl. apply new_limiter_ok.
Qed.

Lemma tame_acquire {B} rl fuel (f : ran (outcome unit) → process S B) T :
  limiter_ok rl → (∀ r, (∀ msg, r ≠ Panic msg) → tame (f r) T) →
  tame (lift (rl_Acquire fuel Background rl (of_Z 1)) ≫= f) T.
Proof.
  intros Hok Hf. eapply tame_bind; [apply tame_lift, (emits_and _ _ _ (λ _, True) (λ r, ∀ msg, r ≠ Panic msg)); [apply emits_rl_acquire|]|].
  - intros w msg. by apply rl_Acquire_no_panic.
  - intros r [_ Hr]. by apply Hf.
Qed.

Lemma tame_unlock {L B} `{!Lease S L, !QuietLease S L} i (gs : list (Handout.Guard L)) (f : _ → process S B) T :
  guards_named gs → (∀ gs', guards_named gs' → tame (f gs') T) → tame (lift (unlock_quietly i gs) ≫= f) T.
Proof.
  intros H Hf. eapply tame_bind; [apply tame_lift|exact Hf].
  unfold unlock_quietly. eapply emits_bind; [by apply emits_guard_unlock|]. intros [gs' err] Hg. by apply emits_ret.
Qed.
End tame.

(** A step of a program: a line, a test, or a call that reports nothing. *)
Ltac tame_step :=
  cbn beta zeta;
  match goal with
  | |- tame (mret _) _ => by apply tame_ret
  | |- tame (Println _) _ => apply tame_say
  | |- tame (Println _ ≫= _) _ => eapply tame_bind; [apply tame_say|intros _ _]
  | |- tame (Printf _ _ ≫= _) _ => eapply tame_bind; [apply tame_printf|intros _ _]
  | |- tame (check _ _ ≫= _) _ => eapply tame_bind; [apply tame_check|intros _ _]
  | |- tame (must _ ≫= _) _ => eapply tame_bind; [apply tame_must|let a := fresh "a" in intros a _]
  | |- tame (granted _ _ ≫= _) _ =>
      eapply (tame_bind _ _ (λ _, True)); [apply tame_granted; by case_match|let a := fresh "a" in intros a _]
  end.

Section programs_tame.
Context {S : Type} `{!RedisOps S}.
Context (ping : list string → go S (option error)) (Hping : ∀ addrs, silent (ping addrs)).
Context (fuel : nat) (asleep reign : list hop).

Lemma tame_rwmutex client rlock wlock say :
  (∀ s, tame (say s) (λ _, True)) → tame (demo_rwmutex (S := S) fuel client rlock wlock say) (λ _, True).
Proof.
  intros Hsay. unfold demo_rwmutex.
  eapply tame_bind; [apply tame_lift, emits_rw_rlock; constructor|]. intros [st o] Hst. tame_step.
  eapply tame_bind; [apply Hsay|intros _ _]. apply tame_unlock; [exact Hst|]. intros gs Hgs.
  eapply tame_bind; [apply tame_lift, emits_rw_lock, Hgs|]. intros [st1 o1] Hst1. tame_step.
  eapply tame_bind; [apply Hsay|intros _ _]. apply tame_unlock; [exact Hst1|]. intros gs1 _. tame_step.
Qed.

Lemma tame_semaphore client name : tame (demo_semaphore (S := S) client name) (λ _, True).
Proof. by apply tame_ret. Qed.

Lemma tame_leader client d tolerates format :
  tame (demo_leader (S := S) fuel reign client d tolerates format) (λ _, True).
Proof.
  unfold demo_leader. eapply (tame_bind _ _ (λ _, True)).
  { apply tame_lift. unfold WithTimeout. by repeat emit_step. }
  intros ctx _. eapply tame_bind; [apply tame_lift, emits_run|]. intros [st o] _. tame_step.
  destruct (tolerates a); [tame_step|apply tame_check].
Qed.

Lemma tame_permit {B} s (f : Permit → process S B) format T :
  (∀ p, named (p_handle p) → tame (f p) T) →
  tame (o ← lift (sem_Acquire s fuel Background 1); p ← granted format o; f p) T.
Proof.
  intros Hf. eapply tame_bind; [apply tame_lift, emits_sem_acquire|]. intros o Ho.
  eapply tame_bind; [by apply (tame_granted _ _ (λ p, named (p_handle p)))|exact Hf].
Qed.

Lemma emits_permit_release n p :
  named (p_handle p) → emits n (permit_Release (S := S) p) n (λ _, True).
Proof.
  intros H. unfold permit_Release. eapply emits_bind; [by apply emits_release|]. intros [h e] _. by apply emits_ret.
Qed.

Lemma basic_tame REDIS_ADDR : tame (basic_main (S := S) ping fuel asleep reign REDIS_ADDR) (λ _, True).
Proof.
  unfold basic_main. eapply tame_bind; [apply tame_lift, emits_silent, Hping|]. intros err _.
  eapply (tame_bind _ _ (λ _, True)); [destruct err; [apply tame_fatal|by apply tame_ret]|intros _ _].
  eapply tame_bind; [apply tame_lift, emits_mutex_lock; constructor|]. intros [st o] Hst. do 2 tame_step.
  eapply (tame_bind _ _ (λ _, True)); [apply tame_lift; unfold Sleep; by repeat emit_step|intros _ _].
  eapply tame_bind; [apply tame_lift, (emits_at_index _ (λ g, named (g_handle g))); [|exact Hst]|].
  { intros g. apply emits_use_guard. }
  intros gs Hgs. eapply tame_bind; [apply tame_lift, emits_guard_unlock, Hgs|]. intros [gs' err'] _.
  do 2 tame_step. eapply tame_bind; [apply tame_semaphore|]. intros sem _. apply tame_permit. intros p Hp.
  eapply (tame_bind _ _ (λ _, True)); [apply tame_lift; unfold Available; by repeat emit_step|]. intros r _.
  do 2 tame_step. eapply tame_bind; [by apply tame_lift, emits_permit_release|]. intros _ _. tame_step.
  eapply tame_bind; [apply tame_rwmutex; intros; apply tame_say|intros _ _].
  apply tame_limiter; [by vm_compute|]. intros rl Hrl. apply tame_acquire; [done|]. intros r1 Hr1.
  eapply tame_bind; [by apply (tame_unpanic _ (λ _, True))|]. intros o1 _. do 2 tame_step.
  apply tame_limiter; [by vm_compute|]. intros rl2 Hrl2.
  eapply tame_bind; [apply tame_lift, (emits_and _ _ _ (λ _, True) (λ r, ∃ v, r = Ran v)); [apply emits_allow|]|].
  { intros w. destruct (Allow_no_panic rl2 (of_Z 1) w Hrl2) as (v & E & _). exact (ex_intro _ v E). }
  intros r2 [_ [v ->]]. destruct v as [[ok retry] err2].
  eapply tame_bind; [by apply (tame_unpanic _ (λ _, True))|]. intros [[ok' retry'] err3] _. do 2 tame_step.
  eapply tame_bind; [apply tame_leader|intros _ _]. tame_step.
Qed.

Lemma cluster_tame REDIS_CLUSTER_ADDRS : tame (cluster_main (S := S) ping fuel reign REDIS_CLUSTER_ADDRS) (λ _, True).
Proof.
  unfold cluster_main. eapply tame_bind; [apply tame_lift, emits_silent, Hping|]. intros err _. tame_step.
  eapply tame_bind; [apply tame_lift, emits_mutex_lock; constructor|]. intros [st o] Hst. do 2 tame_step.
  apply tame_unlock; [exact Hst|]. intros gs _.
  eapply tame_bind; [apply tame_semaphore|]. intros sem _. apply tame_permit. intros p Hp. tame_step.
  eapply tame_bind; [by apply tame_lift, emits_permit_release|]. intros _ _.
  eapply tame_bind; [apply tame_rwmutex; intros; by apply tame_ret|intros _ _].
  apply tame_limiter; [by vm_compute|]. intros rl Hrl. apply tame_acquire; [done|]. intros r1 Hr1.
  eapply tame_bind; [by apply (tame_unpanic _ (λ _, True))|]. intros o1 _. tame_step.
  eapply tame_bind; [apply tame_leader|intros _ _]. tame_step.
Qed.

(** The demonstration programs never panic, and however they end, through
    [log.Fatalf] (which skips what is deferred) included, the library has
    finished every span that it started and reported its own vocabulary only:
    what the server and the network do cannot make a program of this kind lose
    track of the library's calls. *)
Theorem demos_tame addr addrs out (w : world S) :
  w_log w = [] →
  let basic := basic_main ping fuel asleep reign addr out w in
  let cluster := cluster_main ping fuel reign addrs out w in
  (∀ msg, basic.1.1 ≠ Panicked msg ∧ cluster.1.1 ≠ Panicked msg) ∧
  Forall (λ w', Forall (from_vocabulary primitives reasons) (rev (w_log w')) ∧ spans 0 (rev (w_log w')) = Some 0%nat)
    [basic.2; cluster.2].
Proof.
  intros Hw basic cluster.
  destruct (basic_tame addr out w) as (es1 & E1 & V1 & S1 & H1).
  destruct (cluster_tame addrs out w) as (es2 & E2 & V2 & S2 & H2).
  fold basic in E1, H1. fold cluster in E2, H2. rewrite Hw, app_nil_r in E1, E2. split.
  - intros msg. split; intros E; [by rewrite E in H1|by rewrite E in H2].
  - rewrite !Forall_cons. by rewrite E1, E2, !rev_involutive.
Qed.
End programs_tame.

(** ** Examples: the programs against a server in memory *)
Module Ex.

Definition pong (_ : list string) : go mem (option error) := mret None.
Definition turns (k : nat) (d : Z) : list turn :=
  replicate k (Turn [wait Millisecond] [[wait Millisecond]] [wait Millisecond] None false 0) ++
  replicate 100 (Turn [wait d] [[]] [] None false 0).
Definition start (ts : list turn) : world mem :=
  World (mem_empty Second) Second ts ["a"; "b"; "c"; "d"; "e"; "f"; "g"; "h"] [].

(** On a server that answers, the basic program prints all its lines, and
    every lease it took is off the server. *)
Definition basic : ended unit * list line * world mem :=
  basic_main pong 3 [ORenew] [OWait; ORenew; OWait] "" [] (start (turns 200 1)).

Lemma basic_runs :
  basic.1.1 = Returned tt ∧
  rev basic.1.2 =
    [Line "locked order:10001, fencing token = %d" [AInt 1]; Line "unlocked" [];
     Line "acquired 1 AI permit, %d still free" [AInt 19]; Line "released permit" [];
     Line "read lock held" []; Line "write lock held" []; Line "rate limiter allowed 1 request" [];
     Line "sliding-window allow: ok=%v retryAfter=%v" [ABool true; ADuration 0]; Line "demo done" []] ∧
  Forall (λ k, r_view (w_srv basic.2) !! k = None)
    ["{order:10001}"; "{openai:gpt5}"; "{config:tenant:1001}:writer"; "{config:tenant:1001}:readers"; "{scheduler}"].
Proof. split_and!; [vm_compute; reflexivity|vm_compute; reflexivity|by_compute]. Qed.

(** When the leader is paused beyond its lease, the cluster program dies and
    the basic one ends normally. *)
Definition cluster_paused : ended unit * list line * world mem :=
  cluster_main pong 3 [OTimer; OWait; OTimer] "" [] (start (turns 44 (11 * Second))).
Definition basic_paused : ended unit * list line * world mem :=
  basic_main pong 3 [] [OTimer; OWait; OTimer] "" [] (start (turns 48 (11 * Second))).

Lemma cluster_dies :
  cluster_paused.1.1 = Fatal (Line "leader: %v" [AError (ErrJoin [ErrJoin [ErrLeadershipLost]; ErrLost])]) ∧
  basic_paused.1.1 = Returned tt.
Proof. split; vm_compute; reflexivity. Qed.

(** A leader that loses its leadership, and the errors it gets. *)
Definition cron : Leader := NewLeader (New []) "scheduler" [].
Definition lease : SingleOwner := set_expiresAt (10 * Second) (the_leader_lease cron "a").
Definition lossy : world mem := start (turns 1 (11 * Second)).

Lemma loss_not_tolerated_witness :
  basic_tolerates (runHeld cron lease 0 (alone [OTimer; OWait; OTimer] None) lossy).1.2 = true ∧
  cluster_tolerates (runHeld cron lease 0 (alone [OTimer; OWait; OTimer] None) lossy).1.2 = false.
Proof. apply (loss_not_tolerated cron lease 0 [OTimer; OWait; OTimer] lossy). vm_compute; reflexivity. Defined.

Lemma demos_tame_witness :
  (∀ msg, basic.1.1 ≠ Panicked msg) ∧ spans 0 (rev (w_log basic.2)) = Some 0%nat.
Proof.
  destruct (demos_tame pong ltac:(intros ? ?; reflexivity) 3 [ORenew] [OWait; ORenew; OWait] "" "" []
    (start (turns 200 1)) eq_refl) as [H1 H2].
  split; [intros msg; exact (proj1 (H1 msg))|]. by apply Forall_cons in H2 as [[_ H2] _].
Defined.
End Ex.
